(* ===== verification/_CoqProject ===== *)
-Q . S2P
Prelude.v
Bytes.v
Latch.v
Epoch.v
Slot.v
Bits.v
Node.v
NodeSpec.v
NodeOps.v
NodeThm.v
Free.v
Mem.v
Simulate.v
Arena.v
ArenaSpec.v
ArenaThm.v
Shape.v
Raw.v
Read.v
Inv.v
Descent.v
Commit.v
Write.v
Budget.v
Update.v
Pool.v
Chain.v
Guard.v
Commits.v
Order.v
Rules.v
WriteSpec.v
Remove.v
RemoveSpec.v
Shrink.v
ShrinkSpec.v
Walk.v
WalkSpec.v
Cursor.v
CursorSpec.v
Tree.v
Version.v
ANode.v
Retired.v
AStorage.v
Map.v
Iter.v
ATree.v
AMap.v
MapSpec.v
ABudget.v
AMapSpec.v
ARefine.v
IterSpec.v
Refine.v
TreeThm.v
IterThm.v
AThm.v
VTree.v
VMap.v
AVTree.v
AVMap.v
VersionSpec.v
VLeafSpec.v
VMapSpec.v
VMapOps.v
AVSpec.v
AVMapSpec.v
AVBudget.v
VRefine.v
AVRefine.v
VIterSpec.v
VThm.v
AVThm.v
