(* ===== verification/Prelude.v ===== *)
(** * artmap: a verification development

    artmap is a concurrent ordered map: an adaptive radix tree whose nodes are
    read optimistically, under a version latch, and written under the latch.
    The library has seven parts, and this development follows them.

    - _Primitives_: the version latch and the chain lock ([src/src/latch.rs],
      file [Latch]); the epoch guards ([src/src/guard.rs], file [Epoch]); the tagged slots ([src/src/raw/slot.rs]) and the striped
      counter ([src/src/raw/mod.rs]), file [Slot]; keys as bytes, their packing,
      prefix tests and order (parts of [node.rs], [cursor.rs] and [mod.rs] of
      [src/src/raw/]), file [Bytes]; bitmaps and the vector search
      ([src/src/simd.rs]), file [Bits].
    - _Nodes_ ([src/src/raw/node.rs]): the layouts [Node4], [Node16], [Node48]
      and [Node256] with their header, file [Node]; the partial map that they
      implement, [NodeSpec] and [NodeOps]; what they promise, [NodeThm].
    - _The raw tree_ ([src/src/raw/]), over any storage and any leaf: its state
      and the programs that run on it, [Mem]; the shared accesses, the pool of
      prepared nodes and the parent guard, [Raw]; point lookups, [Read]
      ([read.rs]); inserts, [Write] ([write.rs]); removes, [Remove]
      ([remove.rs]); the fitting of nodes, [Shrink] ([shrink.rs]); destroy,
      clear and validate, [Walk] ([walk.rs]); the iterator cursor, [Cursor]
      ([cursor.rs]).
    - _The maps_: the heap tree, its leaves and keys, [Tree] ([src/src/tree.rs],
      [node.rs], [key.rs]); [ArtMap], [ArtSet] and the entry handles, [Map]
      ([src/src/lib.rs], [set.rs], [entry.rs]); the iterators, [Iter]
      ([src/src/iter.rs]).
    - _The versioned maps_ ([src/src/versioned/]), over the same raw tree: a
      leaf with its version chain, [Version] ([node.rs]); the protocol of the
      chains, [VTree] ([tree.rs]); [VersionedArtMap], its handles and iterators,
      [VMap] ([map.rs], [entry.rs], [iter.rs]).
    - _The arena_ ([src/src/arena/]): the bump allocator and its chunks per
      thread, [Arena] ([mod.rs]), whose programs [Free] defines; leaves and
      version nodes at offsets, [ANode] ([node.rs]); the lists of retired
      leaves and versions, [Retired], and the storage that puts the raw tree's
      objects in the arena, [AStorage] ([storage.rs]).
    - _The maps in an arena_, over the same raw tree: [ArenaArtMap] with its
      inserters, [ATree] and [AMap] ([tree.rs], [map.rs], [iter.rs]);
      [ArenaVersionedArtMap], [AVTree] and [AVMap] ([versioned_tree.rs],
      [versioned_map.rs], [versioned_iter.rs]).

    The raw tree knows its storage and its leaves through classes ([Layout] and
    [LeafNode] in [Mem]): the heap and the arena, and the four kinds of leaves,
    are instances. The two versioned leaves share a class of their
    own, [LeafSlots] ([Version]), since the arena's has no slots; the protocol
    of the chains ([VTree]), its invariant and the specification of what reads
    or unlinks versions are proved once, over that class.

    ** How the program is modelled

    A [RawTree] is a record ([Mem]): the root slot and latch, the counter, a
    finite map from addresses to nodes with their latch words, one from
    addresses to leaves, the retired objects in order, the owned leaves (the
    armed [Unpublished] of the source), and the cell that [unlink_leaf] shares
    with the callback that it passes to the tree. An algorithm is a program
    ([prog]): a tree of the accesses ([op]) that it makes to that state, one
    latch word, node read or node write at a time, in the order of the source.
    [run] executes a program, alone: it is [Done] with a result and a state, or
    [Panicked] (a failed assertion, an [expect] of [None], a write outside a
    latch, a use of memory that is not allocated), [Blocked] (a lock that is
    held) or [NoFuel]. [wp p Q s] is total correctness: the program run alone
    from [s] is [Done], and its result and final state satisfy [Q]. Every loop
    of the source takes fuel, and every theorem about it shows that the fuel is
    enough, since [wp] excludes [NoFuel]:
    - the retry loops take [retries]; at rest one attempt is enough;
    - a descent takes one turn per byte of the key and one more: each turn
      goes past a branch byte;
    - a whole-tree walk takes one turn per node and leaf of the memory;
    - [unlink_emptied] takes one turn per node of the memory;
    - a step of the cursor takes [cursor_fuel] turns, a bound on the slots of
      the nodes of the memory;
    - a walk along a version chain takes [chain_fuel], which has to exceed the
      longest chain; a chain grows by one version per operation;
    - an allocation in an arena takes one turn of its loop when it runs alone;
      among threads the theorems hold for every fuel, of the accesses made;
    - the drop of an arena leaf, and of a retired list, takes one turn per node.

    ** The state invariant

    [Shape] reads a tree as a set of edges (slots with the path that leads to
    them); [edges_ok] says that a node's start path is the path of the edge to
    it and a leaf's key extends the path of its edge. [Inv.wf s B m P] adds to
    it: [node_ok] of every node, free latches, no empty node, and the
    accounting of objects. [B] gives the start paths, [m] the leaf of each key,
    [P] the pool. [Descent] derives what a descent may conclude from it;
    [Commit], [Update] and [Commits] rebuild it after each kind of commit;
    [Guard] and [Rules] run the latched sections; [Pool] and [Chain] the
    unpublished nodes. [Order] lists the leaves of a tree in key order, which
    the walks ([WalkSpec], [ShrinkSpec]) and the cursor ([CursorSpec]) follow.

    A versioned leaf has an invariant of its own, [chain_inv] ([VersionSpec]):
    its chain is a list of links in which versions descend strictly, every node
    made for the leaf is in the chain, retired, or a dead slot, and the flags
    of a node say which. [vrest] ([VMapSpec]) joins it with [wf] and the count of
    live heads.

    The arena maps use these invariants as they are. An inserter adds
    [cache_valid] ([AMapSpec]): its cached node still has the cached path, or
    its version has moved on. [allocs] ([Budget]) bounds the nodes that a
    program allocates whatever its accesses return, and [ABudget] turns that
    into bytes of an arena.

    ** What is proved

    - Nodes ([NodeThm], [Bits], [Bytes]): every operation of the four layouts is
      the operation of one partial map, the panics of its misuse included; the
      bit-level and vector searches are linear searches; the key comparison is
      the lexicographic order.
    - Latches ([Latch]): under every interleaving of any number of threads,
      validated optimistic sections read a snapshot, an upgrade confirms what
      was read, writers exclude each other, and an obsolete node never changes;
      the chain lock has one holder at most, and none once dead.
    - The tree ([TreeThm], proofs in [WriteSpec], [RemoveSpec], [ShrinkSpec] and
      [WalkSpec]): lookups, inserts and removes at rest do what the finite map
      of the keys does, on every branch and with every failure of the storage;
      the walks end, visit every object once and leave what they promise;
      nothing leaks and nothing is retired twice.
    - The cursor and the iterators ([IterThm], proofs in [CursorSpec] and
      [IterSpec]): a cursor is a double-ended queue of the leaves in its range,
      in key order; ranges and scans yield the entries of the map.
    - The maps ([MapSpec], [Refine], [TreeThm]): any sequence of operations of
      an [ArtMap] returns what a finite map from key bytes to values returns.
      The refinement is a forward simulation ([Simulate]) that all four maps
      share; the specification is a relation, since an arena may be full.
    - The versioned maps ([VThm], proofs in [VLeafSpec], [VMapOps], [VRefine] and
      [VIterSpec]): any sequence of operations returns what a finite map from
      key bytes to histories returns; pruning keeps every snapshot at or above
      its watermark; a captured version never changes; every heap version node
      is freed or retired, once; the iterators yield the live keys.
    - The arena ([ArenaThm], [Retired], proofs in [ArenaSpec]): under every
      interleaving of threads, allocations never overlap, across resets too; a
      lone allocation takes the next range that fits, in the thread's chunk or
      at the cursor; the list of retired
      leaves ends with each leaf once.
    - The maps in an arena ([AThm] and [AVThm], proofs in [AMapSpec], [ARefine],
      [ABudget], [AVSpec], [AVMapSpec], [AVBudget] and [AVRefine]): any sequence
      of operations returns what the finite map, or the map of histories,
      returns, but that what needs room may be refused and then changes nothing;
      an inserter's insert is an insert on the cached path and on the full one;
      with [max_insert_bytes] left an insert is not refused; the drop of a
      versioned map drops every version once.
    - Epoch guards ([Epoch]): under every interleaving of threads, of the
      collector and of the teardown of thread-locals, nothing that was not
      yet retired when a guard was taken is destroyed while it is held. The collector is a parameter with
      the laws that its documentation states, and a counting collector shows
      that they can hold.

    ** Not modelled

    - _Interleavings of whole operations._ The algorithms are modelled access
      by access, so a scheduler could interleave them, but the theorems on the
      tree are about operations that run alone; what concurrency adds, the
      latch protocol, is proved for all interleavings of its own steps. Memory
      is sequentially consistent. The theorems on the cursor take a tree that
      does not change between its steps; the loop of [prune_all], which changes
      it, is modelled ([vmap_prune_all], [avmap_prune_all]) without a theorem.
    - _Offsets and memory of an arena._ The trees in an arena name objects by
      locations, as on the heap, and the storage keeps the account of bytes
      beside them: the allocator's theorems say that the ranges are apart.
      [max_insert_bytes] is proved for a thread that has the arena to itself;
      a lost race makes an allocation claim a whole chunk.
    - _Reclamation together with the trees._ Retired objects stay in the memory
      of the trees' model, in order; [Epoch] proves when they may be destroyed,
      on its own. The [*_with_guard] variants, which differ in who holds the pin,
      are left out. Of crossbeam only what [Collector] states is used.
    - The debug assertions of the node layer; those of the algorithms are
      panics.
    - The shims for model checking of [src/src/sync.rs], and the tests.
    - Keys are seen through [AsBytes], taken to be deterministic. *)

From Stdlib Require Export ZArith Lia.
From stdpp Require Export base numbers option gmap list.

Declare Scope artmap_scope.
Delimit Scope artmap_scope with art.

(** ** Automation *)

Create HintDb art discriminated.

(** Case analysis on the boolean or option scrutinee of the goal, keeping the
    equation. *)
Ltac case_match_eq :=
  match goal with
  | |- context [match ?x with _ => _ end] => destruct x eqn:?
  | |- context [if ?x then _ else _] => destruct x eqn:?
  end.

(** Splits conjunctions and existentials of the context, and substitutes. *)
Ltac breakup :=
  repeat match goal with
  | H : _ ∧ _ |- _ => destruct H
  | H : ∃ _, _ |- _ => destruct H
  | H : Some _ = Some _ |- _ => injection H as H; subst
  | H : (_, _) = (_, _) |- _ => injection H as H; subst
  | H : Some _ = None |- _ => discriminate H
  | H : None = Some _ |- _ => discriminate H
  end; subst.

(** ** Bits *)

Lemma testbit_high w n i : (0 <= w < 2 ^ n → 0 <= n <= i → Z.testbit w i = false)%Z.
Proof.
  intros Hw Hi. rewrite <- (Z.mod_small w (2 ^ n)) by done. by apply Z.mod_pow2_bits_high.
Qed.

Lemma bits_range w n :
  (0 <= w → 0 <= n → (∀ i, n <= i → Z.testbit w i = false) → 0 <= w < 2 ^ n)%Z.
Proof.
  intros Hw Hn H. assert (w mod 2 ^ n = w)%Z as <-.
  { apply Z.bits_inj'. intros i Hi. destruct (Z.lt_ge_cases i n).
    - by apply Z.mod_pow2_bits_low.
    - rewrite Z.mod_pow2_bits_high by lia. symmetry. by apply H. }
  apply Z.mod_pos_bound. by apply Z.pow_pos_nonneg.
Qed.

(** ** Lists *)

Section lists.
Context {A : Type}.
Implicit Types l k : list A.

(** Array stores: [<[i := x]>] on the two halves of an append. *)
Lemma insert_app_at l k x y :
  <[length l := x]> (l ++ y :: k) = l ++ x :: k.
Proof. rewrite insert_app_r_alt by lia. by rewrite Nat.sub_diag. Qed.

Lemma lookup_app_at l k x : (l ++ x :: k) !! length l = Some x.
Proof. rewrite lookup_app_r by lia. by rewrite Nat.sub_diag. Qed.

(** The loop that shifts the tail of an array one place to the right: it
    runs from the end, as [for i in (pos..count).rev()] does. *)
Definition shift_right `{Inhabited A} (pos count : nat) (l : list A) : list A :=
  foldl (λ acc i, <[S i := acc !!! i]> acc) l (rev (seq pos (count - pos))).

(** The loop that shifts it one place to the left: [for i in pos..count-1]. *)
Definition shift_left `{Inhabited A} (pos count : nat) (l : list A) : list A :=
  foldl (λ acc i, <[i := acc !!! S i]> acc) l (seq pos (count - 1 - pos)).

Lemma shift_right_spec `{Inhabited A} pre mid x post :
  shift_right (length pre) (length pre + length mid) (pre ++ mid ++ x :: post) =
  match mid with
  | [] => pre ++ x :: post
  | y :: _ => pre ++ y :: mid ++ post
  end.
Proof.
  unfold shift_right.
  replace (length pre + length mid - length pre) with (length mid) by lia.
  revert x post. induction mid as [|z mid IH] using rev_ind; intros x post; [done|].
  rewrite length_app, seq_app, rev_app_distr, foldl_app; cbn.
  rewrite <- !(assoc_L (++)). cbn.
  rewrite (list_lookup_total_alt _ (length pre + length mid)),
    (assoc_L (++) pre mid).
  rewrite <- length_app, lookup_app_at. cbn.
  replace (S (length (pre ++ mid))) with (length ((pre ++ mid) ++ [z]))
    by (rewrite length_app; cbn; lia).
  replace ((pre ++ mid) ++ z :: x :: post) with (((pre ++ mid) ++ [z]) ++ x :: post)
    by (by rewrite <- (assoc_L (++))).
  rewrite insert_app_at, <- !(assoc_L (++)); cbn.
  specialize (IH z (z :: post)).
  rewrite IH. by destruct mid.
Qed.

Lemma shift_left_spec `{Inhabited A} pre x mid post :
  shift_left (length pre) (length pre + S (length mid)) (pre ++ x :: mid ++ post) =
  match last mid with
  | None => pre ++ x :: post
  | Some z => pre ++ mid ++ z :: post
  end.
Proof.
  unfold shift_left.
  replace (length pre + S (length mid) - 1 - length pre) with (length mid) by lia.
  revert pre x. induction mid as [|y mid IH]; intros pre x; [done|].
  cbn [length seq foldl].
  rewrite list_lookup_total_alt.
  replace (pre ++ x :: (y :: mid) ++ post) with ((pre ++ [x]) ++ y :: mid ++ post)
    by (by rewrite <- (assoc_L (++))).
  replace (S (length pre)) with (length (pre ++ [x])) at 1
    by (rewrite length_app; cbn; lia).
  rewrite lookup_app_at. cbn.
  rewrite <- (assoc_L (++)); cbn. rewrite insert_app_at.
  specialize (IH (pre ++ [y]) y). revert IH.
  rewrite length_app; cbn. rewrite Nat.add_1_r.
  rewrite <- !(assoc_L (++)); cbn. intros ->.
  rewrite last_cons. destruct (last mid) as [z|] eqn:E.
  - by rewrite <- (assoc_L (++)).
  - by apply last_None in E as ->.
Qed.

(** The two loops followed by the store of the new or the cleared element. *)
Lemma shift_right_insert `{Inhabited A} p m pre mid x y post :
  p = length pre → m = length mid →
  <[p := y]> (shift_right p (p + m) (pre ++ mid ++ x :: post)) = pre ++ y :: mid ++ post.
Proof. intros -> ->. rewrite shift_right_spec. destruct mid; apply insert_app_at. Qed.

Lemma shift_left_clear `{Inhabited A} p m pre x mid z post :
  p = length pre → m = length mid →
  <[p + m := z]> (shift_left p (p + S m) (pre ++ x :: mid ++ post)) = pre ++ mid ++ z :: post.
Proof.
  intros -> ->.
  rewrite shift_left_spec. destruct (last mid) as [y|] eqn:E.
  - rewrite <- length_app, (assoc_L (++)), insert_app_at. by rewrite <- (assoc_L (++)).
  - apply last_None in E as ->. rewrite Nat.add_0_r. apply insert_app_at.
Qed.

(** [slice::partition_point] on a slice that [P] partitions: the length of
    the prefix where it holds. *)
Fixpoint partition_point (P : A → bool) (l : list A) : nat :=
  match l with
  | x :: l => if P x then S (partition_point P l) else 0
  | [] => 0
  end.

Lemma partition_point_split (P : A → bool) l :
  ∃ l1 l2, l = l1 ++ l2 ∧ partition_point P l = length l1 ∧
    Forall (λ x, P x = true) l1 ∧ (∀ x, head l2 = Some x → P x = false).
Proof.
  induction l as [|x l (l1 & l2 & -> & E & H1 & H2)]; cbn.
  - by exists [], [].
  - destruct (P x) eqn:Ex.
    + exists (x :: l1), l2. rewrite E. auto.
    + exists [], (x :: l1 ++ l2). split_and!; auto. intros ? [= <-]. done.
Qed.

(** [iter().position(p)]. *)
Fixpoint position (P : A → bool) (l : list A) : option nat :=
  match l with
  | x :: l => if P x then Some 0 else S <$> position P l
  | [] => None
  end.

Lemma position_Some P l i :
  position P l = Some i ↔
  ∃ x, l !! i = Some x ∧ P x = true ∧ ∀ j y, j < i → l !! j = Some y → P y = false.
Proof.
  revert i. induction l as [|x l IH]; intros i; cbn.
  { split; [done|]. intros (? & ? & _). by rewrite lookup_nil in *. }
  destruct (P x) eqn:Ex.
  - split.
    + intros [= <-]. exists x. split_and!; auto. lia.
    + intros (y & Hy & Py & Hlt). destruct i; [done|].
      specialize (Hlt 0 x ltac:(lia) eq_refl). congruence.
  - rewrite fmap_Some. split.
    + intros (j & Hj & ->). apply IH in Hj as (y & Hy & Py & Hlt).
      exists y. split_and!; auto. intros [|j'] z Hj' Hz; cbn in *; [congruence|].
      eapply Hlt; [|done]. lia.
    + intros (y & Hy & Py & Hlt). destruct i as [|i]; cbn in *; [congruence|].
      exists i. split; [|done]. apply IH. exists y. split_and!; auto.
      intros j z Hj Hz. apply (Hlt (S j)); [lia|done].
Qed.

Lemma position_None P l : position P l = None ↔ Forall (λ x, P x = false) l.
Proof.
  induction l as [|x l IH]; cbn; [by split|].
  rewrite Forall_cons, <- IH. destruct (P x), (position P l); cbn; naive_solver.
Qed.

(** [iter().find_map(f)]. *)
Fixpoint find_map {B} (f : A → option B) (l : list A) : option B :=
  match l with
  | x :: l => match f x with Some y => Some y | None => find_map f l end
  | [] => None
  end.

Lemma find_map_Some {B} (f : A → option B) l y :
  find_map f l = Some y ↔
  ∃ i x, l !! i = Some x ∧ f x = Some y ∧ ∀ j z, j < i → l !! j = Some z → f z = None.
Proof.
  induction l as [|x l IH]; cbn.
  { split; [done|]. intros (i & x & Hx & _). by rewrite lookup_nil in Hx. }
  destruct (f x) as [y'|] eqn:Ex.
  - split.
    + intros [= ->]. exists 0, x. split_and!; [done..|]. lia.
    + intros ([|i] & z & Hz & Hy & Hlt); cbn in *; [congruence|].
      specialize (Hlt 0 x ltac:(lia) eq_refl). congruence.
  - rewrite IH. split.
    + intros (i & z & Hz & Hy & Hlt). exists (S i), z. split_and!; [done..|].
      intros [|j] z' Hj Hz'; cbn in *; [congruence|]. eapply Hlt; [|done]. lia.
    + intros ([|i] & z & Hz & Hy & Hlt); cbn in *; [congruence|].
      exists i, z. split_and!; [done..|]. intros j z' Hj Hz'. apply (Hlt (S j)); [lia|done].
Qed.

Lemma find_map_None {B} (f : A → option B) l :
  find_map f l = None ↔ ∀ i x, l !! i = Some x → f x = None.
Proof.
  induction l as [|x l IH]; cbn; [naive_solver|].
  destruct (f x) as [y|] eqn:Ex.
  - split; [done|]. intros H. specialize (H 0 x eq_refl). congruence.
  - rewrite IH. split; intros Hl.
    + intros [|i] z Hz; cbn in *; [congruence|eauto].
    + intros i z Hz. by apply (Hl (S i)).
Qed.

Lemma find_map_app {B} (f : A → option B) l k :
  find_map f (l ++ k) = match find_map f l with Some y => Some y | None => find_map f k end.
Proof. induction l as [|x l IH]; cbn; [done|]. by destruct (f x). Qed.

Lemma list_filter_all (P : A → Prop) `{∀ x, Decision (P x)} l : Forall P l → filter P l = l.
Proof. induction 1 as [|x l Hx _ IH]; [done|]. by rewrite filter_cons_True, IH. Qed.

(** Counting elements under an array store. *)
Lemma filter_insert_length (P : A → Prop) `{∀ x, Decision (P x)} l i x y :
  l !! i = Some x →
  length (filter P (<[i := y]> l)) + (if decide (P x) then 1 else 0) =
  length (filter P l) + (if decide (P y) then 1 else 0).
Proof.
  intros Hi. rewrite <- (take_drop_middle l i x Hi) at 2.
  rewrite insert_take_drop by by eapply lookup_lt_Some.
  rewrite !filter_app, !length_app, !filter_cons.
  repeat case_decide; cbn; lia.
Qed.

Lemma prefix_lookup_next (p l : list A) b :
  p ++ [b] `prefix_of` l → l !! length p = Some b.
Proof. intros [k ->]. rewrite <- (assoc_L (++)). apply lookup_app_at. Qed.

Lemma prefix_snoc_of_lookup (p l : list A) b :
  p `prefix_of` l → l !! length p = Some b → p ++ [b] `prefix_of` l.
Proof.
  intros [k ->] H. rewrite lookup_app_r, Nat.sub_diag in H by lia.
  destruct k as [|c k]; cbn in *; [done|]. injection H as ->.
  exists k. by rewrite <- (assoc_L (++)).
Qed.
End lists.

(** A search from the end of a range of indices. *)
Lemma find_map_rev_seq {B} (f : nat → option B) n :
  match find_map f (rev (seq 0 n)) with
  | Some y => ∃ i, i < n ∧ f i = Some y ∧ ∀ j, i < j < n → f j = None
  | None => ∀ i, i < n → f i = None
  end.
Proof.
  induction n as [|n IH]; [cbn; lia|].
  rewrite seq_S, rev_app_distr; cbn. destruct (f n) as [y|] eqn:En.
  - exists n. split_and!; [lia|done|lia].
  - destruct (find_map f (rev (seq 0 n))) as [y|].
    + destruct IH as (i & Hi & Hf & Hj). exists i. split_and!; [lia|done|].
      intros j ?. destruct (decide (j = n)) as [->|]; [done|]. apply Hj. lia.
    + intros i ?. destruct (decide (i = n)) as [->|]; [done|]. apply IH. lia.
Qed.
