(* ===== verification/Bytes.v ===== *)
(** * Bytes, keys and their order

    Bytes as [Byte.byte] with their value in [0, 256), the little- and
    big-endian packings the crate uses to read several bytes as one word, the
    prefix test and the key comparison built on them ([PrefixSnapshot] of
    [src/raw/node.rs], [cmp_keys] of [src/raw/cursor.rs], [common_prefix] of
    [src/raw/mod.rs]), and the lexicographic order of keys they implement. *)

From stdpp Require Import countable.
From Stdlib Require Strings.Byte.
From S2P Require Import Prelude.

Abbreviation byte := Init.Byte.byte.
Local Open Scope Z_scope.

(** ** A byte and its value *)

Definition b2n (b : byte) : nat := N.to_nat (Byte.to_N b).
Definition b2z (b : byte) : Z := Z.of_nat (b2n b).
Definition z2b (z : Z) : byte :=
  default Byte.x00 (Byte.of_N (Z.to_N (z mod 256))).
#[global] Arguments b2n : simpl never.
#[global] Arguments b2z : simpl never.
#[global] Arguments z2b : simpl never.

Lemma b2n_lt b : (b2n b < 256)%nat.
Proof. unfold b2n. pose proof (Byte.to_N_bounded b). lia. Qed.

Lemma b2z_range b : 0 <= b2z b < 256.
Proof. unfold b2z. pose proof (b2n_lt b). lia. Qed.

Lemma b2n_inj a b : b2n a = b2n b → a = b.
Proof.
  unfold b2n. intros H. assert (Byte.to_N a = Byte.to_N b) as E by lia.
  apply (f_equal Byte.of_N) in E. rewrite !Byte.of_to_N in E. congruence.
Qed.

Lemma b2z_inj a b : b2z a = b2z b → a = b.
Proof. unfold b2z. intros. apply b2n_inj. lia. Qed.

Lemma b2z_z2b z : b2z (z2b z) = z mod 256.
Proof.
  unfold z2b. pose proof (Z.mod_pos_bound z 256 ltac:(lia)).
  destruct (Byte.of_N (Z.to_N (z mod 256))) as [b|] eqn:E; cbn.
  - apply Byte.to_of_N in E. unfold b2z, b2n. rewrite E. lia.
  - apply Byte.of_N_None_iff in E. lia.
Qed.

Lemma z2b_b2z b : z2b (b2z b) = b.
Proof.
  apply b2z_inj. rewrite b2z_z2b. pose proof (b2z_range b).
  by apply Z.mod_small.
Qed.

#[export] Instance byte_eq_dec : EqDecision byte.
Proof. exact Byte.byte_eq_dec. Defined.

#[export] Instance byte_countable : Countable byte.
Proof.
  apply (inj_countable' Byte.to_N (λ n, default Byte.x00 (Byte.of_N n))).
  intros b. by rewrite Byte.of_to_N.
Defined.

#[export] Instance byte_inhabited : Inhabited byte := populate Byte.x00.

(** [k1 < k2] on bytes, decided. *)
Definition byte_ltb (a b : byte) : bool := b2z a <? b2z b.

Lemma byte_trichotomy a b : b2z a < b2z b ∨ a = b ∨ b2z b < b2z a.
Proof.
  destruct (Z.lt_trichotomy (b2z a) (b2z b)) as [|[E|]]; auto.
  apply b2z_inj in E. auto.
Qed.

(** Every byte, in order. *)
Definition all_bytes : list byte := z2b <$> seqZ 0 256.

Lemma all_bytes_lookup i b : all_bytes !! i = Some b ↔ i = b2n b.
Proof.
  unfold all_bytes. rewrite list_lookup_fmap_Some. split.
  - intros (z & -> & Hz). apply lookup_seqZ in Hz as [-> Hi].
    apply Nat2Z.inj. change (Z.of_nat (b2n (z2b (0 + Z.of_nat i)))) with (b2z (z2b (0 + Z.of_nat i))).
    rewrite b2z_z2b, Z.mod_small; lia.
  - intros ->. exists (b2z b). split; [by rewrite z2b_b2z|].
    apply lookup_seqZ. pose proof (b2z_range b). unfold b2z in *. lia.
Qed.

Lemma all_bytes_length : length all_bytes = 256%nat.
Proof. reflexivity. Qed.

Lemma elem_of_all_bytes b : b ∈ all_bytes.
Proof. apply list_elem_of_lookup. exists (b2n b). by apply all_bytes_lookup. Qed.

Lemma all_bytes_split b :
  ∃ l r, all_bytes = l ++ b :: r ∧
    (∀ x, x ∈ l ↔ b2z x < b2z b) ∧ (∀ x, x ∈ r ↔ b2z b < b2z x).
Proof.
  assert (all_bytes !! b2n b = Some b) as Hb by by apply all_bytes_lookup.
  exists (take (b2n b) all_bytes), (drop (S (b2n b)) all_bytes).
  split; [by rewrite take_drop_middle|]. unfold b2z. split; intros x.
  - rewrite elem_of_take. split.
    + intros (i & Hi & ?). apply all_bytes_lookup in Hi. lia.
    + intros. exists (b2n x). rewrite all_bytes_lookup. lia.
  - rewrite list_elem_of_lookup. split.
    + intros (i & Hi). rewrite lookup_drop in Hi. apply all_bytes_lookup in Hi. lia.
    + intros. exists (b2n x - S (b2n b))%nat. rewrite lookup_drop.
      apply all_bytes_lookup. lia.
Qed.

(** ** Packing bytes into words *)

Fixpoint from_le_bytes (l : list byte) : Z :=
  match l with
  | [] => 0
  | b :: l => b2z b + 256 * from_le_bytes l
  end.

Fixpoint to_le_bytes (n : nat) (w : Z) : list byte :=
  match n with
  | O => []
  | S n => z2b w :: to_le_bytes n (w / 256)
  end.

Definition from_be_bytes (l : list byte) : Z :=
  foldl (λ acc b, acc * 256 + b2z b) 0 l.

Lemma from_le_bytes_range l : 0 <= from_le_bytes l < 256 ^ Z.of_nat (length l).
Proof.
  induction l as [|b l IH]; cbn [from_le_bytes length].
  - cbn. lia.
  - pose proof (b2z_range b). rewrite Nat2Z.inj_succ, Z.pow_succ_r by lia. lia.
Qed.

Lemma to_le_bytes_length n w : length (to_le_bytes n w) = n.
Proof. revert w. induction n; cbn; auto. Qed.

Lemma to_from_le_bytes l n : length l = n → to_le_bytes n (from_le_bytes l) = l.
Proof.
  intros <-. induction l as [|b l IH]; cbn [length to_le_bytes from_le_bytes]; [done|].
  pose proof (b2z_range b). f_equal.
  - apply b2z_inj. rewrite b2z_z2b, Z.mul_comm, Z.mod_add by lia.
    by apply Z.mod_small.
  - rewrite Z.mul_comm, Z.div_add, Z.div_small, Z.add_0_l by lia. done.
Qed.

Lemma from_to_le_bytes n w : from_le_bytes (to_le_bytes n w) = w mod 256 ^ Z.of_nat n.
Proof.
  revert w. induction n as [|n IH]; intros w; cbn [to_le_bytes from_le_bytes].
  - by rewrite Z.mod_1_r.
  - rewrite IH, b2z_z2b, Nat2Z.inj_succ, Z.pow_succ_r by lia.
    pose proof (Z.pow_pos_nonneg 256 (Z.of_nat n) ltac:(lia) ltac:(lia)).
    by rewrite Z.rem_mul_r by lia.
Qed.

Lemma from_le_bytes_app l k :
  from_le_bytes (l ++ k) = from_le_bytes l + 256 ^ Z.of_nat (length l) * from_le_bytes k.
Proof.
  induction l as [|b l IH]; cbn [app from_le_bytes length].
  { rewrite Z.pow_0_r. lia. }
  rewrite IH, Nat2Z.inj_succ, Z.pow_succ_r by lia. ring.
Qed.

Lemma from_le_bytes_inj l k :
  length l = length k → from_le_bytes l = from_le_bytes k → l = k.
Proof.
  intros Hl E. rewrite <- (to_from_le_bytes l _ eq_refl), E, Hl. by apply to_from_le_bytes.
Qed.

Lemma from_le_bytes_take n l :
  from_le_bytes (take n l) = from_le_bytes l mod 256 ^ Z.of_nat n.
Proof.
  destruct (decide (length l <= n)%nat) as [Hn|Hn].
  - rewrite take_ge by lia. symmetry. apply Z.mod_small.
    pose proof (from_le_bytes_range l).
    pose proof (Z.pow_le_mono_r 256 (Z.of_nat (length l)) (Z.of_nat n)). lia.
  - rewrite <- (take_drop n l) at 2. rewrite from_le_bytes_app, length_take, Nat.min_l by lia.
    rewrite Z.mul_comm, Z.mod_add by lia. symmetry. apply Z.mod_small.
    pose proof (from_le_bytes_range (take n l)) as H.
    by rewrite length_take, Nat.min_l in H by lia.
Qed.

(** Glues the two halves of a word back together. *)
Lemma lor_shiftl_shiftr w n : 0 <= n →
  Z.lor (Z.shiftl (Z.shiftr w n) n) (w mod 2 ^ n) = w.
Proof.
  intros Hn. apply Z.bits_inj'. intros i Hi. rewrite Z.lor_spec, Z.shiftl_spec by lia.
  destruct (decide (i < n)).
  - rewrite (Z.testbit_neg_r _ (i - n)), Z.mod_pow2_bits_low by lia. done.
  - rewrite Z.shiftr_spec, Z.mod_pow2_bits_high by lia.
    rewrite orb_false_r. f_equal. lia.
Qed.

(** [pack16] and [unpack16] of [src/raw/node.rs]: 16 bytes as two 64-bit words
    through one 128-bit word. *)
Definition pack16 (bytes : list byte) : Z * Z :=
  let w := from_le_bytes bytes in (w mod 2 ^ 64, Z.shiftr w 64 mod 2 ^ 64).

Definition unpack16 (words : Z * Z) : list byte :=
  to_le_bytes 16 (Z.lor (Z.shiftl words.2 64) words.1).

Lemma unpack_pack16 l : length l = 16%nat → unpack16 (pack16 l) = l.
Proof.
  intros Hl. unfold unpack16, pack16; cbn [fst snd].
  pose proof (from_le_bytes_range l) as R. rewrite Hl in R.
  change (256 ^ Z.of_nat 16) with (2 ^ 128) in R.
  set (w := from_le_bytes l) in *.
  rewrite (Z.mod_small (Z.shiftr w 64)).
  - rewrite lor_shiftl_shiftr by lia. by apply to_from_le_bytes.
  - rewrite Z.shiftr_div_pow2 by lia. split; [apply Z.div_pos; lia|].
    apply Z.div_lt_upper_bound; lia.
Qed.

(** ** The prefix test *)

(** Longest common prefix of two byte strings:
    [a.iter().zip(b).take_while(|(x, y)| x == y).count()]. *)
Fixpoint common_prefix (a b : list byte) : nat :=
  match a, b with
  | x :: a, y :: b => if decide (x = y) then S (common_prefix a b) else 0
  | _, _ => 0
  end.

Lemma common_prefix_spec a b :
  let n := common_prefix a b in
  (n <= length a)%nat ∧ (n <= length b)%nat ∧ take n a = take n b ∧
  (∀ x y, a !! n = Some x → b !! n = Some y → x ≠ y).
Proof.
  revert b. induction a as [|x a IH]; intros [|y b]; cbn.
  1-3: split_and!; [lia..|done|intros; discriminate].
  case_decide as E; cbn.
  - subst. destruct (IH b) as (? & ? & ? & ?). split_and!; [lia..| |done]. congruence.
  - split_and!; [lia..|done|]. intros x' y' [= <-] [= <-]. done.
Qed.

Lemma common_prefix_prefix a b : a `prefix_of` b ↔ common_prefix a b = length a.
Proof.
  revert b. induction a as [|x a IH]; intros [|y b]; cbn.
  - split; auto using prefix_nil.
  - split; auto using prefix_nil.
  - split; [intros H; by apply prefix_nil_not in H|lia].
  - case_decide as E.
    + subst. split.
      * intros H%prefix_cons_inv_2. f_equal. by apply IH.
      * intros [= H]. apply prefix_cons. by apply IH.
    + split; [|lia]. intros H. apply prefix_cons_inv_1 in H. congruence.
Qed.

(** A reader's snapshot of a node prefix: [MAX_PREFIX_LEN] bytes, of which the
    first [ps_len] count. *)
Definition MAX_PREFIX_LEN : nat := 16.

Record PrefixSnapshot := { ps_len : nat; ps_bytes : list byte }.

Definition as_slice (p : PrefixSnapshot) : list byte := take (ps_len p) (ps_bytes p).

(** The scalar loop of [is_prefix_of]: [while i < n]. *)
Fixpoint bytes_differ_before (n i : nat) (a b : list byte) : bool :=
  match n with
  | O => false
  | S n => if decide (a !! i = b !! i) then bytes_differ_before n (S i) a b else true
  end.

(** [PrefixSnapshot::is_prefix_of]: on 16 bytes or more, one 128-bit xor under
    a mask of the prefix length; on fewer, a loop. *)
Definition is_prefix_of (p : PrefixSnapshot) (rest : list byte) : bool :=
  let n := ps_len p in
  if decide (n = 0%nat) then true
  else if decide (length rest < n)%nat then false
  else if decide (MAX_PREFIX_LEN <= length rest)%nat then
    let head := take MAX_PREFIX_LEN rest in
    let diff := Z.lxor (from_le_bytes head) (from_le_bytes (ps_bytes p)) in
    let mask := if decide (n = MAX_PREFIX_LEN) then 2 ^ 128 - 1
                else Z.shiftl 1 (Z.of_nat n * 8) - 1 in
    bool_decide (Z.land diff mask = 0)
  else negb (bytes_differ_before n 0 (ps_bytes p) rest).


Lemma land_ones_eq0 x y n : 0 <= n →
  Z.land (Z.lxor x y) (2 ^ n - 1) = 0 ↔ x mod 2 ^ n = y mod 2 ^ n.
Proof.
  intros Hn. replace (2 ^ n - 1) with (Z.ones n) by (rewrite Z.ones_equiv; lia).
  assert (Z.land (Z.lxor x y) (Z.ones n) = Z.lxor (x mod 2 ^ n) (y mod 2 ^ n)) as ->.
  { apply Z.bits_inj'. intros i Hi.
    rewrite Z.land_spec, !Z.lxor_spec, Z.testbit_ones_nonneg by lia.
    destruct (Z.ltb_spec i n).
    - by rewrite !Z.mod_pow2_bits_low, andb_true_r by lia.
    - by rewrite !Z.mod_pow2_bits_high, andb_false_r by lia. }
  apply Z.lxor_eq_0_iff.
Qed.

Lemma bytes_differ_before_spec n i a b :
  (i + n <= length a)%nat → (i + n <= length b)%nat →
  bytes_differ_before n i a b = false ↔ take n (drop i a) = take n (drop i b).
Proof.
  revert i. induction n as [|n IH]; intros i Ha Hb; cbn [bytes_differ_before take]; [done|].
  destruct (lookup_lt_is_Some_2 a i) as [x Hx]; [lia|].
  destruct (lookup_lt_is_Some_2 b i) as [y Hy]; [lia|].
  rewrite Hx, Hy, (drop_S _ _ _ Hx), (drop_S _ _ _ Hy); cbn [take].
  case_decide as E.
  - rewrite IH by lia. split; congruence.
  - split; congruence.
Qed.

(** A snapshot as [load_prefix] returns it. *)
Definition snapshot_ok (p : PrefixSnapshot) : Prop :=
  (ps_len p <= MAX_PREFIX_LEN)%nat ∧ length (ps_bytes p) = MAX_PREFIX_LEN.

Lemma as_slice_length p : snapshot_ok p → length (as_slice p) = ps_len p.
Proof. intros [? ?]. unfold as_slice. rewrite length_take. unfold MAX_PREFIX_LEN in *. lia. Qed.

Lemma prefix_of_take (n : nat) (a b : list byte) : (n <= length a)%nat →
  take n a `prefix_of` b ↔ (n <= length b)%nat ∧ take n a = take n b.
Proof.
  intros Hn. split.
  - intros [k E]. assert (length (take n a) = n) as L by (rewrite length_take; lia).
    split; [apply (f_equal length) in E; rewrite length_app, L in E; lia|].
    by rewrite E, take_app_length' by done.
  - intros [? ->]. apply prefix_take.
Qed.

(** The word comparison, the byte loop and the early exits all decide
    [rest.starts_with(self.as_slice())]. *)
Lemma is_prefix_of_spec p rest : snapshot_ok p →
  is_prefix_of p rest = true ↔ as_slice p `prefix_of` rest.
Proof.
  intros [Hn Hl]. unfold is_prefix_of, as_slice, MAX_PREFIX_LEN in *.
  rewrite prefix_of_take by lia. set (n := ps_len p) in *.
  case_decide as E0; [rewrite E0; by split; [intros _; split; [lia|done]|]|].
  case_decide as E1; [split; [done|lia]|].
  case_decide as E2.
  - rewrite bool_decide_eq_true.
    assert ((if decide (n = 16%nat) then 2 ^ 128 - 1 else 1 ≪ (Z.of_nat n * 8) - 1)
            = 2 ^ (Z.of_nat n * 8) - 1) as ->.
    { case_decide as E3; [by rewrite E3|]. rewrite Z.shiftl_mul_pow2 by lia. lia. }
    rewrite land_ones_eq0 by lia.
    rewrite (Z.mul_comm (Z.of_nat n)), Z.pow_mul_r by lia. change (2 ^ 8) with 256.
    rewrite <- !from_le_bytes_take, take_take, Nat.min_l by lia.
    split.
    + intros E%from_le_bytes_inj; [split; [lia|done]|]. rewrite !length_take. lia.
    + by intros [_ ->].
  - rewrite negb_true_iff, bytes_differ_before_spec, !drop_0 by lia.
    split; [intros ?; split; [lia|done]|by intros [_ ?]].
Qed.

(** ** The order of keys *)

(** [<[u8] as Ord>::cmp]: lexicographic. *)
Fixpoint lex_cmp (a b : list byte) : comparison :=
  match a, b with
  | [], [] => Eq
  | [], _ :: _ => Lt
  | _ :: _, [] => Gt
  | x :: a, y :: b =>
    match Z.compare (b2z x) (b2z y) with Eq => lex_cmp a b | c => c end
  end.

(** The loop over 8-byte big-endian chunks of [cmp_keys]: the result, if two
    chunks differ, and the index it stopped at. *)
Fixpoint cmp_words (fuel i n : nat) (a b : list byte) : option comparison * nat :=
  match fuel with
  | O => (None, i)
  | S fuel =>
    if decide (i + 8 <= n)%nat then
      let x := from_be_bytes (take 8 (drop i a)) in
      let y := from_be_bytes (take 8 (drop i b)) in
      if decide (x = y) then cmp_words fuel (i + 8) n a b else (Some (Z.compare x y), i)
    else (None, i)
  end.

(** The loop over the remaining bytes. *)
Fixpoint cmp_tail (fuel i n : nat) (a b : list byte) : option comparison :=
  match fuel with
  | O => None
  | S fuel =>
    if decide (i < n)%nat then
      let x := a !!! i in let y := b !!! i in
      if decide (x = y) then cmp_tail fuel (S i) n a b else Some (Z.compare (b2z x) (b2z y))
    else None
  end.

(** [cmp_keys] of [src/raw/cursor.rs]. *)
Definition cmp_keys (a b : list byte) : comparison :=
  let n := (length a `min` length b)%nat in
  if decide (64 < n)%nat then lex_cmp a b
  else match cmp_words 9 0 n a b with
       | (Some c, _) => c
       | (None, i) =>
         match cmp_tail 8 i n a b with
         | Some c => c
         | None => Nat.compare (length a) (length b)
         end
       end.

Lemma from_be_bytes_foldl l acc :
  foldl (λ acc b, acc * 256 + b2z b) acc l = acc * 256 ^ Z.of_nat (length l) + from_be_bytes l.
Proof.
  unfold from_be_bytes. revert acc. induction l as [|b l IH]; intros acc; cbn [foldl length].
  - rewrite Z.pow_0_r. lia.
  - rewrite IH, (IH (0 * 256 + b2z b)), Nat2Z.inj_succ, Z.pow_succ_r by lia. ring.
Qed.

Lemma from_be_bytes_cons b l :
  from_be_bytes (b :: l) = b2z b * 256 ^ Z.of_nat (length l) + from_be_bytes l.
Proof.
  change (from_be_bytes (b :: l)) with (foldl (λ acc b, acc * 256 + b2z b) (0 * 256 + b2z b) l).
  rewrite from_be_bytes_foldl. lia.
Qed.

Lemma from_be_bytes_range l : 0 <= from_be_bytes l < 256 ^ Z.of_nat (length l).
Proof.
  induction l as [|b l IH]; [cbn; lia|]. rewrite from_be_bytes_cons.
  pose proof (b2z_range b). cbn [length]. rewrite Nat2Z.inj_succ, Z.pow_succ_r by lia. nia.
Qed.

(** Big-endian words order as the bytes do. *)
Lemma from_be_bytes_compare a b : length a = length b →
  Z.compare (from_be_bytes a) (from_be_bytes b) = lex_cmp a b.
Proof.
  revert b. induction a as [|x a IH]; intros [|y b] L; cbn in L; [done..|]; injection L as L.
  cbn [lex_cmp]. rewrite !from_be_bytes_cons, <- L, <- IH by done.
  pose proof (from_be_bytes_range a). pose proof (from_be_bytes_range b) as Hb.
  rewrite <- L in Hb.
  destruct (Z.compare_spec (b2z x) (b2z y)) as [->|?|?].
  - by rewrite Zcompare_plus_compat.
  - apply Z.compare_lt_iff. nia.
  - apply Z.compare_gt_iff. nia.
Qed.

Lemma lex_cmp_app a b a' b' : length a = length b →
  lex_cmp (a ++ a') (b ++ b') = match lex_cmp a b with Eq => lex_cmp a' b' | c => c end.
Proof.
  revert b. induction a as [|x a IH]; intros [|y b] L; cbn in *; [done..|]; injection L as L.
  rewrite IH by done. by destruct (Z.compare _ _).
Qed.

Lemma lex_cmp_refl a : lex_cmp a a = Eq.
Proof. induction a as [|x a IH]; cbn; [done|]. by rewrite Z.compare_refl. Qed.

Lemma lex_cmp_eq a b : lex_cmp a b = Eq ↔ a = b.
Proof.
  split; [|intros ->; apply lex_cmp_refl].
  revert b. induction a as [|x a IH]; intros [|y b]; cbn; try done.
  destruct (Z.compare_spec (b2z x) (b2z y)) as [E| |]; try done.
  intros ->%IH. f_equal. by apply b2z_inj.
Qed.

Lemma lex_cmp_antisym a b : lex_cmp b a = CompOpp (lex_cmp a b).
Proof.
  revert b. induction a as [|x a IH]; intros [|y b]; cbn; try done.
  rewrite (Z.compare_antisym (b2z x)). by destruct (Z.compare _ _); cbn.
Qed.

Lemma lex_cmp_trans a b c : lex_cmp a b = Lt → lex_cmp b c = Lt → lex_cmp a c = Lt.
Proof.
  revert b c. induction a as [|x a IH]; intros [|y b] [|z c]; cbn; try done.
  destruct (Z.compare_spec (b2z x) (b2z y)), (Z.compare_spec (b2z y) (b2z z)); try done;
    intros; destruct (Z.compare_spec (b2z x) (b2z z)); try done; try lia.
  by eapply IH.
Qed.

(** A key extends another iff it is not smaller, and a proper extension is
    greater. *)
Lemma lex_cmp_prefix p k : k ≠ [] → lex_cmp p (p ++ k) = Lt.
Proof.
  intros Hk. rewrite <- (app_nil_r p) at 1. rewrite lex_cmp_app, lex_cmp_refl by done.
  by destruct k.
Qed.

(** Keys that branch at different bytes order as those bytes. *)
Lemma lex_cmp_branch p x y a b : b2z x < b2z y →
  lex_cmp (p ++ x :: a) (p ++ y :: b) = Lt.
Proof.
  intros H. rewrite lex_cmp_app, lex_cmp_refl by done. cbn.
  by apply Z.compare_lt_iff in H as ->.
Qed.

Lemma lex_cmp_split i a b : take i a = take i b →
  lex_cmp a b = lex_cmp (drop i a) (drop i b).
Proof.
  intros E. rewrite <- (take_drop i a) at 1. rewrite <- (take_drop i b) at 1.
  by rewrite E, lex_cmp_app, lex_cmp_refl.
Qed.

Lemma cmp_words_spec fuel i a b :
  let n := (length a `min` length b)%nat in
  take i a = take i b → (i <= n)%nat → (n - i < 8 * fuel)%nat →
  match cmp_words fuel i n a b with
  | (Some c, _) => c = lex_cmp a b
  | (None, j) => take j a = take j b ∧ (j <= n)%nat ∧ (n - j < 8)%nat
  end.
Proof.
  intros n. revert i. induction fuel as [|fuel IH]; intros i E Hi Hf; cbn; [lia|].
  case_decide as E1; [|split_and!; [done|lia|lia]].
  case_decide as E2.
  - apply IH; [|lia|lia].
    apply (f_equal (λ z, Z.compare z (from_be_bytes (take 8 (drop i b))))) in E2.
    rewrite Z.compare_refl, from_be_bytes_compare in E2
      by (rewrite !length_take, !length_drop; lia).
    apply lex_cmp_eq in E2.
    rewrite <- (take_drop i a), <- (take_drop i b), E.
    rewrite !take_app_ge by (rewrite length_take; lia).
    f_equal. rewrite length_take, Nat.min_l by lia. rewrite Nat.add_comm, Nat.add_sub. done.
  - rewrite from_be_bytes_compare by (rewrite !length_take, !length_drop; lia).
    rewrite (lex_cmp_split i a b E).
    rewrite <- (take_drop 8 (drop i a)) at 2. rewrite <- (take_drop 8 (drop i b)) at 2.
    rewrite lex_cmp_app by (rewrite !length_take, !length_drop; lia).
    destruct (lex_cmp (take 8 _) _) eqn:E3; try done.
    apply lex_cmp_eq in E3. by rewrite E3 in E2.
Qed.

Lemma cmp_tail_spec fuel i a b :
  let n := (length a `min` length b)%nat in
  take i a = take i b → (i <= n)%nat → (n - i < fuel)%nat →
  lex_cmp a b = match cmp_tail fuel i n a b with
                | Some c => c
                | None => Nat.compare (length a) (length b)
                end.
Proof.
  intros n. revert i. induction fuel as [|fuel IH]; intros i E Hi Hf; cbn; [lia|].
  case_decide as E1.
  - destruct (lookup_lt_is_Some_2 a i) as [x Hx]; [lia|].
    destruct (lookup_lt_is_Some_2 b i) as [y Hy]; [lia|].
    rewrite !list_lookup_total_alt, Hx, Hy; cbn. case_decide as E2.
    + apply IH; [|lia|lia]. rewrite (take_S_r _ _ _ Hx), (take_S_r _ _ _ Hy). congruence.
    + rewrite (lex_cmp_split i a b E), (drop_S _ _ _ Hx), (drop_S _ _ _ Hy); cbn.
      destruct (Z.compare_spec (b2z x) (b2z y)) as [E3| |]; try done.
      by apply b2z_inj in E3.
  - rewrite (lex_cmp_split i a b E).
    destruct (drop i a) as [|x ra] eqn:Da, (drop i b) as [|y rb] eqn:Db; cbn;
      apply (f_equal length) in Da, Db; rewrite length_drop in Da, Db; cbn in *.
    + symmetry. apply Nat.compare_eq_iff. lia.
    + symmetry. apply Nat.compare_lt_iff. lia.
    + symmetry. apply Nat.compare_gt_iff. lia.
    + lia.
Qed.

(** The chunked comparison is the lexicographic order. *)
Lemma cmp_keys_lex a b : cmp_keys a b = lex_cmp a b.
Proof.
  unfold cmp_keys. case_decide as E; [done|].
  pose proof (cmp_words_spec 9 0 a b eq_refl ltac:(lia) ltac:(lia)) as H. cbn zeta in H.
  destruct (cmp_words 9 0 _ a b) as [[c|] j]; [done|].
  destruct H as (H1 & H2 & H3).
  by rewrite (cmp_tail_spec 8 j a b H1 H2 H3).
Qed.

(** the prefix check of every descent. On every snapshot [load_prefix]
    can make, the word-wise and byte-wise paths of [is_prefix_of] both decide
    whether the prefix starts the rest of the key, whatever bytes the snapshot
    holds past its length. *)
Theorem prefix_check_is_prefix p rest :
  snapshot_ok p → is_prefix_of p rest = bool_decide (as_slice p `prefix_of` rest).
Proof. intros Hp. apply eq_bool_prop_intro. rewrite bool_decide_spec, <- is_prefix_of_spec by done. by destruct (is_prefix_of p rest). Qed.

Lemma prefix_check_is_prefix_witness :
  let p := {| ps_len := 2; ps_bytes := [Byte.x61; Byte.x62] ++ replicate 14 Byte.xff |} in
  is_prefix_of p (replicate 20 Byte.x61) = false.
Proof. intros p. rewrite (prefix_check_is_prefix p); [reflexivity|]. split; [vm_compute; lia|reflexivity]. Defined.

(** C37: the cursor's key comparison is the lexicographic order, on the path
    by 8-byte words, the path by bytes and the path of long keys alike. *)
Theorem cmp_keys_is_lexicographic a b : cmp_keys a b = lex_cmp a b.
Proof. apply cmp_keys_lex. Qed.
