(* ===== verification/Latch.v ===== *)
(** * The optimistic version latch and the chain lock ([src/latch.rs])

    [HybridLatch] and [ChainLock] as operations on their word, then each as a
    step relation of threads that share the word: the seqlock protocol that
    every optimistic read of the tree relies on, and the mortal lock of a
    version chain. Memory is sequentially consistent: the acquire and release
    orderings and the fences of the source are not modelled. *)

From S2P Require Import Prelude.
Local Open Scope Z_scope.

(** ** [HybridLatch]: one 64-bit word *)

Definition LOCK_BIT : Z := 1.
Definition OBSOLETE_BIT : Z := 2.
Definition VERSION_STEP : Z := 4.

(** [u64::wrapping_add]. *)
Definition wrapping_add64 (a b : Z) : Z := (a + b) mod 2 ^ 64.

(** Exclusive access: the version at acquisition. *)
Record WriteGuard := { g_v : Z }.

Definition flagged (v : Z) : bool := negb (Z.land v (Z.lor LOCK_BIT OBSOLETE_BIT) =? 0).

Definition latch_new : Z := 0.
Definition read_version (word : Z) : option Z := if flagged word then None else Some word.
Definition validate (word v : Z) : bool := word =? v.
Definition is_obsolete (word : Z) : bool := negb (Z.land word OBSOLETE_BIT =? 0).

(** The guard, and the word after the attempt. *)
Definition try_upgrade (word v : Z) : option WriteGuard * Z :=
  if flagged v then (None, word)
  else if word =? v then (Some {| g_v := v |}, Z.lor v LOCK_BIT)
  else (None, word).

(** One turn of the loop of [lock], its load and its compare-exchange taken
    together: [None] if the caller spins again. *)
Definition lock_turn (word : Z) : option (option WriteGuard * Z) :=
  if negb (Z.land word OBSOLETE_BIT =? 0) then Some (None, word)
  else if Z.land word LOCK_BIT =? 0 then
    match try_upgrade word word with
    | (Some w, word') => Some (Some w, word')
    | (None, _) => None
    end
  else None.

(** The new version, which is also the new word. *)
Definition unlock (w : WriteGuard) : Z := wrapping_add64 (g_v w) VERSION_STEP.
Definition drop_guard (w : WriteGuard) : Z := wrapping_add64 (g_v w) VERSION_STEP.
Definition mark_obsolete (w : WriteGuard) : Z := Z.lor (g_v w) OBSOLETE_BIT.

(** ** [SpinBackoff] *)

Record SpinBackoff := { step : Z }.
Definition backoff_new : SpinBackoff := {| step := 0 |}.

(** The number of [spin_loop] hints of one call (0 when it yields), and the
    next state. *)
Definition spin (b : SpinBackoff) : Z * SpinBackoff :=
  (if 6 <? step b then 0 else 2 ^ step b,
   {| step := if step b <? 16 then step b + 1 else step b |}).

(** ** Bits of a version *)

Lemma flagged_spec v : flagged v = false ↔ v mod 4 = 0.
Proof.
  unfold flagged, LOCK_BIT, OBSOLETE_BIT. change (Z.lor 1 2) with (Z.ones 2).
  rewrite Z.land_ones by lia. change (2 ^ 2) with 4.
  rewrite negb_false_iff, Z.eqb_eq. done.
Qed.

Lemma lor_low v r : v mod 4 = 0 → 0 <= r < 4 → Z.lor v r = v + r.
Proof.
  intros Hv Hr. pose proof (Z.add_lor_land v r).
  assert (Z.land v r = 0) as E; [|lia].
  rewrite <- (Z.mod_small r (2 ^ 2)), <- Z.land_ones, (Z.land_comm r), Z.land_assoc by lia.
  rewrite Z.land_ones by lia. change (2 ^ 2) with 4. by rewrite Hv.
Qed.

Lemma land_low v r q : v mod 4 = 0 → 0 <= r < 4 → 0 <= q < 4 → Z.land (v + r) q = Z.land r q.
Proof.
  intros Hv Hr Hq. rewrite <- (Z.mod_small q (2 ^ 2)), <- Z.land_ones by lia.
  rewrite !(Z.land_comm q), !Z.land_assoc, !Z.land_ones by lia.
  change (2 ^ 2) with 4. rewrite Z.add_mod, Hv, Z.add_0_l, Z.mod_mod by lia. done.
Qed.

Lemma wrap_mod4 v : v mod 4 = 0 → wrapping_add64 v VERSION_STEP mod 4 = 0.
Proof.
  intros H. unfold wrapping_add64, VERSION_STEP.
  rewrite Z.mod_mod_divide by (by exists (2 ^ 62)).
  rewrite Z.add_mod, H by lia. done.
Qed.

Lemma try_upgrade_Some word v w word' :
  try_upgrade word v = (Some w, word') ↔
  word = v ∧ v mod 4 = 0 ∧ w = {| g_v := v |} ∧ word' = v + 1.
Proof.
  unfold try_upgrade. destruct (flagged v) eqn:F.
  - split; [done|]. intros (_ & H%flagged_spec & _). congruence.
  - apply flagged_spec in F as F'. destruct (Z.eqb_spec word v) as [->|].
    + rewrite lor_low by (auto; unfold LOCK_BIT; lia). unfold LOCK_BIT. naive_solver.
    + naive_solver.
Qed.

Lemma read_version_Some word v : read_version word = Some v ↔ word = v ∧ v mod 4 = 0.
Proof.
  unfold read_version. destruct (flagged word) eqn:F.
  - split; [done|]. intros [-> H%flagged_spec]. congruence.
  - apply flagged_spec in F. naive_solver.
Qed.

(** ** Threads around one latch *)

Module SeqLock.
Section SeqLock.
(** The fields of the protected node, and their values. *)
Context {F X : Type} `{EqDecision F}.

(** What one thread is doing with the latch. *)
Inductive tstate :=
| Idle
| Reading (v : Z) (rs : list (F * X))  (** an optimistic section and its loads *)
| Locking (v : Z)                      (** in [lock], having loaded [v] *)
| Writing (w : WriteGuard).            (** a critical section *)

Record state := {
word : Z;
mem : F → X;
threads : nat → tstate;
sections : Z;   (** critical sections ended by an unlock, a ghost *)
}.

Definition set_thread (s : state) (t : nat) (ts : tstate) : nat → tstate :=
λ u, if decide (u = t) then ts else threads s u.
Definition set_field (m : F → X) (f : F) (x : X) : F → X :=
λ g, if decide (g = f) then x else m g.

(** One atomic access of thread [t]. *)
Inductive step (t : nat) (s : state) : state → Prop :=
| step_read_version v :
  threads s t = Idle → read_version (word s) = Some v →
  step t s {| word := word s; mem := mem s;
              threads := set_thread s t (Reading v []); sections := sections s |}
| step_load v rs f :
  threads s t = Reading v rs →
  step t s {| word := word s; mem := mem s;
              threads := set_thread s t (Reading v ((f, mem s f) :: rs));
              sections := sections s |}
| step_leave v rs :
  (** after a validation, whatever it says *)
  threads s t = Reading v rs →
  step t s {| word := word s; mem := mem s;
              threads := set_thread s t Idle; sections := sections s |}
| step_try_upgrade v rs :
  threads s t = Reading v rs →
  step t s (let r := try_upgrade (word s) v in
            {| word := r.2; mem := mem s;
               threads := set_thread s t (from_option Writing Idle r.1);
               sections := sections s |})
| step_lock_load :
  threads s t = Idle →
  step t s {| word := word s; mem := mem s;
              threads := set_thread s t (if is_obsolete (word s) then Idle
                                         else Locking (word s));
              sections := sections s |}
| step_lock_cas v :
  threads s t = Locking v →
  step t s (let r := if Z.land v LOCK_BIT =? 0 then try_upgrade (word s) v
                     else (None, word s) in
            {| word := r.2; mem := mem s;
               threads := set_thread s t (from_option Writing Idle r.1);
               sections := sections s |})
| step_store w f x :
  threads s t = Writing w →
  step t s {| word := word s; mem := set_field (mem s) f x;
              threads := threads s; sections := sections s |}
| step_unlock w :
  threads s t = Writing w →
  step t s {| word := unlock w; mem := mem s;
              threads := set_thread s t Idle; sections := sections s + 1 |}
| step_drop w :
  threads s t = Writing w →
  step t s {| word := drop_guard w; mem := mem s;
              threads := set_thread s t Idle; sections := sections s + 1 |}
| step_mark_obsolete w :
  threads s t = Writing w →
  step t s {| word := mark_obsolete w; mem := mem s;
              threads := set_thread s t Idle; sections := sections s |}.

Definition init (m : F → X) : state :=
{| word := latch_new; mem := m; threads := λ _, Idle; sections := 0 |}.

(** States reached from a fresh latch by any interleaving. *)
Inductive reachable (m : F → X) : state → Prop :=
| reach_init : reachable m (init m)
| reach_step t s s' : reachable m s → step t s s' → reachable m s'.

(** The version after [c] critical sections. *)
Definition version (c : Z) : Z := (4 * c) mod 2 ^ 64.

(** The word is the current version, unlocked and live, locked by exactly
  one thread, or obsolete. *)
Inductive phase (s : state) : Prop :=
| phase_free :
  word s = version (sections s) → (∀ t w, threads s t ≠ Writing w) → phase s
| phase_locked t :
  word s = version (sections s) + 1 →
  threads s t = Writing {| g_v := version (sections s) |} →
  (∀ u w, threads s u = Writing w → u = t) → phase s
| phase_obsolete :
  word s = version (sections s) + 2 → (∀ t w, threads s t ≠ Writing w) → phase s.

(** A reader's version is one of the past; at the current one, on a free
  latch, its loads are current. *)
Definition reader_ok (s : state) (v : Z) (rs : list (F * X)) : Prop :=
∃ c, 0 <= c <= sections s ∧ v = version c ∧
  (c = sections s → word s = version c → ∀ f x, (f, x) ∈ rs → mem s f = x).

Definition inv (s : state) : Prop :=
0 <= sections s ∧ phase s ∧
∀ t v rs, threads s t = Reading v rs → reader_ok s v rs.

Lemma version_mod4 c : version c mod 4 = 0.
Proof.
unfold version. rewrite Z.mod_mod_divide by (by exists (2 ^ 62)).
by rewrite Z.mul_comm, Z.mod_mul by lia.
Qed.

Lemma version_succ c : wrapping_add64 (version c) VERSION_STEP = version (c + 1).
Proof.
unfold wrapping_add64, version, VERSION_STEP.
rewrite Z.add_mod_idemp_l by lia. f_equal. lia.
Qed.

Lemma version_inj c d : 0 <= c < 2 ^ 62 → 0 <= d < 2 ^ 62 → version c = version d → c = d.
Proof. unfold version. intros. rewrite !Z.mod_small in * by lia. lia. Qed.

Lemma set_thread_eq s t ts : set_thread s t ts t = ts.
Proof. unfold set_thread. by rewrite decide_True. Qed.

Lemma set_thread_cases s t ts u :
(u = t ∧ set_thread s t ts u = ts) ∨ (u ≠ t ∧ set_thread s t ts u = threads s u).
Proof. unfold set_thread. case_decide; auto. Qed.

(** A step that keeps the word and moves one thread between two states that
  hold nothing keeps the phase. *)
Lemma phase_thread s t ts :
(∀ w, threads s t ≠ Writing w) → (∀ w, ts ≠ Writing w) → phase s →
phase {| word := word s; mem := mem s; threads := set_thread s t ts; sections := sections s |}.
Proof.
intros Ht Hts [E H|u E Hu H|E H].
- apply phase_free; cbn; [done|]. intros u w.
  destruct (set_thread_cases s t ts u) as [[-> ->]|[_ ->]]; auto.
- apply phase_locked with u; cbn; [done| |].
  + destruct (set_thread_cases s t ts u) as [[-> _]|[_ ->]]; [by apply Ht in Hu|done].
  + intros u' w. destruct (set_thread_cases s t ts u') as [[-> ->]|[_ ->]]; [|by eauto].
    intros Hw. by apply Hts in Hw.
- apply phase_obsolete; cbn; [done|]. intros u w.
  destruct (set_thread_cases s t ts u) as [[-> ->]|[_ ->]]; auto.
Qed.

Lemma phase_flagged s : phase s → word s mod 4 = 0 →
word s = version (sections s) ∧ (∀ t w, threads s t ≠ Writing w).
Proof.
pose proof (version_mod4 (sections s)) as V.
intros [E H|u E Hu H|E H] Hm; [done|exfalso..];
  rewrite E, Z.add_mod, V in Hm by lia; discriminate.
Qed.

(** A successful compare-exchange finds the latch free at the current version. *)
Lemma phase_upgrade s t v w word' :
phase s → (∀ w', threads s t ≠ Writing w') →
try_upgrade (word s) v = (Some w, word') →
phase {| word := word'; mem := mem s; threads := set_thread s t (Writing w);
         sections := sections s |} ∧ word s = version (sections s).
Proof.
intros P Ht (E & Hv & -> & ->)%try_upgrade_Some.
destruct (phase_flagged s P) as [W N]; [by rewrite E|].
split; [|done]. assert (v = version (sections s)) as -> by congruence.
apply phase_locked with t; cbn; [done|by rewrite set_thread_eq|].
intros u w. destruct (set_thread_cases s t (Writing {| g_v := version (sections s) |}) u)
  as [[-> _]|[_ ->]]; [done|]. intros H. by apply N in H.
Qed.

Lemma phase_writing s t w : phase s → threads s t = Writing w →
w = {| g_v := version (sections s) |} ∧ word s = version (sections s) + 1 ∧
(∀ u w', threads s u = Writing w' → u = t).
Proof.
intros [E H|u E Hu H|E H] Ht; [by apply H in Ht| |by apply H in Ht].
assert (t = u) as -> by eauto. split; [congruence|]. eauto.
Qed.

(** Leaving a critical section. *)
Lemma phase_leave s t w n word' :
phase s → threads s t = Writing w →
(word' = version n ∨ word' = version n + 2) →
phase {| word := word'; mem := mem s; threads := set_thread s t Idle; sections := n |}.
Proof.
intros P Ht W. destruct (phase_writing s t w P Ht) as (_ & _ & U).
assert (∀ u w', set_thread s t Idle u ≠ Writing w') as N.
{ intros u w'. destruct (set_thread_cases s t Idle u) as [[-> ->]|[Hu ->]]; [done|].
  intros H. apply U in H. done. }
destruct W as [W|W]; [by apply phase_free|by apply phase_obsolete].
Qed.

Lemma reader_mono s s' v rs :
reader_ok s v rs →
(sections s = sections s' ∧ mem s = mem s' ∧ word s = word s') ∨
sections s < sections s' ∨
(sections s = sections s' ∧ word s' ≠ version (sections s')) →
reader_ok s' v rs.
Proof.
intros (c & Hc & -> & Hr) H. exists c.
destruct H as [(E1 & E2 & E3)|[H|[E H]]].
- rewrite <- E1, <- E2, <- E3. auto.
- split_and!; [lia..|done|]. intros. lia.
- rewrite <- E. split_and!; [lia..|done|]. intros -> Hw. by rewrite <- E in H.
Qed.

Lemma inv_init m : inv (init m).
Proof. split; [done|]. split; [by apply phase_free|done]. Qed.

(** The readers of the next state, when thread [t] is not left reading. *)
Lemma readers_step s t ts word' mem' n :
(∀ v rs, ts ≠ Reading v rs) →
(∀ u v rs, threads s u = Reading v rs → reader_ok s v rs) →
(sections s = n ∧ mem s = mem' ∧ word s = word') ∨ sections s < n ∨
  (sections s = n ∧ word' ≠ version n) →
let s' := {| word := word'; mem := mem'; threads := set_thread s t ts; sections := n |} in
∀ u v rs, threads s' u = Reading v rs → reader_ok s' v rs.
Proof.
intros Hts Hr H s' u v rs. cbn.
destruct (set_thread_cases s t ts u) as [[-> ->]|[_ ->]]; intros Hu.
- by apply Hts in Hu.
- by eapply reader_mono; [eapply Hr|].
Qed.

Lemma inv_upgrade s t v :
inv s → (∀ w, threads s t ≠ Writing w) →
inv (let r := try_upgrade (word s) v in
     {| word := r.2; mem := mem s; threads := set_thread s t (from_option Writing Idle r.1);
        sections := sections s |}).
Proof.
intros (Hn & P & R) Ht. destruct (try_upgrade (word s) v) as [[w|] word'] eqn:E; cbn.
- destruct (phase_upgrade s t v w word' P Ht E) as [P' W].
  apply try_upgrade_Some in E as (E & Hv & -> & ->).
  split; [done|]. split; [done|]. apply readers_step; [done|done|].
  right; right. split; [done|]. rewrite <- W, E. lia.
- assert (word' = word s) as ->.
  { unfold try_upgrade in E. repeat case_match; congruence. }
  split; [done|]. split; [by apply phase_thread|].
  apply readers_step; [done|done|]. auto.
Qed.

Lemma inv_leave s t w n word' :
inv s → threads s t = Writing w →
(n = sections s + 1 ∧ word' = version n) ∨ (n = sections s ∧ word' = version n + 2) →
inv {| word := word'; mem := mem s; threads := set_thread s t Idle; sections := n |}.
Proof.
intros (Hn & P & R) Ht H. split; [cbn; lia|]. split.
- eapply phase_leave; [done..|]. naive_solver.
- apply readers_step; [done|done|]. right. destruct H as [[-> ->]|[-> ->]]; [lia|].
  right. split; [done|lia].
Qed.

Lemma step_inv t s s' : inv s → step t s s' → inv s'.
Proof.
intros I St. pose proof I as (Hn & P & R).
destruct St as [v Ht Hv|v rs f Ht|v rs Ht|v rs Ht|Ht|v Ht|w f x Ht|w Ht|w Ht|w Ht].
- (* read_version *)
  apply read_version_Some in Hv as [Hv Hm].
  assert (word s = version (sections s)) as W by (apply phase_flagged; congruence).
  split; [done|]. split; [apply phase_thread; [by rewrite Ht|done|done]|].
  intros u v' rs'; cbn. destruct (set_thread_cases s t (Reading v []) u) as [[-> ->]|[_ ->]].
  + intros [= <- <-]. exists (sections s). cbn. split_and!; [lia..|congruence|].
    intros _ _ f x []%not_elem_of_nil.
  + intros Hu. eapply reader_mono; [by eapply R|]. auto.
- (* load *)
  split; [done|]. split; [apply phase_thread; [by rewrite Ht|done|done]|].
  intros u v' rs'; cbn.
  destruct (set_thread_cases s t (Reading v ((f, mem s f) :: rs)) u) as [[-> ->]|[_ ->]].
  + intros [= <- <-]. destruct (R t v rs Ht) as (c & Hc & -> & Hr).
    exists c. cbn. split_and!; [lia..|done|]. intros E W g x [[= -> ->]|Hg]%elem_of_cons; eauto.
  + intros Hu. eapply reader_mono; [by eapply R|]. auto.
- (* leave *)
  split; [done|]. split; [apply phase_thread; [by rewrite Ht|done|done]|].
  apply readers_step; auto.
- apply inv_upgrade; [done|by rewrite Ht].
- (* the load of lock *)
  split; [done|]. split; [apply phase_thread; [by rewrite Ht| |done]|].
  + intros w. by destruct (is_obsolete _).
  + apply readers_step; [|done|auto]. intros. by destruct (is_obsolete _).
- (* its compare-exchange *)
  destruct (Z.land v LOCK_BIT =? 0).
  + apply inv_upgrade; [done|by rewrite Ht].
  + cbn. split; [done|]. split; [apply phase_thread; [by rewrite Ht|done|done]|].
    apply readers_step; auto.
- (* store *)
  destruct (phase_writing s t w P Ht) as (-> & W & U).
  split; [done|]. split; [by apply phase_locked with t|].
  intros u v rs Hu. eapply reader_mono; [by eapply R|]. right; right. cbn. split; [done|lia].
- destruct (phase_writing s t w P Ht) as (-> & W & U).
  eapply inv_leave; [done..|]. left. split; [done|apply version_succ].
- destruct (phase_writing s t w P Ht) as (-> & W & U).
  eapply inv_leave; [done..|]. left. split; [done|apply version_succ].
- destruct (phase_writing s t w P Ht) as (-> & W & U).
  eapply inv_leave; [done..|]. right. split; [done|].
  unfold mark_obsolete, OBSOLETE_BIT; cbn. apply lor_low; [apply version_mod4|lia].
Qed.

Lemma reachable_inv m s : reachable m s → inv s.
Proof. induction 1; eauto using inv_init, step_inv. Qed.

Lemma validated_snapshot m s t v rs :
reachable m s → sections s < 2 ^ 62 → threads s t = Reading v rs →
word s = v → ∀ f x, (f, x) ∈ rs → mem s f = x.
Proof.
intros (Hn & P & R)%reachable_inv Hs Ht Hv.
destruct (R t v rs Ht) as (c & Hc & -> & Hr).
destruct (phase_flagged s P) as [W _]; [rewrite Hv; apply version_mod4|].
assert (c = sections s) as -> by (apply version_inj; [lia..|congruence]).
by apply Hr.
Qed.

(** C24: the seqlock protocol. Whatever the interleaving, if a reader's
  version still validates, every load it made since it read that version
  shows the node's current contents: the loads are one snapshot. The bound
  is the 62 bits of the version counter. *)
Theorem validated_reads_are_a_snapshot m s t v rs :
reachable m s → sections s < 2 ^ 62 → threads s t = Reading v rs →
validate (word s) v = true →
∀ f x, (f, x) ∈ rs → mem s f = x.
Proof.
intros Hr Hs Ht Hv%Z.eqb_eq. by apply (validated_snapshot m s t v rs).
Qed.

(** C25: an upgrade at the version of an optimistic section succeeds only if
  everything read in that section is still current, and then the writer is
  alone: a plan made from the reads is exact under the latch. *)
Theorem upgrade_confirms_the_reads m s t v rs w word' :
reachable m s → sections s < 2 ^ 62 → threads s t = Reading v rs →
try_upgrade (word s) v = (Some w, word') →
(∀ f x, (f, x) ∈ rs → mem s f = x) ∧ (∀ u w', threads s u ≠ Writing w').
Proof.
intros Hr Hs Ht E. pose proof (reachable_inv m s Hr) as (_ & P & _).
pose proof E as (W & Hv & _ & _)%try_upgrade_Some. split.
- apply (validated_snapshot m s t v rs); auto.
- apply phase_flagged; [done|congruence].
Qed.

(** C26: at most one thread is in a critical section, and while one is, no
  version validates, is handed to a new reader, or upgrades. *)
Theorem writers_exclude_writers_and_readers m s t w :
reachable m s → threads s t = Writing w →
(∀ u w', threads s u = Writing w' → u = t) ∧
read_version (word s) = None ∧
(∀ u v rs, threads s u = Reading v rs → validate (word s) v = false) ∧
(∀ v, (try_upgrade (word s) v).1 = None).
Proof.
intros (Hn & P & R)%reachable_inv Ht.
destruct (phase_writing s t w P Ht) as (-> & W & U).
assert (word s mod 4 ≠ 0) as N.
{ rewrite W, Z.add_mod, version_mod4 by lia. done. }
split_and!; [done| | |].
- destruct (read_version (word s)) eqn:E; [|done]. apply read_version_Some in E as [E ?].
  by rewrite E in N.
- intros u v rs (c & _ & -> & _)%R. apply Z.eqb_neq. intros E.
  by rewrite E, version_mod4 in N.
- intros v. destruct (try_upgrade _ v) as [[w'|] w2] eqn:E; [|done].
  apply try_upgrade_Some in E as (E & ? & _). by rewrite E in N.
Qed.

(** Steps of any threads. *)
Inductive steps : state → state → Prop :=
| steps_refl s : steps s s
| steps_step t s s' s'' : step t s s' → steps s' s'' → steps s s''.

Lemma obsolete_word_step s t s' :
inv s → word s = version (sections s) + 2 → step t s s' →
word s' = word s ∧ sections s' = sections s ∧ mem s' = mem s.
Proof.
intros (_ & P & _) W St.
assert (∀ u w, threads s u ≠ Writing w) as N.
{ destruct P as [| |]; [done| |done]. lia. }
assert (∀ v, (try_upgrade (word s) v).2 = word s) as T.
{ intros v. destruct (try_upgrade _ v) as [[w|] w'] eqn:E; cbn.
  - apply try_upgrade_Some in E as (E & Hv & _). rewrite E in W.
    rewrite W, Z.add_mod, version_mod4 in Hv by lia. done.
  - unfold try_upgrade in E. repeat case_match; congruence. }
destruct St; cbn; try done; try (exfalso; by eapply N).
all: destruct (Z.land v LOCK_BIT =? 0); cbn; by rewrite ?T.
Qed.

(** C27: an obsolete latch stays obsolete, whatever the threads do from
  there: its word and the node's fields never change again, so no version
  ever validates against it and no thread ever locks it. *)
Theorem obsolete_is_permanent m s s' :
reachable m s → is_obsolete (word s) = true → steps s s' →
word s' = word s ∧ mem s' = mem s ∧ is_obsolete (word s') = true ∧
lock_turn (word s') = Some (None, word s').
Proof.
intros Hr Ho St. apply reachable_inv in Hr as I. clear Hr.
assert (word s = version (sections s) + 2) as W.
{ pose proof (version_mod4 (sections s)) as V. destruct I as (_ & P & _).
  unfold is_obsolete, OBSOLETE_BIT in Ho.
  destruct P as [E _|u E _ _|E _]; [exfalso..|done]; rewrite E in Ho.
  - rewrite <- (Z.add_0_r (version _)), land_low in Ho by (auto; lia). done.
  - rewrite land_low in Ho by (auto; lia). done. }
assert (word s' = word s ∧ mem s' = mem s) as [Ew Em].
{ clear Ho. induction St as [s|t s1 s2 s3 St _ IH]; [done|].
  destruct (obsolete_word_step s1 t s2 I W St) as (E1 & E2 & E3).
  destruct IH as [-> ->]; [by eapply step_inv|congruence|]. by rewrite E1, E3. }
rewrite Ew. split_and!; [done..|]. unfold lock_turn. unfold is_obsolete in Ho. by rewrite Ho.
Qed.
End SeqLock.

(** A run: thread 0 reads a field, upgrades, and marks the latch obsolete. *)
Section run.
Definition mem0 : nat → nat := λ _, 7%nat.
Definition run0 : state (F := nat) (X := nat) := init mem0.
Definition run1 : state :=
  {| word := word run0; mem := mem run0; threads := set_thread run0 0 (Reading 0 []); sections := sections run0 |}.
Definition run2 : state :=
  {| word := word run1; mem := mem run1; threads := set_thread run1 0 (Reading 0 [(3%nat, mem run1 3%nat)]);
     sections := sections run1 |}.
Definition run3 : state :=
  let r := try_upgrade (word run2) 0 in
  {| word := r.2; mem := mem run2; threads := set_thread run2 0 (from_option Writing Idle r.1); sections := sections run2 |}.
Definition run4 : state :=
  {| word := mark_obsolete {| g_v := 0 |}; mem := mem run3; threads := set_thread run3 0 Idle; sections := sections run3 |}.

Lemma run2_reachable : reachable mem0 run2.
Proof.
  apply (reach_step mem0 0%nat run1); [|by apply step_load].
  apply (reach_step mem0 0%nat run0); [constructor|by apply step_read_version].
Defined.

Lemma run3_reachable : reachable mem0 run3.
Proof.
  apply (reach_step mem0 0%nat run2); [apply run2_reachable|].
  by apply (step_try_upgrade 0%nat run2 0 [(3%nat, mem run1 3%nat)]).
Defined.

Lemma run4_reachable : reachable mem0 run4.
Proof.
  apply (reach_step mem0 0%nat run3); [apply run3_reachable|]. by apply (step_mark_obsolete 0%nat run3).
Defined.

Lemma validated_reads_are_a_snapshot_witness : mem run2 3%nat = 7%nat.
Proof.
  apply (validated_reads_are_a_snapshot mem0 run2 0%nat 0 [(3%nat, 7%nat)]);
    [apply run2_reachable|reflexivity..|]. by left.
Defined.

Lemma upgrade_confirms_the_reads_witness :
  try_upgrade (word run2) 0 = (Some {| g_v := 0 |}, 1) ∧ (∀ u w', threads run2 u ≠ Writing w').
Proof.
  split; [reflexivity|]. apply (upgrade_confirms_the_reads mem0 run2 0%nat 0 [(3%nat, 7%nat)] {| g_v := 0 |} 1);
    [apply run2_reachable|reflexivity..].
Defined.

Lemma writers_exclude_writers_and_readers_witness : read_version (word run3) = None.
Proof.
  apply (writers_exclude_writers_and_readers mem0 run3 0%nat {| g_v := 0 |}); [apply run3_reachable|reflexivity].
Defined.

Lemma obsolete_is_permanent_witness : lock_turn (word run4) = Some (None, word run4).
Proof.
  apply (obsolete_is_permanent mem0 run4 run4); [apply run4_reachable|reflexivity|constructor].
Defined.
End run.
End SeqLock.

(** ** [ChainLock]: the lock of a version chain *)

Definition CHAIN_LOCKED : Z := 1.
Definition CHAIN_DEAD : Z := 2.

Definition chain_new : Z := 0.
Definition is_dead (state : Z) : bool := negb (Z.land state CHAIN_DEAD =? 0).
Definition retired_link (state : Z) : Z :=
  Z.land state (Z.lxor (2 ^ 32 - 1) (Z.lor CHAIN_LOCKED CHAIN_DEAD)).
Definition set_retired_link (next : Z) : Z := Z.lor CHAIN_DEAD next.

(** The compare-exchange of [lock]: [true] if the guard was taken. *)
Definition chain_try_lock (state : Z) : bool * Z :=
  if state =? 0 then (true, CHAIN_LOCKED) else (false, state).
Definition chain_kill : Z := CHAIN_DEAD.
Definition chain_drop : Z := 0.

Module Chain.
(** A thread: outside, spinning in [lock], holding the guard, or the thread
    that killed the lock and may thread its leaf on the retired list. *)
Inductive cthread := Out | Spinning | Holding | Killer.

Record state := { cword : Z; cthreads : nat → cthread }.

Definition set_cthread (s : state) (t : nat) (x : cthread) : nat → cthread :=
  λ u, if decide (u = t) then x else cthreads s u.

Inductive cstep (t : nat) (s : state) : state → Prop :=
| c_enter : cthreads s t = Out →
    cstep t s {| cword := cword s; cthreads := set_cthread s t Spinning |}
| c_cas : cthreads s t = Spinning →
    let r := chain_try_lock (cword s) in
    cstep t s {| cword := r.2; cthreads := set_cthread s t (if r.1 then Holding else Spinning) |}
| c_load_dead : cthreads s t = Spinning → is_dead (cword s) = true →
    (** [lock] returns [None] *)
    cstep t s {| cword := cword s; cthreads := set_cthread s t Out |}
| c_drop : cthreads s t = Holding →
    cstep t s {| cword := chain_drop; cthreads := set_cthread s t Out |}
| c_kill : cthreads s t = Holding →
    cstep t s {| cword := chain_kill; cthreads := set_cthread s t Killer |}
| c_set_link next : cthreads s t = Killer → 0 <= next < 2 ^ 32 → Z.land next 3 = 0 →
    cstep t s {| cword := set_retired_link next; cthreads := set_cthread s t Out |}.

Definition cinit : state := {| cword := chain_new; cthreads := λ _, Out |}.

Inductive creachable : state → Prop :=
| creach_init : creachable cinit
| creach_step t s s' : creachable s → cstep t s s' → creachable s'.

Inductive cphase (s : state) : Prop :=
| cfree : cword s = 0 → (∀ t, cthreads s t = Out ∨ cthreads s t = Spinning) → cphase s
| clocked t : cword s = CHAIN_LOCKED → cthreads s t = Holding →
    (∀ u, u ≠ t → cthreads s u = Out ∨ cthreads s u = Spinning) → cphase s
| cdead next : cword s = CHAIN_DEAD + next → next mod 4 = 0 → 0 <= next →
    (∀ t, cthreads s t ≠ Holding) → cphase s.

Lemma set_cthread_cases s t x u :
  (u = t ∧ set_cthread s t x u = x) ∨ (u ≠ t ∧ set_cthread s t x u = cthreads s u).
Proof. unfold set_cthread. case_decide; auto. Qed.

Lemma set_cthread_eq s t x : set_cthread s t x t = x.
Proof. unfold set_cthread. by rewrite decide_True. Qed.

Ltac cases_thread u :=
  match goal with |- context [set_cthread ?s ?t ?x u] =>
    destruct (set_cthread_cases s t x u) as [[-> ->]|[? ->]]
  end.

Lemma cphase_thread s t x :
  cphase s → cthreads s t ≠ Holding → x = Out ∨ x = Spinning →
  cphase {| cword := cword s; cthreads := set_cthread s t x |}.
Proof.
  intros [E H|u E Hu H|n E Hn Hp H] Ht Hx.
  - apply cfree; cbn; [done|]. intros u. cases_thread u; auto.
  - apply clocked with u; cbn; [done| |].
    + cases_thread u; [done|auto].
    + intros u' Hne. cases_thread u'; auto.
  - apply cdead with n; cbn; [done..|]. intros u. cases_thread u; [|auto].
    by destruct Hx as [-> | ->].
Qed.

Lemma cphase_held s t : cphase s → cthreads s t = Holding →
  cword s = CHAIN_LOCKED ∧ ∀ u, u ≠ t → cthreads s u = Out ∨ cthreads s u = Spinning.
Proof.
  intros [E H|u E Hu H|n E Hn Hp H] Ht.
  - destruct (H t); congruence.
  - destruct (decide (t = u)) as [->|Hne]; [done|]. destruct (H t Hne); congruence.
  - by apply H in Ht.
Qed.

Lemma cstep_phase t s s' : cphase s → cstep t s s' → cphase s'.
Proof.
  intros P [Ht|Ht|Ht Hd|Ht|Ht|next Ht Hr Hl].
  - apply cphase_thread; [done|by rewrite Ht|auto].
  - subst r. unfold chain_try_lock. destruct (Z.eqb_spec (cword s) 0) as [E|E]; cbn.
    + destruct P as [_ H|u E' _ _|n E' Hn Hp _]; [|by rewrite E' in E|unfold CHAIN_DEAD in *; lia].
      apply clocked with t; cbn; [done|by rewrite set_cthread_eq|].
      intros u Hne. cases_thread u; [done|auto].
    + apply cphase_thread; [done|by rewrite Ht|auto].
  - apply cphase_thread; [done|by rewrite Ht|auto].
  - destruct (cphase_held s t P Ht) as [_ H]. apply cfree; cbn; [done|].
    intros u. cases_thread u; auto.
  - destruct (cphase_held s t P Ht) as [_ H]. apply cdead with 0; cbn; [done..|].
    intros u. cases_thread u; [done|]. destruct (H u) as [->| ->]; done.
  - change 3 with (Z.ones 2) in Hl. rewrite Z.land_ones in Hl by lia. change (2 ^ 2) with 4 in Hl.
    assert (∀ u, cthreads s u ≠ Holding) as N.
    { intros u Hu. destruct (cphase_held s u P Hu) as [_ H].
      destruct (decide (t = u)) as [->|Hne]; [congruence|]. destruct (H t Hne); congruence. }
    apply cdead with next; cbn; [|done|lia|].
    + unfold set_retired_link, CHAIN_DEAD. rewrite Z.lor_comm, lor_low by lia. lia.
    + intros u. cases_thread u; auto.
Qed.

Lemma creachable_phase s : creachable s → cphase s.
Proof.
  induction 1 as [|t s s' _ IH St]; [|by eapply cstep_phase].
  apply cfree; cbn; auto.
Qed.

(** C39: the chain lock is mutual exclusion that can die: one holder at a
    time, and once dead nobody holds it, no attempt takes it, and every later
    state is dead too. *)
Theorem chain_lock_excludes_and_dies s :
  creachable s →
  (∀ t u, cthreads s t = Holding → cthreads s u = Holding → t = u) ∧
  (is_dead (cword s) = true →
    (∀ t, cthreads s t ≠ Holding) ∧ (chain_try_lock (cword s)).1 = false ∧
    (∀ t s', cstep t s s' → is_dead (cword s') = true)).
Proof.
  intros P%creachable_phase. split.
  - intros t u Ht Hu. destruct (cphase_held s t P Ht) as [_ H].
    destruct (decide (u = t)) as [|Hne]; [done|]. destruct (H u Hne); congruence.
  - intros D. assert (∃ n, cword s = CHAIN_DEAD + n ∧ n mod 4 = 0 ∧ 0 <= n ∧
      ∀ t, cthreads s t ≠ Holding) as (n & E & Hn & Hp & N).
    { destruct P as [E H|u E Hu H|n E Hn Hp H]; [by rewrite E in D..|eauto]. }
    split_and!; [done| |].
    + unfold chain_try_lock. destruct (Z.eqb_spec (cword s) 0); [|done].
      unfold CHAIN_DEAD in *. lia.
    + assert (∀ k, k mod 4 = 0 → is_dead (CHAIN_DEAD + k) = true) as Dk.
      { intros k Hk. unfold is_dead, CHAIN_DEAD. rewrite Z.add_comm, land_low by lia. done. }
      intros t s' [Ht|Ht|Ht _|Ht|Ht|next Ht Hr Hl]; cbn; try done; try by apply N in Ht.
      * subst r. unfold chain_try_lock. destruct (Z.eqb_spec (cword s) 0); [|done].
        unfold CHAIN_DEAD in *. lia.
      * change 3 with (Z.ones 2) in Hl. rewrite Z.land_ones in Hl by lia.
        change (2 ^ 2) with 4 in Hl.
        unfold set_retired_link. rewrite Z.lor_comm, lor_low by (unfold CHAIN_DEAD; lia).
        rewrite Z.add_comm. by apply Dk.
Qed.
(** A run: thread 0 takes the lock. *)
Definition spinning : state := {| cword := cword cinit; cthreads := set_cthread cinit 0 Spinning |}.
Definition held : state :=
  let r := chain_try_lock (cword spinning) in
  {| cword := r.2; cthreads := set_cthread spinning 0 (if r.1 then Holding else Spinning) |}.

Lemma held_reachable : creachable held.
Proof.
  apply (creach_step 0%nat spinning); [|by apply (c_cas 0%nat spinning)].
  apply (creach_step 0%nat cinit); [constructor|by apply c_enter].
Defined.

Lemma chain_lock_excludes_and_dies_witness :
  cthreads held 0%nat = Holding ∧ (∀ t u, cthreads held t = Holding → cthreads held u = Holding → t = u).
Proof. split; [reflexivity|]. apply (chain_lock_excludes_and_dies held), held_reachable. Defined.
End Chain.

(** The retired-list link stored in a dead lock reads back, and leaves the lock
    dead. *)
Lemma retired_link_roundtrip next :
  0 <= next < 2 ^ 32 → Z.land next 3 = 0 →
  retired_link (set_retired_link next) = next ∧ is_dead (set_retired_link next) = true.
Proof.
  intros Hr Hl. change 3 with (Z.ones 2) in Hl. rewrite Z.land_ones in Hl by lia.
  change (2 ^ 2) with 4 in Hl.
  unfold retired_link, set_retired_link, is_dead, CHAIN_LOCKED, CHAIN_DEAD.
  change (Z.lxor (2 ^ 32 - 1) (Z.lor 1 2)) with (Z.ldiff (Z.ones 32) (Z.ones 2)). split.
  - rewrite Z.lor_comm. apply Z.bits_inj'. intros i Hi.
    rewrite Z.land_spec, Z.lor_spec, Z.ldiff_spec, !Z.testbit_ones_nonneg by lia.
    destruct (Z.ltb_spec i 2).
    + rewrite andb_false_r, andb_false_r. symmetry.
      rewrite <- (Z.mod_pow2_bits_low next 2 i) by lia. change (2 ^ 2) with 4.
      by rewrite Hl, Z.bits_0.
    + assert (Z.testbit 2 i = false) as -> by (apply Z.bits_above_log2; cbn; lia).
      rewrite orb_false_r, andb_true_r. destruct (Z.ltb_spec i 32); [by rewrite andb_true_r|].
      rewrite andb_false_r. symmetry. rewrite <- (Z.mod_small next (2 ^ 32)) by lia.
      by apply Z.mod_pow2_bits_high.
  - rewrite Z.lor_comm, lor_low by lia. rewrite land_low by lia. done.
Qed.

(** Backoff is bounded: the counter never passes 16 and one call spins at
    most 64 times. *)
Lemma spin_is_bounded n :
  let b := Nat.iter n (λ b, (spin b).2) backoff_new in
  0 <= step b <= 16 ∧ 0 <= (spin b).1 <= 64.
Proof.
  intros b. assert (0 <= step b <= 16) as H.
  { subst b. induction n as [|n IH]; [done|]. rewrite Nat.iter_succ.
    set (b := Nat.iter n _ _) in *. unfold spin; cbn [snd step].
    destruct (Z.ltb_spec (step b) 16); lia. }
  split; [done|]. unfold spin; cbn. destruct (Z.ltb_spec 6 (step b)); [lia|].
  split; [apply Z.pow_nonneg; lia|]. change 64 with (2 ^ 6). apply Z.pow_le_mono_r; lia.
Qed.
