(* ===== verification/Epoch.v ===== *)
(** * Epoch guards and retirement ([src/guard.rs])

    Handles of the heap maps hold a pin of the epoch collector, and what is
    unlinked is destroyed through it. The collector is crossbeam's: [Collector]
    is what the code calls, [CollectorLaws] what its documentation promises,
    that a deferred function runs only after every participant pinned then has
    been unpinned. The functions of the code pass the state on; [gstep] is what
    the threads, the collector and the teardown of thread-locals do. *)

From S2P Require Import Prelude Latch.
Local Open Scope Z_scope.

(** An allocation that is retired. *)
Abbreviation object := positive.

(** ** [crossbeam_epoch] *)

Class Collector (L C : Type) := {
  col_register : C → L * C;              (** [Collector::register] *)
  col_release : L → C → C;               (** the drop of a [LocalHandle] *)
  col_pin : L → C → C;                   (** [LocalHandle::pin]: one guard more *)
  col_unpin : L → C → C;                 (** the drop of a guard *)
  col_repin : L → C → C;                 (** [Guard::repin] *)
  col_defer : L → object → C → C;        (** [Guard::defer] of the object's destructor *)
  col_run : object → C → option C;       (** the collector runs it; [None]: not yet *)
}.

(** [pins s l]: the live guards of a participant. [waits s o l]: the destructor
    of [o] waits for [l], which was pinned when it was deferred, to be unpinned.
    [pending]: the deferred destructors. *)
Class CollectorView (L C : Type) := {
  pins : C → L → nat;
  waits : C → object → L → Prop;
  pending : C → gset object;
}.

(** Nothing that waited waits for less. *)
Definition keeps {L C} `{CollectorView L C} (s s' : C) : Prop := (∀ o l, waits s o l → waits s' o l) ∧ pending s' = pending s.

Class CollectorLaws (L C : Type) `{EqDecision L, Collector L C, CollectorView L C} := {
  pins_register s l : pins (col_register s).2 l = pins s l;
  pins_fresh s : pins s (col_register s).1 = 0%nat;
  pins_release l s l' : pins (col_release l s) l' = pins s l';
  pins_pin l s l' : pins (col_pin l s) l' = if decide (l' = l) then S (pins s l') else pins s l';
  pins_unpin l s l' : pins (col_unpin l s) l' = if decide (l' = l) then pred (pins s l') else pins s l';
  pins_repin l s l' : pins (col_repin l s) l' = pins s l';
  pins_defer l o s l' : pins (col_defer l o s) l' = pins s l';
  pins_run o s s' l' : col_run o s = Some s' → pins s' l' = pins s l';
  register_keeps s : keeps s (col_register s).2;
  release_keeps l s : keeps s (col_release l s);
  pin_keeps l s : keeps s (col_pin l s);
  unpin_waits l s o l' : l' ≠ l ∨ (1 < pins s l)%nat → waits s o l' → waits (col_unpin l s) o l';
  unpin_pending l s : pending (col_unpin l s) = pending s;
  repin_waits l s o l' : l' ≠ l ∨ (1 < pins s l)%nat → waits s o l' → waits (col_repin l s) o l';
  repin_pending l s : pending (col_repin l s) = pending s;
  defer_waits l o s l' : (0 < pins s l')%nat → waits (col_defer l o s) o l';
  defer_other l o s o' l' : waits s o' l' → waits (col_defer l o s) o' l';
  defer_pending l o s : pending (col_defer l o s) = {[o]} ∪ pending s;
  run_ok o s s' : col_run o s = Some s' → o ∈ pending s ∧ pending s' = pending s ∖ {[o]} ∧
    (∀ l, ¬ waits s o l) ∧ ∀ o' l, o' ≠ o → waits s o' l → waits s' o' l;
}.

(** ** The code *)

Section code.
Context {L C : Type} `{Collector L C}.

Record Participant := { p_handle : L; p_id : Z }.

(** The thread-local of a thread. *)
Inductive Tls := Uninit | Live (p : Participant) | Gone.

(** [gs_next] is the counter [NEXT]; [gs_guards] are the live guards of the
    collector, with their participants. *)
Record gstate := {
  gs_col : C;
  gs_next : Z;
  gs_tls : nat → Tls;
  gs_guards : gmap positive L;
}.
Implicit Types s : gstate.

Definition set_col (c : C) s : gstate := {| gs_col := c; gs_next := gs_next s; gs_tls := gs_tls s; gs_guards := gs_guards s |}.
Definition set_tls (t : nat) (v : Tls) s : gstate :=
  {| gs_col := gs_col s; gs_next := gs_next s; gs_tls u := if decide (u = t) then v else gs_tls s u; gs_guards := gs_guards s |}.

Definition next_participant_id s : Z * gstate :=
  (gs_next s, {| gs_col := gs_col s; gs_next := wrapping_add64 (gs_next s) 1; gs_tls := gs_tls s; gs_guards := gs_guards s |}).

(** [PARTICIPANT.try_with]: made at the first use, [None] after its destructor. *)
Definition participant (t : nat) s : option Participant * gstate :=
  match gs_tls s t with
  | Live p => (Some p, s)
  | Gone => (None, s)
  | Uninit =>
    let r := col_register (gs_col s) in
    let '(id, s) := next_participant_id (set_col r.2 s) in
    let p := {| p_handle := r.1; p_id := id |} in
    (Some p, set_tls t (Live p) s)
  end.

(** A guard of the participant. *)
Definition pin_local (l : L) s : positive * gstate :=
  let g := fresh (dom (gs_guards s)) in
  (g, {| gs_col := col_pin l (gs_col s); gs_next := gs_next s; gs_tls := gs_tls s; gs_guards := <[g := l]> (gs_guards s) |}).

Definition pin_tagged (t : nat) s : (positive * Z) * gstate :=
  let '(p, s) := participant t s in
  match p with
  | Some p => let '(g, s) := pin_local (p_handle p) s in ((g, p_id p), s)
  | None =>
    let r := col_register (gs_col s) in
    let '(g, s) := pin_local r.1 (set_col r.2 s) in
    ((g, 0), set_col (col_release r.1 (gs_col s)) s)
  end.

Definition pin (t : nat) s : positive * gstate := let '((g, _), s) := pin_tagged t s in (g, s).

(** [None]: it panics. *)
Definition nested_pin (t : nat) (id : Z) s : option (positive * gstate) :=
  let '(p, s) := participant t s in
  p ← p;
  if negb (id =? 0) && (p_id p =? id) then Some (pin_local (p_handle p) s) else None.

(** The drop of a guard. *)
Definition drop_guard (g : positive) s : option gstate :=
  l ← gs_guards s !! g;
  Some {| gs_col := col_unpin l (gs_col s); gs_next := gs_next s; gs_tls := gs_tls s; gs_guards := delete g (gs_guards s) |}.

(** [Guard::repin]. *)
Definition repin (g : positive) s : option gstate := l ← gs_guards s !! g; Some (set_col (col_repin l (gs_col s)) s).

Inductive GuardHandle :=
| Owned (g : positive) (id : Z)
| Shared (g : positive) (id : Z)    (** an [Rc] *)
| Borrowed (g : positive).

Definition owned (t : nat) s : GuardHandle * gstate := let '((g, id), s) := pin_tagged t s in (Owned g id, s).

Definition guard (h : GuardHandle) : positive := match h with Owned g _ | Shared g _ | Borrowed g => g end.

Definition duplicate (t : nat) (h : GuardHandle) s : option (GuardHandle * gstate) :=
  match h with
  | Owned _ id => '(g, s) ← nested_pin t id s; Some (Owned g id, s)
  | Shared g id => Some (Shared g id, s)
  | Borrowed g => Some (Borrowed g, s)
  end.

(** [retire]: the destructor of the allocation is deferred. *)
Definition retire (g : positive) (o : object) s : option gstate :=
  l ← gs_guards s !! g; Some (set_col (col_defer l o (gs_col s)) s).
End code.
Arguments Participant : clear implicits.
Arguments Tls : clear implicits.
Arguments gstate : clear implicits.

(** ** Threads, the collector and thread-local teardown *)

Section steps.
Context {L C : Type} {ED : EqDecision L} {COL : Collector L C} {CV : CollectorView L C} {CL : CollectorLaws L C}.
Abbreviation state := (gstate L C).

(** What a thread holds: the [Guard] of a map's [pin], or the guard of a handle. *)
Inductive holder := Pinned (g : positive) | Handle (h : GuardHandle).

Definition holds_guard (x : holder) : positive := match x with Pinned g => g | Handle h => guard h end.

(** A borrow, or one of the pointers of an [Rc]. *)
Definition counted (x : holder) : bool := match x with Handle (Shared _ _) | Handle (Borrowed _) => true | _ => false end.

(** [h_seen]: what was retired before the pin that protects it, of itself or of
    what it was duplicated or borrowed from. *)
Record held := { h_thread : nat; h_what : holder; h_seen : gset object }.

Record world := {
  w_state : state;
  w_held : gmap positive held;
  w_retired : gset object;
  w_freed : list object;      (** destroyed, the last first *)
}.

Abbreviation world_of s hs w := {| w_state := s; w_held := hs; w_retired := w_retired w; w_freed := w_freed w |}.

(** No other holder has the guard of [i]. *)
Definition alone (w : world) (i g : positive) : Prop := map_Forall (λ k y, k ≠ i → holds_guard (h_what y) ≠ g) (w_held w).

Implicit Types (w : world) (s : state).

Inductive gstep w : world → Prop :=
| s_pin i t g s :
  (** [Guard::new] *)
  w_held w !! i = None → pin t (w_state w) = (g, s) →
  gstep w (world_of s (<[i := {| h_thread := t; h_what := Pinned g; h_seen := w_retired w |}]> (w_held w)) w)
| s_owned i t h s :
  w_held w !! i = None → owned t (w_state w) = (h, s) →
  gstep w (world_of s (<[i := {| h_thread := t; h_what := Handle h; h_seen := w_retired w |}]> (w_held w)) w)
| s_iter i t g id s :
  (** the pin of an iterator, in an [Rc] *)
  w_held w !! i = None → pin_tagged t (w_state w) = ((g, id), s) →
  gstep w (world_of s (<[i := {| h_thread := t; h_what := Handle (Shared g id); h_seen := w_retired w |}]> (w_held w)) w)
| s_borrow i j x :
  (** the [*_with_guard] calls, and the borrow of a handle's guard *)
  w_held w !! i = None → w_held w !! j = Some x →
  gstep w (world_of (w_state w)
    (<[i := {| h_thread := h_thread x; h_what := Handle (Borrowed (holds_guard (h_what x))); h_seen := h_seen x |}]> (w_held w)) w)
| s_duplicate i j x h h' s :
  (** on the thread of the handle, which is not [Send] *)
  w_held w !! i = None → w_held w !! j = Some x → h_what x = Handle h → duplicate (h_thread x) h (w_state w) = Some (h', s) →
  gstep w (world_of s (<[i := {| h_thread := h_thread x; h_what := Handle h'; h_seen := h_seen x |}]> (w_held w)) w)
| s_drop i x s :
  (** a guard is not dropped while it is borrowed, nor an [Rc]'s but with the last *)
  w_held w !! i = Some x → alone w i (holds_guard (h_what x)) → drop_guard (holds_guard (h_what x)) (w_state w) = Some s →
  gstep w (world_of s (delete i (w_held w)) w)
| s_drop_shared i x :
  w_held w !! i = Some x → counted (h_what x) = true → ¬ alone w i (holds_guard (h_what x)) →
  gstep w (world_of (w_state w) (delete i (w_held w)) w)
| s_repin i x g s :
  w_held w !! i = Some x → h_what x = Pinned g → alone w i g → repin g (w_state w) = Some s →
  gstep w (world_of s (<[i := {| h_thread := h_thread x; h_what := Pinned g; h_seen := w_retired w |}]> (w_held w)) w)
| s_retire i x o s :
  (** an allocation is retired once *)
  w_held w !! i = Some x → o ∉ w_retired w → retire (holds_guard (h_what x)) o (w_state w) = Some s →
  gstep w {| w_state := s; w_held := w_held w; w_retired := {[o]} ∪ w_retired w; w_freed := w_freed w |}
| s_run o c :
  col_run o (gs_col (w_state w)) = Some c →
  gstep w {| w_state := set_col c (w_state w); w_held := w_held w; w_retired := w_retired w; w_freed := o :: w_freed w |}
| s_teardown t p :
  (** the destructor of the thread-local, which may run before those that hold handles *)
  gs_tls (w_state w) t = Live p →
  gstep w (world_of (set_tls t Gone (set_col (col_release (p_handle p) (gs_col (w_state w))) (w_state w))) (w_held w) w)
| s_again t :
  (** on some targets a thread-local is made again after its destructor ran *)
  gs_tls (w_state w) t = Gone → gstep w (world_of (set_tls t Uninit (w_state w)) (w_held w) w).

Definition winit (c : C) : world :=
  {| w_state := {| gs_col := c; gs_next := 1; gs_tls _ := Uninit; gs_guards := ∅ |}; w_held := ∅; w_retired := ∅; w_freed := [] |}.

(** After [n] steps, of a collector that no guard has pinned yet. *)
Inductive greachable : nat → world → Prop :=
| greach_init c : (∀ l, pins c l = 0%nat) → pending c = ∅ → greachable 0 (winit c)
| greach_step n w w' : greachable n w → gstep w w' → greachable (S n) w'.

(** ** The invariant *)

(** The live guards of a participant. *)
Definition guards_on (l : L) (gs : gmap positive L) : nat := size (filter (λ p, p.2 = l) gs).

Lemma guards_on_insert l g l' gs : gs !! g = None → guards_on l (<[g := l']> gs) = if decide (l = l') then S (guards_on l gs) else guards_on l gs.
Proof.
  intros Hg. unfold guards_on. rewrite map_filter_insert. cbn. case_decide as E; case_decide as E2; try (by congruence).
  - rewrite map_size_insert_None; [done|]. apply map_lookup_filter_None. by left.
  - by rewrite delete_id by done.
Qed.

Lemma guards_on_delete l g l' gs : gs !! g = Some l' → guards_on l (delete g gs) = if decide (l = l') then pred (guards_on l gs) else guards_on l gs.
Proof.
  intros Hg. pose proof (guards_on_insert l g l' (delete g gs) (lookup_delete_eq _ _)) as X.
  rewrite insert_delete_id in X by done. rewrite X. by case_decide.
Qed.

Lemma guards_on_one g l gs : gs !! g = Some l → (0 < guards_on l gs)%nat.
Proof.
  intros Hg. rewrite <- (insert_delete_id gs g l Hg), guards_on_insert by apply lookup_delete_eq. rewrite decide_True by done. lia.
Qed.

Lemma guards_on_two g g' l gs : g ≠ g' → gs !! g = Some l → gs !! g' = Some l → (1 < guards_on l gs)%nat.
Proof.
  intros Hne Hg Hg'. rewrite <- (insert_delete_id gs g l Hg), guards_on_insert by apply lookup_delete_eq.
  rewrite decide_True by done. assert (0 < guards_on l (delete g gs))%nat; [|lia]. apply (guards_on_one g'). by rewrite lookup_delete_ne.
Qed.

(** What pinning does to the state. *)
Record grows s s' : Prop := {
  gr_next : gs_next s <= gs_next s' <= gs_next s + 1;
  gr_guards g l : gs_guards s !! g = Some l → gs_guards s' !! g = Some l;
  gr_keeps : keeps (gs_col s) (gs_col s');
  gr_tls t p : gs_tls s' t = Live p → gs_tls s t = Live p ∨ gs_next s <= p_id p < gs_next s';
  gr_pins : (∀ l, pins (gs_col s) l = guards_on l (gs_guards s)) → ∀ l, pins (gs_col s') l = guards_on l (gs_guards s');
}.

Lemma keeps_refl (c : C) : keeps c c.
Proof. by split. Qed.

Lemma keeps_trans (c1 c2 c3 : C) : keeps c1 c2 → keeps c2 c3 → keeps c1 c3.
Proof. intros [H1 E1] [H2 E2]. split; [auto|congruence]. Qed.

#[local] Instance grows_refl : Reflexive grows.
Proof. intros s. split; [lia|done|apply keeps_refl|by left|done]. Qed.

Lemma participant_grows t s p s' : gs_next s + 1 < 2 ^ 64 → 1 <= gs_next s → participant t s = (p, s') →
  grows s s' ∧ ∀ q, p = Some q → gs_tls s' t = Live q.
Proof.
  intros Hn H1. unfold participant. destruct (gs_tls s t) as [|q|] eqn:Ht.
  - cbn. intros [= <- <-]. assert (wrapping_add64 (gs_next s) 1 = gs_next s + 1) as Ew by (unfold wrapping_add64; rewrite Z.mod_small; lia).
    split.
    + split; cbn; rewrite ?Ew; [lia|done|apply register_keeps| |].
      * intros u q. case_decide; [intros [= <-]; right; cbn; lia|by left].
      * intros HP l. by rewrite pins_register.
    + intros q [= <-]. cbn. by rewrite decide_True.
  - intros [= <- <-]. split; [apply grows_refl|]. by intros ? [= <-].
  - intros [= <- <-]. by split; [apply grows_refl|].
Qed.

Lemma pin_local_grows l s g s' : pin_local l s = (g, s') → grows s s' ∧ gs_guards s' !! g = Some l ∧ gs_tls s' = gs_tls s ∧ gs_next s' = gs_next s.
Proof.
  intros [= <- <-]. assert (gs_guards s !! fresh (dom (gs_guards s)) = None) as Hg by (apply not_elem_of_dom, is_fresh).
  split_and!; [|cbn; apply lookup_insert_eq|done|done]. split; cbn; [lia| |apply pin_keeps|by left|].
  - intros g l' Hl. rewrite lookup_insert_ne; [done|]. congruence.
  - intros HP l'. rewrite pins_pin, guards_on_insert by done. by rewrite HP.
Qed.

Lemma grows_trans s1 s2 s3 : grows s1 s2 → grows s2 s3 → gs_next s3 <= gs_next s1 + 1 → grows s1 s3.
Proof.
  intros [A1 A2 A3 A4 A5] [B1 B2 B3 B4 B5] Hn. split; [lia|auto|by eapply keeps_trans| |auto].
  intros t p [E|E]%B4; [|right; lia]. destruct (A4 t p E) as [?|?]; [by left|right; lia].
Qed.

(** A guard of the participant, or of one of its own that is not extended. *)
Lemma pin_tagged_grows t s g id s' : gs_next s + 1 < 2 ^ 64 → 1 <= gs_next s → (∀ q, gs_tls s t = Live q → 1 <= p_id q < gs_next s) →
  pin_tagged t s = ((g, id), s') →
  grows s s' ∧ 0 <= id < gs_next s' ∧ ∃ l, gs_guards s' !! g = Some l ∧ ∀ p, id ≠ 0 → gs_tls s' t = Live p → p_id p = id → p_handle p = l.
Proof.
  intros Hn H1 Ht. unfold pin_tagged. destruct (participant t s) as [p s1] eqn:E. destruct (participant_grows t s p s1 Hn H1 E) as [G1 T1].
  pose proof (gr_next _ _ G1) as N1. destruct p as [q|].
  - destruct (pin_local (p_handle q) s1) as [g1 s2] eqn:E2. intros [= <- <- <-].
    destruct (pin_local_grows _ _ _ _ E2) as (G2 & Hg & Etls & En). split; [eapply grows_trans; [done..|lia]|].
    specialize (T1 q eq_refl). split.
    + rewrite En. destruct (gr_tls _ _ G1 t q T1) as [?%Ht|?]; lia.
    + exists (p_handle q). split; [done|]. intros p _. rewrite Etls, T1. by intros [= ->].
  - destruct (pin_local _ _) as [g1 s2] eqn:E2. intros [= <- <- <-].
    destruct (pin_local_grows _ _ _ _ E2) as (G2 & Hg & Etls & En). cbn in G2, En |- *.
    assert (grows s1 (set_col (col_register (gs_col s1)).2 s1)) as G3.
    { split; cbn; [lia|done|apply register_keeps|by left|]. intros HP l. by rewrite pins_register. }
    split; [|split; [lia|]].
    + eapply grows_trans; [exact G1| |cbn; lia]. eapply grows_trans; [exact G3| |cbn; lia]. eapply grows_trans; [exact G2| |cbn; lia].
      split; cbn; [lia|done|apply release_keeps|by left|]. intros HP l. by rewrite pins_release.
    + eexists. split; [exact Hg|done].
Qed.

(** A nested pin is of the same participant. *)
Lemma nested_pin_grows t id s g s' : gs_next s + 1 < 2 ^ 64 → 1 <= gs_next s → nested_pin t id s = Some (g, s') →
  grows s s' ∧ ∃ p, gs_tls s' t = Live p ∧ p_id p = id ∧ id ≠ 0 ∧ gs_guards s' !! g = Some (p_handle p).
Proof.
  intros Hn H1. unfold nested_pin. destruct (participant t s) as [p s1] eqn:E. destruct (participant_grows t s p s1 Hn H1 E) as [G1 T1].
  pose proof (gr_next _ _ G1) as N1. destruct p as [q|]; [|done]. cbn [mbind option_bind].
  destruct (Z.eqb_spec id 0) as [|Hid]; [done|]. destruct (Z.eqb_spec (p_id q) id) as [Eid|]; [|done]. cbn [negb andb]. intros E2%(inj Some).
  destruct (pin_local_grows _ _ _ _ E2) as (G2 & Hg & Etls & En). split; [eapply grows_trans; [done..|lia]|].
  exists q. split_and!; [by rewrite Etls; apply T1|done..].
Qed.

(** ** Every step keeps it *)

Record ginv (n : nat) w : Prop := {
  gi_next : 1 <= gs_next (w_state w) <= 1 + Z.of_nat n;
  gi_pins l : pins (gs_col (w_state w)) l = guards_on l (gs_guards (w_state w));
  gi_tls t p : gs_tls (w_state w) t = Live p → 1 <= p_id p < gs_next (w_state w);
  gi_guard i x : w_held w !! i = Some x → ∃ l, gs_guards (w_state w) !! holds_guard (h_what x) = Some l ∧
    ∀ o, o ∈ w_retired w → o ∉ h_seen x → waits (gs_col (w_state w)) o l;
  gi_owned i x g id : w_held w !! i = Some x → h_what x = Handle (Owned g id) → 0 <= id < gs_next (w_state w) ∧
    ∀ p, id ≠ 0 → gs_tls (w_state w) (h_thread x) = Live p → p_id p = id → gs_guards (w_state w) !! g = Some (p_handle p);
  gi_pending : pending (gs_col (w_state w)) ⊆ w_retired w;
  gi_freed o : o ∈ w_freed w → o ∈ w_retired w ∧ o ∉ pending (gs_col (w_state w));
  gi_once : NoDup (w_freed w);
  gi_safe i x o : w_held w !! i = Some x → o ∈ w_freed w → o ∈ h_seen x;
  gi_seen i x : w_held w !! i = Some x → h_seen x ⊆ w_retired w;
}.

(** A new holder, of a state that grew. *)
Lemma ginv_add n w s i x : ginv n w → grows (w_state w) s →
  (∃ l, gs_guards s !! holds_guard (h_what x) = Some l ∧ ∀ o, o ∈ w_retired w → o ∉ h_seen x → waits (gs_col s) o l) →
  (∀ g id, h_what x = Handle (Owned g id) → 0 <= id < gs_next s ∧
    ∀ p, id ≠ 0 → gs_tls s (h_thread x) = Live p → p_id p = id → gs_guards s !! g = Some (p_handle p)) →
  (∀ o, o ∈ w_freed w → o ∈ h_seen x) → h_seen x ⊆ w_retired w →
  ginv (S n) (world_of s (<[i := x]> (w_held w)) w).
Proof.
  intros [I1 I2 I3 I4 I5 I6 I7 I8 I9 I10] [G1 G2 [G3 G3'] G4 G5] HG HI HF HS. split; cbn; [lia|by apply G5| | | |by rewrite G3'|by rewrite G3'|done| |].
  - intros t p [E%I3|?]%G4; lia.
  - intros j y [[-> <-]|[Hne Hy]]%lookup_insert_Some; [done|]. destruct (I4 j y Hy) as (l & Hl & Hw). exists l. split; [by apply G2|]. auto.
  - intros j y g id [[-> <-]|[Hne Hy]]%lookup_insert_Some Ey; [by apply HI|]. destruct (I5 j y g id Hy Ey) as [Hb Hp]. split; [lia|].
    intros p H0 [E|Hnew]%G4 Eid; [by apply G2, Hp|lia].
  - intros j y o [[-> <-]|[Hne Hy]]%lookup_insert_Some; [apply HF|by apply (I9 j)].
  - intros j y [[-> <-]|[Hne Hy]]%lookup_insert_Some; [done|by apply (I10 j)].
Qed.

(** Nothing is awaited by a pin from now on. *)
Lemma ginv_add_now n w s i t what : ginv n w → grows (w_state w) s → (∃ l, gs_guards s !! holds_guard what = Some l) →
  (∀ g id, what = Handle (Owned g id) → 0 <= id < gs_next s ∧
    ∀ p, id ≠ 0 → gs_tls s t = Live p → p_id p = id → gs_guards s !! g = Some (p_handle p)) →
  ginv (S n) (world_of s (<[i := {| h_thread := t; h_what := what; h_seen := w_retired w |}]> (w_held w)) w).
Proof.
  intros I G [l Hl] HI. apply ginv_add; [done|done|by exists l|done| |done]. intros o Ho. cbn. by apply (gi_freed _ _ I).
Qed.

(** The collector moved on, for fewer holders, and no participant's last guard
    went but one that no holder has. *)
Lemma ginv_less n w s hs : ginv n w → gs_next s = gs_next (w_state w) → (∀ t p, gs_tls s t = Live p → gs_tls (w_state w) t = Live p) →
  (∀ l, pins (gs_col s) l = guards_on l (gs_guards s)) → pending (gs_col s) = pending (gs_col (w_state w)) →
  (∀ i x, hs !! i = Some x → ∃ y, w_held w !! i = Some y ∧ h_thread x = h_thread y ∧ h_what x = h_what y ∧ h_seen y ⊆ h_seen x ⊆ w_retired w ∧
    ∀ l, gs_guards (w_state w) !! holds_guard (h_what y) = Some l → gs_guards s !! holds_guard (h_what y) = Some l ∧
      ∀ o, o ∈ w_retired w → o ∉ h_seen x → waits (gs_col (w_state w)) o l → waits (gs_col s) o l) →
  ginv (S n) (world_of s hs w).
Proof.
  intros [I1 I2 I3 I4 I5 I6 I7 I8 I9 I10] En Et HP Ep HH. split; cbn; rewrite ?En, ?Ep; [lia|done|by intros t p ?%Et%I3| | |done|done|done| |].
  - intros i x (y & Hy & _ & -> & [Hs _] & HG)%HH. destruct (I4 i y Hy) as (l & Hl & Hw). destruct (HG l Hl) as [Hl' Hk]. exists l. split; [done|].
    intros o Ho Hx. apply Hk; [done..|]. apply Hw; [done|]. set_solver.
  - intros i x g id (y & Hy & Eth & Ew & _ & HG)%HH. rewrite Ew, Eth. intros Eo. destruct (I5 i y g id Hy Eo) as [Hb Hp]. split; [done|].
    intros p H0 Hlive%Et Eid. specialize (Hp p H0 Hlive Eid). destruct (HG (p_handle p)) as [Hl _]; [by rewrite Eo|]. by rewrite Eo in Hl.
  - intros i x o (y & Hy & _ & _ & [Hs _] & _)%HH Ho. by apply Hs, (I9 i y).
  - by intros i x (y & _ & _ & _ & [_ Hs] & _)%HH.
Qed.

Lemma keeps_waits (c c' : C) o l : keeps c c' → waits c o l → waits c' o l.
Proof. intros [HK _]. apply HK. Qed.

Lemma ginv_drop n w i x s : ginv n w → w_held w !! i = Some x → alone w i (holds_guard (h_what x)) →
  drop_guard (holds_guard (h_what x)) (w_state w) = Some s → ginv (S n) (world_of s (delete i (w_held w)) w).
Proof.
  intros I Hi HA. unfold drop_guard. destruct (gs_guards (w_state w) !! _) as [l|] eqn:Hg; [|done]. intros [= <-].
  apply ginv_less; [done|done|done| |apply unpin_pending|].
  - intros l'. cbn. rewrite pins_unpin, (gi_pins _ _ I), (guards_on_delete _ _ _ _ Hg). done.
  - intros j y [Hne Hy]%lookup_delete_Some. exists y. split_and!; [done..|by apply (gi_seen _ _ I j)|]. intros l' Hl'.
    assert (holds_guard (h_what y) ≠ holds_guard (h_what x)) as Hne' by (by apply (HA j y Hy); intros ->).
    cbn. rewrite lookup_delete_ne by done. split; [done|]. intros o Ho Hs Hw. apply unpin_waits; [|done].
    destruct (decide (l' = l)) as [->|]; [right|by left]. rewrite (gi_pins _ _ I). by eapply guards_on_two.
Qed.

Lemma ginv_repin n w i x g s : ginv n w → w_held w !! i = Some x → h_what x = Pinned g → alone w i g → repin g (w_state w) = Some s →
  ginv (S n) (world_of s (<[i := {| h_thread := h_thread x; h_what := Pinned g; h_seen := w_retired w |}]> (w_held w)) w).
Proof.
  intros I Hi Ex HA. unfold repin. destruct (gs_guards (w_state w) !! g) as [l|] eqn:Hg; [|done]. intros [= <-].
  apply ginv_less; [done|done|done| |apply repin_pending|].
  - intros l'. cbn. by rewrite pins_repin, (gi_pins _ _ I).
  - intros j y [[-> <-]|[Hne Hy]]%lookup_insert_Some.
    + exists x. split_and!; [done|done|done|by apply (gi_seen _ _ I j)|done|]. cbn. intros l' Hl'. by split.
    + exists y. split_and!; [done..|by apply (gi_seen _ _ I j)|]. intros l' Hl'. split; [done|]. intros o Ho Hs Hw. cbn.
      apply repin_waits; [|done]. destruct (decide (l' = l)) as [->|]; [right|by left]. rewrite (gi_pins _ _ I).
      apply (guards_on_two (holds_guard (h_what y)) g); [|done..]. by apply (HA j y Hy).
Qed.

Lemma ginv_retire n w i x o s : ginv n w → w_held w !! i = Some x → o ∉ w_retired w → retire (holds_guard (h_what x)) o (w_state w) = Some s →
  ginv (S n) {| w_state := s; w_held := w_held w; w_retired := {[o]} ∪ w_retired w; w_freed := w_freed w |}.
Proof.
  intros I Hi Ho. unfold retire. destruct (gs_guards (w_state w) !! _) as [l|] eqn:Hg; [|done]. intros [= <-].
  destruct I as [I1 I2 I3 I4 I5 I6 I7 I8 I9 I10]. split; cbn; [lia| |done| |done| | |done|done|].
  - intros l'. by rewrite pins_defer, I2.
  - intros j y Hy. destruct (I4 j y Hy) as (l' & Hl' & Hw). exists l'. split; [done|]. intros o' [->%elem_of_singleton|Ho']%elem_of_union Hs.
    + apply defer_waits. rewrite I2. by eapply guards_on_one.
    + by apply defer_other, Hw.
  - rewrite defer_pending. set_solver.
  - intros o' Hf. destruct (I7 o' Hf). rewrite defer_pending. set_solver.
  - intros j y Hy. pose proof (I10 j y Hy). set_solver.
Qed.

(** The grace period of what ran is over for all that is held. *)
Lemma ginv_run n w o c : ginv n w → col_run o (gs_col (w_state w)) = Some c →
  ginv (S n) {| w_state := set_col c (w_state w); w_held := w_held w; w_retired := w_retired w; w_freed := o :: w_freed w |}.
Proof.
  intros [I1 I2 I3 I4 I5 I6 I7 I8 I9 I10] HR. destruct (run_ok _ _ _ HR) as (R1 & R2 & R3 & R4).
  assert (∀ i x, w_held w !! i = Some x → o ∈ h_seen x) as Hseen.
  { intros i x Hx. destruct (I4 i x Hx) as (l & _ & Hw). destruct (decide (o ∈ h_seen x)) as [|Hs]; [done|].
    destruct (R3 l). apply Hw; [by apply I6|done]. }
  split; cbn; [lia| |done| |done| | | | |done].
  - intros l. by rewrite (pins_run _ _ _ _ HR), I2.
  - intros i x Hx. destruct (I4 i x Hx) as (l & Hl & Hw). exists l. split; [done|]. intros o' Ho' Hs.
    apply R4; [intros ->; by apply Hs, (Hseen i x)|by apply Hw].
  - rewrite R2. set_solver.
  - intros o' [->|Hf]%elem_of_cons; rewrite R2; [split; [by apply I6|set_solver]|]. destruct (I7 o' Hf). set_solver.
  - constructor; [|done]. intros Hf. by destruct (I7 o Hf).
  - intros i x o' Hx [->|Hf]%elem_of_cons; [by apply (Hseen i)|by apply (I9 i)].
Qed.

Lemma gstep_ginv n w w' : Z.of_nat n + 2 < 2 ^ 64 → ginv n w → gstep w w' → ginv (S n) w'.
Proof.
  intros Hn I HS. pose proof (gi_next _ _ I) as HN. assert (gs_next (w_state w) + 1 < 2 ^ 64) as Hb by lia.
  destruct HS as [i t g s Hi E|i t h s Hi E|i t g id s Hi E|i j x Hi Hj|i j x h h' s Hi Hj Ex E|i x s Hi HA E|i x Hi Hc HA|i x g s Hi Ex HA E
    |i x o s Hi Ho E|o c HR|t p Ht|t Ht].
  - unfold pin in E. destruct (pin_tagged t (w_state w)) as [[g' id] s'] eqn:E2. injection E as -> ->.
    destruct (pin_tagged_grows _ _ _ _ _ Hb ltac:(lia) (gi_tls _ _ I t) E2) as (G & _ & l & Hl & _). apply ginv_add_now; [done..|by exists l|done].
  - unfold owned in E. destruct (pin_tagged t (w_state w)) as [[g' id] s'] eqn:E2. injection E as <- ->.
    destruct (pin_tagged_grows _ _ _ _ _ Hb ltac:(lia) (gi_tls _ _ I t) E2) as (G & Hid & l & Hl & Hp).
    apply ginv_add_now; [done..|by exists l|]. intros g2 id2 [= <- <-]. split; [done|]. intros p H0 Hlive Eid. by rewrite Hl, (Hp p H0 Hlive Eid).
  - destruct (pin_tagged_grows _ _ _ _ _ Hb ltac:(lia) (gi_tls _ _ I t) E) as (G & _ & l & Hl & _). apply ginv_add_now; [done..|by exists l|done].
  - apply ginv_add; [done|done|by apply (gi_guard _ _ I j x)|done|by intros o; apply (gi_safe _ _ I j x)|by apply (gi_seen _ _ I j x)].
  - destruct (gi_guard _ _ I j x Hj) as (l & Hl & Hw). rewrite Ex in Hl. cbn in Hl.
    destruct h as [g id|g id|g]; cbn [duplicate] in E; [|by injection E as <- <-;
      apply ginv_add; [done|done|by exists l|done|by intros o; apply (gi_safe _ _ I j x)|by apply (gi_seen _ _ I j x)]..].
    destruct (nested_pin (h_thread x) id (w_state w)) as [[g' s']|] eqn:E2; [|done]. injection E as <- <-.
    destruct (nested_pin_grows _ _ _ _ _ Hb ltac:(lia) E2) as (G & p & Hlive & Eid & H0 & Hg').
    destruct (gi_owned _ _ I j x g id Hj Ex) as [Hid Hp]. destruct (gr_tls _ _ G _ _ Hlive) as [Hold|?]; [|lia].
    specialize (Hp p H0 Hold Eid). cbn in Hl. rewrite Hp in Hl. injection Hl as <-. pose proof (gr_next _ _ G).
    apply ginv_add; [done|done| | |by intros o; apply (gi_safe _ _ I j x)|by apply (gi_seen _ _ I j x)].
    + exists (p_handle p). split; [done|]. intros o Ho Hs. eapply keeps_waits; [apply G|]. by apply Hw.
    + intros g2 id2 [= <- <-]. split; [lia|]. intros q _ Hq _. cbn in Hq. congruence.
  - by eapply ginv_drop.
  - apply ginv_less; [done|done|done|by apply (gi_pins _ _ I)|done|]. intros j y [_ Hy]%lookup_delete_Some. exists y.
    split_and!; [done..|by apply (gi_seen _ _ I j)|]. by intros l.
  - by eapply ginv_repin.
  - by eapply ginv_retire.
  - by eapply ginv_run.
  - destruct (release_keeps (p_handle p) (gs_col (w_state w))) as [K1 K2]. apply ginv_less; [done|done| | |done|].
    + intros u q. cbn. by case_decide.
    + intros l. cbn. by rewrite pins_release, (gi_pins _ _ I).
    + intros j y Hy. exists y. split_and!; [done..|by apply (gi_seen _ _ I j)|]. intros l Hl. split; [done|]. intros o _ _. apply K1.
  - apply ginv_less; [done|done| |by apply (gi_pins _ _ I)|done|].
    + intros u q. cbn. by case_decide.
    + intros j y Hy. exists y. split_and!; [done..|by apply (gi_seen _ _ I j)|]. by intros l.
Qed.

Lemma greachable_ginv n w : Z.of_nat n + 1 < 2 ^ 64 → greachable n w → ginv n w.
Proof.
  intros Hn HR. induction HR as [c HP HE|n w w' _ IH HS].
  - split; cbn; [lia|by intros l; rewrite HP|done|by intros ?? ?%lookup_empty_Some|by intros ???? ?%lookup_empty_Some|by rewrite HE
      |by intros o ?%not_elem_of_nil|constructor|by intros ??? ?%lookup_empty_Some|by intros ?? ?%lookup_empty_Some].
  - apply gstep_ginv with w; [lia|apply IH; lia|done].
Qed.

(** C28: epoch guards. Under every interleaving of threads that pin, duplicate,
    borrow, repin and drop guards and retire allocations, of the collector, and
    of the teardown of thread-locals: as long as a guard, a handle or any
    duplicate of it is held, nothing is destroyed that was not retired when the
    protecting pin was taken. Each retired allocation is destroyed at most once,
    and nothing else is. The duplicate of an owned handle pins the handle's own
    participant, and it panics only when the thread's participant is not the one
    of the handle. *)
Theorem held_guards_protect n w : Z.of_nat n + 2 < 2 ^ 64 → greachable n w →
  (∀ i x o, w_held w !! i = Some x → o ∈ w_freed w → o ∈ h_seen x) ∧
  NoDup (w_freed w) ∧ (∀ o, o ∈ w_freed w → o ∈ w_retired w) ∧
  ∀ i x g id, w_held w !! i = Some x → h_what x = Handle (Owned g id) →
    match duplicate (h_thread x) (Owned g id) (w_state w) with
    | Some (h, s) => ∃ l, gs_guards (w_state w) !! g = Some l ∧ gs_guards s !! guard h = Some l
    | None => id = 0 ∨ ∀ p, gs_tls (w_state w) (h_thread x) = Live p → p_id p ≠ id
    end.
Proof.
  intros Hn HR. pose proof (greachable_ginv n w ltac:(lia) HR) as I. split_and!; [by apply I|by apply I|by intros o []%(gi_freed _ _ I)|].
  intros i x g id Hx Ex. pose proof (gi_next _ _ I). destruct (gi_owned _ _ I i x g id Hx Ex) as [Hid Hp]. cbn [duplicate].
  assert (gs_next (w_state w) + 1 < 2 ^ 64 ∧ 1 <= gs_next (w_state w)) as [Hb H1] by lia.
  destruct (nested_pin (h_thread x) id (w_state w)) as [[g' s]|] eqn:E; cbn [mbind option_bind guard].
  - destruct (nested_pin_grows _ _ _ _ _ Hb H1 E) as (G & p & Hlive & Eid & H0 & Hg'). exists (p_handle p). split; [|done].
    destruct (gr_tls _ _ G _ _ Hlive) as [Hold|?]; [by apply Hp|lia].
  - unfold nested_pin, participant in E. destruct (Z.eqb_spec id 0) as [->|H0]; [by left|right]. intros p Hlive Eid. rewrite Hlive in E.
    cbn in E. by rewrite Eid, Z.eqb_refl in E.
Qed.
(** ** Executions *)

Inductive gcmd :=
| CPin (i : positive) (t : nat) | COwned (i : positive) (t : nat) | CDuplicate (i j : positive) | CDrop (i : positive)
| CRetire (i : positive) (o : object) | CRun (o : object) | CTeardown (t : nat) | CAgain (t : nat).

Definition gexec (c : gcmd) w : option world :=
  match c with
  | CPin i t =>
    if decide (w_held w !! i = None) then
      let '(g, s) := pin t (w_state w) in
      Some (world_of s (<[i := {| h_thread := t; h_what := Pinned g; h_seen := w_retired w |}]> (w_held w)) w)
    else None
  | COwned i t =>
    if decide (w_held w !! i = None) then
      let '(h, s) := owned t (w_state w) in
      Some (world_of s (<[i := {| h_thread := t; h_what := Handle h; h_seen := w_retired w |}]> (w_held w)) w)
    else None
  | CDuplicate i j =>
    if decide (w_held w !! i = None) then
      x ← w_held w !! j;
      match h_what x with
      | Handle h =>
        '(h', s) ← duplicate (h_thread x) h (w_state w);
        Some (world_of s (<[i := {| h_thread := h_thread x; h_what := Handle h'; h_seen := h_seen x |}]> (w_held w)) w)
      | Pinned _ => None
      end
    else None
  | CDrop i =>
    x ← w_held w !! i;
    if decide (alone w i (holds_guard (h_what x))) then
      s ← drop_guard (holds_guard (h_what x)) (w_state w); Some (world_of s (delete i (w_held w)) w)
    else None
  | CRetire i o =>
    x ← w_held w !! i;
    if decide (o ∈ w_retired w) then None
    else
      s ← retire (holds_guard (h_what x)) o (w_state w);
      Some {| w_state := s; w_held := w_held w; w_retired := {[o]} ∪ w_retired w; w_freed := w_freed w |}
  | CRun o =>
    c ← col_run o (gs_col (w_state w));
    Some {| w_state := set_col c (w_state w); w_held := w_held w; w_retired := w_retired w; w_freed := o :: w_freed w |}
  | CTeardown t =>
    match gs_tls (w_state w) t with
    | Live p => Some (world_of (set_tls t Gone (set_col (col_release (p_handle p) (gs_col (w_state w))) (w_state w))) (w_held w) w)
    | _ => None
    end
  | CAgain t =>
    match gs_tls (w_state w) t with Gone => Some (world_of (set_tls t Uninit (w_state w)) (w_held w) w) | _ => None end
  end.

Lemma gexec_step c w w' : gexec c w = Some w' → gstep w w'.
Proof.
  destruct c as [i t|i t|i j|i|i o|o|t|t]; cbn [gexec].
  - case_decide as Hi; [|done]. destruct (pin t (w_state w)) as [g s] eqn:E. intros [= <-]. by apply s_pin.
  - case_decide as Hi; [|done]. destruct (owned t (w_state w)) as [h s] eqn:E. intros [= <-]. by apply s_owned.
  - case_decide as Hi; [|done]. intros (x & Hx & E)%bind_Some. destruct (h_what x) as [|h] eqn:Ex; [done|].
    apply bind_Some in E as ([h' s] & E & [= <-]). by eapply s_duplicate.
  - intros (x & Hx & E)%bind_Some. case_decide as HA; [|done]. apply bind_Some in E as (s & E & [= <-]). by eapply s_drop.
  - intros (x & Hx & E)%bind_Some. case_decide as Ho; [done|]. apply bind_Some in E as (s & E & [= <-]). by eapply s_retire.
  - intros (c & E & [= <-])%bind_Some. by apply s_run.
  - destruct (gs_tls (w_state w) t) as [|p|] eqn:E; [done| |done]. intros [= <-]. by apply s_teardown.
  - destruct (gs_tls (w_state w) t) as [|p|] eqn:E; [done..|]. intros [= <-]. by apply s_again.
Qed.

Fixpoint grun (cs : list gcmd) w : option world :=
  match cs with [] => Some w | c :: cs => w ← gexec c w; grun cs w end.

Lemma grun_reachable cs n w w' : greachable n w → grun cs w = Some w' → greachable (n + length cs) w'.
Proof.
  revert n w. induction cs as [|c cs IH]; intros n w HR; cbn [grun length]; [intros [= <-]; by rewrite Nat.add_0_r|].
  intros (w1 & E & HE)%bind_Some. rewrite <- Nat.add_succ_comm. eapply IH; [|done]. econstructor; [done|]. by eapply gexec_step.
Qed.
End steps.

(** ** A collector, and a run *)

(** A collector that keeps for each deferred destructor the participants it waits for. *)
Record counting := { e_pins : gmap nat nat; e_waits : gmap object (gset nat) }.

Definition e_count (s : counting) (l : nat) : nat := default 0%nat (e_pins s !! l).
Definition e_leave (l : nat) (s : counting) : gmap object (gset nat) :=
  if decide (e_count s l <= 1)%nat then (λ ws, ws ∖ {[l]}) <$> e_waits s else e_waits s.

#[export] Instance counting_collector : Collector nat counting := {
  col_register s := let l := fresh (dom (e_pins s)) in (l, {| e_pins := <[l := 0%nat]> (e_pins s); e_waits := e_waits s |});
  col_release l s := s;
  col_pin l s := {| e_pins := <[l := S (e_count s l)]> (e_pins s); e_waits := e_waits s |};
  col_unpin l s := {| e_pins := <[l := pred (e_count s l)]> (e_pins s); e_waits := e_leave l s |};
  col_repin l s := {| e_pins := e_pins s; e_waits := e_leave l s |};
  col_defer l o s := {| e_pins := e_pins s;
    e_waits := <[o := dom (filter (λ p, (0 < p.2)%nat) (e_pins s)) ∪ default ∅ (e_waits s !! o)]> (e_waits s) |};
  col_run o s := ws ← (e_waits s !! o : option (gset nat)); if decide (ws = ∅) then Some {| e_pins := e_pins s; e_waits := delete o (e_waits s) |} else None;
}.

#[export] Instance counting_view : CollectorView nat counting := {
  pins := e_count;
  waits s o l := l ∈ default ∅ (e_waits s !! o);
  pending s := dom (e_waits s);
}.

Lemma e_count_insert l n s l' ws : e_count {| e_pins := <[l := n]> (e_pins s); e_waits := ws |} l' = if decide (l' = l) then n else e_count s l'.
Proof. unfold e_count. cbn. case_decide as E; [subst; by rewrite lookup_insert_eq|by rewrite lookup_insert_ne]. Qed.

Lemma e_leave_waits l s o l' : l' ≠ l ∨ (1 < e_count s l)%nat → l' ∈ default ∅ (e_waits s !! o) → l' ∈ default ∅ (e_leave l s !! o).
Proof.
  unfold e_leave. case_decide; [|done]. intros [Hne|?]; [|lia]. rewrite lookup_fmap. destruct (e_waits s !! o); cbn; set_solver.
Qed.

Lemma e_leave_dom l s : dom (e_leave l s) = dom (e_waits s).
Proof. unfold e_leave. case_decide; [|done]. apply dom_fmap_L. Qed.

#[export] Instance counting_laws : CollectorLaws nat counting.
Proof.
  split; try done.
  - intros s l. cbn -[e_count]. rewrite e_count_insert. case_decide as E; [|done]. subst. unfold e_count.
    by rewrite (proj1 (not_elem_of_dom _ _) (is_fresh (dom (e_pins s)))).
  - intros s. cbn. unfold e_count. by rewrite (proj1 (not_elem_of_dom _ _) (is_fresh (dom (e_pins s)))).
  - intros l s l'. cbn -[e_count]. rewrite e_count_insert. case_decide as E; [by subst|done].
  - intros l s l'. cbn -[e_count]. rewrite e_count_insert. case_decide as E; [by subst|done].
  - intros o s s' l'. cbn. intros (ws & _ & E)%bind_Some. case_decide; [|done]. by injection E as <-.
  - intros l s o l'. apply e_leave_waits.
  - intros l s. apply e_leave_dom.
  - intros l s o l'. apply e_leave_waits.
  - intros l s. apply e_leave_dom.
  - intros l o s l' Hl. cbn in *. rewrite lookup_insert_eq. cbn. apply elem_of_union_l, elem_of_dom. unfold e_count in Hl.
    destruct (e_pins s !! l') as [n|] eqn:E; [|cbn in Hl; lia]. exists n. by apply map_lookup_filter_Some.
  - intros l o s o' l'. cbn. destruct (decide (o' = o)) as [->|]; [rewrite lookup_insert_eq; cbn; set_solver|by rewrite lookup_insert_ne].
  - intros l o s. cbn. apply dom_insert_L.
  - intros o s s'. cbn. intros (ws & Hw & E)%bind_Some. case_decide as Ew; [|done]. injection E as <-. subst ws. cbn. split_and!.
    + by apply elem_of_dom.
    + apply dom_delete_L.
    + intros l. rewrite Hw. cbn. set_solver.
    + intros o' l Hne. by rewrite lookup_delete_ne.
Qed.

Definition collector0 : counting := {| e_pins := ∅; e_waits := ∅ |}.

(** Thread 0 holds a handle, thread 1 retires an allocation, thread 0
    duplicates its handle and drops the first: the duplicate still protects. *)
Definition epoch_run : list gcmd := [COwned 1 0; CPin 2 1; CRetire 2 9; CDuplicate 3 1; CDrop 1; CDrop 2].
Definition epoch_world : world (L := nat) (C := counting) := default (winit collector0) (grun epoch_run (winit collector0)).

Lemma epoch_world_reachable : greachable 6 epoch_world.
Proof.
  assert (is_Some (grun epoch_run (winit collector0))) as [w E] by (vm_compute; by eexists).
  unfold epoch_world. rewrite E. exact (grun_reachable epoch_run 0 _ w (greach_init collector0 (λ _, eq_refl) eq_refl) E).
Qed.

(** It cannot run until the duplicate is dropped; then it runs. A handle is not
    extended once its thread-local is gone, nor after that was made again. *)
Example epoch_runs :
  grun [CRun 9] epoch_world = None ∧
  w_freed <$> grun [CDrop 3; CRun 9] epoch_world = Some [9%positive] ∧
  grun [CTeardown 0; CDuplicate 4 3] epoch_world = None ∧
  grun [CTeardown 0; CAgain 0; COwned 4 0; CDuplicate 5 3] epoch_world = None ∧
  is_Some (grun [CTeardown 0; CAgain 0; COwned 4 0; CDuplicate 5 4] epoch_world).
Proof. vm_compute. split_and!; [done..|by eexists]. Qed.

Lemma held_guards_protect_witness :
  from_option h_what (Pinned 1) (w_held epoch_world !! 3%positive) = Handle (Owned 3 1) ∧
  (∀ i x o, w_held epoch_world !! i = Some x → o ∈ w_freed epoch_world → o ∈ h_seen x) ∧ NoDup (w_freed epoch_world).
Proof.
  split; [vm_compute; reflexivity|].
  destruct (held_guards_protect 6 epoch_world ltac:(lia) epoch_world_reachable) as (H1 & H2 & _). split; [exact H1|exact H2].
Defined.
