(* ===== verification/Slot.v ===== *)
(** * Child slots and the element counter ([src/raw/slot.rs], [src/raw/mod.rs])

    A child slot holds nothing, a leaf or an inner node. [Slot] is the source's
    trait of the same name; its instances are the tagged pointer of the heap
    maps, the tagged 32-bit offset of the arena maps, and [raw], the decoded
    value that the tree algorithms are modelled on. [tag_roundtrip] and its
    companions show that the tag bit loses nothing, so the algorithms may be
    read on [raw]. The striped element counter of the tree is here too. *)

From S2P Require Import Prelude.
Local Open Scope Z_scope.

(** ** The trait *)

Class Slot (R : Type) := {
  slot_eq_dec :: EqDecision R;
  NULL : R;
  is_null : R → bool;
  is_leaf : R → bool;
}.

Class SlotLaws (R : Type) `{Slot R} := {
  is_null_spec (r : R) : is_null r = true ↔ r = NULL;
  null_not_leaf : is_leaf (R := R) NULL = false;
}.

Lemma not_null_spec `{SlotLaws R} (r : R) : is_null r = false ↔ r ≠ NULL.
Proof. rewrite <- not_true_iff_false, is_null_spec. done. Qed.

(** ** Tagged words *)

(** [TaggedPtr]: the address, as [usize]. *)
Record TaggedPtr := { tp_addr : Z }.

Module TaggedPtr.
Definition TAG_LEAF : Z := 1.
Definition from_leaf (a : Z) : TaggedPtr := {| tp_addr := Z.lor a TAG_LEAF |}.
Definition from_inner (a : Z) : TaggedPtr := {| tp_addr := a |}.
(** [map_addr(|a| a & !TAG_LEAF)]. *)
Definition as_leaf_ptr (p : TaggedPtr) : Z :=
  Z.land (tp_addr p) (Z.lxor (2 ^ 64 - 1) TAG_LEAF).
Definition as_inner_ptr (p : TaggedPtr) : Z := tp_addr p.
End TaggedPtr.

(** [TaggedOffset]: a [u32]; 0 is null. *)
Record TaggedOffset := { to_word : Z }.

Module TaggedOffset.
Definition TAG_LEAF_OFFSET : Z := 1.
Definition from_leaf (o : Z) : TaggedOffset := {| to_word := Z.lor o TAG_LEAF_OFFSET |}.
Definition from_inner (o : Z) : TaggedOffset := {| to_word := o |}.
Definition offset (t : TaggedOffset) : Z :=
  Z.land (to_word t) (Z.lxor (2 ^ 32 - 1) TAG_LEAF_OFFSET).
End TaggedOffset.

#[export] Instance tagged_ptr_eq_dec : EqDecision TaggedPtr.
Proof. solve_decision. Defined.
#[export] Instance tagged_offset_eq_dec : EqDecision TaggedOffset.
Proof. solve_decision. Defined.

#[export] Instance tagged_ptr_slot : Slot TaggedPtr := {
  NULL := {| tp_addr := 0 |};
  is_null p := tp_addr p =? 0;
  is_leaf p := negb (Z.land (tp_addr p) TaggedPtr.TAG_LEAF =? 0);
}.

#[export] Instance tagged_offset_slot : Slot TaggedOffset := {
  NULL := {| to_word := 0 |};
  is_null t := to_word t =? 0;
  is_leaf t := negb (Z.land (to_word t) TaggedOffset.TAG_LEAF_OFFSET =? 0);
}.

#[export] Instance tagged_ptr_laws : SlotLaws TaggedPtr.
Proof.
  split; [|done]. intros [a]; cbn. rewrite Z.eqb_eq. split; congruence.
Qed.

#[export] Instance tagged_offset_laws : SlotLaws TaggedOffset.
Proof.
  split; [|done]. intros [a]; cbn. rewrite Z.eqb_eq. split; congruence.
Qed.

(** ** Decoded slots *)

(** Identities of nodes and of leaves. *)
Abbreviation loc := positive.

Inductive raw :=
| Null
| LeafAt (l : loc)
| NodeAt (n : loc).

#[export] Instance raw_eq_dec : EqDecision raw.
Proof. solve_decision. Defined.

#[export] Instance raw_inhabited : Inhabited raw := populate Null.

#[export] Instance raw_slot : Slot raw := {
  NULL := Null;
  is_null r := match r with Null => true | _ => false end;
  is_leaf r := match r with LeafAt _ => true | _ => false end;
}.

#[export] Instance raw_laws : SlotLaws raw.
Proof. split; [|done]. by intros []. Qed.

Lemma land_1_lor a : a mod 2 = 0 → Z.lor a 1 = a + 1 ∧ Z.land a 1 = 0.
Proof.
  intros H. assert (Z.land a 1 = 0) as E.
  { change 1 with (Z.ones 1). by rewrite Z.land_ones by lia. }
  pose proof (Z.add_lor_land a 1). split; [lia|done].
Qed.

(** Clearing the tag bit of a [w]-bit word gives the aligned address back. *)
Lemma untag w a : 1 <= w → 0 <= a < 2 ^ w → a mod 2 = 0 →
  Z.land (Z.lor a 1) (Z.lxor (2 ^ w - 1) 1) = a.
Proof.
  intros Hw Ha H2. replace (2 ^ w - 1) with (Z.ones w) by (rewrite Z.ones_equiv; lia).
  apply Z.bits_inj'. intros i Hi.
  rewrite Z.land_spec, Z.lor_spec, Z.lxor_spec, Z.testbit_ones_nonneg by lia.
  destruct (decide (i = 0)) as [->|].
  - destruct (Z.ltb_spec 0 w); [|lia]. cbn. rewrite andb_false_r.
    by rewrite <- Z.negb_even, Zeven_mod, H2.
  - replace (Z.testbit 1 i) with false by (symmetry; apply Z.bits_above_log2; cbn; lia).
    rewrite orb_false_r, xorb_false_r. destruct (Z.ltb_spec i w); [by rewrite andb_true_r|].
    rewrite andb_false_r. symmetry. rewrite <- (Z.mod_small a (2 ^ w)) by lia.
    apply Z.mod_pow2_bits_high. lia.
Qed.

Section encoding.
(** The addresses the allocator gave out: even, not null and below the
    slot's width. *)
Context (w : Z) (addr : loc → Z).
Context (addr_range : ∀ l, 0 < addr l < 2 ^ w).
Context (addr_even : ∀ l, addr l mod 2 = 0).

(** How the tree's slot values are stored in a word. *)
Definition encode_ptr (r : raw) : TaggedPtr :=
  match r with
  | Null => NULL
  | LeafAt l => TaggedPtr.from_leaf (addr l)
  | NodeAt n => TaggedPtr.from_inner (addr n)
  end.

Definition encode_offset (r : raw) : TaggedOffset :=
  match r with
  | Null => NULL
  | LeafAt l => TaggedOffset.from_leaf (addr l)
  | NodeAt n => TaggedOffset.from_inner (addr n)
  end.

Lemma encode_ptr_classes r :
  is_null (encode_ptr r) = is_null r ∧ is_leaf (encode_ptr r) = is_leaf r.
Proof using addr_range addr_even.
  destruct r as [|l|n]; [done| |]; [pose proof (addr_range l); destruct (land_1_lor _ (addr_even l)) as [E1 E2]
    |pose proof (addr_range n); destruct (land_1_lor _ (addr_even n)) as [E1 E2]]; cbn;
    unfold TaggedPtr.TAG_LEAF.
  - rewrite E1. split; [apply Z.eqb_neq; lia|]. apply negb_true_iff, Z.eqb_neq.
    change 1 with (Z.ones 1) at 2. rewrite Z.land_ones by lia.
    rewrite Z.add_mod, addr_even by lia. done.
  - rewrite E2. split; [apply Z.eqb_neq; lia|done].
Qed.

Lemma encode_offset_word r : to_word (encode_offset r) = tp_addr (encode_ptr r).
Proof using. by destruct r. Qed.
End encoding.

(** C40: the tag of a heap slot. A tagged pointer is null exactly for the null
    slot, is a leaf exactly for a leaf, and gives back the address it was built
    from, for every even, non-null 64-bit address. *)
Theorem tagged_ptr_roundtrip (addr : loc → Z)
    (H : ∀ l, 0 < addr l < 2 ^ 64 ∧ addr l mod 2 = 0) r :
  is_null (encode_ptr addr r) = is_null r ∧ is_leaf (encode_ptr addr r) = is_leaf r ∧
  match r with
  | Null => encode_ptr addr r = NULL
  | LeafAt l => TaggedPtr.as_leaf_ptr (encode_ptr addr r) = addr l
  | NodeAt n => TaggedPtr.as_inner_ptr (encode_ptr addr r) = addr n
  end.
Proof.
  destruct (encode_ptr_classes 64 addr ltac:(apply H) ltac:(apply H) r) as [E1 E2].
  split_and!; [done..|]. destruct r as [|l|n]; [done| |done].
  destruct (H l). apply untag; lia.
Qed.

(** The same for the arena's 32-bit offsets. *)
Lemma tagged_offset_roundtrip (addr : loc → Z)
    (H : ∀ l, 0 < addr l < 2 ^ 32 ∧ addr l mod 2 = 0) r :
  is_null (encode_offset addr r) = is_null r ∧ is_leaf (encode_offset addr r) = is_leaf r ∧
  match r with
  | Null => encode_offset addr r = NULL
  | LeafAt l | NodeAt l => TaggedOffset.offset (encode_offset addr r) = addr l
  end.
Proof.
  destruct (encode_ptr_classes 32 addr ltac:(apply H) ltac:(apply H) r) as [E1 E2].
  cbn in *. rewrite encode_offset_word. split_and!; [done..|].
  destruct r as [|l|n]; [done| |]; unfold TaggedOffset.offset; cbn.
  - destruct (H l). apply untag; lia.
  - destruct (H n) as [Hr He]. rewrite <- (untag 32 (addr n)) at 2 by lia.
    destruct (land_1_lor _ He) as [E _]. apply Z.bits_inj'. intros i Hi.
    rewrite !Z.land_spec, Z.lor_spec. destruct (decide (i = 0)) as [->|]; [by rewrite !andb_false_r|].
    replace (Z.testbit 1 i) with false by (symmetry; apply Z.bits_above_log2; cbn; lia).
    by rewrite orb_false_r.
Qed.

Lemma tagged_ptr_roundtrip_witness :
  TaggedPtr.as_leaf_ptr (encode_ptr (λ l, 8) (LeafAt 1)) = 8.
Proof. apply (tagged_ptr_roundtrip (λ l, 8) ltac:(intros; split; done) (LeafAt 1)). Defined.

Lemma tagged_offset_roundtrip_witness :
  TaggedOffset.offset (encode_offset (λ l, 64) (LeafAt 1)) = 64.
Proof. apply (tagged_offset_roundtrip (λ l, 64) ltac:(intros; split; done) (LeafAt 1)). Defined.

(** ** The striped counter *)

Module Counter.
Definition STRIPES : nat := 8.

(** [isize] arithmetic wraps at 64 bits. *)
Definition wrap_i64 (z : Z) : Z := (z + 2 ^ 63) mod 2 ^ 64 - 2 ^ 63.

Definition new : list Z := replicate STRIPES 0.

(** [fetch_add] on this thread's stripe. *)
Definition add (stripe : nat) (n : Z) (c : list Z) : list Z :=
  alter (λ x, wrap_i64 (x + n)) stripe c.

Definition sum (c : list Z) : Z := foldl (λ acc x, wrap_i64 (acc + x)) 0 c.

(** [RawTree::len]. *)
Definition len (c : list Z) : Z := Z.max (sum c) 0.

(** The stripe of the [n]-th thread to ask. *)
Definition stripe (n : nat) : nat := n mod STRIPES.

Lemma stripe_lt n : (stripe n < STRIPES)%nat.
Proof. apply Nat.mod_upper_bound. done. Qed.

Lemma wrap_i64_add a b : wrap_i64 (wrap_i64 a + b) = wrap_i64 (a + b).
Proof.
  unfold wrap_i64. f_equal. set (m := (a + 2 ^ 63) mod 2 ^ 64).
  replace (m - 2 ^ 63 + b + 2 ^ 63) with (m + b) by ring. subst m.
  rewrite Z.add_mod_idemp_l by done. f_equal. ring.
Qed.

Lemma wrap_i64_small z : - 2 ^ 63 <= z < 2 ^ 63 → wrap_i64 z = z.
Proof. intros. unfold wrap_i64. rewrite Z.mod_small; lia. Qed.

Definition total (c : list Z) : Z := foldr Z.add 0 c.

Lemma sum_total_from acc c :
  foldl (λ acc x, wrap_i64 (acc + x)) (wrap_i64 acc) c = wrap_i64 (acc + total c).
Proof.
  unfold total. revert acc. induction c as [|x c IH]; intros acc; cbn [foldl foldr].
  - by rewrite Z.add_0_r.
  - rewrite wrap_i64_add, IH. f_equal. lia.
Qed.

Lemma sum_total c : sum c = wrap_i64 (total c).
Proof. apply (sum_total_from 0 c). Qed.

Lemma sum_add i n c : (i < length c)%nat → sum (add i n c) = wrap_i64 (sum c + n).
Proof.
  rewrite !sum_total, wrap_i64_add. unfold total, add. revert i.
  induction c as [|x c IH]; intros [|i] Hi; cbn in *; try lia.
  - rewrite wrap_i64_add. f_equal. lia.
  - specialize (IH i ltac:(lia)).
    rewrite Z.add_comm, <- wrap_i64_add, IH, wrap_i64_add. f_equal. lia.
Qed.

Lemma add_length i n c : length (add i n c) = length c.
Proof. apply length_alter. Qed.

Lemma sum_updates updates c : length c = STRIPES →
  sum (foldl (λ c '(t, n), add (stripe t) n c) c updates) =
  wrap_i64 (sum c + foldr Z.add 0 updates.*2).
Proof.
  revert c. induction updates as [|[t n] us IH]; intros c L; cbn [foldl fmap list_fmap foldr fst snd].
  - pose proof (wrap_i64_add (total c) 0) as E. rewrite !Z.add_0_r in E.
    by rewrite Z.add_0_r, sum_total.
  - rewrite IH by by rewrite add_length.
    rewrite sum_add, wrap_i64_add by (rewrite L; apply stripe_lt). f_equal. cbn. lia.
Qed.

(** The striped sum is exact at quiescence: whatever stripes the threads'
    updates land on, and however far single stripes drift, the sum is the
    total of all updates at 64 bits, and [len] is that total as long as it is
    a count. *)
Theorem counter_sum_exact (updates : list (nat * Z)) :
  let c := foldl (λ c '(t, n), add (stripe t) n c) new updates in
  let net := foldr Z.add 0 updates.*2 in
  sum c = wrap_i64 net ∧ (0 <= net < 2 ^ 63 → len c = net).
Proof.
  intros c net. assert (sum c = wrap_i64 net) as E by by apply (sum_updates updates new).
  split; [done|]. intros. unfold len. rewrite E, wrap_i64_small; lia.
Qed.
End Counter.
