(* ===== verification/Bits.v ===== *)
(** * Bit-level searches ([bitmap_*] of [src/raw/node.rs], [src/simd.rs])

    The 256-bit child bitmaps of the large layouts, searched a word at a time
    with [trailing_zeros] and [leading_zeros], and the vector searches of the
    keys of a [Node16]. Each is shown to find what a plain search finds. *)

From S2P Require Import Prelude Bytes.
Local Open Scope Z_scope.

(** ** Counting zeros *)

Fixpoint pos_ctz (p : positive) : Z :=
  match p with xO p => Z.succ (pos_ctz p) | _ => 0 end.

(** [uN::trailing_zeros] and [u64::leading_zeros]. *)
Definition trailing_zeros (bits w : Z) : Z :=
  match w with Zpos p => pos_ctz p | _ => bits end.
Definition leading_zeros (bits w : Z) : Z :=
  if w =? 0 then bits else bits - 1 - Z.log2 w.

Lemma trailing_zeros_spec bits w : 0 < w →
  0 <= trailing_zeros bits w ∧ Z.testbit w (trailing_zeros bits w) = true ∧
  ∀ i, 0 <= i < trailing_zeros bits w → Z.testbit w i = false.
Proof.
  destruct w as [|p|p]; [lia| |lia]. intros _. cbn [trailing_zeros].
  induction p as [p IH|p IH|]; cbn [pos_ctz].
  - split_and!; [lia|done|intros; lia].
  - destruct IH as (H0 & H1 & H2). split_and!; [lia| |].
    + by rewrite (Pos2Z.inj_xO p), Z.double_bits_succ.
    + intros i Hi. rewrite (Pos2Z.inj_xO p). destruct (decide (i = 0)) as [->|].
      * by rewrite Z.testbit_even_0.
      * replace i with (Z.succ (i - 1)) by lia. rewrite Z.double_bits_succ. apply H2. lia.
  - split_and!; [lia|done|intros; lia].
Qed.

Lemma trailing_zeros_lt bits w n : 0 < w < 2 ^ n → 0 <= n → trailing_zeros bits w < n.
Proof.
  intros [H0 H1] Hn. destruct (trailing_zeros_spec bits w H0) as (Hp & Ht & _).
  destruct (Z.lt_ge_cases (trailing_zeros bits w) n); [done|].
  rewrite (testbit_high w n) in Ht by lia. done.
Qed.

(** ** Bitmaps *)

Definition bitmap_set (bm : list Z) (b : byte) : list Z :=
  let i := Z.to_nat (b2z b / 64) in
  <[i := Z.lor (bm !!! i) (Z.shiftl 1 (b2z b mod 64))]> bm.

Definition bitmap_clear (bm : list Z) (b : byte) : list Z :=
  let i := Z.to_nat (b2z b / 64) in
  <[i := Z.land (bm !!! i) (Z.lxor (2 ^ 64 - 1) (Z.shiftl 1 (b2z b mod 64)))]> bm.

Fixpoint bitmap_next_loop (fuel : nat) (bm : list Z) (word_idx : nat) (word : Z) : option byte :=
  match fuel with
  | O => None
  | S fuel =>
    if negb (word =? 0) then Some (z2b (Z.of_nat word_idx * 64 + trailing_zeros 64 word))
    else
      let word_idx := S word_idx in
      if decide (word_idx = 4%nat) then None
      else bitmap_next_loop fuel bm word_idx (bm !!! word_idx)
  end.

(** First set byte [>= from] in a bitmap snapshot. *)
Definition bitmap_next (bm : list Z) (from : Z) : option byte :=
  if 255 <? from then None
  else
    let word_idx := Z.to_nat (from / 64) in
    let word := Z.land (bm !!! word_idx) (Z.shiftl (2 ^ 64 - 1) (from mod 64) mod 2 ^ 64) in
    bitmap_next_loop 4 bm word_idx word.

Fixpoint bitmap_prev_loop (fuel : nat) (bm : list Z) (word_idx : nat) (word : Z) : option byte :=
  match fuel with
  | O => None
  | S fuel =>
    if negb (word =? 0) then Some (z2b (Z.of_nat word_idx * 64 + 63 - leading_zeros 64 word))
    else match word_idx with
         | O => None
         | S word_idx => bitmap_prev_loop fuel bm word_idx (bm !!! word_idx)
         end
  end.

(** Last set byte [<= to] in a bitmap snapshot. *)
Definition bitmap_prev (bm : list Z) (to : byte) : option byte :=
  let word_idx := Z.to_nat (b2z to / 64) in
  let bit := b2z to mod 64 in
  let mask := if bit =? 63 then 2 ^ 64 - 1 else Z.shiftl 1 (bit + 1) - 1 in
  bitmap_prev_loop 4 bm word_idx (Z.land (bm !!! word_idx) mask).

(** What a bitmap means: the bit of each byte. *)
Definition bitmap_bit (bm : list Z) (i : Z) : bool :=
  Z.testbit (bm !!! Z.to_nat (i / 64)) (i mod 64).

Definition bitmap_ok (bm : list Z) : Prop :=
  length bm = 4%nat ∧ Forall (λ w, 0 <= w < 2 ^ 64) bm.

Definition bitmap_new : list Z := replicate 4 0.

Lemma bitmap_new_ok : bitmap_ok bitmap_new.
Proof. split; [done|]. repeat constructor; lia. Qed.

Lemma word_idx_lt i : 0 <= i < 256 → (Z.to_nat (i / 64) < 4)%nat.
Proof. intros. Z.div_mod_to_equations. lia. Qed.

Lemma byte_word_idx_lt b : (Z.to_nat (b2z b / 64) < 4)%nat.
Proof. apply word_idx_lt, b2z_range. Qed.

Lemma bitmap_new_bit i : 0 <= i < 256 → bitmap_bit bitmap_new i = false.
Proof.
  intros. unfold bitmap_bit, bitmap_new. rewrite lookup_total_replicate_2 by by apply word_idx_lt.
  apply Z.bits_0.
Qed.

Lemma bitmap_word_range bm i : bitmap_ok bm → (i < 4)%nat → 0 <= bm !!! i < 2 ^ 64.
Proof.
  intros [Hl Hf] Hi. rewrite Forall_lookup in Hf.
  destruct (lookup_lt_is_Some_2 bm i) as [w Hw]; [lia|].
  rewrite list_lookup_total_alt, Hw. by eapply Hf.
Qed.

(** Both updates change exactly the bit of their byte. *)
Lemma bitmap_update_bit bm b f i :
  bitmap_ok bm → 0 <= i < 256 →
  bitmap_bit (<[Z.to_nat (b2z b / 64) := f (bm !!! Z.to_nat (b2z b / 64))]> bm) i =
  if decide (i / 64 = b2z b / 64)
  then Z.testbit (f (bm !!! Z.to_nat (b2z b / 64))) (i mod 64) else bitmap_bit bm i.
Proof.
  intros [Hl _] Hi. pose proof (b2z_range b). unfold bitmap_bit. case_decide as E.
  - rewrite E, list_lookup_total_insert_eq; [done|]. rewrite Hl. apply byte_word_idx_lt.
  - rewrite list_lookup_total_insert_ne; [done|].
    pose proof (Z.div_pos i 64). pose proof (Z.div_pos (b2z b) 64). lia.
Qed.

Lemma split64 i j : 0 <= i → 0 <= j → (i / 64 = j / 64 ∧ i mod 64 = j mod 64) ↔ i = j.
Proof.
  split; [|by intros ->]. intros [E1 E2].
  rewrite (Z.div_mod i 64), (Z.div_mod j 64) by lia. congruence.
Qed.

Lemma testbit_pow2_shift k i : 0 <= k → 0 <= i → Z.testbit (Z.shiftl 1 k) i = bool_decide (i = k).
Proof.
  intros. rewrite Z.shiftl_mul_pow2, Z.mul_1_l by lia.
  destruct (decide (i = k)) as [->|].
  - rewrite Z.pow2_bits_true by lia. by rewrite bool_decide_true.
  - rewrite Z.pow2_bits_false by lia. by rewrite bool_decide_false.
Qed.

Lemma bitmap_set_bit bm b i : bitmap_ok bm → 0 <= i < 256 →
  bitmap_bit (bitmap_set bm b) i = bool_decide (i = b2z b) || bitmap_bit bm i.
Proof.
  intros Hok Hi. unfold bitmap_set. pose proof (b2z_range b).
  rewrite (bitmap_update_bit bm b (λ w, Z.lor w (1 ≪ (b2z b mod 64)))) by done.
  case_decide as E.
  - pose proof (Z.mod_pos_bound i 64). pose proof (Z.mod_pos_bound (b2z b) 64).
    rewrite Z.lor_spec, testbit_pow2_shift, orb_comm by lia. f_equal.
    + apply bool_decide_ext. rewrite <- (split64 i (b2z b)) by lia. tauto.
    + unfold bitmap_bit. by rewrite E.
  - rewrite bool_decide_false by congruence. done.
Qed.

Lemma bitmap_clear_bit bm b i : bitmap_ok bm → 0 <= i < 256 →
  bitmap_bit (bitmap_clear bm b) i = negb (bool_decide (i = b2z b)) && bitmap_bit bm i.
Proof.
  intros Hok Hi. unfold bitmap_clear. pose proof (b2z_range b).
  rewrite (bitmap_update_bit bm b (λ w, Z.land w (Z.lxor (2 ^ 64 - 1) (1 ≪ (b2z b mod 64))))) by done.
  case_decide as E.
  - pose proof (Z.mod_pos_bound i 64). pose proof (Z.mod_pos_bound (b2z b) 64).
    replace (2 ^ 64 - 1) with (Z.ones 64) by reflexivity.
    rewrite Z.land_spec, Z.lxor_spec, testbit_pow2_shift, Z.testbit_ones_nonneg, andb_comm by lia.
    destruct (Z.ltb_spec (i mod 64) 64); [|lia]. rewrite xorb_true_l. f_equal; [f_equal|].
    + apply bool_decide_ext. rewrite <- (split64 i (b2z b)) by lia. tauto.
    + unfold bitmap_bit. by rewrite E.
  - rewrite bool_decide_false by congruence. done.
Qed.

Lemma insert_word_ok bm i w : bitmap_ok bm → 0 <= w < 2 ^ 64 → bitmap_ok (<[i := w]> bm).
Proof. intros [Hl Hf] Hw. split; [by rewrite length_insert|]. by apply Forall_insert. Qed.

Lemma lor_range a b n : 0 <= n → 0 <= a < 2 ^ n → 0 <= b < 2 ^ n → 0 <= Z.lor a b < 2 ^ n.
Proof.
  intros Hn Ha Hb. apply bits_range; [apply Z.lor_nonneg; lia|done|].
  intros i Hi. by rewrite Z.lor_spec, (testbit_high a n), (testbit_high b n) by lia.
Qed.

Lemma land_range a b n : 0 <= n → 0 <= a < 2 ^ n → 0 <= b → 0 <= Z.land a b < 2 ^ n.
Proof.
  intros Hn Ha Hb. apply bits_range; [apply Z.land_nonneg; lia|done|].
  intros i Hi. by rewrite Z.land_spec, (testbit_high a n) by lia.
Qed.

Lemma bitmap_set_ok bm b : bitmap_ok bm → bitmap_ok (bitmap_set bm b).
Proof.
  intros H. pose proof (b2z_range b). apply insert_word_ok; [done|].
  apply lor_range; [lia|apply bitmap_word_range; [done|apply byte_word_idx_lt]|].
  pose proof (Z.mod_pos_bound (b2z b) 64 ltac:(lia)).
  apply bits_range; [apply Z.shiftl_nonneg; lia|lia|]. intros i Hi.
  rewrite testbit_pow2_shift by lia. apply bool_decide_false. lia.
Qed.

Lemma bitmap_clear_ok bm b : bitmap_ok bm → bitmap_ok (bitmap_clear bm b).
Proof.
  intros H. pose proof (b2z_range b). apply insert_word_ok; [done|].
  apply land_range; [lia|apply bitmap_word_range; [done|apply byte_word_idx_lt]|].
  apply Z.lxor_nonneg. split; [intros _|done]. apply Z.shiftl_nonneg. lia.
Qed.

Lemma bitmap_bit_word bm idx j : 0 <= j < 64 →
  bitmap_bit bm (64 * Z.of_nat idx + j) = Z.testbit (bm !!! idx) j.
Proof.
  intros. unfold bitmap_bit. rewrite (Z.mul_comm 64), Z.add_comm, Z.div_add, Z.mod_add by lia.
  by rewrite Z.div_small, Z.mod_small, Z.add_0_l, Nat2Z.id by lia.
Qed.

(** Two bitmap words agree with the bitmap outside a window. *)
Lemma bitmap_next_loop_spec fuel bm idx word from :
  bitmap_ok bm → (idx < 4)%nat → (4 - idx <= fuel)%nat → 0 <= from < 64 * Z.of_nat (S idx) →
  0 <= word < 2 ^ 64 →
  (∀ j, 0 <= j < 64 → Z.testbit word j =
     (from <=? 64 * Z.of_nat idx + j) && bitmap_bit bm (64 * Z.of_nat idx + j)) →
  (∀ i, from <= i < 64 * Z.of_nat idx → bitmap_bit bm i = false) →
  match bitmap_next_loop fuel bm idx word with
  | Some b => from <= b2z b ∧ bitmap_bit bm (b2z b) = true ∧
              ∀ i, from <= i < b2z b → bitmap_bit bm i = false
  | None => ∀ i, from <= i < 256 → bitmap_bit bm i = false
  end.
Proof.
  intros Hok. revert idx word.
  induction fuel as [|fuel IH]; intros idx word Hidx Hf Hfrom Hw Hbits Hbelow; [lia|].
  cbn [bitmap_next_loop]. destruct (Z.eqb_spec word 0) as [->|Hne]; cbn [negb].
  - assert (∀ i, from <= i < 64 * Z.of_nat (S idx) → bitmap_bit bm i = false) as Hbelow'.
    { intros i Hi. destruct (decide (i < 64 * Z.of_nat idx)); [apply Hbelow; lia|].
      specialize (Hbits (i - 64 * Z.of_nat idx) ltac:(lia)).
      replace (64 * Z.of_nat idx + (i - 64 * Z.of_nat idx)) with i in Hbits by ring.
      rewrite Z.bits_0 in Hbits. destruct (Z.leb_spec from i); [done|lia]. }
    case_decide as E4; [rewrite E4 in Hbelow'; exact Hbelow'|].
    apply IH; [lia|lia|lia|apply bitmap_word_range; [done|lia]| |done].
    intros j Hj. destruct (Z.leb_spec from (64 * Z.of_nat (S idx) + j)) as [|Hlt]; [cbn [andb]|lia].
    by rewrite bitmap_bit_word.
  - destruct (trailing_zeros_spec 64 word) as (Hp & Ht & Hz); [lia|].
    pose proof (trailing_zeros_lt 64 word 64 ltac:(lia) ltac:(lia)).
    rewrite b2z_z2b, Z.mod_small by lia. rewrite (Z.mul_comm _ 64).
    rewrite Hbits in Ht by lia. apply andb_true_iff in Ht as [Ht1%Z.leb_le Ht2].
    split_and!; [lia|done|]. intros i Hi.
    destruct (decide (i < 64 * Z.of_nat idx)); [apply Hbelow; lia|].
    specialize (Hz (i - 64 * Z.of_nat idx) ltac:(lia)). rewrite Hbits in Hz by lia.
    replace (64 * Z.of_nat idx + (i - 64 * Z.of_nat idx)) with i in Hz by ring.
    destruct (Z.leb_spec from i); [done|lia].
Qed.

Lemma bitmap_next_spec bm from : bitmap_ok bm → 0 <= from →
  match bitmap_next bm from with
  | Some b => from <= b2z b ∧ bitmap_bit bm (b2z b) = true ∧
              ∀ i, from <= i < b2z b → bitmap_bit bm i = false
  | None => ∀ i, from <= i < 256 → bitmap_bit bm i = false
  end.
Proof.
  intros Hok Hfrom. unfold bitmap_next. destruct (Z.ltb_spec 255 from); [intros; lia|].
  pose proof (word_idx_lt from ltac:(lia)).
  pose proof (Z.div_mod from 64). pose proof (Z.mod_pos_bound from 64).
  pose proof (Z.div_pos from 64).
  apply bitmap_next_loop_spec; [done|done|lia|lia| | |].
  - apply land_range; [lia|by apply bitmap_word_range|]. apply Z.mod_pos_bound. lia.
  - intros j Hj. rewrite bitmap_bit_word, Z.land_spec, andb_comm, Z.mod_pow2_bits_low by lia.
    f_equal. rewrite Z.shiftl_spec by lia. replace (2 ^ 64 - 1) with (Z.ones 64) by reflexivity.
    rewrite Z2Nat.id by lia. destruct (Z.leb_spec from (64 * (from / 64) + j)).
    + rewrite Z.testbit_ones_nonneg by lia. apply Z.ltb_lt. lia.
    + apply Z.testbit_neg_r. lia.
  - intros i Hi. rewrite Z2Nat.id in Hi by lia. lia.
Qed.

Lemma bitmap_prev_loop_spec fuel bm idx word to :
  bitmap_ok bm → (idx < 4)%nat → (idx < fuel)%nat → 64 * Z.of_nat idx <= to < 256 →
  0 <= word < 2 ^ 64 →
  (∀ j, 0 <= j < 64 → Z.testbit word j =
     (64 * Z.of_nat idx + j <=? to) && bitmap_bit bm (64 * Z.of_nat idx + j)) →
  (∀ i, 64 * Z.of_nat (S idx) <= i <= to → bitmap_bit bm i = false) →
  match bitmap_prev_loop fuel bm idx word with
  | Some b => b2z b <= to ∧ bitmap_bit bm (b2z b) = true ∧
              ∀ i, b2z b < i <= to → bitmap_bit bm i = false
  | None => ∀ i, 0 <= i <= to → bitmap_bit bm i = false
  end.
Proof.
  intros Hok. revert idx word.
  induction fuel as [|fuel IH]; intros idx word Hidx Hf Hto Hw Hbits Habove; [lia|].
  cbn [bitmap_prev_loop]. destruct (Z.eqb_spec word 0) as [->|Hne]; cbn [negb].
  - assert (∀ i, 64 * Z.of_nat idx <= i <= to → bitmap_bit bm i = false) as Habove'.
    { intros i Hi. destruct (decide (64 * Z.of_nat (S idx) <= i)); [apply Habove; lia|].
      specialize (Hbits (i - 64 * Z.of_nat idx) ltac:(lia)).
      replace (64 * Z.of_nat idx + (i - 64 * Z.of_nat idx)) with i in Hbits by ring.
      rewrite Z.bits_0 in Hbits. destruct (Z.leb_spec i to); [done|lia]. }
    destruct idx as [|idx]; [exact Habove'|].
    apply IH; [lia|lia|lia|apply bitmap_word_range; [done|lia]| |done].
    intros j Hj. destruct (Z.leb_spec (64 * Z.of_nat idx + j) to) as [|Hlt]; [cbn [andb]|lia].
    by rewrite bitmap_bit_word.
  - assert (0 < word) as Hpos by lia.
    assert (Z.log2 word < 64) as Hlog by (apply Z.log2_lt_pow2; lia).
    pose proof (Z.log2_nonneg word). unfold leading_zeros.
    destruct (Z.eqb_spec word 0); [lia|].
    replace (Z.of_nat idx * 64 + 63 - (64 - 1 - Z.log2 word))
      with (64 * Z.of_nat idx + Z.log2 word) by ring.
    rewrite b2z_z2b, Z.mod_small by lia.
    pose proof (Z.bit_log2 word Hpos) as Ht. rewrite Hbits in Ht by lia.
    apply andb_true_iff in Ht as [Ht1%Z.leb_le Ht2].
    split_and!; [lia|done|]. intros i Hi.
    destruct (decide (64 * Z.of_nat (S idx) <= i)); [apply Habove; lia|].
    assert (Z.testbit word (i - 64 * Z.of_nat idx) = false) as Hz
      by (apply Z.bits_above_log2; lia).
    rewrite Hbits in Hz by lia.
    replace (64 * Z.of_nat idx + (i - 64 * Z.of_nat idx)) with i in Hz by ring.
    destruct (Z.leb_spec i to); [done|lia].
Qed.

Lemma bitmap_prev_spec bm to : bitmap_ok bm →
  match bitmap_prev bm to with
  | Some b => b2z b <= b2z to ∧ bitmap_bit bm (b2z b) = true ∧
              ∀ i, b2z b < i <= b2z to → bitmap_bit bm i = false
  | None => ∀ i, 0 <= i <= b2z to → bitmap_bit bm i = false
  end.
Proof.
  intros Hok. unfold bitmap_prev. set (t := b2z to). pose proof (b2z_range to) as Hr.
  fold t in Hr. pose proof (word_idx_lt t ltac:(lia)).
  pose proof (Z.div_mod t 64). pose proof (Z.mod_pos_bound t 64). pose proof (Z.div_pos t 64).
  assert ((if t mod 64 =? 63 then 2 ^ 64 - 1 else 1 ≪ (t mod 64 + 1) - 1)
          = Z.ones (t mod 64 + 1)) as ->.
  { destruct (Z.eqb_spec (t mod 64) 63) as [->|]; [done|].
    rewrite Z.ones_equiv, Z.shiftl_mul_pow2 by lia. lia. }
  apply bitmap_prev_loop_spec; [done|done|lia|lia| | |].
  - apply land_range; [lia|by apply bitmap_word_range|]. rewrite Z.ones_equiv.
    pose proof (Z.pow_pos_nonneg 2 (t mod 64 + 1)). lia.
  - intros j Hj. rewrite bitmap_bit_word, Z.land_spec, andb_comm, Z.testbit_ones_nonneg by lia.
    f_equal. rewrite Z2Nat.id by lia.
    destruct (Z.ltb_spec j (t mod 64 + 1)), (Z.leb_spec (64 * (t / 64) + j) t); done || lia.
  - intros i Hi. lia.
Qed.

(** The 256-bit child bitmap. Setting and clearing a byte's bit touch no
    other bit, and the word-wise searches find the nearest set bit at or after,
    and at or before, the given byte. *)
Theorem bitmap_is_a_byte_set bm b from to :
  bitmap_ok bm → 0 <= from →
  (∀ x, bitmap_bit (bitmap_set bm b) (b2z x) = bool_decide (x = b) || bitmap_bit bm (b2z x)) ∧
  (∀ x, bitmap_bit (bitmap_clear bm b) (b2z x) = negb (bool_decide (x = b)) && bitmap_bit bm (b2z x)) ∧
  match bitmap_next bm from with
  | Some x => from <= b2z x ∧ bitmap_bit bm (b2z x) = true ∧ ∀ i, from <= i < b2z x → bitmap_bit bm i = false
  | None => ∀ i, from <= i < 256 → bitmap_bit bm i = false
  end ∧
  match bitmap_prev bm to with
  | Some x => b2z x <= b2z to ∧ bitmap_bit bm (b2z x) = true ∧ ∀ i, b2z x < i <= b2z to → bitmap_bit bm i = false
  | None => ∀ i, 0 <= i <= b2z to → bitmap_bit bm i = false
  end.
Proof.
  intros Hok Hf. pose proof b2z_range as R.
  assert (∀ x y, bool_decide (b2z x = b2z y) = bool_decide (x = y)) as E.
  { intros x y. apply bool_decide_ext. split; [apply b2z_inj|by intros ->]. }
  split_and!; [..|by apply bitmap_next_spec|by apply bitmap_prev_spec]; intros x; rewrite <- E.
  - apply bitmap_set_bit; [done|apply R].
  - apply bitmap_clear_bit; [done|apply R].
Qed.

Lemma bitmap_is_a_byte_set_witness :
  bitmap_ok (bitmap_set bitmap_new Byte.x41) ∧
  match bitmap_prev (bitmap_set bitmap_new Byte.x41) Byte.xff with
  | Some x => b2z x <= 255 ∧ bitmap_bit (bitmap_set bitmap_new Byte.x41) (b2z x) = true
  | None => False
  end.
Proof.
  assert (bitmap_ok (bitmap_set bitmap_new Byte.x41)) as Hok by apply bitmap_set_ok, bitmap_new_ok.
  split; [exact Hok|].
  pose proof (proj2 (proj2 (proj2 (bitmap_is_a_byte_set _ Byte.x00 0 Byte.xff Hok ltac:(lia))))) as P.
  change (bitmap_prev (bitmap_set bitmap_new Byte.x41) Byte.xff) with (Some Byte.x41) in *. split; apply P.
Defined.

(** ** Vector search of a [Node16] ([src/simd.rs]) *)

Module Simd.
(** Fallback linear search across valid key entries. *)
Definition find_child_scalar (keys : list byte) (num_children : nat) (needle : byte) : option nat :=
  position (λ k, bool_decide (k = needle)) (take num_children keys).

(** [_mm_cmpeq_epi8] lane by lane, and [_mm_movemask_epi8]: the top bits of
    the lanes, lane 0 in bit 0. *)
Definition cmpeq (keys : list byte) (needle : byte) : list bool :=
  (λ k, bool_decide (k = needle)) <$> keys.
Fixpoint movemask (lanes : list bool) : Z :=
  match lanes with
  | [] => 0
  | l :: lanes => Z.b2z l + 2 * movemask lanes
  end.

Definition find_child_x86_sse2 (keys : list byte) (num_children : nat) (needle : byte) : option nat :=
  let mask := movemask (cmpeq keys needle) in
  let valid_mask := (Z.shiftl 1 (Z.of_nat num_children) mod 2 ^ 32 - 1) mod 2 ^ 32 in
  let matches := Z.land mask valid_mask in
  if negb (matches =? 0) then Some (Z.to_nat (trailing_zeros 32 matches)) else None.

(** [vceqq_u8]: each matching byte is 0xFF; its two 64-bit lanes. *)
Definition vceq (keys : list byte) (needle : byte) : list byte :=
  (λ k, if bool_decide (k = needle) then Byte.xff else Byte.x00) <$> keys.

Definition find_child_neon (keys : list byte) (num_children : nat) (needle : byte) : option nat :=
  let cmp := vceq keys needle in
  let lo := from_le_bytes (take 8 cmp) in
  let hi := from_le_bytes (drop 8 cmp) in
  if negb (lo =? 0) then
    let idx := Z.to_nat (Z.shiftr (trailing_zeros 64 lo) 3) in
    if decide (idx < num_children)%nat then Some idx else None
  else if negb (hi =? 0) then
    let idx := (8 + Z.to_nat (Z.shiftr (trailing_zeros 64 hi) 3))%nat in
    if decide (idx < num_children)%nat then Some idx else None
  else None.

Lemma movemask_bit lanes i :
  Z.testbit (movemask lanes) (Z.of_nat i) = default false (lanes !! i).
Proof.
  revert i. induction lanes as [|l lanes IH]; intros i; cbn [movemask]; [apply Z.bits_0|].
  rewrite Z.add_comm. destruct i as [|i].
  - rewrite Z.testbit_odd, Z.shiftr_0_r, Z.add_comm, Z.odd_add_mul_2. by destruct l.
  - rewrite Nat2Z.inj_succ, Z.testbit_succ_r by lia. apply IH.
Qed.

Lemma movemask_nonneg lanes : 0 <= movemask lanes.
Proof. induction lanes as [|[] lanes IH]; cbn [movemask]; cbn; lia. Qed.

Lemma valid_mask_ones n : (n <= 16)%nat →
  (Z.shiftl 1 (Z.of_nat n) mod 2 ^ 32 - 1) mod 2 ^ 32 = Z.ones (Z.of_nat n).
Proof.
  intros. rewrite Z.shiftl_mul_pow2, Z.mul_1_l, Z.ones_equiv by lia.
  pose proof (Z.pow_pos_nonneg 2 (Z.of_nat n)).
  pose proof (Z.pow_le_mono_r 2 (Z.of_nat n) 16).
  rewrite (Z.mod_small (2 ^ _)), Z.mod_small by lia. lia.
Qed.

(** The first match of the key search, from its position. *)
Lemma scalar_Some keys n needle i :
  (i < n)%nat → keys !! i = Some needle →
  (∀ j, (j < i)%nat → keys !! j ≠ Some needle) →
  find_child_scalar keys n needle = Some i.
Proof.
  intros Hi Hk Hlt. apply position_Some. exists needle.
  rewrite lookup_take_lt by done. split_and!; [done|by rewrite bool_decide_true|].
  intros j y Hj Hy. rewrite lookup_take_lt in Hy by lia.
  apply bool_decide_false. intros ->. by apply (Hlt j).
Qed.

Lemma scalar_None keys n needle :
  (∀ j, (j < n)%nat → keys !! j ≠ Some needle) → find_child_scalar keys n needle = None.
Proof.
  intros H. apply position_None, Forall_lookup. intros j y Hy.
  apply lookup_take_Some in Hy as [Hy Hj]. apply bool_decide_false.
  intros ->. by apply (H j).
Qed.

(** The SSE2 search. *)
Lemma sse2_is_linear_search keys num_children needle :
  (num_children <= 16)%nat →
  find_child_x86_sse2 keys num_children needle = find_child_scalar keys num_children needle.
Proof.
  intros Hn. unfold find_child_x86_sse2. rewrite valid_mask_ones by done.
  set (m := Z.land _ _).
  assert (∀ i : nat, Z.testbit m (Z.of_nat i) = true ↔
    (i < num_children)%nat ∧ keys !! i = Some needle) as Hm.
  { intros i. subst m. rewrite Z.land_spec, Z.testbit_ones_nonneg, movemask_bit by lia.
    unfold cmpeq. rewrite list_lookup_fmap, andb_true_iff, Z.ltb_lt.
    destruct (keys !! i) as [k|]; cbn; [|naive_solver].
    rewrite bool_decide_eq_true. split; [intros [-> ?]|intros [? [= ->]]]; split; done || lia. }
  destruct (Z.eqb_spec m 0) as [E|E]; cbn [negb].
  - symmetry. apply scalar_None. intros j Hj Hk.
    assert (Z.testbit m (Z.of_nat j) = true) as Ht by by apply Hm.
    by rewrite E, Z.bits_0 in Ht.
  - assert (0 < m) as Hp.
    { assert (0 <= m); [|lia]. apply Z.land_nonneg. left. apply movemask_nonneg. }
    destruct (trailing_zeros_spec 32 m Hp) as (Hz & Ht & Hlow).
    rewrite <- (Z2Nat.id (trailing_zeros 32 m)) in Ht by done.
    apply Hm in Ht as [H1 H2]. symmetry. apply scalar_Some; [done|done|].
    intros j Hj Hk. assert (Z.testbit m (Z.of_nat j) = true) as Ht by (apply Hm; split; [lia|done]).
    rewrite Hlow in Ht by lia. done.
Qed.

Lemma trailing_zeros_unique bits w k : 0 < w → 0 <= k → Z.testbit w k = true →
  (∀ i, 0 <= i < k → Z.testbit w i = false) → trailing_zeros bits w = k.
Proof.
  intros Hw Hk Ht Hlow. destruct (trailing_zeros_spec bits w Hw) as (Hp & Ht' & Hlow').
  destruct (Z.lt_trichotomy (trailing_zeros bits w) k) as [H|[H|H]]; [|done|].
  - rewrite Hlow in Ht' by lia. done.
  - rewrite Hlow' in Ht by lia. done.
Qed.

(** The first non-zero byte of a comparison lane. *)
Lemma lane_first (P : byte → bool) (l : list byte) :
  let w := from_le_bytes ((λ k, if P k then Byte.xff else Byte.x00) <$> l) in
  match position P l with
  | Some i => 0 < w ∧ Z.shiftr (trailing_zeros 64 w) 3 = Z.of_nat i
  | None => w = 0
  end.
Proof.
  cbn zeta. induction l as [|x l IH]; cbn [position fmap list_fmap from_le_bytes]; [done|].
  pose proof (from_le_bytes_range ((λ k, if P k then Byte.xff else Byte.x00) <$> l)) as R.
  destruct (P x).
  - change (b2z Byte.xff) with 255. split; [lia|].
    rewrite (trailing_zeros_unique 64 _ 0); [done|lia|lia| |intros; lia].
    replace (255 + 256 * _) with (1 + 2 * (127 + 128 * from_le_bytes ((λ k, if P k then Byte.xff else Byte.x00) <$> l))) by ring.
    by rewrite Z.testbit_odd, Z.shiftr_0_r, Z.odd_add_mul_2.
  - change (b2z Byte.x00) with 0. rewrite Z.add_0_l.
    destruct (position P l) as [i|]; cbn; [|by rewrite IH].
    destruct IH as [Hp Ht]. split; [lia|].
    set (w := from_le_bytes _) in *.
    destruct (trailing_zeros_spec 64 w Hp) as (Hz & Hb & Hlow).
    rewrite (trailing_zeros_unique 64 (256 * w) (trailing_zeros 64 w + 8)).
    + rewrite Z.shiftr_div_pow2 in * by lia. change (2 ^ 3) with 8 in *.
      replace (trailing_zeros 64 w + 8) with (trailing_zeros 64 w + 1 * 8) by ring.
      rewrite Z.div_add by lia. lia.
    + lia.
    + lia.
    + change 256 with (2 ^ 8). rewrite Z.mul_comm, Z.mul_pow2_bits by lia.
      by replace (trailing_zeros 64 w + 8 - 8) with (trailing_zeros 64 w) by ring.
    + intros i' Hi'. change 256 with (2 ^ 8). rewrite Z.mul_comm, Z.mul_pow2_bits by lia.
      destruct (Z.lt_ge_cases i' 8); [apply Z.testbit_neg_r; lia|]. apply Hlow. lia.
Qed.

(** The NEON search. *)
Lemma neon_is_linear_search keys num_children needle :
  length keys = 16%nat → (num_children <= 16)%nat →
  find_child_neon keys num_children needle = find_child_scalar keys num_children needle.
Proof.
  intros Hl Hn. unfold find_child_neon, vceq. rewrite <- fmap_take, <- fmap_drop.
  set (P := λ k, bool_decide (k = needle)).
  pose proof (lane_first P (take 8 keys)) as Hlo.
  pose proof (lane_first P (drop 8 keys)) as Hhi. cbn zeta in Hlo, Hhi.
  set (lo := from_le_bytes (_ <$> take 8 keys)) in *.
  set (hi := from_le_bytes (_ <$> drop 8 keys)) in *.
  destruct (position P (take 8 keys)) as [i|] eqn:El.
  - destruct Hlo as [Hp Ht]. destruct (Z.eqb_spec lo 0) as [|_]; [lia|]. cbn [negb].
    rewrite Ht, Nat2Z.id. apply position_Some in El as (x & Hx & Px & Hlt).
    apply bool_decide_eq_true in Px as ->. apply lookup_take_Some in Hx as [Hx Hi].
    assert (∀ j, (j < i)%nat → keys !! j ≠ Some needle) as Hbefore.
    { intros j Hj Hk. specialize (Hlt j needle Hj).
      rewrite lookup_take_lt in Hlt by lia. specialize (Hlt Hk).
      by apply bool_decide_eq_false in Hlt. }
    case_decide; [symmetry; by apply scalar_Some|].
    symmetry. apply scalar_None. intros j Hj. apply Hbefore. lia.
  - rewrite Hlo. cbn [Z.eqb negb]. apply position_None in El. rewrite Forall_lookup in El.
    assert (∀ j, (j < 8)%nat → keys !! j ≠ Some needle) as Hbefore.
    { intros j Hj Hk. specialize (El j needle). rewrite lookup_take_lt in El by done.
      specialize (El Hk). by apply bool_decide_eq_false in El. }
    destruct (position P (drop 8 keys)) as [i|] eqn:Eh.
    + destruct Hhi as [Hp Ht]. destruct (Z.eqb_spec hi 0) as [|_]; [lia|]. cbn [negb].
      rewrite Ht, Nat2Z.id. apply position_Some in Eh as (x & Hx & Px & Hlt).
      apply bool_decide_eq_true in Px as ->. rewrite lookup_drop in Hx.
      assert (∀ j, (j < 8 + i)%nat → keys !! j ≠ Some needle) as Hbefore'.
      { intros j Hj Hk. destruct (decide (j < 8)%nat); [by apply (Hbefore j)|].
        specialize (Hlt (j - 8)%nat needle ltac:(lia)). rewrite lookup_drop in Hlt.
        replace (8 + (j - 8))%nat with j in Hlt by lia. specialize (Hlt Hk).
        by apply bool_decide_eq_false in Hlt. }
      case_decide; [symmetry; by apply scalar_Some|].
      symmetry. apply scalar_None. intros j Hj. apply Hbefore'. lia.
    + rewrite Hhi. cbn [Z.eqb negb]. symmetry. apply scalar_None. intros j Hj Hk.
      destruct (decide (j < 8)%nat); [by apply (Hbefore j)|].
      apply position_None in Eh. rewrite Forall_lookup in Eh.
      specialize (Eh (j - 8)%nat needle). rewrite lookup_drop in Eh.
      replace (8 + (j - 8))%nat with j in Eh by lia. specialize (Eh Hk).
      by apply bool_decide_eq_false in Eh.
Qed.

(** [find_child_node16] picks the search of the target. *)
Inductive target := X86_64_sse2 | Aarch64_neon | Other_target.

Definition find_child_node16 (t : target) (keys : list byte) (num_children : nat) (needle : byte) : option nat :=
  match t with
  | X86_64_sse2 => find_child_x86_sse2 keys num_children needle
  | Aarch64_neon => find_child_neon keys num_children needle
  | Other_target => find_child_scalar keys num_children needle
  end.

Lemma find_child_node16_scalar t keys num_children needle :
  length keys = 16%nat → (num_children <= 16)%nat →
  find_child_node16 t keys num_children needle = find_child_scalar keys num_children needle.
Proof.
  intros. destruct t; [by apply sse2_is_linear_search|by apply neon_is_linear_search|done].
Qed.

(** C38: the SSE2 and NEON searches of a [Node16] agree with the scalar loop on
    every key array, count up to 16 and byte: keys at or beyond
    [num_children] never match, and the first match wins. *)
Theorem vector_search_is_linear_search t keys num_children needle :
  length keys = 16%nat → (num_children <= 16)%nat →
  find_child_node16 t keys num_children needle = find_child_scalar keys num_children needle.
Proof. apply find_child_node16_scalar. Qed.

Lemma vector_search_is_linear_search_witness :
  find_child_node16 X86_64_sse2 (replicate 16 Byte.x07) 9 Byte.x07 = Some 0%nat ∧
  find_child_node16 Aarch64_neon (replicate 16 Byte.x07) 9 Byte.x08 = None.
Proof.
  rewrite (vector_search_is_linear_search X86_64_sse2), (vector_search_is_linear_search Aarch64_neon)
    by (done || lia).
  split; reflexivity.
Defined.
End Simd.
