(* ===== verification/Node.v ===== *)
(** * Inner node layouts ([src/raw/node.rs])

    The four layouts of an inner node over a common header, with every
    operation of the source: searches, ordered scans, inserts, replacements,
    removes and copies. A node is a partial map from bytes to child slots:
    [find_child] is that map, and every operation is specified through it, for
    all layouts at once ([node_ok] is the invariant that makes this so).
    The latch word of the header is kept beside the node, in the tree's state
    (see [Mem.v]). *)

From S2P Require Import Prelude Bytes Slot Bits.
Local Open Scope Z_scope.

(** ** Node types *)

Inductive NodeType := Node4 | Node16 | Node48 | Node256.

#[export] Instance node_type_eq_dec : EqDecision NodeType.
Proof. solve_decision. Defined.

Definition capacity (t : NodeType) : nat :=
  match t with Node4 => 4 | Node16 => 16 | Node48 => 48 | Node256 => 256 end.

(** The smallest layout that holds [children] children. *)
Definition fitting (children : nat) : NodeType :=
  if decide (children <= 4)%nat then Node4
  else if decide (children <= 16)%nat then Node16
  else if decide (children <= 48)%nat then Node48
  else Node256.

Definition grown (t : NodeType) : option NodeType :=
  match t with
  | Node4 => Some Node16
  | Node16 => Some Node48
  | Node48 => Some Node256
  | Node256 => None
  end.

(** The derived order, by size. *)
Definition type_rank (t : NodeType) : Z :=
  match t with Node4 => 0 | Node16 => 1 | Node48 => 2 | Node256 => 3 end.
Definition type_ltb (a b : NodeType) : bool := type_rank a <? type_rank b.

(** ** Layouts *)

Definition NODE48_EMPTY : Z := 48.
Definition as_u16 (n : Z) : Z := n mod 2 ^ 16.

(** The entry of a node that a remove takes out. *)
Inductive Taken := Exact | Child (b : byte) | Nothing.

#[export] Instance taken_eq_dec : EqDecision Taken.
Proof. solve_decision. Defined.

(** What a node holds besides the taken entry. *)
Inductive Rest (R : Type) :=
| RestEmpty
| RestLeaf (r : R)
| RestInner (b : byte) (r : R)
| RestMany.
Arguments RestEmpty {R}. Arguments RestLeaf {R}.
Arguments RestInner {R}. Arguments RestMany {R}.

(** The fields of the header that readers load, besides the latch. *)
Record NodeHeader (R : Type) := {
  h_num_children : Z;         (** [AtomicU16] *)
  h_prefix_len : Z;           (** [AtomicU16] *)
  h_prefix : Z * Z;           (** [[AtomicU64; 2]] *)
  h_exact_leaf : R;
}.
Arguments h_num_children {R}. Arguments h_prefix_len {R}.
Arguments h_prefix {R}. Arguments h_exact_leaf {R}.

(** The rest of each layout, and with it the immutable [node_type]. *)
Inductive NodeBody (R : Type) :=
| N4 (keys : Z) (children : list R)
| N16 (keys : Z * Z) (children : list R)
| N48 (child_indices : list Z) (child_bitmap : list Z) (children : list R)
| N256 (child_bitmap : list Z) (children : list R).
Arguments N4 {R}. Arguments N16 {R}. Arguments N48 {R}. Arguments N256 {R}.

Record node (R : Type) := { n_header : NodeHeader R; n_body : NodeBody R }.
Arguments n_header {R}. Arguments n_body {R}. Arguments Build_node {R}.

Section node.
Context {R : Type} `{Slot R}.
Implicit Types (n : node R) (h : NodeHeader R) (r : R).

#[local] Instance slot_inhabited : Inhabited R := populate NULL.

Definition header_new : NodeHeader R :=
  {| h_num_children := 0; h_prefix_len := 0; h_prefix := (0, 0); h_exact_leaf := NULL |}.

(** [Node4::new] and its siblings. *)
Definition node_new (t : NodeType) : node R :=
  {| n_header := header_new;
     n_body := match t with
               | Node4 => N4 0 (replicate 4 NULL)
               | Node16 => N16 (0, 0) (replicate 16 NULL)
               | Node48 => N48 (replicate 256 NODE48_EMPTY) bitmap_new (replicate 48 NULL)
               | Node256 => N256 bitmap_new (replicate 256 NULL)
               end |}.

Definition node_type n : NodeType :=
  match n_body n with
  | N4 _ _ => Node4 | N16 _ _ => Node16 | N48 _ _ _ => Node48 | N256 _ _ => Node256
  end.

(** ** Header *)

Definition num_children_max (cap : nat) n : nat :=
  Z.to_nat (Z.min (h_num_children (n_header n)) (Z.of_nat cap)).
Definition num_children n : nat := num_children_max (capacity (node_type n)) n.
Definition is_full n : bool := bool_decide (capacity (node_type n) <= num_children n)%nat.

Definition set_header n h : node R := {| n_header := h; n_body := n_body n |}.

(** [set_num_children], together with the body it is stored after. *)
Definition with_children n (b : NodeBody R) (count : nat) : node R :=
  let h := n_header n in
  {| n_header := {| h_num_children := as_u16 (Z.of_nat count); h_prefix_len := h_prefix_len h;
                    h_prefix := h_prefix h; h_exact_leaf := h_exact_leaf h |};
     n_body := b |}.

Definition prefix_len n : nat :=
  Z.to_nat (Z.min (h_prefix_len (n_header n)) (Z.of_nat MAX_PREFIX_LEN)).
Definition raw_prefix_len n : Z := h_prefix_len (n_header n).

Definition load_prefix n : PrefixSnapshot :=
  let len := prefix_len n in
  if decide (len = 0%nat) then {| ps_len := 0; ps_bytes := replicate MAX_PREFIX_LEN Byte.x00 |}
  else {| ps_len := len; ps_bytes := unpack16 (h_prefix (n_header n)) |}.

Definition write_prefix n (prefix : list byte) : node R :=
  let h := n_header n in
  let len := (length prefix `min` MAX_PREFIX_LEN)%nat in
  let bytes := take len prefix ++ replicate (MAX_PREFIX_LEN - len) Byte.x00 in
  set_header n {| h_num_children := h_num_children h; h_prefix_len := as_u16 (Z.of_nat len);
                  h_prefix := pack16 bytes; h_exact_leaf := h_exact_leaf h |}.

Definition exact_leaf n : R := h_exact_leaf (n_header n).
Definition set_exact_leaf n r : node R :=
  let h := n_header n in
  set_header n {| h_num_children := h_num_children h; h_prefix_len := h_prefix_len h;
                  h_prefix := h_prefix h; h_exact_leaf := r |}.

(** ** Searches *)

(** [Node16] keys are searched by [src/simd.rs]; the searches of all targets
    agree ([Simd.find_child_node16_scalar]). *)
Definition node16_search : list byte → nat → byte → option nat :=
  Simd.find_child_node16 Simd.X86_64_sse2.

Definition present (r : R) : option R := if is_null r then None else Some r.

Definition find_child n (b : byte) : option R :=
  match n_body n with
  | N4 w children =>
    let count := num_children_max 4 n in
    let keys := to_le_bytes 4 w in
    i ← position (λ k, bool_decide (k = b)) (take count keys); present (children !!! i)
  | N16 ws children =>
    let count := num_children_max 16 n in
    i ← node16_search (unpack16 ws) count b; present (children !!! i)
  | N48 idx _ children =>
    let slot := idx !!! b2n b in
    if NODE48_EMPTY <=? slot then None else present (children !!! Z.to_nat slot)
  | N256 _ children => present (children !!! b2n b)
  end.

(** The scans of the sorted layouts. *)
Definition scan_next (keys : list byte) (children : list R) (count : nat) (from : Z) : option (byte * R) :=
  find_map (λ '(i, k), if from <=? b2z k then pair k <$> present (children !!! i) else None)
    (imap pair (take count keys)).

Definition scan_prev (keys : list byte) (children : list R) (count : nat) (to : byte) : option (byte * R) :=
  find_map (λ i, let k := keys !!! i in
                 if b2z k <=? b2z to then pair k <$> present (children !!! i) else None)
    (rev (seq 0 count)).

(** The scans of the large layouts, a set bit at a time: [get] is the load of
    the slot of a byte. *)
Fixpoint bitmap_scan_next (fuel : nat) (bm : list Z) (get : byte → option R) (from : Z) : option (byte * R) :=
  match fuel with
  | O => None
  | S fuel =>
    match bitmap_next bm from with
    | None => None
    | Some b =>
      match get b with
      | Some c => Some (b, c)
      | None => bitmap_scan_next fuel bm get (b2z b + 1)
      end
    end
  end.

Fixpoint bitmap_scan_prev (fuel : nat) (bm : list Z) (get : byte → option R) (to : byte) : option (byte * R) :=
  match fuel with
  | O => None
  | S fuel =>
    match bitmap_prev bm to with
    | None => None
    | Some b =>
      match get b with
      | Some c => Some (b, c)
      | None => if b2z b =? 0 then None else bitmap_scan_prev fuel bm get (z2b (b2z b - 1))
      end
    end
  end.

Definition get48 (idx : list Z) (children : list R) (b : byte) : option R :=
  let slot := idx !!! b2n b in
  if slot <? NODE48_EMPTY then present (children !!! Z.to_nat slot) else None.

(** The first child with key byte [>= from] (0..=256). *)
Definition next_child n (from : Z) : option (byte * R) :=
  if 255 <? from then None
  else match n_body n with
  | N4 w children => scan_next (to_le_bytes 4 w) children (num_children n) from
  | N16 ws children => scan_next (unpack16 ws) children (num_children n) from
  | N48 idx bm children => bitmap_scan_next 257 bm (get48 idx children) from
  | N256 bm children => bitmap_scan_next 257 bm (λ b, present (children !!! b2n b)) from
  end.

(** The last child with key byte [<= to]. *)
Definition prev_child n (to : byte) : option (byte * R) :=
  match n_body n with
  | N4 w children => scan_prev (to_le_bytes 4 w) children (num_children n) to
  | N16 ws children => scan_prev (unpack16 ws) children (num_children n) to
  | N48 idx bm children => bitmap_scan_prev 257 bm (get48 idx children) to
  | N256 bm children => bitmap_scan_prev 257 bm (λ b, present (children !!! b2n b)) to
  end.

(** [for_each_child], as the list of its calls. *)
Fixpoint for_each_from (fuel : nat) n (from : Z) : list (byte * R) :=
  match fuel with
  | O => []
  | S fuel =>
    match next_child n from with
    | Some (b, c) => (b, c) :: for_each_from fuel n (b2z b + 1)
    | None => []
    end
  end.
Definition for_each_child n : list (byte * R) := for_each_from 257 n 0.

Definition has_exact n (taken : Taken) : bool :=
  negb (is_null (exact_leaf n)) && negb (bool_decide (taken = Exact)).
Definition taken_child (taken : Taken) : nat :=
  match taken with Child _ => 1 | _ => 0 end.

(** [true] if taking out [taken] leaves this node with no entry. *)
Definition emptied_by n (taken : Taken) : bool :=
  bool_decide (num_children n + Nat.b2n (has_exact n taken) - taken_child taken = 0)%nat.

Fixpoint rest_loop (fuel : nat) n (taken : Taken) (from : Z) (rest : Rest R) : Rest R :=
  match fuel with
  | O => rest
  | S fuel =>
    match next_child n from with
    | None => rest
    | Some (b, c) =>
      if decide (taken = Child b) then rest_loop fuel n taken (b2z b + 1) rest
      else match rest with
           | RestEmpty =>
             rest_loop fuel n taken (b2z b + 1) (if is_leaf c then RestLeaf c else RestInner b c)
           | _ => RestMany
           end
    end
  end.

(** What this node holds besides [taken]. *)
Definition rest n (taken : Taken) : Rest R :=
  let left := (num_children n + Nat.b2n (has_exact n taken) - taken_child taken)%nat in
  if decide (2 <= left)%nat then RestMany
  else rest_loop 257 n taken 0
    (if has_exact n taken then RestLeaf (exact_leaf n) else RestEmpty).

(** ** Updates; [None] is a failed assertion *)

(** The insertion loops of the sorted layouts. *)
Definition arr_insert (keys : list byte) (children : list R) (count : nat) (b : byte) (c : R)
    : list byte * list R :=
  let pos := partition_point (λ k, b2z k <? b2z b) (take count keys) in
  (<[pos := b]> (shift_right pos count keys), <[pos := c]> (shift_right pos count children)).

(** The removal loops, and the clearing of the last place. *)
Definition arr_remove (keys : list byte) (children : list R) (count pos : nat)
    : list byte * list R :=
  (<[count - 1 := Byte.x00]> (shift_left pos count keys),
   <[count - 1 := NULL]> (shift_left pos count children))%nat.

Definition insert_child_raw n (b : byte) (c : R) : option (node R) :=
  match n_body n with
  | N4 w children =>
    let count := num_children n in
    if decide (count < 4)%nat then
      let '(keys, children) := arr_insert (to_le_bytes 4 w) children count b c in
      Some (with_children n (N4 (from_le_bytes keys) children) (count + 1))
    else None
  | N16 ws children =>
    let count := num_children n in
    if decide (count < 16)%nat then
      let '(keys, children) := arr_insert (unpack16 ws) children count b c in
      Some (with_children n (N16 (pack16 keys) children) (count + 1))
    else None
  | N48 idx bm children =>
    let count := num_children n in
    if decide (count < 48)%nat then
      slot ← position is_null children;
      Some (with_children n (N48 (<[b2n b := Z.of_nat slot]> idx) (bitmap_set bm b)
                               (<[slot := c]> children)) (count + 1))
    else None
  | N256 bm children =>
    let count := num_children n in
    Some (with_children n (N256 (bitmap_set bm b) (<[b2n b := c]> children)) (count + 1))
  end.

Definition with_body n (b : NodeBody R) : node R := {| n_header := n_header n; n_body := b |}.

Definition replace_child n (b : byte) (c : R) : option (node R) :=
  match n_body n with
  | N4 w children =>
    i ← position (λ k, bool_decide (k = b)) (take (num_children n) (to_le_bytes 4 w));
    Some (with_body n (N4 w (<[i := c]> children)))
  | N16 ws children =>
    i ← position (λ k, bool_decide (k = b)) (take (num_children n) (unpack16 ws));
    Some (with_body n (N16 ws (<[i := c]> children)))
  | N48 idx bm children =>
    let slot := idx !!! b2n b in
    if slot <? NODE48_EMPTY then Some (with_body n (N48 idx bm (<[Z.to_nat slot := c]> children)))
    else None
  | N256 bm children => Some (with_body n (N256 bm (<[b2n b := c]> children)))
  end.

Definition remove_child n (b : byte) : node R :=
  match n_body n with
  | N4 w children =>
    let count := num_children n in
    match position (λ k, bool_decide (k = b)) (take count (to_le_bytes 4 w)) with
    | None => n
    | Some pos =>
      let '(keys, children) := arr_remove (to_le_bytes 4 w) children count pos in
      with_children n (N4 (from_le_bytes keys) children) (count - 1)
    end
  | N16 ws children =>
    let count := num_children n in
    match position (λ k, bool_decide (k = b)) (take count (unpack16 ws)) with
    | None => n
    | Some pos =>
      let '(keys, children) := arr_remove (unpack16 ws) children count pos in
      with_children n (N16 (pack16 keys) children) (count - 1)
    end
  | N48 idx bm children =>
    let slot := idx !!! b2n b in
    if NODE48_EMPTY <=? slot then n
    else with_children n (N48 (<[b2n b := NODE48_EMPTY]> idx) (bitmap_clear bm b)
                            (<[Z.to_nat slot := NULL]> children)) (num_children n - 1)
  | N256 bm children =>
    if is_null (children !!! b2n b) then n
    else with_children n (N256 (bitmap_clear bm b) (<[b2n b := NULL]> children)) (num_children n - 1)
  end.

Fixpoint push_all (dst : node R) (es : list (byte * R)) : option (node R) :=
  match es with
  | [] => Some dst
  | (b, c) :: es => dst ← insert_child_raw dst b c; push_all dst es
  end.

(** Copies this node's prefix, exact leaf and children into [dst]. *)
Definition copy_into n (dst : node R) : option (node R) :=
  let dst := write_prefix dst (as_slice (load_prefix n)) in
  let dst := set_exact_leaf dst (exact_leaf n) in
  push_all dst (for_each_child n).
End node.
