(* ===== verification/NodeSpec.v ===== *)
(** * The layouts implement one partial map

    The invariant [node_ok] of the four layouts, and the behaviour of every
    operation of [Node.v] as an operation on the partial map
    [find_child n : byte → option R]. The tree's proofs use these
    specifications only, never the layouts. *)

From stdpp Require Import sorting.
From S2P Require Import Prelude Bytes Slot Bits Node.
Local Open Scope Z_scope.

(** ** Partial maps from bytes, as ordered entry lists *)

Section entries.
Context {R : Type}.
Implicit Types (es : list (byte * R)) (f g : byte → option R).

(** Every present child, in key order: the reference for [for_each_child]. *)
Definition children_list f : list (byte * R) := omap (λ b, pair b <$> f b) all_bytes.

Definition es_sorted : list (byte * R) → Prop := StronglySorted (λ x y, b2z x.1 < b2z y.1).

Lemma es_sorted_app es1 b c es2 :
  es_sorted (es1 ++ (b, c) :: es2) ↔
  es_sorted (es1 ++ es2) ∧ (∀ x, x ∈ es1 → b2z x.1 < b2z b) ∧ (∀ x, x ∈ es2 → b2z b < b2z x.1).
Proof.
  unfold es_sorted. induction es1 as [|e es1 IH]; cbn.
  - rewrite StronglySorted_cons, Forall_forall. set_solver.
  - rewrite !StronglySorted_cons, IH, !Forall_app, Forall_cons, !Forall_forall.
    cbn. set_solver.
Qed.

Lemma es_sorted_key es b c c' : es_sorted es → (b, c) ∈ es → (b, c') ∈ es → c = c'.
Proof.
  intros Hs (l1 & l2 & ->)%list_elem_of_split Hc.
  apply es_sorted_app in Hs as (_ & H1 & H2).
  apply elem_of_app in Hc as [Hc|[Hc|Hc]%elem_of_cons].
  - apply H1 in Hc. cbn in Hc. lia.
  - congruence.
  - apply H2 in Hc. cbn in Hc. lia.
Qed.

Lemma es_sorted_ext es1 es2 :
  es_sorted es1 → es_sorted es2 → (∀ e, e ∈ es1 ↔ e ∈ es2) → es1 = es2.
Proof.
  revert es2. induction es1 as [|[b c] es1 IH]; intros [|[b' c'] es2] H1 H2 E; [done| | |].
  - specialize (E (b', c')). set_solver.
  - specialize (E (b, c)). set_solver.
  - assert ((b, c) = (b', c')) as [= <- <-].
    { pose proof (E (b, c)) as E1. pose proof (E (b', c')) as E2.
      apply (es_sorted_app []) in H1 as (_ & _ & H1).
      apply (es_sorted_app []) in H2 as (_ & _ & H2).
      rewrite !elem_of_cons in E1, E2.
      destruct (proj1 E1) as [|X]; [auto|done|]. destruct (proj2 E2) as [|Y]; [auto|done|].
      apply H2 in X. apply H1 in Y. cbn in *. lia. }
    pose proof H1 as H1'. pose proof H2 as H2'.
    apply (es_sorted_app []) in H1' as (S1 & _ & L1).
    apply (es_sorted_app []) in H2' as (S2 & _ & L2).
    f_equal. apply IH; [done|done|]. intros e. specialize (E e).
    rewrite !elem_of_cons in E. split; intros He.
    + destruct (proj1 E (or_intror He)) as [->|]; [|done]. apply L1 in He. cbn in He. lia.
    + destruct (proj2 E (or_intror He)) as [->|]; [|done]. apply L2 in He. cbn in He. lia.
Qed.

Lemma elem_of_children_list f b c : (b, c) ∈ children_list f ↔ f b = Some c.
Proof.
  unfold children_list. rewrite list_elem_of_omap. split.
  - intros (x & _ & E). destruct (f x) as [c'|] eqn:Ex; cbn in E; naive_solver.
  - intros E. exists b. rewrite E. split; [apply elem_of_all_bytes|done].
Qed.

Lemma children_list_sorted f : es_sorted (children_list f).
Proof.
  unfold children_list, es_sorted.
  assert (StronglySorted (λ x y, b2z x < b2z y) all_bytes) as Hs.
  { apply (bool_decide_unpack _). vm_compute. exact I. }
  induction Hs as [|b l Hs IH Hf]; cbn; [constructor|].
  destruct (f b) as [c|]; cbn; [|done]. constructor; [done|].
  apply Forall_forall. intros [b' c'] (x & Hx & E)%list_elem_of_omap. cbn.
  destruct (f x); cbn in E; [|done]. injection E as <- _.
  by apply (proj1 (Forall_forall _ _) Hf).
Qed.

(** Changing the map at one byte changes the entry list in one place. *)
Lemma children_list_update f g b :
  (∀ x, x ≠ b → g x = f x) →
  ∃ l r, children_list f = l ++ option_list (pair b <$> f b) ++ r ∧
         children_list g = l ++ option_list (pair b <$> g b) ++ r.
Proof.
  intros E. destruct (all_bytes_split b) as (l & r & Hb & Hl & Hr).
  exists (omap (λ b, pair b <$> f b) l), (omap (λ b, pair b <$> f b) r).
  unfold children_list. rewrite Hb, !omap_app; cbn.
  assert (∀ k : list byte, (∀ x, x ∈ k → x ≠ b) →
    omap (λ b, pair b <$> g b) k =@{list _} omap (λ b, pair b <$> f b) k) as X.
  { intros k Hk. induction k as [|x k IH]; cbn; [done|].
    rewrite E, IH by (set_solver). done. }
  rewrite (X l), (X r).
  - by destruct (f b), (g b).
  - intros x Hx%Hr ->. lia.
  - intros x Hx%Hl ->. lia.
Qed.

Definition child_count f : nat := length (children_list f).

Lemma child_count_insert f g b c :
  f b = None → g b = Some c → (∀ x, x ≠ b → g x = f x) → child_count g = S (child_count f).
Proof.
  intros Hf Hg E. destruct (children_list_update f g b E) as (l & r & E1 & E2).
  unfold child_count. rewrite E1, E2, Hf, Hg, !length_app; cbn. lia.
Qed.

Lemma child_count_replace f g b c c' :
  f b = Some c → g b = Some c' → (∀ x, x ≠ b → g x = f x) → child_count g = child_count f.
Proof.
  intros Hf Hg E. destruct (children_list_update f g b E) as (l & r & E1 & E2).
  unfold child_count. rewrite E1, E2, Hf, Hg, !length_app; cbn. lia.
Qed.

Lemma child_count_ext f g : (∀ x, g x = f x) → children_list g = children_list f.
Proof.
  intros E. unfold children_list. induction all_bytes as [|b l IH]; cbn; [done|].
  by rewrite E, IH.
Qed.

Lemma child_count_same f g : (∀ x, g x = f x) → child_count g = child_count f.
Proof. intros E. unfold child_count. f_equal. by apply child_count_ext. Qed.

Lemma child_count_0 f : child_count f = 0%nat ↔ ∀ b, f b = None.
Proof.
  unfold child_count. rewrite length_zero_iff_nil. split.
  - intros E b. destruct (f b) as [c|] eqn:Eb; [|done].
    apply elem_of_children_list in Eb. rewrite E in Eb. set_solver.
  - intros E. destruct (children_list f) as [|[b c] l] eqn:El; [done|].
    assert ((b, c) ∈ children_list f) as Hb by (rewrite El; set_solver).
    apply elem_of_children_list in Hb. by rewrite E in Hb.
Qed.

Lemma child_count_le f : (child_count f <= 256)%nat.
Proof.
  unfold child_count, children_list. rewrite <- all_bytes_length.
  induction all_bytes as [|b l IH]; cbn; [lia|]. destruct (f b); cbn; lia.
Qed.

(** ** Ordered searches, on the map *)

Definition next_spec f (from : Z) (o : option (byte * R)) : Prop :=
  match o with
  | Some (b, c) => from <= b2z b ∧ f b = Some c ∧ ∀ x, from <= b2z x < b2z b → f x = None
  | None => ∀ x, from <= b2z x → f x = None
  end.

Definition prev_spec f (to : Z) (o : option (byte * R)) : Prop :=
  match o with
  | Some (b, c) => b2z b <= to ∧ f b = Some c ∧ ∀ x, b2z b < b2z x <= to → f x = None
  | None => ∀ x, b2z x <= to → f x = None
  end.
End entries.

(** ** The sorted arrays of [Node4] and [Node16] *)

#[local] Existing Instance slot_inhabited.

Section arrays.
Context {R : Type} `{SlotLaws R}.
Implicit Types (es : list (byte * R)) (keys : list byte) (children : list R).

(** The map an entry list denotes. *)
Definition es_lookup es (b : byte) : option R :=
  find_map (λ e, if decide (e.1 = b) then Some e.2 else None) es.

Lemma es_lookup_Some es b c : es_sorted es → es_lookup es b = Some c ↔ (b, c) ∈ es.
Proof.
  intros Hs. unfold es_lookup. rewrite find_map_Some. split.
  - intros (i & [b' c'] & Hi & Hf & _). cbn in Hf. case_decide; [|done].
    simplify_eq. by eapply list_elem_of_lookup_2.
  - intros Hin. destruct (find_map (λ e : byte * R, if decide (e.1 = b) then Some e.2 else None) es)
      as [c'|] eqn:E.
    + apply find_map_Some in E as (i & [b' c''] & Hi & Hf & Hlt). cbn in Hf.
      case_decide; [|done]. simplify_eq.
      assert (c = c') as -> by (eapply es_sorted_key; [done..|]; by eapply list_elem_of_lookup_2).
      exists i, (b, c'). split_and!; [done| |done]. cbn. by rewrite decide_True.
    + rewrite find_map_None in E. apply list_elem_of_lookup in Hin as [i Hi].
      specialize (E i _ Hi). cbn in E. by rewrite decide_True in E.
Qed.

Lemma es_lookup_None es b : es_lookup es b = None ↔ ∀ c, (b, c) ∉ es.
Proof.
  unfold es_lookup. rewrite find_map_None. split.
  - intros Hn c [i Hi]%list_elem_of_lookup. specialize (Hn i _ Hi). cbn in Hn.
    by rewrite decide_True in Hn.
  - intros Hn i [b' c'] Hi. cbn. case_decide; [|done]. subst.
    apply list_elem_of_lookup_2 in Hi. by apply Hn in Hi.
Qed.

Lemma children_list_es es : es_sorted es → children_list (es_lookup es) = es.
Proof.
  intros Hs. apply es_sorted_ext; [apply children_list_sorted|done|].
  intros [b c]. by rewrite elem_of_children_list, es_lookup_Some.
Qed.

(** The entries are the first [length es] places of both arrays. *)
Record arr_ok (cap : nat) keys children es : Prop := {
  arr_keys : ∃ pad, keys = es.*1 ++ pad;
  arr_children : ∃ pad, children = es.*2 ++ pad;
  arr_keys_len : length keys = cap;
  arr_children_len : length children = cap;
  arr_sorted : es_sorted es;
  arr_nonnull : ∀ b c, (b, c) ∈ es → c ≠ NULL;
}.

Lemma arr_new cap : arr_ok cap (replicate cap Byte.x00) (replicate cap NULL) [].
Proof.
  split; cbn; [by eexists|by eexists|by rewrite length_replicate..|constructor|].
  intros b c []%not_elem_of_nil.
Qed.

Lemma arr_count_le cap keys children es : arr_ok cap keys children es → (length es <= cap)%nat.
Proof. intros [[pad ->] _ <- _ _ _]. rewrite length_app, length_fmap. lia. Qed.

Lemma arr_take cap keys children es :
  arr_ok cap keys children es → take (length es) keys = es.*1.
Proof. intros [[pad ->] _ _ _ _ _]. rewrite take_app_length'; [done|]. by rewrite length_fmap. Qed.

Lemma arr_child cap keys children es i b c :
  arr_ok cap keys children es → es !! i = Some (b, c) →
  keys !!! i = b ∧ present (children !!! i) = Some c.
Proof.
  intros [[pad ->] [pad' ->] _ _ _ Hn] Hi.
  rewrite !list_lookup_total_alt, !lookup_app_l
    by (rewrite length_fmap; by eapply lookup_lt_Some).
  rewrite !list_lookup_fmap, Hi; cbn. split; [done|]. unfold present.
  destruct (is_null c) eqn:E; [|done]. apply is_null_spec in E.
  exfalso. eapply Hn; [|done]. by eapply list_elem_of_lookup_2.
Qed.

Lemma arr_position cap keys children es b :
  arr_ok cap keys children es →
  match position (λ k, bool_decide (k = b)) (take (length es) keys) with
  | Some i => ∃ c, es !! i = Some (b, c)
  | None => ∀ c, (b, c) ∉ es
  end.
Proof.
  intros A. rewrite (arr_take _ _ _ _ A).
  destruct (position _ es.*1) as [i|] eqn:E.
  - apply position_Some in E as (k & Hk & Ek & _). apply bool_decide_eq_true in Ek as ->.
    apply list_lookup_fmap_Some in Hk as ([b' c] & -> & Hi). by exists c.
  - apply position_None in E. intros c [i Hi]%list_elem_of_lookup.
    pose proof (proj1 (Forall_lookup _ _) E i b) as Hb.
    rewrite list_lookup_fmap, Hi in Hb. specialize (Hb eq_refl).
    by apply bool_decide_eq_false in Hb.
Qed.

Lemma arr_find cap keys children es b :
  arr_ok cap keys children es →
  position (λ k, bool_decide (k = b)) (take (length es) keys) ≫= (λ i, present (children !!! i)) =
  es_lookup es b.
Proof.
  intros A. pose proof (arr_position _ _ _ _ b A) as P.
  destruct (position _ _) as [i|]; cbn.
  - destruct P as [c Hi]. destruct (arr_child _ _ _ _ _ _ _ A Hi) as [_ ->].
    symmetry. apply es_lookup_Some; [apply A|]. by eapply list_elem_of_lookup_2.
  - symmetry. by apply es_lookup_None.
Qed.

Lemma es_sorted_lookup es i j x y :
  es_sorted es → es !! i = Some x → es !! j = Some y → (i < j)%nat → b2z x.1 < b2z y.1.
Proof.
  intros Hs Hi Hj Hij. rewrite <- (take_drop_middle es i x Hi) in Hs.
  destruct x as [b c]. apply es_sorted_app in Hs as (_ & _ & H2). apply H2.
  apply list_elem_of_lookup. exists (j - S i)%nat. rewrite lookup_drop. by replace (S i + (j - S i))%nat with j by lia.
Qed.

Lemma arr_scan_next cap keys children es from :
  arr_ok cap keys children es →
  next_spec (es_lookup es) from (scan_next keys children (length es) from).
Proof.
  intros A. unfold scan_next. rewrite (arr_take _ _ _ _ A).
  assert (∀ i k, imap pair es.*1 !! i = Some k →
    ∃ b c, k = (i, b) ∧ es !! i = Some (b, c) ∧ present (children !!! i) = Some c) as Hi.
  { intros i k Hk. rewrite list_lookup_imap, list_lookup_fmap in Hk.
    destruct (es !! i) as [[b c]|] eqn:E; cbn in Hk; [|done]. injection Hk as <-.
    destruct (arr_child _ _ _ _ _ _ _ A E). eauto 10. }
  destruct (find_map _ _) as [[b c]|] eqn:E; cbn.
  - apply find_map_Some in E as (i & k & Hk & Hf & Hlt).
    destruct (Hi i k Hk) as (b' & c' & -> & He & Hp). rewrite Hp in Hf.
    destruct (Z.leb_spec from (b2z b')); cbn in Hf; [|done]. injection Hf as -> ->.
    split_and!; [done| |].
    + apply es_lookup_Some; [apply A|]. by eapply list_elem_of_lookup_2.
    + intros x Hx. apply es_lookup_None. intros cx [j Hj]%list_elem_of_lookup.
      assert (imap pair es.*1 !! j = Some (j, x)) as Hjk
        by (by rewrite list_lookup_imap, list_lookup_fmap, Hj).
      destruct (decide (j < i)%nat) as [Hji|Hji].
      * specialize (Hlt j _ Hji Hjk). cbn in Hlt.
        destruct (Hi j _ Hjk) as (b1 & c1 & [= <-] & Hj' & Hp1). rewrite Hp1 in Hlt.
        destruct (Z.leb_spec from (b2z x)); cbn in Hlt; [done|lia].
      * destruct (decide (i = j)) as [->|].
        -- rewrite Hj in He. injection He as -> ->. lia.
        -- pose proof (es_sorted_lookup es i j _ _ ltac:(apply A) He Hj ltac:(lia)). cbn in *. lia.
  - rewrite find_map_None in E. intros x Hx. apply es_lookup_None.
    intros cx [j Hj]%list_elem_of_lookup.
    assert (imap pair es.*1 !! j = Some (j, x)) as Hjk
      by (by rewrite list_lookup_imap, list_lookup_fmap, Hj).
    specialize (E j _ Hjk). cbn in E.
    destruct (Hi j _ Hjk) as (b1 & c1 & [= <-] & Hj' & Hp1). rewrite Hp1 in E.
    destruct (Z.leb_spec from (b2z x)); cbn in E; [done|lia].
Qed.

Lemma arr_scan_prev cap keys children es to :
  arr_ok cap keys children es →
  prev_spec (es_lookup es) (b2z to) (scan_prev keys children (length es) to).
Proof.
  intros A. unfold scan_prev.
  set (f := λ i, let k := keys !!! i in if b2z k <=? b2z to then pair k <$> present (children !!! i) else None).
  assert (∀ i b c, es !! i = Some (b, c) → f i = if b2z b <=? b2z to then Some (b, c) else None) as Hf.
  { intros i b c Hi. destruct (arr_child _ _ _ _ _ _ _ A Hi) as [E1 E2].
    subst f. cbn. by rewrite E1, E2. }
  pose proof (find_map_rev_seq f (length es)) as P.
  destruct (find_map f _) as [[b c]|]; cbn.
  - destruct P as (i & Hlt & Hi & Hj). destruct (lookup_lt_is_Some_2 es i Hlt) as [[b' c'] He].
    rewrite (Hf i b' c' He) in Hi. destruct (Z.leb_spec (b2z b') (b2z to)); [|done].
    injection Hi as -> ->. split_and!; [done| |].
    + apply es_lookup_Some; [apply A|]. by eapply list_elem_of_lookup_2.
    + intros x Hx. apply es_lookup_None. intros cx [j Hjx]%list_elem_of_lookup.
      destruct (decide (i < j)%nat).
      * specialize (Hj j). rewrite (Hf j x cx Hjx) in Hj. apply lookup_lt_Some in Hjx.
        destruct (Z.leb_spec (b2z x) (b2z to)); [|lia]. by specialize (Hj ltac:(lia)).
      * destruct (decide (i = j)) as [->|].
        -- rewrite Hjx in He. injection He as -> ->. lia.
        -- pose proof (es_sorted_lookup es j i _ _ ltac:(apply A) Hjx He ltac:(lia)). cbn in *. lia.
  - intros x Hx. apply es_lookup_None. intros cx [j Hjx]%list_elem_of_lookup.
    specialize (P j). rewrite (Hf j x cx Hjx) in P. apply lookup_lt_Some in Hjx.
    destruct (Z.leb_spec (b2z x) (b2z to)); [|lia]. by specialize (P Hjx).
Qed.

(** The insertion loops insert in order. *)
Lemma arr_insert_ok cap keys children es b c :
  arr_ok cap keys children es → (length es < cap)%nat → (∀ c', (b, c') ∉ es) → c ≠ NULL →
  ∃ keys' children' es1 es2, arr_insert keys children (length es) b c = (keys', children') ∧
    es = es1 ++ es2 ∧ arr_ok cap keys' children' (es1 ++ (b, c) :: es2).
Proof.
  intros A Hlt Hb Hc. unfold arr_insert. rewrite (arr_take _ _ _ _ A).
  destruct (partition_point_split (λ k, b2z k <? b2z b) es.*1) as (k1 & k2 & E & -> & H1 & H2).
  apply fmap_app_inv in E as (es1 & es2 & -> & -> & ->).
  destruct A as [[kp ->] [cp ->] Lk Lc Hs Hn].
  assert (∃ x kp', kp = x :: kp') as (x & kp' & ->).
  { destruct kp; [|eauto]. rewrite app_nil_r, length_fmap in Lk. lia. }
  assert (∃ y cp', cp = y :: cp') as (y & cp' & ->).
  { destruct cp; [|eauto]. rewrite app_nil_r, length_fmap in Lc. lia. }
  rewrite !fmap_app, <- !(assoc_L (++)), length_fmap, length_app.
  rewrite !shift_right_insert by by rewrite length_fmap.
  eexists _, _, es1, es2. split_and!; [done..|]. split.
  - exists kp'. rewrite fmap_app, <- (assoc_L (++)). done.
  - exists cp'. rewrite fmap_app, <- (assoc_L (++)). done.
  - rewrite <- Lk, ?fmap_app, !length_app; cbn; rewrite ?length_app; cbn. lia.
  - rewrite <- Lc, ?fmap_app, !length_app; cbn; rewrite ?length_app; cbn. lia.
  - apply es_sorted_app. split_and!; [done| |].
    + intros e He. pose proof (proj1 (Forall_forall _ _) H1 e.1) as Hk. cbn in Hk.
      rewrite Z.ltb_lt in Hk. apply Hk. by apply list_elem_of_fmap_2.
    + intros e He. destruct es2 as [|[b2 c2] es2]; [by apply not_elem_of_nil in He|].
      specialize (H2 b2 eq_refl). cbn in H2. apply Z.ltb_ge in H2.
      assert (b2z b2 ≠ b2z b).
      { intros E%b2z_inj. subst. apply (Hb c2). set_solver. }
      apply elem_of_cons in He as [->|He]; [cbn; lia|].
      pose proof Hs as Hs'. apply es_sorted_app in Hs' as (_ & _ & Habove).
      specialize (Habove e He). lia.
  - intros b' c' He. rewrite elem_of_app, elem_of_cons in He.
    destruct He as [He|[[= -> ->]|He]]; [|done|].
    + apply (Hn b'). set_solver.
    + apply (Hn b'). set_solver.
Qed.

Lemma arr_remove_ok cap keys children es pos b c :
  arr_ok cap keys children es → es !! pos = Some (b, c) →
  ∃ keys' children' es1 es2, arr_remove keys children (length es) pos = (keys', children') ∧
    es = es1 ++ (b, c) :: es2 ∧ arr_ok cap keys' children' (es1 ++ es2).
Proof.
  intros A Hp. unfold arr_remove. apply list_elem_of_split_length in Hp as (es1 & es2 & -> & ->).
  destruct A as [[kp ->] [cp ->] Lk Lc Hs Hn].
  rewrite !fmap_app, !fmap_cons, <- !(assoc_L (++)); cbn [fst snd app].
  rewrite !length_app; cbn [length]. rewrite !Nat.add_succ_r; cbn [Nat.sub].
  rewrite Nat.sub_0_r, <- Nat.add_succ_r.
  rewrite !shift_left_clear by by rewrite length_fmap.
  eexists _, _, es1, es2. split_and!; [done..|].
  apply es_sorted_app in Hs as (Hs & _ & _). split.
  - eexists (_ :: kp). rewrite fmap_app, <- (assoc_L (++)). done.
  - eexists (_ :: cp). rewrite fmap_app, <- (assoc_L (++)). done.
  - rewrite <- Lk, ?fmap_app, ?fmap_cons, !length_app; cbn; rewrite ?length_app; cbn. lia.
  - rewrite <- Lc, ?fmap_app, ?fmap_cons, !length_app; cbn; rewrite ?length_app; cbn. lia.
  - done.
  - intros b' c' He. apply (Hn b'). set_solver.
Qed.
(** A store over a present child. *)
Lemma arr_replace_ok cap keys children es i b c0 c :
  arr_ok cap keys children es → es !! i = Some (b, c0) → c ≠ NULL →
  ∃ es1 es2, es = es1 ++ (b, c0) :: es2 ∧
    arr_ok cap keys (<[i := c]> children) (es1 ++ (b, c) :: es2).
Proof.
  intros A Hi Hc. apply list_elem_of_split_length in Hi as (es1 & es2 & -> & ->).
  exists es1, es2. split; [done|].
  destruct A as [[kp ->] [cp ->] Lk Lc Hs Hn]. split.
  - exists kp. by rewrite !fmap_app.
  - exists cp. rewrite !fmap_app, !fmap_cons, <- !(assoc_L (++)); cbn [fst snd app].
    rewrite <- (length_fmap snd es1). by rewrite insert_app_at.
  - done.
  - by rewrite length_insert.
  - apply es_sorted_app in Hs. by apply es_sorted_app.
  - intros b' c' [He|[[= -> ->]|He]%elem_of_cons]%elem_of_app; [|done|]; apply (Hn b'); set_solver.
Qed.
End arrays.

Lemma es_lookup_update {R} `{SlotLaws R} (es1 es2 : list (byte * R)) b c x :
  es_sorted (es1 ++ (b, c) :: es2) →
  es_lookup (es1 ++ (b, c) :: es2) x = (if decide (x = b) then Some c else es_lookup (es1 ++ es2) x) ∧
  es_lookup (es1 ++ es2) b = None.
Proof.
  intros Hs. pose proof Hs as Hs'. apply es_sorted_app in Hs' as (Hs' & H1 & H2). split.
  - case_decide as E.
    + subst. apply es_lookup_Some; [done|]. set_solver.
    + unfold es_lookup. rewrite !find_map_app. cbn. by rewrite decide_False.
  - apply es_lookup_None. intros c' [Hc|Hc]%elem_of_app.
    + apply H1 in Hc. cbn in Hc. lia.
    + apply H2 in Hc. cbn in Hc. lia.
Qed.

(** ** The invariant *)

Section node_ok.
Context {R : Type} `{SlotLaws R}.
Implicit Types (n : node R) (children : list R).

Record ok48 (count : nat) (idx bm : list Z) children : Prop := {
  ok48_idx : length idx = 256%nat;
  ok48_children : length children = 48%nat;
  ok48_bitmap : bitmap_ok bm;
  ok48_range : ∀ b, 0 <= idx !!! b2n b;
  ok48_bit : ∀ b, bitmap_bit bm (b2z b) = (idx !!! b2n b <? NODE48_EMPTY);
  ok48_live : ∀ b, idx !!! b2n b < NODE48_EMPTY → children !!! Z.to_nat (idx !!! b2n b) ≠ NULL;
  ok48_inj : ∀ b b', idx !!! b2n b = idx !!! b2n b' → idx !!! b2n b < NODE48_EMPTY → b = b';
  ok48_count : length (filter (λ r, r ≠ NULL) children) = count;
}.

Record ok256 (bm : list Z) children : Prop := {
  ok256_children : length children = 256%nat;
  ok256_bitmap : bitmap_ok bm;
  ok256_bit : ∀ b, bitmap_bit bm (b2z b) = negb (is_null (children !!! b2n b));
}.

Definition body_ok (body : NodeBody R) (count : nat) : Prop :=
  match body with
  | N4 w children => ∃ keys es, w = from_le_bytes keys ∧ arr_ok 4 keys children es ∧ count = length es
  | N16 ws children => ∃ keys es, ws = pack16 keys ∧ arr_ok 16 keys children es ∧ count = length es
  | N48 idx bm children => ok48 count idx bm children
  | N256 bm children => ok256 bm children
  end.

Definition prefix_ok n : Prop :=
  0 <= h_prefix_len (n_header n) <= Z.of_nat MAX_PREFIX_LEN ∧
  ∃ bytes, length bytes = MAX_PREFIX_LEN ∧ h_prefix (n_header n) = pack16 bytes.

Record node_ok n : Prop := {
  no_prefix : prefix_ok n;
  no_count_range : 0 <= h_num_children (n_header n) <= Z.of_nat (capacity (node_type n));
  no_body : body_ok (n_body n) (Z.to_nat (h_num_children (n_header n)));
  no_count : Z.to_nat (h_num_children (n_header n)) = child_count (find_child n);
}.

Lemma num_children_count n : node_ok n →
  num_children n = Z.to_nat (h_num_children (n_header n)).
Proof. intros [_ Hc _ _]. unfold num_children, num_children_max. rewrite Z.min_l; lia. Qed.

(** [num_children] counts the children, and fits the layout. *)
Lemma num_children_spec n : node_ok n →
  num_children n = child_count (find_child n) ∧ (num_children n <= capacity (node_type n))%nat.
Proof.
  intros Hok. rewrite num_children_count by done. pose proof Hok as [_ Hc _ E]. split; [done|]. lia.
Qed.

(** The map of each sorted layout. *)
Lemma find_child_arr n (b : byte) keys es :
  match n_body n with
  | N4 w children => w = from_le_bytes keys ∧ arr_ok 4 keys children es
  | N16 ws children => ws = pack16 keys ∧ arr_ok 16 keys children es
  | _ => False
  end →
  h_num_children (n_header n) = Z.of_nat (length es) →
  find_child n b = es_lookup es b.
Proof.
  intros Hb Hn. unfold find_child, num_children_max. rewrite Hn.
  destruct (n_body n) as [w ch|ws ch|? ? ?|? ?]; [..|done|done]; destruct Hb as [-> A];
    pose proof (arr_count_le _ _ _ _ A) as Hle; rewrite Z.min_l, Nat2Z.id by lia.
  - rewrite to_from_le_bytes by apply A. by eapply arr_find.
  - rewrite unpack_pack16 by apply A. unfold node16_search.
    rewrite Simd.find_child_node16_scalar; [|apply A|done]. by eapply arr_find.
Qed.

Lemma present_None (r : R) : present r = None ↔ r = NULL.
Proof.
  unfold present. destruct (is_null r) eqn:E.
  - apply is_null_spec in E. done.
  - apply not_null_spec in E. done.
Qed.

Lemma present_Some (r c : R) : present r = Some c ↔ r = c ∧ c ≠ NULL.
Proof.
  unfold present. destruct (is_null r) eqn:E.
  - apply is_null_spec in E as ->. naive_solver.
  - apply not_null_spec in E. naive_solver.
Qed.

Lemma find_child_48 n idx bm children b :
  n_body n = N48 idx bm children → find_child n b = get48 idx children b.
Proof.
  intros E. unfold find_child, get48. rewrite E, Z.ltb_antisym.
  by destruct (NODE48_EMPTY <=? _).
Qed.

Lemma get48_None count idx bm children b :
  ok48 count idx bm children → get48 idx children b = None ↔ NODE48_EMPTY <= idx !!! b2n b.
Proof.
  intros Hok. unfold get48. destruct (Z.ltb_spec (idx !!! b2n b) NODE48_EMPTY) as [Hlt|Hge]; [|done].
  rewrite present_None. pose proof (ok48_live _ _ _ _ Hok b Hlt). split; [done|lia].
Qed.

(** ** Ordered searches *)

Lemma next_spec_ext (f g : byte → option R) from o :
  (∀ b, f b = g b) → next_spec f from o → next_spec g from o.
Proof.
  intros E. destruct o as [[b c]|]; cbn; [|intros Hx x ?; rewrite <- E; auto].
  intros (? & ? & Hx). split_and!; [done|by rewrite <- E|]. intros. rewrite <- E. auto.
Qed.

Lemma prev_spec_ext (f g : byte → option R) to o :
  (∀ b, f b = g b) → prev_spec f to o → prev_spec g to o.
Proof.
  intros E. destruct o as [[b c]|]; cbn; [|intros Hx x ?; rewrite <- E; auto].
  intros (? & ? & Hx). split_and!; [done|by rewrite <- E|]. intros. rewrite <- E. auto.
Qed.

Lemma bitmap_scan_next_spec fuel bm (get : byte → option R) from :
  bitmap_ok bm → (∀ b, bitmap_bit bm (b2z b) = bool_decide (is_Some (get b))) → 0 <= from →
  next_spec get from (bitmap_scan_next (S fuel) bm get from).
Proof.
  intros Hok Hbit Hfrom. cbn [bitmap_scan_next].
  pose proof (bitmap_next_spec bm from Hok Hfrom) as P.
  assert (∀ x, bitmap_bit bm (b2z x) = false → get x = None) as Hoff.
  { intros x Hx. rewrite Hbit in Hx. apply bool_decide_eq_false in Hx. by apply eq_None_not_Some. }
  destruct (bitmap_next bm from) as [b|].
  - destruct P as (H1 & H2 & H3). rewrite Hbit in H2. apply bool_decide_eq_true in H2 as [c Hc].
    rewrite Hc. cbn. split_and!; [done|done|]. intros. apply Hoff, H3. lia.
  - cbn. intros x Hx. apply Hoff, P. pose proof (b2z_range x). lia.
Qed.

Lemma bitmap_scan_prev_spec fuel bm (get : byte → option R) to :
  bitmap_ok bm → (∀ b, bitmap_bit bm (b2z b) = bool_decide (is_Some (get b))) →
  prev_spec get (b2z to) (bitmap_scan_prev (S fuel) bm get to).
Proof.
  intros Hok Hbit. cbn [bitmap_scan_prev].
  pose proof (bitmap_prev_spec bm to Hok) as P.
  assert (∀ x, bitmap_bit bm (b2z x) = false → get x = None) as Hoff.
  { intros x Hx. rewrite Hbit in Hx. apply bool_decide_eq_false in Hx. by apply eq_None_not_Some. }
  destruct (bitmap_prev bm to) as [b|].
  - destruct P as (H1 & H2 & H3). rewrite Hbit in H2. apply bool_decide_eq_true in H2 as [c Hc].
    rewrite Hc. cbn. split_and!; [done|done|]. intros. apply Hoff, H3. lia.
  - cbn. intros x Hx. apply Hoff, P. pose proof (b2z_range x). lia.
Qed.

(** The bitmaps of the large layouts mark exactly the present bytes. *)
Lemma bitmap_marks n : node_ok n →
  match n_body n with
  | N48 idx bm children => bitmap_ok bm ∧ (∀ b, get48 idx children b = find_child n b) ∧
      ∀ b, bitmap_bit bm (b2z b) = bool_decide (is_Some (get48 idx children b))
  | N256 bm children => bitmap_ok bm ∧ (∀ b, present (children !!! b2n b) = find_child n b) ∧
      ∀ b, bitmap_bit bm (b2z b) = bool_decide (is_Some (present (children !!! b2n b)))
  | _ => True
  end.
Proof.
  intros [_ _ Hb _]. destruct (n_body n) as [| |idx bm ch|bm ch] eqn:E; [done|done| |].
  - split_and!; [apply Hb| |].
    + intros b. symmetry. by apply find_child_48 with bm.
    + intros b. cbn in Hb. rewrite (ok48_bit _ _ _ _ Hb).
      destruct (get48 idx ch b) as [c|] eqn:G.
      * rewrite bool_decide_true by eauto. apply Z.ltb_lt.
        apply Z.nle_gt. intros X. by apply (get48_None _ _ _ _ b Hb) in X as X'; rewrite G in X'.
      * rewrite bool_decide_false by (intros []; done). apply Z.ltb_ge.
        by apply (get48_None _ _ _ _ b Hb).
  - split_and!; [apply Hb| |].
    + intros b. unfold find_child. by rewrite E.
    + intros b. cbn in Hb. rewrite (ok256_bit _ _ Hb).
      unfold present. by destruct (is_null _).
Qed.

Lemma next_child_spec n from : node_ok n → 0 <= from →
  next_spec (find_child n) from (next_child n from).
Proof.
  intros Hok Hfrom. unfold next_child.
  destruct (Z.ltb_spec 255 from) as [Hgt|Hle].
  { intros x Hx. pose proof (b2z_range x). lia. }
  rewrite num_children_count by done.
  pose proof (bitmap_marks n Hok) as M. pose proof Hok as [_ Hc Hb _].
  destruct (n_body n) as [w ch|ws ch|idx bm ch|bm ch] eqn:E.
  - destruct Hb as (keys & es & -> & A & Hl). rewrite Hl, to_from_le_bytes by apply A.
    eapply next_spec_ext, arr_scan_next; [|done].
    intros b. symmetry. apply find_child_arr with keys; [by rewrite E|lia].
  - destruct Hb as (keys & es & -> & A & Hl). rewrite Hl, unpack_pack16 by apply A.
    eapply next_spec_ext, arr_scan_next; [|done].
    intros b. symmetry. apply find_child_arr with keys; [by rewrite E|lia].
  - destruct M as (M1 & M2 & M3). eapply next_spec_ext; [exact M2|]. by apply bitmap_scan_next_spec.
  - destruct M as (M1 & M2 & M3). eapply next_spec_ext; [exact M2|].
    by apply (bitmap_scan_next_spec 256 bm (λ b, present (ch !!! b2n b))).
Qed.

Lemma prev_child_spec n to : node_ok n →
  prev_spec (find_child n) (b2z to) (prev_child n to).
Proof.
  intros Hok. unfold prev_child. rewrite num_children_count by done.
  pose proof (bitmap_marks n Hok) as M. pose proof Hok as [_ Hc Hb _].
  destruct (n_body n) as [w ch|ws ch|idx bm ch|bm ch] eqn:E.
  - destruct Hb as (keys & es & -> & A & Hl). rewrite Hl, to_from_le_bytes by apply A.
    eapply prev_spec_ext, arr_scan_prev; [|done].
    intros b. symmetry. apply find_child_arr with keys; [by rewrite E|lia].
  - destruct Hb as (keys & es & -> & A & Hl). rewrite Hl, unpack_pack16 by apply A.
    eapply prev_spec_ext, arr_scan_prev; [|done].
    intros b. symmetry. apply find_child_arr with keys; [by rewrite E|lia].
  - destruct M as (M1 & M2 & M3). eapply prev_spec_ext; [exact M2|]. by apply bitmap_scan_prev_spec.
  - destruct M as (M1 & M2 & M3). eapply prev_spec_ext; [exact M2|].
    by apply (bitmap_scan_prev_spec 256 bm (λ b, present (ch !!! b2n b))).
Qed.
End node_ok.

(** ** Updates of the large layouts *)

Section large.
Context {R : Type} `{SlotLaws R}.
Implicit Types (children : list R) (c : R) (idx bm : list Z).

Lemma idx_lookup_insert idx b v x : length idx = 256%nat →
  <[b2n b := v]> idx !!! b2n x = if decide (x = b) then v else idx !!! b2n x.
Proof.
  intros Hl. case_decide as E.
  - subst. apply list_lookup_total_insert_eq. rewrite Hl. apply b2n_lt.
  - apply list_lookup_total_insert_ne. contradict E. by apply b2n_inj.
Qed.

Lemma child_lookup_insert children b c x : length children = 256%nat →
  <[b2n b := c]> children !!! b2n x = if decide (x = b) then c else children !!! b2n x.
Proof.
  intros Hl. case_decide as E.
  - subst. apply list_lookup_total_insert_eq. rewrite Hl. apply b2n_lt.
  - apply list_lookup_total_insert_ne. contradict E. by apply b2n_inj.
Qed.

Lemma bool_decide_b2z x b : bool_decide (b2z x = b2z b) = bool_decide (x = b).
Proof. apply bool_decide_ext. split; [apply b2z_inj|congruence]. Qed.

(** A layout that is not full has a free slot, which no byte uses. *)
Lemma ok48_free count idx bm children :
  ok48 count idx bm children → (count < 48)%nat →
  ∃ slot, position is_null children = Some slot ∧ (slot < 48)%nat ∧ children !! slot = Some NULL ∧
    ∀ b, idx !!! b2n b < NODE48_EMPTY → Z.to_nat (idx !!! b2n b) ≠ slot.
Proof.
  intros Hok Hlt. destruct (position is_null children) as [slot|] eqn:E.
  - exists slot. apply position_Some in E as (x & Hx & Hn & _). apply is_null_spec in Hn as ->.
    pose proof (lookup_lt_Some _ _ _ Hx). rewrite (ok48_children _ _ _ _ Hok) in *.
    split_and!; [done..|]. intros b Hb Hs. apply (ok48_live _ _ _ _ Hok b Hb).
    rewrite Hs. by apply list_lookup_total_correct.
  - exfalso. apply position_None in E. pose proof (ok48_count _ _ _ _ Hok) as Hc.
    rewrite list_filter_all in Hc; [rewrite (ok48_children _ _ _ _ Hok) in Hc; lia|].
    apply (Forall_impl _ _ _ E). intros x. apply not_null_spec.
Qed.

Lemma ok48_slot_lt count idx bm children b :
  ok48 count idx bm children → idx !!! b2n b < NODE48_EMPTY → (Z.to_nat (idx !!! b2n b) < 48)%nat.
Proof. intros Hok Hb. pose proof (ok48_range _ _ _ _ Hok b). unfold NODE48_EMPTY in Hb. lia. Qed.

Lemma ok48_slot count idx bm children b :
  ok48 count idx bm children → idx !!! b2n b < NODE48_EMPTY →
  ∃ c, children !! Z.to_nat (idx !!! b2n b) = Some c ∧ c ≠ NULL.
Proof.
  intros Hok Hb. pose proof (ok48_slot_lt _ _ _ _ _ Hok Hb) as Hs.
  destruct (lookup_lt_is_Some_2 children (Z.to_nat (idx !!! b2n b))) as [c Hc].
  { by rewrite (ok48_children _ _ _ _ Hok). }
  exists c. split; [done|]. apply list_lookup_total_correct in Hc as <-. by apply (ok48_live _ _ _ _ Hok).
Qed.

(** Stores at the slot of one byte do not touch the others. *)
Lemma ok48_other count idx bm children b x c :
  ok48 count idx bm children → idx !!! b2n b < NODE48_EMPTY → idx !!! b2n x < NODE48_EMPTY → x ≠ b →
  <[Z.to_nat (idx !!! b2n b) := c]> children !!! Z.to_nat (idx !!! b2n x) =
  children !!! Z.to_nat (idx !!! b2n x).
Proof.
  intros Hok Hb Hx Hne. apply list_lookup_total_insert_ne. intros E.
  apply Hne, (ok48_inj _ _ _ _ Hok); [|done].
  pose proof (ok48_range _ _ _ _ Hok b). pose proof (ok48_range _ _ _ _ Hok x). lia.
Qed.

Lemma get48_live count idx bm children b c :
  ok48 count idx bm children → idx !!! b2n b < NODE48_EMPTY →
  get48 idx children b = Some c ↔ children !!! Z.to_nat (idx !!! b2n b) = c.
Proof.
  intros Hok Hb. unfold get48. rewrite (proj2 (Z.ltb_lt _ _) Hb), present_Some.
  split; [tauto|]. intros <-. split; [done|]. by apply (ok48_live _ _ _ _ Hok).
Qed.

Lemma ok48_insert count idx bm children b c slot :
  ok48 count idx bm children → NODE48_EMPTY <= idx !!! b2n b → c ≠ NULL →
  (slot < 48)%nat → children !! slot = Some NULL →
  (∀ b, idx !!! b2n b < NODE48_EMPTY → Z.to_nat (idx !!! b2n b) ≠ slot) →
  let idx' := <[b2n b := Z.of_nat slot]> idx in
  let children' := <[slot := c]> children in
  ok48 (S count) idx' (bitmap_set bm b) children' ∧
  ∀ x, get48 idx' children' x = if decide (x = b) then Some c else get48 idx children x.
Proof.
  intros Hok Hb Hc Hs Hfree Hother. cbv zeta.
  pose proof (ok48_idx _ _ _ _ Hok) as Hi. pose proof (ok48_children _ _ _ _ Hok) as Hl.
  assert (∀ x, idx !!! b2n x < NODE48_EMPTY →
    <[slot := c]> children !!! Z.to_nat (idx !!! b2n x) = children !!! Z.to_nat (idx !!! b2n x)) as Hsame.
  { intros x Hx. apply list_lookup_total_insert_ne. apply not_eq_sym, Hother, Hx. }
  assert (<[slot := c]> children !!! Z.to_nat (Z.of_nat slot) = c) as Hnew.
  { rewrite Nat2Z.id. apply list_lookup_total_insert_eq. lia. }
  unfold NODE48_EMPTY in *. split; [split|].
  - by rewrite length_insert.
  - by rewrite length_insert.
  - apply bitmap_set_ok, Hok.
  - intros x. rewrite idx_lookup_insert by done. case_decide; [lia|apply Hok].
  - intros x. rewrite idx_lookup_insert, bitmap_set_bit, bool_decide_b2z by (done || apply b2z_range || apply Hok).
    case_decide.
    + rewrite bool_decide_true by done. symmetry. apply Z.ltb_lt. unfold NODE48_EMPTY. lia.
    + rewrite bool_decide_false by done. apply Hok.
  - intros x. rewrite idx_lookup_insert by done. unfold NODE48_EMPTY. case_decide.
    + by rewrite Hnew.
    + intros Hx. rewrite Hsame by done. by apply (ok48_live _ _ _ _ Hok).
  - intros x y. rewrite !idx_lookup_insert by done. unfold NODE48_EMPTY.
    repeat case_decide; subst; [done|..].
    + intros E _. destruct (Hother y); lia.
    + intros E Hx. destruct (Hother x); lia.
    + apply (ok48_inj _ _ _ _ Hok).
  - pose proof (filter_insert_length (λ r, r ≠ NULL) children slot NULL c Hfree) as F.
    rewrite decide_False, decide_True in F by (done || by intros []).
    rewrite (ok48_count _ _ _ _ Hok) in F. lia.
  - intros x. unfold get48. rewrite idx_lookup_insert by done. case_decide.
    + rewrite Hnew, (proj2 (Z.ltb_lt _ _)) by (unfold NODE48_EMPTY; lia). by apply present_Some.
    + destruct (Z.ltb_spec (idx !!! b2n x) NODE48_EMPTY); [|done]. by rewrite Hsame.
Qed.

Lemma ok48_replace count idx bm children b c :
  ok48 count idx bm children → idx !!! b2n b < NODE48_EMPTY → c ≠ NULL →
  let children' := <[Z.to_nat (idx !!! b2n b) := c]> children in
  ok48 count idx bm children' ∧
  ∀ x, get48 idx children' x = if decide (x = b) then Some c else get48 idx children x.
Proof.
  intros Hok Hb Hc. cbv zeta. pose proof (ok48_slot_lt _ _ _ _ _ Hok Hb) as Hs.
  pose proof (ok48_children _ _ _ _ Hok) as Hl.
  assert (<[Z.to_nat (idx !!! b2n b) := c]> children !!! Z.to_nat (idx !!! b2n b) = c) as Hnew.
  { apply list_lookup_total_insert_eq. lia. }
  split; [split; try apply Hok|].
  - by rewrite length_insert.
  - intros x Hx. destruct (decide (x = b)) as [->|Hne]; [by rewrite Hnew|].
    rewrite (ok48_other _ _ _ _ _ _ _ Hok) by done. by apply (ok48_live _ _ _ _ Hok).
  - destruct (ok48_slot _ _ _ _ _ Hok Hb) as (c0 & Hc0 & Hn0).
    pose proof (filter_insert_length (λ r, r ≠ NULL) children _ c0 c Hc0) as F.
    rewrite !decide_True in F by done. rewrite (ok48_count _ _ _ _ Hok) in F. lia.
  - intros x. unfold get48. destruct (decide (x = b)) as [->|Hne].
    + rewrite (proj2 (Z.ltb_lt _ _) Hb), Hnew. by apply present_Some.
    + destruct (Z.ltb_spec (idx !!! b2n x) NODE48_EMPTY); [|done].
      by rewrite (ok48_other _ _ _ _ _ _ _ Hok).
Qed.

Lemma ok48_remove count idx bm children b :
  ok48 count idx bm children → idx !!! b2n b < NODE48_EMPTY →
  let idx' := <[b2n b := NODE48_EMPTY]> idx in
  let children' := <[Z.to_nat (idx !!! b2n b) := NULL]> children in
  (0 < count)%nat ∧ ok48 (count - 1) idx' (bitmap_clear bm b) children' ∧
  ∀ x, get48 idx' children' x = if decide (x = b) then None else get48 idx children x.
Proof.
  intros Hok Hb. cbv zeta. pose proof (ok48_slot_lt _ _ _ _ _ Hok Hb) as Hs.
  pose proof (ok48_idx _ _ _ _ Hok) as Hi. pose proof (ok48_children _ _ _ _ Hok) as Hl.
  destruct (ok48_slot _ _ _ _ _ Hok Hb) as (c0 & Hc0 & Hn0).
  pose proof (filter_insert_length (λ r, r ≠ NULL) children _ c0 NULL Hc0) as F.
  rewrite decide_True, decide_False in F by (done || by intros []).
  rewrite (ok48_count _ _ _ _ Hok) in F.
  split; [lia|]. split; [split|].
  - by rewrite length_insert.
  - by rewrite length_insert.
  - apply bitmap_clear_ok, Hok.
  - intros x. rewrite idx_lookup_insert by done. case_decide; [done|apply Hok].
  - intros x. rewrite idx_lookup_insert, bitmap_clear_bit, bool_decide_b2z by (done || apply b2z_range || apply Hok).
    case_decide; [by rewrite bool_decide_true by done|].
    rewrite bool_decide_false by done. apply Hok.
  - intros x. rewrite idx_lookup_insert by done. case_decide; [lia|].
    intros Hx. rewrite (ok48_other _ _ _ _ _ _ _ Hok) by done. by apply (ok48_live _ _ _ _ Hok).
  - intros x y. rewrite !idx_lookup_insert by done. repeat case_decide; subst; [done|lia|lia|].
    apply (ok48_inj _ _ _ _ Hok).
  - lia.
  - intros x. unfold get48. rewrite idx_lookup_insert by done. case_decide; [done|].
    destruct (Z.ltb_spec (idx !!! b2n x) NODE48_EMPTY); [|done].
    by rewrite (ok48_other _ _ _ _ _ _ _ Hok).
Qed.

(** A store of a child in the 256-way layout. *)
Lemma ok256_set bm children b c :
  ok256 bm children → c ≠ NULL →
  ok256 (bitmap_set bm b) (<[b2n b := c]> children) ∧
  ∀ x, present (<[b2n b := c]> children !!! b2n x) =
       if decide (x = b) then Some c else present (children !!! b2n x).
Proof.
  intros Hok Hc. pose proof (ok256_children _ _ Hok) as Hl. split; [split|].
  - by rewrite length_insert.
  - apply bitmap_set_ok, Hok.
  - intros x. rewrite bitmap_set_bit, bool_decide_b2z, child_lookup_insert by (done || apply b2z_range || apply Hok).
    case_decide.
    + rewrite bool_decide_true by done. by apply not_null_spec in Hc as ->.
    + rewrite bool_decide_false by done. apply Hok.
  - intros x. rewrite child_lookup_insert by done. case_decide; [by apply present_Some|done].
Qed.

Lemma ok256_clear bm children b :
  ok256 bm children →
  ok256 (bitmap_clear bm b) (<[b2n b := NULL]> children) ∧
  ∀ x, present (<[b2n b := NULL]> children !!! b2n x) =
       if decide (x = b) then None else present (children !!! b2n x).
Proof.
  intros Hok. pose proof (ok256_children _ _ Hok) as Hl. split; [split|].
  - by rewrite length_insert.
  - apply bitmap_clear_ok, Hok.
  - intros x. rewrite bitmap_clear_bit, bool_decide_b2z, child_lookup_insert by (done || apply b2z_range || apply Hok).
    case_decide.
    + rewrite bool_decide_true by done. symmetry. apply negb_false_iff. by apply is_null_spec.
    + rewrite bool_decide_false by done. apply Hok.
  - intros x. rewrite child_lookup_insert by done. case_decide; [by apply present_None|done].
Qed.

(** Replacing a present child does not change the bitmap. *)
Lemma ok256_replace bm children b c :
  ok256 bm children → c ≠ NULL → children !!! b2n b ≠ NULL → ok256 bm (<[b2n b := c]> children).
Proof.
  intros Hok Hc Hb. pose proof (ok256_children _ _ Hok) as Hl. split.
  - by rewrite length_insert.
  - apply Hok.
  - intros x. rewrite child_lookup_insert by done. case_decide; [|apply Hok].
    subst. rewrite (ok256_bit _ _ Hok). apply not_null_spec in Hb as ->. by apply not_null_spec in Hc as ->.
Qed.
End large.

(** ** Updates *)

Section updates.
Context {R : Type} `{SlotLaws R}.
Implicit Types (n : node R) (children : list R) (c : R).

Lemma as_u16_small (k : nat) : (k <= 256)%nat → as_u16 (Z.of_nat k) = Z.of_nat k.
Proof. intros. unfold as_u16. apply Z.mod_small. change (2 ^ 16) with 65536. lia. Qed.

Lemma node_type_with_children n body count :
  node_type (with_children n body count) = node_type (with_body n body).
Proof. done. Qed.

Lemma capacity_le t : (capacity t <= 256)%nat.
Proof. destruct t; cbn; lia. Qed.

(** Rebuilding a node from a body and its count. *)
Lemma with_children_ok n body count :
  prefix_ok n → body_ok body count → (count <= capacity (node_type (with_body n body)))%nat →
  count = child_count (find_child (with_children n body count)) →
  node_ok (with_children n body count).
Proof.
  intros Hp Hb Hc Hf. pose proof (capacity_le (node_type (with_body n body))).
  assert (as_u16 (Z.of_nat count) = Z.of_nat count) as E by (apply as_u16_small; lia).
  split; cbn; rewrite ?E, ?Nat2Z.id; [done| |done|done].
  split; [lia|]. apply Nat2Z.inj_le. done.
Qed.

(** The parts of a node that child updates keep. *)
Definition same_header n n' : Prop :=
  node_type n' = node_type n ∧ load_prefix n' = load_prefix n ∧ exact_leaf n' = exact_leaf n.

Lemma same_header_refl n : same_header n n.
Proof. done. Qed.

Lemma same_header_body n body count :
  node_type (with_body n body) = node_type n → same_header n (with_children n body count).
Proof. intros. by split_and!. Qed.

(** The map after an update of the sorted arrays. *)
Lemma find_arr_with n body count keys es (b : byte) :
  match body with
  | N4 w children => w = from_le_bytes keys ∧ arr_ok 4 keys children es
  | N16 ws children => ws = pack16 keys ∧ arr_ok 16 keys children es
  | _ => False
  end → count = length es →
  find_child (with_children n body count) b = es_lookup es b.
Proof.
  intros Hb ->. apply find_child_arr with keys; [done|]. cbn. apply as_u16_small.
  destruct body; [..|done|done]; destruct Hb as [_ A]; pose proof (arr_count_le _ _ _ _ A); lia.
Qed.

Lemma arr_body_cases n w ch :
  n_body n = N4 w ch → body_ok (n_body n) (Z.to_nat (h_num_children (n_header n))) →
  0 <= h_num_children (n_header n) →
  ∃ keys es, to_le_bytes 4 w = keys ∧ w = from_le_bytes keys ∧ arr_ok 4 keys ch es ∧
    Z.to_nat (h_num_children (n_header n)) = length es ∧ ∀ b, find_child n b = es_lookup es b.
Proof.
  intros E Hb Hn. rewrite E in Hb. destruct Hb as (keys & es & -> & A & Hl). exists keys, es.
  split_and!; [apply to_from_le_bytes, A|done..|]. intros b.
  apply find_child_arr with keys; [by rewrite E|lia].
Qed.

Lemma arr16_body_cases n ws ch :
  n_body n = N16 ws ch → body_ok (n_body n) (Z.to_nat (h_num_children (n_header n))) →
  0 <= h_num_children (n_header n) →
  ∃ keys es, unpack16 ws = keys ∧ ws = pack16 keys ∧ arr_ok 16 keys ch es ∧
    Z.to_nat (h_num_children (n_header n)) = length es ∧ ∀ b, find_child n b = es_lookup es b.
Proof.
  intros E Hb Hn. rewrite E in Hb. destruct Hb as (keys & es & -> & A & Hl). exists keys, es.
  split_and!; [apply unpack_pack16, A|done..|]. intros b.
  apply find_child_arr with keys; [by rewrite E|lia].
Qed.

(** A body of the sorted kind makes a good node. *)
Lemma arr_node_ok n body keys es :
  prefix_ok n →
  match body with
  | N4 w children => w = from_le_bytes keys ∧ arr_ok 4 keys children es
  | N16 ws children => ws = pack16 keys ∧ arr_ok 16 keys children es
  | _ => False
  end →
  node_ok (with_children n body (length es)) ∧
  ∀ b, find_child (with_children n body (length es)) b = es_lookup es b.
Proof.
  intros Hp Hb. assert (∀ b, find_child (with_children n body (length es)) b = es_lookup es b) as F.
  { intros b. by apply find_arr_with with keys. }
  split; [|done]. apply with_children_ok; [done| | |].
  - destruct body; cbn; [..|done|done]; destruct Hb as [-> A]; eauto 6.
  - destruct body; cbn; [..|done|done]; destruct Hb as [-> A]; by apply arr_count_le in A.
  - unfold child_count. rewrite (child_count_ext _ _ F), children_list_es; [done|].
    destruct body; [..|done|done]; destruct Hb as [_ A]; apply A.
Qed.

Lemma lookup_replicate_256 {A} `{Inhabited A} (x : A) (b : byte) : replicate 256 x !!! b2n b = x.
Proof. apply lookup_total_replicate_2, b2n_lt. Qed.

Lemma filter_replicate_null k : filter (λ r : R, r ≠ NULL) (replicate k NULL) = [].
Proof.
  induction k as [|k IH]; [done|]. cbn [replicate]. rewrite filter_cons_False; [done|]. by intros [].
Qed.

Lemma node_new_ok t : node_ok (node_new (R := R) t) ∧ (∀ b, find_child (node_new (R := R) t) b = None) ∧
  exact_leaf (node_new (R := R) t) = NULL ∧ node_type (node_new (R := R) t) = t.
Proof.
  assert (prefix_ok (node_new (R := R) t)) as Hp.
  { split; [cbn; lia|]. exists (replicate 16 Byte.x00). split; [done|reflexivity]. }
  assert (∀ b, find_child (node_new (R := R) t) b = None) as F.
  { intros b. destruct t.
    - apply (find_child_arr _ b (replicate 4 Byte.x00) []); [split; [done|apply arr_new]|done].
    - apply (find_child_arr _ b (replicate 16 Byte.x00) []); [split; [reflexivity|apply arr_new]|done].
    - unfold find_child, node_new; cbn [n_body]. by rewrite lookup_replicate_256.
    - unfold find_child, node_new; cbn [n_body]. rewrite lookup_replicate_256. by apply present_None. }
  assert (node_type (node_new (R := R) t) = t) as Ht by by destruct t.
  split_and!; [|done|done|done]. split; [done| | |].
  - rewrite Ht. destruct t; cbn; lia.
  - destruct t; cbn [body_ok n_body node_new h_num_children n_header header_new Z.to_nat].
    + exists (replicate 4 Byte.x00), []. split_and!; [done|apply arr_new|done].
    + exists (replicate 16 Byte.x00), []. split_and!; [reflexivity|apply arr_new|done].
    + split; [done|done|apply bitmap_new_ok| | | | |].
      * intros b. by rewrite lookup_replicate_256.
      * intros b. rewrite lookup_replicate_256. apply bitmap_new_bit, b2z_range.
      * intros b. by rewrite lookup_replicate_256.
      * intros b b'. by rewrite lookup_replicate_256.
      * by rewrite filter_replicate_null.
    + split; [done|apply bitmap_new_ok|]. intros b.
      rewrite bitmap_new_bit by apply b2z_range.
      rewrite lookup_replicate_256. symmetry. apply negb_false_iff. by apply is_null_spec.
  - symmetry. by apply child_count_0.
Qed.

(** A large body makes a good node. *)
Lemma large_node_ok n body count g :
  prefix_ok n →
  match body with
  | N48 idx bm children => ok48 count idx bm children ∧ (∀ b, get48 idx children b = g b)
  | N256 bm children => ok256 bm children ∧ (∀ b, present (children !!! b2n b) = g b)
  | _ => False
  end →
  (count <= capacity (node_type (with_body n body)))%nat → count = child_count g →
  node_ok (with_children n body count) ∧ ∀ b, find_child (with_children n body count) b = g b.
Proof.
  intros Hp Hb Hc Hg.
  assert (∀ b, find_child (with_children n body count) b = g b) as F.
  { intros b. destruct body; [done|done| |]; destruct Hb as [Hok Hget].
    - rewrite (find_child_48 _ child_indices child_bitmap children) by done. apply Hget.
    - apply Hget. }
  split; [|done]. apply with_children_ok; [done| |done|].
  - destruct body; cbn; [done|done|apply Hb|apply Hb].
  - rewrite (child_count_same g _ F). done.
Qed.

Lemma body_48 n idx bm ch : node_ok n → n_body n = N48 idx bm ch →
  ok48 (num_children n) idx bm ch ∧ ∀ b, find_child n b = get48 idx ch b.
Proof.
  intros Hok E. rewrite num_children_count by done. split.
  - pose proof (no_body _ Hok) as Hb. by rewrite E in Hb.
  - intros b. by apply find_child_48 with bm.
Qed.

Lemma body_256 n bm ch : node_ok n → n_body n = N256 bm ch →
  ok256 bm ch ∧ ∀ b, find_child n b = present (ch !!! b2n b).
Proof.
  intros Hok E. split.
  - pose proof (no_body _ Hok) as Hb. by rewrite E in Hb.
  - intros b. unfold find_child. by rewrite E.
Qed.

(** The count after an update at one byte. *)
Lemma count_insert n b c : node_ok n → find_child n b = None →
  (num_children n + 1)%nat = child_count (λ x, if decide (x = b) then Some c else find_child n x).
Proof.
  intros Hok Hb. rewrite (proj1 (num_children_spec n Hok)). symmetry. rewrite Nat.add_1_r.
  apply (child_count_insert _ _ b c); [done|by rewrite decide_True|].
  intros x Hx. by rewrite decide_False.
Qed.

Lemma count_replace n b c0 c : node_ok n → find_child n b = Some c0 →
  num_children n = child_count (λ x, if decide (x = b) then Some c else find_child n x).
Proof.
  intros Hok Hb. rewrite (proj1 (num_children_spec n Hok)). symmetry.
  apply (child_count_replace _ _ b c0 c); [done|by rewrite decide_True|].
  intros x Hx. by rewrite decide_False.
Qed.

Lemma count_remove n b c : node_ok n → find_child n b = Some c →
  (num_children n - 1)%nat = child_count (λ x, if decide (x = b) then None else find_child n x) ∧
  (0 < num_children n)%nat.
Proof.
  intros Hok Hb. rewrite (proj1 (num_children_spec n Hok)).
  rewrite (child_count_insert (λ x, if decide (x = b) then None else find_child n x) (find_child n) b c);
    [lia|by rewrite decide_True|done|]. intros x Hx. by rewrite decide_False.
Qed.

(** A child is never null. *)
Lemma find_child_not_null n b c : find_child n b = Some c → c ≠ NULL.
Proof.
  assert (∀ r, present r = Some c → c ≠ NULL) as P by by intros r [_ ?]%present_Some.
  unfold find_child. destruct (n_body n) as [w ch|ws ch|idx bm ch|bm ch].
  - destruct (position _ _); cbn; [apply P|done].
  - destruct (node16_search _ _ _); cbn; [apply P|done].
  - destruct (_ <=? _); [done|apply P].
  - apply P.
Qed.

(** [insert_child] for an absent byte of a node with room. *)
Lemma insert_child_spec n b c :
  node_ok n → find_child n b = None → c ≠ NULL → (num_children n < capacity (node_type n))%nat →
  ∃ n', insert_child_raw n b c = Some n' ∧ node_ok n' ∧ same_header n n' ∧
    ∀ x, find_child n' x = if decide (x = b) then Some c else find_child n x.
Proof.
  intros Hok Hb Hc Hroom. pose proof Hok as [Hp Hr Hbody _].
  pose proof (count_insert n b c Hok Hb) as Hcount.
  pose proof (num_children_count n Hok) as Hnum.
  unfold insert_child_raw. unfold node_type in Hroom.
  destruct (n_body n) as [w ch|ws ch|idx bm ch|bm ch] eqn:E; cbn [capacity] in Hroom;
    rewrite ?decide_True by done.
  - rewrite <- E in Hbody. destruct (arr_body_cases n w ch E Hbody ltac:(lia)) as (keys & es & -> & _ & A & Hl & F).
    rewrite Hnum, Hl in *.
    destruct (arr_insert_ok _ _ _ _ b c A Hroom) as (keys' & ch' & es1 & es2 & -> & -> & A').
    { apply es_lookup_None. by rewrite <- F. } { done. }
    replace (length (es1 ++ es2) + 1)%nat with (length (es1 ++ (b, c) :: es2))
      by (rewrite !length_app; cbn; lia).
    eexists. split; [done|].
    destruct (arr_node_ok n (N4 (from_le_bytes keys') ch') keys' (es1 ++ (b, c) :: es2) Hp ltac:(done)) as [Ho F'].
    split_and!; [done| |]; [apply same_header_body; unfold node_type; by rewrite E|].
    intros x. rewrite F', F. apply es_lookup_update, A'.
  - rewrite <- E in Hbody. destruct (arr16_body_cases n ws ch E Hbody ltac:(lia)) as (keys & es & -> & _ & A & Hl & F).
    rewrite Hnum, Hl in *.
    destruct (arr_insert_ok _ _ _ _ b c A Hroom) as (keys' & ch' & es1 & es2 & -> & -> & A').
    { apply es_lookup_None. by rewrite <- F. } { done. }
    replace (length (es1 ++ es2) + 1)%nat with (length (es1 ++ (b, c) :: es2))
      by (rewrite !length_app; cbn; lia).
    eexists. split; [done|].
    destruct (arr_node_ok n (N16 (pack16 keys') ch') keys' (es1 ++ (b, c) :: es2) Hp ltac:(done)) as [Ho F'].
    split_and!; [done| |]; [apply same_header_body; unfold node_type; by rewrite E|].
    intros x. rewrite F', F. apply es_lookup_update, A'.
  - destruct (body_48 n idx bm ch Hok E) as [Ok F].
    destruct (ok48_free _ _ _ _ Ok Hroom) as (slot & -> & Hs & Hfree & Hother). cbn.
    assert (NODE48_EMPTY <= idx !!! b2n b) as Hempty
      by (apply (get48_None _ _ _ _ b Ok); by rewrite <- F).
    destruct (ok48_insert _ _ _ _ b c slot Ok Hempty Hc Hs Hfree Hother) as [Ok' G].
    eexists. split; [done|].
    edestruct (large_node_ok n (N48 (<[b2n b := Z.of_nat slot]> idx) (bitmap_set bm b) (<[slot := c]> ch))
      (num_children n + 1) (λ x, if decide (x = b) then Some c else find_child n x) Hp) as [Ho F'].
    + rewrite Nat.add_1_r. split; [done|]. intros x. rewrite G. case_decide; [done|]. by rewrite F.
    + cbn. lia.
    + done.
    + split_and!; [done| |done]. apply same_header_body. unfold node_type. by rewrite E.
  - destruct (body_256 n bm ch Hok E) as [Ok F].
    destruct (ok256_set _ _ b c Ok Hc) as [Ok' G].
    eexists. split; [done|].
    edestruct (large_node_ok n (N256 (bitmap_set bm b) (<[b2n b := c]> ch))
      (num_children n + 1) (λ x, if decide (x = b) then Some c else find_child n x) Hp) as [Ho F'].
    + split; [done|]. intros x. rewrite G. case_decide; [done|]. by rewrite F.
    + cbn. lia.
    + done.
    + split_and!; [done| |done]. apply same_header_body. unfold node_type. by rewrite E.
Qed.

Lemma with_body_children n body :
  node_ok n → with_body n body = with_children n body (num_children n).
Proof.
  intros Hok. pose proof (no_count_range _ Hok). pose proof (capacity_le (node_type n)).
  rewrite num_children_count by done. unfold with_body, with_children.
  rewrite as_u16_small by lia. rewrite Z2Nat.id by lia. by destruct (n_header n).
Qed.

Definition replaced n n' b c : Prop :=
  node_ok n' ∧ same_header n n' ∧
  (∀ x, find_child n' x = if decide (x = b) then Some c else find_child n x) ∧
  num_children n' = num_children n.

Lemma replaced_intro n n' b c0 c :
  node_ok n → find_child n b = Some c0 → node_ok n' → same_header n n' →
  (∀ x, find_child n' x = if decide (x = b) then Some c else find_child n x) → replaced n n' b c.
Proof.
  intros Hok Hb Hok' Hh F. split_and!; [done..|].
  rewrite (proj1 (num_children_spec n Hok)), (proj1 (num_children_spec n' Hok')).
  apply (child_count_replace _ _ b c0 c); [done|by rewrite F, decide_True|].
  intros x Hx. by rewrite F, decide_False.
Qed.

(** A store in the sorted arrays. *)
Lemma arr_replaced n body keys es1 es2 b c0 c :
  node_ok n → (∀ x, find_child n x = es_lookup (es1 ++ (b, c0) :: es2) x) →
  num_children n = length (es1 ++ (b, c0) :: es2) → es_sorted (es1 ++ (b, c0) :: es2) →
  match body with
  | N4 w children => w = from_le_bytes keys ∧ arr_ok 4 keys children (es1 ++ (b, c) :: es2)
  | N16 ws children => ws = pack16 keys ∧ arr_ok 16 keys children (es1 ++ (b, c) :: es2)
  | _ => False
  end → node_type (with_body n body) = node_type n →
  replaced n (with_body n body) b c.
Proof.
  intros Hok F Hn Hs Hb Ht.
  assert (es_sorted (es1 ++ (b, c) :: es2)) as Hs' by (apply es_sorted_app; by apply es_sorted_app in Hs).
  assert (find_child n b = Some c0) as Hb0.
  { rewrite F. apply es_lookup_Some; [done|]. set_solver. }
  rewrite with_body_children, Hn by done.
  replace (length (es1 ++ (b, c0) :: es2)) with (length (es1 ++ (b, c) :: es2)) by by rewrite !length_app.
  destruct (arr_node_ok n body keys _ (no_prefix _ Hok) Hb) as [Ho F'].
  apply replaced_intro with c0; [done|done|done|by apply same_header_body|].
  intros x. rewrite F', (proj1 (es_lookup_update _ _ _ _ x Hs')). case_decide; [done|].
  by rewrite F, (proj1 (es_lookup_update _ _ _ _ x Hs)), decide_False.
Qed.

Lemma arr_position_found cap keys children es b n c0 :
  arr_ok cap keys children es → (∀ x, find_child n x = es_lookup es x) → find_child n b = Some c0 →
  ∃ i, position (λ k, bool_decide (k = b)) (take (length es) keys) = Some i ∧ es !! i = Some (b, c0).
Proof.
  intros A F Hb. pose proof (arr_position _ _ _ _ b A) as P. rewrite F in Hb.
  destruct (position _ _) as [i|].
  - destruct P as [c1 Hi]. exists i. split; [done|].
    assert (es_lookup es b = Some c1) as Hb'.
    { apply es_lookup_Some; [apply A|]. by eapply list_elem_of_lookup_2. }
    congruence.
  - apply es_lookup_None in P. congruence.
Qed.

(** [replace_child] for a present byte. *)
Lemma replace_child_spec n b c0 c :
  node_ok n → find_child n b = Some c0 → c ≠ NULL →
  ∃ n', replace_child n b c = Some n' ∧ replaced n n' b c.
Proof.
  intros Hok Hb Hc. pose proof Hok as [Hp Hr Hbody _].
  pose proof (num_children_count n Hok) as Hnum.
  unfold replace_child.
  destruct (n_body n) as [w ch|ws ch|idx bm ch|bm ch] eqn:E.
  - rewrite <- E in Hbody. destruct (arr_body_cases n w ch E Hbody ltac:(lia)) as (keys & es & -> & Ew & A & Hl & F).
    rewrite Hl in Hnum. rewrite Hnum.
    destruct (arr_position_found _ _ _ _ b n c0 A F Hb) as (i & -> & Hi). cbn.
    destruct (arr_replace_ok _ _ _ _ i b c0 c A Hi Hc) as (es1 & es2 & -> & A').
    eexists. split; [done|]. eapply arr_replaced; [done|done|done|apply A|split; [done|exact A']|].
    unfold node_type. by rewrite E.
  - rewrite <- E in Hbody. destruct (arr16_body_cases n ws ch E Hbody ltac:(lia)) as (keys & es & -> & Ew & A & Hl & F).
    rewrite Hl in Hnum. rewrite Hnum.
    destruct (arr_position_found _ _ _ _ b n c0 A F Hb) as (i & -> & Hi). cbn.
    destruct (arr_replace_ok _ _ _ _ i b c0 c A Hi Hc) as (es1 & es2 & -> & A').
    eexists. split; [done|]. eapply arr_replaced; [done|done|done|apply A|split; [done|exact A']|].
    unfold node_type. by rewrite E.
  - destruct (body_48 n idx bm ch Hok E) as [Ok F].
    assert (idx !!! b2n b < NODE48_EMPTY) as Hlive.
    { apply Z.nle_gt. intros X. apply (get48_None _ _ _ _ b Ok) in X. rewrite <- F in X. congruence. }
    rewrite (proj2 (Z.ltb_lt _ _) Hlive).
    destruct (ok48_replace _ _ _ _ b c Ok Hlive Hc) as [Ok' G].
    eexists. split; [done|]. rewrite with_body_children by done.
    edestruct (large_node_ok n (N48 idx bm (<[Z.to_nat (idx !!! b2n b) := c]> ch))
      (num_children n) (λ x, if decide (x = b) then Some c else find_child n x) Hp) as [Ho F'].
    + split; [done|]. intros x. rewrite G. case_decide; [done|]. by rewrite F.
    + rewrite Hnum. unfold node_type in *. rewrite E in Hr. cbn in *. lia.
    + by apply count_replace with c0.
    + apply replaced_intro with c0; [done..| |done]. apply same_header_body. unfold node_type. by rewrite E.
  - destruct (body_256 n bm ch Hok E) as [Ok F].
    assert (ch !!! b2n b ≠ NULL) as Hlive.
    { rewrite F in Hb. apply present_Some in Hb as [-> ?]. done. }
    pose proof (ok256_replace _ _ b c Ok Hc Hlive) as Ok'.
    eexists. split; [done|]. rewrite with_body_children by done.
    edestruct (large_node_ok n (N256 bm (<[b2n b := c]> ch))
      (num_children n) (λ x, if decide (x = b) then Some c else find_child n x) Hp) as [Ho F'].
    + split; [done|]. intros x. rewrite child_lookup_insert by apply Ok.
      case_decide; [by apply present_Some|]. by rewrite F.
    + rewrite Hnum. unfold node_type in *. rewrite E in Hr. cbn in *. lia.
    + by apply count_replace with c0.
    + apply replaced_intro with c0; [done..| |done]. apply same_header_body. unfold node_type. by rewrite E.
Qed.

(** What [remove_child] leaves. *)
Definition removed n n' b : Prop :=
  node_ok n' ∧ same_header n n' ∧
  (∀ x, find_child n' x = if decide (x = b) then None else find_child n x).

(** A removal from the sorted arrays. *)
Lemma arr_removed n body keys es1 es2 b c0 :
  node_ok n → (∀ x, find_child n x = es_lookup (es1 ++ (b, c0) :: es2) x) →
  num_children n = length (es1 ++ (b, c0) :: es2) → es_sorted (es1 ++ (b, c0) :: es2) →
  match body with
  | N4 w children => w = from_le_bytes keys ∧ arr_ok 4 keys children (es1 ++ es2)
  | N16 ws children => ws = pack16 keys ∧ arr_ok 16 keys children (es1 ++ es2)
  | _ => False
  end → node_type (with_body n body) = node_type n →
  removed n (with_children n body (num_children n - 1)) b.
Proof.
  intros Hok F Hn Hs Hb Ht. rewrite Hn, !length_app; cbn [length].
  replace (length es1 + S (length es2) - 1)%nat with (length (es1 ++ es2)) by (rewrite length_app; lia).
  destruct (arr_node_ok n body keys _ (no_prefix _ Hok) Hb) as [Ho F'].
  split_and!; [done|by apply same_header_body|]. intros x. rewrite F'.
  destruct (es_lookup_update es1 es2 b c0 x Hs) as [Hx Hnone]. case_decide as D.
  - by subst.
  - by rewrite F, Hx.
Qed.

(** [remove_child] for a present byte. *)
Lemma remove_child_spec n b c0 :
  node_ok n → find_child n b = Some c0 → removed n (remove_child n b) b.
Proof.
  intros Hok Hb. pose proof Hok as [Hp Hr Hbody _].
  pose proof (num_children_count n Hok) as Hnum.
  destruct (count_remove n b c0 Hok Hb) as [Hcount Hpos].
  unfold remove_child.
  destruct (n_body n) as [w ch|ws ch|idx bm ch|bm ch] eqn:E.
  - rewrite <- E in Hbody. destruct (arr_body_cases n w ch E Hbody ltac:(lia)) as (keys & es & -> & Ew & A & Hl & F).
    pose proof Hnum as Hnum'. rewrite Hl in Hnum'. rewrite Hnum' at 1.
    destruct (arr_position_found _ _ _ _ b n c0 A F Hb) as (i & -> & Hi). rewrite Hnum' at 1.
    destruct (arr_remove_ok _ _ _ _ i b c0 A Hi) as (keys' & ch' & es1 & es2 & -> & -> & A').
    eapply arr_removed; [done|done|done|apply A|split; [done|exact A']|].
    unfold node_type. by rewrite E.
  - rewrite <- E in Hbody. destruct (arr16_body_cases n ws ch E Hbody ltac:(lia)) as (keys & es & -> & Ew & A & Hl & F).
    pose proof Hnum as Hnum'. rewrite Hl in Hnum'. rewrite Hnum' at 1.
    destruct (arr_position_found _ _ _ _ b n c0 A F Hb) as (i & -> & Hi). rewrite Hnum' at 1.
    destruct (arr_remove_ok _ _ _ _ i b c0 A Hi) as (keys' & ch' & es1 & es2 & -> & -> & A').
    eapply arr_removed; [done|done|done|apply A|split; [done|exact A']|].
    unfold node_type. by rewrite E.
  - destruct (body_48 n idx bm ch Hok E) as [Ok F].
    assert (idx !!! b2n b < NODE48_EMPTY) as Hlive.
    { apply Z.nle_gt. intros X. apply (get48_None _ _ _ _ b Ok) in X. rewrite <- F in X. congruence. }
    rewrite (proj2 (Z.leb_gt _ _) Hlive).
    destruct (ok48_remove _ _ _ _ b Ok Hlive) as (_ & Ok' & G).
    edestruct (large_node_ok n (N48 (<[b2n b := NODE48_EMPTY]> idx) (bitmap_clear bm b)
        (<[Z.to_nat (idx !!! b2n b) := NULL]> ch))
      (num_children n - 1) (λ x, if decide (x = b) then None else find_child n x) Hp) as [Ho F'].
    + split; [done|]. intros x. rewrite G. case_decide; [done|]. by rewrite F.
    + rewrite Hnum. unfold node_type in *. rewrite E in Hr. cbn in *. lia.
    + done.
    + split_and!; [done| |done]. apply same_header_body. unfold node_type. by rewrite E.
  - destruct (body_256 n bm ch Hok E) as [Ok F].
    assert (is_null (ch !!! b2n b) = false) as ->.
    { rewrite F in Hb. apply present_Some in Hb as [-> ?]. by apply not_null_spec. }
    destruct (ok256_clear _ _ b Ok) as [Ok' G].
    edestruct (large_node_ok n (N256 (bitmap_clear bm b) (<[b2n b := NULL]> ch))
      (num_children n - 1) (λ x, if decide (x = b) then None else find_child n x) Hp) as [Ho F'].
    + split; [done|]. intros x. rewrite G. case_decide; [done|]. by rewrite F.
    + rewrite Hnum. unfold node_type in *. rewrite E in Hr. cbn in *. lia.
    + done.
    + split_and!; [done| |done]. apply same_header_body. unfold node_type. by rewrite E.
Qed.

(** [remove_child] for an absent byte does nothing. *)
Lemma remove_child_absent n b : node_ok n → find_child n b = None → remove_child n b = n.
Proof.
  intros Hok Hb. pose proof Hok as [Hp Hr Hbody _].
  pose proof (num_children_count n Hok) as Hnum. unfold remove_child.
  destruct (n_body n) as [w ch|ws ch|idx bm ch|bm ch] eqn:E.
  - rewrite <- E in Hbody. destruct (arr_body_cases n w ch E Hbody ltac:(lia)) as (keys & es & -> & Ew & A & Hl & F).
    rewrite Hnum, Hl. pose proof (arr_position _ _ _ _ b A) as P.
    destruct (position _ _) as [i|]; [|done]. destruct P as [c1 Hi].
    rewrite F, es_lookup_None in Hb. destruct (Hb c1). by eapply list_elem_of_lookup_2.
  - rewrite <- E in Hbody. destruct (arr16_body_cases n ws ch E Hbody ltac:(lia)) as (keys & es & -> & Ew & A & Hl & F).
    rewrite Hnum, Hl. pose proof (arr_position _ _ _ _ b A) as P.
    destruct (position _ _) as [i|]; [|done]. destruct P as [c1 Hi].
    rewrite F, es_lookup_None in Hb. destruct (Hb c1). by eapply list_elem_of_lookup_2.
  - destruct (body_48 n idx bm ch Hok E) as [Ok F]. rewrite F in Hb.
    apply (get48_None _ _ _ _ b Ok) in Hb. by rewrite (proj2 (Z.leb_le _ _) Hb).
  - destruct (body_256 n bm ch Hok E) as [Ok F]. rewrite F in Hb.
    apply present_None in Hb as ->. by rewrite (proj2 (is_null_spec (R := R) NULL) eq_refl).
Qed.
End updates.
