(* ===== verification/NodeOps.v ===== *)
(** * Header, iteration and copies of nodes

    The specifications of the node operations that are built from the others:
    the prefix and exact leaf of the header, [for_each_child], the entry
    counts a remove looks at ([emptied_by], [rest]) and the copy into another
    layout ([copy_into]). *)

From S2P Require Import Prelude Bytes Slot Bits Node NodeSpec.
Local Open Scope Z_scope.

Section header.
Context {R : Type} `{SlotLaws R}.
Implicit Types (n : node R) (r : R).

Lemma load_prefix_ok n : node_ok n → snapshot_ok (load_prefix n).
Proof.
  intros [[Hl (bytes & Hb & E)] _ _ _]. unfold load_prefix, snapshot_ok.
  case_decide; cbn [ps_len ps_bytes].
  - rewrite length_replicate. split; [lia|done].
  - split; [unfold prefix_len; lia|]. rewrite E, unpack_pack16 by done. done.
Qed.

Lemma prefix_len_slice n : node_ok n → length (as_slice (load_prefix n)) = prefix_len n.
Proof.
  intros Hok. rewrite as_slice_length by by apply load_prefix_ok.
  unfold load_prefix. by case_decide as E.
Qed.

Lemma raw_prefix_len_spec n : node_ok n → raw_prefix_len n = Z.of_nat (prefix_len n).
Proof. intros [[Hl _] _ _ _]. unfold raw_prefix_len, prefix_len. lia. Qed.

Lemma prefix_len_max n : node_ok n → (prefix_len n <= MAX_PREFIX_LEN)%nat.
Proof. intros [[Hl _] _ _ _]. unfold prefix_len. lia. Qed.

(** A change of the header that keeps the children. *)
Lemma set_header_ok n h :
  node_ok n → h_num_children h = h_num_children (n_header n) → prefix_ok (set_header n h) →
  node_ok (set_header n h) ∧ node_type (set_header n h) = node_type n ∧
  ∀ x, find_child (set_header n h) x = find_child n x.
Proof.
  intros [_ Hr Hb Hc] Hh Hp.
  assert (∀ x, find_child (set_header n h) x = find_child n x) as F.
  { intros x. unfold find_child, num_children_max. cbn [n_body n_header set_header].
    by rewrite Hh. }
  split_and!; [|done|done]. split; [done| | |]; cbn [n_body n_header set_header]; rewrite Hh; [done..|].
  rewrite Hc. symmetry. by apply child_count_same.
Qed.

Lemma write_prefix_ok n p : node_ok n →
  node_ok (write_prefix n p) ∧ node_type (write_prefix n p) = node_type n ∧
  exact_leaf (write_prefix n p) = exact_leaf n ∧
  ∀ x, find_child (write_prefix n p) x = find_child n x.
Proof.
  intros Hok. unfold write_prefix.
  set (len := (length p `min` MAX_PREFIX_LEN)%nat). unfold MAX_PREFIX_LEN in *.
  match goal with |- context [set_header n ?h] => destruct (set_header_ok n h Hok) as (H1 & H2 & H3) end.
  { done. }
  { split; cbn [h_prefix_len h_prefix n_header set_header].
    - rewrite as_u16_small by lia. unfold MAX_PREFIX_LEN. lia.
    - eexists. split; [|done]. rewrite length_app, length_take, length_replicate. unfold MAX_PREFIX_LEN. lia. }
  by split_and!.
Qed.

(** What is written is what readers load. *)
Lemma load_write_prefix n p : (length p <= MAX_PREFIX_LEN)%nat →
  as_slice (load_prefix (write_prefix n p)) = p.
Proof.
  intros Hp. unfold load_prefix, prefix_len, write_prefix, set_header; cbn [n_header h_prefix_len h_prefix].
  rewrite Nat.min_l by done. rewrite as_u16_small by (unfold MAX_PREFIX_LEN in *; lia).
  rewrite Z.min_l, Nat2Z.id by lia. case_decide as E; unfold as_slice; cbn [ps_len ps_bytes].
  - by apply length_zero_iff_nil in E.
  - rewrite unpack_pack16.
    + by rewrite take_ge with (l := p), take_app_length by lia.
    + rewrite length_app, length_take, length_replicate. unfold MAX_PREFIX_LEN in *. lia.
Qed.

Lemma set_exact_leaf_ok n r : node_ok n →
  node_ok (set_exact_leaf n r) ∧ node_type (set_exact_leaf n r) = node_type n ∧
  load_prefix (set_exact_leaf n r) = load_prefix n ∧ exact_leaf (set_exact_leaf n r) = r ∧
  ∀ x, find_child (set_exact_leaf n r) x = find_child n x.
Proof.
  intros Hok. unfold set_exact_leaf.
  match goal with |- context [set_header n ?h] => destruct (set_header_ok n h Hok) as (H1 & H2 & H3) end;
    [done|apply Hok|]. by split_and!.
Qed.

Lemma node_new_prefix t : as_slice (load_prefix (node_new (R := R) t)) = [].
Proof. done. Qed.
End header.

(** ** Iteration *)

Section iteration.
Context {R : Type} `{SlotLaws R}.
Implicit Types (n : node R) (r : R).

Lemma for_each_from_spec fuel n from :
  node_ok n → 0 <= from → 256 - from < Z.of_nat fuel →
  es_sorted (for_each_from fuel n from) ∧
  ∀ b c, (b, c) ∈ for_each_from fuel n from ↔ from <= b2z b ∧ find_child n b = Some c.
Proof.
  intros Hok. revert from. induction fuel as [|fuel IH]; intros from Hf Hfuel; cbn [for_each_from].
  { split; [constructor|]. intros b c. rewrite elem_of_nil. pose proof (b2z_range b). lia. }
  pose proof (next_child_spec n from Hok Hf) as P.
  destruct (next_child n from) as [[b c]|]; cbn in P.
  - destruct P as (Hle & Hb & Hskip). pose proof (b2z_range b).
    destruct (IH (b2z b + 1)) as [Hs Hin]; [lia..|]. split.
    + apply (es_sorted_app []). split_and!; [done|by intros x ?%elem_of_nil|].
      intros [x cx] Hx%Hin. cbn. lia.
    + intros x cx. rewrite elem_of_cons, Hin. split.
      * intros [[= -> ->]|[? ?]]; [done|]. split; [lia|done].
      * intros [Hx Hcx]. destruct (decide (x = b)) as [->|Hne]; [left; congruence|].
        right. split; [|done]. apply Z.le_succ_l, Z.nle_gt. intros Hxb.
        rewrite Hskip in Hcx; [done|]. split; [done|].
        assert (b2z x ≠ b2z b) by (intros E; by apply Hne, b2z_inj). lia.
  - split; [constructor|]. intros b c. rewrite elem_of_nil. split; [done|].
    intros [Hx Hb]. by rewrite P in Hb.
Qed.

(** [for_each_child] visits exactly the children, in key order. *)
Lemma for_each_child_list n : node_ok n → for_each_child n = children_list (find_child n).
Proof.
  intros Hok. destruct (for_each_from_spec 257 n 0 Hok) as [Hs Hin]; [lia..|].
  apply es_sorted_ext; [done|apply children_list_sorted|]. intros [b c].
  unfold for_each_child. rewrite Hin, elem_of_children_list. pose proof (b2z_range b). naive_solver.
Qed.

Lemma for_each_from_0 n : node_ok n → for_each_from 257 n 0 = children_list (find_child n).
Proof. exact (for_each_child_list n). Qed.

(** The children besides the taken entry. *)
Definition others n (taken : Taken) (x : byte) : option R :=
  if decide (taken = Child x) then None else find_child n x.

Definition taken_in n (taken : Taken) : Prop :=
  match taken with Child b => find_child n b ≠ None | _ => True end.

Lemma others_count n taken : node_ok n → taken_in n taken →
  child_count (others n taken) = (num_children n - taken_child taken)%nat ∧
  (taken_child taken <= num_children n)%nat.
Proof.
  intros Hok Ht. destruct taken as [|b|]; cbn [taken_child].
  1, 3: rewrite (proj1 (num_children_spec n Hok)); split; [|lia];
    rewrite (child_count_same (find_child n) (others n _)) by done; lia.
  cbn in Ht. destruct (find_child n b) as [c|] eqn:Hb; [|done].
  destruct (count_remove n b c Hok Hb) as [E ?]. split; [|lia]. rewrite E. apply child_count_same.
  intros x. unfold others. repeat case_decide; congruence.
Qed.

Definition entries_left n taken : nat := (child_count (others n taken) + Nat.b2n (has_exact n taken))%nat.

Lemma entries_left_eq n taken : node_ok n → taken_in n taken →
  (num_children n + Nat.b2n (has_exact n taken) - taken_child taken)%nat = entries_left n taken.
Proof. intros Hok Ht. destruct (others_count n taken Hok Ht) as [E ?]. unfold entries_left. lia. Qed.

Lemma has_exact_spec n taken : has_exact n taken = true ↔ exact_leaf n ≠ NULL ∧ taken ≠ Exact.
Proof.
  unfold has_exact. rewrite andb_true_iff, !negb_true_iff, not_null_spec, bool_decide_eq_false. done.
Qed.

Lemma emptied_by_spec n taken : node_ok n → taken_in n taken →
  emptied_by n taken = true ↔
  (∀ x, find_child n x ≠ None → taken = Child x) ∧ (exact_leaf n ≠ NULL → taken = Exact).
Proof.
  intros Hok Ht. unfold emptied_by. rewrite bool_decide_eq_true, entries_left_eq by done.
  unfold entries_left. split.
  - intros E. split.
    + intros x Hx. assert (child_count (others n taken) = 0%nat) as E0 by lia.
      apply (proj1 (child_count_0 _)) with (b := x) in E0. unfold others in E0.
      case_decide; done.
    + intros Hx. destruct (decide (taken = Exact)) as [|Hne]; [done|].
      assert (has_exact n taken = true) as Hxt by by apply has_exact_spec.
      rewrite Hxt in E. cbn in E. lia.
  - intros [Hc He]. assert (child_count (others n taken) = 0%nat) as ->.
    { apply child_count_0. intros x. unfold others. case_decide as D; [done|].
      destruct (find_child n x) eqn:Ex; [|done]. exfalso. apply D, Hc. by rewrite Ex. }
    destruct (has_exact n taken) eqn:Hx; [|done]. apply has_exact_spec in Hx as [Hx1 Hx2].
    by destruct (Hx2 (He Hx1)).
Qed.

(** The scan of [rest] over the list of children. *)
Fixpoint rest_list (taken : Taken) (es : list (byte * R)) (rest : Rest R) : Rest R :=
  match es with
  | [] => rest
  | (b, c) :: es =>
    if decide (taken = Child b) then rest_list taken es rest
    else match rest with
         | RestEmpty => rest_list taken es (if is_leaf c then RestLeaf c else RestInner b c)
         | _ => RestMany
         end
  end.

Lemma rest_loop_list fuel n taken from (r : Rest R) :
  rest_loop fuel n taken from r = rest_list taken (for_each_from fuel n from) r.
Proof.
  revert from r. induction fuel as [|fuel IH]; intros from r; cbn; [done|].
  destruct (next_child n from) as [[b c]|]; cbn; [|done]. rewrite !IH. by repeat case_match.
Qed.

Lemma rest_list_filter taken es (r : Rest R) :
  rest_list taken es r =
  match r, filter (λ e, taken ≠ Child e.1) es with
  | _, [] => r
  | RestEmpty, [(b, c)] => if is_leaf c then RestLeaf c else RestInner b c
  | _, _ => RestMany
  end.
Proof.
  revert r. induction es as [|[b c] es IH]; intros r; cbn [rest_list].
  { rewrite filter_nil. by destruct r. }
  case_decide as D.
  - rewrite IH, filter_cons_False; [done|]. cbn. by intros [].
  - rewrite filter_cons_True by done. destruct r; try done.
    rewrite IH. destruct (filter _ es) as [|[] [|]]; by destruct (is_leaf c).
Qed.

Lemma others_list n taken :
  children_list (others n taken) = filter (λ e, taken ≠ Child e.1) (children_list (find_child n)).
Proof.
  unfold children_list. induction all_bytes as [|b l IH]; [done|]. cbn.
  assert (others n taken b = if decide (taken = Child b) then None else find_child n b) as -> by done.
  case_decide as D; destruct (find_child n b) as [c|]; cbn.
  - rewrite decide_False by tauto. done.
  - done.
  - rewrite decide_True by done. by f_equal.
  - done.
Qed.

Lemma child_count_length (f : byte → option R) : child_count f = length (children_list f).
Proof. reflexivity. Qed.

(** Never compute the 256-entry lists while comparing terms. *)
#[local] Opaque all_bytes children_list child_count.

(** [rest] finds the entry that is left, if it is the only one. *)
Lemma rest_spec n taken : node_ok n → taken_in n taken →
  match rest n taken with
  | RestEmpty => (∀ x, others n taken x = None) ∧ has_exact n taken = false
  | RestLeaf r =>
    (has_exact n taken = true ∧ r = exact_leaf n ∧ ∀ x, others n taken x = None) ∨
    (has_exact n taken = false ∧ is_leaf r = true ∧
     ∃ b, ∀ x, others n taken x = if decide (x = b) then Some r else None)
  | RestInner b r =>
    has_exact n taken = false ∧ is_leaf r = false ∧
    ∀ x, others n taken x = if decide (x = b) then Some r else None
  | RestMany => (2 <= entries_left n taken)%nat
  end.
Proof.
  intros Hok Ht. unfold rest. rewrite entries_left_eq by done. case_decide as D; [done|].
  rewrite rest_loop_list, rest_list_filter.
  rewrite for_each_from_0, <- others_list by done. unfold entries_left in D.
  rewrite child_count_length in D.
  assert (∀ x c, others n taken x = Some c ↔ (x, c) ∈ children_list (others n taken)) as Hin.
  { intros x c. by rewrite elem_of_children_list. }
  destruct (children_list (others n taken)) as [|[b c] [|? ?]] eqn:E; cbn [length] in D; [| |lia].
  - assert (∀ x, others n taken x = None) as Hnone.
    { intros x. destruct (others n taken x) eqn:Ex; [|done]. apply Hin in Ex. by apply not_elem_of_nil in Ex. }
    destruct (has_exact n taken) eqn:He; cbn; eauto.
  - destruct (has_exact n taken) eqn:He; cbn [Nat.b2n] in D; [lia|].
    assert (∀ x, others n taken x = if decide (x = b) then Some c else None) as Hone.
    { intros x. case_decide as Dx.
      - subst. apply Hin. set_solver.
      - destruct (others n taken x) eqn:Ex; [|done]. apply Hin, list_elem_of_singleton in Ex. congruence. }
    destruct (is_leaf c) eqn:Hl; eauto 10.
Qed.

(** Both depend only on the entries. *)
Lemma num_children_ext n n' : node_ok n → node_ok n' → (∀ x, find_child n' x = find_child n x) →
  num_children n' = num_children n.
Proof.
  intros Hok Hok' E. rewrite (proj1 (num_children_spec n Hok)), (proj1 (num_children_spec n' Hok')).
  by apply child_count_same.
Qed.

Lemma rest_ext n n' taken : node_ok n → node_ok n' → exact_leaf n' = exact_leaf n →
  (∀ x, find_child n' x = find_child n x) → rest n' taken = rest n taken.
Proof.
  intros Hok Hok' Ex E. unfold rest, has_exact. rewrite Ex, (num_children_ext n n') by done.
  by rewrite !rest_loop_list, !for_each_from_0, (child_count_ext (find_child n) (find_child n')) by done.
Qed.
End iteration.

(** ** Copies *)

Section copies.
Context {R : Type} `{SlotLaws R}.
Implicit Types (n dst : node R) (r : R).

Lemma es_lookup_cons b (c : R) es x :
  es_lookup ((b, c) :: es) x = if decide (b = x) then Some c else es_lookup es x.
Proof. unfold es_lookup. cbn. by case_decide. Qed.

Lemma push_all_spec es dst :
  node_ok dst → es_sorted es → (∀ b c, (b, c) ∈ es → find_child dst b = None ∧ c ≠ NULL) →
  (num_children dst + length es <= capacity (node_type dst))%nat →
  ∃ n', push_all dst es = Some n' ∧ node_ok n' ∧ same_header dst n' ∧
    ∀ x, find_child n' x = match es_lookup es x with Some c => Some c | None => find_child dst x end.
Proof.
  revert dst. induction es as [|[b c] es IH]; intros dst Hok Hs Hin Hcap; cbn [push_all].
  { exists dst. split_and!; [done..|]. intros x. done. }
  destruct (Hin b c) as [Hb Hc]; [set_solver|]. cbn [length] in Hcap.
  destruct (insert_child_spec dst b c Hok Hb Hc) as (n1 & -> & Hok1 & Hh1 & F1); [lia|].
  pose proof Hs as Hs0. apply (es_sorted_app []) in Hs as (Hs & _ & Hlt). cbn in Hs.
  assert (num_children n1 = S (num_children dst)) as Hn1.
  { rewrite (proj1 (num_children_spec n1 Hok1)), (proj1 (num_children_spec dst Hok)).
    apply (child_count_insert _ _ b c); [done|by rewrite F1, decide_True|].
    intros x Hx. by rewrite F1, decide_False. }
  destruct (IH n1) as (n2 & E2 & Hok2 & Hh2 & F2).
  - done.
  - done.
  - intros x cx Hx. destruct (Hin x cx) as [? ?]; [set_solver|]. split; [|done].
    rewrite F1, decide_False; [done|]. intros ->. apply Hlt in Hx. cbn in Hx. lia.
  - destruct Hh1 as [-> _]. lia.
  - exists n2. split_and!; [exact E2|done| |].
    + destruct Hh1 as (? & ? & ?), Hh2 as (? & ? & ?). split_and!; congruence.
    + intros x. rewrite F2, F1, es_lookup_cons. destruct (decide (b = x)) as [->|D].
      * assert (es_lookup es x = None) as ->; [|by rewrite decide_True].
        apply es_lookup_None. intros cx Hx. apply Hlt in Hx. cbn in Hx. lia.
      * destruct (es_lookup es x); [done|]. by rewrite decide_False by done.
Qed.

(** What a copy of [n] in another layout holds. *)
Definition same_content n n' : Prop :=
  as_slice (load_prefix n') = as_slice (load_prefix n) ∧ exact_leaf n' = exact_leaf n ∧
  ∀ x, find_child n' x = find_child n x.

Lemma copy_into_ok n dst :
  node_ok n → node_ok dst → (∀ x, find_child dst x = None) →
  (num_children n <= capacity (node_type dst))%nat →
  ∃ n', copy_into n dst = Some n' ∧ node_ok n' ∧ node_type n' = node_type dst ∧ same_content n n'.
Proof.
  intros Hok Hdst Hempty Hcap. unfold copy_into.
  destruct (write_prefix_ok dst (as_slice (load_prefix n)) Hdst) as (O1 & T1 & X1 & F1).
  set (d1 := write_prefix dst _) in *.
  destruct (set_exact_leaf_ok d1 (exact_leaf n) O1) as (O2 & T2 & L2 & X2 & F2).
  set (d2 := set_exact_leaf d1 _) in *.
  rewrite for_each_child_list by done.
  assert (∀ x, find_child d2 x = None) as E2 by (intros x; by rewrite F2, F1).
  destruct (push_all_spec (children_list (find_child n)) d2) as (n' & -> & O3 & (T3 & L3 & X3) & F3).
  - done.
  - apply children_list_sorted.
  - intros b c Hbc%elem_of_children_list. split; [done|]. by apply (find_child_not_null n b).
  - rewrite T2, T1. pose proof (proj1 (num_children_spec n Hok)) as En.
    rewrite <- child_count_length, <- En.
    rewrite (proj1 (num_children_spec d2 O2)), (proj2 (child_count_0 _)) by done. lia.
  - exists n'. split_and!; [done..|congruence|].
    split_and!.
    + rewrite L3, L2. apply load_write_prefix. rewrite prefix_len_slice by done. by apply prefix_len_max.
    + congruence.
    + intros x. rewrite F3, E2. destruct (es_lookup _ x) as [c|] eqn:Ex.
      * apply es_lookup_Some in Ex; [|apply children_list_sorted].
        by apply elem_of_children_list in Ex.
      * rewrite es_lookup_None in Ex. destruct (find_child n x) as [c|] eqn:Ef; [|done].
        apply elem_of_children_list in Ef. by apply Ex in Ef.
Qed.
End copies.
