(* ===== verification/NodeThm.v ===== *)
(** * What a node promises

    The contracts of the node operations of [src/src/raw/node.rs], for all four
    layouts at once: a node is a finite map from bytes to non-null slots
    ([find_child]) with a compressed prefix and an exact leaf, kept in order.
    Every branch is covered, the panics of a misused node included. *)

From S2P Require Import Prelude Bytes Latch Slot Bits Node NodeSpec NodeOps.
Local Open Scope Z_scope.

(** Never compute the list of children while comparing terms. *)
#[local] Opaque all_bytes children_list child_count.

Section node.
Context {R : Type} `{SlotLaws R}.
Implicit Types (n : node R).

(** ** Misuse *)

Lemma full_insert n b c : node_type n ≠ Node256 → is_full n = true → insert_child_raw n b c = None.
Proof.
  intros Ht Hf%bool_decide_eq_true. unfold insert_child_raw, node_type in *.
  destruct (n_body n) eqn:E; cbn [capacity] in *; [..|done]; by rewrite decide_False by lia.
Qed.

Lemma arr_position_absent cap keys children es b n :
  arr_ok cap keys children es → (∀ x, find_child n x = es_lookup es x) → find_child n b = None →
  position (λ k, bool_decide (k = b)) (take (length es) keys) = None.
Proof.
  intros A F Hb. pose proof (arr_position _ _ _ _ b A) as P. destruct (position _ _) as [i|]; [|done].
  destruct P as [c1 Hi]. rewrite F, es_lookup_None in Hb. destruct (Hb c1). by eapply list_elem_of_lookup_2.
Qed.

Lemma absent_replace n b c : node_ok n → node_type n ≠ Node256 → find_child n b = None → replace_child n b c = None.
Proof.
  intros Hok Ht Hb. pose proof Hok as [_ _ Hbody _]. pose proof (num_children_count n Hok) as Hnum.
  pose proof (no_count_range n Hok) as [Hr _].
  unfold replace_child. destruct (n_body n) as [w ch|ws ch|idx bm ch|bm ch] eqn:E.
  - rewrite <- E in Hbody. destruct (arr_body_cases n w ch E Hbody Hr) as (keys & es & -> & Ew & A & Hl & F).
    rewrite Hnum, Hl. by rewrite (arr_position_absent _ _ _ _ b n A F Hb).
  - rewrite <- E in Hbody. destruct (arr16_body_cases n ws ch E Hbody Hr) as (keys & es & -> & Ew & A & Hl & F).
    rewrite Hnum, Hl. by rewrite (arr_position_absent _ _ _ _ b n A F Hb).
  - destruct (body_48 n idx bm ch Hok E) as [Ok F]. rewrite F in Hb.
    apply (get48_None _ _ _ _ b Ok) in Hb. by rewrite (proj2 (Z.ltb_ge _ _) Hb).
  - by unfold node_type in Ht; rewrite E in Ht.
Qed.

Lemma room_iff n : is_full n = false ↔ (num_children n < capacity (node_type n))%nat.
Proof. unfold is_full. rewrite bool_decide_eq_false. lia. Qed.

Lemma fitting_fits k : (k <= 256)%nat → (k <= capacity (fitting k))%nat.
Proof. intros Hk. unfold fitting. repeat case_match; cbn; lia. Qed.

(** ** The operations *)

(** C36: [insert_child] on a well-formed node. With room it adds exactly the
    given byte, for any of the four layouts, keeps the other children, the
    prefix and the exact leaf, and counts one child more; a full node of any
    layout but the largest panics instead of writing. *)
Theorem insert_child_adds_one n b c :
  node_ok n → find_child n b = None → c ≠ NULL →
  if is_full n then node_type n ≠ Node256 → insert_child_raw n b c = None
  else ∃ n', insert_child_raw n b c = Some n' ∧ node_ok n' ∧ same_header n n' ∧
    num_children n' = S (num_children n) ∧
    ∀ x, find_child n' x = if decide (x = b) then Some c else find_child n x.
Proof.
  intros Hok Hb Hc. destruct (is_full n) eqn:Hf; [intros; by apply full_insert|].
  destruct (insert_child_spec n b c Hok Hb Hc) as (n' & E & Hok' & Hh & F); [by apply room_iff|].
  exists n'. split_and!; [done..| |done].
  rewrite (proj1 (num_children_spec n Hok)), (proj1 (num_children_spec n' Hok')).
  apply (child_count_insert _ _ b c); [done|by rewrite F, decide_True|]. intros x Hx. by rewrite F, decide_False.
Qed.

(** [replace_child] swaps the slot of a present byte and nothing else, and
    on an absent byte the layouts that can tell panic. *)
Theorem replace_child_swaps_one n b c :
  node_ok n → c ≠ NULL →
  match find_child n b with
  | Some _ => ∃ n', replace_child n b c = Some n' ∧ replaced n n' b c
  | None => node_type n ≠ Node256 → replace_child n b c = None
  end.
Proof.
  intros Hok Hc. destruct (find_child n b) as [c0|] eqn:Hb; [by eapply replace_child_spec|].
  intros. by apply absent_replace.
Qed.

(** [remove_child] takes out exactly the given byte and counts one child
    less, and leaves the node as it is when the byte is absent. *)
Theorem remove_child_takes_one n b :
  node_ok n →
  match find_child n b with
  | Some _ => removed n (remove_child n b) b ∧ S (num_children (remove_child n b)) = num_children n
  | None => remove_child n b = n
  end.
Proof.
  intros Hok. destruct (find_child n b) as [c0|] eqn:Hb; [|by apply remove_child_absent].
  pose proof (remove_child_spec n b c0 Hok Hb) as R'. split; [done|]. destruct R' as (Hok' & _ & F).
  rewrite (proj1 (num_children_spec n Hok)), (proj1 (num_children_spec _ Hok')).
  symmetry. apply (child_count_insert _ _ b c0); [by rewrite F, decide_True|done|].
  intros x Hx. by rewrite F, decide_False.
Qed.

(** [next_child] and [prev_child] are the successor and predecessor
    queries of the node's map, in every layout: the entry returned is present,
    within the bound, and no other lies between. *)
Theorem child_searches_are_ordered n from to :
  node_ok n → 0 <= from →
  next_spec (find_child n) from (next_child n from) ∧
  prev_spec (find_child n) (b2z to) (prev_child n to).
Proof. intros Hok Hf. split; [by apply next_child_spec|by apply prev_child_spec]. Qed.

(** [for_each_child] visits every child once, in ascending byte order, and
    [num_children] counts the visits and fits the layout. *)
Theorem for_each_child_visits_all n :
  node_ok n →
  es_sorted (for_each_child n) ∧
  (∀ b c, (b, c) ∈ for_each_child n ↔ find_child n b = Some c) ∧
  length (for_each_child n) = num_children n ∧ (num_children n <= capacity (node_type n))%nat.
Proof.
  intros Hok. rewrite for_each_child_list by done. destruct (num_children_spec n Hok) as [E Hc].
  rewrite E, child_count_length in *. split_and!; [apply children_list_sorted| |done..].
  intros b c. apply elem_of_children_list.
Qed.

(** [rest] and [emptied_by] tell what a node holds besides the entry taken
    from it: nothing, exactly one leaf, exactly one inner child, or more. *)
Theorem rest_tells_what_is_left n taken :
  node_ok n → taken_in n taken →
  (emptied_by n taken = true ↔ entries_left n taken = 0%nat) ∧
  match rest n taken with
  | RestEmpty => (∀ x, others n taken x = None) ∧ has_exact n taken = false
  | RestLeaf r =>
    (has_exact n taken = true ∧ r = exact_leaf n ∧ ∀ x, others n taken x = None) ∨
    (has_exact n taken = false ∧ is_leaf r = true ∧
     ∃ b, ∀ x, others n taken x = if decide (x = b) then Some r else None)
  | RestInner b r =>
    has_exact n taken = false ∧ is_leaf r = false ∧
    ∀ x, others n taken x = if decide (x = b) then Some r else None
  | RestMany => (2 <= entries_left n taken)%nat
  end.
Proof.
  intros Hok Ht. split; [|by apply rest_spec].
  unfold emptied_by. rewrite bool_decide_eq_true. by rewrite entries_left_eq by done.
Qed.

(** Growing or shrinking is a copy: into an empty node of any layout that
    has room, [copy_into] carries prefix, exact leaf and every child, and the
    layout that [fitting] picks always has room. *)
Theorem copy_into_keeps_the_node n dst :
  node_ok n → node_ok dst → (∀ x, find_child dst x = None) →
  ((num_children n <= capacity (node_type dst))%nat ∨ node_type dst = fitting (num_children n)) →
  ∃ n', copy_into n dst = Some n' ∧ node_ok n' ∧ node_type n' = node_type dst ∧ same_content n n'.
Proof.
  intros Hok Hdst He Hc. apply copy_into_ok; [done..|]. destruct Hc as [|E]; [done|].
  rewrite E. apply fitting_fits. destruct (num_children_spec n Hok) as [-> _]. apply child_count_le.
Qed.

(** The prefix round trip. What [store_prefix] writes, up to 16 bytes,
    [load_prefix] reads back from the two packed words, and the children and
    the exact leaf are untouched. *)
Theorem prefix_roundtrip n p :
  node_ok n → (length p <= MAX_PREFIX_LEN)%nat →
  as_slice (load_prefix (write_prefix n p)) = p ∧ node_ok (write_prefix n p) ∧
  exact_leaf (write_prefix n p) = exact_leaf n ∧ ∀ x, find_child (write_prefix n p) x = find_child n x.
Proof.
  intros Hok Hp. destruct (write_prefix_ok n p Hok) as (H1 & _ & H2 & H3).
  split_and!; [by apply load_write_prefix|done..].
Qed.
End node.

(** ** Witnesses: a [Node4] of tree slots *)

Definition sample : node raw := default (node_new Node4) (insert_child_raw (node_new Node4) Byte.x07 (LeafAt 1)).

Lemma sample_ok : node_ok sample.
Proof.
  destruct (node_new_ok (R := raw) Node4) as (H1 & H2 & H3 & H4).
  destruct (insert_child_spec (node_new Node4) Byte.x07 (LeafAt 1) H1 (H2 _) ltac:(done) ltac:(vm_compute; lia))
    as (n' & E & Hok & _). unfold sample. by rewrite E.
Defined.

Lemma insert_child_adds_one_witness :
  ∃ n', insert_child_raw sample Byte.x03 (NodeAt 2) = Some n' ∧ find_child n' Byte.x07 = Some (LeafAt 1).
Proof.
  destruct (insert_child_adds_one sample Byte.x03 (NodeAt 2) sample_ok ltac:(by vm_compute) ltac:(done))
    as (n' & E & _ & _ & _ & F). exists n'. split; [exact E|]. by rewrite F; vm_compute.
Defined.

Lemma replace_child_swaps_one_witness :
  ∃ n', replace_child sample Byte.x07 (NodeAt 2) = Some n' ∧ replaced sample n' Byte.x07 (NodeAt 2).
Proof. exact (replace_child_swaps_one sample Byte.x07 (NodeAt 2) sample_ok ltac:(done)). Defined.

Lemma remove_child_takes_one_witness :
  removed sample (remove_child sample Byte.x07) Byte.x07 ∧ S (num_children (remove_child sample Byte.x07)) = 1%nat.
Proof. exact (remove_child_takes_one sample Byte.x07 sample_ok). Defined.

Lemma child_searches_are_ordered_witness :
  next_child sample 3 = Some (Byte.x07, LeafAt 1) ∧ prev_child sample Byte.x05 = None ∧
  next_spec (find_child sample) 3 (next_child sample 3).
Proof.
  split_and!; [by vm_compute..|]. exact (proj1 (child_searches_are_ordered sample 3 Byte.x05 sample_ok ltac:(lia))).
Defined.

Lemma for_each_child_visits_all_witness : length (for_each_child sample) = 1%nat.
Proof. exact (proj1 (proj2 (proj2 (for_each_child_visits_all sample sample_ok)))). Defined.

Lemma rest_tells_what_is_left_witness : entries_left sample (Child Byte.x07) = 0%nat.
Proof.
  apply (proj1 (rest_tells_what_is_left sample (Child Byte.x07) sample_ok ltac:(by vm_compute))). by vm_compute.
Defined.

Lemma copy_into_keeps_the_node_witness :
  ∃ n', copy_into sample (node_new Node16) = Some n' ∧ same_content sample n'.
Proof.
  destruct (node_new_ok (R := raw) Node16) as (H1 & H2 & _).
  destruct (copy_into_keeps_the_node sample (node_new Node16) sample_ok H1 H2) as (n' & E & _ & _ & C);
    [left; vm_compute; lia|]. by exists n'.
Defined.

Lemma prefix_roundtrip_witness : as_slice (load_prefix (write_prefix sample [Byte.x61; Byte.x62])) = [Byte.x61; Byte.x62].
Proof. apply (prefix_roundtrip sample [Byte.x61; Byte.x62] sample_ok). vm_compute. lia. Defined.
