(* ===== verification/Free.v ===== *)
(** * Programs

    A program is a tree of accesses: [free E A] makes accesses from [E], each
    with its result type, and ends in an [A], in a panic, or with its fuel
    spent. The accesses are given a meaning by whoever runs the program: alone,
    or one access at a time between those of other threads. *)

From S2P Require Import Prelude.

Inductive free (E : Type → Type) (A : Type) : Type :=
| Ret (a : A)
| Vis {X : Type} (o : E X) (k : X → free E A)
| Panic
| OutOfFuel.
Arguments Ret {E A}. Arguments Vis {E A X}. Arguments Panic {E A}. Arguments OutOfFuel {E A}.

Fixpoint free_bind {E A B} (k : A → free E B) (p : free E A) : free E B :=
  match p with
  | Ret a => k a
  | Vis o k' => Vis o (λ x, free_bind k (k' x))
  | Panic => Panic
  | OutOfFuel => OutOfFuel
  end.

#[export] Instance free_mret {E} : MRet (free E) := λ A, Ret.
#[export] Instance free_mbind {E} : MBind (free E) := λ A B k p, free_bind k p.

(** [expect], [unreachable!] and failed assertions. *)
Definition expect {E A} (o : option A) : free E A := from_option Ret Panic o.
Definition debug_assert {E} (b : bool) : free E unit := if b then Ret tt else Panic.

(** ** Loops *)

(** What one turn of a loop decides. *)
Inductive flow (S A : Type) := Continue (s : S) | Break (a : A).
Arguments Continue {S A}. Arguments Break {S A}.

Fixpoint loop {E S A} (fuel : nat) (body : S → free E (flow S A)) (s : S) : free E A :=
  match fuel with
  | O => OutOfFuel
  | Datatypes.S fuel =>
    r ← body s;
    match r with Continue s' => loop fuel body s' | Break a => mret a end
  end.

(** [for x in xs]. *)
Fixpoint for_each {E X} (xs : list X) (body : X → free E unit) : free E unit :=
  match xs with
  | [] => mret tt
  | x :: xs => _ ← body x; for_each xs body
  end.
