(* ===== verification/Mem.v ===== *)
(** * The tree's memory and the programs that run on it ([src/raw/mod.rs])

    [RawTree] is the state of one tree: the root slot and its latch, the
    striped counter, the heap of nodes (each with its latch word) and leaves,
    the armed [Unpublished] owners and the lists of retired objects. The
    algorithms of the other files are programs of type [prog] ([Free]): sequences of
    the accesses [op] they make to that state, one latch word, node read or
    node write at a time. [run] runs a program alone; [wp p Q s] says that [p]
    run alone from [s] ends, in a result and state that satisfy [Q].

    A failed assertion, a use of a slot value outside its contract or a write
    without the latch is [Panicked]; a blocking lock on a locked latch is
    [Blocked]; an exhausted retry or descent bound is [NoFuel]. [wp] excludes
    all three. *)

From S2P Require Import Prelude Bytes Latch Slot Bits Node Free.
Local Open Scope Z_scope.

(** ** The source's interfaces *)

(** [trait LeafNode]. *)
Class LeafNode (L : Type) := {
  key_bytes : L → list byte;
  mark_removed : L → option L;  (** [None]: a failed assertion *)
  is_removed : L → bool;
}.

Class LeafLaws (L : Type) `{LeafNode L} := {
  key_mark_removed (x x' : L) : mark_removed x = Some x' → key_bytes x' = key_bytes x;
  is_removed_mark (x x' : L) : mark_removed x = Some x' → is_removed x' = true;
}.

(** The part of [trait Layout] that can fail: [alloc_node], and what it does to
    the storage; and what an arena's storage has beside it, [Arena::alloc] of a
    size and an alignment, with the offset that it returns. *)
Class Layout (S : Type) := {
  alloc_node : S → NodeType → option S;
  alloc_bytes : S → Z → Z → option (Z * S);
}.

(** [HeapStorage]: [Full] is uninhabited. Its values are boxed. *)
Record HeapStorage := {}.
#[export] Instance heap_layout : Layout HeapStorage := { alloc_node s _ := Some s; alloc_bytes _ _ _ := None }.

(** An inner node, with the latch word of its header. *)
Record NodeObj := { o_latch : Z; o_node : node raw }.

Record RawTree (L S : Type) := {
  t_root : raw;
  t_root_latch : Z;
  t_len : list Z;
  t_storage : S;
  t_nodes : gmap loc NodeObj;
  t_leaves : gmap loc L;
  t_retired_nodes : list loc;
  t_retired_leaves : list loc;
  t_owned : gset loc;  (** leaves of armed [Unpublished] owners *)
  t_stripe : nat;      (** the running thread's stripe *)
  t_cell : option (option nat);  (** the [Cell] that a running callback captures *)
}.
Arguments Build_RawTree {L S}.
Arguments t_root {L S}. Arguments t_root_latch {L S}. Arguments t_len {L S}.
Arguments t_storage {L S}. Arguments t_nodes {L S}. Arguments t_leaves {L S}.
Arguments t_retired_nodes {L S}. Arguments t_retired_leaves {L S}.
Arguments t_owned {L S}. Arguments t_stripe {L S}. Arguments t_cell {L S}.

Section setters.
Context {L S : Type}.
Implicit Types s : RawTree L S.

Definition set_t_root (r : raw) s : RawTree L S :=
  {| t_root := r; t_root_latch := t_root_latch s; t_len := t_len s; t_storage := t_storage s;
     t_nodes := t_nodes s; t_leaves := t_leaves s; t_retired_nodes := t_retired_nodes s;
     t_retired_leaves := t_retired_leaves s; t_owned := t_owned s; t_stripe := t_stripe s; t_cell := t_cell s |}.
Definition set_t_root_latch (w : Z) s : RawTree L S :=
  {| t_root := t_root s; t_root_latch := w; t_len := t_len s; t_storage := t_storage s;
     t_nodes := t_nodes s; t_leaves := t_leaves s; t_retired_nodes := t_retired_nodes s;
     t_retired_leaves := t_retired_leaves s; t_owned := t_owned s; t_stripe := t_stripe s; t_cell := t_cell s |}.
Definition set_t_len (c : list Z) s : RawTree L S :=
  {| t_root := t_root s; t_root_latch := t_root_latch s; t_len := c; t_storage := t_storage s;
     t_nodes := t_nodes s; t_leaves := t_leaves s; t_retired_nodes := t_retired_nodes s;
     t_retired_leaves := t_retired_leaves s; t_owned := t_owned s; t_stripe := t_stripe s; t_cell := t_cell s |}.
Definition set_t_storage (x : S) s : RawTree L S :=
  {| t_root := t_root s; t_root_latch := t_root_latch s; t_len := t_len s; t_storage := x;
     t_nodes := t_nodes s; t_leaves := t_leaves s; t_retired_nodes := t_retired_nodes s;
     t_retired_leaves := t_retired_leaves s; t_owned := t_owned s; t_stripe := t_stripe s; t_cell := t_cell s |}.
Definition set_t_nodes (h : gmap loc NodeObj) s : RawTree L S :=
  {| t_root := t_root s; t_root_latch := t_root_latch s; t_len := t_len s; t_storage := t_storage s;
     t_nodes := h; t_leaves := t_leaves s; t_retired_nodes := t_retired_nodes s;
     t_retired_leaves := t_retired_leaves s; t_owned := t_owned s; t_stripe := t_stripe s; t_cell := t_cell s |}.
Definition set_t_leaves (h : gmap loc L) s : RawTree L S :=
  {| t_root := t_root s; t_root_latch := t_root_latch s; t_len := t_len s; t_storage := t_storage s;
     t_nodes := t_nodes s; t_leaves := h; t_retired_nodes := t_retired_nodes s;
     t_retired_leaves := t_retired_leaves s; t_owned := t_owned s; t_stripe := t_stripe s; t_cell := t_cell s |}.
Definition set_t_retired_nodes (l : list loc) s : RawTree L S :=
  {| t_root := t_root s; t_root_latch := t_root_latch s; t_len := t_len s; t_storage := t_storage s;
     t_nodes := t_nodes s; t_leaves := t_leaves s; t_retired_nodes := l;
     t_retired_leaves := t_retired_leaves s; t_owned := t_owned s; t_stripe := t_stripe s; t_cell := t_cell s |}.
Definition set_t_retired_leaves (l : list loc) s : RawTree L S :=
  {| t_root := t_root s; t_root_latch := t_root_latch s; t_len := t_len s; t_storage := t_storage s;
     t_nodes := t_nodes s; t_leaves := t_leaves s; t_retired_nodes := t_retired_nodes s;
     t_retired_leaves := l; t_owned := t_owned s; t_stripe := t_stripe s; t_cell := t_cell s |}.
Definition set_t_owned (o : gset loc) s : RawTree L S :=
  {| t_root := t_root s; t_root_latch := t_root_latch s; t_len := t_len s; t_storage := t_storage s;
     t_nodes := t_nodes s; t_leaves := t_leaves s; t_retired_nodes := t_retired_nodes s;
     t_retired_leaves := t_retired_leaves s; t_owned := o; t_stripe := t_stripe s; t_cell := t_cell s |}.
Definition set_t_cell (c : option (option nat)) s : RawTree L S :=
  {| t_root := t_root s; t_root_latch := t_root_latch s; t_len := t_len s; t_storage := t_storage s;
     t_nodes := t_nodes s; t_leaves := t_leaves s; t_retired_nodes := t_retired_nodes s;
     t_retired_leaves := t_retired_leaves s; t_owned := t_owned s; t_stripe := t_stripe s; t_cell := c |}.
End setters.

(** [RawTree::new_in], for a thread with this stripe. *)
Definition new_in {L S} (storage : S) (stripe : nat) : RawTree L S :=
  {| t_root := Null; t_root_latch := latch_new; t_len := Counter.new; t_storage := storage;
     t_nodes := ∅; t_leaves := ∅; t_retired_nodes := []; t_retired_leaves := [];
     t_owned := ∅; t_stripe := stripe; t_cell := None |}.

(** ** Accesses and programs *)

(** A latch operation: its result and the new word, or [None] to spin. *)
Abbreviation latch_op A := (Z → option (A * Z)).

Inductive op (L : Type) : Type → Type :=
| RootLoad : op L raw
| RootStore (v : raw) : op L unit        (** under [root_latch] *)
| RootSwap (v : raw) : op L raw
| RootLatch {A} (f : latch_op A) : op L A
| NodeLatch {A} (n : loc) (f : latch_op A) : op L A
| NodeRead {A} (n : loc) (f : node raw → A) : op L A
| NodeWrite (n : loc) (f : node raw → option (node raw)) : op L unit  (** under the latch *)
| NodeInit (n : loc) (f : NodeObj → option NodeObj) : op L unit   (** unpublished: [&mut] *)
| LeafRead {A} (l : loc) (f : L → A) : op L A
| LeafLatch {A} (l : loc) (f : L → option (A * L)) : op L A  (** one atomic access; [None] spins *)
| LeafWrite (l : loc) (f : L → option L) : op L unit
| LenAdd (n : Z) : op L unit
| LenSum : op L Z
| AllocNode (ty : NodeType) : op L (option loc)
| AllocBytes (size align : Z) : op L (option Z)
| FreeNode (n : loc) : op L unit
| RetireNode (n : loc) : op L unit
| AllocLeaf (x : L) : op L loc
| FreeLeaf (l : loc) : op L unit
| RetireLeaf (l : loc) : op L unit
| OwnerNew (l : loc) : op L unit
| OwnerDisarm (l : loc) : op L unit
| OwnerArmed (l : loc) : op L bool       (** [Cell::get] *)
| CellSet (c : option (option nat)) : op L unit
| CellGet : op L (option (option nat)).
Arguments RootLoad {L}. Arguments RootStore {L}. Arguments RootSwap {L}.
Arguments RootLatch {L A}. Arguments NodeLatch {L A}. Arguments NodeRead {L A}.
Arguments NodeWrite {L}. Arguments NodeInit {L}. Arguments LeafRead {L A}.
Arguments LeafLatch {L A}. Arguments LeafWrite {L}. Arguments LenAdd {L}. Arguments LenSum {L}.
Arguments AllocNode {L}. Arguments AllocBytes {L}. Arguments FreeNode {L}. Arguments RetireNode {L}.
Arguments AllocLeaf {L}. Arguments FreeLeaf {L}. Arguments RetireLeaf {L}.
Arguments OwnerNew {L}. Arguments OwnerDisarm {L}. Arguments OwnerArmed {L}.
Arguments CellSet {L}. Arguments CellGet {L}.

Abbreviation prog L := (free (op L)).

Definition trigger {L A} (o : op L A) : prog L A := Vis o Ret.
Coercion trigger : op >-> free.

(** ** Running alone *)

Inductive outcome (L S A : Type) :=
| Done (a : A) (s : RawTree L S)
| Panicked
| Blocked
| NoFuel.
Arguments Done {L S A}. Arguments Panicked {L S A}. Arguments Blocked {L S A}. Arguments NoFuel {L S A}.

Section exec.
Context {L S : Type} `{Layout S}.
Implicit Types s : RawTree L S.

Definition locked (word : Z) : bool := negb (Z.land word LOCK_BIT =? 0).

Definition with_node {A} s (n : loc) (k : NodeObj → outcome L S A) : outcome L S A :=
  match t_nodes s !! n with Some ob => k ob | None => Panicked end.
Definition with_leaf {A} s (l : loc) (k : L → outcome L S A) : outcome L S A :=
  match t_leaves s !! l with Some x => k x | None => Panicked end.

Definition put_node s (n : loc) (ob : NodeObj) : RawTree L S := set_t_nodes (<[n := ob]> (t_nodes s)) s.

Definition exec {A} (o : op L A) s : outcome L S A :=
  match o in op _ A return outcome L S A with
  | RootLoad => Done (t_root s) s
  | RootStore v => if locked (t_root_latch s) then Done tt (set_t_root v s) else Panicked
  | RootSwap v => Done (t_root s) (set_t_root v s)
  | RootLatch f =>
    match f (t_root_latch s) with
    | Some (a, w) => Done a (set_t_root_latch w s)
    | None => Blocked
    end
  | NodeLatch n f =>
    with_node s n (λ ob,
      match f (o_latch ob) with
      | Some (a, w) => Done a (put_node s n {| o_latch := w; o_node := o_node ob |})
      | None => Blocked
      end)
  | NodeRead n f => with_node s n (λ ob, Done (f (o_node ob)) s)
  | NodeWrite n f =>
    with_node s n (λ ob,
      if locked (o_latch ob) then
        match f (o_node ob) with
        | Some nd => Done tt (put_node s n {| o_latch := o_latch ob; o_node := nd |})
        | None => Panicked
        end
      else Panicked)
  | NodeInit n f =>
    with_node s n (λ ob,
      match f ob with
      | Some ob' => Done tt (put_node s n ob')
      | None => Panicked
      end)
  | LeafRead l f => with_leaf s l (λ x, Done (f x) s)
  | LeafLatch l f =>
    with_leaf s l (λ x,
      match f x with
      | Some (a, x') => Done a (set_t_leaves (<[l := x']> (t_leaves s)) s)
      | None => Blocked
      end)
  | LeafWrite l f =>
    with_leaf s l (λ x,
      match f x with
      | Some x' => Done tt (set_t_leaves (<[l := x']> (t_leaves s)) s)
      | None => Panicked
      end)
  | LenAdd n => Done tt (set_t_len (Counter.add (t_stripe s) n (t_len s)) s)
  | LenSum => Done (Counter.sum (t_len s)) s
  | AllocNode ty =>
    match alloc_node (t_storage s) ty with
    | Some st =>
      let n := fresh (dom (t_nodes s)) in
      Done (Some n) (put_node (set_t_storage st s) n {| o_latch := latch_new; o_node := node_new ty |})
    | None => Done None s
    end
  | AllocBytes size align =>
    match alloc_bytes (t_storage s) size align with
    | Some (off, st) => Done (Some off) (set_t_storage st s)
    | None => Done None s
    end
  | FreeNode n => with_node s n (λ _, Done tt (set_t_nodes (delete n (t_nodes s)) s))
  | RetireNode n => with_node s n (λ _, Done tt (set_t_retired_nodes (n :: t_retired_nodes s) s))
  | AllocLeaf x =>
    let l := fresh (dom (t_leaves s)) in Done l (set_t_leaves (<[l := x]> (t_leaves s)) s)
  | FreeLeaf l => with_leaf s l (λ _, Done tt (set_t_leaves (delete l (t_leaves s)) s))
  | RetireLeaf l => with_leaf s l (λ _, Done tt (set_t_retired_leaves (l :: t_retired_leaves s) s))
  | OwnerNew l => Done tt (set_t_owned ({[l]} ∪ t_owned s) s)
  | OwnerDisarm l => Done tt (set_t_owned (t_owned s ∖ {[l]}) s)
  | OwnerArmed l => Done (bool_decide (l ∈ t_owned s)) s
  | CellSet c => Done tt (set_t_cell c s)
  | CellGet => Done (t_cell s) s
  end.

Fixpoint run {A} (p : prog L A) s : outcome L S A :=
  match p with
  | Ret a => Done a s
  | Vis o k => match exec o s with
               | Done x s' => run (k x) s'
               | Panicked => Panicked
               | Blocked => Blocked
               | NoFuel => NoFuel
               end
  | Panic => Panicked
  | OutOfFuel => NoFuel
  end.

(** ** Total correctness *)

Definition wp {A} (p : prog L A) (Q : A → RawTree L S → Prop) s : Prop :=
  match run p s with Done a s' => Q a s' | _ => False end.

Lemma run_bind {A B} (p : prog L A) (k : A → prog L B) s :
  run (p ≫= k) s = match run p s with
                   | Done a s' => run (k a) s'
                   | Panicked => Panicked | Blocked => Blocked | NoFuel => NoFuel
                   end.
Proof.
  revert s. induction p as [a|X o k' IH| |]; intros s; cbn; [done| |done..].
  destruct (exec o s); try done. apply IH.
Qed.

Lemma wp_bind {A B} (p : prog L A) (k : A → prog L B) Q s :
  wp p (λ a s', wp (k a) Q s') s → wp (p ≫= k) Q s.
Proof. unfold wp. rewrite run_bind. by destruct (run p s). Qed.

(** A program run alone does one thing. *)
Lemma wp_bind_inv {A B} (p : prog L A) (k : A → prog L B) Q s :
  wp (p ≫= k) Q s → wp p (λ a s', wp (k a) Q s') s.
Proof. unfold wp. rewrite run_bind. by destruct (run p s). Qed.

Lemma wp_and {A} (p : prog L A) (Q Q' : A → RawTree L S → Prop) s :
  wp p Q s → wp p Q' s → wp p (λ a s', Q a s' ∧ Q' a s') s.
Proof. unfold wp. destruct (run p s); auto. Qed.

Lemma wp_ret {A} (a : A) Q s : Q a s → wp (Ret a) Q s.
Proof. done. Qed.

Lemma wp_mono {A} (p : prog L A) (Q Q' : A → RawTree L S → Prop) s :
  wp p Q s → (∀ a s', Q a s' → Q' a s') → wp p Q' s.
Proof. unfold wp. destruct (run p s); auto. Qed.

Lemma wp_run {A} (p : prog L A) Q s : wp p Q s ↔ ∃ a s', run p s = Done a s' ∧ Q a s'.
Proof. unfold wp. destruct (run p s); naive_solver. Qed.

(** One access. *)
Lemma wp_exec {A} (o : op L A) (Q : A → RawTree L S → Prop) s a s' :
  exec o s = Done a s' → Q a s' → wp o Q s.
Proof. unfold wp, trigger. cbn. by intros ->. Qed.

(** A loop by an invariant and a measure that the fuel covers. *)
Lemma wp_loop {St A} (I : St → RawTree L S → Prop) (μ : St → nat) fuel body Q (x : St) s :
  (∀ x s, I x s →
    wp (A := flow St A) (body x)
      (λ r s', match r with Continue x' => I x' s' ∧ (μ x' < μ x)%nat | Break a => Q a s' end) s) →
  I x s → (μ x < fuel)%nat → wp (loop fuel body x) Q s.
Proof.
  intros Hbody. revert x s. induction fuel as [|fuel IH]; intros x s Hx Hf; [lia|].
  cbn [loop]. apply wp_bind. eapply wp_mono; [by apply Hbody|].
  intros [x'|a] s'; cbn; [|done]. intros [Hx' Hlt]. apply IH; [done|lia].
Qed.

(** The same, when the measure depends on the state too: [I k x s]. *)
Lemma wp_loop_measure {St A} (I : nat → St → RawTree L S → Prop) fuel body Q (x : St) s k :
  (∀ k x s, I k x s →
    wp (A := flow St A) (body x)
      (λ r s', match r with Continue x' => ∃ k', (k' < k)%nat ∧ I k' x' s' | Break a => Q a s' end) s) →
  I k x s → (k < fuel)%nat → wp (loop fuel body x) Q s.
Proof.
  intros Hbody. revert x s k. induction fuel as [|fuel IH]; intros x s k Hx Hf; [lia|].
  cbn [loop]. apply wp_bind. eapply wp_mono; [by eapply Hbody|].
  intros [x'|a] s'; cbn; [|done]. intros (k' & Hlt & Hx'). eapply IH; [done|lia].
Qed.

(** [p'] has at least the fuel of [p]: it ends wherever [p] does, the same way. *)
Definition extends {A} (p p' : prog L A) : Prop :=
  ∀ s a s', run p s = Done a s' → run p' s = Done a s'.

#[export] Instance extends_preorder {A} : PreOrder (extends (A := A)).
Proof. split; [by intros p s a s'|]. intros p p' p'' H1 H2 s a s' E. by apply H2, H1. Qed.

Lemma extends_bind {A B} (p p' : prog L A) (k k' : A → prog L B) :
  extends p p' → (∀ a, extends (k a) (k' a)) → extends (p ≫= k) (p' ≫= k').
Proof.
  intros Hp Hk s b s'. rewrite !run_bind. destruct (run p s) as [a s1| | |] eqn:E; [|done..].
  rewrite (Hp _ _ _ E). apply Hk.
Qed.

Lemma extends_loop {St A} f f' body (x : St) : (f <= f')%nat → extends (loop (A := A) f body x) (loop f' body x).
Proof.
  revert f' x. induction f as [|f IH]; intros f' x Hf; [by intros s a s'|]. destruct f' as [|f']; [lia|]. cbn [loop].
  apply extends_bind; [done|]. intros [x'|a]; [|done]. apply IH. lia.
Qed.

Lemma wp_extends {A} (p p' : prog L A) Q s : extends p p' → wp p Q s → wp p' Q s.
Proof. intros HE (a & s' & E & HQ)%wp_run. apply wp_run. exists a, s'. split; [by apply HE|done]. Qed.

(** A loop whose body always ends it. *)
Lemma wp_loop_once {St A} fuel body Q (x : St) s :
  (0 < fuel)%nat →
  wp (A := flow St A) (body x) (λ r s', match r with Continue _ => False | Break a => Q a s' end) s →
  wp (loop fuel body x) Q s.
Proof.
  intros Hf Hb. destruct fuel as [|fuel]; [lia|]. cbn [loop]. apply wp_bind.
  eapply wp_mono; [exact Hb|]. by intros [x'|a] s'.
Qed.
End exec.

#[global] Arguments wp : simpl never.
#[global] Arguments put_node : simpl never.
