(* ===== verification/Simulate.v ===== *)
(** * Sequences of operations against a specification

    The interface between a map and its specification: [Simulation] says that
    one operation, run from a tree that holds an abstract state, returns what
    the specification allows, and leaves a tree that holds an abstract state the
    specification allows. The theorems lift this to sequences of operations, for
    all the maps; a specification that is a function allows just its value. *)

From S2P Require Import Prelude Free Mem.
Local Open Scope Z_scope.

(** Fuel for a walk over the whole tree. *)
Definition enough {L St} (s : RawTree L St) : nat := 2 * (size (t_nodes s) + size (t_leaves s)) + 2.

Section simulate.
Context {L St : Type} {LY : Layout St} {O R A : Type}.
Context (allowed : A → O → R → A → Prop) (code : nat → O → prog L R).
Implicit Types (s : RawTree L St) (a : A).

(** What the specification allows of a sequence. *)
Inductive allowed_run : list O → list R → A → A → Prop :=
| run_nil a : allowed_run [] [] a a
| run_cons a op r a1 ops rs a2 : allowed a op r a1 → allowed_run ops rs a1 a2 → allowed_run (op :: ops) (r :: rs) a a2.

(** What the code does; [fuel] bounds the walks over the whole tree. *)
Fixpoint run_code (fuel : nat) (ops : list O) : prog L (list R) :=
  match ops with
  | [] => mret []
  | op :: ops => r ← code fuel op; rs ← run_code fuel ops; mret (r :: rs)
  end.

(** [fits n a] bounds the abstract state, which an operation enlarges by at
    most one; [ok n] says that a state so bounded is within the limits of the
    counters and the fuel. *)
Class Simulation (holds : RawTree L St → A → Prop) (fits : nat → A → Prop) (ok : nat → Prop) : Prop := {
  sim_step n op s a : holds s a → fits n a → ok n →
    wp (code (enough s) op) (λ r s', ∃ a', allowed a op r a' ∧ holds s' a') s;
  sim_extends f f' op : (f <= f')%nat → extends (S := St) (code f op) (code f' op);
  sim_grows n op a r a' : allowed a op r a' → fits n a → fits (S n) a';
  sim_ok n n' : (n <= n')%nat → ok n' → ok n;
}.

Context {holds : RawTree L St → A → Prop} {fits : nat → A → Prop} {ok : nat → Prop} {SIM : Simulation holds fits ok}.

(** More fuel changes nothing. *)
Lemma run_code_extends f f' ops : (f <= f')%nat → extends (S := St) (run_code f ops) (run_code f' ops).
Proof using SIM.
  intros Hf. induction ops as [|op ops IH]; [done|]. cbn [run_code]. apply extends_bind; [by apply sim_extends|].
  intros r. by apply extends_bind.
Qed.

Theorem run_code_allowed n ops s a : holds s a → fits n a → ok (n + length ops) →
  ∃ bound, ∀ fuel, (bound <= fuel)%nat → wp (run_code fuel ops) (λ rs s', ∃ a', allowed_run ops rs a a' ∧ holds s' a') s.
Proof using SIM.
  revert n s a. induction ops as [|op ops IH]; intros n s a HS HF HO; [exists 0%nat; intros; apply wp_ret; exists a; by split; [constructor|]|].
  cbn [length] in HO. assert (ok n) as Hn by (by eapply (sim_ok (holds := holds) (fits := fits)); [|exact HO]; lia).
  pose proof (sim_step n op s a HS HF Hn) as (r & s1 & E & a1 & HA & HS1)%wp_run.
  pose proof (sim_grows (holds := holds) (ok := ok) n op a r a1 HA HF) as HF1.
  destruct (IH (S n) s1 _ HS1 HF1) as [bound Hb]; [by rewrite Nat.add_succ_comm|].
  exists (max (enough s) bound). intros fuel Hf. cbn [run_code].
  apply wp_bind. apply wp_run. eexists _, s1. split; [eapply sim_extends; [|exact E]; lia|].
  apply wp_bind. eapply wp_mono; [apply Hb; lia|]. intros rs s2 (a2 & HR & HS2). apply wp_ret. exists a2. by split; [econstructor|].
Qed.

Lemma run_fits n ops rs a a' : allowed_run ops rs a a' → fits n a → fits (n + length ops) a'.
Proof using SIM.
  intros HR. revert n. induction HR as [a|a op r a1 ops rs a2 HA _ IH]; intros n HF; cbn [length]; [by rewrite Nat.add_0_r|].
  rewrite <- Nat.add_succ_comm. apply IH. by eapply (sim_grows (holds := holds) (ok := ok)).
Qed.

(** A run that ended had enough. *)
Lemma run_code_done n fuel ops s a rs s' : holds s a → fits n a → ok (n + length ops) →
  run (run_code fuel ops) s = Done rs s' → ∃ a', allowed_run ops rs a a' ∧ holds s' a'.
Proof using SIM.
  intros HS HF HO E. destruct (run_code_allowed n ops s a HS HF HO) as [bound Hb].
  pose proof (Hb (max bound fuel) ltac:(lia)) as (rs2 & s2 & E2 & HR)%wp_run.
  pose proof (run_code_extends fuel (max bound fuel) ops ltac:(lia) s rs s' E) as E3. rewrite E2 in E3. by injection E3 as <- <-.
Qed.
End simulate.

(** ** Specifications that are functions *)

Section spec.
Context {O R A : Type} (spec : O → A → R * A).

Definition just (a : A) (op : O) (r : R) (a' : A) : Prop := r = (spec op a).1 ∧ a' = (spec op a).2.

(** What the specification says of a sequence. *)
Fixpoint run_spec (ops : list O) (a : A) : list R * A :=
  match ops with
  | [] => ([], a)
  | op :: ops =>
    let '(r, a) := spec op a in
    let '(rs, a) := run_spec ops a in (r :: rs, a)
  end.

Lemma run_just ops rs a a' : allowed_run just ops rs a a' → rs = (run_spec ops a).1 ∧ a' = (run_spec ops a).2.
Proof.
  induction 1 as [a|a op r a1 ops rs a2 [-> ->] _ [-> ->]]; [done|]. cbn [run_spec].
  destruct (spec op a) as [r a1]. cbn. by destruct (run_spec ops a1).
Qed.
End spec.
