(* ===== verification/Arena.v ===== *)
(** * The arena ([src/arena/mod.rs])

    A bump allocator over one buffer: an atomic cursor that is advanced by
    compare-and-exchange, and a chunk per thread ([tlab]) for threads that lost
    a race for it. [Arena::alloc] is a program ([free]) over the accesses that
    it makes: the shared cursor, and the slots of the running thread. [aexec]
    runs an access alone; [astep] is what an access may see between those of
    other threads, the spurious failures of the weak exchange included. *)

From S2P Require Import Prelude Free.
Local Open Scope Z_scope.

(** ** Sizes and alignments *)

Definition ARENA_ALIGN : Z := 64.

(** [x & !(align - 1)] on 64 bits. *)
Definition align_down (align x : Z) : Z := Z.land x (Z.lxor (2 ^ 64 - 1) (align - 1)).

Definition MAX_ARENA_SIZE : Z := align_down ARENA_ALIGN (2 ^ 32 - 1).

(** [u64::checked_add] and [u32::try_from]. *)
Definition checked_add (a b : Z) : option Z := if a + b <? 2 ^ 64 then Some (a + b) else None.
Definition try_u32 (x : Z) : option Z := if x <? 2 ^ 32 then Some x else None.

(** [std::alloc::Layout]. *)
Record AllocLayout := { al_size : Z; al_align : Z }.

(** What [std] guarantees of a layout, and the arena's limit on alignments. *)
Definition layout_ok (ly : AllocLayout) : Prop :=
  (0 <= al_size ly < 2 ^ 63) ∧ ∃ k, 0 <= k <= 6 ∧ al_align ly = 2 ^ k.

(** The start and end of [size] bytes at the first multiple of [align] from
    [cur] on: [cur.checked_add(align - 1)? & !(align - 1)] and
    [start.checked_add(size)?]. *)
Definition range_from (align size cur : Z) : option (Z * Z) :=
  s ← checked_add cur (align - 1);
  let start := align_down align s in
  stop ← checked_add start size;
  Some (start, stop).

(** ** Thread-local chunks *)

Module Tlab.
Definition SLOTS : nat := 4.

Record Slot := { sl_arena : Z; sl_cur : Z; sl_end : Z }.

Definition EMPTY : Slot := {| sl_arena := 0; sl_cur := 0; sl_end := 0 |}.

(** The initial value of [SLOTS_TLS]. *)
Definition slots_new : list Slot := replicate SLOTS EMPTY.

(** The closure of [take]: the slots are stored back before the offset is
    narrowed. *)
Definition take_slots (arena align size : Z) (slots : list Slot) : option Z * list Slot :=
  match position (λ s, sl_arena s =? arena) slots with
  | None => (None, slots)
  | Some i =>
    match slots !! i with
    | None => (None, slots)
    | Some s =>
      match range_from align size (sl_cur s) with
      | None => (None, slots)
      | Some (start, stop) =>
        if sl_end s <? stop then (None, slots)
        else (try_u32 start, <[i := {| sl_arena := sl_arena s; sl_cur := stop; sl_end := sl_end s |}]> slots)
      end
    end
  end.

(** [(0..SLOTS).min_by_key(room)]: the first of the least. *)
Fixpoint least (room : nat → Z) (l : list nat) : option nat :=
  match l with
  | [] => None
  | i :: l => match least room l with
               | Some j => Some (if room j <? room i then j else i)
               | None => Some i
               end
  end.

(** The slot that [install] replaces. *)
Definition victim (arena : Z) (slots : list Slot) : nat :=
  match position (λ s, sl_arena s =? arena) slots with
  | Some i => i
  | None =>
    match position (λ s, sl_arena s =? 0) slots with
    | Some i => i
    | None =>
      from_option id O (least (λ i, from_option (λ s, sl_end s - sl_cur s) 0 (slots !! i)) (seq 0 SLOTS))
    end
  end.

Definition install_slots (arena start stop : Z) (slots : list Slot) : list Slot :=
  <[victim arena slots := {| sl_arena := arena; sl_cur := start; sl_end := stop |}]> slots.

(** [SLOTS_TLS.try_with]: [None] once the thread's storage is torn down. *)
Definition take (arena align size : Z) (tls : option (list Slot)) : option Z * option (list Slot) :=
  match tls with
  | None => (None, None)
  | Some slots => let '(off, slots) := take_slots arena align size slots in (off, Some slots)
  end.
Definition install (arena start stop : Z) (tls : option (list Slot)) : option (list Slot) :=
  install_slots arena start stop <$> tls.
End Tlab.

(** ** [Arena] *)

Record Arena := {
  ar_id : Z;
  ar_cursor : Z;
  ar_base : Z;
  ar_raw : Z;
  ar_capacity : Z;
}.

Definition set_cursor (c : Z) (a : Arena) : Arena :=
  {| ar_id := ar_id a; ar_cursor := c; ar_base := ar_base a; ar_raw := ar_raw a; ar_capacity := ar_capacity a |}.

Definition raw_layout (capacity : Z) : AllocLayout := {| al_size := capacity + ARENA_ALIGN; al_align := 8 |}.

(** The requested capacity, clamped and rounded down. *)
Definition clamped (capacity : Z) : Z :=
  align_down ARENA_ALIGN (Z.max ARENA_ALIGN (Z.min capacity MAX_ARENA_SIZE)).

(** [Arena::new], with the identity that [next_arena_id] gives and the address
    of the block that [alloc_zeroed] returns for [raw_layout]. *)
Definition arena_new (id raw capacity : Z) : option Arena :=
  let capacity := clamped capacity in
  let pad := (- raw) mod ARENA_ALIGN in
  if pad <? ARENA_ALIGN then
    Some {| ar_id := id; ar_cursor := ARENA_ALIGN; ar_base := raw + pad; ar_raw := raw; ar_capacity := capacity |}
  else None.

(** The counter [NEXT] wraps at 64 bits. *)
Definition next_arena_id (next : Z) : Z := next mod 2 ^ 64.

Definition arena_size (a : Arena) : Z := Z.min (ar_cursor a) (ar_capacity a).
Definition arena_remaining (a : Arena) : Z := ar_capacity a - arena_size a.
Definition arena_is_empty (a : Arena) : bool := ar_cursor a <=? ARENA_ALIGN.
Definition arena_reset (id : Z) (a : Arena) : Arena :=
  {| ar_id := id; ar_cursor := ARENA_ALIGN; ar_base := ar_base a; ar_raw := ar_raw a; ar_capacity := ar_capacity a |}.

(** [None]: a failed debug assertion, or an address below the base. *)
Definition arena_ptr (a : Arena) (offset : Z) : option Z :=
  if (ARENA_ALIGN <=? offset) && (offset <? ar_capacity a) then Some (ar_base a + offset) else None.
Definition arena_offset_of (a : Arena) (ptr : Z) : option Z :=
  let off := ptr - ar_base a in
  if (0 <=? off) && (off <? ar_capacity a) then Some (off mod 2 ^ 32) else None.

(** ** Allocation *)

Inductive aop : Type → Type :=
| CursorLoad : aop Z
| CursorCas (old new : Z) : aop (option Z)  (** [compare_exchange_weak]: [None] is [Ok] *)
| TlabTake (arena align size : Z) : aop (option Z)
| TlabInstall (arena start stop : Z) : aop unit.

Abbreviation aprog := (free aop).
Definition access {A} (o : aop A) : aprog A := Vis o Ret.
Coercion access : aop >-> free.

Section alloc.
(** The immutable fields. *)
Context (id capacity : Z).

Definition MAX_CHUNK : Z := 16 * 1024.

Definition refill_turn (align size cur : Z) : aprog (flow Z (option Z)) :=
  let remaining := Z.max 0 (capacity - cur) in
  let chunk := Z.min MAX_CHUNK (remaining / 32) in
  match range_from ARENA_ALIGN chunk cur with
  | None => mret (Break None)
  | Some (start, stop) =>
    if (chunk <? size + align) || (capacity <? stop) then mret (Break None)
    else
      r ← access (CursorCas cur stop);
      match r with
      | None =>
        _ ← access (TlabInstall id start stop);
        off ← access (TlabTake id align size);
        mret (Break off)
      | Some actual => mret (Continue actual)
      end
  end.

Definition refill (fuel : nat) (align size cur : Z) : aprog (option Z) := loop fuel (refill_turn align size) cur.

Definition alloc_turn (fuel : nat) (align size : Z) (c : Z * bool) : aprog (flow (Z * bool) (option Z)) :=
  let '(cur, contended) := c in
  match range_from align size cur with
  | None => mret (Break None)
  | Some (start, stop) =>
    if capacity <? stop then mret (Break None)
    else
      refilled ← (if contended : bool then refill fuel align size cur else mret None);
      match refilled with
      | Some off => mret (Break (Some off))
      | None =>
        r ← access (CursorCas cur stop);
        match r with
        | None => mret (Break (Some (start mod 2 ^ 32)))
        | Some actual => mret (Continue (actual, contended || negb (actual =? cur)))
        end
      end
  end.

Definition alloc (fuel : nat) (ly : AllocLayout) : aprog (option Z) :=
  _ ← debug_assert (al_align ly <=? ARENA_ALIGN);
  let align := al_align ly in
  let size := Z.max (al_size ly) 1 in
  hit ← access (TlabTake id align size);
  match hit with
  | Some off => mret (Some off)
  | None =>
    cur ← access CursorLoad;
    loop fuel (alloc_turn fuel align size) (cur, false)
  end.
End alloc.

(** ** Running an access *)

(** The cursor and the thread's chunks. *)
Definition astate : Type := Z * option (list Tlab.Slot).

(** Alone: the exchange succeeds. *)
Definition aexec {A} (o : aop A) (s : astate) : A * astate :=
  match o in aop A return A * astate with
  | CursorLoad => (s.1, s)
  | CursorCas old new => if s.1 =? old then (None, (new, s.2)) else (Some s.1, s)
  | TlabTake arena align size => let '(off, tls) := Tlab.take arena align size s.2 in (off, (s.1, tls))
  | TlabInstall arena start stop => (tt, (s.1, Tlab.install arena start stop s.2))
  end.

Fixpoint arun {A} (p : aprog A) (s : astate) : option (A * astate) :=
  match p with
  | Ret a => Some (a, s)
  | Vis o k => let '(x, s) := aexec o s in arun (k x) s
  | Panic | OutOfFuel => None
  end.

(** Among other threads: the weak exchange may also fail spuriously. *)
Inductive astep : ∀ {A}, aop A → astate → A → astate → Prop :=
| astep_exec {A} (o : aop A) s : astep o s (aexec o s).1 (aexec o s).2
| astep_spurious old new s : astep (CursorCas old new) s (Some s.1) s.
