(* ===== verification/ArenaSpec.v ===== *)
(** * Allocations of an arena, alone and among threads

    Alone, an allocation takes the next aligned range or fails without moving
    the cursor. Among threads, [claims Q own p] follows the bytes that a
    program [p] has claimed and not handed out, [own] at first: whatever its
    accesses return, it installs and takes only what it has claimed, and [Q]
    relates what is left to its result. *)

From S2P Require Import Prelude Free Arena.
Local Open Scope Z_scope.

(** ** Alignment *)

Lemma align_down_pow2 k x : 0 <= k <= 63 → 0 <= x < 2 ^ 64 → align_down (2 ^ k) x = x - x mod 2 ^ k.
Proof.
  intros Hk Hx. unfold align_down. replace (2 ^ k - 1) with (Z.ones k) by (rewrite Z.ones_equiv; lia).
  change (2 ^ 64 - 1) with (Z.ones 64).
  assert (Z.land x (Z.lxor (Z.ones 64) (Z.ones k)) = Z.ldiff x (Z.ones k)) as ->.
  { apply Z.bits_inj'. intros n Hn. rewrite Z.land_spec, Z.lxor_spec, Z.ldiff_spec, !Z.testbit_ones by lia.
    destruct (Z.lt_ge_cases n 64) as [H|H].
    - rewrite (proj2 (Z.leb_le 0 n)) by lia. rewrite (proj2 (Z.ltb_lt n 64)) by lia.
      cbn. by destruct (n <? k).
    - rewrite (testbit_high x 64 n) by lia. done. }
  rewrite Z.ldiff_ones_r, Z.shiftl_mul_pow2, Z.shiftr_div_pow2 by lia. pose proof (Z.div_mod x (2 ^ k)). lia.
Qed.

Definition pow2_align (al : Z) : Prop := ∃ k, 0 <= k <= 6 ∧ al = 2 ^ k.

Lemma pow2_align_range al : pow2_align al → 1 <= al <= 64.
Proof. intros (k & Hk & ->). pose proof (Z.pow_pos_nonneg 2 k). pose proof (Z.pow_le_mono_r 2 k 6). lia. Qed.

Lemma pow2_align_64 : pow2_align ARENA_ALIGN.
Proof. by exists 6. Qed.

(** The range is aligned, at most [al - 1] bytes further, and the first. *)
Lemma range_from_spec al size cur start stop : pow2_align al → 0 <= cur → range_from al size cur = Some (start, stop) →
  stop = start + size ∧ cur <= start < cur + al ∧ (al | start) ∧ stop < 2 ^ 64.
Proof.
  intros Ha Hc. pose proof (pow2_align_range al Ha) as Hr. destruct Ha as (k & Hk & ->). unfold range_from, checked_add.
  destruct (Z.ltb_spec (cur + (2 ^ k - 1)) (2 ^ 64)) as [H1|]; cbn [mbind option_bind]; [|done].
  rewrite align_down_pow2 by lia. set (x := cur + (2 ^ k - 1)) in *. pose proof (Z.mod_pos_bound x (2 ^ k) ltac:(lia)) as Hm.
  destruct (Z.ltb_spec (x - x mod 2 ^ k + size) (2 ^ 64)); cbn [mbind option_bind]; [|done].
  intros [= <- <-]. split_and!; [done|lia|lia| |lia]. apply Z.mod_divide; [lia|].
  rewrite Zminus_mod, Z.mod_mod, Z.sub_diag by lia. by rewrite Z.mod_0_l by lia.
Qed.

Lemma range_from_None al size cur : pow2_align al → 0 <= cur → range_from al size cur = None → 2 ^ 64 <= cur + al - 1 + Z.max size 0.
Proof.
  intros Ha Hc. pose proof (pow2_align_range al Ha) as Hr. destruct Ha as (k & Hk & ->). unfold range_from, checked_add.
  destruct (Z.ltb_spec (cur + (2 ^ k - 1)) (2 ^ 64)) as [H1|]; cbn [mbind option_bind]; [|lia].
  rewrite align_down_pow2 by lia. set (x := cur + (2 ^ k - 1)) in *. pose proof (Z.mod_pos_bound x (2 ^ k) ltac:(lia)) as Hm.
  destruct (Z.ltb_spec (x - x mod 2 ^ k + size) (2 ^ 64)); cbn [mbind option_bind]; [done|]. lia.
Qed.

Lemma clamped_range c : (ARENA_ALIGN | clamped c) ∧ ARENA_ALIGN <= clamped c <= MAX_ARENA_SIZE ∧ MAX_ARENA_SIZE = 2 ^ 32 - 64.
Proof.
  assert (MAX_ARENA_SIZE = 2 ^ 32 - 64) as E by (vm_compute; done). unfold clamped. rewrite E. unfold ARENA_ALIGN.
  set (x := Z.max 64 (Z.min c (2 ^ 32 - 64))). assert (64 <= x <= 2 ^ 32 - 64) as Hx by lia. assert (align_down 64 x = x - x mod 64) as -> by (apply (align_down_pow2 6); lia).
  pose proof (Z.mod_pos_bound x 64 ltac:(lia)).
  pose proof (Z.div_mod x 64 ltac:(lia)). replace (x - x mod 64) with (64 * (x / 64)) by lia.
  pose proof (Z.div_le_mono 64 x 64 ltac:(lia) ltac:(lia)). change (64 / 64) with 1 in *. split_and!; [by exists (x / 64); lia|lia|lia|done].
Qed.

(** ** Claims on bytes *)

(** What an allocation under way has claimed and not yet handed out. *)
Abbreviation range := (option (Z * Z)).

Section claims.
Context (id capacity : Z).

(** What an access needs and gives: [φ own x] after the result [x]. *)
Definition access_ok {A} (own : range) (o : aop A) : (range → A → Prop) → Prop :=
  match o in aop A return (range → A → Prop) → Prop with
  | CursorLoad => λ φ, ∀ v, ARENA_ALIGN <= v <= capacity → φ None v
  | CursorCas old new => λ φ, ∃ start, old <= start <= new ∧ new <= capacity ∧ φ (Some (start, new)) None ∧
      ∀ v, ARENA_ALIGN <= v <= capacity → φ None (Some v)
  | TlabTake arena align size => λ φ, arena = id ∧ pow2_align align ∧ 0 < size ∧ φ None None ∧
      ∀ off, ARENA_ALIGN <= off → (align | off) → φ (Some (off, off + size)) (Some off)
  | TlabInstall arena start stop => λ φ, arena = id ∧ start <= stop ∧ own = Some (start, stop) ∧ φ None tt
  end.

(** A program that claims what it hands out; [Q] of its result. *)
Fixpoint claims {A} (Q : range → A → Prop) (own : range) (p : aprog A) : Prop :=
  match p with
  | Ret a => Q own a
  | Vis o k => access_ok own o (λ own x, claims Q own (k x))
  | Panic | OutOfFuel => True
  end.

Lemma access_ok_mono {A} own (o : aop A) (φ ψ : range → A → Prop) :
  (∀ own x, φ own x → ψ own x) → access_ok own o φ → access_ok own o ψ.
Proof.
  intros H. destruct o; cbn.
  - intros Hφ v Hv. by apply H, Hφ.
  - intros (s & H1 & H2 & H3 & H4). exists s. refine (conj H1 (conj H2 (conj (H _ _ H3) _))). intros v Hv. by apply H, H4.
  - intros (H1 & H2 & H3 & H4 & H5). refine (conj H1 (conj H2 (conj H3 (conj (H _ _ H4) _)))). intros off H6 H7. by apply H, H5.
  - intros (H1 & H2 & H3 & H4). exact (conj H1 (conj H2 (conj H3 (H _ _ H4)))).
Qed.

Lemma claims_bind {A B} (p : aprog A) (k : A → aprog B) Q own :
  claims (λ own a, claims Q own (k a)) own p → claims Q own (p ≫= k).
Proof.
  revert own. induction p as [a|X o k' IH| |]; intros own; cbn; [done| |done..].
  apply access_ok_mono. intros own' x. apply IH.
Qed.

Lemma claims_mono {A} (p : aprog A) (Q Q' : range → A → Prop) own :
  (∀ own a, Q own a → Q' own a) → claims Q own p → claims Q' own p.
Proof.
  intros H. revert own. induction p as [a|X o k IH| |]; intros own; cbn; [apply H| |done..].
  apply access_ok_mono. intros own' x. apply IH.
Qed.

Lemma claims_loop {S A} (I : S → Prop) fuel (body : S → aprog (flow S A)) Q x :
  (∀ own x, I x → claims (λ own r, match r with Continue x => I x | Break a => Q own a end) own (body x)) →
  I x → ∀ own, claims Q own (loop fuel body x).
Proof.
  intros Hb. revert x. induction fuel as [|fuel IH]; intros x Hx own; cbn; [done|].
  apply claims_bind. eapply claims_mono; [|by apply Hb]. intros own' [x'|a]; [|done]. intros Hx'. by apply IH.
Qed.

(** The result of an allocation: nothing, or an aligned range that is claimed. *)
Definition handed (align size : Z) (own : range) (r : option Z) : Prop :=
  match r with
  | Some off => ARENA_ALIGN <= off ∧ (align | off) ∧ own = Some (off, off + size)
  | None => True
  end.

Definition in_arena (v : Z) : Prop := ARENA_ALIGN <= v <= capacity.

Lemma refill_claims fuel align size cur own : pow2_align align → 0 < size → in_arena cur →
  claims (handed align size) own (refill id capacity fuel align size cur).
Proof.
  intros Ha Hs Hc. apply (claims_loop in_arena); [clear cur own Hc|done]. intros own cur Hc. unfold refill_turn.
  set (chunk := Z.min MAX_CHUNK _).
  destruct (range_from ARENA_ALIGN chunk cur) as [[start stop]|] eqn:E; cbn; [|done].
  destruct ((chunk <? size + align) || (capacity <? stop)) eqn:B; cbn; [done|]. apply orb_false_elim in B as [B1%Z.ltb_ge B2%Z.ltb_ge].
  pose proof (pow2_align_range _ Ha). destruct Hc as [Hc1 Hc2]. unfold ARENA_ALIGN in Hc1.
  apply range_from_spec in E as (-> & H1 & _ & _); [|apply pow2_align_64|unfold ARENA_ALIGN in *; lia].
  exists start. refine (conj _ (conj _ (conj _ _))); [lia..| |]; cbn.
  - split_and!; [done|lia|done|done|done|lia|done|]. intros off H2 H3. cbn. by split_and!.
  - intros v Hv. done.
Qed.

Lemma alloc_claims fuel ly own : layout_ok ly → capacity <= MAX_ARENA_SIZE →
  claims (handed (al_align ly) (Z.max (al_size ly) 1)) own (alloc id capacity fuel ly).
Proof.
  intros [Hs Ha] Hcap. change (pow2_align (al_align ly)) in Ha. pose proof (pow2_align_range _ Ha) as Hr. unfold alloc.
  rewrite (proj2 (Z.leb_le _ _)) by (unfold ARENA_ALIGN; lia). cbn [debug_assert mbind free_mbind free_bind access claims access_ok].
  set (size := Z.max (al_size ly) 1). split_and!; [done|done|lia| |intros off H1 H2; cbn; by split_and!].
  cbn. intros v Hv. apply (claims_loop (λ c, in_arena c.1)); [|done]. clear own v Hv. intros own [cur contended] Hc. cbn in Hc.
  unfold alloc_turn. destruct (range_from _ size cur) as [[start stop]|] eqn:E; cbn; [|done].
  apply range_from_spec in E as (-> & H1 & H2 & _); [|done|destruct Hc; unfold ARENA_ALIGN in *; lia].
  destruct (Z.ltb_spec capacity (start + size)) as [|Hfit]; cbn; [done|]. apply claims_bind.
  assert (∀ own, claims (λ own r, match r with Continue x => in_arena x.1 | Break a => handed (al_align ly) size own a end) own
    (r ← access (CursorCas cur (start + size));
     match r with
     | None => mret (Break (Some (start mod 2 ^ 32)))
     | Some actual => mret (Continue (actual, contended || negb (actual =? cur)))
     end)) as HC.
  { intros own'. cbn. exists start. destruct Hc as [Hc1 Hc2]. refine (conj _ (conj _ (conj _ _))); [lia..| |].
    - assert (MAX_ARENA_SIZE < 2 ^ 32) by (vm_compute; done). rewrite Z.mod_small by (unfold ARENA_ALIGN in *; lia).
      split_and!; [lia|done|done].
    - intros v Hv. done. }
  destruct contended.
  - eapply claims_mono; [|by apply refill_claims; [..|lia|]]. intros own' [off|]; [done|]. intros _. apply (HC own').
  - apply (HC own).
Qed.
End claims.

(** ** The chunks of a thread *)

Lemma take_slots_spec arena align size slots r slots' : Tlab.take_slots arena align size slots = (r, slots') →
  (r = None ∧ slots' = slots) ∨
  ∃ j s start stop, slots !! j = Some s ∧ Tlab.sl_arena s = arena ∧ range_from align size (Tlab.sl_cur s) = Some (start, stop) ∧
    stop <= Tlab.sl_end s ∧ slots' = <[j := {| Tlab.sl_arena := arena; Tlab.sl_cur := stop; Tlab.sl_end := Tlab.sl_end s |}]> slots ∧
    r = try_u32 start.
Proof.
  unfold Tlab.take_slots. destruct (position _ slots) as [j|] eqn:P; [|intros [= <- <-]; by left].
  apply position_Some in P as (s & Hs & Ha & _). rewrite Hs. apply Z.eqb_eq in Ha.
  destruct (range_from align size (Tlab.sl_cur s)) as [[start stop]|] eqn:E; [|intros [= <- <-]; by left].
  destruct (Z.ltb_spec (Tlab.sl_end s) stop); intros [= <- <-]; [by left|right]. exists j, s, start, stop. by rewrite Ha.
Qed.

(** The first multiple of [align] from [c] on. *)
Definition next_aligned (align c off : Z) : Prop := (align | off) ∧ c <= off < c + align.

Lemma next_aligned_least align c off off' : 0 < align → next_aligned align c off → c <= off' → (align | off') → off <= off'.
Proof.
  intros Ha [[x ->] H1] H2 [y ->]. destruct (Z.le_gt_cases x y); [by apply Z.mul_le_mono_nonneg_r; lia|].
  assert ((y + 1) * align <= x * align) by (apply Z.mul_le_mono_nonneg_r; lia). lia.
Qed.

(** No multiple of [align] from [c] on leaves [size] bytes before [stop]. *)
Definition no_room (align size c stop : Z) : Prop := ∀ off, c <= off → (align | off) → stop < off + size.

(** Whether the range fits before [stop]. *)
Lemma range_from_fits align size c stop : pow2_align align → 0 < size → 0 <= c → stop < 2 ^ 32 →
  match range_from align size c with
  | Some (off, next) => next = off + size ∧ next_aligned align c off ∧ (stop < next → no_room align size c stop)
  | None => no_room align size c stop
  end.
Proof.
  intros Ha Hs Hc Hstop. pose proof (pow2_align_range _ Ha) as Hr. destruct (range_from align size c) as [[off next]|] eqn:E.
  - apply range_from_spec in E as (-> & E1 & E2 & _); [|done..]. split_and!; [done|by split|]. intros Hlt off' H1 H2.
    assert (off <= off'); [|lia]. eapply (next_aligned_least align c); [lia|by split|done..].
  - apply range_from_None in E; [|done..]. intros off' H1 H2. lia.
Qed.

(** The first of a thread's chunks in the arena. *)
Definition first_chunk (arena : Z) (slots : list Tlab.Slot) (j : nat) (s : Tlab.Slot) : Prop :=
  slots !! j = Some s ∧ Tlab.sl_arena s = arena ∧ ∀ i s', (i < j)%nat → slots !! i = Some s' → Tlab.sl_arena s' ≠ arena.

Lemma first_chunk_position arena slots j s : first_chunk arena slots j s ↔
  position (λ s, Tlab.sl_arena s =? arena) slots = Some j ∧ slots !! j = Some s.
Proof.
  rewrite position_Some. split.
  - intros (H1 & H2 & H3). split; [|done]. exists s. split_and!; [done|by apply Z.eqb_eq|].
    intros i s' Hi Hs'. apply Z.eqb_neq. by eapply H3.
  - intros [(s0 & H1 & H2 & H3) H4]. assert (s0 = s) as -> by congruence. split_and!; [done|by apply Z.eqb_eq|].
    intros i s' Hi Hs'. apply Z.eqb_neq. by eapply H3.
Qed.

Definition chunks_fit (capacity arena : Z) (tls : option (list Tlab.Slot)) : Prop := ∀ slots s,
  tls = Some slots → s ∈ slots → Tlab.sl_arena s = arena → 0 <= Tlab.sl_cur s ∧ Tlab.sl_end s <= capacity.

(** The next range of the chunk, or none if it has no room. *)
Lemma take_cases capacity arena align size tls : pow2_align align → 0 < size → capacity < 2 ^ 32 → chunks_fit capacity arena tls →
  (∃ slots j s off, tls = Some slots ∧ first_chunk arena slots j s ∧
    next_aligned align (Tlab.sl_cur s) off ∧ off + size <= Tlab.sl_end s ∧
    Tlab.take arena align size tls = (Some off,
      Some (<[j := {| Tlab.sl_arena := arena; Tlab.sl_cur := off + size; Tlab.sl_end := Tlab.sl_end s |}]> slots))) ∨
  Tlab.take arena align size tls = (None, tls) ∧
    ∀ slots j s, tls = Some slots → first_chunk arena slots j s → no_room align size (Tlab.sl_cur s) (Tlab.sl_end s).
Proof.
  intros Ha Hs Hcap HF. destruct tls as [slots|]; [|by right]. cbn [Tlab.take]. unfold Tlab.take_slots.
  destruct (position _ slots) as [j|] eqn:P.
  2: { right. split; [done|]. intros ? j s [= <-] [P' _]%first_chunk_position. congruence. }
  destruct (proj1 (position_Some _ _ _) P) as (s & Hj & _). rewrite Hj.
  assert (first_chunk arena slots j s) as FC by by apply first_chunk_position.
  assert (∀ j' s', first_chunk arena slots j' s' → s' = s) as Huniq.
  { intros j' s' [P' Hj']%first_chunk_position. congruence. }
  pose proof FC as (_ & Hid & _). destruct (HF slots s eq_refl ltac:(by eapply list_elem_of_lookup_2) Hid) as [H0 Hend].
  pose proof (range_from_fits align size (Tlab.sl_cur s) (Tlab.sl_end s) Ha Hs H0 ltac:(lia)) as HR.
  destruct (range_from align size (Tlab.sl_cur s)) as [[off next]|].
  2: { right. split; [done|]. by intros ? j' s' [= <-] ->%Huniq. }
  destruct HR as (-> & HN & HR). destruct (Z.ltb_spec (Tlab.sl_end s) (off + size)) as [Hlt|Hle].
  - right. split; [done|]. intros ? j' s' [= <-] ->%Huniq. by apply HR.
  - left. exists slots, j, s, off. unfold try_u32. rewrite (proj2 (Z.ltb_lt off (2 ^ 32))) by lia. by rewrite Hid.
Qed.

(** ** Alone *)

(** What an allocation alone returns, and the cursor and chunks that it leaves. *)
Definition alloc_alone (id capacity : Z) (ly : AllocLayout) (s : astate) : option Z * astate :=
  let size := Z.max (al_size ly) 1 in
  let '(hit, tls) := Tlab.take id (al_align ly) size s.2 in
  match hit with
  | Some off => (Some off, (s.1, tls))
  | None =>
    match range_from (al_align ly) size s.1 with
    | Some (start, stop) => if capacity <? stop then (None, (s.1, tls)) else (Some start, (stop, tls))
    | None => (None, (s.1, tls))
    end
  end.

Lemma arun_alloc id capacity fuel ly s : (0 < fuel)%nat → layout_ok ly → 0 <= s.1 → capacity <= MAX_ARENA_SIZE →
  arun (alloc id capacity fuel ly) s = Some (alloc_alone id capacity ly s).
Proof.
  intros Hf [Hs Ha] H0 Hcap. change (pow2_align (al_align ly)) in Ha. pose proof (pow2_align_range _ Ha) as Hr.
  unfold alloc, alloc_alone. rewrite (proj2 (Z.leb_le _ _)) by (unfold ARENA_ALIGN; lia).
  cbn [debug_assert mbind free_mbind free_bind access arun aexec]. set (size := Z.max (al_size ly) 1).
  destruct (Tlab.take id (al_align ly) size s.2) as [[off|] tls]; cbn [free_bind]; [done|]. cbn [arun aexec fst snd].
  destruct fuel as [|fuel]; [lia|]. cbn [free_bind loop alloc_turn mbind free_mbind].
  destruct (range_from (al_align ly) size s.1) as [[start stop]|] eqn:E; [|done].
  apply range_from_spec in E as (-> & H1 & H2 & H3); [|done..].
  destruct (Z.ltb_spec capacity (start + size)); [done|]. cbn. rewrite Z.eqb_refl. cbn.
  assert (MAX_ARENA_SIZE < 2 ^ 32) by (vm_compute; done). by rewrite Z.mod_small by lia.
Qed.
