(* ===== verification/ArenaThm.v ===== *)
(** * What an arena promises

    Its allocations never overlap, whatever the threads and the interleaving of
    their accesses, resets included; alone, one takes the next aligned range
    that fits or leaves the arena as it was.

    [world] is a program that uses arenas: any number of threads, each with its
    chunks and at most one allocation under way, arenas that are created, reset
    and dropped, and the log of the allocations made. [wstep] interleaves them,
    one access at a time; the invariant is that every byte handed out is claimed
    once: by the log, by a chunk, or by an allocation under way. *)

From S2P Require Import Prelude Free Arena ArenaSpec.
Local Open Scope Z_scope.

(** ** Threads that share arenas *)

(** A thread: its chunks, and the allocation under way, if any. *)
Record athread := {
  th_tlab : option (list Tlab.Slot);
  th_run : option (nat * AllocLayout * aprog (option Z));
}.

(** An allocation that was made: the identity of the arena, and the range. *)
Record handout := { ho_id : Z; ho_start : Z; ho_layout : AllocLayout }.

Definition ho_size (h : handout) : Z := Z.max (al_size (ho_layout h)) 1.

Record world := {
  w_arenas : gmap nat Arena;
  w_next : Z;               (** how often [next_arena_id] was called, plus one *)
  w_threads : nat → athread;
  w_log : list handout;
}.

Definition world_init : world :=
  {| w_arenas := ∅; w_next := 1; w_threads := λ _, {| th_tlab := Some Tlab.slots_new; th_run := None |}; w_log := [] |}.

Definition set_athread (w : world) (t : nat) (th : athread) : nat → athread :=
  λ u, if decide (u = t) then th else w_threads w u.

(** No allocation in the arena is under way: [reset] and drop are exclusive. *)
Definition unused (w : world) (a : nat) : Prop := ∀ t b ly p, th_run (w_threads w t) = Some (b, ly, p) → b ≠ a.

Inductive wstep (w : world) : world → Prop :=
| wstep_new a raw capacity A :
  w_arenas w !! a = None → arena_new (next_arena_id (w_next w)) raw capacity = Some A →
  wstep w {| w_arenas := <[a := A]> (w_arenas w); w_next := w_next w + 1; w_threads := w_threads w; w_log := w_log w |}
| wstep_reset a A :
  w_arenas w !! a = Some A → unused w a →
  wstep w {| w_arenas := <[a := arena_reset (next_arena_id (w_next w)) A]> (w_arenas w); w_next := w_next w + 1;
             w_threads := w_threads w; w_log := w_log w |}
| wstep_drop a :
  unused w a →
  wstep w {| w_arenas := delete a (w_arenas w); w_next := w_next w; w_threads := w_threads w; w_log := w_log w |}
| wstep_call t a A ly fuel :
  th_run (w_threads w t) = None → w_arenas w !! a = Some A → layout_ok ly →
  wstep w {| w_arenas := w_arenas w; w_next := w_next w; w_log := w_log w;
             w_threads := set_athread w t {| th_tlab := th_tlab (w_threads w t);
                                             th_run := Some (a, ly, alloc (ar_id A) (ar_capacity A) fuel ly) |} |}
| wstep_access t a A ly X (o : aop X) k x s :
  th_run (w_threads w t) = Some (a, ly, Vis o k) → w_arenas w !! a = Some A →
  astep o (ar_cursor A, th_tlab (w_threads w t)) x s →
  wstep w {| w_arenas := <[a := set_cursor s.1 A]> (w_arenas w); w_next := w_next w; w_log := w_log w;
             w_threads := set_athread w t {| th_tlab := s.2; th_run := Some (a, ly, k x) |} |}
| wstep_return t a A ly r :
  th_run (w_threads w t) = Some (a, ly, Ret r) → w_arenas w !! a = Some A →
  wstep w {| w_arenas := w_arenas w; w_next := w_next w;
             w_log := w_log w ++ (if r is Some off then [{| ho_id := ar_id A; ho_start := off; ho_layout := ly |}] else []);
             w_threads := set_athread w t {| th_tlab := th_tlab (w_threads w t); th_run := None |} |}
| wstep_teardown t :
  wstep w {| w_arenas := w_arenas w; w_next := w_next w; w_log := w_log w;
             w_threads := set_athread w t {| th_tlab := None; th_run := th_run (w_threads w t) |} |}.

Inductive wreachable : world → Prop :=
| wreach_init : wreachable world_init
| wreach_step w w' : wreachable w → wstep w w' → wreachable w'.

(** ** The invariant *)

(** Who claims a range: a handout, a chunk, or an allocation under way. *)
Inductive owner := OLog (n : nat) | OChunk (t j : nat) | ORun (t : nat).

#[export] Instance owner_eq_dec : EqDecision owner.
Proof. solve_decision. Defined.

Definition claim (w : world) (own : nat → range) (i : Z) (o : owner) : range :=
  match o with
  | OLog n => h ← w_log w !! n; if decide (ho_id h = i) then Some (ho_start h, ho_start h + ho_size h) else None
  | OChunk t j => slots ← th_tlab (w_threads w t); s ← slots !! j;
                  if decide (Tlab.sl_arena s = i) then Some (Tlab.sl_cur s, Tlab.sl_end s) else None
  | ORun t => if th_run (w_threads w t) is Some (a, _, _) then
                j ← ar_id <$> w_arenas w !! a; if decide (j = i) then own t else None
              else None
  end.

Definition apart (r1 r2 : Z * Z) : Prop := r1.2 <= r2.1 ∨ r2.2 <= r1.1.

Record winv (w : world) (own : nat → range) : Prop := {
  wi_arena a A : w_arenas w !! a = Some A →
    1 <= ar_id A < w_next w ∧ ARENA_ALIGN <= ar_cursor A <= ar_capacity A ∧ ar_capacity A <= MAX_ARENA_SIZE ∧ (ARENA_ALIGN | ar_base A);
  wi_ids a b A A' : w_arenas w !! a = Some A → w_arenas w !! b = Some A' → ar_id A = ar_id A' → a = b;
  wi_next : 1 <= w_next w;
  wi_claim i o r : claim w own i o = Some r → i < w_next w ∧ r.1 <= r.2 ∧
    ∀ a A, w_arenas w !! a = Some A → ar_id A = i → ARENA_ALIGN <= r.1 ∧ r.2 <= ar_cursor A;
  wi_apart i o o' r r' : 1 <= i → o ≠ o' → claim w own i o = Some r → claim w own i o' = Some r' → apart r r';
  wi_run t a ly p : th_run (w_threads w t) = Some (a, ly, p) → layout_ok ly ∧ ∃ A, w_arenas w !! a = Some A ∧
    claims (ar_id A) (ar_capacity A) (handed (al_align ly) (Z.max (al_size ly) 1)) (own t) p;
  wi_log h : h ∈ w_log w → layout_ok (ho_layout h) ∧ (al_align (ho_layout h) | ho_start h);
}.

Lemma apart_sym r1 r2 : apart r1 r2 → apart r2 r1.
Proof. unfold apart. lia. Qed.

(** Where the claims of the next world come from: inside a claim of this one, or
    the bytes that the cursor passed. *)
Record sourced (w w' : world) (own own' : nat → range) (source : owner → option owner) : Prop := {
  sr_next : w_next w <= w_next w';
  sr_arena a A' : w_arenas w' !! a = Some A' → ar_id A' = w_next w ∨
    ∃ A, w_arenas w !! a = Some A ∧ ar_id A' = ar_id A ∧ ar_cursor A <= ar_cursor A';
  sr_claim i o r' : claim w' own' i o = Some r' → r'.1 <= r'.2 ∧
    match source o with
    | Some o1 => ∃ r1, claim w own i o1 = Some r1 ∧ r1.1 <= r'.1 ∧ r'.2 <= r1.2
    | None => ∃ a A A', w_arenas w !! a = Some A ∧ w_arenas w' !! a = Some A' ∧ ar_id A = i ∧ ar_id A' = i ∧
        ar_cursor A <= r'.1 ∧ r'.2 <= ar_cursor A'
    end;
  sr_apart i o o' r r' : o ≠ o' → source o = source o' → claim w' own' i o = Some r → claim w' own' i o' = Some r' → apart r r';
}.

Lemma sourced_claims w w' own own' source : winv w own → sourced w w' own own' source →
  (∀ a b A A', w_arenas w' !! a = Some A → w_arenas w' !! b = Some A' → ar_id A = ar_id A' → a = b) →
  (∀ i o r, claim w' own' i o = Some r → i < w_next w' ∧ r.1 <= r.2 ∧
    ∀ a A, w_arenas w' !! a = Some A → ar_id A = i → ARENA_ALIGN <= r.1 ∧ r.2 <= ar_cursor A) ∧
  (∀ i o o' r r', 1 <= i → o ≠ o' → claim w' own' i o = Some r → claim w' own' i o' = Some r' → apart r r').
Proof.
  intros [HA HI HN HC HP _ _] [SN SA SC SP] HI'. split.
  - intros i o r Hr. destruct (SC i o r Hr) as [Hle HS]. destruct (source o) as [o1|].
    + destruct HS as (r1 & Hr1 & H1 & H2). destruct (HC i o1 r1 Hr1) as (L1 & L2 & L3). split_and!; [lia|done|].
      intros a A' Ha Hi. destruct (SA a A' Ha) as [E|(A & HA' & E & Hc)]; [lia|].
      destruct (L3 a A HA' ltac:(lia)). split; lia.
    + destruct HS as (a & A & A' & Ha & Ha' & Hi & Hi' & H1 & H2). destruct (HA a A Ha) as (B1 & B2 & _). split_and!; [lia|done|].
      intros b Ab Hb Eb. assert (b = a) as -> by (eapply HI'; [done..|congruence]). assert (Ab = A') as -> by congruence. split; lia.
  - intros i o o' r r' H1 Hne Hr Hr'. destruct (SC i o r Hr) as [Hle HS]. destruct (SC i o' r' Hr') as [Hle' HS'].
    assert (∀ o1 r1 rn, claim w own i o1 = Some r1 →
      (∃ a A A', w_arenas w !! a = Some A ∧ w_arenas w' !! a = Some A' ∧ ar_id A = i ∧ ar_id A' = i ∧
        ar_cursor A <= rn.1 ∧ rn.2 <= ar_cursor A') → r1.2 <= rn.1) as Hnew.
    { intros o1 r1 rn Ho1 (a & A & A' & Ha & _ & Hi & _ & H2 & _). destruct (HC i o1 r1 Ho1) as (_ & _ & L). destruct (L a A Ha Hi). lia. }
    destruct (source o) as [o1|] eqn:E1, (source o') as [o2|] eqn:E2.
    + destruct HS as (r1 & Hr1 & A1 & A2), HS' as (r2 & Hr2 & B1 & B2). destruct (decide (o1 = o2)) as [->|Hne12].
      { eapply SP; [exact Hne|congruence|done..]. }
      destruct (HP i o1 o2 r1 r2 H1 Hne12 Hr1 Hr2); unfold apart; lia.
    + destruct HS as (r1 & Hr1 & A1 & A2). pose proof (Hnew _ _ _ Hr1 HS'). unfold apart. lia.
    + destruct HS' as (r1 & Hr1 & A1 & A2). pose proof (Hnew _ _ _ Hr1 HS). unfold apart. lia.
    + eapply SP; [exact Hne|congruence|done..].
Qed.

Lemma winv_init : winv world_init (λ _, None).
Proof.
  assert (∀ i o r, claim world_init (λ _, None) i o = Some r → i = 0 ∧ r = (0, 0)) as HC.
  { intros i [n|t j|t] r Hr; cbn in Hr; [done| |done]. apply bind_Some in Hr as (s & Hs & Hr).
    change (replicate Tlab.SLOTS Tlab.EMPTY !! j = Some s) in Hs. apply lookup_replicate in Hs as [-> _]. cbn in Hr. case_decide; [|done]. by injection Hr as <-. }
  split; cbn; try done.
  - intros i o r Hr. destruct (HC i o r Hr) as [-> ->]. cbn. split_and!; [lia|lia|]. intros a A Ha. by rewrite lookup_empty in Ha.
  - intros i o o' r r' Hi _ Hr _. destruct (HC i o r Hr) as [-> _]. lia.
  - intros h Hh. by apply not_elem_of_nil in Hh.
Qed.

(** The thread at work takes a step in its arena. *)
Definition set_own (own : nat → range) (t : nat) (r : range) : nat → range := λ u, if decide (u = t) then r else own u.

Lemma set_athread_eq w t th : set_athread w t th t = th.
Proof. unfold set_athread. by rewrite decide_True. Qed.

Lemma set_athread_ne w t th u : u ≠ t → set_athread w t th u = w_threads w u.
Proof. intros. unfold set_athread. by rewrite decide_False. Qed.

Lemma claim_le w own i o r : winv w own → claim w own i o = Some r → r.1 <= r.2.
Proof. intros W Hr. apply (wi_claim w own W i o r Hr). Qed.

(** Arenas come, go and get a fresh identity while nobody allocates from them. *)
Lemma winv_arenas w own arenas next : winv w own → w_next w <= next →
  (∀ t a ly p, th_run (w_threads w t) = Some (a, ly, p) → arenas !! a = w_arenas w !! a) →
  (∀ a A, arenas !! a = Some A → w_arenas w !! a = Some A ∨
    ar_id A = w_next w ∧ w_next w < next ∧ ARENA_ALIGN <= ar_cursor A <= ar_capacity A ∧ ar_capacity A <= MAX_ARENA_SIZE ∧ (ARENA_ALIGN | ar_base A)) →
  (∀ a b A A', arenas !! a = Some A → arenas !! b = Some A' → ar_id A = w_next w → ar_id A' = w_next w → a = b) →
  winv {| w_arenas := arenas; w_next := next; w_threads := w_threads w; w_log := w_log w |} own.
Proof.
  intros W Hnext Hrun Hold Hone. set (w' := {| w_arenas := arenas |}).
  assert (∀ a b A A', arenas !! a = Some A → arenas !! b = Some A' → ar_id A = ar_id A' → a = b) as HI.
  { intros a b A A' Ha Hb E. destruct (Hold a A Ha) as [Ha'|(E1 & _)], (Hold b A' Hb) as [Hb'|(E2 & _)].
    - by eapply (wi_ids w own W).
    - pose proof (proj1 (wi_arena w own W a A Ha')). lia.
    - pose proof (proj1 (wi_arena w own W b A' Hb')). lia.
    - eapply Hone; [done..|congruence]. }
  assert (sourced w w' own own Some) as S.
  { split; [done| | |].
    - intros a A Ha. destruct (Hold a A Ha) as [Ha'|(E1 & _)]; [right|by left]. by exists A.
    - intros i o r Hr. assert (claim w own i o = Some r) as Hr'.
      { destruct o as [n|t j|t]; [done..|]. cbn in Hr |- *. destruct (th_run (w_threads w t)) as [[[a ly] p]|] eqn:E; cbn in *; [|done].
        by rewrite (Hrun t a ly p E) in Hr. }
      split; [by eapply claim_le|]. exists r. split_and!; [done|lia..].
    - intros i o o' r r' Hne [= E]. done. }
  destruct (sourced_claims w w' own own Some W S HI) as [HC HP]. split; [| |pose proof (wi_next w own W); cbn; lia|exact HC|exact HP| |apply W].
  - intros a A Ha. destruct (Hold a A Ha) as [Ha'|(E1 & E2 & E3)].
    + destruct (wi_arena w own W a A Ha') as (H1 & H2). split; [cbn; lia|done].
    + split; [pose proof (wi_next w own W); cbn; lia|done].
  - exact HI.
  - intros t a ly p Hr. destruct (wi_run w own W t a ly p Hr) as (H1 & A & HA & H2). split; [done|]. exists A. split; [|done].
    cbn. by rewrite (Hrun t a ly p Hr).
Qed.

(** A step of thread [t] that leaves the arenas but for the cursor of its own. *)
Lemma winv_thread w own t th a A c r log source : winv w own → w_arenas w !! a = Some A → ar_cursor A <= c <= ar_capacity A →
  let w' := {| w_arenas := <[a := set_cursor c A]> (w_arenas w); w_next := w_next w; w_log := log; w_threads := set_athread w t th |} in
  let own' := set_own own t r in
  (∀ i o r', claim w' own' i o = Some r' → r'.1 <= r'.2 ∧
    match source o with
    | Some o1 => ∃ r1, claim w own i o1 = Some r1 ∧ r1.1 <= r'.1 ∧ r'.2 <= r1.2
    | None => i = ar_id A ∧ ar_cursor A <= r'.1 ∧ r'.2 <= c
    end) →
  (∀ i o o' r r', o ≠ o' → source o = source o' → claim w' own' i o = Some r → claim w' own' i o' = Some r' → apart r r') →
  (∀ b ly p, th_run th = Some (b, ly, p) → b = a ∧ layout_ok ly ∧
    claims (ar_id A) (ar_capacity A) (handed (al_align ly) (Z.max (al_size ly) 1)) r p) →
  (∀ h, h ∈ log → h ∈ w_log w ∨ layout_ok (ho_layout h) ∧ (al_align (ho_layout h) | ho_start h)) →
  winv w' own'.
Proof.
  intros W Ha Hc w' own' HS HP Hrun Hlog.
  assert (∀ b B', w_arenas w' !! b = Some B' → ∃ B, w_arenas w !! b = Some B ∧ ar_id B' = ar_id B ∧ ar_capacity B' = ar_capacity B ∧
    ar_base B' = ar_base B ∧ ar_cursor B <= ar_cursor B' <= ar_capacity B) as HB.
  { intros b B'. cbn. rewrite lookup_insert_Some. intros [[<- <-]|[_ Hb]].
    - exists A. by split_and!; [..|cbn; lia|cbn; lia].
    - exists B'. destruct (wi_arena w own W b B' Hb) as (_ & ? & _). by split_and!; [..|lia|lia]. }
  assert (∀ a b A A', w_arenas w' !! a = Some A → w_arenas w' !! b = Some A' → ar_id A = ar_id A' → a = b) as HI.
  { intros b1 b2 B1 B2 H1 H2 E. destruct (HB _ _ H1) as (C1 & D1 & E1 & _), (HB _ _ H2) as (C2 & D2 & E2 & _).
    eapply (wi_ids w own W); [done..|congruence]. }
  assert (sourced w w' own own' source) as S.
  { split; [cbn; lia| | |exact HP].
    - intros b B' Hb. destruct (HB _ _ Hb) as (B & H1 & H2 & _ & _ & H3). right. exists B. split_and!; [done..|lia].
    - intros i o r' Hr. destruct (HS i o r' Hr) as [H1 H2]. split; [done|]. destruct (source o); [done|].
      destruct H2 as (-> & H2 & H3). exists a, A, (set_cursor c A). cbn. rewrite lookup_insert_eq. by split_and!. }
  destruct (sourced_claims w w' own own' source W S HI) as [HC HP']. split; [| |apply W|exact HC|exact HP'| |].
  - intros b B' Hb. destruct (HB _ _ Hb) as (B & H1 & -> & -> & -> & H3). destruct (wi_arena w own W b B H1) as (X1 & X2 & X3 & X4).
    split; [exact X1|]. split; [lia|done].
  - exact HI.
  - intros u b ly p. cbn. unfold own', set_own, set_athread. destruct (decide (u = t)) as [->|Hne]; intros Hr.
    + destruct (Hrun b ly p Hr) as (-> & H1 & H2). split; [done|]. exists (set_cursor c A). by rewrite lookup_insert_eq.
    + destruct (wi_run w own W u b ly p Hr) as (H1 & B & HB' & H2). split; [done|]. destruct (decide (b = a)) as [->|Hb].
      * exists (set_cursor c A). rewrite lookup_insert_eq. assert (B = A) as -> by congruence. done.
      * exists B. by rewrite lookup_insert_ne.
  - intros h Hh. destruct (Hlog h Hh) as [Hold|]; [|done]. by apply (wi_log w own W).
Qed.

Lemma claim_same w w' own own' t i o :
  (∀ u, u ≠ t → w_threads w' u = w_threads w u ∧ own' u = own u) →
  (∀ b, ar_id <$> w_arenas w' !! b = ar_id <$> w_arenas w !! b) →
  match o with OLog n => w_log w' !! n = w_log w !! n | OChunk u _ | ORun u => u ≠ t end →
  claim w' own' i o = claim w own i o.
Proof.
  intros HT HA. destruct o as [n|u j|u]; cbn; intros Hu.
  - by rewrite Hu.
  - by destruct (HT u Hu) as [-> _].
  - destruct (HT u Hu) as [-> ->]. destruct (th_run _) as [[[a ly] p]|]; cbn; [|done]. by rewrite HA.
Qed.

Lemma ids_cursor w a A c b : w_arenas w !! a = Some A →
  ar_id <$> <[a := set_cursor c A]> (w_arenas w) !! b = ar_id <$> w_arenas w !! b.
Proof. intros Ha. rewrite lookup_insert. case_decide as E; [subst; by rewrite Ha|done]. Qed.

Lemma cursor_id w a A : w_arenas w !! a = Some A → <[a := set_cursor (ar_cursor A) A]> (w_arenas w) = w_arenas w.
Proof. intros Ha. apply insert_id. by destruct A. Qed.

Section thread.
Context (w : world) (own : nat → range) (t a : nat) (A : Arena) (W : winv w own) (HA : w_arenas w !! a = Some A).

Definition moved (th : athread) (c : Z) (log : list handout) : world :=
  {| w_arenas := <[a := set_cursor c A]> (w_arenas w); w_next := w_next w; w_log := log; w_threads := set_athread w t th |}.

Lemma moved_still th log : moved th (ar_cursor A) log =
  {| w_arenas := w_arenas w; w_next := w_next w; w_threads := set_athread w t th; w_log := log |}.
Proof. unfold moved. by rewrite cursor_id. Qed.

(** The claims that thread [t] does not touch. *)
Lemma claim_moved th c log r i o :
  match o with OLog n => log !! n = w_log w !! n | OChunk u _ | ORun u => u ≠ t end →
  claim (moved th c log) (set_own own t r) i o = claim w own i o.
Proof.
  intros Ho. apply (claim_same _ _ _ _ t); [|by intros b; apply ids_cursor|done]. intros u Hu. cbn. rewrite set_athread_ne by done.
  unfold set_own. by rewrite decide_False.
Qed.

Lemma claim_moved_run th c log r i ly p : th_run th = Some (a, ly, p) →
  claim (moved th c log) (set_own own t r) i (ORun t) = if decide (ar_id A = i) then r else None.
Proof.
  intros Hr. cbn. rewrite set_athread_eq, Hr. cbn. rewrite lookup_insert_eq. cbn. unfold set_own. by rewrite (decide_True _ _ (eq_refl t)).
Qed.

Lemma claim_moved_idle th c log r i : th_run th = None → claim (moved th c log) (set_own own t r) i (ORun t) = None.
Proof. intros Hr. cbn. by rewrite set_athread_eq, Hr. Qed.

Lemma claim_moved_chunk th c log r i j :
  claim (moved th c log) (set_own own t r) i (OChunk t j) =
  (slots ← th_tlab th; s ← slots !! j; if decide (Tlab.sl_arena s = i) then Some (Tlab.sl_cur s, Tlab.sl_end s) else None).
Proof. cbn. by rewrite set_athread_eq. Qed.

(** A step that gives up what was under way, or claims what the cursor passes. *)
Lemma winv_keep th c r : ar_cursor A <= c <= ar_capacity A → th_tlab th = th_tlab (w_threads w t) →
  (∀ x, r = Some x → ar_cursor A <= x.1 <= x.2 ∧ x.2 = c) →
  (∀ b ly p, th_run th = Some (b, ly, p) → b = a ∧ layout_ok ly ∧
    claims (ar_id A) (ar_capacity A) (handed (al_align ly) (Z.max (al_size ly) 1)) r p) →
  winv (moved th c (w_log w)) (set_own own t r).
Proof.
  intros Hc Ht Hr Hrun. apply (winv_thread w own t th a A c r (w_log w) (λ o, if decide (o = ORun t) then None else Some o)); [done..| | |done|by left].
  - intros i o r' Hr'. change (claim (moved th c (w_log w)) (set_own own t r) i o = Some r') in Hr'. destruct (decide (o = ORun t)) as [->|Hne].
    + destruct (th_run th) as [[[b ly] p]|] eqn:E; [|by rewrite claim_moved_idle in Hr'].
      destruct (Hrun b ly p eq_refl) as (-> & _). rewrite (claim_moved_run _ _ _ _ _ _ _ E) in Hr'. case_decide; [|done].
      destruct (Hr r' Hr') as [H1 H2]. split_and!; [lia|done|lia|lia].
    + assert (claim w own i o = Some r') as Hold.
      { rewrite <- Hr'. destruct o as [n|u j|u]; [by rewrite claim_moved| |].
        - destruct (decide (u = t)) as [->|]; [|by rewrite claim_moved]. rewrite claim_moved_chunk, Ht. done.
        - rewrite claim_moved; [done|congruence]. }
      split; [by eapply claim_le|]. exists r'. split_and!; [done|lia..].
  - intros i o o' r1 r2 Hne E. do 2 case_decide; subst; congruence.
Qed.

Context (ly : AllocLayout) (p0 : aprog (option Z)) (Hrun0 : th_run (w_threads w t) = Some (a, ly, p0)).

Lemma claim_run : claim w own (ar_id A) (ORun t) = own t.
Proof. cbn. rewrite Hrun0. cbn. rewrite HA. cbn. by rewrite decide_True. Qed.

(** A piece is taken from the front of a chunk. *)
Lemma winv_take th slots j x start stop r p : th_tlab (w_threads w t) = Some slots → slots !! j = Some x → Tlab.sl_arena x = ar_id A →
  Tlab.sl_cur x <= start <= stop → stop <= Tlab.sl_end x →
  th_tlab th = Some (<[j := {| Tlab.sl_arena := ar_id A; Tlab.sl_cur := stop; Tlab.sl_end := Tlab.sl_end x |}]> slots) →
  r = None ∨ r = Some (start, stop) →
  th_run th = Some (a, ly, p) → claims (ar_id A) (ar_capacity A) (handed (al_align ly) (Z.max (al_size ly) 1)) r p →
  winv (moved th (ar_cursor A) (w_log w)) (set_own own t r).
Proof.
  intros Hs Hj Hx H1 H2 Ht Hr Hrun Hp. destruct (wi_run w own W t a ly p0 Hrun0) as [Hly _].
  assert (claim w own (ar_id A) (OChunk t j) = Some (Tlab.sl_cur x, Tlab.sl_end x)) as Hold.
  { cbn. rewrite Hs. cbn. rewrite Hj. cbn. by rewrite decide_True. }
  assert (∀ i, claim (moved th (ar_cursor A) (w_log w)) (set_own own t r) i (OChunk t j) =
    if decide (ar_id A = i) then Some (stop, Tlab.sl_end x) else None) as Hnew.
  { intros i. rewrite claim_moved_chunk, Ht. cbn. rewrite list_lookup_insert_eq by by eapply lookup_lt_Some. done. }
  destruct (wi_arena w own W a A HA) as (_ & HAc & _).
  apply (winv_thread w own t th a A (ar_cursor A) r (w_log w) (λ o, Some (if decide (o = ORun t) then OChunk t j else o))); [done|done|lia| | | |by left].
  - intros i o r' Hr'. change (claim (moved th (ar_cursor A) (w_log w)) (set_own own t r) i o = Some r') in Hr'. case_decide as Eo.
    + subst o. rewrite (claim_moved_run _ _ _ _ _ _ _ Hrun) in Hr'. case_decide as Ei; [subst i|done].
      destruct Hr as [->| ->]; [done|]. injection Hr' as <-. cbn. split; [lia|]. eexists. split; [exact Hold|]. cbn. lia.
    + destruct (decide (o = OChunk t j)) as [->|Hne].
      * rewrite Hnew in Hr'. case_decide as Ei; [subst i|done]. injection Hr' as <-. cbn. split; [lia|]. eexists. split; [exact Hold|]. cbn. lia.
      * assert (claim w own i o = Some r') as Ho.
        { rewrite <- Hr'. destruct o as [n|u k|u]; [by rewrite claim_moved| |rewrite claim_moved; [done|congruence]].
          destruct (decide (u = t)) as [->|]; [|by rewrite claim_moved]. rewrite claim_moved_chunk, Ht. cbn. rewrite Hs. cbn.
          rewrite list_lookup_insert_ne by congruence. done. }
        split; [by eapply claim_le|]. exists r'. split_and!; [done|lia..].
  - intros i o o' r1 r2 Hne [= E] Hr1 Hr2. change (claim (moved th (ar_cursor A) (w_log w)) (set_own own t r) i o = Some r1) in Hr1.
    change (claim (moved th (ar_cursor A) (w_log w)) (set_own own t r) i o' = Some r2) in Hr2.
    assert (∀ r1 r2, claim (moved th (ar_cursor A) (w_log w)) (set_own own t r) i (ORun t) = Some r1 →
      claim (moved th (ar_cursor A) (w_log w)) (set_own own t r) i (OChunk t j) = Some r2 → r1.2 <= r2.1) as HX.
    { intros x1 x2. rewrite (claim_moved_run _ _ _ _ _ _ _ Hrun), Hnew. destruct (decide (ar_id A = i)); [|discriminate]. destruct Hr as [->| ->]; [discriminate|].
      intros [= <-] [= <-]. cbn. lia. }
    do 2 case_decide; subst; [congruence|left; by apply HX|right; by apply HX|congruence].
  - intros b ly' p' E. rewrite Hrun in E. by injection E as <- <- <-.
Qed.

(** The claimed range becomes a chunk. *)
Lemma winv_install th slots j start stop p : own t = Some (start, stop) → start <= stop → th_tlab (w_threads w t) = Some slots →
  th_tlab th = Some (<[j := {| Tlab.sl_arena := ar_id A; Tlab.sl_cur := start; Tlab.sl_end := stop |}]> slots) →
  th_run th = Some (a, ly, p) → claims (ar_id A) (ar_capacity A) (handed (al_align ly) (Z.max (al_size ly) 1)) None p →
  winv (moved th (ar_cursor A) (w_log w)) (set_own own t None).
Proof.
  intros Ho Hle Hs Ht Hrun Hp. destruct (wi_run w own W t a ly p0 Hrun0) as [Hly _]. destruct (wi_arena w own W a A HA) as (_ & HAc & _).
  assert (∀ i, claim (moved th (ar_cursor A) (w_log w)) (set_own own t None) i (ORun t) = None) as Hnone.
  { intros i. rewrite (claim_moved_run _ _ _ _ _ _ _ Hrun). by case_decide. }
  apply (winv_thread w own t th a A (ar_cursor A) None (w_log w) (λ o, Some (if decide (o = OChunk t j) then ORun t else o))); [done|done|lia| | | |by left].
  - intros i o r' Hr'. change (claim (moved th (ar_cursor A) (w_log w)) (set_own own t None) i o = Some r') in Hr'. case_decide as Eo.
    + subst o. rewrite claim_moved_chunk, Ht in Hr'. cbn in Hr'. apply bind_Some in Hr' as (x & Hx & Hr').
      destruct (decide (j < length slots)%nat) as [Hj|Hj].
      2:{ rewrite lookup_ge_None_2 in Hx by (rewrite length_insert; lia). done. }
      rewrite list_lookup_insert_eq in Hx by done. injection Hx as <-. cbn in Hr'. case_decide as Ei; [subst i|done]. injection Hr' as <-.
      split; [done|]. exists (start, stop). rewrite claim_run. split; [done|]. cbn. lia.
    + assert (claim w own i o = Some r') as Hold.
      { rewrite <- Hr'. destruct o as [n|u k|u]; [by rewrite claim_moved| |].
        - destruct (decide (u = t)) as [->|]; [|by rewrite claim_moved]. rewrite claim_moved_chunk, Ht. cbn. rewrite Hs. cbn.
          rewrite list_lookup_insert_ne by congruence. done.
        - destruct (decide (u = t)) as [->|]; [|by rewrite claim_moved]. by rewrite Hnone in Hr'. }
      split; [by eapply claim_le|]. exists r'. split_and!; [done|lia..].
  - intros i o o' r1 r2 Hne [= E] Hr1 Hr2. change (claim (moved th (ar_cursor A) (w_log w)) (set_own own t None) i o = Some r1) in Hr1.
    change (claim (moved th (ar_cursor A) (w_log w)) (set_own own t None) i o' = Some r2) in Hr2.
    do 2 case_decide; subst; congruence.
  - intros b ly' p' E. rewrite Hrun in E. by injection E as <- <- <-.
Qed.

(** The claimed range is handed out. *)
Lemma winv_return th off : own t = Some (off, off + Z.max (al_size ly) 1) → (al_align ly | off) → th_run th = None →
  th_tlab th = th_tlab (w_threads w t) →
  winv (moved th (ar_cursor A) (w_log w ++ [{| ho_id := ar_id A; ho_start := off; ho_layout := ly |}])) (set_own own t None).
Proof.
  intros Ho Hal Hrun Ht. destruct (wi_run w own W t a ly p0 Hrun0) as [Hly _]. destruct (wi_arena w own W a A HA) as (_ & HAc & _).
  set (log := w_log w ++ _).
  apply (winv_thread w own t th a A (ar_cursor A) None log (λ o, Some (if decide (o = OLog (length (w_log w))) then ORun t else o))); [done|done|lia| | | |].
  - intros i o r' Hr'. change (claim (moved th (ar_cursor A) log) (set_own own t None) i o = Some r') in Hr'. case_decide as Eo.
    + subst o. cbn in Hr'. unfold log in Hr'. rewrite lookup_app_at in Hr'. cbn in Hr'. case_decide as Ei; [subst i|done]. injection Hr' as <-.
      split; [unfold ho_size; cbn; lia|]. exists (off, off + Z.max (al_size ly) 1). rewrite claim_run. split; [done|]. unfold ho_size. cbn. lia.
    + assert (claim w own i o = Some r') as Hold.
      { destruct o as [n|u k|u].
        - rewrite <- Hr'. rewrite claim_moved; [done|]. unfold log. destruct (lt_eq_lt_dec n (length (w_log w))) as [[Hn| ->]|Hn]; [|congruence|].
          + by rewrite lookup_app_l.
          + rewrite lookup_app_r, (lookup_ge_None_2 (w_log w)) by lia. destruct (n - length (w_log w))%nat eqn:En; [lia|done].
        - rewrite <- Hr'. destruct (decide (u = t)) as [->|]; [|by rewrite claim_moved]. by rewrite claim_moved_chunk, Ht.
        - destruct (decide (u = t)) as [->|]; [by rewrite claim_moved_idle in Hr'|]. rewrite <- Hr'. by rewrite claim_moved. }
      split; [by eapply claim_le|]. exists r'. split_and!; [done|lia..].
  - intros i o o' r1 r2 Hne [= E] Hr1 Hr2. change (claim (moved th (ar_cursor A) log) (set_own own t None) i o = Some r1) in Hr1.
    change (claim (moved th (ar_cursor A) log) (set_own own t None) i o' = Some r2) in Hr2.
    do 2 case_decide; subst; try congruence.
    + by rewrite claim_moved_idle in Hr2.
    + by rewrite claim_moved_idle in Hr1.
  - intros b ly' p' E. congruence.
  - intros h [Hh| ->%list_elem_of_singleton]%elem_of_app; [by left|by right].
Qed.
End thread.

Lemma winv_next w w' : wstep w w' → w_next w <= w_next w'.
Proof. intros []; cbn; lia. Qed.

Lemma next_id_small n : 1 <= n < 2 ^ 64 → next_arena_id n = n.
Proof. intros. unfold next_arena_id. by rewrite Z.mod_small by lia. Qed.

Lemma unused_ne w a t b ly p A : unused w a → th_run (w_threads w t) = Some (b, ly, p) →
  <[a := A]> (w_arenas w) !! b = w_arenas w !! b.
Proof. intros HU Hr. pose proof (HU t b ly p Hr). by rewrite lookup_insert_ne. Qed.

(** An arena with a fresh identity. *)
Lemma winv_fresh w own a A : winv w own → w_next w + 1 <= 2 ^ 64 → unused w a → ar_id A = next_arena_id (w_next w) →
  ARENA_ALIGN <= ar_cursor A <= ar_capacity A → ar_capacity A <= MAX_ARENA_SIZE → (ARENA_ALIGN | ar_base A) →
  winv {| w_arenas := <[a := A]> (w_arenas w); w_next := w_next w + 1; w_threads := w_threads w; w_log := w_log w |} own.
Proof.
  intros W Hn HU Hid H1 H2 H3. pose proof (wi_next w own W). rewrite next_id_small in Hid by lia.
  apply winv_arenas; [done|lia| | |].
  - intros t b ly p Hr. by eapply unused_ne.
  - intros b B. rewrite lookup_insert_Some. intros [[<- <-]|[_ Hb]]; [right|by left]. split_and!; [done|lia|lia|lia|done|done].
  - intros b c B C. rewrite !lookup_insert_Some. intros [[<- <-]|[_ Hb]] [[<- <-]|[_ Hc]] E1 E2; [done| | |].
    + pose proof (proj1 (wi_arena w own W c C Hc)). lia.
    + pose proof (proj1 (wi_arena w own W b B Hb)). lia.
    + pose proof (proj1 (wi_arena w own W c C Hc)). lia.
Qed.

Lemma arena_new_spec id raw capacity A : arena_new id raw capacity = Some A →
  ar_id A = id ∧ ar_cursor A = ARENA_ALIGN ∧ ARENA_ALIGN <= ar_capacity A <= MAX_ARENA_SIZE ∧ (ARENA_ALIGN | ar_base A) ∧
  raw <= ar_base A ∧ ar_base A + ar_capacity A <= raw + al_size (raw_layout (ar_capacity A)).
Proof.
  unfold arena_new. destruct (clamped_range capacity) as (_ & Hc & _). pose proof (Z.mod_pos_bound (- raw) ARENA_ALIGN ltac:(done)) as Hm.
  case_match; [|done]. intros [= <-]. cbn [ar_id ar_cursor ar_capacity ar_base raw_layout al_size].
  split_and!; [done|done|lia|lia| |lia|lia]. apply Z.mod_divide; [done|].
  rewrite Zplus_mod_idemp_r, Z.add_opp_diag_r. done.
Qed.

(** A thread's chunks are gone. *)
Lemma winv_teardown w own t : winv w own →
  winv {| w_arenas := w_arenas w; w_next := w_next w; w_log := w_log w;
          w_threads := set_athread w t {| th_tlab := None; th_run := th_run (w_threads w t) |} |} own.
Proof.
  intros W. set (w' := {| w_arenas := w_arenas w |}).
  assert (∀ u, th_run (w_threads w' u) = th_run (w_threads w u)) as HR.
  { intros u. cbn. unfold set_athread. by case_decide; subst. }
  assert (sourced w w' own own Some) as S.
  { split; [cbn; lia| | |].
    - intros a A Ha. right. by exists A.
    - intros i o r Hr. assert (claim w own i o = Some r) as Hr'.
      { destruct o as [n|u j|u]; [done| |].
        - cbn in Hr |- *. unfold set_athread in Hr. by case_decide.
        - unfold claim in *. by rewrite HR in Hr. }
      split; [by eapply claim_le|]. exists r. split_and!; [done|lia..].
    - intros i o o' r r' Hne [= E]. done. }
  destruct (sourced_claims w w' own own Some W S (wi_ids w own W)) as [HC HP]. split; [apply W|apply W|apply W|done|done| |apply W].
  intros u a ly p. rewrite HR. apply W.
Qed.

(** One access of the thread at work. *)
Lemma winv_access w own t a A ly X (o : aop X) k x s : winv w own → w_arenas w !! a = Some A →
  th_run (w_threads w t) = Some (a, ly, Vis o k) → astep o (ar_cursor A, th_tlab (w_threads w t)) x s →
  ∃ own', winv (moved w t a A {| th_tlab := s.2; th_run := Some (a, ly, k x) |} s.1 (w_log w)) own'.
Proof.
  intros W Ha Hr HS. destruct (wi_run w own W t a ly _ Hr) as (Hly & A' & HA' & HC). assert (A' = A) as -> by congruence. clear HA'.
  destruct (wi_arena w own W a A Ha) as (H1 & H2 & H3 & H4). cbn [claims] in HC.
  assert (∀ c r p, ar_cursor A <= c <= ar_capacity A → (∀ x, r = Some x → ar_cursor A <= x.1 <= x.2 ∧ x.2 = c) →
    claims (ar_id A) (ar_capacity A) (handed (al_align ly) (Z.max (al_size ly) 1)) r p →
    ∃ own', winv (moved w t a A {| th_tlab := th_tlab (w_threads w t); th_run := Some (a, ly, p) |} c (w_log w)) own') as Hkeep.
  { intros c r p Hc Hx Hp. eexists. apply (winv_keep w own t a A W Ha _ c r); [done|done|done|]. intros b ly' p' [= <- <- <-]. done. }
  remember (ar_cursor A, th_tlab (w_threads w t)) as s0 eqn:E0. revert k Hr HC. destruct HS as [Y o s0|old new s0]; subst s0; intros k Hr HC.
  2:{ destruct HC as (start & _ & _ & _ & HC). by apply (Hkeep (ar_cursor A) None); [lia|done|apply HC]. }
  destruct o as [|old new|arena align size|arena start stop]; cbn in HC |- *.
  - by apply (Hkeep (ar_cursor A) None); [lia|done|apply HC].
  - destruct HC as (start & G1 & G2 & G3 & G4). destruct (Z.eqb_spec (ar_cursor A) old) as [<-|]; cbn.
    + apply (Hkeep new (Some (start, new))); [lia| |done]. intros ? [= <-]. cbn. lia.
    + by apply (Hkeep (ar_cursor A) None); [lia|done|apply G4].
  - destruct HC as (-> & G1 & G2 & G3 & G4). destruct (th_tlab (w_threads w t)) as [slots|] eqn:ET; cbn.
    2:{ by apply (Hkeep (ar_cursor A) None); [lia|done|]. }
    destruct (Tlab.take_slots (ar_id A) align size slots) as [r slots'] eqn:EK. cbn.
    apply take_slots_spec in EK as [[-> ->]|(j & z & start & stop & Hj & Hz & HR & Hstop & -> & ->)].
    { by apply (Hkeep (ar_cursor A) None); [lia|done|]. }
    assert (claim w own (ar_id A) (OChunk t j) = Some (Tlab.sl_cur z, Tlab.sl_end z)) as HK.
    { cbn. rewrite ET. cbn. rewrite Hj. cbn. by rewrite decide_True. }
    destruct (wi_claim w own W _ _ _ HK) as (_ & K1 & K2). destruct (K2 a A Ha eq_refl) as [K3 K4]. cbn in K1, K3, K4.
    apply range_from_spec in HR as (-> & R1 & R2 & R3); [|done|unfold ARENA_ALIGN in *; lia].
    assert (start < 2 ^ 32) as Hlt by (assert (MAX_ARENA_SIZE < 2 ^ 32) by (vm_compute; done); lia).
    unfold try_u32. rewrite (proj2 (Z.ltb_lt _ _)) by done. eexists.
    eapply (winv_take w own t a A W Ha ly _ Hr _ slots j z start (start + size) (Some (start, start + size))); [done|done|done|lia|lia|done|by right|done|].
    apply G4; [lia|done].
  - destruct HC as (-> & G1 & G2 & G3). destruct (th_tlab (w_threads w t)) as [slots|] eqn:ET; cbn.
    + eexists. by eapply (winv_install w own t a A W Ha ly _ Hr _ slots _ start stop); [..|done|].
    + change (fmap (M := option) _ None) with (@None (list Tlab.Slot)). by apply (Hkeep (ar_cursor A) None); [lia|done|].
Qed.

Lemma wstep_winv w w' own : winv w own → wstep w w' → w_next w' <= 2 ^ 64 → ∃ own', winv w' own'.
Proof.
  intros W [a raw capacity A Ha HN|a A Ha HU|a HU|t a A ly fuel Hr Ha Hly|t a A ly X o k x s Hr Ha HS|t a A ly r Hr Ha|t]; cbn [w_next]; intros Hn.
  - apply arena_new_spec in HN as (H1 & H2 & H3 & H4 & _). exists own. apply winv_fresh; [done|done| |done|lia|lia|done].
    intros t b ly p Hr ->. destruct (wi_run w own W t a ly p Hr) as (_ & B & HB & _). congruence.
  - exists own. destruct (wi_arena w own W a A Ha) as (H1 & H2 & H3 & H4). apply winv_fresh; cbn; [done..|lia|done|done].
  - exists own. apply winv_arenas; [done|lia| | |].
    + intros t b ly p Hr. rewrite lookup_delete_ne; [done|]. intros ->. by eapply HU.
    + intros b B [_ Hb]%lookup_delete_Some. by left.
    + intros b c B C [_ Hb]%lookup_delete_Some [_ Hc]%lookup_delete_Some E1 E2. eapply (wi_ids w own W); [done..|congruence].
  - destruct (wi_arena w own W a A Ha) as (H1 & H2 & H3 & H4). eexists. rewrite <- (moved_still w t a A Ha).
    apply (winv_keep w own t a A W Ha _ (ar_cursor A) None); [lia|done|done|]. cbn. intros b ly' p [= <- <- <-].
    split_and!; [done|done|]. by apply alloc_claims.
  - by eapply (winv_access w own t a A ly X o k x s).
  - destruct (wi_run w own W t a ly _ Hr) as (Hly & A' & HA' & HC). assert (A' = A) as -> by congruence. clear HA'. cbn in HC.
    destruct (wi_arena w own W a A Ha) as (H1 & H2 & H3 & H4). eexists. rewrite <- (moved_still w t a A Ha). destruct r as [off|].
    + destruct HC as (Hoff & Hal & Hown). by eapply (winv_return w own t a A W Ha ly).
    + rewrite app_nil_r. apply (winv_keep w own t a A W Ha _ (ar_cursor A) None); [lia|done..].
  - exists own. by apply winv_teardown.
Qed.

Lemma wreachable_winv w : wreachable w → w_next w <= 2 ^ 64 → ∃ own, winv w own.
Proof.
  induction 1 as [|w w' _ IH HS]; intros Hn; [exists (λ _, None); apply winv_init|].
  pose proof (winv_next w w' HS). destruct IH as [own W]; [lia|]. by eapply wstep_winv.
Qed.

(** ** Theorems *)

(** C29: under every interleaving of any number of threads, with spurious
    failures of the exchange, contended refills, torn-down threads, and arenas
    that are created, reset and dropped, the ranges handed out since an arena's
    creation or last reset are pairwise disjoint; each lies above the null
    region and below the cursor, inside the buffer; its offset fits 32 bits,
    its address has the alignment asked for, and leads back to the offset. *)
Theorem arena_allocations_never_overlap w a A : wreachable w → w_next w <= 2 ^ 64 → w_arenas w !! a = Some A →
  ∀ n h, w_log w !! n = Some h → ho_id h = ar_id A →
    (ARENA_ALIGN <= ho_start h ∧ ho_start h + ho_size h <= ar_cursor A ∧ ar_cursor A <= ar_capacity A ∧ ar_capacity A < 2 ^ 32) ∧
    (∃ p, arena_ptr A (ho_start h) = Some p ∧ (al_align (ho_layout h) | p) ∧ arena_offset_of A p = Some (ho_start h)) ∧
    ∀ m h', m ≠ n → w_log w !! m = Some h' → ho_id h' = ar_id A →
      ho_start h + ho_size h <= ho_start h' ∨ ho_start h' + ho_size h' <= ho_start h.
Proof.
  intros HR Hn Ha n h Hh Hid. destruct (wreachable_winv w HR Hn) as [own W]. destruct (wi_arena w own W a A Ha) as (H1 & H2 & H3 & H4).
  assert (∀ n h, w_log w !! n = Some h → ho_id h = ar_id A → claim w own (ar_id A) (OLog n) = Some (ho_start h, ho_start h + ho_size h)) as HK.
  { intros m h' Hm Hi. cbn. rewrite Hm. cbn. by rewrite decide_True. }
  destruct (wi_claim w own W _ _ _ (HK n h Hh Hid)) as (_ & K1 & K2). destruct (K2 a A Ha eq_refl) as [K3 K4]. cbn in K1, K3, K4.
  assert (MAX_ARENA_SIZE < 2 ^ 32) by (vm_compute; done). assert (1 <= ho_size h) by (unfold ho_size; lia).
  destruct (wi_log w own W h) as [Hly Hal]; [by eapply list_elem_of_lookup_2|]. split; [lia|split].
  - unfold arena_ptr, arena_offset_of. rewrite (proj2 (Z.leb_le _ _)), (proj2 (Z.ltb_lt _ _)) by lia. eexists. split; [done|]. split.
    + apply Z.divide_add_r; [|done]. destruct Hly as [_ (k & Hk & ->)]. etrans; [|exact H4]. exists (2 ^ (6 - k)).
      rewrite <- Z.pow_add_r by lia. by replace (6 - k + k) with 6 by lia.
    + replace (ar_base A + ho_start h - ar_base A) with (ho_start h) by lia.
      rewrite (proj2 (Z.leb_le _ _)), (proj2 (Z.ltb_lt _ _)) by (unfold ARENA_ALIGN in *; lia).
      by rewrite Z.mod_small by (unfold ARENA_ALIGN in *; lia).
  - intros m h' Hne Hm Hi. destruct (wi_apart w own W (ar_id A) (OLog n) (OLog m) _ _ ltac:(lia) ltac:(congruence) (HK n h Hh Hid) (HK m h' Hm Hi)); cbn in *; lia.
Qed.

(** What an allocation alone may do with the cursor [c] and the thread's chunks
    [tls]: take the first aligned range of its chunk; if the chunk has no room,
    or there is none, take the first aligned range from the cursor on; if the
    buffer has no room either, fail. *)
Inductive lone_allocation (id capacity : Z) (ly : AllocLayout) (c : Z) (tls : option (list Tlab.Slot)) :
    option Z → Z → option (list Tlab.Slot) → Prop :=
| lone_in_chunk slots j s off :
  tls = Some slots → first_chunk id slots j s →
  next_aligned (al_align ly) (Tlab.sl_cur s) off → off + Z.max (al_size ly) 1 <= Tlab.sl_end s →
  lone_allocation id capacity ly c tls (Some off) c
    (Some (<[j := {| Tlab.sl_arena := id; Tlab.sl_cur := off + Z.max (al_size ly) 1; Tlab.sl_end := Tlab.sl_end s |}]> slots))
| lone_at_cursor off :
  (∀ slots j s, tls = Some slots → first_chunk id slots j s →
    no_room (al_align ly) (Z.max (al_size ly) 1) (Tlab.sl_cur s) (Tlab.sl_end s)) →
  next_aligned (al_align ly) c off → off + Z.max (al_size ly) 1 <= capacity →
  lone_allocation id capacity ly c tls (Some off) (off + Z.max (al_size ly) 1) tls
| lone_refused :
  (∀ slots j s, tls = Some slots → first_chunk id slots j s →
    no_room (al_align ly) (Z.max (al_size ly) 1) (Tlab.sl_cur s) (Tlab.sl_end s)) →
  no_room (al_align ly) (Z.max (al_size ly) 1) c capacity →
  lone_allocation id capacity ly c tls None c tls.

(** C30: an allocation by the only thread, whatever chunks the thread has, ends.
    It takes the first aligned range of its chunk of this arena and moves that
    chunk's start to its end; if the chunk has no room, or there is none, it
    takes the first aligned range from the cursor on and moves the cursor to its
    end; and exactly when no aligned range fits there either, it returns nothing
    and moves nothing. *)
Theorem lone_allocation_takes_the_next_range id capacity fuel ly c tls :
  (0 < fuel)%nat → layout_ok ly → ARENA_ALIGN <= c <= capacity → capacity <= MAX_ARENA_SIZE → chunks_fit capacity id tls →
  ∃ r c' tls', arun (alloc id capacity fuel ly) (c, tls) = Some (r, (c', tls')) ∧ lone_allocation id capacity ly c tls r c' tls'.
Proof.
  intros Hf Hly Hc Hcap Htls. rewrite arun_alloc by (cbn; unfold ARENA_ALIGN in *; (done || lia)). unfold alloc_alone. cbn [fst snd].
  destruct Hly as [Hs Ha]. change (pow2_align (al_align ly)) in Ha.
  assert (0 <= c) as H0 by (unfold ARENA_ALIGN in *; lia). assert (capacity < 2 ^ 32) as H32 by (assert (MAX_ARENA_SIZE < 2 ^ 32) by done; lia).
  destruct (take_cases capacity id (al_align ly) (Z.max (al_size ly) 1) tls Ha ltac:(lia) H32 Htls)
    as [(slots & j & s & off & E1 & E2 & E3 & E4 & ->)|[-> HN]].
  { eexists _, _, _. split; [done|]. by econstructor. }
  pose proof (range_from_fits (al_align ly) (Z.max (al_size ly) 1) c capacity Ha ltac:(lia) H0 H32) as HR.
  destruct (range_from (al_align ly) (Z.max (al_size ly) 1) c) as [[off next]|].
  - destruct HR as (-> & H1 & H2). destruct (Z.ltb_spec capacity (off + Z.max (al_size ly) 1)) as [Hlt|Hle];
      (eexists _, _, _; split; [done|]); constructor; auto.
  - eexists _, _, _. split; [done|]. by constructor.
Qed.

(** ** Runs *)

(** A new arena, a call, and the next access or the return of a thread. *)
Inductive wcmd := CNew (a : nat) (raw capacity : Z) | CCall (t a : nat) (ly : AllocLayout) | CGo (t : nat).

Definition wexec (c : wcmd) (w : world) : option world :=
  match c with
  | CNew a raw capacity =>
    match w_arenas w !! a, arena_new (next_arena_id (w_next w)) raw capacity with
    | None, Some A => Some {| w_arenas := <[a := A]> (w_arenas w); w_next := w_next w + 1; w_threads := w_threads w; w_log := w_log w |}
    | _, _ => None
    end
  | CCall t a ly =>
    match th_run (w_threads w t), w_arenas w !! a with
    | None, Some A =>
      Some {| w_arenas := w_arenas w; w_next := w_next w; w_log := w_log w;
              w_threads := set_athread w t {| th_tlab := th_tlab (w_threads w t);
                                              th_run := Some (a, ly, alloc (ar_id A) (ar_capacity A) 8 ly) |} |}
    | _, _ => None
    end
  | CGo t =>
    match th_run (w_threads w t) with
    | Some (a, ly, p) =>
      match w_arenas w !! a, p with
      | Some A, Vis o k =>
        let r := aexec o (ar_cursor A, th_tlab (w_threads w t)) in
        Some {| w_arenas := <[a := set_cursor r.2.1 A]> (w_arenas w); w_next := w_next w; w_log := w_log w;
                w_threads := set_athread w t {| th_tlab := r.2.2; th_run := Some (a, ly, k r.1) |} |}
      | Some A, Ret r =>
        Some {| w_arenas := w_arenas w; w_next := w_next w;
                w_log := w_log w ++ (if r is Some off then [{| ho_id := ar_id A; ho_start := off; ho_layout := ly |}] else []);
                w_threads := set_athread w t {| th_tlab := th_tlab (w_threads w t); th_run := None |} |}
      | _, _ => None
      end
    | None => None
    end
  end.

Definition layouts_ok (c : wcmd) : Prop := match c with CCall _ _ ly => layout_ok ly | _ => True end.

Lemma wexec_step c w w' : layouts_ok c → wexec c w = Some w' → wstep w w'.
Proof.
  destruct c as [a raw capacity|t a ly|t]; cbn; intros Hly.
  - destruct (w_arenas w !! a) eqn:Ha; [done|]. destruct (arena_new _ _ _) as [A|] eqn:HN; [|done]. intros [= <-]. by eapply wstep_new.
  - destruct (th_run _) eqn:Hr; [done|]. destruct (w_arenas w !! a) as [A|] eqn:Ha; [|done]. intros [= <-]. by eapply wstep_call.
  - destruct (th_run _) as [[[a ly] p]|] eqn:Hr; [|done]. destruct (w_arenas w !! a) as [A|] eqn:Ha; [|done]. destruct p; [..|done|done]; intros [= <-].
    + by eapply wstep_return.
    + eapply wstep_access; [done..|]. constructor.
Qed.

Fixpoint wrun (cs : list wcmd) (w : world) : option world :=
  match cs with [] => Some w | c :: cs => match wexec c w with Some w => wrun cs w | None => None end end.

Lemma wrun_reachable cs w w' : Forall layouts_ok cs → wreachable w → wrun cs w = Some w' → wreachable w'.
Proof.
  intros HF. revert w. induction HF as [|c cs Hc _ IH]; intros w HR; cbn; [by intros [= <-]|].
  destruct (wexec c w) as [w1|] eqn:E; cbn; [|done]. apply IH. eapply wreach_step; [done|]. by eapply wexec_step.
Qed.

(** Thread 0 loads the cursor; thread 1 allocates; thread 0 loses the exchange and
    refills its chunk; both allocate once more. *)
Definition layout24 : AllocLayout := {| al_size := 24; al_align := 8 |}.
Lemma layout24_ok : layout_ok layout24.
Proof. split; [cbn; lia|by exists 3]. Qed.

Definition contended_run : list wcmd :=
  [CNew 0 1000 (2 ^ 20); CCall 0 0 layout24; CGo 0; CGo 0; CCall 1 0 layout24; CGo 1; CGo 1; CGo 1; CGo 1;
   CGo 0; CGo 0; CGo 0; CGo 0; CGo 0; CCall 0 0 layout24; CGo 0; CGo 0; CCall 1 0 layout24; CGo 1; CGo 1; CGo 1; CGo 1].
Definition contended_world : world := default world_init (wrun contended_run world_init).

Example contended_log : (λ h, ho_start h) <$> w_log contended_world = [64; 128; 152; 16512].
Proof. vm_compute. reflexivity. Qed.

Lemma arena_allocations_never_overlap_witness : ∃ A, w_arenas contended_world !! 0%nat = Some A ∧
  ∀ n h, w_log contended_world !! n = Some h → ho_id h = ar_id A → ho_start h + ho_size h <= ar_cursor A ∧ ar_cursor A <= ar_capacity A.
Proof.
  assert (wreachable contended_world) as HR.
  { unfold contended_world. destruct (wrun contended_run world_init) as [w|] eqn:E; cbn; [|constructor].
    eapply wrun_reachable; [|constructor|exact E]. assert (layout_ok layout24) by exact layout24_ok. repeat (apply List.Forall_cons; [first [exact I|assumption]|]). apply List.Forall_nil. }
  assert (w_next contended_world <= 2 ^ 64) as Hn by (vm_compute; discriminate).
  assert (match w_arenas contended_world !! 0%nat with Some _ => true | None => false end = true) as EA by (vm_compute; reflexivity).
  destruct (w_arenas contended_world !! 0%nat) as [A|] eqn:E; [|discriminate EA].
  exists A. split; [done|]. intros n h Hh Hi. destruct (arena_allocations_never_overlap contended_world 0 A HR Hn E n h Hh Hi) as ((_ & H1 & H2 & _) & _).
  by split.
Defined.

(** A thread with a chunk of arena 1, at 100 and up to 140: two allocations of 24
    bytes, the second of which the chunk has no room for, in a buffer that ends
    before a third. *)
Definition one_chunk (cur : Z) : option (list Tlab.Slot) :=
  Some [Tlab.EMPTY; {| Tlab.sl_arena := 1; Tlab.sl_cur := cur; Tlab.sl_end := 140 |}; Tlab.EMPTY; Tlab.EMPTY].

Lemma one_chunk_fits cur : 0 <= cur → chunks_fit 192 1 (one_chunk cur).
Proof. intros Hc slots s [= <-] Hs Hid. repeat (apply elem_of_cons in Hs as [->|Hs]; [cbn in *; lia|]). by apply elem_of_nil in Hs. Qed.

Lemma lone_allocation_takes_the_next_range_witness :
  (∃ r c' tls', arun (alloc 1 192 1 layout24) (150, one_chunk 100) = Some (r, (c', tls')) ∧
    lone_allocation 1 192 layout24 150 (one_chunk 100) r c' tls' ∧ r = Some 104 ∧ c' = 150 ∧ tls' = one_chunk 128) ∧
  (∃ r c' tls', arun (alloc 1 192 1 layout24) (150, one_chunk 128) = Some (r, (c', tls')) ∧
    lone_allocation 1 192 layout24 150 (one_chunk 128) r c' tls' ∧ r = Some 152 ∧ c' = 176 ∧ tls' = one_chunk 128) ∧
  (∃ r c' tls', arun (alloc 1 192 1 layout24) (176, one_chunk 128) = Some (r, (c', tls')) ∧
    lone_allocation 1 192 layout24 176 (one_chunk 128) r c' tls' ∧ r = None ∧ c' = 176 ∧ tls' = one_chunk 128).
Proof.
  split_and!;
    [destruct (lone_allocation_takes_the_next_range 1 192 1 layout24 150 (one_chunk 100)) as (r & c' & tls' & E & H)
    |destruct (lone_allocation_takes_the_next_range 1 192 1 layout24 150 (one_chunk 128)) as (r & c' & tls' & E & H)
    |destruct (lone_allocation_takes_the_next_range 1 192 1 layout24 176 (one_chunk 128)) as (r & c' & tls' & E & H)];
    try (lia || exact layout24_ok || (unfold ARENA_ALIGN; lia) || (vm_compute; discriminate) || (apply one_chunk_fits; lia));
    (exists r, c', tls'; split; [exact E|split; [exact H|]]; vm_compute in E; injection E as <- <- <-; done).
Defined.
