(* ===== verification/Shape.v ===== *)
(** * The shape of a tree

    A tree in memory is read as a set of edges. Every linked node has a start
    path, the bytes consumed above it; its base path is its start path and its
    prefix. A child slot at byte [b] is an edge at base path plus [b], the
    exact leaf an edge at the base path, and the root slot one at the empty
    path. [edges_ok] is the invariant that lookups rely on: every edge leads
    to a node with that start path, or to a leaf whose key continues it. Its
    main consequence is that the paths determine the nodes
    ([paths_determine_nodes]): all nodes whose start paths are prefixes of one
    key lie on one chain. *)

From S2P Require Import Prelude Bytes Slot Bits Node NodeSpec NodeOps.

Abbreviation path := (list byte).

Section edges.
Implicit Types (r : raw) (N : gmap loc (node raw)) (B : gmap loc path) (p q k : path).

Definition pfx (nd : node raw) : path := as_slice (load_prefix nd).

(** The edges out of a node with base path [β]: [x] marks the exact leaf's. *)
Definition node_edges (β : path) (nd : node raw) (q : path) (x : bool) (r : raw) : Prop :=
  (x = false ∧ ∃ b, find_child nd b = Some r ∧ q = β ++ [b]) ∨
  (x = true ∧ exact_leaf nd = r ∧ r ≠ Null ∧ q = β).

(** The edges of a tree with root slot [r0], nodes [N] and start paths [B]. *)
Definition edges (r0 : raw) N B (q : path) (x : bool) (r : raw) : Prop :=
  (q = [] ∧ x = false ∧ r = r0 ∧ r ≠ Null) ∨
  ∃ n p nd, B !! n = Some p ∧ N !! n = Some nd ∧ node_edges (p ++ pfx nd) nd q x r.

(** Where a leaf may hang. *)
Definition fits (q : path) (x : bool) (k : path) : Prop :=
  if x then k = q else q `prefix_of` k.

(** Edges lead to linked nodes, or to live leaves that fit; every linked node
    is led to. [key] gives the key of a live leaf. *)
Record edges_ok (r0 : raw) N B (key : loc → option path) : Prop := {
  eo_node q x n : edges r0 N B q x (NodeAt n) → x = false ∧ B !! n = Some q;
  eo_leaf q x l : edges r0 N B q x (LeafAt l) → ∃ k, key l = Some k ∧ fits q x k;
  eo_linked n q : B !! n = Some q → edges r0 N B q false (NodeAt n);
  eo_present n q : B !! n = Some q → is_Some (N !! n);
}.

Lemma edges_not_null r0 N B q x : ¬ edges r0 N B q x Null.
Proof.
  intros [(_ & _ & _ & ?)|(n & p & nd & _ & _ & [(_ & b & Hb & _)|(_ & _ & ? & _)])]; [done| |done].
  by apply (find_child_not_null (R := raw)) in Hb.
Qed.

Lemma edge_root r0 N B : r0 ≠ Null → edges r0 N B [] false r0.
Proof. left. done. Qed.

Lemma edge_child r0 N B n p nd b r :
  B !! n = Some p → N !! n = Some nd → find_child nd b = Some r →
  edges r0 N B (p ++ pfx nd ++ [b]) false r.
Proof. intros. right. exists n, p, nd. split_and!; [done..|]. left. rewrite (assoc_L (++)). eauto. Qed.

Lemma edge_exact r0 N B n p nd :
  B !! n = Some p → N !! n = Some nd → exact_leaf nd ≠ Null →
  edges r0 N B (p ++ pfx nd) true (exact_leaf nd).
Proof. intros. right. exists n, p, nd. split_and!; [done..|]. right. auto. Qed.

(** The child slot of one path. *)
Lemma node_edges_child β nd q r :
  node_edges β nd q false r ↔ ∃ b, find_child nd b = Some r ∧ q = β ++ [b].
Proof. unfold node_edges. naive_solver. Qed.

Lemma node_edges_exact β nd q r :
  node_edges β nd q true r ↔ exact_leaf nd = r ∧ r ≠ Null ∧ q = β.
Proof. unfold node_edges. naive_solver. Qed.

Lemma node_edges_fun β nd q x r r' : node_edges β nd q x r → node_edges β nd q x r' → r = r'.
Proof.
  destruct x.
  - rewrite !node_edges_exact. naive_solver.
  - rewrite !node_edges_child. intros (b & H1 & ->) (b' & H2 & E).
    apply app_inj_tail in E as [_ <-]. congruence.
Qed.

Lemma prefix_same_length (a b k : path) :
  a `prefix_of` k → b `prefix_of` k → length a = length b → a = b.
Proof. intros [x ->] [y E] L. by apply app_inj_1 in E as [-> _]. Qed.

(** A branch byte is determined by the key. *)
Lemma prefix_branch (a : path) b c k :
  a ++ [b] `prefix_of` k → a ++ [c] `prefix_of` k → b = c.
Proof.
  intros H1 H2. eapply prefix_same_length in H1; [|exact H2|by rewrite !length_app].
  by apply app_inj_tail in H1 as [_ ->].
Qed.

Lemma prefix_app_self (a b k : path) : a ++ b `prefix_of` k → a `prefix_of` k.
Proof. intros [x ->]. exists (b ++ x). by rewrite (assoc_L (++)). Qed.

Section ok.
Context (r0 : raw) (N : gmap loc (node raw)) (B : gmap loc path) (key : loc → option path).
Context (Hok : edges_ok r0 N B key).

(** A linked node is the root, or a child of a linked node above. *)
Lemma parent_of_node n q : B !! n = Some q →
  (r0 = NodeAt n ∧ q = []) ∨
  ∃ m p nd b, B !! m = Some p ∧ N !! m = Some nd ∧ find_child nd b = Some (NodeAt n) ∧
    q = p ++ pfx nd ++ [b].
Proof using Hok.
  intros Hq. apply (eo_linked _ _ _ _ Hok) in Hq as [(-> & _ & <- & _)|(m & p & nd & Hp & Hnd & E)]; [by left|].
  apply node_edges_child in E as (b & Hb & ->). right. exists m, p, nd, b.
  by rewrite <- (assoc_L (++)).
Qed.

(** The child of a node on a key's path, towards a longer one. *)
Definition next_towards (n : loc) (k : path) : Prop :=
  ∃ p nd b n', B !! n = Some p ∧ N !! n = Some nd ∧ find_child nd b = Some (NodeAt n') ∧
    p ++ pfx nd ++ [b] `prefix_of` k.

(** All nodes above one key lie on one chain. *)
Lemma nodes_on_chain k n1 n2 p1 p2 :
  B !! n1 = Some p1 → B !! n2 = Some p2 → p1 `prefix_of` k → p2 `prefix_of` k →
  (length p1 = length p2 → n1 = n2) ∧ (length p1 < length p2 → next_towards n1 p2).
Proof using Hok.
  remember (length p1 + length p2) as w eqn:Hw. revert n1 n2 p1 p2 Hw.
  induction w as [w IH] using lt_wf_ind. intros n1 n2 p1 p2 -> H1 H2 K1 K2.
  destruct (parent_of_node n2 p2 H2) as [[R2 ->]|(m2 & a2 & d2 & b2 & M2 & D2 & C2 & ->)].
  { split; [|cbn; lia]. intros L. apply length_zero_iff_nil in L as ->.
    destruct (parent_of_node n1 [] H1) as [[R1 _]|(m1 & a1 & d1 & b1 & _ & _ & _ & E)]; [congruence|].
    by destruct a1, (pfx d1). }
  assert (a2 `prefix_of` k) as KA2 by by eapply prefix_app_self.
  assert (length a2 < length (a2 ++ pfx d2 ++ [b2])) as LA2 by (rewrite !length_app; cbn; lia).
  split.
  - intros L.
    destruct (parent_of_node n1 p1 H1) as [[R1 ->]|(m1 & a1 & d1 & b1 & M1 & D1 & C1 & ->)].
    { cbn in L. rewrite !length_app in L. cbn in L. lia. }
    assert (a1 `prefix_of` k) as KA1 by by eapply prefix_app_self.
    assert (length a1 < length (a1 ++ pfx d1 ++ [b1])) as LA1 by (rewrite !length_app; cbn; lia).
    assert (a1 ++ pfx d1 ++ [b1] = a2 ++ pfx d2 ++ [b2]) as E by by eapply prefix_same_length.
    destruct (lt_eq_lt_dec (length a1) (length a2)) as [[Hlt|Heq]|Hlt].
    + destruct (IH (length a1 + length a2) ltac:(lia) m1 m2 a1 a2 eq_refl M1 M2 KA1 KA2) as [_ Hn].
      destruct (Hn Hlt) as (p & nd & b & n' & X1 & X2 & X3 & X4). simplify_eq.
      assert (length (a1 ++ pfx d1 ++ [b]) <= length a2) as LX by by apply prefix_length.
      apply (f_equal length) in E. rewrite !length_app in *. cbn in *. lia.
    + destruct (IH (length a1 + length a2) ltac:(lia) m1 m2 a1 a2 eq_refl M1 M2 KA1 KA2) as [He _].
      specialize (He Heq). simplify_eq. congruence.
    + destruct (IH (length a2 + length a1) ltac:(lia) m2 m1 a2 a1 eq_refl M2 M1 KA2 KA1) as [_ Hn].
      destruct (Hn Hlt) as (p & nd & b & n' & X1 & X2 & X3 & X4). simplify_eq.
      assert (length (a2 ++ pfx d2 ++ [b]) <= length a1) as LX by by apply prefix_length.
      apply (f_equal length) in E. rewrite !length_app in *. cbn in *. lia.
  - intros L. destruct (lt_eq_lt_dec (length p1) (length a2)) as [[Hlt|Heq]|Hlt].
    + destruct (IH (length p1 + length a2) ltac:(lia) n1 m2 p1 a2 eq_refl H1 M2 K1 KA2) as [_ Hn].
      destruct (Hn Hlt) as (p & nd & b & n' & X1 & X2 & X3 & X4).
      exists p, nd, b, n'. split_and!; [done..|]. etrans; [exact X4|]. by eexists.
    + destruct (IH (length p1 + length a2) ltac:(lia) n1 m2 p1 a2 eq_refl H1 M2 K1 KA2) as [He _].
      rewrite (He Heq) in *. exists a2, d2, b2, n2. by split_and!.
    + destruct (IH (length a2 + length p1) ltac:(lia) m2 n1 a2 p1 eq_refl M2 H1 KA2 K1) as [_ Hn].
      destruct (Hn Hlt) as (p & nd & b & n' & X1 & X2 & X3 & X4). simplify_eq.
      assert (a2 ++ pfx d2 ++ [b] `prefix_of` k) as X5 by by etrans.
      assert (b = b2) as ->.
      { rewrite (assoc_L (++)) in X5, K2. by eapply prefix_branch. }
      apply prefix_length in X4. rewrite !length_app in *. cbn in *. lia.
Qed.

Lemma paths_determine_nodes n1 n2 p : B !! n1 = Some p → B !! n2 = Some p → n1 = n2.
Proof using Hok. intros H1 H2. by eapply (nodes_on_chain p). Qed.
Lemma root_is_node n p : B !! n = Some p → ∃ n0, r0 = NodeAt n0.
Proof using Hok.
  remember (length p) as w eqn:Hw. revert n p Hw. induction w as [w IH] using lt_wf_ind.
  intros n p -> H. destruct (parent_of_node n p H) as [[-> _]|(m & a & d & b & M & _ & _ & ->)]; [eauto|].
  eapply (IH (length a)); [|done|exact M]. rewrite !length_app. cbn. lia.
Qed.

Lemma next_towards_mono n k k' : k `prefix_of` k' → next_towards n k → next_towards n k'.
Proof using. intros Hk (p & nd & b & n' & H1 & H2 & H3 & H4). exists p, nd, b, n'. split_and!; [done..|]. by etrans. Qed.

Lemma node_edge_path p nd q x r :
  node_edges (p ++ pfx nd) nd q x r →
  p `prefix_of` q ∧ length q = length p + length (pfx nd) + Nat.b2n (negb x).
Proof using.
  intros [(-> & b & _ & ->)|(-> & _ & _ & ->)]; rewrite <- ?(assoc_L (++)), !length_app; cbn;
    (split; [by eexists|lia]).
Qed.

(** Two slots with one path belong to nodes at one depth. *)
Lemma edge_depths n p nd n' p' nd' q x r r' :
  B !! n = Some p → N !! n = Some nd → B !! n' = Some p' → N !! n' = Some nd' →
  node_edges (p ++ pfx nd) nd q x r → node_edges (p' ++ pfx nd') nd' q x r' →
  ¬ length p < length p'.
Proof using Hok.
  intros H1 H2 H1' H2' E E' L.
  destruct (node_edge_path _ _ _ _ _ E) as [K Lq]. destruct (node_edge_path _ _ _ _ _ E') as [K' Lq'].
  destruct (nodes_on_chain q n n' p p' H1 H1' K K') as [_ Hn].
  destruct (Hn L) as (p0 & d0 & b0 & n0 & X1 & X2 & X3 & X4%prefix_length). simplify_eq.
  rewrite !length_app in X4. cbn in X4. destruct x; cbn in *; lia.
Qed.

(** A slot holds at most one target. *)
Lemma edges_fun q x r r' : edges r0 N B q x r → edges r0 N B q x r' → r = r'.
Proof using Hok.
  intros [(-> & -> & -> & _)|(n & p & nd & H1 & H2 & E)] [(E1 & E2 & -> & _)|(n' & p' & nd' & H1' & H2' & E')].
  - done.
  - apply node_edges_child in E' as (b & _ & E'). by destruct (p' ++ pfx nd').
  - subst. apply node_edges_child in E as (b & _ & E). by destruct (p ++ pfx nd).
  - destruct (node_edge_path _ _ _ _ _ E) as [K _]. destruct (node_edge_path _ _ _ _ _ E') as [K' _].
    destruct (nodes_on_chain q n n' p p' H1 H1' K K') as [Hn _].
    destruct (lt_eq_lt_dec (length p) (length p')) as [[L|L]|L].
    + exfalso. by eapply (edge_depths n p nd n' p' nd').
    + rewrite (Hn L) in *. simplify_eq. by eapply node_edges_fun.
    + exfalso. by eapply (edge_depths n' p' nd' n p nd).
Qed.

(** The leaf of a key ends the chain of nodes above the key. *)
Lemma leaf_edge_last n p nd q x l k :
  B !! n = Some p → N !! n = Some nd → node_edges (p ++ pfx nd) nd q x (LeafAt l) → key l = Some k →
  p `prefix_of` k ∧ ¬ next_towards n k ∧ fits q x k.
Proof using Hok.
  intros H1 H2 E Hk.
  assert (fits q x k) as F.
  { destruct (eo_leaf _ _ _ _ Hok q x l) as (k' & Hk' & F); [right; eauto 10|]. by simplify_eq. }
  assert (p `prefix_of` k) as K.
  { destruct E as [(-> & b & _ & ->)|(-> & _ & _ & ->)]; cbn in F.
    - rewrite <- !(assoc_L (++)) in F. by eapply prefix_app_self.
    - subst. by eexists. }
  split_and!; [done| |done].
  intros (p0 & d0 & b0 & n0 & X1 & X2 & X3 & X4). simplify_eq.
  destruct E as [(-> & b & Hb & ->)|(-> & _ & _ & ->)]; cbn in F.
  - rewrite (assoc_L (++)) in X4. rewrite (prefix_branch _ _ _ _ F X4) in Hb. congruence.
  - subst. apply prefix_length in X4. rewrite !length_app in X4. cbn in X4. lia.
Qed.

Lemma leaf_edge_unique q x l q' x' l' k :
  edges r0 N B q x (LeafAt l) → edges r0 N B q' x' (LeafAt l') → key l = Some k → key l' = Some k →
  q = q' ∧ x = x' ∧ l = l'.
Proof using Hok.
  intros [(-> & -> & R & _)|(n & p & nd & H1 & H2 & E)] [(-> & -> & R' & _)|(n' & p' & nd' & H1' & H2' & E')] Hk Hk'.
  - split_and!; congruence.
  - destruct (root_is_node n' p' H1'); congruence.
  - destruct (root_is_node n p H1); congruence.
  - destruct (leaf_edge_last _ _ _ _ _ _ _ H1 H2 E Hk) as (K & T & F).
    destruct (leaf_edge_last _ _ _ _ _ _ _ H1' H2' E' Hk') as (K' & T' & F').
    destruct (lt_eq_lt_dec (length p) (length p')) as [[L|L]|L].
    + destruct T. destruct (nodes_on_chain k n n' p p' H1 H1' K K') as [_ Hn].
      eapply next_towards_mono; [exact K'|]. by apply Hn.
    + destruct (nodes_on_chain k n n' p p' H1 H1' K K') as [Hn _]. rewrite (Hn L) in *. simplify_eq.
      destruct E as [(-> & b & Hb & ->)|(-> & Hx & _ & ->)];
        destruct E' as [(-> & b' & Hb' & ->)|(-> & Hx' & _ & ->)]; cbn in F, F'.
      * rewrite (prefix_branch _ _ _ _ F F') in *. split_and!; congruence.
      * subst. apply prefix_length in F. rewrite !length_app in F. cbn in F. lia.
      * subst. apply prefix_length in F'. rewrite !length_app in F'. cbn in F'. lia.
      * split_and!; congruence.
    + destruct T'. destruct (nodes_on_chain k n' n p' p H1' H1 K' K) as [_ Hn].
      eapply next_towards_mono; [exact K|]. by apply Hn.
Qed.

(** At a node on a key's path, the key's leaf is in the slot that the key
    names, or further down. *)
Lemma leaf_edge_below n p nd q x l k :
  B !! n = Some p → N !! n = Some nd → p `prefix_of` k →
  edges r0 N B q x (LeafAt l) → key l = Some k →
  (k = p ++ pfx nd ∧ exact_leaf nd = LeafAt l ∧ q = k ∧ x = true) ∨
  (∃ b, p ++ pfx nd ++ [b] `prefix_of` k ∧ find_child nd b = Some (LeafAt l) ∧
        q = p ++ pfx nd ++ [b] ∧ x = false) ∨
  next_towards n k.
Proof using Hok.
  intros H1 H2 K [(-> & -> & R & _)|(n' & p' & nd' & H1' & H2' & E')] Hk.
  { destruct (root_is_node n p H1); congruence. }
  destruct (leaf_edge_last _ _ _ _ _ _ _ H1' H2' E' Hk) as (K' & T' & F').
  destruct (lt_eq_lt_dec (length p) (length p')) as [[L|L]|L].
  - do 2 right. destruct (nodes_on_chain k n n' p p' H1 H1' K K') as [_ Hn].
    eapply next_towards_mono; [exact K'|]. by apply Hn.
  - destruct (nodes_on_chain k n n' p p' H1 H1' K K') as [Hn _]. rewrite (Hn L) in *. simplify_eq.
    destruct E' as [(-> & b & Hb & ->)|(-> & Hx & _ & ->)]; cbn in F'.
    + right. left. exists b. rewrite <- (assoc_L (++)) in F' |- *. done.
    + left. by subst.
  - destruct T'. destruct (nodes_on_chain k n' n p' p H1' H1 K' K) as [_ Hn].
    eapply next_towards_mono; [exact K|]. by apply Hn.
Qed.
End ok.
End edges.
