(* ===== verification/Raw.v ===== *)
(** * The shared parts of the algorithms ([src/raw/mod.rs], [src/raw/write.rs])

    The latch operations on the tree's words, the unpublished-leaf owner, the
    pool of prepared nodes, and the parent guard of the write protocol. *)

From S2P Require Import Prelude Bytes Latch Slot Bits Node Free Mem.
Local Open Scope Z_scope.

Section raw.
Context {L : Type} `{LeafNode L}.
Abbreviation prog := (prog L).

(** ** Slots *)

Definition root : prog raw := RootLoad.
Definition set_root (v : raw) : prog unit := RootStore v.

(** [Layout::node] and [Layout::leaf], on a slot value of the right kind. *)
Definition node_ref (r : raw) : prog loc :=
  match r with NodeAt n => mret n | _ => Panic end.
Definition leaf_ref (r : raw) : prog loc :=
  match r with LeafAt l => mret l | _ => Panic end.

Definition len_add (n : Z) : prog unit :=
  if decide (n ≠ 0) then trigger (LenAdd n) else mret tt.

(** [RawTree::len], clamped at zero. *)
Definition raw_len : prog Z := n ← trigger LenSum; mret (Z.max n 0).

(** ** Latches *)

Definition node_read_version (n : loc) : prog (option Z) :=
  NodeLatch n (λ w, Some (read_version w, w)).
Definition node_is_obsolete (n : loc) : prog bool :=
  NodeLatch n (λ w, Some (is_obsolete w, w)).
Definition node_validate (n : loc) (v : Z) : prog bool :=
  NodeLatch n (λ w, Some (validate w v, w)).
Definition node_try_upgrade (n : loc) (v : Z) : prog (option WriteGuard) :=
  NodeLatch n (λ w, Some (try_upgrade w v)).
Definition node_lock (n : loc) : prog (option WriteGuard) := NodeLatch n lock_turn.
Definition node_unlock (n : loc) (w : WriteGuard) : prog Z :=
  NodeLatch n (λ _, Some (unlock w, unlock w)).
Definition node_drop (n : loc) (w : WriteGuard) : prog unit :=
  NodeLatch n (λ _, Some (tt, drop_guard w)).
Definition node_mark_obsolete (n : loc) (w : WriteGuard) : prog unit :=
  NodeLatch n (λ _, Some (tt, mark_obsolete w)).

(** [let Some(w) = self.root_latch.lock() else unreachable!()]. *)
Definition root_lock : prog WriteGuard := w ← trigger (RootLatch lock_turn); expect w.
Definition root_drop (w : WriteGuard) : prog unit := RootLatch (λ _, Some (tt, drop_guard w)).

(** ** Leaves *)

Definition leaf_key (l : loc) : prog (list byte) := LeafRead l key_bytes.
Definition leaf_mark_removed (l : loc) : prog unit := LeafWrite l mark_removed.

(** [Unpublished]: the owner of the leaf [l] is its cell in [t_owned]. *)
Definition owner_new (l : loc) : prog unit := OwnerNew l.
Definition owner_ptr (l : loc) : prog loc :=
  armed ← trigger (OwnerArmed l); if armed : bool then mret l else Panic.
Definition owner_disarm (l : loc) : prog unit := OwnerDisarm l.
Definition owner_drop (l : loc) : prog unit :=
  armed ← trigger (OwnerArmed l);
  if armed : bool then _ ← owner_disarm l; trigger (FreeLeaf l) else mret tt.

(** ** Unpublished nodes *)

Definition init_node (n : loc) (f : node raw → option (node raw)) : prog unit :=
  NodeInit n (λ ob, nd ← f (o_node ob); Some {| o_latch := o_latch ob; o_node := nd |}).

(** [reinit]: the whole allocation is rewritten, its latch included. *)
Definition reinit (n : loc) : prog unit :=
  NodeInit n (λ ob, Some {| o_latch := latch_new; o_node := node_new (node_type (o_node ob)) |}).

Definition init_prefix (n : loc) (prefix : list byte) : prog unit :=
  init_node n (λ nd, Some (write_prefix nd prefix)).
Definition init_exact_leaf (n : loc) (r : raw) : prog unit :=
  init_node n (λ nd, Some (set_exact_leaf nd r)).
Definition push_child_unpublished (n : loc) (b : byte) (c : raw) : prog unit :=
  init_node n (λ nd, insert_child_raw nd b c).

(** [src.copy_into(dst)], [dst] unpublished. *)
Definition node_copy_into (src dst : loc) : prog unit :=
  nd ← trigger (NodeRead src id); init_node dst (copy_into nd).

(** ** Writes under a latch *)

Definition store_prefix (n : loc) (prefix : list byte) : prog unit :=
  NodeWrite n (λ nd, Some (write_prefix nd prefix)).
Definition node_set_exact_leaf (n : loc) (r : raw) : prog unit :=
  NodeWrite n (λ nd, Some (set_exact_leaf nd r)).
Definition node_insert_child (n : loc) (b : byte) (c : raw) : prog unit :=
  NodeWrite n (λ nd, insert_child_raw nd b c).
Definition node_replace_child (n : loc) (b : byte) (c : raw) : prog unit :=
  NodeWrite n (λ nd, replace_child nd b c).
Definition node_remove_child (n : loc) (b : byte) : prog unit :=
  NodeWrite n (λ nd, Some (remove_child nd b)).

(** ** The pool of prepared nodes *)

Record Prepared := {
  inline : list (option (loc * bool));   (** [[Option<_>; 4]] *)
  spill : list (loc * bool);
}.

Definition prep_new : Prepared := {| inline := replicate 4 None; spill := [] |}.

(** The first unused entry of type [ty], and the entries with it marked used. *)
Fixpoint take_entry (es : list (option (loc * bool))) (ty : NodeType)
    : prog (option (loc * list (option (loc * bool)))) :=
  match es with
  | [] => mret None
  | e :: es =>
    found ← match e with
            | Some (n, false) => nt ← trigger (NodeRead n node_type);
                                 mret (if decide (nt = ty) then Some n else None)
            | _ => mret None
            end;
    match found with
    | Some n => mret (Some (n, Some (n, true) :: es))
    | None =>
      r ← take_entry es ty;
      mret (match r with Some (n, es) => Some (n, e :: es) | None => None end)
    end
  end.

(** [inline.iter_mut().find(|e| e.is_none())], or a push to [spill]. *)
Definition prep_add (p : Prepared) (n : loc) : Prepared :=
  match position (λ e, bool_decide (e = None)) (inline p) with
  | Some i => {| inline := <[i := Some (n, true)]> (inline p); spill := spill p |}
  | None => {| inline := inline p; spill := spill p ++ [(n, true)] |}
  end.

(** [Prepared::node]; [None] is [Full]. *)
Definition prep_node (p : Prepared) (ty : NodeType) : prog (option loc * Prepared) :=
  r ← take_entry (inline p ++ map Some (spill p)) ty;
  match r with
  | Some (n, es) =>
    _ ← reinit n;
    mret (Some n, {| inline := take (length (inline p)) es;
                     spill := omap id (drop (length (inline p)) es) |})
  | None =>
    n ← trigger (AllocNode ty);
    match n with
    | None => mret (None, p)
    | Some n => mret (Some n, prep_add p n)
    end
  end.

Definition unuse (e : loc * bool) : loc * bool := (e.1, false).

Definition prep_reset (p : Prepared) : Prepared :=
  {| inline := map (option_map unuse) (inline p); spill := map unuse (spill p) |}.

Definition prep_commit (p : Prepared) : Prepared :=
  {| inline := map (λ e, match e with Some (_, true) => None | _ => e end) (inline p);
     spill := filter (λ e, e.2 = false) (spill p) |}.

Definition prep_release (p : Prepared) : prog unit :=
  _ ← for_each (omap id (inline p)) (λ e, trigger (FreeNode e.1));
  for_each (spill p) (λ e, trigger (FreeNode e.1)).

(** ** Parents *)

(** Where the parent of the node being modified keeps it. *)
Inductive Parent :=
| ParentRoot
| ParentNode (r : raw) (version : Z) (byte : byte).

(** A held parent latch, re-checked to still point at the child. *)
Inductive ParentGuard :=
| GuardRoot (w : WriteGuard)
| GuardNode (p : loc) (w : WriteGuard) (byte : byte).

Definition pg_drop (pg : ParentGuard) : prog unit :=
  match pg with
  | GuardRoot w => root_drop w
  | GuardNode p w _ => node_drop p w
  end.

(** [ParentGuard::unlock]. *)
Definition pg_unlock (pg : ParentGuard) : prog (option Z) :=
  match pg with
  | GuardRoot w => _ ← root_drop w; mret None
  | GuardNode p w _ => v ← node_unlock p w; mret (Some v)
  end.

(** [then_some] drops the guard when the re-check fails. *)
Definition lock_parent (parent : Parent) (child : raw) : prog (option ParentGuard) :=
  match parent with
  | ParentRoot =>
    w ← trigger (RootLatch lock_turn);
    match w with
    | None => mret None
    | Some w =>
      r ← root;
      if decide (r = child) then mret (Some (GuardRoot w)) else _ ← root_drop w; mret None
    end
  | ParentNode r _ byte =>
    p ← node_ref r;
    w ← node_lock p;
    match w with
    | None => mret None
    | Some w =>
      c ← trigger (NodeRead p (λ nd, find_child nd byte));
      if decide (c = Some child) then mret (Some (GuardNode p w byte)) else _ ← node_drop p w; mret None
    end
  end.

Definition publish_in_parent (pg : ParentGuard) (new : raw) : prog unit :=
  match pg with
  | GuardRoot _ => set_root new
  | GuardNode p _ byte => node_replace_child p byte new
  end.

Definition unlink_in_parent (pg : ParentGuard) : prog unit :=
  match pg with
  | GuardRoot _ => set_root NULL
  | GuardNode p _ byte => node_remove_child p byte
  end.

(** R4: the parent is unchanged, or [root] still points at the child. *)
Definition still_parent (parent : Parent) (child : raw) : prog bool :=
  match parent with
  | ParentRoot => r ← root; mret (bool_decide (r = child))
  | ParentNode r version _ => p ← node_ref r; node_validate p version
  end.

(** [key.get(depth..).unwrap_or(&[])]. *)
Definition key_from (key : list byte) (depth : nat) : list byte :=
  if decide (depth <= length key)%nat then drop depth key else [].
End raw.
