(* ===== verification/Read.v ===== *)
(** * Point lookup ([src/raw/read.rs])

    [RawTree::get]: the optimistic descent with version validation, coupling
    and retries. [retries] bounds the attempts of the retry loop, one more
    than the length of the key the turns of one descent. *)

From S2P Require Import Prelude Bytes Latch Slot Bits Node Free Mem Raw.
Local Open Scope Z_scope.

Section read.
Context {L : Type} `{LeafNode L}.
Abbreviation prog := (prog L).

Definition retry_with {S A B} (s : S) : flow B (flow S A) := Break (Continue s).
Definition return_with {S A B} (a : A) : flow B (flow S A) := Break (Break a).

(** [(leaf.key_bytes() == key).then_some(leaf)]. *)
Definition check_leaf (key : list byte) (r : raw) : prog (option loc) :=
  l ← leaf_ref r; k ← leaf_key l; mret (if decide (k = key) then Some l else None).

(** One turn of the descent: the node at hand, its parent and its depth. *)
Definition get_turn (key : list byte) (backoff : SpinBackoff)
    (cursor : option (loc * Z) * raw * nat)
    : prog (flow (option (loc * Z) * raw * nat) (flow SpinBackoff (option loc))) :=
  let '(parent, cur, depth) := cursor in
  node ← node_ref cur;
  v ← node_read_version node;
  match v with
  | None => mret (retry_with (spin backoff).2)
  | Some v =>
    still_linked ← match parent with
                   | Some (p, pv) => node_validate p pv
                   | None => r ← root; mret (bool_decide (r = cur))
                   end;
    if negb still_linked then mret (retry_with backoff)
    else
      prefix ← trigger (NodeRead node load_prefix);
      if negb (is_prefix_of prefix (key_from key depth)) then
        ok ← node_validate node v;
        mret (if ok : bool then return_with None else retry_with backoff)
      else
        let node_depth := (depth + ps_len prefix)%nat in
        child ← if decide (node_depth = length key) then trigger (NodeRead node exact_leaf)
                else b ← expect (key !! node_depth);
                     c ← trigger (NodeRead node (λ nd, find_child nd b)); mret (default NULL c);
        if is_null child || is_leaf child then
          ok ← node_validate node v;
          if negb ok then mret (retry_with backoff)
          else if is_null child then mret (return_with None)
          else r ← check_leaf key child; mret (return_with r)
        else mret (Continue (Some (node, v), child, S node_depth))
  end.

Definition get (retries : nat) (key : list byte) : prog (option loc) :=
  loop retries (λ backoff,
    cur ← root;
    if is_null cur then mret (Break None)
    else if is_leaf cur then r ← check_leaf key cur; mret (Break r)
    else loop (S (length key)) (get_turn key backoff) (None, cur, 0%nat)) backoff_new.
End read.
