(* ===== verification/Inv.v ===== *)
(** * The invariant of a tree at rest, and the rules of its accesses

    [wf s B m P]: the tree in state [s], with start paths [B], stores the map
    [m] from keys to leaves. Its edges are well formed ([edges_ok]), its latches are
    free, its nodes satisfy [node_ok], and every object is accounted for: an
    allocated node is linked, retired (once, and obsolete) or in the pool [P];
    an allocated leaf is in the map, retired (once, and marked removed) or
    owned by an armed [Unpublished]. *)

From S2P Require Import Prelude Bytes Latch Slot Bits Node NodeSpec NodeOps Free Mem Shape Raw Read.
Local Open Scope Z_scope.

(** Evaluates the tests between two accesses, and nothing else. *)
Ltac wp_simpl :=
  cbv zeta; cbn [negb orb andb is_null is_leaf raw_slot from_option default option_map fst snd expect
       retry_with return_with id].

(** Nodes that may be left without an entry: the remove under way has yet to
    unlink them. At rest there are none. *)
Class Exempt := exempt : gset loc.

(** A node with an entry. *)
Definition nonempty (nd : node raw) : Prop :=
  (∃ b, is_Some (find_child nd b)) ∨ exact_leaf nd ≠ Null.

Section inv.
Context {L St : Type} {LN : LeafNode L} {LL : LeafLaws L} {LY : Layout St} {EX : Exempt}.
Abbreviation prog := (prog L).
Implicit Types (s : RawTree L St) (m : gmap path loc) (B : gmap loc path) (P : gset loc).

(** ** The invariant *)

Definition nodes_of s : gmap loc (node raw) := o_node <$> t_nodes s.

Definition live_key s (l : loc) : option path :=
  match t_leaves s !! l with
  | Some x => if is_removed x then None else Some (key_bytes x)
  | None => None
  end.

Definition tree_edges s B : path → bool → raw → Prop := edges (t_root s) (nodes_of s) B.

(** [m] is the map of the leaves that hang in the tree. *)
Definition map_ok s B m : Prop :=
  ∀ k l, m !! k = Some l ↔ live_key s l = Some k ∧ ∃ q x, tree_edges s B q x (LeafAt l).

Definition quiet (word : Z) : Prop := word mod 4 = 0.

Inductive node_status s B P (n : loc) : Prop :=
| node_linked ob : t_nodes s !! n = Some ob → is_Some (B !! n) → n ∉ t_retired_nodes s → n ∉ P →
    node_ok (o_node ob) → quiet (o_latch ob) → (n ∉ exempt → nonempty (o_node ob)) → node_status s B P n
| node_retired ob : t_nodes s !! n = Some ob → B !! n = None → n ∈ t_retired_nodes s → n ∉ P →
    is_obsolete (o_latch ob) = true → node_status s B P n
| node_pooled ob : t_nodes s !! n = Some ob → B !! n = None → n ∉ t_retired_nodes s → n ∈ P →
    node_ok (o_node ob) → o_latch ob = 0 → node_status s B P n
| node_free : t_nodes s !! n = None → B !! n = None → n ∉ t_retired_nodes s → n ∉ P →
    node_status s B P n.

Inductive leaf_status s m (l : loc) : Prop :=
| leaf_linked x : t_leaves s !! l = Some x → is_removed x = false → m !! key_bytes x = Some l →
    l ∉ t_retired_leaves s → l ∉ t_owned s → leaf_status s m l
| leaf_retired x : t_leaves s !! l = Some x → is_removed x = true → (∀ k, m !! k ≠ Some l) →
    l ∈ t_retired_leaves s → l ∉ t_owned s → leaf_status s m l
| leaf_owned x : t_leaves s !! l = Some x → is_removed x = false → (∀ k, m !! k ≠ Some l) →
    l ∉ t_retired_leaves s → l ∈ t_owned s → leaf_status s m l
| leaf_free : t_leaves s !! l = None → (∀ k, m !! k ≠ Some l) →
    l ∉ t_retired_leaves s → l ∉ t_owned s → leaf_status s m l.

Record wf s B m P : Prop := {
  wf_edges : edges_ok (t_root s) (nodes_of s) B (live_key s);
  wf_map : map_ok s B m;
  wf_nodes n : node_status s B P n;
  wf_leaves l : leaf_status s m l;
  wf_retired_nodes : NoDup (t_retired_nodes s);
  wf_retired_leaves : NoDup (t_retired_leaves s);
  wf_root_latch : quiet (t_root_latch s);
  wf_stripes : length (t_len s) = Counter.STRIPES ∧ (t_stripe s < Counter.STRIPES)%nat;
}.

Lemma lookup_nodes_of s n : nodes_of s !! n = o_node <$> t_nodes s !! n.
Proof. apply lookup_fmap. Qed.

Lemma nodes_of_Some s n nd : nodes_of s !! n = Some nd ↔ ∃ ob, t_nodes s !! n = Some ob ∧ nd = o_node ob.
Proof. rewrite lookup_nodes_of, fmap_Some. naive_solver. Qed.

Lemma nodes_of_put s n ob : nodes_of (put_node s n ob) = <[n := o_node ob]> (nodes_of s).
Proof. apply fmap_insert. Qed.

Lemma wf_linked s B m P n p : wf s B m P → B !! n = Some p →
  ∃ ob, t_nodes s !! n = Some ob ∧ node_ok (o_node ob) ∧ quiet (o_latch ob).
Proof.
  intros W Hp. destruct (wf_nodes _ _ _ _ W n) as [ob H1 _ _ _ H2 H3 _| | |]; [by exists ob|congruence..].
Qed.

(** An empty tree. *)
Lemma wf_new (storage : St) stripe : (stripe < Counter.STRIPES)%nat →
  wf (new_in storage stripe) ∅ ∅ ∅.
Proof.
  assert (∀ q x r, ¬ tree_edges (new_in (L := L) storage stripe) ∅ q x r) as E.
  { intros q x r [(_ & _ & -> & ?)|(n & p & nd & Hn & _)]; [done|]. by rewrite lookup_empty in Hn. }
  intros Hs. split; cbn; [split| | | | | | |]; try by intros.
  - intros q x n Hn. by apply E in Hn.
  - intros q x l Hl. by apply E in Hl.
  - intros k l. rewrite lookup_empty. split; [done|]. intros (_ & q & x & Hx). by apply E in Hx.
  - intros n. by apply node_free; [apply lookup_empty..|apply not_elem_of_nil|].
  - intros l. apply leaf_free; [apply lookup_empty| |apply not_elem_of_nil|done].
    intros k. by rewrite lookup_empty.
  - constructor.
  - constructor.
Qed.

(** ** Latch words *)

Lemma quiet_read_version w : quiet w → read_version w = Some w.
Proof. intros Q. by apply read_version_Some. Qed.

Lemma quiet_validate w : validate w w = true.
Proof. apply Z.eqb_refl. Qed.

Lemma quiet_try_upgrade w : quiet w → try_upgrade w w = (Some {| g_v := w |}, w + 1).
Proof. intros Q. by apply try_upgrade_Some. Qed.

Lemma quiet_not_obsolete w : quiet w → is_obsolete w = false.
Proof.
  intros Q. unfold is_obsolete, OBSOLETE_BIT. rewrite <- (Z.add_0_r w), land_low by (auto; lia). done.
Qed.

Lemma quiet_lock_turn w : quiet w → lock_turn w = Some (Some {| g_v := w |}, w + 1).
Proof.
  intros Q. unfold lock_turn. pose proof (quiet_not_obsolete w Q) as E. unfold is_obsolete in E.
  rewrite E. unfold LOCK_BIT. rewrite <- (Z.add_0_r w) at 1.
  rewrite land_low by (auto; lia). cbn. by rewrite quiet_try_upgrade.
Qed.

Lemma quiet_locked w : quiet w → locked (w + 1) = true.
Proof. intros Q. unfold locked, LOCK_BIT. rewrite land_low by (auto; lia). done. Qed.

Lemma quiet_drop w : quiet w → quiet (drop_guard {| g_v := w |}).
Proof. apply wrap_mod4. Qed.

Lemma quiet_unlock w : quiet w → quiet (unlock {| g_v := w |}).
Proof. apply wrap_mod4. Qed.

Lemma quiet_obsolete w : quiet w → is_obsolete (mark_obsolete {| g_v := w |}) = true.
Proof.
  intros Q. unfold is_obsolete, mark_obsolete, OBSOLETE_BIT; cbn.
  rewrite lor_low by (auto; lia). rewrite land_low by (auto; lia). done.
Qed.

Lemma quiet_new : quiet latch_new.
Proof. done. Qed.

(** ** Rules for the accesses *)

Lemma put_node_id s n ob : t_nodes s !! n = Some ob → put_node s n ob = s.
Proof. intros E. unfold put_node. rewrite insert_id by done. by destruct s. Qed.

Implicit Types Q : raw → RawTree L St → Prop.

Lemma wp_root Q s : Q (t_root s) s → wp root Q s.
Proof. done. Qed.

Lemma wp_node_ref n (Q : loc → RawTree L St → Prop) s : Q n s → wp (node_ref (NodeAt n)) Q s.
Proof. done. Qed.

Lemma wp_leaf_ref l (Q : loc → RawTree L St → Prop) s : Q l s → wp (leaf_ref (LeafAt l)) Q s.
Proof. done. Qed.

Lemma wp_node_read {A} n (f : node raw → A) (Q : A → RawTree L St → Prop) s ob :
  t_nodes s !! n = Some ob → Q (f (o_node ob)) s → wp (trigger (NodeRead n f)) Q s.
Proof. intros E HQ. eapply wp_exec; [|exact HQ]. cbn. unfold with_node. by rewrite E. Qed.

Lemma wp_node_latch {A} n (f : latch_op A) (Q : A → RawTree L St → Prop) s ob a w :
  t_nodes s !! n = Some ob → f (o_latch ob) = Some (a, w) →
  Q a (put_node s n {| o_latch := w; o_node := o_node ob |}) → wp (trigger (NodeLatch n f)) Q s.
Proof. intros E Ef HQ. eapply wp_exec; [|exact HQ]. cbn. unfold with_node. by rewrite E, Ef. Qed.

(** An access of a latch word that does not change it. *)
Lemma wp_node_latch_read {A} n (f : Z → A) (Q : A → RawTree L St → Prop) s ob :
  t_nodes s !! n = Some ob → Q (f (o_latch ob)) s →
  wp (trigger (NodeLatch n (λ w, Some (f w, w)))) Q s.
Proof.
  intros E HQ. eapply wp_node_latch; [done..|].
  replace {| o_latch := o_latch ob; o_node := o_node ob |} with ob by by destruct ob.
  by rewrite put_node_id.
Qed.

Lemma wp_read_version n (Q : option Z → RawTree L St → Prop) s ob :
  t_nodes s !! n = Some ob → quiet (o_latch ob) → Q (Some (o_latch ob)) s →
  wp (node_read_version n) Q s.
Proof.
  intros E Hq HQ. eapply wp_node_latch_read; [done|]. by rewrite quiet_read_version.
Qed.

Lemma wp_validate n v (Q : bool → RawTree L St → Prop) s ob :
  t_nodes s !! n = Some ob → v = o_latch ob → Q true s → wp (node_validate n v) Q s.
Proof.
  intros E -> HQ. eapply (wp_node_latch_read n (λ w, validate w (o_latch ob))); [done|].
  by rewrite quiet_validate.
Qed.

Lemma wp_is_obsolete n (Q : bool → RawTree L St → Prop) s ob :
  t_nodes s !! n = Some ob → Q (is_obsolete (o_latch ob)) s → wp (node_is_obsolete n) Q s.
Proof. intros E HQ. by eapply wp_node_latch_read. Qed.

Lemma wp_try_upgrade n v (Q : option WriteGuard → RawTree L St → Prop) s ob :
  t_nodes s !! n = Some ob → quiet (o_latch ob) → v = o_latch ob →
  Q (Some {| g_v := v |}) (put_node s n {| o_latch := v + 1; o_node := o_node ob |}) →
  wp (node_try_upgrade n v) Q s.
Proof. intros E Hq -> HQ. eapply wp_node_latch; [done| |exact HQ]. by rewrite quiet_try_upgrade. Qed.

Lemma wp_lock n (Q : option WriteGuard → RawTree L St → Prop) s ob :
  t_nodes s !! n = Some ob → quiet (o_latch ob) →
  Q (Some {| g_v := o_latch ob |}) (put_node s n {| o_latch := o_latch ob + 1; o_node := o_node ob |}) →
  wp (node_lock n) Q s.
Proof. intros E Hq HQ. eapply wp_node_latch; [done| |exact HQ]. by rewrite quiet_lock_turn. Qed.

Lemma wp_node_write n f (Q : unit → RawTree L St → Prop) s ob nd :
  t_nodes s !! n = Some ob → locked (o_latch ob) = true → f (o_node ob) = Some nd →
  Q tt (put_node s n {| o_latch := o_latch ob; o_node := nd |}) → wp (trigger (NodeWrite n f)) Q s.
Proof. intros E Hl Ef HQ. eapply wp_exec; [|exact HQ]. cbn. unfold with_node. by rewrite E, Hl, Ef. Qed.

Lemma wp_root_write v (Q : unit → RawTree L St → Prop) s :
  locked (t_root_latch s) = true → Q tt (set_t_root v s) → wp (set_root v) Q s.
Proof. intros Hl HQ. eapply wp_exec; [|exact HQ]. cbn. by rewrite Hl. Qed.

Lemma wp_root_latch {A} (f : latch_op A) (Q : A → RawTree L St → Prop) s a w :
  f (t_root_latch s) = Some (a, w) → Q a (set_t_root_latch w s) → wp (trigger (RootLatch f)) Q s.
Proof. intros Ef HQ. eapply wp_exec; [|exact HQ]. cbn. by rewrite Ef. Qed.

Lemma wp_root_lock (Q : WriteGuard → RawTree L St → Prop) s :
  quiet (t_root_latch s) →
  Q {| g_v := t_root_latch s |} (set_t_root_latch (t_root_latch s + 1) s) → wp root_lock Q s.
Proof.
  intros Hq HQ. unfold root_lock. apply wp_bind.
  eapply wp_root_latch; [by apply quiet_lock_turn|]. done.
Qed.

Lemma wp_leaf_read {A} l (f : L → A) (Q : A → RawTree L St → Prop) s x :
  t_leaves s !! l = Some x → Q (f x) s → wp (trigger (LeafRead l f)) Q s.
Proof. intros E HQ. eapply wp_exec; [|exact HQ]. cbn. unfold with_leaf. by rewrite E. Qed.

Lemma live_key_Some s l k : live_key s l = Some k ↔
  ∃ x, t_leaves s !! l = Some x ∧ is_removed x = false ∧ key_bytes x = k.
Proof.
  unfold live_key. destruct (t_leaves s !! l) as [x|] eqn:El.
  - destruct (is_removed x) eqn:E; [|naive_solver].
    split; [done|]. intros (x' & [= <-] & ? & _). congruence.
  - split; [done|]. by intros (x & ? & _).
Qed.

Lemma wp_leaf_key l k (Q : list byte → RawTree L St → Prop) s :
  live_key s l = Some k → Q k s → wp (leaf_key l) Q s.
Proof. intros (x & E & _ & <-)%live_key_Some HQ. by eapply wp_leaf_read. Qed.
End inv.
