(* ===== verification/Descent.v ===== *)
(** * Descents along a key

    What a node on a key's path says about the key, for every way the
    algorithms leave the node: the prefix differs, the key ends at the node,
    the branch byte has no child, a leaf, or an inner child. The point lookup
    is proved here too: [get] returns the map's value. *)

From S2P Require Import Prelude Bytes Latch Slot Bits Node NodeSpec NodeOps Free Mem Shape Raw Read Inv.
Local Open Scope Z_scope.

Section descent.
Context {L St : Type} {LN : LeafNode L} {LL : LeafLaws L} {LY : Layout St} {EX : Exempt}.
Implicit Types (s : RawTree L St) (m : gmap path loc) (B : gmap loc path) (P : gset loc) (key : path).

(** The parent of a node, as the writers keep it. *)
Inductive parent_ok s B (n : loc) (p : path) : Parent → Prop :=
| parent_root : t_root s = NodeAt n → p = [] → parent_ok s B n p ParentRoot
| parent_node a q ob b : B !! a = Some q → t_nodes s !! a = Some ob → quiet (o_latch ob) →
    node_ok (o_node ob) → find_child (o_node ob) b = Some (NodeAt n) →
    p = q ++ pfx (o_node ob) ++ [b] → parent_ok s B n p (ParentNode (NodeAt a) (o_latch ob) b).

(** A node on the path of [key]. *)
Record on_path s B key (n : loc) (p : path) (ob : NodeObj) : Prop := {
  op_base : B !! n = Some p;
  op_prefix : p `prefix_of` key;
  op_node : t_nodes s !! n = Some ob;
  op_ok : node_ok (o_node ob);
  op_quiet : quiet (o_latch ob);
}.

Lemma on_path_intro s B m P key n p : wf s B m P → B !! n = Some p → p `prefix_of` key →
  ∃ ob, on_path s B key n p ob.
Proof. intros W Hp Hk. destruct (wf_linked _ _ _ _ _ _ W Hp) as (ob & ? & ? & ?). by exists ob. Qed.

Lemma root_on_path s B m P key n : wf s B m P → t_root s = NodeAt n →
  (∃ ob, on_path s B key n [] ob) ∧ parent_ok s B n [] ParentRoot.
Proof.
  intros W R. destruct (eo_node _ _ _ _ (wf_edges _ _ _ _ W) [] false n) as [_ Hn].
  { rewrite <- R. apply edge_root. by rewrite R. }
  split; [|by constructor]. eapply on_path_intro; [done..|]. apply prefix_nil.
Qed.

Lemma key_from_drop key p : p `prefix_of` key → key_from key (length p) = drop (length p) key.
Proof. intros K%prefix_length. unfold key_from. by rewrite decide_True. Qed.

Lemma prefix_of_drop (p c key : path) :
  p `prefix_of` key → c `prefix_of` drop (length p) key ↔ p ++ c `prefix_of` key.
Proof.
  intros [k ->]. rewrite drop_app_length. split; [by apply prefix_app|].
  intros [k' E]. rewrite <- (assoc_L (++)) in E. apply app_inv_head in E as ->. by eexists.
Qed.

Section at_node.
Context s B m P (W : wf s B m P).
Context key n p ob (O : on_path s B key n p ob).
Abbreviation nd := (o_node ob).
Abbreviation base := (p ++ pfx (o_node ob)).

Lemma at_nodes_of : nodes_of s !! n = Some nd.
Proof using O. rewrite lookup_nodes_of, (op_node _ _ _ _ _ _ O). done. Qed.

Lemma at_snapshot : snapshot_ok (load_prefix nd).
Proof using O. apply load_prefix_ok, O. Qed.

Lemma at_prefix_len : ps_len (load_prefix nd) = length (pfx nd).
Proof using O. unfold pfx. by rewrite as_slice_length by apply at_snapshot. Qed.

(** The prefix check. *)
Lemma at_is_prefix_of :
  is_prefix_of (load_prefix nd) (key_from key (length p)) = bool_decide (base `prefix_of` key).
Proof using O.
  rewrite key_from_drop by apply O. apply eq_bool_prop_intro.
  rewrite bool_decide_spec. rewrite <- prefix_of_drop by apply O.
  rewrite <- (is_prefix_of_spec _ _ at_snapshot). destruct (is_prefix_of _ _); cbn; naive_solver.
Qed.

Lemma at_depth : (length p + ps_len (load_prefix nd))%nat = length base.
Proof using O. by rewrite at_prefix_len, length_app. Qed.

(** The edge of the key's leaf, seen from this node. *)
Lemma at_key_leaf l : m !! key = Some l →
  (key = base ∧ exact_leaf nd = LeafAt l) ∨
  (∃ b, base ++ [b] `prefix_of` key ∧ find_child nd b = Some (LeafAt l)) ∨
  (∃ b n', base ++ [b] `prefix_of` key ∧ find_child nd b = Some (NodeAt n')).
Proof using W O.
  intros Hl. apply (wf_map _ _ _ _ W) in Hl as (Hk & q & x & E).
  destruct (leaf_edge_below _ _ _ _ (wf_edges _ _ _ _ W) n p nd q x l key) as [X|[X|X]];
    [apply O|apply at_nodes_of|apply O|done..| | |].
  - left. naive_solver.
  - right. left. destruct X as (b & Hb & ? & _). exists b. by rewrite <- (assoc_L (++)).
  - do 2 right. destruct X as (p' & nd' & b & n' & X1 & X2 & X3 & X4).
    rewrite (op_base _ _ _ _ _ _ O) in X1. rewrite at_nodes_of in X2. simplify_eq.
    exists b, n'. by rewrite <- (assoc_L (++)).
Qed.

Lemma at_mismatch : ¬ base `prefix_of` key → m !! key = None.
Proof using W O.
  intros Hn. destruct (m !! key) as [l|] eqn:E; [|done]. destruct Hn.
  destruct (at_key_leaf l E) as [[-> _]|[(b & Hb & _)|(b & n' & Hb & _)]]; [done|..];
    by eapply prefix_app_self.
Qed.

(** The exact leaf. *)
Lemma at_exact_cases :
  exact_leaf nd = Null ∨ ∃ l, exact_leaf nd = LeafAt l ∧ live_key s l = Some base ∧ m !! base = Some l.
Proof using W O.
  destruct (decide (exact_leaf nd = Null)) as [|Hx]; [by left|right].
  pose proof (edge_exact (t_root s) (nodes_of s) B n p nd (op_base _ _ _ _ _ _ O) at_nodes_of Hx) as E.
  destruct (exact_leaf nd) as [|l|n'] eqn:Ex; [done| |].
  - exists l. destruct (eo_leaf _ _ _ _ (wf_edges _ _ _ _ W) _ _ _ E) as (k & Hk & F). cbn in F. subst.
    split_and!; [done..|]. apply (wf_map _ _ _ _ W). eauto.
  - by destruct (eo_node _ _ _ _ (wf_edges _ _ _ _ W) _ _ _ E).
Qed.

Lemma at_end : key = base →
  m !! key = match exact_leaf nd with LeafAt l => Some l | _ => None end.
Proof using W O.
  intros Hk. destruct (m !! key) as [l|] eqn:E.
  - destruct (at_key_leaf l E) as [[_ ->]|[(b & Hb%prefix_length & _)|(b & n' & Hb%prefix_length & _)]]; [done|..];
      rewrite Hk, !length_app in Hb; cbn in Hb; lia.
  - destruct at_exact_cases as [->|(l & -> & _ & Hl)]; [done|]. rewrite <- Hk in Hl. congruence.
Qed.

(** The branch byte of the key. *)
Lemma at_branch b l : base `prefix_of` key → key !! length base = Some b →
  base ++ [b] `prefix_of` key ∧
  (find_child nd b = None → m !! key = None) ∧
  (find_child nd b = Some (LeafAt l) →
     (∃ k, live_key s l = Some k ∧ base ++ [b] `prefix_of` k ∧ m !! k = Some l) ∧
     (m !! key ≠ None → m !! key = Some l)).
Proof using W O.
  intros Hp Hb. assert (base ++ [b] `prefix_of` key) as K by by apply prefix_snoc_of_lookup.
  assert (∀ l', m !! key = Some l' →
    find_child nd b = Some (LeafAt l') ∨ ∃ n', find_child nd b = Some (NodeAt n')) as X.
  { intros l' [[E _]|[(b' & Hb' & E)|(b' & n' & Hb' & E)]]%at_key_leaf.
    - rewrite E in K. apply prefix_length in K. rewrite !length_app in K. cbn in K. lia.
    - rewrite (prefix_branch _ _ _ _ K Hb'). eauto.
    - rewrite (prefix_branch _ _ _ _ K Hb'). eauto. }
  split_and!; [done| |].
  - intros E. destruct (m !! key) as [l'|] eqn:El; [|done]. destruct (X l' eq_refl) as [|[? ?]]; congruence.
  - intros E. split.
    + pose proof (edge_child (t_root s) (nodes_of s) B n p nd b _ (op_base _ _ _ _ _ _ O) at_nodes_of E) as Ed.
      rewrite (assoc_L (++)) in Ed.
      destruct (eo_leaf _ _ _ _ (wf_edges _ _ _ _ W) _ _ _ Ed) as (k & Hk & F).
      exists k. split_and!; [done..|]. apply (wf_map _ _ _ _ W). eauto.
    + intros Hne. destruct (m !! key) as [l'|] eqn:El; [|done].
      destruct (X l' eq_refl) as [|[? ?]]; congruence.
Qed.

Lemma at_inner b n' : base ++ [b] `prefix_of` key → find_child nd b = Some (NodeAt n') →
  (∃ ob', on_path s B key n' (base ++ [b]) ob') ∧
  parent_ok s B n' (base ++ [b]) (ParentNode (NodeAt n) (o_latch ob) b).
Proof using W O.
  intros K E.
  pose proof (edge_child (t_root s) (nodes_of s) B n p nd b _ (op_base _ _ _ _ _ _ O) at_nodes_of E) as Ed.
  rewrite (assoc_L (++)) in Ed.
  destruct (eo_node _ _ _ _ (wf_edges _ _ _ _ W) _ _ _ Ed) as [_ Hn'].
  split; [by eapply on_path_intro|].
  econstructor; [apply O..|done|]. by rewrite (assoc_L (++)).
Qed.
End at_node.

(** The leaf at the root. *)
Lemma root_leaf s B m P l : wf s B m P → t_root s = LeafAt l →
  ∃ k, live_key s l = Some k ∧ m = {[k := l]}.
Proof.
  intros W R. pose proof (wf_edges _ _ _ _ W) as EO.
  assert (edges (t_root s) (nodes_of s) B [] false (LeafAt l)) as E.
  { rewrite <- R. apply edge_root. by rewrite R. }
  destruct (eo_leaf _ _ _ _ EO _ _ _ E) as (k & Hk & _). exists k. split; [done|].
  apply map_eq. intros k'. destruct (m !! k') as [l'|] eqn:El.
  - apply (wf_map _ _ _ _ W) in El as (Hk' & q & x & [(_ & _ & E' & _)|(n & p & nd & Hn & _)]).
    + rewrite R in E'. simplify_eq. by rewrite lookup_singleton_eq.
    + destruct (root_is_node _ _ _ _ EO n p Hn). congruence.
  - destruct (decide (k' = k)) as [->|]; [|by rewrite lookup_singleton_ne].
    assert (m !! k = Some l) by (apply (wf_map _ _ _ _ W); eauto). congruence.
Qed.

Lemma root_null s B m P : wf s B m P → t_root s = Null → m = ∅ ∧ B = ∅.
Proof.
  intros W R. pose proof (wf_edges _ _ _ _ W) as EO.
  assert (∀ n p, B !! n ≠ Some p) as HB.
  { intros n p Hn. destruct (root_is_node _ _ _ _ EO n p Hn). congruence. }
  split.
  - apply map_empty. intros k. destruct (m !! k) as [l|] eqn:El; [|done].
    apply (wf_map _ _ _ _ W) in El as (_ & q & x & [(_ & _ & E' & _)|(n & p & nd & Hn & _)]).
    + congruence.
    + by apply HB in Hn.
  - apply map_empty. intros n. destruct (B !! n) eqn:E; [|done]. by apply HB in E.
Qed.

(** ** The lookup *)

Lemma check_leaf_spec s l k key (Q : option loc → RawTree L St → Prop) :
  live_key s l = Some k → Q (if decide (k = key) then Some l else None) s →
  wp (check_leaf key (LeafAt l)) Q s.
Proof.
  intros Hk HQ. unfold check_leaf. apply wp_bind, wp_leaf_ref, wp_bind.
  by eapply wp_leaf_key.
Qed.

Section lookup.
Context s B m P (W : wf s B m P) (key : path).

(** The cursor of the descent. *)
Definition get_cursor_ok (c : option (loc * Z) * raw * nat) : Prop :=
  let '(parent, cur, depth) := c in
  ∃ n p ob, cur = NodeAt n ∧ on_path s B key n p ob ∧ depth = length p ∧
    match parent with
    | None => t_root s = NodeAt n
    | Some (a, v) => ∃ oba, t_nodes s !! a = Some oba ∧ v = o_latch oba
    end.

Lemma get_turn_spec backoff c : get_cursor_ok c →
  wp (get_turn key backoff c)
    (λ r s', s' = s ∧ match r with
             | Continue c' => get_cursor_ok c' ∧ (length key - c'.2 < length key - c.2)%nat
             | Break (Break o) => o = m !! key
             | Break (Continue _) => False
             end) s.
Proof using W LY LL.
  destruct c as [[parent cur] depth]. intros (n & p & ob & -> & O & -> & Hpar). cbn [get_turn].
  apply wp_bind, wp_node_ref, wp_bind.
  eapply wp_read_version; [apply O|apply O|]. apply wp_bind.
  apply (wp_mono _ (λ b s', b = true ∧ s' = s)).
  { destruct parent as [[a v]|].
    - destruct Hpar as (oba & Ha & ->). by eapply wp_validate.
    - apply wp_bind, wp_root, wp_ret. rewrite Hpar. by rewrite bool_decide_true. }
  intros ? ? [-> ->]. wp_simpl. apply wp_bind. eapply wp_node_read; [apply O|].
  rewrite (at_is_prefix_of _ _ _ _ _ _ O). case_bool_decide as K; wp_simpl.
  2: { apply wp_bind. eapply wp_validate; [apply O|done|]. wp_simpl. apply wp_ret. split; [done|].
       symmetry. eapply at_mismatch; eauto. }
  apply wp_bind. cbv zeta. rewrite (at_depth _ _ _ _ _ _ O).
  destruct (decide (length (p ++ pfx (o_node ob)) = length key)) as [D|D].
  - assert (p ++ pfx (o_node ob) = key) as Ek.
    { apply prefix_length_eq; [done|lia]. }
    eapply wp_node_read; [apply O|]. pose proof (at_end _ _ _ _ W _ _ _ _ O (eq_sym Ek)) as HM.
    destruct (at_exact_cases _ _ _ _ W _ _ _ _ O) as [E|(l & E & Hl & _)]; rewrite E in *; wp_simpl.
    + apply wp_bind. eapply wp_validate; [apply O|done|]. by apply wp_ret.
    + apply wp_bind. eapply wp_validate; [apply O|done|]. wp_simpl. apply wp_bind.
      eapply check_leaf_spec; [done|]. apply wp_ret. by rewrite decide_True.
  - destruct (lookup_lt_is_Some_2 key (length (p ++ pfx (o_node ob)))) as [b Hb].
    { apply prefix_length in K. lia. }
    rewrite Hb. apply wp_bind, wp_ret, wp_bind. eapply wp_node_read; [apply O|]. apply wp_ret.
    pose proof (λ l, at_branch _ _ _ _ W _ _ _ _ O b l K Hb) as HB.
    destruct (find_child (o_node ob) b) as [[|l|n']|] eqn:E.
    + by apply (find_child_not_null (R := raw)) in E.
    + destruct (HB l) as (_ & _ & X). destruct (X eq_refl) as ((k & Hk & _ & Hkl) & Hm).
      wp_simpl. apply wp_bind. eapply wp_validate; [apply O|done|]. wp_simpl. apply wp_bind.
      eapply check_leaf_spec; [done|]. apply wp_ret. split; [done|].
      case_decide; [by subst|]. destruct (m !! key) as [l'|] eqn:El; [|done].
      rewrite Hm in El by done.
      apply (wf_map _ _ _ _ W) in El as [Hl _]. congruence.
    + destruct (HB inhabitant) as (K' & _). wp_simpl. apply wp_ret. split; [done|]. split.
      * destruct (at_inner _ _ _ _ W _ _ _ _ O b n' K' E) as [[ob' O'] _].
        exists n', (p ++ pfx (o_node ob) ++ [b]), ob'. rewrite <- (assoc_L (++)) in O'.
        split_and!; [done..| |].
        -- rewrite !length_app. cbn. lia.
        -- exists ob. split; [apply O|done].
      * apply prefix_length in K'. rewrite !length_app in *. cbn in *. lia.
    + destruct (HB inhabitant) as (_ & X & _). wp_simpl. apply wp_bind.
      eapply wp_validate; [apply O|done|]. wp_simpl. apply wp_ret. split; [done|]. by rewrite X.
Qed.

Lemma get_spec retries : (0 < retries)%nat →
  wp (get retries key) (λ o s', s' = s ∧ o = m !! key) s.
Proof using W LY LL.
  intros Hr. unfold get. apply wp_loop_once; [done|]. apply wp_bind, wp_root.
  destruct (t_root s) as [|l|n] eqn:R; wp_simpl.
  - apply wp_ret. destruct (root_null _ _ _ _ W R) as [-> _]. by rewrite lookup_empty.
  - destruct (root_leaf _ _ _ _ _ W R) as (k & Hk & ->). apply wp_bind.
    eapply check_leaf_spec; [done|]. apply wp_ret. split; [done|].
    case_decide; [subst; by rewrite lookup_singleton_eq|by rewrite lookup_singleton_ne].
  - destruct (root_on_path _ _ _ _ key _ W R) as [[ob O] _].
    apply (wp_loop (λ c s', s' = s ∧ get_cursor_ok c) (λ c, (length key - c.2)%nat)).
    + intros c ? [-> Hc]. eapply wp_mono; [by apply get_turn_spec|].
      intros [c'|[|o]] s' [-> Hr']; [|done..]. destruct Hr' as [? ?]. by split.
    + split; [done|]. exists n, [], ob. by split_and!.
    + cbn. lia.
Qed.
End lookup.
End descent.
