(* ===== verification/Commit.v ===== *)
(** * What the commits do to the shape

    A slot of the tree is the root, a child slot or an exact leaf. The commits
    of the write algorithms store to one slot, and may drop, add or re-base
    nodes. [slot_set_edges] gives the edges after a store to one slot;
    [edges_split] takes one node's edges apart from the others';
    [update_edges_ok] and [update_map_ok] rebuild the invariant from the edges
    that go ([G]) and come ([A]). *)

From S2P Require Import Prelude Bytes Slot Bits Node NodeSpec NodeOps Shape.

Section commit.
Implicit Types (r : raw) (N : gmap loc (node raw)) (B : gmap loc path) (p q k : path).

(** ** One node's edges *)

Lemma edges_split r0 N B n p nd q x r :
  B !! n = Some p → N !! n = Some nd →
  edges r0 N B q x r ↔ edges r0 N (delete n B) q x r ∨ node_edges (p ++ pfx nd) nd q x r.
Proof.
  intros Hp Hn. split.
  - intros [E|(n' & p' & nd' & Hp' & Hn' & E)]; [by do 2 left|].
    destruct (decide (n' = n)) as [->|Hne].
    + right. by simplify_eq.
    + left. right. exists n', p', nd'. by rewrite lookup_delete_ne.
  - intros [[E|(n' & p' & nd' & Hp' & Hn' & E)]|E].
    + by left.
    + right. apply lookup_delete_Some in Hp' as [_ Hp']. by exists n', p', nd'.
    + right. by exists n, p, nd.
Qed.

(** Only the linked nodes matter. *)
Lemma edges_ext r0 N N' B q x r :
  (∀ n, is_Some (B !! n) → N' !! n = N !! n) → edges r0 N' B q x r ↔ edges r0 N B q x r.
Proof.
  assert (∀ N1 N2, (∀ n, is_Some (B !! n) → N2 !! n = N1 !! n) → edges r0 N1 B q x r → edges r0 N2 B q x r) as X.
  { intros N1 N2 E [Ed|(n & p & nd & Hp & Hn & Ed)]; [by left|]. right. exists n, p, nd.
    rewrite E by done. done. }
  intros E. split; apply X; [|done]. intros n Hn. by rewrite E.
Qed.

(** Replacing a linked node, at the same path. *)
Lemma edges_insert r0 N B n p nd q x r :
  edges r0 (<[n := nd]> N) (<[n := p]> B) q x r ↔
  edges r0 N (delete n B) q x r ∨ node_edges (p ++ pfx nd) nd q x r.
Proof.
  rewrite (edges_split _ _ _ n p nd) by apply lookup_insert_eq.
  rewrite delete_insert_eq, edges_ext; [done|]. intros n' [p' [? ?]%lookup_delete_Some].
  by rewrite lookup_insert_ne.
Qed.

(** ** Slots *)

Inductive slot := SlotRoot | SlotChild (n : loc) (b : byte) | SlotExact (n : loc).

(** A slot of the tree, the path and kind of its edge, and its content. *)
Inductive slot_at (r0 : raw) N B : slot → path → bool → option raw → Prop :=
| at_root : slot_at r0 N B SlotRoot [] false (present r0)
| at_child n p nd b : B !! n = Some p → N !! n = Some nd →
    slot_at r0 N B (SlotChild n b) (p ++ pfx nd ++ [b]) false (find_child nd b)
| at_exact n p nd : B !! n = Some p → N !! n = Some nd →
    slot_at r0 N B (SlotExact n) (p ++ pfx nd) true (present (exact_leaf nd)).

(** Stores to one slot. *)
Inductive slot_set (r0 : raw) N : slot → option raw → raw → gmap loc (node raw) → Prop :=
| set_root_slot r v : v = present r → slot_set r0 N SlotRoot v r N
| set_child_slot n nd nd' b v : N !! n = Some nd → pfx nd' = pfx nd → exact_leaf nd' = exact_leaf nd →
    (∀ y, find_child nd' y = if decide (y = b) then v else find_child nd y) →
    slot_set r0 N (SlotChild n b) v r0 (<[n := nd']> N)
| set_exact_slot n nd nd' v : N !! n = Some nd → pfx nd' = pfx nd → present (exact_leaf nd') = v →
    (∀ y, find_child nd' y = find_child nd y) →
    slot_set r0 N (SlotExact n) v r0 (<[n := nd']> N).

Lemma slot_at_edge r0 N B sl q x v r : slot_at r0 N B sl q x v → v = Some r → edges r0 N B q x r.
Proof.
  intros [|n p nd b Hp Hn|n p nd Hp Hn] E.
  - apply present_Some in E as [-> ?]. by apply edge_root.
  - by eapply edge_child.
  - apply present_Some in E as [<- ?]. by apply (edge_exact _ _ _ n).
Qed.

(** The paths of a node's slots. *)
Definition slot_path (β q : path) (x : bool) : Prop := if x then q = β else ∃ b, q = β ++ [b].

Lemma node_edges_slot_path β nd q x r : node_edges β nd q x r → slot_path β q x.
Proof. intros [(-> & b & _ & ->)|(-> & _ & _ & ->)]; cbn; eauto. Qed.

Lemma slot_path_prefix p p' q x : slot_path (p ++ p') q x →
  p `prefix_of` q ∧ length q = length p + length p' + Nat.b2n (negb x).
Proof.
  destruct x; cbn; [intros ->|intros [b ->]; rewrite <- (assoc_L (++))]; rewrite !length_app; cbn;
    (split; [by eexists|lia]).
Qed.

(** Slots with one path and kind are one slot. *)
Lemma slot_not_elsewhere r0 N B key n p nd n' p' nd' q x :
  edges_ok r0 N B key → n' ≠ n → B !! n = Some p → N !! n = Some nd →
  B !! n' = Some p' → N !! n' = Some nd' →
  slot_path (p ++ pfx nd) q x → slot_path (p' ++ pfx nd') q x → False.
Proof.
  intros Hok Hne Hp Hn Hp' Hn' [K L]%slot_path_prefix [K' L']%slot_path_prefix.
  destruct (nodes_on_chain _ _ _ _ Hok q n n' p p' Hp Hp' K K') as [Heq Hlt].
  destruct (nodes_on_chain _ _ _ _ Hok q n' n p' p Hp' Hp K' K) as [_ Hlt'].
  destruct (lt_eq_lt_dec (length p) (length p')) as [[G|G]|G].
  - destruct (Hlt G) as (a & d & b & n2 & X1 & X2 & X3 & X4%prefix_length). simplify_eq.
    rewrite !length_app in X4. cbn in X4. destruct x; cbn in *; lia.
  - by apply Hne, eq_sym, Heq.
  - destruct (Hlt' G) as (a & d & b & n2 & X1 & X2 & X3 & X4%prefix_length). simplify_eq.
    rewrite !length_app in X4. cbn in X4. destruct x; cbn in *; lia.
Qed.

Lemma slot_set_pfx r0 N sl v r0' N' n nd' : slot_set r0 N sl v r0' N' → N' !! n = Some nd' →
  ∃ nd, N !! n = Some nd ∧ pfx nd' = pfx nd.
Proof.
  intros [r v' ->|a nd nd0 b v' Ha Hp _ _|a nd nd0 v' Ha Hp _ _]; [by eauto|..];
    intros [[<- <-]|[_ ?]]%lookup_insert_Some; eauto.
Qed.

Lemma slot_path_not_root β : ¬ slot_path β [] false.
Proof. intros [b E]. by destruct β. Qed.

(** Taking a node's edges out, after a store to a slot. *)
Lemma edges_delete r0 N B key sl v r0' N' n p nd q x r :
  edges_ok r0 N B key → slot_set r0 N sl v r0' N' → B !! n = Some p → N' !! n = Some nd →
  edges r0' N' (delete n B) q x r ↔ edges r0' N' B q x r ∧ ¬ node_edges (p ++ pfx nd) nd q x r.
Proof.
  intros Hok Hset Hp Hn. rewrite (edges_split r0' N' B n p nd) by done.
  assert (edges r0' N' (delete n B) q x r → ¬ node_edges (p ++ pfx nd) nd q x r); [|tauto].
  intros E E'%node_edges_slot_path. destruct (slot_set_pfx _ _ _ _ _ _ _ _ Hset Hn) as (nd0 & Hn0 & E0).
  destruct E as [(-> & -> & _)|(n' & p' & nd' & [Hne Hp']%lookup_delete_Some & Hn' & E)].
  - by apply slot_path_not_root in E'.
  - apply node_edges_slot_path in E. destruct (slot_set_pfx _ _ _ _ _ _ _ _ Hset Hn') as (nd1 & Hn1 & E1).
    rewrite E0 in E'. rewrite E1 in E. by eapply (slot_not_elsewhere r0 N B key n p nd0 n' p' nd1).
Qed.

(** Moving part of a node's prefix into its start path. *)
Lemma edges_rebase r0 N B n p p' nd nd' q x r :
  B !! n = Some p → N !! n = Some nd → p' ++ pfx nd' = p ++ pfx nd →
  exact_leaf nd' = exact_leaf nd → (∀ y, find_child nd' y = find_child nd y) →
  edges r0 (<[n := nd']> N) (<[n := p']> B) q x r ↔ edges r0 N B q x r.
Proof.
  intros Hp Hn Eb Ex Ec. rewrite edges_insert, (edges_split r0 N B n p nd) by done.
  rewrite Eb. unfold node_edges. rewrite Ex. by setoid_rewrite Ec.
Qed.

(** One more node. *)
Lemma edges_add r0 N B n p nd q x r :
  B !! n = None → N !! n = Some nd →
  edges r0 N (<[n := p]> B) q x r ↔ edges r0 N B q x r ∨ node_edges (p ++ pfx nd) nd q x r.
Proof.
  intros Hp Hn. rewrite (edges_split r0 N (<[n := p]> B) n p nd) by (done || apply lookup_insert_eq).
  by rewrite delete_insert_id.
Qed.

Lemma edges_put r0 N B key n p nd nd' q0 (x0 : bool) v q x r :
  edges_ok r0 N B key → B !! n = Some p → N !! n = Some nd → pfx nd' = pfx nd →
  slot_path (p ++ pfx nd) q0 x0 →
  (node_edges (p ++ pfx nd) nd' q x r ↔
   (node_edges (p ++ pfx nd) nd q x r ∧ ¬ (q = q0 ∧ x = x0)) ∨ (q = q0 ∧ x = x0 ∧ v = Some r)) →
  edges r0 (<[n := nd']> N) B q x r ↔
  (edges r0 N B q x r ∧ ¬ (q = q0 ∧ x = x0)) ∨ (q = q0 ∧ x = x0 ∧ v = Some r).
Proof.
  intros Hok Hp Hn Hpfx Hq0 E.
  rewrite (edges_split _ _ _ n p nd') by (done || apply lookup_insert_eq).
  rewrite (edges_split r0 N B n p nd q x r) by done. rewrite Hpfx, E.
  rewrite (edges_ext r0 N (<[n:=nd']> N)).
  2: { intros n' [p' [? ?]%lookup_delete_Some]. by rewrite lookup_insert_ne. }
  assert (edges r0 N (delete n B) q x r → ¬ (q = q0 ∧ x = x0)); [|tauto].
  intros [(-> & -> & _)|(n' & p' & m' & [Hne Hp']%lookup_delete_Some & Hn' & E'%node_edges_slot_path)] [<- <-].
  - by apply slot_path_not_root in Hq0.
  - by eapply (slot_not_elsewhere r0 N B key n p nd n').
Qed.

Lemma slot_set_edges r0 N B key sl q0 x0 v0 v r0' N' q x r :
  edges_ok r0 N B key → slot_at r0 N B sl q0 x0 v0 → slot_set r0 N sl v r0' N' →
  edges r0' N' B q x r ↔
  (edges r0 N B q x r ∧ ¬ (q = q0 ∧ x = x0)) ∨ (q = q0 ∧ x = x0 ∧ v = Some r).
Proof.
  intros Hok Hat Hset. destruct Hset as [r1 v ->|n nd nd' b v Hn Hpfx Hx Hc|n nd nd' v Hn Hpfx <- Hc];
    inversion Hat as [|? p nd0 ? Hp Hn0|? p nd0 Hp Hn0]; simplify_eq.
  - unfold edges. rewrite present_Some. split.
    + intros [(-> & -> & -> & ?)|E].
      * right. done.
      * left. split; [by right|]. intros [-> ->]. destruct E as (n & p & nd & _ & _ & E).
        apply node_edges_child in E as (b & _ & E). by destruct (p ++ pfx nd).
    + intros [[[(-> & -> & _)|E] Hne]|(-> & -> & -> & ?)]; [by destruct Hne|by right|by left].
  - eapply edges_put; [done..|cbn; exists b; by rewrite (assoc_L (++))|]. unfold node_edges. rewrite Hx. split.
    + intros [(-> & b' & Hb & ->)|E]; [|naive_solver]. rewrite Hc in Hb.
      destruct (decide (b' = b)) as [->|Hne].
      * right. by rewrite (assoc_L (++)).
      * left. split; [eauto|]. intros [E _]. rewrite (assoc_L (++)) in E. by apply app_inj_tail in E as [_ ?].
    + intros [[[(-> & b' & Hb & ->)|E] Hne]|(-> & -> & ->)]; [|naive_solver|].
      * left. split; [done|]. exists b'. rewrite Hc, decide_False; [done|]. intros ->. apply Hne.
        by rewrite (assoc_L (++)).
      * left. split; [done|]. exists b. by rewrite Hc, decide_True, (assoc_L (++)).
  - eapply edges_put; [done..|]. unfold node_edges. setoid_rewrite Hc. rewrite present_Some. naive_solver.
Qed.

(** ** Rebuilding the invariant *)

Section update.
Context (r0 r0' : raw) (N N' : gmap loc (node raw)) (B B' : gmap loc path) (key key' : loc → option path).
Context (G A : path → bool → raw → Prop).
Context (Hok : edges_ok r0 N B key).
Context (HE : ∀ q x r, edges r0' N' B' q x r ↔ (edges r0 N B q x r ∧ ¬ G q x r) ∨ A q x r).
Context (Hleaf : ∀ q x l, edges r0 N B q x (LeafAt l) → ¬ G q x (LeafAt l) → key' l = key l).
Context (HAleaf : ∀ q x l, A q x (LeafAt l) → ∃ k, key' l = Some k ∧ fits q x k).

Lemma update_edges_ok :
  (∀ q x n, A q x (NodeAt n) → x = false ∧ B' !! n = Some q) →
  (∀ n q, B !! n = Some q → ¬ G q false (NodeAt n) → B' !! n = Some q) →
  (∀ n q, B' !! n = Some q → is_Some (N' !! n) ∧
     (A q false (NodeAt n) ∨ (B !! n = Some q ∧ ¬ G q false (NodeAt n)))) →
  edges_ok r0' N' B' key'.
Proof using Hok HE Hleaf HAleaf.
  intros HA Hkeep HB'. split.
  - intros q x n [[E NG]|E]%HE; [|by apply HA].
    destruct (eo_node _ _ _ _ Hok _ _ _ E) as [-> Hn]. split; [done|]. by apply Hkeep.
  - intros q x l [[E NG]|E]%HE; [|by apply HAleaf].
    rewrite (Hleaf q x) by done. by apply (eo_leaf _ _ _ _ Hok).
  - intros n q Hn. apply HE. destruct (HB' n q Hn) as (_ & [?|[Hq NG]]); [by right|].
    left. split; [|done]. by apply (eo_linked _ _ _ _ Hok).
  - intros n q Hn. by apply (HB' n q).
Qed.

Lemma update_map_ok (m m' : gmap path loc) :
  (∀ k l, m !! k = Some l ↔ key l = Some k ∧ ∃ q x, edges r0 N B q x (LeafAt l)) →
  (∀ k l, m' !! k = Some l ↔
     (key' l = Some k ∧ ∃ q x, A q x (LeafAt l)) ∨
     (m !! k = Some l ∧ ∀ q x, edges r0 N B q x (LeafAt l) → ¬ G q x (LeafAt l))) →
  ∀ k l, m' !! k = Some l ↔ key' l = Some k ∧ ∃ q x, edges r0' N' B' q x (LeafAt l).
Proof using Hok HE Hleaf.
  intros HM HM' k l. rewrite HM'. split.
  - intros [(Hk & q & x & E)|(Hm & NG)].
    + split; [done|]. exists q, x. apply HE. by right.
    + apply HM in Hm as (Hk & q & x & E). pose proof (NG q x E) as NGq.
      rewrite (Hleaf q x) by done. split; [done|]. exists q, x. apply HE. by left.
  - intros (Hk & q & x & [[E NG]|E]%HE); [right|left; eauto].
    rewrite (Hleaf q x) in Hk by done. split; [apply HM; eauto|].
    intros q' x' E'. by destruct (leaf_edge_unique _ _ _ _ Hok _ _ _ _ _ _ k E E' Hk Hk) as (<- & <- & _).
Qed.
End update.
End commit.
