(* ===== verification/Write.v ===== *)
(** * Inserts ([src/raw/write.rs])

    [insert_with] and everything below it: the write of an empty tree, of a
    root leaf, the prefix split, the exact leaf, growth, the plain insert, the
    replaced leaf and the leaf split, and the chain of nodes that holds two
    leaves. A [Result] whose error is [Full] is an option here. The state of
    the retry loop is the backoff and the pool; the state of the descent is
    the parent, the node at hand and its depth. Each branch ends the descent:
    with [Continue] (retry from the root) or [Break] (return). *)

From S2P Require Import Prelude Bytes Latch Slot Bits Node Free Mem Raw Read.
Local Open Scope Z_scope.

(** How an insert treats an existing key. *)
Inductive Mode := Replace | InsertIfAbsent.

#[export] Instance mode_eq_dec : EqDecision Mode.
Proof. solve_decision. Defined.

(** The result of an insert. *)
Inductive Outcome := Inserted (l : loc) | Replaced (l : loc) | Existing (l : loc).

(** Where an insert published its leaf. *)
Record Hint := { hint_node : raw; hint_version : Z; hint_depth : nat }.

Section write.
Context {L : Type} `{LeafNode L}.
Abbreviation prog := (prog L).

Definition retry_state : Type := SpinBackoff * Prepared.
Definition insert_result : Type := option Outcome * Prepared * option Hint.
Definition verdict : Type := flow retry_state insert_result.

(** ** Chains *)

(** The segments of 16 prefix bytes plus one branch byte above the bottom
    node, and the rest. *)
Fixpoint chain_segments (fuel : nat) (rest : list byte) : list (list byte * byte) * list byte :=
  match fuel with
  | O => ([], rest)
  | S fuel =>
    if decide (MAX_PREFIX_LEN < length rest)%nat then
      let '(segments, last) := chain_segments fuel (drop (MAX_PREFIX_LEN + 1) rest) in
      ((take MAX_PREFIX_LEN rest, rest !!! MAX_PREFIX_LEN) :: segments, last)
    else ([], rest)
  end.

(** The segments above the bottom node, from the innermost out. *)
Fixpoint build_links (prep : Prepared) (segments : list (list byte * byte)) (below : raw)
    : prog (option raw * Prepared) :=
  match segments with
  | [] => mret (Some below, prep)
  | (seg_prefix, byte) :: segments =>
    '(n, prep) ← prep_node prep Node4;
    match n with
    | None => mret (None, prep)
    | Some n =>
      _ ← init_prefix n seg_prefix;
      _ ← push_child_unpublished n byte below;
      build_links prep segments (NodeAt n)
    end
  end.

(** The entry of one leaf in the bottom node. *)
Definition place_leaf (n : loc) (common : nat) (entry : list byte * raw) : prog unit :=
  match entry.1 !! common with
  | None => init_exact_leaf n entry.2
  | Some byte => push_child_unpublished n byte entry.2
  end.

(** The chain's top and its bottom. *)
Definition build_chain (prep : Prepared) (prefix : list byte) (a b : list byte * raw) (common : nat)
    : prog (option (raw * raw) * Prepared) :=
  _ ← debug_assert (bool_decide (length prefix = common));
  let '(segments, rest) := chain_segments (length prefix) prefix in
  '(bottom, prep) ← prep_node prep Node4;
  match bottom with
  | None => mret (None, prep)
  | Some bottom =>
    _ ← init_prefix bottom rest;
    _ ← place_leaf bottom common a;
    _ ← place_leaf bottom common b;
    '(top, prep) ← build_links prep (rev segments) (NodeAt bottom);
    mret (match top with Some top => Some (top, NodeAt bottom) | None => None end, prep)
  end.

(** ** The branches of [insert_with] *)

Section insert.
Context (new_ptr : loc) (key : list byte) (mode : Mode) (count : Z) (hint : option Hint).
Abbreviation new_leaf := (LeafAt new_ptr).

Definition retry (b : SpinBackoff) (p : Prepared) : prog verdict := mret (Continue (b, p)).
Definition retry_spin (b : SpinBackoff) (p : Prepared) : prog verdict := mret (Continue ((spin b).2, p)).
Definition finish (o : Outcome) (p : Prepared) (h : option Hint) : prog verdict :=
  mret (Break (Some o, p, h)).
Definition full (p : Prepared) : prog verdict := mret (Break (None, p, hint)).

(** Empty tree: publish the first leaf under [root_latch]. *)
Definition insert_first (b : SpinBackoff) (p : Prepared) : prog verdict :=
  w ← root_lock;
  r ← root;
  if negb (is_null r) then _ ← root_drop w; retry b p
  else
    _ ← len_add count;
    _ ← owner_disarm new_ptr;
    _ ← set_root new_leaf;
    _ ← root_drop w;
    finish (Inserted new_ptr) p hint.

(** The root is the single leaf [old]. *)
Definition insert_root_leaf (b : SpinBackoff) (p : Prepared) (r0 : raw) : prog verdict :=
  old ← leaf_ref r0;
  ekey ← leaf_key old;
  if decide (ekey = key) then
    if decide (mode = InsertIfAbsent) then finish (Existing old) p hint
    else
      w ← root_lock;
      r ← root;
      if negb (bool_decide (r = r0)) then _ ← root_drop w; retry b p
      else
        _ ← owner_disarm new_ptr;
        _ ← set_root new_leaf;
        _ ← leaf_mark_removed old;
        _ ← root_drop w;
        _ ← trigger (RetireLeaf old);
        finish (Replaced old) p hint
  else
    let common := common_prefix ekey key in
    '(chain, p) ← build_chain p (take common key) (ekey, r0) (key, new_leaf) common;
    match chain with
    | None => full p
    | Some (chain, _) =>
      w ← root_lock;
      r ← root;
      if negb (bool_decide (r = r0)) then _ ← root_drop w; retry_spin b p
      else
        _ ← len_add count;
        _ ← owner_disarm new_ptr;
        _ ← set_root chain;
        _ ← root_drop w;
        finish (Inserted new_ptr) (prep_commit p) hint
    end.

(** Prefix split, at [matched] bytes of the prefix of [node]. *)
Definition insert_split (b : SpinBackoff) (p : Prepared) (parent : Parent) (node : loc) (v : Z)
    (depth : nat) (prefix : PrefixSnapshot) (matched : nat) : prog verdict :=
  ok ← node_validate node v;
  if negb ok then retry b p
  else
    '(split, p) ← prep_node p Node4;
    match split with
    | None => full p
    | Some split =>
      _ ← init_prefix split (take matched (as_slice prefix));
      byte ← expect (ps_bytes prefix !! matched);
      _ ← push_child_unpublished split byte (NodeAt node);
      _ ← (if decide (depth + matched = length key)%nat then init_exact_leaf split new_leaf
           else byte ← expect (key !! (depth + matched)%nat);
                push_child_unpublished split byte new_leaf);
      pg ← lock_parent parent (NodeAt node);
      match pg with
      | None => retry_spin b p
      | Some pg =>
        nw ← node_try_upgrade node v;
        match nw with
        | None => _ ← pg_drop pg; retry_spin b p
        | Some nw =>
          _ ← store_prefix node (drop (matched + 1) (as_slice prefix));
          _ ← len_add count;
          _ ← owner_disarm new_ptr;
          _ ← publish_in_parent pg (NodeAt split);
          _ ← node_drop node nw;
          _ ← pg_drop pg;
          finish (Inserted new_ptr) (prep_commit p)
            (Some {| hint_node := NodeAt split; hint_version := 0; hint_depth := (depth + matched)%nat |})
        end
      end
    end.

(** The exact-leaf home: the key ends at [node]. *)
Definition insert_exact (b : SpinBackoff) (p : Prepared) (node : loc) (v : Z) : prog verdict :=
  exact ← trigger (NodeRead node exact_leaf);
  ok ← node_validate node v;
  if negb ok then retry b p
  else if negb (is_null exact) then
    old ← leaf_ref exact;
    if decide (mode = InsertIfAbsent) then finish (Existing old) p hint
    else
      nw ← node_try_upgrade node v;
      match nw with
      | None => retry_spin b p
      | Some nw =>
        _ ← owner_disarm new_ptr;
        _ ← node_set_exact_leaf node new_leaf;
        _ ← leaf_mark_removed old;
        _ ← node_drop node nw;
        _ ← trigger (RetireLeaf old);
        finish (Replaced old) p hint
      end
  else
    nw ← node_try_upgrade node v;
    match nw with
    | None => retry_spin b p
    | Some nw =>
      _ ← len_add count;
      _ ← owner_disarm new_ptr;
      _ ← node_set_exact_leaf node new_leaf;
      _ ← node_drop node nw;
      finish (Inserted new_ptr) p hint
    end.

(** Grow: build the larger node, publish it in the parent and obsolete this one. *)
Definition insert_grow (b : SpinBackoff) (p : Prepared) (parent : Parent) (node : loc) (v : Z)
    (node_depth : nat) (byte : byte) : prog verdict :=
  ty ← trigger (NodeRead node node_type);
  grown_ty ← expect (grown ty);
  '(grown, p) ← prep_node p grown_ty;
  match grown with
  | None => full p
  | Some grown =>
    pg ← lock_parent parent (NodeAt node);
    match pg with
    | None => retry_spin b p
    | Some pg =>
      nw ← node_try_upgrade node v;
      match nw with
      | None => _ ← pg_drop pg; retry_spin b p
      | Some nw =>
        _ ← node_copy_into node grown;
        _ ← push_child_unpublished grown byte new_leaf;
        _ ← len_add count;
        _ ← owner_disarm new_ptr;
        _ ← publish_in_parent pg (NodeAt grown);
        _ ← node_mark_obsolete node nw;
        _ ← pg_drop pg;
        _ ← trigger (RetireNode node);
        finish (Inserted new_ptr) (prep_commit p)
          (Some {| hint_node := NodeAt grown; hint_version := 0; hint_depth := node_depth |})
      end
    end
  end.

(** Room in the node: lock only this node. *)
Definition insert_room (b : SpinBackoff) (p : Prepared) (node : loc) (v : Z)
    (node_depth : nat) (byte : byte) : prog verdict :=
  nw ← node_try_upgrade node v;
  match nw with
  | None => retry_spin b p
  | Some nw =>
    _ ← len_add count;
    _ ← owner_disarm new_ptr;
    _ ← node_insert_child node byte new_leaf;
    version ← node_unlock node nw;
    finish (Inserted new_ptr) p
      (Some {| hint_node := NodeAt node; hint_version := version; hint_depth := node_depth |})
  end.

(** The slot holds a leaf: replace it, or split it if its key differs. *)
Definition insert_at_leaf (b : SpinBackoff) (p : Prepared) (node : loc) (v : Z)
    (node_depth : nat) (byte : byte) (c : raw) : prog verdict :=
  old ← leaf_ref c;
  ekey ← leaf_key old;
  if decide (ekey = key) then
    if decide (mode = InsertIfAbsent) then finish (Existing old) p hint
    else
      nw ← node_try_upgrade node v;
      match nw with
      | None => retry_spin b p
      | Some nw =>
        _ ← owner_disarm new_ptr;
        _ ← node_replace_child node byte new_leaf;
        _ ← leaf_mark_removed old;
        _ ← node_drop node nw;
        _ ← trigger (RetireLeaf old);
        finish (Replaced old) p hint
      end
  else
    let from := (node_depth + 1)%nat in
    let es := key_from ekey from in
    let ns := drop from key in
    let common := common_prefix es ns in
    '(chain, p) ← build_chain p (take common ns) (es, c) (ns, new_leaf) common;
    match chain with
    | None => full p
    | Some (chain, bottom) =>
      nw ← node_try_upgrade node v;
      match nw with
      | None => retry_spin b p
      | Some nw =>
        _ ← len_add count;
        _ ← owner_disarm new_ptr;
        _ ← node_replace_child node byte chain;
        _ ← node_drop node nw;
        finish (Inserted new_ptr) (prep_commit p)
          (Some {| hint_node := bottom; hint_version := 0; hint_depth := (from + common)%nat |})
      end
    end.

(** One turn of the descent. *)
Definition insert_turn (b : SpinBackoff) (p : Prepared) (cursor : Parent * raw * nat)
    : prog (flow (Parent * raw * nat) verdict) :=
  let '(parent, node_raw, depth) := cursor in
  node ← node_ref node_raw;
  v ← node_read_version node;
  match v with
  | None => r ← retry_spin b p; mret (Break r)
  | Some v =>
    linked ← still_parent parent node_raw;
    if negb linked then r ← retry b p; mret (Break r)
    else
      prefix ← trigger (NodeRead node load_prefix);
      let rest := key_from key depth in
      let matched := if is_prefix_of prefix rest then ps_len prefix
                     else common_prefix (as_slice prefix) rest in
      if decide (matched < ps_len prefix)%nat then
        r ← insert_split b p parent node v depth prefix matched; mret (Break r)
      else
        let node_depth := (depth + ps_len prefix)%nat in
        if decide (node_depth = length key) then r ← insert_exact b p node v; mret (Break r)
        else
          byte ← expect (key !! node_depth);
          child ← trigger (NodeRead node (λ nd, find_child nd byte));
          match child with
          | Some (NodeAt _ as c) => mret (Continue (ParentNode node_raw v byte, c, S node_depth))
          | _ =>
            is_full ← trigger (NodeRead node is_full);
            ok ← node_validate node v;
            if negb ok then r ← retry b p; mret (Break r)
            else
              r ← match child with
                  | None => if is_full : bool then insert_grow b p parent node v node_depth byte
                            else insert_room b p node v node_depth byte
                  | Some c => insert_at_leaf b p node v node_depth byte c
                  end;
              mret (Break r)
          end
  end.

(** One attempt, from the root. *)
Definition insert_attempt (st : retry_state) : prog verdict :=
  let '(b, p) := st in
  let p := prep_reset p in
  r0 ← root;
  match r0 with
  | Null => insert_first b p
  | LeafAt _ => insert_root_leaf b p r0
  | NodeAt _ => loop (S (length key)) (insert_turn b p) (ParentRoot, r0, 0%nat)
  end.

Definition insert_with (retries : nat) (prep : Prepared) : prog insert_result :=
  _ ← owner_ptr new_ptr;
  loop retries insert_attempt (backoff_new, prep).
End insert.

(** [insert_hinted]: whatever the pool still owns at the end is released. *)
Definition insert_hinted (retries : nat) (owner : loc) (key : list byte) (mode : Mode) (count : Z)
    (hint : option Hint) : prog (option Outcome * option Hint) :=
  '(r, prep, hint) ← insert_with owner key mode count hint retries prep_new;
  _ ← prep_release prep;
  mret (r, hint).

Definition insert (retries : nat) (owner : loc) (key : list byte) (mode : Mode) (count : Z)
    : prog (option Outcome) :=
  '(r, _) ← insert_hinted retries owner key mode count None; mret r.

(** The inserters' fast path; the updated hint, and [None] for "use the full
    insert". *)
Definition insert_at_hint (h : Hint) (owner : loc) (key : list byte) (count : Z)
    : prog (option Outcome * Hint) :=
  match key !! hint_depth h with
  | None => mret (None, h)
  | Some byte =>
    node ← node_ref (hint_node h);
    w ← node_try_upgrade node (hint_version h);
    match w with
    | None => mret (None, h)
    | Some w =>
      let unlocked v := {| hint_node := hint_node h; hint_version := v; hint_depth := hint_depth h |} in
      occupied ← trigger (NodeRead node (λ nd, bool_decide (is_Some (find_child nd byte))));
      is_full ← (if occupied : bool then mret true else trigger (NodeRead node is_full));
      if is_full : bool then
        v ← node_unlock node w; mret (None, unlocked v)
      else
        new_ptr ← owner_ptr owner;
        _ ← len_add count;
        _ ← owner_disarm new_ptr;
        _ ← node_insert_child node byte (LeafAt new_ptr);
        v ← node_unlock node w;
        mret (Some (Inserted new_ptr), unlocked v)
    end
  end.
End write.
