(* ===== verification/Budget.v ===== *)
(** * How many nodes an insert allocates

    [allocs fail T left p Q] says that [p], whatever the memory answers to its
    accesses, and so however other threads interfere and however often [p]
    retries, never allocates more nodes of a type than [left] allows. [T] keeps
    the types of the nodes that [p] has allocated: types do not change. With
    [fail] an allocation may be refused. [insert_allocs]: an insert of a key of
    [n] bytes takes at most [n / 17 + 1] nodes of the smallest layout and one
    of each other. *)

From S2P Require Import Prelude Bytes Latch Slot Bits Node Free Mem Raw Read Write.
Local Open Scope nat_scope.

Section budget.
Context {L : Type}.
Abbreviation prog := (prog L).
Abbreviation types := (gmap loc NodeType).
Abbreviation allowance := (NodeType → nat).
Implicit Types (T : types) (left : allowance).

Definition spend (ty : NodeType) left : allowance := λ ty', if decide (ty' = ty) then pred (left ty') else left ty'.

(** ** The predicate *)

(** What an access needs and gives. *)
Definition op_allocs (fail : bool) {X} (o : op L X) T left : (types → allowance → X → Prop) → Prop :=
  match o in op _ X return (types → allowance → X → Prop) → Prop with
  | NodeRead n f => λ φ, ∀ nd, (∀ ty, T !! n = Some ty → node_type nd = ty) → φ T left (f nd)
  | NodeWrite n f => λ φ, (∀ nd nd', f nd = Some nd' → node_type nd' = node_type nd) ∧ φ T left tt
  | NodeInit n f => λ φ, (∀ ob ob', f ob = Some ob' → node_type (o_node ob') = node_type (o_node ob)) ∧ φ T left tt
  | AllocNode ty => λ φ, 0 < left ty ∧ (fail = true → φ T left None) ∧ ∀ n, T !! n = None → φ (<[n := ty]> T) (spend ty left) (Some n)
  | FreeNode n => λ φ, φ (delete n T) left tt
  | AllocBytes _ _ => λ _, False
  | _ => λ φ, ∀ x, φ T left x
  end.

Fixpoint allocs (fail : bool) {A} T left (p : prog A) (Q : types → allowance → A → Prop) : Prop :=
  match p with
  | Ret a => Q T left a
  | Vis o k => op_allocs fail o T left (λ T left x, allocs fail T left (k x) Q)
  | Panic | OutOfFuel => True
  end.

Context {fail : bool}.

Lemma op_allocs_mono {X} (o : op L X) T left (φ ψ : types → allowance → X → Prop) :
  (∀ T left x, φ T left x → ψ T left x) → op_allocs fail o T left φ → op_allocs fail o T left ψ.
Proof. intros H. destruct o; cbn; naive_solver. Qed.

Lemma allocs_bind {A B} (p : prog A) (k : A → prog B) T left Q :
  allocs fail T left p (λ T left a, allocs fail T left (k a) Q) → allocs fail T left (p ≫= k) Q.
Proof.
  revert T left. induction p as [a|X o k' IH| |]; intros T left; cbn; [done| |done..].
  apply op_allocs_mono. intros T' left' x. apply IH.
Qed.

Lemma allocs_mono {A} (p : prog A) T left (Q Q' : types → allowance → A → Prop) :
  allocs fail T left p Q → (∀ T left a, Q T left a → Q' T left a) → allocs fail T left p Q'.
Proof.
  intros HP HQ. revert T left HP. induction p as [a|X o k IH| |]; intros T left; cbn; [apply HQ| |done..].
  apply op_allocs_mono. intros T' left' x. apply IH.
Qed.

Lemma allocs_loop {S A} (I : types → allowance → S → Prop) fuel (body : S → prog (flow S A)) T left x Q :
  (∀ T left x, I T left x → allocs fail T left (body x) (λ T left r, match r with Continue x => I T left x | Break a => Q T left a end)) →
  I T left x → allocs fail T left (loop fuel body x) Q.
Proof.
  intros Hb. revert T left x. induction fuel as [|fuel IH]; intros T left x Hx; cbn; [done|].
  apply allocs_bind. eapply allocs_mono; [by apply Hb|]. intros T' left' [x'|a]; [apply IH|done].
Qed.

(** ** Programs that allocate and free nothing *)

Definition op_plain {X} (o : op L X) : (X → Prop) → Prop :=
  match o in op _ X return (X → Prop) → Prop with
  | NodeWrite n f => λ φ, (∀ nd nd', f nd = Some nd' → node_type nd' = node_type nd) ∧ φ tt
  | NodeInit n f => λ φ, (∀ ob ob', f ob = Some ob' → node_type (o_node ob') = node_type (o_node ob)) ∧ φ tt
  | AllocNode _ | FreeNode _ | AllocBytes _ _ => λ _, False
  | _ => λ φ, ∀ x, φ x
  end.

Fixpoint plain {A} (p : prog A) : Prop :=
  match p with
  | Ret _ => True
  | Vis o k => op_plain o (λ x, plain (k x))
  | Panic | OutOfFuel => True
  end.

Lemma plain_bind {A B} (p : prog A) (k : A → prog B) : plain p → (∀ a, plain (k a)) → plain (p ≫= k).
Proof.
  intros Hp Hk. induction p as [a|X o k' IH| |]; cbn in *; [apply Hk| |done..].
  destruct o; cbn in *; naive_solver.
Qed.

Lemma plain_allocs {A} (p : prog A) T left Q : plain p → (∀ a, Q T left a) → allocs fail T left p Q.
Proof.
  intros Hp HQ. induction p as [a|X o k IH| |]; cbn in *; [apply HQ| |done..]. destruct o; cbn in *; naive_solver.
Qed.

(** A step that allocates nothing. *)
Lemma allocs_plain_bind {A B} (p : prog A) (k : A → prog B) T left Q :
  plain p → (∀ a, allocs fail T left (k a) Q) → allocs fail T left (p ≫= k) Q.
Proof. intros Hp HQ. apply allocs_bind. by apply plain_allocs. Qed.

Lemma plain_expect {A} (o : option A) : plain (expect o : prog A).
Proof. by destruct o. Qed.

Lemma plain_loop {S A} fuel (body : S → prog (flow S A)) x : (∀ x, plain (body x)) → plain (loop fuel body x).
Proof.
  intros Hb. revert x. induction fuel as [|fuel IH]; intros x; cbn; [done|]. apply plain_bind; [done|]. by intros [].
Qed.

Lemma plain_init_node n f : (∀ nd nd', f nd = Some nd' → node_type nd' = node_type nd) → plain (init_node n f : prog unit).
Proof.
  intros Hf. split; [|done]. intros ob ob' (nd & E & [= <-])%bind_Some. by apply Hf.
Qed.
End budget.

(** ** Types are kept *)

Section types.
Context {R : Type} `{Slot R}.
Implicit Types (n : node R).

Lemma insert_child_type n b c n' : insert_child_raw n b c = Some n' → node_type n' = node_type n.
Proof.
  unfold insert_child_raw, node_type. destruct (n_body n) as [w ch|ws ch|idx bm ch|bm ch]; [| | |by intros [= <-]].
  - case_decide; [|done]. destruct (arr_insert _ _ _ _ _). by intros [= <-].
  - case_decide; [|done]. destruct (arr_insert _ _ _ _ _). by intros [= <-].
  - case_decide; [|done]. intros (slot & _ & [= <-])%bind_Some. done.
Qed.

Lemma replace_child_type n b c n' : replace_child n b c = Some n' → node_type n' = node_type n.
Proof.
  unfold replace_child, node_type. destruct (n_body n) as [w ch|ws ch|idx bm ch|bm ch]; [| | |by intros [= <-]].
  - intros (i & _ & [= <-])%bind_Some. done.
  - intros (i & _ & [= <-])%bind_Some. done.
  - case_match; [|done]. by intros [= <-].
Qed.

Lemma push_all_type (es : list (byte * R)) n n' : push_all n es = Some n' → node_type n' = node_type n.
Proof.
  revert n. induction es as [|[b c] es IH]; intros n; cbn; [by intros [= <-]|].
  intros (n1 & E1%insert_child_type & E2%IH)%bind_Some. congruence.
Qed.

Lemma copy_into_type n dst n' : copy_into n dst = Some n' → node_type n' = node_type dst.
Proof. unfold copy_into. by intros E%push_all_type. Qed.

Lemma node_new_type ty : node_type (node_new ty : node R) = ty.
Proof. by destruct ty. Qed.
End types.

(** ** The accesses of an insert *)

Section plain.
Context {L : Type} `{LeafNode L}.
Abbreviation prog := (prog L).

Lemma plain_prefix n p : plain (init_prefix n p : prog unit).
Proof. apply plain_init_node. by intros nd nd' [= <-]. Qed.
Lemma plain_exact n r : plain (init_exact_leaf n r : prog unit).
Proof. apply plain_init_node. by intros nd nd' [= <-]. Qed.
Lemma plain_push n b c : plain (push_child_unpublished n b c : prog unit).
Proof. apply plain_init_node. intros nd nd'. apply insert_child_type. Qed.
Lemma plain_copy src dst : plain (node_copy_into src dst : prog unit).
Proof. intros nd. apply plain_init_node. intros d d'. apply copy_into_type. Qed.
Lemma plain_store_prefix n p : plain (store_prefix n p : prog unit).
Proof. split; [by intros nd nd' [= <-]|done]. Qed.
Lemma plain_set_exact n r : plain (node_set_exact_leaf n r : prog unit).
Proof. split; [by intros nd nd' [= <-]|done]. Qed.
Lemma plain_insert_child n b c : plain (node_insert_child n b c : prog unit).
Proof. split; [intros nd nd'; apply insert_child_type|done]. Qed.
Lemma plain_replace_child n b c : plain (node_replace_child n b c : prog unit).
Proof. split; [intros nd nd'; apply replace_child_type|done]. Qed.
Lemma plain_node_ref r : plain (node_ref r : prog loc).
Proof. by destruct r. Qed.
Lemma plain_leaf_ref r : plain (leaf_ref r : prog loc).
Proof. by destruct r. Qed.
Lemma plain_len_add n : plain (len_add n : prog unit).
Proof. unfold len_add. by case_decide. Qed.
Lemma plain_root_lock : plain (root_lock : prog WriteGuard).
Proof. intros x. apply plain_expect. Qed.
Lemma plain_owner_ptr l : plain (owner_ptr l : prog loc).
Proof. by intros []. Qed.
Lemma plain_debug_assert b : plain (debug_assert b : prog unit).
Proof. by destruct b. Qed.
End plain.

Create HintDb plain.
#[export] Hint Resolve plain_prefix plain_exact plain_push plain_copy plain_store_prefix plain_set_exact plain_insert_child
  plain_replace_child plain_node_ref plain_leaf_ref plain_len_add plain_root_lock plain_owner_ptr plain_debug_assert
  plain_expect : plain.

(** A program whose every step allocates nothing. *)
Ltac plain_step :=
  match goal with
  | |- plain (mret _) => exact I
  | |- plain (Ret _) => exact I
  | |- plain (_ ≫= _) => apply plain_bind; [|intros]
  | |- plain _ => solve [auto with plain nocore | intros ?; exact I]
  | |- plain (match ?x with _ => _ end) => destruct x
  end.
Ltac plains := repeat plain_step.

Section parent.
Context {L : Type} `{LeafNode L}.
Abbreviation prog := (prog L).

Lemma plain_pg_drop pg : plain (pg_drop pg : prog unit).
Proof. by destruct pg. Qed.
Lemma plain_lock_parent parent child : plain (lock_parent parent child : prog (option ParentGuard)).
Proof. unfold lock_parent. plains; intros x; plains. Qed.
Lemma plain_publish pg r : plain (publish_in_parent pg r : prog unit).
Proof. unfold publish_in_parent. destruct pg; plains. Qed.
Lemma plain_still_parent parent child : plain (still_parent parent child : prog bool).
Proof. unfold still_parent. plains. Qed.
Lemma plain_place_leaf n common entry : plain (place_leaf n common entry : prog unit).
Proof. unfold place_leaf. plains. Qed.
End parent.
#[export] Hint Resolve plain_pg_drop plain_lock_parent plain_publish plain_still_parent plain_place_leaf : plain.

(** ** The pool *)

Section pool.
Context {L : Type} `{LeafNode L} {fail : bool}.
Abbreviation prog := (prog L).
Abbreviation types := (gmap loc NodeType).
Abbreviation allowance := (NodeType → nat).
Implicit Types (T : types) (left : allowance) (p : Prepared).

Definition pool_entries p : list (loc * bool) := omap id (inline p ++ map Some (spill p)).

Definition of_type T ty (e : loc * bool) : bool := bool_decide (T !! e.1 = Some ty).
Definition used_of_type T ty (e : loc * bool) : bool := bool_decide (T !! e.1 = Some ty) && e.2.

(** How many nodes of a type the pool holds, and how many of them are in use. *)
Definition stock p T ty : nat := length (List.filter (of_type T ty) (pool_entries p)).
Definition in_use p T ty : nat := length (List.filter (used_of_type T ty) (pool_entries p)).

(** The types of the pool's nodes are known, and there are enough: in the pool,
    or allowed. *)
Record enough_nodes (need : allowance) p T left : Prop := {
  en_types e : e ∈ pool_entries p → is_Some (T !! e.1);
  en_enough ty : need ty <= stock p T ty + left ty;
}.

Lemma filter_length_le {A} (f g : A → bool) (l : list A) : (∀ x, x ∈ l → f x = true → g x = true) →
  length (List.filter f l) <= length (List.filter g l).
Proof.
  induction l as [|x l IH]; intros Hfg; cbn; [lia|]. specialize (IH ltac:(intros; apply Hfg; [by right|done])).
  pose proof (Hfg x ltac:(by left)). destruct (f x), (g x); cbn; try lia.
Qed.

Lemma filter_length_ext {A} (f g : A → bool) (l : list A) : (∀ x, x ∈ l → f x = g x) →
  length (List.filter f l) = length (List.filter g l).
Proof.
  intros Hfg. apply Nat.le_antisymm; apply filter_length_le; intros x Hx; by rewrite (Hfg x Hx).
Qed.

(** A new node's type does not change those of the pool. *)
Lemma stock_fresh p T n ty : (∀ e, e ∈ pool_entries p → is_Some (T !! e.1)) → T !! n = None →
  (∀ ty', stock p (<[n := ty]> T) ty' = stock p T ty') ∧ (∀ ty', in_use p (<[n := ty]> T) ty' = in_use p T ty').
Proof.
  intros HT Hn. split; intros ty'; apply filter_length_ext; intros e He; unfold of_type, used_of_type;
    (rewrite lookup_insert_ne; [done|]); intros ->; destruct (HT e He); congruence.
Qed.

Lemma prep_add_pool p n : Permutation (pool_entries (prep_add p n)) ((n, true) :: pool_entries p).
Proof.
  unfold prep_add, pool_entries. destruct (position _ (inline p)) as [i|] eqn:E; cbn [inline spill].
  - apply position_Some in E as (e & Hi & ->%bool_decide_eq_true & _).
    rewrite <- (take_drop_middle _ _ _ Hi) at 2. rewrite insert_take_drop by (by eapply lookup_lt_Some).
    rewrite !omap_app. cbn. by rewrite <- !Permutation_middle, app_comm_cons.
  - rewrite map_app, app_assoc, omap_app. cbn. by rewrite <- Permutation_cons_append.
Qed.

Lemma filter_permutation {A} (f : A → bool) (l l' : list A) : Permutation l l' → length (List.filter f l) = length (List.filter f l').
Proof.
  induction 1 as [|x l l' _ IH|x y l|l l' l'' _ IH1 _ IH2]; cbn; [done| | |congruence].
  - destruct (f x); cbn; congruence.
  - by destruct (f x), (f y).
Qed.

Lemma take_entry_allocs (es : list (option (loc * bool))) ty T left (Q : types → allowance → _ → Prop) :
  (∀ e, e ∈ omap id es → is_Some (T !! e.1)) →
  ((∀ n, Some (n, false) ∈ es → T !! n ≠ Some ty) → Q T left None) →
  (∀ n es1 es2, es = es1 ++ Some (n, false) :: es2 → T !! n = Some ty → Q T left (Some (n, es1 ++ Some (n, true) :: es2))) →
  allocs fail T left (take_entry es ty : prog _) Q.
Proof.
  revert Q. induction es as [|e es IH]; intros Q HT HN HS; cbn [take_entry]; [apply HN; intros n []%elem_of_nil|].
  apply allocs_bind.
  assert (allocs fail T left (match e with Some (n, false) => nt ← trigger (NodeRead n node_type);
      mret (if decide (nt = ty) then Some n else None) | _ => mret None end : prog _)
    (λ T' left' r, T' = T ∧ left' = left ∧ match r with Some n => e = Some (n, false) ∧ T !! n = Some ty
      | None => ∀ n, e = Some (n, false) → T !! n ≠ Some ty end)) as X.
  { destruct e as [[n []]|]; [by split_and!| |by split_and!]. intros nd Hnd. cbn. split_and!; [done..|].
    destruct (HT (n, false)) as [ty' Hty]; [cbn; by left|]. cbn in Hty. rewrite (Hnd ty' Hty).
    destruct (decide (ty' = ty)) as [->|Hne]; [done|]. intros m [= <-]. congruence. }
  eapply allocs_mono; [exact X|]. clear X. intros T' left' [n|] (-> & -> & HR); cbn.
  - destruct HR as [-> Hn]. by apply (HS n [] es).
  - apply allocs_bind, IH.
    + intros x Hx. apply HT. destruct e as [e|]; cbn; [by right|done].
    + intros HN'. apply HN. intros n [E|Hn]%elem_of_cons; [by apply HR|by apply HN'].
    + intros n es1 es2 -> Hn. cbn. by apply (HS n (e :: es1) es2).
Qed.

Lemma filter_update {A} (f : A → bool) (l1 l2 : list A) x y :
  length (List.filter f (l1 ++ y :: l2)) + (if f x then 1 else 0) = length (List.filter f (l1 ++ x :: l2)) + (if f y then 1 else 0).
Proof. rewrite !List.filter_app, !length_app. cbn. destruct (f x), (f y); cbn; lia. Qed.

(** [Prepared::node] takes a node that is not in use, or allocates one. *)
Lemma prep_node_allocs need p ty T left : enough_nodes need p T left → in_use p T ty < need ty →
  allocs fail T left (prep_node p ty : prog _) (λ T' left' r, enough_nodes need r.2 T' left' ∧
    match r.1 with
    | None => fail = true
    | Some n => ∀ ty', in_use r.2 T' ty' <= in_use p T ty' + (if decide (ty' = ty) then 1 else 0)
    end).
Proof.
  intros [HT HE] Hneed. unfold prep_node. apply allocs_bind.
  apply take_entry_allocs; [exact HT| |].
  - intros HN. apply allocs_bind. cbn. split_and!.
    + destruct (left ty) eqn:El; [|lia]. exfalso. pose proof (HE ty) as X. rewrite El in X.
      assert (stock p T ty <= in_use p T ty); [|lia]. apply filter_length_le. intros [n u] Hn E.
      unfold of_type, used_of_type in *. cbn in *. apply bool_decide_eq_true in E. rewrite bool_decide_true by done. cbn.
      destruct u; [done|]. exfalso. apply (HN n); [|done]. apply list_elem_of_omap in Hn as (e & He & [= ->]). done.
    + intros ->. split; [by split|done].
    + intros n Hn. cbn. destruct (stock_fresh p T n ty HT Hn) as [S1 S2]. pose proof (prep_add_pool p n) as HP.
      assert (∀ f, length (List.filter f (pool_entries (prep_add p n))) = (if f (n, true) then 1 else 0) + length (List.filter f (pool_entries p))) as HF.
      { intros f. rewrite (filter_permutation f _ _ HP). cbn. by destruct (f (n, true)). }
      assert (∀ ty', stock (prep_add p n) (<[n := ty]> T) ty' = (if decide (ty' = ty) then 1 else 0) + stock p T ty') as E1.
      { intros ty'. unfold stock at 1. rewrite HF, <- (S1 ty'). unfold stock, of_type at 1. cbn [fst]. rewrite lookup_insert_eq.
        f_equal. case_decide as Ed; [subst|]; case_bool_decide; congruence. }
      split; [split|].
      * intros e. rewrite HP, elem_of_cons. intros [->|He]; cbn; [rewrite lookup_insert_eq; by eexists|].
        destruct (HT e He) as [ty' E]. exists ty'. rewrite lookup_insert_ne; [done|]. intros ->. congruence.
      * intros ty'. rewrite E1. pose proof (HE ty'). unfold spend. case_decide; lia.
      * intros ty'. unfold in_use at 1. rewrite HF, <- (S2 ty'). unfold in_use, used_of_type at 1. cbn [fst snd]. rewrite lookup_insert_eq.
        case_decide as Ed; [subst|]; case_bool_decide; cbn; try lia. congruence.
  - intros n es1 es2 Ees Hn. apply allocs_bind.
    set (es := es1 ++ Some (n, true) :: es2).
    set (p' := {| inline := take (length (inline p)) es; spill := omap id (drop (length (inline p)) es) |}).
    assert (pool_entries p' = omap id es) as E1.
    { unfold p', pool_entries; cbn [inline spill]. rewrite omap_app. rewrite <- (take_drop (length (inline p)) es) at 3. rewrite omap_app. f_equal.
      generalize (omap id (drop (length (inline p)) es)). intros l. induction l as [|x l IH]; cbn; congruence. }
    assert (pool_entries p = omap id es1 ++ (n, false) :: omap id es2) as E2 by (unfold pool_entries; by rewrite Ees, omap_app).
    assert (omap id es = omap id es1 ++ (n, true) :: omap id es2) as E3 by (unfold es; by rewrite omap_app).
    rewrite E3 in E1. change {| inline := _; spill := _ |} with p'. clearbody p'.
    split; [by intros ob ob' [= <-]; cbn; apply node_new_type|]. cbn. split; [split|].
    + intros e. rewrite E1. intros He. apply elem_of_app in He as [He|[->|He]%elem_of_cons].
      * apply HT. rewrite E2. set_solver.
      * cbn. by eexists.
      * apply HT. rewrite E2. set_solver.
    + intros ty'. pose proof (HE ty') as X. unfold stock in *. rewrite E2 in X. rewrite E1.
      pose proof (filter_update (of_type T ty') (omap id es1) (omap id es2) (n, false) (n, true)) as Y.
      change (of_type T ty' (n, true)) with (of_type T ty' (n, false)) in Y. lia.
    + intros ty'. unfold in_use. rewrite E1, E2.
      pose proof (filter_update (used_of_type T ty') (omap id es1) (omap id es2) (n, false) (n, true)) as Y.
      assert (used_of_type T ty' (n, false) = false) as F1 by (unfold used_of_type; by rewrite andb_false_r). rewrite F1 in Y.
      assert (used_of_type T ty' (n, true) = bool_decide (ty' = ty)) as F2.
      { unfold used_of_type. cbn. rewrite Hn, andb_true_r. apply bool_decide_ext. naive_solver. }
      rewrite F2 in Y. revert Y. case_bool_decide; case_decide; (lia || congruence).
Qed.

Lemma prep_reset_enough need p T left : enough_nodes need p T left → enough_nodes need (prep_reset p) T left ∧ ∀ ty, in_use (prep_reset p) T ty = 0.
Proof.
  intros [HT HE]. assert (pool_entries (prep_reset p) = unuse <$> pool_entries p) as E.
  { unfold pool_entries, prep_reset; cbn [inline spill]. rewrite !omap_app, fmap_app. f_equal.
    - induction (inline p) as [|[e|] l IH]; cbn; congruence.
    - induction (spill p) as [|e l IH]; cbn; congruence. }
  split; [split|].
  - intros e. rewrite E. intros (e' & -> & He)%list_elem_of_fmap. by apply (HT e').
  - intros ty. etrans; [apply HE|]. apply Nat.add_le_mono_r. unfold stock. rewrite E.
    generalize (pool_entries p). clear. intros l. induction l as [|e l IH]; [done|]. cbn [List.filter fmap list_fmap].
    change (of_type T ty (unuse e)) with (of_type T ty e). destruct (of_type T ty e); cbn [length]; lia.
  - intros ty. unfold in_use. rewrite E. generalize (pool_entries p). clear. intros l. induction l as [|e l IH]; [done|]. cbn [List.filter fmap list_fmap].
    assert (used_of_type T ty (unuse e) = false) as -> by (unfold used_of_type; apply andb_false_r). done.
Qed.
End pool.

(** ** The insert *)

(** What an insert of a key of [n] bytes may allocate. *)
Definition node_need (n : nat) : NodeType → nat :=
  λ ty, match ty with Node4 => n / (MAX_PREFIX_LEN + 1) + 1 | _ => 1 end.

Section insert.
Context {L : Type} `{LeafNode L} {fail : bool}.
Abbreviation prog := (prog L).
Abbreviation types := (gmap loc NodeType).
Abbreviation allowance := (NodeType → nat).
Implicit Types (T : types) (left : allowance) (p : Prepared).

Lemma chain_segments_length fuel rest : length (chain_segments fuel rest).1 <= length rest / (MAX_PREFIX_LEN + 1).
Proof.
  revert rest. induction fuel as [|fuel IH]; intros rest; cbn [chain_segments fst length]; [lia|]. case_decide as Hd; [|cbn [fst length]; lia].
  specialize (IH (drop (MAX_PREFIX_LEN + 1) rest)). destruct (chain_segments fuel _) as [segments last]. cbn [fst length] in *.
  rewrite length_drop in IH. unfold MAX_PREFIX_LEN in *. change (16 + 1) with 17 in *.
  replace (length rest) with (1 * 17 + (length rest - 17)) by lia. rewrite Nat.div_add_l by lia. lia.
Qed.

Section need.
Context (n : nat).
Abbreviation need := (node_need n).
Abbreviation enough := (enough_nodes need).

(** One more node of the smallest layout. *)
Lemma build_links_allocs segments p below T left : enough p T left → in_use p T Node4 + length segments <= need Node4 →
  allocs fail T left (build_links p segments below : prog _) (λ T left r, enough r.2 T left ∧ (r.1 = None → fail = true)).
Proof.
  revert p below T left. induction segments as [|[pre byte] segments IH]; intros p below T left HE HU; [by split|].
  cbn [build_links length] in *. apply allocs_bind. eapply allocs_mono; [apply prep_node_allocs; [exact HE|lia]|].
  intros T' left' [[l|] p'] [HE' HU']; cbn [fst snd] in *; [|by split].
  specialize (HU' Node4). rewrite decide_True in HU' by done.
  apply allocs_plain_bind; [auto with plain|intros _]. apply allocs_plain_bind; [auto with plain|intros _]. apply IH; [done|lia].
Qed.

Lemma build_chain_allocs p prefix a b common T left : enough p T left → in_use p T Node4 = 0 → length prefix <= n →
  allocs fail T left (build_chain p prefix a b common : prog _) (λ T left r, enough r.2 T left ∧ (r.1 = None → fail = true)).
Proof.
  intros HE HU Hn. unfold build_chain. apply allocs_plain_bind; [auto with plain|intros _].
  pose proof (chain_segments_length (length prefix) prefix) as HS.
  destruct (chain_segments (length prefix) prefix) as [segments rest]. cbn [fst] in HS.
  assert (length prefix / (MAX_PREFIX_LEN + 1) <= n / (MAX_PREFIX_LEN + 1)) as HD by (apply Nat.Div0.div_le_mono; lia).
  apply allocs_bind. eapply allocs_mono; [apply prep_node_allocs; [exact HE|unfold node_need; lia]|].
  intros T' left' [[bottom|] p'] [HE' HU']; cbn [fst snd] in *; [|by split].
  specialize (HU' Node4). rewrite decide_True in HU' by done.
  do 3 (apply allocs_plain_bind; [auto with plain|intros _]). apply allocs_bind.
  eapply allocs_mono; [apply build_links_allocs; [done|rewrite length_rev; unfold node_need in *; lia]|].
  intros T2 left2 [[top|] p2] [HE2 HN]; (split; [exact HE2|]); [done|intros _; by apply HN].
Qed.

(** How a branch may end. *)
Definition ends T left (v : verdict) : Prop :=
  match v with
  | Continue (_, p) => enough p T left
  | Break (o, _, _) => o = None → fail = true
  end.

Abbreviation branch_ok v T left := (allocs fail T left (v : prog verdict) ends).

(** Steps and case distinctions that allocate nothing. *)
Ltac branch :=
  repeat match goal with
    | |- allocs _ _ _ (_ ≫= _) _ => apply allocs_plain_bind; [solve [plains]|intros ?]
    | |- allocs _ _ _ (match ?x with _ => _ end) _ => destruct x
    | |- allocs _ _ _ (retry _ _) _ => done
    | |- allocs _ _ _ (retry_spin _ _) _ => done
    | |- allocs _ _ _ (finish _ _ _) _ => done
    end.

Section key.
Context (new_ptr : loc) (key : list byte) (mode : Mode) (count : Z) (hint : option Hint) (b : SpinBackoff) (p : Prepared).
Context (T : types) (left : allowance) (HE : enough p T left) (HU : ∀ ty, in_use p T ty = 0) (Hn : length key <= n).

Lemma insert_first_allocs : branch_ok (insert_first new_ptr count hint b p) T left.
Proof using HE. unfold insert_first. branch. Qed.

(** After an attempt to build a chain. *)
Lemma chain_allocs {B} prefix e1 e2 common (k : option (raw * raw) * Prepared → prog B) Q :
  length prefix <= n →
  (∀ T left r, enough r.2 T left → (r.1 = None → fail = true) → allocs fail T left (k r) Q) →
  allocs fail T left (r ← build_chain p prefix e1 e2 common; k r) Q.
Proof using HE HU.
  intros HL Hk. apply allocs_bind. eapply allocs_mono; [by apply build_chain_allocs|]. intros T' left' r [H1 H2]. by apply Hk.
Qed.

Lemma insert_root_leaf_allocs r0 : branch_ok (insert_root_leaf new_ptr key mode count hint b p r0) T left.
Proof using HE HU Hn.
  unfold insert_root_leaf. branch. cbv zeta. apply chain_allocs; [rewrite length_take; lia|].
  intros T1 left1 [[[top bottom]|] p'] HE' Hf; cbn [fst snd] in *; [branch|]. cbn. auto.
Qed.

Lemma insert_exact_allocs node v : branch_ok (insert_exact new_ptr mode count hint b p node v) T left.
Proof using HE. unfold insert_exact. branch. Qed.

Lemma insert_room_allocs node v depth byte : branch_ok (insert_room new_ptr count b p node v depth byte) T left.
Proof using HE. unfold insert_room. branch. Qed.

Lemma insert_at_leaf_allocs node v depth byte c : branch_ok (insert_at_leaf new_ptr key mode count hint b p node v depth byte c) T left.
Proof using HE HU Hn.
  unfold insert_at_leaf. branch. cbv zeta. apply chain_allocs; [rewrite length_take, length_drop; lia|].
  intros T1 left1 [[[top bottom]|] p'] HE' Hf; cbn [fst snd] in *; [branch|]. cbn. auto.
Qed.

Lemma insert_split_allocs parent node v depth prefix matched :
  branch_ok (insert_split new_ptr key count hint b p parent node v depth prefix matched) T left.
Proof using HE HU Hn.
  unfold insert_split. branch. apply allocs_bind. eapply allocs_mono; [apply prep_node_allocs; [exact HE|rewrite HU; unfold node_need; lia]|].
  intros T1 left1 [[split|] p'] [HE' Hf]; cbn [fst snd] in *; [|by cbn]. branch.
Qed.

Lemma insert_grow_allocs parent node v depth byte : branch_ok (insert_grow new_ptr count hint b p parent node v depth byte) T left.
Proof using HE HU Hn.
  unfold insert_grow. branch. apply allocs_bind. eapply allocs_mono; [apply prep_node_allocs; [exact HE|rewrite HU]|].
  { destruct a0; unfold node_need; lia. }
  intros T1 left1 [[grown|] p'] [HE' Hf]; cbn [fst snd] in *; [|by cbn]. branch.
Qed.

Lemma insert_turn_allocs cursor :
  allocs fail T left (insert_turn new_ptr key mode count hint b p cursor : prog _)
    (λ T' left' r, match r with Continue _ => T' = T ∧ left' = left | Break v => ends T' left' v end).
Proof using HE HU Hn.
  assert (∀ (v : prog verdict), branch_ok v T left → allocs fail T left (r ← v; mret (Break r : flow (Parent * raw * nat) verdict))
    (λ T' left' r, match r with Continue _ => T' = T ∧ left' = left | Break v => ends T' left' v end)) as HB.
  { intros v Hv. apply allocs_bind. eapply allocs_mono; [exact Hv|]. by intros. }
  unfold insert_turn. destruct cursor as [[parent node_raw] depth].
  apply allocs_plain_bind; [auto with plain|intros node]. apply allocs_plain_bind; [by intros ?|intros [v|]]; [|by apply HB].
  apply allocs_plain_bind; [auto with plain|intros linked]. destruct (negb linked); [by apply HB|].
  apply allocs_plain_bind; [by intros ?|intros prefix]. cbv zeta. case_decide; [by apply HB, insert_split_allocs|].
  case_decide; [by apply HB, insert_exact_allocs|].
  apply allocs_plain_bind; [auto with plain|intros byte]. apply allocs_plain_bind; [by intros ?|intros child].
  assert (allocs fail T left (is_full ← trigger (NodeRead node is_full);
      ok ← node_validate node v;
      if negb ok then r ← retry b p; mret (Break r : flow (Parent * raw * nat) verdict)
      else
        r ← match child with
            | None => if is_full : bool then insert_grow new_ptr count hint b p parent node v (depth + ps_len prefix) byte
                      else insert_room new_ptr count b p node v (depth + ps_len prefix) byte
            | Some c => insert_at_leaf new_ptr key mode count hint b p node v (depth + ps_len prefix) byte c
            end;
        mret (Break r))
    (λ T' left' r, match r with Continue _ => T' = T ∧ left' = left | Break v => ends T' left' v end)) as X.
  { apply allocs_plain_bind; [by intros ?|intros full]. apply allocs_plain_bind; [by intros ?|intros ok].
    destruct (negb ok); [by apply HB|]. apply HB. destruct child; [by apply insert_at_leaf_allocs|].
    destruct full; [by apply insert_grow_allocs|by apply insert_room_allocs]. }
  destruct child as [[| |l]|]; try exact X. done.
Qed.
End key.

Lemma insert_attempt_allocs new_ptr key mode count hint st T left : enough st.2 T left → length key <= n →
  branch_ok (insert_attempt new_ptr key mode count hint st) T left.
Proof.
  intros HE Hn. unfold insert_attempt. destruct st as [b p]. cbn [snd] in HE. destruct (prep_reset_enough need p T left HE) as [HE' HU].
  apply allocs_plain_bind; [by intros ?|intros r0]. destruct r0 as [|l|l].
  - by apply insert_first_allocs.
  - by apply insert_root_leaf_allocs.
  - eapply (allocs_loop (λ T' left' _, T' = T ∧ left' = left)); [|by split].
    intros T' left' c [-> ->]. eapply allocs_mono; [by apply insert_turn_allocs|]. done.
Qed.
End need.

(** An insert takes no more nodes than its key may need, whatever happens
    around it; if no allocation is refused, it succeeds. *)
Lemma insert_allocs retries owner key mode count hint :
  allocs fail ∅ (node_need (length key)) (insert_hinted retries owner key mode count hint : prog _)
    (λ _ _ r, r.1 = None → fail = true).
Proof.
  unfold insert_hinted. apply allocs_bind. unfold insert_with. apply allocs_plain_bind; [auto with plain|intros _].
  eapply (allocs_loop (λ T left (st : retry_state), enough_nodes (node_need (length key)) st.2 T left)).
  - intros T left st HE. eapply allocs_mono; [by apply (insert_attempt_allocs (length key))|].
    intros T' left' [[b p]|[[o p] h]] HV; [done|]. cbn [ends] in HV. apply allocs_bind.
    unfold prep_release. apply allocs_bind.
    assert (∀ (es : list (loc * bool)) T left Q, (∀ T, Q T left tt) → allocs fail T left (for_each es (λ e, trigger (FreeNode e.1)) : prog unit) Q) as HF.
    { intros es. induction es as [|e es IH]; intros T1 left1 Q HQ; cbn; [apply HQ|]. by apply IH. }
    apply HF. intros T1. apply HF. intros T2. cbn. done.
  - split; [|intros ty; lia]. intros e. unfold pool_entries, prep_new. cbn. by intros ?%elem_of_nil.
Qed.
End insert.
