(* ===== verification/Update.v ===== *)
(** * Rebuilding the tree invariant after a commit

    [wf_update] assembles the invariant of the state after a commit from what
    the commit did to the edges, the nodes and the leaves. The leaves change in
    four ways: one more is linked ([leaf_inserted]), one takes another's place
    ([leaf_replaced]), one is unlinked ([leaf_removed]), or they only move. *)

From S2P Require Import Prelude Bytes Latch Slot Bits Node NodeSpec NodeOps Free Mem Shape Raw Read Inv Commit.
Local Open Scope Z_scope.

Section update.
Context {L St : Type} {LN : LeafNode L} {LL : LeafLaws L} {LY : Layout St} {EX : Exempt}.
Implicit Types (s : RawTree L St) (m : gmap path loc) (B : gmap loc path) (P : gset loc).

(** ** Leaves *)

(** What a commit does to the leaves: nothing but disarming an owner, or also
    marking and retiring [old]. *)
Record leaves_kept s s' (l : loc) : Prop := {
  lk_leaves : t_leaves s' = t_leaves s;
  lk_retired : t_retired_leaves s' = t_retired_leaves s;
  lk_owned : t_owned s' = t_owned s ∖ {[l]};
}.

Record leaf_unlinked s s' (old : loc) (x' : L) (owned : gset loc) : Prop := {
  lu_leaf : is_Some (t_leaves s !! old);
  lu_leaves : t_leaves s' = <[old := x']> (t_leaves s);
  lu_removed : is_removed x' = true;
  lu_retired : t_retired_leaves s' = old :: t_retired_leaves s;
  lu_owned : t_owned s' = owned;
}.

Lemma live_key_kept s s' l' : t_leaves s' = t_leaves s → live_key s' l' = live_key s l'.
Proof. unfold live_key. by intros ->. Qed.

Lemma live_key_unlinked s s' old x' owned l' : leaf_unlinked s s' old x' owned →
  live_key s' l' = if decide (l' = old) then None else live_key s l'.
Proof.
  intros [_ E Hr _ _]. unfold live_key. rewrite E. case_decide as D.
  - subst. by rewrite lookup_insert_eq, Hr.
  - by rewrite lookup_insert_ne.
Qed.

Lemma leaf_status_live s m l k : leaf_status s m l → m !! k = Some l → live_key s l = Some k →
  ∃ x, t_leaves s !! l = Some x ∧ is_removed x = false ∧ key_bytes x = k ∧
    l ∉ t_retired_leaves s ∧ l ∉ t_owned s.
Proof.
  intros [x H1 H2 H3 H4 H5|x H1 H2 H3|x H1 H2 H3|H1 H2] Hm (x' & E1 & E2 & E3)%live_key_Some.
  - exists x. simplify_eq. by split_and!.
  - congruence.
  - by destruct (H3 k).
  - congruence.
Qed.

Lemma leaf_status_owned s m l : leaf_status s m l → l ∈ t_owned s →
  ∃ x, t_leaves s !! l = Some x ∧ is_removed x = false ∧ (∀ k, m !! k ≠ Some l) ∧ l ∉ t_retired_leaves s.
Proof. intros [x H1 H2 H3 H4 H5|x H1 H2 H3 H4 H5|x H1 H2 H3 H4 H5|H1 H2 H3 H4] Ho; try done. eauto. Qed.

Lemma leaves_insert s s' m l k :
  (∀ l', leaf_status s m l') → l ∈ t_owned s → live_key s l = Some k → m !! k = None →
  leaves_kept s s' l → ∀ l', leaf_status s' (<[k := l]> m) l'.
Proof.
  intros HS Ho Hk Hm [E1 E2 E3] l'. destruct (decide (l' = l)) as [->|Hne].
  - destruct (leaf_status_owned _ _ _ (HS l) Ho) as (x & H1 & H2 & H3 & H4).
    apply live_key_Some in Hk as (x' & ? & _ & <-). simplify_eq.
    apply leaf_linked with x'; rewrite ?E1, ?E2, ?E3; [done|done|apply lookup_insert_eq|done|set_solver].
  - assert (∀ k', m !! k' ≠ Some l' → (<[k := l]> m : gmap path loc) !! k' ≠ Some l') as X.
    { intros k' Hk' [[-> ?]|[? ?]]%lookup_insert_Some; [congruence|done]. }
    destruct (HS l') as [x H1 H2 H3 H4 H5|x H1 H2 H3 H4 H5|x H1 H2 H3 H4 H5|H1 H2 H3 H4].
    + apply leaf_linked with x; rewrite ?E1, ?E2, ?E3; [done|done| |done|set_solver].
      rewrite lookup_insert_ne; [done|]. intros ->. congruence.
    + apply leaf_retired with x; rewrite ?E1, ?E2, ?E3; [done|done|auto|done|set_solver].
    + apply leaf_owned with x; rewrite ?E1, ?E2, ?E3; [done|done|auto|done|set_solver].
    + apply leaf_free; rewrite ?E1, ?E2, ?E3; [done|auto|done|set_solver].
Qed.

(** Unlinking [old], and disarming the owner of the leaf [new] that takes its
    place, if any. *)
Lemma leaves_unlink s s' m m' old x1 k (new : option loc) :
  (∀ l', leaf_status s m l') → (∀ k l, m !! k = Some l → live_key s l = Some k) → m !! k = Some old →
  leaf_unlinked s s' old x1 (t_owned s ∖ from_option singleton ∅ new) →
  (∀ l, new = Some l → l ∈ t_owned s ∧ live_key s l = Some k) →
  m' = (match new with Some l => <[k := l]> m | None => delete k m end) →
  ∀ l', leaf_status s' m' l'.
Proof.
  intros HS HM Hm [[x Hx] E1 Hx1 E2 E3] Hnew Em l'.
  destruct (leaf_status_live _ _ _ _ (HS old) Hm (HM _ _ Hm)) as (x0 & H1 & H2 & H3 & H4 & H5).
  rewrite Hx in H1. injection H1 as <-. subst k m'.
  set (m' := match new with Some l => <[key_bytes x := l]> m | None => delete (key_bytes x) m end) in *.
  assert (∀ k', m' !! k' = Some l' → (k' = key_bytes x ∧ new = Some l') ∨ (k' ≠ key_bytes x ∧ m !! k' = Some l')) as M1.
  { intros k'. subst m'. destruct new as [l|].
    - intros [[<- <-]|[? ?]]%lookup_insert_Some; auto.
    - intros [? ?]%lookup_delete_Some. auto. }
  destruct (decide (l' = old)) as [->|Hne].
  { apply leaf_retired with x1; rewrite ?E1, ?E2, ?E3.
    - apply lookup_insert_eq.
    - done.
    - intros k' [[_ En]|[Hk Hk']]%M1.
      + destruct (Hnew _ En) as [Ho _]. done.
      + apply HM, live_key_Some in Hk' as (x' & ? & _ & ?). congruence.
    - set_solver.
    - set_solver. }
  destruct (decide (new = Some l')) as [En|Hnl].
  { destruct (Hnew _ En) as [Ho Hk].
    destruct (leaf_status_owned _ _ _ (HS l') Ho) as (x' & G1 & G2 & G3 & G4).
    apply live_key_Some in Hk as (x'' & Ex & _ & Ek). rewrite G1 in Ex. injection Ex as <-.
    apply leaf_linked with x'; rewrite ?E1, ?E2, ?E3.
    - by rewrite lookup_insert_ne.
    - done.
    - subst m'. rewrite Ek, En. apply lookup_insert_eq.
    - set_solver.
    - cbn. set_solver. }
  assert (l' ∉ (from_option singleton ∅ new : gset loc)) as Hns.
  { destruct new as [l|]; cbn; set_solver. }
  assert (∀ k', m !! k' ≠ Some l' → m' !! k' ≠ Some l') as M2.
  { intros k' Hk' [[_ ?]|[_ ?]]%M1; done. }
  destruct (HS l') as [x' G1 G2 G3 G4 G5|x' G1 G2 G3 G4 G5|x' G1 G2 G3 G4 G5|G1 G2 G3 G4].
  - apply leaf_linked with x'; rewrite ?E1, ?E2, ?E3; [by rewrite lookup_insert_ne|done| |set_solver|set_solver].
    assert (key_bytes x' ≠ key_bytes x) by congruence.
    subst m'. destruct new; [by rewrite lookup_insert_ne|by rewrite lookup_delete_ne].
  - apply leaf_retired with x'; rewrite ?E1, ?E2, ?E3; [by rewrite lookup_insert_ne|done|auto|set_solver|set_solver].
  - apply leaf_owned with x'; rewrite ?E1, ?E2, ?E3; [by rewrite lookup_insert_ne|done|auto|set_solver|set_solver].
  - apply leaf_free; rewrite ?E1, ?E2, ?E3; [by rewrite lookup_insert_ne|auto|set_solver|set_solver].
Qed.

(** ** Nodes *)

Lemma node_frame s s' B B' P P' n :
  t_nodes s' !! n = t_nodes s !! n → (is_Some (B' !! n) ↔ is_Some (B !! n)) →
  (n ∈ t_retired_nodes s' ↔ n ∈ t_retired_nodes s) → (n ∈ P' ↔ n ∈ P) →
  node_status s B P n → node_status s' B' P' n.
Proof.
  intros E1 EB ER EP. rewrite <- !not_eq_None_Some in EB.
  assert (B !! n = None → B' !! n = None) as HBn by (destruct (B !! n), (B' !! n); naive_solver).
  intros [ob H1 H2 H3 H4 H5 H6 H7|ob H1 H2 H3 H4 H5|ob H1 H2 H3 H4 H5 H6|H1 H2 H3 H4].
  - apply node_linked with ob; rewrite ?E1, ?ER, ?EP; try done.
    apply not_eq_None_Some, EB. by apply not_eq_None_Some.
  - apply node_retired with ob; rewrite ?E1, ?ER, ?EP; try done. by apply HBn.
  - apply node_pooled with ob; rewrite ?E1, ?ER, ?EP; try done. by apply HBn.
  - apply node_free; rewrite ?E1, ?ER, ?EP; try done. by apply HBn.
Qed.

Lemma leaf_frame s s' m l :
  t_leaves s' = t_leaves s → t_retired_leaves s' = t_retired_leaves s → t_owned s' = t_owned s →
  leaf_status s m l → leaf_status s' m l.
Proof.
  intros E1 E2 E3 [x H1 H2 H3 H4 H5|x H1 H2 H3 H4 H5|x H1 H2 H3 H4 H5|H1 H2 H3 H4].
  - apply leaf_linked with x; by rewrite ?E1, ?E2, ?E3.
  - apply leaf_retired with x; by rewrite ?E1, ?E2, ?E3.
  - apply leaf_owned with x; by rewrite ?E1, ?E2, ?E3.
  - apply leaf_free; by rewrite ?E1, ?E2, ?E3.
Qed.

(** ** Assembly *)

Section wf_update.
Context s s' B B' m m' P P' (G A : path → bool → raw → Prop).
Context (W : wf s B m P).
Context (HE : ∀ q x r, tree_edges s' B' q x r ↔ (tree_edges s B q x r ∧ ¬ G q x r) ∨ A q x r).
Context (HA : ∀ q x n, A q x (NodeAt n) → x = false ∧ B' !! n = Some q).
Context (HAleaf : ∀ q x l, A q x (LeafAt l) → ∃ k, live_key s' l = Some k ∧ fits q x k).
Context (Hkeep : ∀ n q, B !! n = Some q → ¬ G q false (NodeAt n) → B' !! n = Some q).
Context (HB' : ∀ n q, B' !! n = Some q → A q false (NodeAt n) ∨ (B !! n = Some q ∧ ¬ G q false (NodeAt n))).
Context (HN : ∀ n, node_status s' B' P' n).
Context (HL : ∀ l, leaf_status s' m' l).
Context (HR : NoDup (t_retired_nodes s')).
Context (HRl : NoDup (t_retired_leaves s')).
Context (Hq : quiet (t_root_latch s')).
Context (Hst : length (t_len s') = Counter.STRIPES ∧ t_stripe s' = t_stripe s).

Lemma wf_update :
  (∀ q x l, tree_edges s B q x (LeafAt l) → ¬ G q x (LeafAt l) → live_key s' l = live_key s l) →
  (∀ k l, m' !! k = Some l ↔
     (live_key s' l = Some k ∧ ∃ q x, A q x (LeafAt l)) ∨
     (m !! k = Some l ∧ ∀ q x, tree_edges s B q x (LeafAt l) → ¬ G q x (LeafAt l))) →
  wf s' B' m' P'.
Proof using All.
  intros Hlive Hmap. split; [| |done..|].
  - eapply update_edges_ok; [apply W|exact HE|exact Hlive|done|done|done|].
    intros n q Hn. split; [|by apply HB']. destruct (HN n) as [ob H1 H2| | |]; [|congruence..].
    rewrite lookup_nodes_of, H1. by eexists.
  - intros k l. eapply update_map_ok; [apply W|exact HE|exact Hlive|apply W|exact Hmap].
  - destruct Hst as [? ->]. split; [done|apply W].
Qed.

(** One more leaf is linked; others may move. *)
Lemma wf_update_insert l k :
  m' = <[k := l]> m → (∀ l, live_key s' l = live_key s l) → live_key s l = Some k → m !! k = None →
  (∃ q x, A q x (LeafAt l)) →
  (∀ q x l', A q x (LeafAt l') → l' = l ∨ ∃ k', m !! k' = Some l') →
  (∀ l', (∃ q x, A q x (LeafAt l')) ∨
     ∀ q x, tree_edges s B q x (LeafAt l') → ¬ G q x (LeafAt l')) →
  wf s' B' m' P'.
Proof using All.
  intros Em Hlive Hk Hm Hl HAl HGl. apply wf_update; [by intros|]. intros k' l'. rewrite Hlive, Em. split.
  - intros [[<- <-]|[Hne Hk']]%lookup_insert_Some; [left; auto|].
    destruct (proj1 (wf_map _ _ _ _ W k' l') Hk') as (Hkl & q & x & E).
    destruct (HGl l') as [?|NG]; [by left|right]. auto.
  - intros [(Hk' & q & x & E)|(Hk' & _)].
    + destruct (HAl q x l' E) as [->|[k2 Hk2]].
      * assert (k' = k) as -> by congruence. apply lookup_insert_eq.
      * apply (wf_map _ _ _ _ W) in Hk2 as Hk2'. destruct Hk2' as [Hk2' _].
        assert (k2 = k') as -> by congruence. rewrite lookup_insert_ne; [done|]. intros <-. congruence.
    + rewrite lookup_insert_ne; [done|]. intros <-. congruence.
Qed.

(** No leaf is linked or unlinked. *)
Lemma wf_update_move :
  m' = m → (∀ l, live_key s' l = live_key s l) →
  (∀ q x l', A q x (LeafAt l') → ∃ k', m !! k' = Some l') →
  (∀ l', (∃ q x, A q x (LeafAt l')) ∨
     ∀ q x, tree_edges s B q x (LeafAt l') → ¬ G q x (LeafAt l')) →
  wf s' B' m' P'.
Proof using All.
  intros Em Hlive HAl HGl. apply wf_update; [by intros|]. intros k' l'. rewrite Hlive, Em. split.
  - intros Hk'. destruct (proj1 (wf_map _ _ _ _ W k' l') Hk') as (Hkl & q & x & E).
    destruct (HGl l') as [?|NG]; [by left|right]. auto.
  - intros [(Hk' & q & x & E)|(Hk' & _)]; [|done].
    destruct (HAl q x l' E) as [k2 Hk2]. apply (wf_map _ _ _ _ W) in Hk2 as Hk2'.
    destruct Hk2' as [Hk2' _]. congruence.
Qed.

(** The leaf [old] of [k] is unlinked, and [new] may take its place. *)
Lemma wf_update_unlink old k (new : option loc) :
  m' = (match new with Some l => <[k := l]> m | None => delete k m end) →
  (∀ l, live_key s' l = if decide (l = old) then None else live_key s l) → m !! k = Some old →
  (∀ l, new = Some l → l ≠ old ∧ live_key s l = Some k ∧ ∃ q x, A q x (LeafAt l)) →
  (∀ q x, tree_edges s B q x (LeafAt old) → G q x (LeafAt old)) →
  (∀ q x l', A q x (LeafAt l') → new = Some l' ∨ (l' ≠ old ∧ ∃ k', m !! k' = Some l')) →
  (∀ l', l' ≠ old → (∃ q x, A q x (LeafAt l')) ∨
     ∀ q x, tree_edges s B q x (LeafAt l') → ¬ G q x (LeafAt l')) →
  wf s' B' m' P'.
Proof using All.
  intros Em Hlive Hk Hnew Hold HAl HGl.
  destruct (proj1 (wf_map _ _ _ _ W k old) Hk) as (Hko & qo & xo & Eo).
  apply wf_update.
  { intros q x l E NG. rewrite Hlive, decide_False; [done|]. intros ->. by apply NG, Hold. }
  intros k' l'. rewrite Hlive, Em.
  assert (∀ k', m !! k' = Some l' → k' ≠ k → l' ≠ old) as Hne.
  { intros k2 Hk2 Hn ->. apply (wf_map _ _ _ _ W) in Hk2 as [Hk2 _]. congruence. }
  assert ((match new with Some l => <[k:=l]> m | None => delete k m end : gmap path loc) !! k' = Some l' ↔
    (k' = k ∧ new = Some l') ∨ (k' ≠ k ∧ m !! k' = Some l')) as ->.
  { destruct new; [rewrite lookup_insert_Some|rewrite lookup_delete_Some]; naive_solver. }
  split.
  - intros [[-> En]|[Hn Hk']].
    + left. destruct (Hnew _ En) as (? & ? & ?). by rewrite decide_False.
    + specialize (Hne _ Hk' Hn). rewrite decide_False by done.
      destruct (proj1 (wf_map _ _ _ _ W k' l') Hk') as (Hkl & q & x & E).
      destruct (HGl l' Hne) as [?|NG]; [by left|right]. auto.
  - intros [(Hk' & q & x & E)|(Hk' & NG)].
    + case_decide as D; [done|]. destruct (HAl q x l' E) as [En|[_ [k2 Hk2]]].
      * left. destruct (Hnew _ En) as (_ & ? & _). split; [congruence|done].
      * right. apply (wf_map _ _ _ _ W) in Hk2 as Hk2'. destruct Hk2' as [Hk2' _].
        assert (k2 = k') as -> by congruence. split; [|done]. intros ->. congruence.
    + right. split; [|done]. intros ->. assert (l' = old) as -> by congruence.
      by apply (NG qo xo), Hold.
Qed.
End wf_update.
End update.
