(* ===== verification/Pool.v ===== *)
(** * Prepared nodes

    The pool of unpublished nodes never touches the tree: preparing nodes
    keeps the invariant, with the prepared nodes in its pool
    ([prep_node_spec], [wf_same_tree]). *)

From S2P Require Import Prelude Bytes Latch Slot Bits Node NodeSpec NodeOps Free Mem Shape Raw Read Write Inv Commit Update.
Local Open Scope Z_scope.

Section pool.
Context {L St : Type} {LN : LeafNode L} {LL : LeafLaws L} {LY : Layout St} {EX : Exempt}.
Implicit Types (s : RawTree L St) (m : gmap path loc) (B : gmap loc path) (P : gset loc).

(** ** States that differ in unpublished nodes only *)

Record same_tree s s' P : Prop := {
  sm_root : t_root s' = t_root s;
  sm_root_latch : t_root_latch s' = t_root_latch s;
  sm_len : t_len s' = t_len s;
  sm_stripe : t_stripe s' = t_stripe s;
  sm_leaves : t_leaves s' = t_leaves s;
  sm_retired_nodes : t_retired_nodes s' = t_retired_nodes s;
  sm_retired_leaves : t_retired_leaves s' = t_retired_leaves s;
  sm_owned : t_owned s' = t_owned s;
  sm_nodes n : n ∉ P → t_nodes s' !! n = t_nodes s !! n;
}.

Lemma same_tree_refl s P : same_tree s s P.
Proof. done. Qed.

Lemma same_tree_trans s1 s2 s3 P P' :
  P ⊆ P' → same_tree s1 s2 P → same_tree s2 s3 P' → same_tree s1 s3 P'.
Proof.
  intros HP [E1 E2 E3 E4 E5 E6 E7 E8 E9] [F1 F2 F3 F4 F5 F6 F7 F8 F9]. split; try congruence.
  intros n Hn. rewrite F9, E9 by set_solver. done.
Qed.

Lemma same_tree_mono s s' P P' : P ⊆ P' → same_tree s s' P → same_tree s s' P'.
Proof. intros HP [? ? ? ? ? ? ? ? E]. split; try done. intros n Hn. apply E. set_solver. Qed.

Lemma same_tree_put s n ob P : n ∈ P → same_tree s (put_node s n ob) P.
Proof. intros Hn. split; try done. intros n' Hn'. apply lookup_insert_ne. set_solver. Qed.

(** The nodes of a pool. *)
Definition pool_node s B (n : loc) : Prop :=
  B !! n = None ∧ n ∉ t_retired_nodes s ∧
  ∃ ob, t_nodes s !! n = Some ob ∧ node_ok (o_node ob) ∧ o_latch ob = 0.

Lemma wf_pool_node s B m P n : wf s B m P → n ∈ P → pool_node s B n.
Proof.
  intros W Hn. destruct (wf_nodes _ _ _ _ W n) as [|ob|ob|]; try done.
  split_and!; [done..|]. by exists ob.
Qed.

(** The unpublished nodes [X] change, and the pool with them. *)
Lemma wf_same_tree_any s s' B m P P' X :
  wf s B m P → same_tree s s' X → (∀ n, n ∈ X → B !! n = None ∧ node_status s' B P' n) →
  (∀ n, n ∉ X → n ∈ P' ↔ n ∈ P) → wf s' B m P'.
Proof.
  intros W [E1 E2 E3 E4 E5 E6 E7 E8 E9] HX HP.
  assert (∀ n, is_Some (B !! n) → nodes_of s' !! n = nodes_of s !! n) as EN.
  { intros n [p Hp]. rewrite !lookup_nodes_of, E9; [done|]. intros Hn.
    destruct (HX n Hn) as [? _]. congruence. }
  assert (∀ q x r, tree_edges s' B q x r ↔ tree_edges s B q x r) as EE.
  { intros q x r. unfold tree_edges. rewrite E1. by apply edges_ext. }
  assert (∀ l, live_key s' l = live_key s l) as EK by (intros l; by apply live_key_kept).
  destruct W as [W1 W2 W3 W4 W5 W6 W7 W8]. split; rewrite ?E2, ?E3, ?E4, ?E6, ?E7; [| | | |done..].
  - destruct W1 as [G1 G2 G3 G4]. split.
    + intros q x n Hn%EE. by apply G1.
    + intros q x l Hl%EE. rewrite EK. by apply (G2 q x).
    + intros n q Hn. apply EE, G3, Hn.
    + intros n q Hn. rewrite EN by done. by eapply G4.
  - intros k l. rewrite EK. etrans; [apply W2|]. by setoid_rewrite EE.
  - intros n. destruct (decide (n ∈ X)) as [Hn|Hn]; [by apply HX|].
    eapply node_frame; [by apply E9|done|by rewrite E6|by apply HP|apply W3].
  - intros l. by eapply leaf_frame.
Qed.

Lemma wf_same_tree s s' B m P P' :
  wf s B m P → P ⊆ P' → same_tree s s' P' → (∀ n, n ∈ P' → pool_node s' B n) → wf s' B m P'.
Proof.
  intros W HP HS Hpool. eapply wf_same_tree_any; [done..| |].
  - intros n Hn. destruct (Hpool n Hn) as (H1 & H2 & ob & H3 & H4 & H5).
    split; [done|]. by apply node_pooled with ob.
  - intros n Hn. split; [done|]. apply HP.
Qed.

(** The pool's nodes are freed. *)
Lemma wf_drop_pool s s' B m P :
  wf s B m P → same_tree s s' P → (∀ n, n ∈ P → t_nodes s' !! n = None) → wf s' B m ∅.
Proof.
  intros W HS HP. eapply wf_same_tree_any; [done..| |].
  - intros n Hn. destruct (wf_pool_node _ _ _ _ _ W Hn) as (H1 & H2 & _). split; [done|].
    apply node_free; [by apply HP|done|by rewrite (sm_retired_nodes _ _ _ HS)|set_solver].
  - intros n Hn. split; [set_solver|done].
Qed.

(** Writing to a prepared node. *)
Lemma wf_put_pool s B m P n nd :
  wf s B m P → n ∈ P → node_ok nd → wf (put_node s n {| o_latch := 0; o_node := nd |}) B m P.
Proof.
  intros W Hn Hok. eapply wf_same_tree; [done|done|by apply same_tree_put|].
  intros n' Hn'. destruct (wf_pool_node _ _ _ _ _ W Hn') as (H1 & H2 & ob & H3).
  split_and!; [done|done|]. destruct (decide (n' = n)) as [->|].
  - eexists. split; [apply lookup_insert_eq|]. done.
  - exists ob. split; [|apply H3]. etrans; [by apply lookup_insert_ne|apply H3].
Qed.

(** ** The pool *)

Definition entries (p : Prepared) : list (loc * bool) := omap id (inline p) ++ spill p.
Definition pool (p : Prepared) : gset loc := list_to_set (entries p).*1.
Definition used (p : Prepared) : gset loc := list_to_set (filter (λ e, e.2 = true) (entries p)).*1.
Definition pool_ok (p : Prepared) : Prop := NoDup (entries p).*1.

Lemma elem_of_pool p n : n ∈ pool p ↔ ∃ u, (n, u) ∈ entries p.
Proof.
  unfold pool. rewrite elem_of_list_to_set, list_elem_of_fmap. split.
  - intros ([n' u] & -> & ?). by exists u.
  - intros [u ?]. by exists (n, u).
Qed.

Lemma elem_of_used p n : n ∈ used p ↔ (n, true) ∈ entries p.
Proof.
  unfold used. rewrite elem_of_list_to_set, list_elem_of_fmap. split.
  - intros ([n' u] & -> & [? ?]%list_elem_of_filter). cbn in *. by subst.
  - intros ?. exists (n, true). by rewrite list_elem_of_filter.
Qed.

Lemma pool_entry_unique p n u u' : pool_ok p → (n, u) ∈ entries p → (n, u') ∈ entries p → u = u'.
Proof.
  unfold pool_ok. induction (entries p) as [|[n0 u0] es IH]; [by intros _ ?%not_elem_of_nil|].
  cbn. rewrite NoDup_cons, list_elem_of_fmap. intros [Hn Hes].
  rewrite !elem_of_cons. intros [[= E1 E2]|H1] [[= E3 E4]|H2]; [congruence| | |by apply IH]; subst.
  - destruct Hn. by exists (n0, u').
  - destruct Hn. by exists (n0, u).
Qed.

Lemma omap_id_Some (l : list (loc * bool)) : omap id (map Some l) = l.
Proof. induction l as [|e l IH]; [done|]. cbn. by rewrite IH. Qed.

Lemma entries_alt p : entries p = omap id (inline p ++ map Some (spill p)).
Proof. unfold entries. by rewrite omap_app, omap_id_Some. Qed.

Lemma prep_new_empty : pool_ok prep_new ∧ pool prep_new = ∅ ∧ used prep_new = ∅.
Proof. split_and!; [constructor|done|done]. Qed.

Lemma prep_reset_entries p : entries (prep_reset p) = unuse <$> entries p.
Proof.
  unfold entries, prep_reset; cbn. rewrite fmap_app. f_equal.
  induction (inline p) as [|[e|] es IH]; cbn; [done|by rewrite IH|done].
Qed.

Lemma prep_reset_ok p : pool_ok p →
  pool_ok (prep_reset p) ∧ pool (prep_reset p) = pool p ∧ used (prep_reset p) = ∅.
Proof.
  intros Hp.
  assert ((entries (prep_reset p)).*1 = (entries p).*1) as E.
  { rewrite prep_reset_entries, <- list_fmap_compose. done. }
  unfold pool_ok, pool. rewrite E. split_and!; [done|done|].
  apply set_eq. intros n. rewrite elem_of_used, prep_reset_entries, list_elem_of_fmap.
  split; [by intros (e & [= _ ?] & _)|set_solver].
Qed.

(** What the commit leaves in the pool. *)
Lemma prep_commit_ok p : pool_ok p →
  pool_ok (prep_commit p) ∧ pool (prep_commit p) = pool p ∖ used p.
Proof.
  intros Hp. assert (entries (prep_commit p) = filter (λ e, e.2 = false) (entries p)) as E.
  { unfold entries, prep_commit; cbn. rewrite filter_app. f_equal.
    induction (inline p) as [|[[n [|]]|] es IH]; cbn; [done|..]; by rewrite ?IH. }
  split.
  - unfold pool_ok. rewrite E. revert Hp. unfold pool_ok. clear E.
    induction (entries p) as [|[n u] es IH]; cbn; [done|]. rewrite NoDup_cons. intros [Hn Hes].
    destruct u; cbn; [by apply IH|]. apply NoDup_cons. split; [|by apply IH].
    contradict Hn. apply list_elem_of_fmap in Hn as (e & En & [_ ?]%list_elem_of_filter).
    cbn in En. rewrite En. by apply list_elem_of_fmap_2.
  - apply set_eq. intros n. rewrite elem_of_difference, !elem_of_pool, elem_of_used, E.
    setoid_rewrite list_elem_of_filter. cbn. split.
    + intros (u & -> & Hu). split; [by exists false|]. intros Ht.
      by pose proof (pool_entry_unique p n _ _ Hp Hu Ht).
    + intros [[u Hu] Ht]. exists u. split; [|done]. by destruct u.
Qed.

(** [Prepared::node]. *)
Lemma take_entry_spec es ty s :
  (∀ n, Some (n, false) ∈ es → is_Some (t_nodes s !! n)) →
  wp (take_entry es ty) (λ r s', s' = s ∧
    match r with
    | None => True
    | Some (n, es') => ∃ es1 es2 ob, es = es1 ++ Some (n, false) :: es2 ∧
        es' = es1 ++ Some (n, true) :: es2 ∧ t_nodes s !! n = Some ob ∧ node_type (o_node ob) = ty
    end) s.
Proof.
  induction es as [|e es IH]; intros Hes; cbn [take_entry].
  { by apply wp_ret. }
  apply wp_bind.
  eapply (wp_mono _ (λ found s', s' = s ∧
    match found with
    | Some n => ∃ ob, e = Some (n, false) ∧ t_nodes s !! n = Some ob ∧ node_type (o_node ob) = ty
    | None => True
    end)).
  { destruct e as [[n [|]]|]; [by apply wp_ret| |by apply wp_ret].
    destruct (Hes n) as [ob Hob]; [set_solver|]. apply wp_bind. eapply wp_node_read; [done|].
    apply wp_ret. split; [done|]. case_decide; [|done]. by exists ob. }
  intros [n|] ? [-> Hf].
  - apply wp_ret. split; [done|]. destruct Hf as (ob & -> & ? & ?). by exists [], es, ob.
  - apply wp_bind. eapply wp_mono; [apply IH; intros n Hn; apply Hes; set_solver|].
    intros [[n es']|] ? [-> Hr]; apply wp_ret; (split; [done|]); [|done].
    destruct Hr as (es1 & es2 & ob & -> & -> & ? & ?). by exists (e :: es1), es2, ob.
Qed.

Lemma prep_add_entries p n : entries (prep_add p n) ≡ₚ (n, true) :: entries p.
Proof.
  unfold prep_add, entries. destruct (position _ _) as [i|] eqn:E; cbn.
  - apply position_Some in E as (x & Hx & Ex & _). apply bool_decide_eq_true in Ex as ->.
    rewrite <- (take_drop_middle (inline p) i None Hx) at 2.
    rewrite insert_take_drop by by eapply lookup_lt_Some.
    rewrite !omap_app. cbn. rewrite <- !(assoc_L (++)). cbn. by rewrite <- Permutation_middle.
  - by rewrite (assoc_L (++)), (comm (++) _ [(n, true)]).
Qed.

(** The nodes [X] were handed out by the pool, and written. *)
Record prepared s (p : Prepared) s' (p' : Prepared) B m (X : gset loc) : Prop := {
  pr_wf : wf s' B m (pool p');
  pr_ok : pool_ok p';
  pr_pool : pool p' = X ∪ pool p;
  pr_used : used p' = X ∪ used p;
  pr_new : X ## used p;
  pr_same : same_tree s s' X;
}.

Lemma live_key_prepared {s p B m} s1 p1 X l' : prepared s p s1 p1 B m X → live_key s1 l' = live_key s l'.
Proof. intros HP. by apply live_key_kept, (sm_leaves _ _ _ (pr_same _ _ _ _ _ _ _ HP)). Qed.

(** The linked nodes are not touched by the preparation. *)
Lemma linked_prepared {s p B m} s1 p1 X a : prepared s p s1 p1 B m X → is_Some (B !! a) →
  a ∉ X ∧ t_nodes s1 !! a = t_nodes s !! a.
Proof.
  intros HP [pa Ha]. assert (a ∉ X) as HX.
  { intros Hx. destruct (wf_pool_node _ _ _ _ a (pr_wf _ _ _ _ _ _ _ HP)) as [Hno _]; [|congruence].
    rewrite (pr_pool _ _ _ _ _ _ _ HP). set_solver. }
  split; [done|]. by apply (sm_nodes _ _ _ (pr_same _ _ _ _ _ _ _ HP)).
Qed.

(** A node as [Prepared::node] and the initialisations leave it. *)
Definition fresh_node s (n : loc) (nd : node raw) : Prop :=
  t_nodes s !! n = Some {| o_latch := 0; o_node := nd |}.

Lemma prepared_trans s p s1 p1 s2 p2 B m X Y :
  prepared s p s1 p1 B m X → prepared s1 p1 s2 p2 B m Y → prepared s p s2 p2 B m (Y ∪ X).
Proof.
  intros [A1 A2 A3 A4 A5 A6] [B1 B2 B3 B4 B5 B6]. split; [done|done| | | |].
  { by rewrite B3, A3, (assoc_L (∪)). }
  { by rewrite B4, A4, (assoc_L (∪)). }
  { rewrite A4 in B5. clear -A5 B5. set_solver. }
  eapply same_tree_trans; [|exact A6|eapply same_tree_mono; [|exact B6]]; clear; set_solver.
Qed.

Lemma prepared_keeps s p s1 p1 s2 p2 B m X Y n nd :
  prepared s p s1 p1 B m X → prepared s1 p1 s2 p2 B m Y → n ∈ X → fresh_node s1 n nd → fresh_node s2 n nd.
Proof.
  intros A C Hn F. unfold fresh_node. rewrite (sm_nodes _ _ _ (pr_same _ _ _ _ _ _ _ C)); [done|].
  pose proof (pr_new _ _ _ _ _ _ _ C) as D. rewrite (pr_used _ _ _ _ _ _ _ A) in D.
  clear -D Hn. set_solver.
Qed.

Lemma prepared_put s p s' p' B m X n nd : prepared s p s' p' B m X → n ∈ X → node_ok nd →
  prepared s p (put_node s' n {| o_latch := 0; o_node := nd |}) p' B m X.
Proof.
  intros [A1 A2 A3 A4 A5 A6] Hn Hok. split; [|done..|].
  - apply wf_put_pool; [done|set_solver|done].
  - eapply same_tree_trans; [reflexivity|done|by apply same_tree_put].
Qed.

Lemma fresh_put s n nd : fresh_node (put_node s n {| o_latch := 0; o_node := nd |}) n nd.
Proof. apply lookup_insert_eq. Qed.

Lemma wp_init_node n f (Q : unit → RawTree L St → Prop) s nd nd' :
  fresh_node s n nd → f nd = Some nd' →
  Q tt (put_node s n {| o_latch := 0; o_node := nd' |}) → wp (init_node n f) Q s.
Proof.
  intros E Ef HQ. unfold init_node. eapply wp_exec; [|exact HQ].
  cbn. unfold with_node. rewrite E. cbn. by rewrite Ef.
Qed.

Definition storage_full : Prop := ∃ (st : St) ty, alloc_node st ty = None.

(** The storage, as it is, has no room for a node of some type. *)
Definition storage_refuses s : Prop := ∃ ty, alloc_node (t_storage s) ty = None.

Lemma storage_refuses_full s : storage_refuses s → storage_full.
Proof. intros [ty E]. by exists (t_storage s), ty. Qed.

Lemma pool_ok_perm p p' : pool_ok p → (entries p').*1 ≡ₚ (entries p).*1 → pool_ok p'.
Proof. unfold pool_ok. by intros ? ->. Qed.

Lemma wf_put_fresh s B m P n st ty :
  wf s B m P → n ∉ dom (t_nodes s) →
  wf (put_node (set_t_storage st s) n {| o_latch := 0; o_node := node_new ty |}) B m ({[n]} ∪ P).
Proof.
  intros W Hn. apply not_elem_of_dom in Hn.
  eapply wf_same_tree; [done|set_solver| |].
  { split; try done. intros n' Hn'. apply lookup_insert_ne. set_solver. }
  intros n' Hn'. destruct (decide (n' = n)) as [->|Hne].
  - destruct (wf_nodes _ _ _ _ W n); [congruence..|]. split_and!; [done..|].
    eexists. split; [apply lookup_insert_eq|]. split; [apply node_new_ok|done].
  - destruct (wf_pool_node _ _ _ _ n' W) as (H1 & H2 & ob & H3); [set_solver|].
    split_and!; [done..|]. exists ob. split; [|apply H3]. etrans; [by apply lookup_insert_ne|apply H3].
Qed.

Lemma prep_node_spec s B m p ty : wf s B m (pool p) → pool_ok p →
  wp (prep_node p ty) (λ '(r, p') s',
    match r with
    | None => s' = s ∧ p' = p ∧ storage_refuses s
    | Some n => prepared s p s' p' B m {[n]} ∧ fresh_node s' n (node_new ty)
    end) s.
Proof.
  intros W Hp. unfold prep_node. apply wp_bind.
  assert (∀ n u, (n, u) ∈ entries p → ∃ ob, t_nodes s !! n = Some ob ∧ o_latch ob = 0) as Hent.
  { intros n u Hn. destruct (wf_pool_node _ _ _ _ n W) as (_ & _ & ob & ? & _ & ?); [|by exists ob].
    apply elem_of_pool. eauto. }
  eapply wp_mono; [apply take_entry_spec|].
  { intros n Hn. destruct (Hent n false) as (ob & -> & _); [|by eexists].
    rewrite entries_alt. apply list_elem_of_omap. by exists (Some (n, false)). }
  intros [[n es']|] ? [-> Hr].
  - destruct Hr as (es1 & es2 & ob & E & -> & Hn & Hty).
    set (p' := {| inline := take (length (inline p)) (es1 ++ Some (n, true) :: es2);
                  spill := omap id (drop (length (inline p)) (es1 ++ Some (n, true) :: es2)) |}).
    assert (entries p = omap id es1 ++ (n, false) :: omap id es2) as E1.
    { by rewrite entries_alt, E, omap_app. }
    assert (entries p' = omap id es1 ++ (n, true) :: omap id es2) as E2.
    { unfold entries, p'; cbn. rewrite <- omap_app, take_drop, omap_app. done. }
    destruct (Hent n false) as (ob' & Hob' & Hl); [rewrite E1; set_solver|].
    assert (ob' = ob) as -> by congruence.
    assert ((entries p').*1 = (entries p).*1) as E3 by (by rewrite E1, E2, !fmap_app).
    assert (pool p' = pool p) as E4 by (unfold pool; by rewrite E3).
    assert (n ∈ pool p) as Hnp by (apply elem_of_pool; exists false; rewrite E1; set_solver).
    apply wp_bind. unfold reinit. eapply wp_exec; [cbn; unfold with_node; by rewrite Hn|].
    rewrite Hty. apply wp_ret. split; [|apply lookup_insert_eq]. fold p'. split.
    + rewrite E4. apply wf_put_pool; [done|done|apply node_new_ok].
    + unfold pool_ok. by rewrite E3.
    + rewrite E4. set_solver.
    + unfold used. rewrite E1, E2, !filter_app.
      rewrite filter_cons_True, filter_cons_False by done. cbn.
      rewrite !fmap_app. cbn. rewrite !list_to_set_app_L. cbn. set_solver.
    + apply disjoint_singleton_l. rewrite elem_of_used. intros Hu.
      assert ((n, false) ∈ entries p) as Hu' by (rewrite E1; set_solver).
      by pose proof (pool_entry_unique p n _ _ Hp Hu Hu').
    + apply same_tree_put. set_solver.
  - apply wp_bind. destruct (alloc_node (t_storage s) ty) as [st|] eqn:E.
    + set (n := fresh (dom (t_nodes s))).
      assert (n ∉ dom (t_nodes s)) as Hn by apply is_fresh.
      assert (n ∉ pool p) as Hnp.
      { intros (u & Hu)%elem_of_pool. destruct (Hent n u Hu) as (ob & Hob & _).
        apply not_elem_of_dom in Hn. congruence. }
      eapply wp_exec; [cbn; by rewrite E|]. fold n. apply wp_ret.
      pose proof (prep_add_entries p n) as Hadd.
      assert (pool (prep_add p n) = {[n]} ∪ pool p) as E4.
      { unfold pool. apply set_eq. intros x. by rewrite Hadd. }
      split; [|apply lookup_insert_eq]. split.
      * rewrite E4. by apply wf_put_fresh.
      * unfold pool_ok. rewrite Hadd. cbn. apply NoDup_cons. split; [|done].
        contradict Hnp. unfold pool. by apply elem_of_list_to_set.
      * done.
      * apply set_eq. intros x. rewrite elem_of_used, Hadd, elem_of_cons, elem_of_union, elem_of_used, elem_of_singleton.
        naive_solver.
      * apply disjoint_singleton_l. contradict Hnp. apply elem_of_used in Hnp. apply elem_of_pool. eauto.
      * split; try done. intros n' Hn'. apply lookup_insert_ne. set_solver.
    + eapply wp_exec; [cbn; by rewrite E|]. apply wp_ret. split_and!; [done..|]. by exists ty.
Qed.
End pool.
