(* ===== verification/Chain.v ===== *)
(** * Chains of prepared nodes

    [build_chain] splits a common prefix into segments of sixteen bytes and a
    branch byte, and holds two leaves below it. [build_chain_spec]: what it
    prepares is a subtree at the path it is built for, whose leaf edges are
    those of the two leaves, and it consumes the whole prefix, however long. *)

From S2P Require Import Prelude Bytes Latch Slot Bits Node NodeSpec NodeOps Free Mem Shape Raw Read Write Inv Commit Update Pool.
Local Open Scope Z_scope.

(** ** Segments *)

Definition flat (segments : list (list byte * byte)) : list byte :=
  concat (map (λ s, s.1 ++ [s.2]) segments).

Lemma chain_segments_spec fuel prefix :
  (length prefix <= fuel)%nat →
  let '(segments, last) := chain_segments fuel prefix in
  prefix = flat segments ++ last ∧ (length last <= MAX_PREFIX_LEN)%nat ∧
  Forall (λ s, length s.1 = MAX_PREFIX_LEN) segments.
Proof.
  unfold MAX_PREFIX_LEN. revert prefix. induction fuel as [|fuel IH]; intros prefix Hf; cbn [chain_segments].
  { destruct prefix; [|cbn in Hf; lia]. split_and!; [done|cbn; lia|constructor]. }
  unfold MAX_PREFIX_LEN. case_decide as D; [|split_and!; [done|lia|constructor]].
  specialize (IH (drop (16 + 1) prefix)).
  destruct (chain_segments fuel (drop (16 + 1) prefix)) as [segments last].
  destruct IH as (E & Hl & HF); [rewrite length_drop; lia|].
  destruct (lookup_lt_is_Some_2 prefix 16 D) as [b Hb].
  split_and!; [|done|].
  - unfold flat in *. cbn [map concat fst snd]. rewrite <- !(assoc_L (++)), <- E.
    rewrite (list_lookup_total_correct _ _ _ Hb). cbn.
    symmetry. exact (take_drop_middle prefix 16 b Hb).
  - constructor; [|done]. cbn [fst]. rewrite length_take. lia.
Qed.

(** ** Subtrees of unpublished nodes *)

(** From [top] at path [q], the nodes [BN] and the leaf edges [E]. *)
Record subtree (N : gmap loc (node raw)) (top : raw) (q : path) (BN : gmap loc path)
    (E : path → bool → raw → Prop) : Prop := {
  sub_top : ∃ n, top = NodeAt n ∧ BN !! n = Some q;
  sub_nodes n p : BN !! n = Some p → ∃ nd, N !! n = Some nd ∧ nonempty nd;
  sub_edges q' x r :
    (∃ n p nd, BN !! n = Some p ∧ N !! n = Some nd ∧ node_edges (p ++ pfx nd) nd q' x r) ↔
    (x = false ∧ ∃ n, r = NodeAt n ∧ BN !! n = Some q' ∧ r ≠ top) ∨ E q' x r;
}.

Lemma subtree_ext N N' top q BN E :
  (∀ n, is_Some (BN !! n) → N' !! n = N !! n) → subtree N top q BN E → subtree N' top q BN E.
Proof.
  intros HN [H1 H2 H3]. split; [done| |].
  - intros n p Hp. rewrite HN by done. by eapply H2.
  - intros q' x r. rewrite <- H3. split; intros (n & p & nd & Hp & Hn & X); exists n, p, nd.
    + by rewrite <- HN.
    + by rewrite HN.
Qed.

(** A single node without inner children. *)
Lemma subtree_leaf N n nd q E :
  N !! n = Some nd → nonempty nd → (∀ q' x r, node_edges (q ++ pfx nd) nd q' x r ↔ E q' x r) →
  subtree N (NodeAt n) q {[n := q]} E.
Proof.
  intros Hn Hne HE. split.
  - exists n. by rewrite lookup_singleton_eq.
  - intros n' p [<- _]%lookup_singleton_Some. by exists nd.
  - intros q' x r. rewrite <- HE. split.
    + intros (n' & p & nd' & [<- <-]%lookup_singleton_Some & Hn' & X). simplify_eq. by right.
    + intros [(_ & n' & -> & [<- _]%lookup_singleton_Some & ?)|X]; [done|].
      exists n, q, nd. by rewrite lookup_singleton_eq.
Qed.

(** A node with one child above a subtree. *)
Lemma subtree_link N n nd q b below BN E :
  N !! n = Some nd → BN !! n = None → exact_leaf nd = Null →
  (∀ y, find_child nd y = if decide (y = b) then Some below else None) →
  subtree N below (q ++ pfx nd ++ [b]) BN E →
  subtree N (NodeAt n) q (<[n := q]> BN) E.
Proof.
  intros Hn HBN Hx Hc [(n0 & -> & Hn0) H2 H3]. split.
  - exists n. by rewrite lookup_insert_eq.
  - intros n' p [[<- _]|[_ Hp]]%lookup_insert_Some; [|by eapply H2].
    exists nd. split; [done|]. left. exists b. by rewrite Hc, decide_True.
  - intros q' x r. rewrite (assoc_L (++)) in Hn0.
    assert (node_edges (q ++ pfx nd) nd q' x r ↔ x = false ∧ q' = (q ++ pfx nd) ++ [b] ∧ r = NodeAt n0) as E1.
    { unfold node_edges. rewrite Hx. setoid_rewrite Hc. split.
      - intros [(-> & b' & Hb & ->)|(_ & <- & ? & _)]; [|done]. case_decide; [|done]. naive_solver.
      - intros (-> & -> & ->). left. split; [done|]. exists b. by rewrite decide_True. }
    split.
    + intros (n' & p & nd' & [[<- <-]|[Hne Hp]]%lookup_insert_Some & Hn' & X).
      * simplify_eq. apply E1 in X as (-> & -> & ->). left. split; [done|]. exists n0.
        assert (n0 ≠ n) by congruence. rewrite lookup_insert_ne by done. split_and!; [done..|congruence].
      * assert (∃ n p nd, BN !! n = Some p ∧ N !! n = Some nd ∧ node_edges (p ++ pfx nd) nd q' x r) as Y by eauto 10.
        apply H3 in Y as [(-> & n2 & -> & Hn2 & Hne2)|?]; [left|by right]. split; [done|].
        exists n2. assert (n2 ≠ n) by congruence. rewrite lookup_insert_ne by done. split_and!; [done..|congruence].
    + intros [(-> & n' & -> & [[<- <-]|[Hne Hp]]%lookup_insert_Some & Hnt)|X]; [done| |].
      * destruct (decide (n' = n0)) as [->|Hne0].
        -- exists n, q, nd. rewrite lookup_insert_eq. split_and!; [done..|]. apply E1. by simplify_eq.
        -- destruct (proj2 (H3 q' false (NodeAt n'))) as (n2 & p2 & nd2 & Hp2 & Hn2 & Y).
           { left. split; [done|]. exists n'. split_and!; [done..|congruence]. }
           exists n2, p2, nd2. split_and!; [|done..]. rewrite lookup_insert_ne; [done|congruence].
      * destruct (proj2 (H3 q' x r) (or_intror X)) as (n2 & p2 & nd2 & Hp2 & Hn2 & Y).
        exists n2, p2, nd2. split_and!; [|done..]. rewrite lookup_insert_ne; [done|congruence].
Qed.

(** ** The contents of one node of a chain *)

Lemma empty_node4_insert (nd : node raw) b c k :
  node_ok nd → node_type nd = Node4 → find_child nd b = None → c ≠ Null →
  (num_children nd <= k)%nat → (k < 4)%nat →
  ∃ nd', insert_child_raw nd b c = Some nd' ∧ node_ok nd' ∧ node_type nd' = Node4 ∧ pfx nd' = pfx nd ∧
    exact_leaf nd' = exact_leaf nd ∧ (num_children nd' <= S k)%nat ∧
    ∀ x, find_child nd' x = if decide (x = b) then Some c else find_child nd x.
Proof.
  intros Hok Ht Hb Hc Hk Hk4.
  destruct (insert_child_spec nd b c Hok Hb Hc) as (nd' & E & Hok' & (E1 & E2 & E3) & F).
  { rewrite Ht. cbn. lia. }
  exists nd'. split_and!; [done|done|congruence|by unfold pfx; rewrite E2|done| |done].
  rewrite (proj1 (num_children_spec nd' Hok')).
  rewrite (child_count_insert (find_child nd) (find_child nd') b c); [|done|by rewrite F, decide_True|].
  - rewrite <- (proj1 (num_children_spec nd Hok)). lia.
  - intros x Hx. by rewrite F, decide_False.
Qed.

Lemma new_node4_prefix (prefix : list byte) : (length prefix <= MAX_PREFIX_LEN)%nat →
  let nd := write_prefix (node_new (R := raw) Node4) prefix in
  node_ok nd ∧ node_type nd = Node4 ∧ pfx nd = prefix ∧ exact_leaf nd = Null ∧
  num_children nd = 0%nat ∧ ∀ x, find_child nd x = None.
Proof.
  intros Hp nd. destruct (node_new_ok (R := raw) Node4) as (H1 & H2 & H3 & H4).
  destruct (write_prefix_ok _ prefix H1) as (G1 & G2 & G3 & G4). fold nd in G1, G2, G3, G4.
  assert (∀ x, find_child nd x = None) as F by (intros x; by rewrite G4).
  split_and!; [done|congruence|by apply load_write_prefix|by rewrite G3, H3| |done].
  rewrite (proj1 (num_children_spec nd G1)). by apply child_count_0.
Qed.

(** The edge of one entry of the bottom node. *)
Definition entry_edge (base : path) (common : nat) (e : list byte * raw) (q : path) (x : bool) (r : raw) : Prop :=
  r = e.2 ∧
  match e.1 !! common with
  | None => x = true ∧ q = base
  | Some b => x = false ∧ q = base ++ [b]
  end.

(** The pure effect of [place_leaf]. *)
Definition place_entry (nd : node raw) (common : nat) (e : list byte * raw) : option (node raw) :=
  match e.1 !! common with
  | None => Some (set_exact_leaf nd e.2)
  | Some b => insert_child_raw nd b e.2
  end.

Lemma place_entry_spec (nd : node raw) common e k :
  node_ok nd → node_type nd = Node4 → e.2 ≠ Null → (num_children nd <= k)%nat → (k < 4)%nat →
  match e.1 !! common with None => exact_leaf nd = Null | Some b => find_child nd b = None end →
  ∃ nd', place_entry nd common e = Some nd' ∧ node_ok nd' ∧ node_type nd' = Node4 ∧ pfx nd' = pfx nd ∧
    (num_children nd' <= S k)%nat ∧
    exact_leaf nd' = (match e.1 !! common with None => e.2 | Some _ => exact_leaf nd end) ∧
    ∀ x, find_child nd' x = if decide (e.1 !! common = Some x) then Some e.2 else find_child nd x.
Proof.
  intros Hok Ht He Hk Hk4 Hfree. unfold place_entry. destruct (e.1 !! common) as [b|].
  - destruct (empty_node4_insert nd b e.2 k) as (nd' & E & G1 & G2 & G3 & G4 & G5 & G6); [done..|].
    exists nd'. split_and!; [done..|]. intros x. rewrite G6. repeat case_decide; congruence.
  - destruct (set_exact_leaf_ok nd e.2 Hok) as (G1 & G2 & G3 & G4 & G5).
    eexists. split; [done|]. split_and!; [done|congruence|by unfold pfx; rewrite G3| |done|].
    + rewrite (proj1 (num_children_spec _ G1)), (child_count_same (find_child nd) _ G5).
      rewrite <- (proj1 (num_children_spec nd Hok)). lia.
    + intros x. by rewrite G5.
Qed.

(** The bottom node: two diverging entries. *)
Lemma bottom_node (rest : list byte) common (a b : list byte * raw) :
  (length rest <= MAX_PREFIX_LEN)%nat → a.2 ≠ Null → b.2 ≠ Null → a.1 !! common ≠ b.1 !! common →
  ∃ nd1 nd2, place_entry (write_prefix (node_new Node4) rest) common a = Some nd1 ∧
    place_entry nd1 common b = Some nd2 ∧ node_ok nd1 ∧ node_ok nd2 ∧ pfx nd2 = rest ∧ nonempty nd2 ∧
    ∀ p q x r, node_edges (p ++ rest) nd2 q x r ↔
      entry_edge (p ++ rest) common a q x r ∨ entry_edge (p ++ rest) common b q x r.
Proof.
  intros Hr Ha Hb Hne. destruct (new_node4_prefix rest Hr) as (H1 & H2 & H3 & H4 & H5 & H6).
  set (nd0 := write_prefix _ _) in *.
  destruct (place_entry_spec nd0 common a 0) as (nd1 & E1 & G1 & G2 & G3 & G4 & G5 & G6); [done|done|done|lia|lia| |].
  { destruct (a.1 !! common); [apply H6|done]. }
  destruct (place_entry_spec nd1 common b 1) as (nd2 & E2 & K1 & K2 & K3 & K4 & K5 & K6); [done|done|done|lia|lia| |].
  { destruct (b.1 !! common) as [y|].
    - rewrite G6, decide_False by done. apply H6.
    - rewrite G5. destruct (a.1 !! common); done. }
  assert (∀ y, find_child nd2 y = if decide (b.1 !! common = Some y) then Some b.2
    else if decide (a.1 !! common = Some y) then Some a.2 else None) as K7.
  { intros y. by rewrite K6, G6, H6. }
  exists nd1, nd2. split_and!; [done..|congruence| |].
  { unfold nonempty. rewrite K5. destruct (b.1 !! common) as [yb|]; [left|by right].
    exists yb. by rewrite K7, decide_True. }
  intros p q x r. unfold node_edges, entry_edge. rewrite K5, G5. setoid_rewrite K7.
  rewrite H4. destruct (a.1 !! common) as [ya|], (b.1 !! common) as [yb|]; split.
  all: try (intros [(-> & y & Hy & ->)|(-> & <- & ? & ->)]; repeat case_decide; simplify_eq; naive_solver).
  all: intros [(-> & -> & ->)|(-> & -> & ->)].
  all: first [ right; done
    | left; split; [done|]; first [ exists ya; (split; [|done]); repeat case_decide; congruence
                                  | exists yb; (split; [|done]); repeat case_decide; congruence ] ].
Qed.

(** ** The programs *)

Section build.
Context {L St : Type} {LN : LeafNode L} {LL : LeafLaws L} {LY : Layout St} {EX : Exempt}.
Implicit Types (s : RawTree L St) (m : gmap path loc) (B : gmap loc path) (E : path → bool → raw → Prop).

Lemma prepared_nil s p B m : wf s B m (pool p) → pool_ok p → prepared s p s p B m ∅.
Proof. intros W Hp. split; [done|done|by rewrite (left_id_L ∅ (∪))..|set_solver|apply same_tree_refl]. Qed.

Lemma fresh_nodes_of s n nd : fresh_node s n nd → nodes_of s !! n = Some nd.
Proof. unfold fresh_node. intros F. by rewrite lookup_nodes_of, F. Qed.

(** A handed-out node that was just written, seen from before. *)
Lemma prepared_nodes_of s p s' p' B m X n :
  prepared s p s' p' B m X → n ∈ used p → nodes_of s' !! n = nodes_of s !! n.
Proof.
  intros [A1 A2 A3 A4 A5 A6] Hn. rewrite !lookup_nodes_of.
  rewrite (sm_nodes _ _ _ A6); [done|]. clear -A5 Hn. set_solver.
Qed.

Lemma flat_snoc segs (e : list byte * byte) : flat (segs ++ [e]) = flat segs ++ e.1 ++ [e.2].
Proof. unfold flat. rewrite map_app, concat_app. cbn. by rewrite app_nil_r. Qed.

Definition built s p B m q E (BN : gmap loc path) (r : option raw) p' s' : Prop :=
  ∃ X, prepared s p s' p' B m X ∧
    match r with
    | None => storage_refuses s'
    | Some top => ∃ BN', subtree (nodes_of s') top q BN' E ∧ dom BN' = X ∪ dom BN ∧ BN ⊆ BN'
    end.

Lemma build_links_spec rsegs s p B m q below BN E :
  wf s B m (pool p) → pool_ok p → Forall (λ e : list byte * byte, length e.1 = MAX_PREFIX_LEN) rsegs →
  subtree (nodes_of s) below (q ++ flat (rev rsegs)) BN E → dom BN ⊆ used p →
  wp (build_links p rsegs below) (λ '(r, p') s', built s p B m q E BN r p' s') s.
Proof.
  revert s p below BN. induction rsegs as [|[seg b] rsegs IH]; intros s p below BN W Hp Hsegs HT Hdom.
  { apply wp_ret. exists ∅. split; [by apply prepared_nil|]. exists BN.
    cbn in HT. rewrite app_nil_r in HT. split_and!; [done| |done]. by rewrite (left_id_L ∅ (∪)). }
  apply Forall_cons in Hsegs as [Hseg Hsegs]. cbn in Hseg. cbn [build_links].
  apply wp_bind. eapply wp_mono; [by apply (prep_node_spec _ B m)|].
  intros [[n|] p1] s1; cbv beta iota.
  2: { intros (-> & -> & HF). apply wp_ret. exists ∅. split; [by apply prepared_nil|done]. }
  intros [HP HF].
  destruct (new_node4_prefix seg) as (G1 & G2 & G3 & G4 & G5 & G6); [lia|].
  set (nd0 := write_prefix (node_new Node4) seg) in *.
  assert (below ≠ Null) as Hbelow by (by destruct (sub_top _ _ _ _ _ HT) as (n0 & -> & _)).
  destruct (empty_node4_insert nd0 b below 0) as (nd1 & K1 & K2 & K3 & K4 & K5 & _ & K7); [done|done|apply G6|done|lia|lia|].
  apply wp_bind. eapply wp_init_node; [exact HF|done|]. fold nd0.
  set (s2 := put_node s1 n {| o_latch := 0; o_node := nd0 |}).
  apply wp_bind. eapply (wp_init_node _ _ _ s2); [apply fresh_put|exact K1|].
  set (s3 := put_node s2 n {| o_latch := 0; o_node := nd1 |}).
  assert (prepared s p s3 p1 B m {[n]}) as HP3.
  { apply prepared_put; [|set_solver|done]. apply prepared_put; [done|set_solver|done]. }
  assert (BN !! n = None) as Hn.
  { apply not_elem_of_dom. pose proof (pr_new _ _ _ _ _ _ _ HP3). set_solver. }
  assert (nodes_of s3 !! n = Some nd1) as N1 by apply fresh_nodes_of, fresh_put.
  eapply wp_mono; [apply (IH s3 p1 (NodeAt n) (<[n := q ++ flat (rev rsegs)]> BN))|].
  - apply HP3.
  - apply HP3.
  - done.
  - apply subtree_link with nd1 b below; [done|done|congruence| |].
    + intros y. rewrite K7. case_decide; [done|apply G6].
    + rewrite K4, G3. change (rev ((seg, b) :: rsegs)) with (rev rsegs ++ [(seg, b)]) in HT.
      rewrite flat_snoc in HT. cbn [fst snd] in HT. rewrite <- (assoc_L (++)).
      eapply subtree_ext; [|exact HT]. intros n' Hn'.
      eapply prepared_nodes_of; [exact HP3|]. apply Hdom. by apply elem_of_dom.
  - rewrite dom_insert_L, (pr_used _ _ _ _ _ _ _ HP3). set_solver.
  - intros [r p2] s4 (X & HPX & Hr). exists (X ∪ {[n]}). split; [by eapply prepared_trans|].
    destruct r as [top|]; [|done]. destruct Hr as (BN' & HT' & Hd & HB). exists BN'. split_and!; [done|..].
    + rewrite Hd, dom_insert_L. by rewrite (assoc_L (∪)).
    + etrans; [by apply insert_subseteq|exact HB].
Qed.

(** The two entries' keys diverge at [common]. *)
Lemma build_chain_spec s p B m q prefix a b :
  wf s B m (pool p) → pool_ok p → a.2 ≠ Null → b.2 ≠ Null →
  a.1 !! length prefix ≠ b.1 !! length prefix →
  wp (build_chain p prefix a b (length prefix)) (λ '(r, p') s',
    ∃ X, prepared s p s' p' B m X ∧
    match r with
    | None => storage_refuses s'
    | Some (top, bottom) => ∃ BN, dom BN = X ∧
        subtree (nodes_of s') top q BN (λ q' x r,
          entry_edge (q ++ prefix) (length prefix) a q' x r ∨ entry_edge (q ++ prefix) (length prefix) b q' x r) ∧
        ∃ n pn nd, bottom = NodeAt n ∧ BN !! n = Some pn ∧ fresh_node s' n nd ∧ pn ++ pfx nd = q ++ prefix
    end) s.
Proof.
  intros W Hp Ha Hb Hne. unfold build_chain.
  apply wp_bind. rewrite bool_decide_true by done. apply wp_ret.
  pose proof (chain_segments_spec (length prefix) prefix (le_n _)) as HS.
  destruct (chain_segments (length prefix) prefix) as [segs rest]. destruct HS as (Epre & Hrest & Hsegs).
  set (common := length prefix) in *.
  apply wp_bind. eapply wp_mono; [by apply (prep_node_spec _ B m)|].
  intros [[n|] p1] s1; cbv beta iota.
  2: { intros (-> & -> & HF). apply wp_ret. exists ∅. split; [by apply prepared_nil|done]. }
  intros [HP HF].
  destruct (bottom_node rest common a b Hrest Ha Hb Hne) as (nd1 & nd2 & K1 & K2 & K3 & K4 & K5 & K5' & K6).
  destruct (new_node4_prefix rest Hrest) as (G1 & _).
  set (nd0 := write_prefix (node_new Node4) rest) in *.
  apply wp_bind. eapply wp_init_node; [exact HF|done|]. fold nd0.
  set (s2 := put_node s1 n {| o_latch := 0; o_node := nd0 |}).
  assert (∀ (e : path * raw) nd nd' st (Q : unit → RawTree L St → Prop), place_entry nd common e = Some nd' →
    fresh_node st n nd → Q tt (put_node st n {| o_latch := 0; o_node := nd' |}) →
    wp (place_leaf n common e) Q st) as PL.
  { intros e nd nd' st Q. unfold place_entry, place_leaf. destruct (e.1 !! common); intros Ee Hf HQ;
      (eapply wp_init_node; [exact Hf|exact Ee|exact HQ]). }
  apply wp_bind. eapply (PL a nd0 nd1 s2); [done|apply fresh_put|].
  set (s3 := put_node s2 n {| o_latch := 0; o_node := nd1 |}).
  apply wp_bind. eapply (PL b nd1 nd2 s3); [done|apply fresh_put|].
  set (s4 := put_node s3 n {| o_latch := 0; o_node := nd2 |}).
  assert (prepared s p s4 p1 B m {[n]}) as HP4.
  { repeat (apply prepared_put; [|set_solver|done]). done. }
  apply wp_bind. eapply wp_mono; [apply (build_links_spec (rev segs) s4 p1 B m q (NodeAt n) {[n := q ++ flat segs]}
    (λ q' x r, entry_edge (q ++ prefix) common a q' x r ∨ entry_edge (q ++ prefix) common b q' x r))|].
  - apply HP4.
  - apply HP4.
  - by apply List.Forall_rev.
  - rewrite rev_involutive. eapply subtree_leaf; [apply fresh_nodes_of, fresh_put|done|].
    intros q' x r. rewrite K5, Epre, (assoc_L (++)). apply K6.
  - rewrite dom_singleton_L, (pr_used _ _ _ _ _ _ _ HP4). set_solver.
  - intros [r p2] s5 (X & HPX & Hr). apply wp_ret. exists (X ∪ {[n]}).
    split; [by eapply prepared_trans|]. destruct r as [top|]; [|done].
    destruct Hr as (BN & HT & Hd & HB). exists BN. rewrite Hd, dom_singleton_L. split_and!; [done..|].
    exists n, (q ++ flat segs), nd2. split_and!; [done| | |].
    + eapply lookup_weaken; [|exact HB]. apply lookup_singleton_eq.
    + eapply prepared_keeps; [exact HP4|exact HPX|set_solver|]. apply fresh_put.
    + by rewrite K5, Epre, (assoc_L (++)).
Qed.
End build.
