(* ===== verification/Guard.v ===== *)
(** * Critical sections under a parent latch

    Between [lock_parent] and the release of its guard a program runs on the
    tree with the parent's latch word and content overlaid ([overlay]). The
    rules here run the guard's operations on the overlay, and commute it with
    everything else the section does; [overlay_slot_set] says what the section
    stored, once the guard is released. *)

From S2P Require Import Prelude Bytes Latch Slot Bits Node NodeSpec NodeOps Free Mem Shape Raw Read Write Inv Descent Commit Update Pool.
Local Open Scope Z_scope.

Section guard.
Context {L St : Type} {LN : LeafNode L} {LL : LeafLaws L} {LY : Layout St} {EX : Exempt}.
Implicit Types (s : RawTree L St) (m : gmap path loc) (B : gmap loc path) (P : gset loc) (pg : ParentGuard).

(** The parent's latch word, and its content: the root slot or a node. *)
Record pview := { pv_word : Z; pv_root : raw; pv_node : node raw }.

Definition overlay pg (v : pview) s : RawTree L St :=
  match pg with
  | GuardRoot _ => set_t_root_latch (pv_word v) (set_t_root (pv_root v) s)
  | GuardNode a _ _ => put_node s a {| o_latch := pv_word v; o_node := pv_node v |}
  end.

Definition guard_word pg : Z := match pg with GuardRoot w | GuardNode _ w _ => g_v w end.

(** [pg] is the guard of the parent that keeps [n], and [v] what it protects. *)
Definition guards s B pg (v : pview) (n : loc) (p : path) : Prop :=
  pv_word v = guard_word pg ∧ quiet (pv_word v) ∧
  match pg with
  | GuardRoot _ => t_root_latch s = pv_word v ∧ t_root s = pv_root v ∧ pv_root v = NodeAt n ∧ p = []
  | GuardNode a _ b =>
    ∃ q, a ≠ n ∧ B !! a = Some q ∧
      t_nodes s !! a = Some {| o_latch := pv_word v; o_node := pv_node v |} ∧
      node_ok (pv_node v) ∧ find_child (pv_node v) b = Some (NodeAt n) ∧
      p = q ++ pfx (pv_node v) ++ [b]
  end.

Definition with_word (w : Z) (v : pview) : pview :=
  {| pv_word := w; pv_root := pv_root v; pv_node := pv_node v |}.

Lemma overlay_id s B pg v n p : guards s B pg v n p → overlay pg v s = s.
Proof.
  intros (_ & _ & G). destruct pg as [w|a w b]; cbn.
  - destruct G as (<- & <- & _). by destruct s.
  - destruct G as (q & _ & _ & Ha & _). by apply put_node_id.
Qed.

Lemma overlay_overlay pg v v' s : overlay pg v' (overlay pg v s) = overlay pg v' s.
Proof. destruct pg; [done|]. unfold overlay, put_node, set_t_nodes; cbn. by rewrite insert_insert_eq. Qed.

Lemma overlay_node a u b v s word nd :
  put_node (overlay (GuardNode a u b) v s) a {| o_latch := word; o_node := nd |} =
  overlay (GuardNode a u b) {| pv_word := word; pv_root := pv_root v; pv_node := nd |} s.
Proof. exact (overlay_overlay (GuardNode a u b) v {| pv_word := word; pv_root := pv_root v; pv_node := nd |} s). Qed.

(** A node of the section that is not the parent. *)
Definition apart pg (n : loc) : Prop := match pg with GuardRoot _ => True | GuardNode a _ _ => n ≠ a end.

Lemma overlay_lookup pg v s n : apart pg n → t_nodes (overlay pg v s) !! n = t_nodes s !! n.
Proof. destruct pg; [done|]. cbn. intros. by apply lookup_insert_ne. Qed.

Lemma overlay_put pg v s n ob : apart pg n → put_node (overlay pg v s) n ob = overlay pg v (put_node s n ob).
Proof.
  destruct pg; [done|]. cbn. intros Hn. unfold put_node, set_t_nodes; cbn. f_equal.
  apply insert_insert_ne. done.
Qed.

(** The section's other accesses. *)
Lemma overlay_set_len pg v s c : set_t_len c (overlay pg v s) = overlay pg v (set_t_len c s).
Proof. by destruct pg. Qed.

Lemma overlay_set_owned pg v s o : set_t_owned o (overlay pg v s) = overlay pg v (set_t_owned o s).
Proof. by destruct pg. Qed.

Lemma overlay_set_retired_nodes pg v s r :
  set_t_retired_nodes r (overlay pg v s) = overlay pg v (set_t_retired_nodes r s).
Proof. by destruct pg. Qed.

Lemma overlay_set_leaves pg v s x : set_t_leaves x (overlay pg v s) = overlay pg v (set_t_leaves x s).
Proof. by destruct pg. Qed.

Lemma overlay_set_retired_leaves pg v s r :
  set_t_retired_leaves r (overlay pg v s) = overlay pg v (set_t_retired_leaves r s).
Proof. by destruct pg. Qed.

Lemma put_node_twice s n ob1 ob2 : put_node (put_node s n ob1) n ob2 = put_node s n ob2.
Proof. unfold put_node, set_t_nodes; cbn. by rewrite insert_insert_eq. Qed.

Lemma overlay_fields pg v s :
  t_len (overlay pg v s) = t_len s ∧ t_stripe (overlay pg v s) = t_stripe s ∧
  t_leaves (overlay pg v s) = t_leaves s ∧ t_retired_leaves (overlay pg v s) = t_retired_leaves s ∧
  t_owned (overlay pg v s) = t_owned s ∧ t_retired_nodes (overlay pg v s) = t_retired_nodes s.
Proof. by destruct pg. Qed.

Lemma put_node_cell c s n ob : put_node (set_t_cell c s) n ob = set_t_cell c (put_node s n ob).
Proof. done. Qed.

Lemma overlay_cell pg v s : t_cell (overlay pg v s) = t_cell s.
Proof. by destruct pg. Qed.

Lemma overlay_set_cell c pg v s : set_t_cell c (overlay pg v s) = overlay pg v (set_t_cell c s).
Proof. by destruct pg. Qed.

#[export] Instance apart_dec pg n : Decision (apart pg n).
Proof. destruct pg; cbn; apply _. Defined.

Lemma guards_linked s B pg v n p a : guards s B pg v n p → ¬ apart pg a → is_Some (B !! a).
Proof.
  intros (_ & _ & G). destruct pg as [|a' w b]; cbn; [tauto|]. intros Ha.
  destruct G as (q & _ & Hq & _). destruct (decide (a = a')) as [->|]; [by eexists|tauto].
Qed.

Lemma guards_apart s B pg v n p : guards s B pg v n p → apart pg n.
Proof. intros (_ & _ & G). destruct pg; [done|]. destruct G as (q & Ha & _). cbn. congruence. Qed.

Lemma guards_put s B pg v n p ob : guards s B pg v n p → guards (put_node s n ob) B pg v n p.
Proof.
  intros (E & Hq & G). split_and!; [done..|]. destruct pg as [w|a w b]; [exact G|].
  destruct G as (q & Ha & H1 & H2 & H3). exists q. split_and!; [done..| |apply H3|apply H3|apply H3].
  etrans; [by apply lookup_insert_ne|done].
Qed.

(** ** Rules *)

Lemma wp_lock_parent {A} parent n p s B m P (k : option ParentGuard → prog L A) (Q : A → RawTree L St → Prop) :
  wf s B m P → B !! n = Some p → parent_ok s B n p parent →
  (∀ pg v, guards s B pg v n p → wp (k (Some pg)) Q (overlay pg (with_word (pv_word v + 1) v) s)) →
  wp (x ← lock_parent parent (NodeAt n); k x) Q s.
Proof.
  intros W Hn [R ->|a q ob b Ha Ho Hq Hok Hc ->] HQ; apply wp_bind; unfold lock_parent.
  - apply wp_bind. eapply wp_root_latch; [apply quiet_lock_turn, W|].
    apply wp_bind, wp_root. cbn [t_root set_t_root_latch]. rewrite R, decide_True by done. apply wp_ret.
    specialize (HQ (GuardRoot {| g_v := t_root_latch s |})
      {| pv_word := t_root_latch s; pv_root := NodeAt n; pv_node := node_new Node4 |}).
    cbn in HQ. rewrite <- R in HQ at 2. destruct s; cbn in *. apply HQ. split_and!; [done|apply W|done..].
  - apply wp_bind, wp_node_ref, wp_bind. eapply wp_lock; [done..|].
    apply wp_bind. eapply wp_node_read; [apply lookup_insert_eq|]. cbn [o_node].
    rewrite Hc, decide_True by done. apply wp_ret.
    apply (HQ (GuardNode a {| g_v := o_latch ob |} b)
      {| pv_word := o_latch ob; pv_root := Null; pv_node := o_node ob |}).
    split_and!; [done..|]. exists q. split_and!; [|done|by destruct ob|done..].
    intros ->. rewrite Hn in Ha. injection Ha as E. apply (f_equal length) in E.
    rewrite !length_app in E. cbn in E. lia.
Qed.

(** The content of the slot after a store of [c]. *)
Definition stored pg (v v' : pview) (c : option raw) : Prop :=
  match pg with
  | GuardRoot _ => v' = {| pv_word := pv_word v; pv_root := default Null c; pv_node := pv_node v |}
  | GuardNode _ _ b =>
    pv_word v' = pv_word v ∧ node_ok (pv_node v') ∧ same_header (pv_node v) (pv_node v') ∧
    ∀ y, find_child (pv_node v') y = if decide (y = b) then c else find_child (pv_node v) y
  end.

Lemma wp_publish pg v n p c s s0 B (Q : unit → RawTree L St → Prop) :
  guards s0 B pg v n p → c ≠ Null →
  (∀ v', stored pg v v' (Some c) → Q tt (overlay pg (with_word (pv_word v + 1) v') s)) →
  wp (publish_in_parent pg c) Q (overlay pg (with_word (pv_word v + 1) v) s).
Proof.
  intros (Ew & Hq & G) Hc HQ. destruct pg as [w|a w b]; cbn [publish_in_parent].
  - apply wp_root_write; [by apply quiet_locked|].
    by apply (HQ {| pv_word := pv_word v; pv_root := c; pv_node := pv_node v |}).
  - destruct G as (q & _ & _ & _ & Hok & Hch & _).
    destruct (replace_child_spec _ b _ c Hok Hch Hc) as (nd' & E & Hok' & Hh & F & _).
    eapply wp_node_write; [apply lookup_insert_eq|by apply quiet_locked|exact E|].
    cbn [o_latch]. rewrite overlay_node.
    by apply (HQ {| pv_word := pv_word v; pv_root := pv_root v; pv_node := nd' |}).
Qed.

Lemma wp_unlink pg v n p s s0 B (Q : unit → RawTree L St → Prop) :
  guards s0 B pg v n p →
  (∀ v', stored pg v v' None → Q tt (overlay pg (with_word (pv_word v + 1) v') s)) →
  wp (unlink_in_parent pg) Q (overlay pg (with_word (pv_word v + 1) v) s).
Proof.
  intros (Ew & Hq & G) HQ. destruct pg as [w|a w b]; cbn [unlink_in_parent].
  - apply wp_root_write; [by apply quiet_locked|].
    by apply (HQ {| pv_word := pv_word v; pv_root := Null; pv_node := pv_node v |}).
  - destruct G as (q & _ & _ & _ & Hok & Hch & _).
    destruct (remove_child_spec _ b _ Hok Hch) as (Hok' & Hh & F).
    eapply wp_node_write; [apply lookup_insert_eq|by apply quiet_locked|done|].
    cbn [o_latch]. rewrite overlay_node.
    by apply (HQ {| pv_word := pv_word v; pv_root := pv_root v; pv_node := remove_child (pv_node v) b |}).
Qed.

Lemma wp_pg_drop pg v s (Q : unit → RawTree L St → Prop) :
  Q tt (overlay pg (with_word (drop_guard {| g_v := guard_word pg |}) v) s) →
  wp (pg_drop pg) Q (overlay pg v s).
Proof.
  intros HQ. destruct pg as [[w]|a [w] b]; cbn [pg_drop guard_word g_v] in *.
  - by eapply wp_root_latch.
  - unfold node_drop. eapply wp_node_latch; [apply lookup_insert_eq|done|].
    cbn [o_node]. by rewrite overlay_node.
Qed.

(** What is left of the word after the guard is released. *)
Definition freed pg : Z := drop_guard {| g_v := guard_word pg |}.

Lemma freed_quiet s B pg v n p : guards s B pg v n p → quiet (freed pg).
Proof. intros (E & Hq & _). apply quiet_drop. by rewrite <- E. Qed.

Lemma wp_pg_unlock pg v s (Q : option Z → RawTree L St → Prop) :
  Q (match pg with GuardRoot _ => None | GuardNode _ _ _ => Some (freed pg) end)
    (overlay pg (with_word (freed pg) v) s) →
  wp (pg_unlock pg) Q (overlay pg v s).
Proof.
  intros HQ. destruct pg as [[w]|a [w] b]; cbn [pg_unlock guard_word g_v freed] in *.
  - apply wp_bind. by eapply wp_root_latch.
  - apply wp_bind. unfold node_unlock. eapply wp_node_latch; [apply lookup_insert_eq|done|].
    cbn [o_node]. rewrite overlay_node. by apply wp_ret.
Qed.

(** ** After the section *)

(** The root's latch is free again. *)
Lemma overlay_quiet s pg v w : quiet (t_root_latch s) → quiet w → quiet (t_root_latch (overlay pg (with_word w v) s)).
Proof. by destruct pg. Qed.

(** The slot that the guard protects. *)
Definition guard_slot pg : slot :=
  match pg with GuardRoot _ => SlotRoot | GuardNode a _ b => SlotChild a b end.

Lemma guards_slot_at s B pg v n p : guards s B pg v n p →
  slot_at (t_root s) (nodes_of s) B (guard_slot pg) p false (Some (NodeAt n)).
Proof.
  intros (_ & _ & G). destruct pg as [w|a w b].
  - destruct G as (_ & -> & -> & ->). constructor.
  - destruct G as (q & _ & Ha & Hn & _ & Hc & ->). rewrite <- Hc.
    apply at_child; [done|]. by rewrite lookup_nodes_of, Hn.
Qed.

Lemma overlay_slot_set s s2 B pg v v' n p c w :
  guards s B pg v n p → stored pg v v' c → c ≠ Some Null → t_root s2 = t_root s →
  (∀ a, ¬ apart pg a → t_nodes s2 !! a = t_nodes s !! a) →
  slot_set (t_root s) (nodes_of s2) (guard_slot pg) c
    (t_root (overlay pg (with_word w v') s2)) (nodes_of (overlay pg (with_word w v') s2)).
Proof.
  intros (_ & _ & G) Hst Hcn ER Ha. destruct pg as [u|a u b]; cbn [overlay guard_slot stored] in *.
  - subst v'. cbn. rewrite <- ER. apply set_root_slot. by destruct c as [[]|].
  - destruct Hst as (_ & Hok & (_ & Hpf & Hx) & F). destruct G as (q & _ & _ & Hn & _).
    rewrite nodes_of_put. cbn [o_node pv_node with_word]. change (t_root (put_node s2 a _)) with (t_root s2). rewrite ER.
    eapply set_child_slot; [|unfold pfx; by rewrite Hpf|done|done].
    rewrite lookup_nodes_of, Ha, Hn; [done|]. cbn. tauto.
Qed.

(** The parent is in order again. *)
Lemma overlay_parent_linked s s2 B B' P' pg v v' n p c w m :
  wf s B m P' → guards s B pg v n p → stored pg v v' c → quiet w →
  (∀ a, ¬ apart pg a → a ∈ t_retired_nodes s2 → a ∈ t_retired_nodes s) →
  (∀ a, ¬ apart pg a → is_Some (B !! a) → is_Some (B' !! a)) →
  (c = None → ∀ a, ¬ apart pg a → a ∉ exempt → nonempty (pv_node v')) →
  ∀ a P2, ¬ apart pg a → P2 ⊆ P' → node_status (overlay pg (with_word w v') s2) B' P2 a.
Proof.
  intros W (_ & _ & G) Hst Hw HR HB HNE a P2 Ha HP. destruct pg as [u|a0 u b]; cbn in Ha; [tauto|].
  assert (a = a0) as -> by (destruct (decide (a = a0)); tauto).
  destruct Hst as (_ & Hok & _ & F). destruct G as (q & _ & Hq & Hn & _).
  destruct (wf_nodes _ _ _ _ W a0) as [ob H1 H2 H3 H4 H5 H6 H7| | |]; [|congruence..].
  eapply node_linked with {| o_latch := w; o_node := pv_node v' |}; [apply lookup_insert_eq|by apply HB| | |done..|].
  - change (t_retired_nodes (overlay _ _ s2)) with (t_retired_nodes s2). by intros ?%HR.
  - set_solver.
  - intros Hx. destruct c as [c|]; [|by eapply HNE]. left. exists b. by rewrite F, decide_True.
Qed.

Lemma overlay_parent_status s s2 B B' P' pg v v' n p c w m :
  wf s B m P' → guards s B pg v n p → stored pg v v' c → quiet w →
  t_retired_nodes s2 = t_retired_nodes s ∨ (∃ x, t_retired_nodes s2 = x :: t_retired_nodes s ∧ apart pg x) →
  (∀ a, ¬ apart pg a → is_Some (B !! a) → is_Some (B' !! a)) →
  (c = None → ∀ a, ¬ apart pg a → a ∉ exempt → nonempty (pv_node v')) →
  ∀ a P2, ¬ apart pg a → P2 ⊆ P' → node_status (overlay pg (with_word w v') s2) B' P2 a.
Proof.
  intros W G Hst Hw HR HB HNE. eapply overlay_parent_linked; [done..| |done|done].
  intros a Ha. destruct HR as [->|(x & -> & Hx)]; [done|]. intros [->|?]%elem_of_cons; done.
Qed.
End guard.
