(* ===== verification/Commits.v ===== *)
(** * The commits keep the invariant

    One lemma for each way a commit changes the tree: a leaf is stored in an
    empty slot, takes another's place, or leaves its slot; a chain of new nodes
    takes a leaf's place; a node is split off above, replaced by a copy, or
    unlinked. *)

From S2P Require Import Prelude Bytes Latch Slot Bits Node NodeSpec NodeOps Free Mem Shape Raw Read Inv Commit Update Pool Chain.
Local Open Scope Z_scope.

Section commits.
Context {L St : Type} {LN : LeafNode L} {LL : LeafLaws L} {LY : Layout St} {EX : Exempt}.
Implicit Types (s : RawTree L St) (m : gmap path loc) (B : gmap loc path) (P : gset loc).

(** What every commit keeps in order. *)
Record orderly s s' : Prop := {
  od_root_latch : quiet (t_root_latch s');
  od_len : length (t_len s') = length (t_len s);
  od_stripe : t_stripe s' = t_stripe s;
}.

Lemma live_fits s B m P q x l : wf s B m P → tree_edges s B q x (LeafAt l) →
  ∃ k, live_key s l = Some k ∧ fits q x k ∧ m !! k = Some l.
Proof.
  intros W E. destruct (eo_leaf _ _ _ _ (wf_edges _ _ _ _ W) _ _ _ E) as (k & Hk & F).
  exists k. split_and!; [done..|]. apply (wf_map _ _ _ _ W). eauto.
Qed.

Lemma map_live s B m P k l : wf s B m P → m !! k = Some l → live_key s l = Some k.
Proof. intros W Hk. by apply (wf_map _ _ _ _ W) in Hk as [? _]. Qed.

Lemma map_inj s B m P k k' l : wf s B m P → m !! k = Some l → m !! k' = Some l → k = k'.
Proof. intros W H1 H2. apply (map_live _ _ _ _ _ _ W) in H1, H2. congruence. Qed.

Lemma owned_not_linked s B m P l k : wf s B m P → l ∈ t_owned s → m !! k ≠ Some l.
Proof. intros W Ho. destruct (leaf_status_owned _ _ _ (wf_leaves _ _ _ _ W l) Ho) as (x & _ & _ & ? & _). done. Qed.

(** The edges of a slot are the edges at its path. *)
Lemma slot_edge s B m P sl q0 x0 v0 q x r :
  wf s B m P → slot_at (t_root s) (nodes_of s) B sl q0 x0 v0 →
  tree_edges s B q x r → q = q0 → x = x0 → v0 = Some r.
Proof.
  intros W Hat E -> ->. pose proof (wf_edges _ _ _ _ W) as EO.
  pose proof (slot_set_edges _ _ _ _ _ _ _ _ v0 (t_root s) (nodes_of s) q0 x0 r EO Hat) as X.
  assert (slot_set (t_root s) (nodes_of s) sl v0 (t_root s) (nodes_of s)) as Hset.
  { inversion Hat as [|n p nd b Hp Hn|n p nd Hp Hn]; subst.
    - by apply set_root_slot.
    - rewrite <- (insert_id (nodes_of s) n nd Hn) at 2. apply set_child_slot with nd; [done..|].
      intros y. case_decide; congruence.
    - rewrite <- (insert_id (nodes_of s) n nd Hn) at 2. by apply set_exact_slot with nd. }
  apply (X Hset) in E as [[_ []]|(_ & _ & ?)]; done.
Qed.

(** ** Leaves in slots *)

Section slots.
Context s s' B m P (sl : slot) (q0 : path) (x0 : bool) (v0 v : option raw).
Context (W : wf s B m P) (Hat : slot_at (t_root s) (nodes_of s) B sl q0 x0 v0).
Context (Hset : slot_set (t_root s) (nodes_of s) sl v (t_root s') (nodes_of s')).
Context (HN : ∀ n, node_status s' B P n) (HO : orderly s s').
Context (HR : t_retired_nodes s' = t_retired_nodes s).

Let G (q : path) (x : bool) (r : raw) : Prop := q = q0 ∧ x = x0.
Let A (q : path) (x : bool) (r : raw) : Prop := q = q0 ∧ x = x0 ∧ v = Some r.

Lemma slot_HE q x r : tree_edges s' B q x r ↔ (tree_edges s B q x r ∧ ¬ G q x r) ∨ A q x r.
Proof. exact (slot_set_edges _ _ _ _ _ _ _ _ _ _ _ q x r (wf_edges _ _ _ _ W) Hat Hset). Qed.

(** Stores of leaves move no node. *)
Lemma slot_no_node : (∀ r, v0 = Some r → is_leaf r = true) → ∀ n q, B !! n = Some q → ¬ G q false (NodeAt n).
Proof.
  intros Hl n q Hn [E1 E2].
  pose proof (eo_linked _ _ _ _ (wf_edges _ _ _ _ W) n q Hn) as E.
  by specialize (Hl _ (slot_edge _ _ _ _ _ _ _ _ _ _ _ W Hat E E1 E2)).
Qed.

Lemma wf_slot_insert l k :
  v0 = None → v = Some (LeafAt l) → live_key s l = Some k → l ∈ t_owned s → fits q0 x0 k → m !! k = None →
  leaves_kept s s' l → wf s' B (<[k := l]> m) P.
Proof.
  intros Ev0 Ev Hk Ho Hf Hm HL.
  assert (∀ l', live_key s' l' = live_key s l') as Hlive by (intros l'; apply live_key_kept, HL).
  eapply (wf_update_insert s s' B B m (<[k := l]> m) P P G A W slot_HE) with (l := l) (k := k).
  - intros q x n (_ & _ & E). congruence.
  - intros q x l' (-> & -> & E). assert (l' = l) as -> by congruence. exists k. by rewrite Hlive.
  - done.
  - intros n q Hn. right. split; [done|]. apply slot_no_node; [by rewrite Ev0|done].
  - done.
  - intros l'. eapply leaves_insert; [apply W|done..].
  - rewrite HR. apply W.
  - rewrite (lk_retired _ _ _ HL). apply W.
  - apply HO.
  - rewrite (od_len _ _ HO), (od_stripe _ _ HO). split; [apply W|done].
  - done.
  - done.
  - done.
  - done.
  - exists q0, x0. done.
  - intros q x l' (_ & _ & E). left. congruence.
  - intros l'. right. intros q x E [E1 E2].
    pose proof (slot_edge _ _ _ _ _ _ _ _ _ _ _ W Hat E E1 E2). congruence.
Qed.

(** The slot's leaf [old] gives way to [new], or to nothing. *)
Lemma wf_slot_unlink old x1 k (new : option loc) :
  v0 = Some (LeafAt old) → v = LeafAt <$> new → m !! k = Some old →
  (∀ l, new = Some l → l ∈ t_owned s ∧ live_key s l = Some k ∧ fits q0 x0 k) →
  leaf_unlinked s s' old x1 (t_owned s ∖ from_option singleton ∅ new) →
  wf s' B (match new with Some l => <[k := l]> m | None => delete k m end) P.
Proof.
  intros Ev0 Ev Hm Hnew HL.
  assert (∀ l', live_key s' l' = if decide (l' = old) then None else live_key s l') as Hlive.
  { intros l'. by eapply live_key_unlinked. }
  assert (∀ l, new = Some l → l ≠ old) as Hne.
  { intros l (Ho & _)%Hnew ->. by apply (owned_not_linked _ _ _ _ _ k W) in Ho. }
  eapply (wf_update_unlink s s' B B m (match new with Some l => <[k := l]> m | None => delete k m end)
    P P G A W slot_HE) with (old := old) (k := k) (new := new); try done.
  - intros q x n (_ & _ & E). rewrite Ev in E. by destruct new.
  - intros q x l' (-> & -> & E). rewrite Ev in E. apply fmap_Some in E as (l & En & [= ->]).
    destruct (Hnew _ En) as (_ & Hk & Hf). exists k. rewrite Hlive, decide_False by auto. done.
  - intros n q Hn. right. split; [done|]. apply slot_no_node; [by rewrite Ev0; intros ? [= <-]|done].
  - intros l'. eapply leaves_unlink; [apply W|intros; by eapply map_live|exact Hm|done| |done].
    intros l En. by destruct (Hnew _ En) as (? & ? & _).
  - rewrite HR. apply W.
  - rewrite (lu_retired _ _ _ _ _ HL). apply NoDup_cons. split; [|apply W].
    destruct (leaf_status_live _ _ _ _ (wf_leaves _ _ _ _ W old) Hm (map_live _ _ _ _ _ _ W Hm)) as (? & _ & _ & _ & ? & _).
    done.
  - apply HO.
  - rewrite (od_len _ _ HO), (od_stripe _ _ HO). split; [apply W|done].
  - intros l En. destruct (Hnew _ En) as (? & ? & ?). split_and!; [by apply Hne|done|].
    exists q0, x0. split_and!; [done..|]. by rewrite Ev, En.
  - intros q x E. pose proof (slot_at_edge _ _ _ _ _ _ _ _ Hat Ev0) as E0.
    pose proof (map_live _ _ _ _ _ _ W Hm) as Hk.
    by destruct (leaf_edge_unique _ _ _ _ (wf_edges _ _ _ _ W) _ _ _ _ _ _ k E E0 Hk Hk) as (-> & -> & _).
  - intros q x l' (_ & _ & E). left. rewrite Ev in E. apply fmap_Some in E as (l & En & [= ->]). done.
  - intros l' Hl'. right. intros q x E [E1 E2].
    pose proof (slot_edge _ _ _ _ _ _ _ _ _ _ _ W Hat E E1 E2). congruence.
Qed.
End slots.

(** ** Changes of structure *)

Section structure.
Context s s' B m P P' (sl : slot) (p0 : path) (v0 v : option raw) (r1 : raw) (N1 : gmap loc (node raw)).
Context (W : wf s B m P) (Hat : slot_at (t_root s) (nodes_of s) B sl p0 false v0).
Context (Hset : slot_set (t_root s) (nodes_of s) sl v r1 N1).
Context (ER : t_root s' = r1) (HO : orderly s s').

Let Slot (q : path) (x : bool) (r : raw) : Prop := q = p0 ∧ x = false.

Lemma structure_slot q x r :
  edges r1 N1 B q x r ↔ (tree_edges s B q x r ∧ ¬ Slot q x r) ∨ (q = p0 ∧ x = false ∧ v = Some r).
Proof. exact (slot_set_edges _ _ _ _ _ _ _ _ _ _ _ q x r (wf_edges _ _ _ _ W) Hat Hset). Qed.

(** A chain takes the place of the leaf [old], and holds it and [l]. *)
Lemma wf_chain top BN (E : path → bool → raw → Prop) old l k :
  v0 = Some (LeafAt old) → v = Some top → subtree (nodes_of s') top p0 BN E →
  (∀ n, is_Some (B !! n) → nodes_of s' !! n = N1 !! n) → BN ##ₘ B →
  (∀ q x r, E q x r → (r = LeafAt old ∨ r = LeafAt l) ∧ ∀ k', (∃ l', r = LeafAt l' ∧ live_key s l' = Some k') → fits q x k') →
  (∃ q x, E q x (LeafAt old)) → (∃ q x, E q x (LeafAt l)) →
  live_key s l = Some k → l ∈ t_owned s → m !! k = None → leaves_kept s s' l →
  t_retired_nodes s' = t_retired_nodes s →
  (∀ n, node_status s' (BN ∪ B) P' n) →
  wf s' (BN ∪ B) (<[k := l]> m) P'.
Proof.
  intros Ev0 Ev HT HN HD HE Hold Hl Hk Ho Hm HL HRn HNs.
  assert (∀ l', live_key s' l' = live_key s l') as Hlive by (intros l'; apply live_key_kept, HL).
  pose proof (slot_at_edge _ _ _ _ _ _ _ _ Hat Ev0) as Eold.
  destruct (live_fits _ _ _ _ _ _ _ W Eold) as (ko & Hko & _ & Hmo).
  set (A := λ (q : path) (x : bool) (r : raw), (x = false ∧ ∃ n, r = NodeAt n ∧ BN !! n = Some q) ∨ E q x r).
  assert (∀ q x r, tree_edges s' (BN ∪ B) q x r ↔ (tree_edges s B q x r ∧ ¬ Slot q x r) ∨ A q x r) as HEd.
  { intros q x r. assert (tree_edges s' (BN ∪ B) q x r ↔ edges r1 N1 B q x r ∨
      ∃ n p nd, BN !! n = Some p ∧ nodes_of s' !! n = Some nd ∧ node_edges (p ++ pfx nd) nd q x r) as ->.
    { rewrite <- (edges_ext r1 N1 (nodes_of s') B) by done. unfold tree_edges, edges. rewrite ER.
      setoid_rewrite (lookup_union_Some BN B); [|done]. naive_solver. }
    rewrite structure_slot, (sub_edges _ _ _ _ _ HT), Ev. unfold A.
    destruct (sub_top _ _ _ _ _ HT) as (n0 & -> & Hn0). split.
    - intros [[?|(-> & -> & [= <-])]|[(-> & n & -> & Hn & _)|?]]; [by left|right; left; eauto..|right; by right].
    - intros [?|[(-> & n & -> & Hn)|?]]; [by left; left| |right; by right].
      destruct (decide (n = n0)) as [->|]; [left; right; by simplify_eq|right; left].
      split; [done|]. exists n. split_and!; [done..|congruence]. }
  eapply (wf_update_insert s s' B (BN ∪ B) m (<[k := l]> m) P P' Slot A W HEd) with (l := l) (k := k);
    try done.
  - intros q x n [(-> & n' & [= <-] & Hn)|[[?|?] _]%HE]; [|done..]. split; [done|].
    rewrite lookup_union_Some by done. by left.
  - intros q x l' [(_ & n & ? & _)|X]; [done|]. destruct (HE _ _ _ X) as [[[= ->]|[= ->]] F];
      [exists ko|exists k]; rewrite Hlive; eauto.
  - intros n q Hn _. rewrite lookup_union_Some by done. by right.
  - intros n q Hn. rewrite lookup_union_Some in Hn by done. destruct Hn as [Hn|Hn]; [left; left; eauto|right].
    split; [done|]. intros [-> _]. pose proof (eo_linked _ _ _ _ (wf_edges _ _ _ _ W) n _ Hn) as En.
    pose proof (slot_edge _ _ _ _ _ _ _ _ _ _ _ W Hat En eq_refl eq_refl). congruence.
  - intros l'. eapply leaves_insert; [apply W|done..].
  - rewrite HRn. apply W.
  - rewrite (lk_retired _ _ _ HL). apply W.
  - apply HO.
  - rewrite (od_len _ _ HO), (od_stripe _ _ HO). split; [apply W|done].
  - destruct Hl as (q & x & X). exists q, x. by right.
  - intros q x l' [(_ & n & ? & _)|X]; [done|]. destruct (HE _ _ _ X) as [[[= ->]|[= ->]] _]; eauto.
  - intros l'. destruct (decide (l' = old)) as [->|Hne].
    + left. destruct Hold as (q & x & X). exists q, x. by right.
    + right. intros q x El [E1 E2].
      pose proof (slot_edge _ _ _ _ _ _ _ _ _ _ _ W Hat El E1 E2). congruence.
Qed.

(** The one leaf edge of a commit that links [l]. *)
Definition leaf_edge (l : loc) (ql : path) (xl : bool) (q : path) (x : bool) (r : raw) : Prop :=
  r = LeafAt l ∧ q = ql ∧ x = xl.

(** A node [g] is put above the node [n], whose prefix it takes a part of. *)
Lemma wf_split n g b nd nd' ndg l ql xl k c1 c2 :
  v0 = Some (NodeAt n) → v = Some (NodeAt g) → N1 !! n = Some nd → pfx nd = c1 ++ b :: c2 →
  B !! n = Some p0 → B !! g = None →
  nodes_of s' !! n = Some nd' → pfx nd' = c2 → exact_leaf nd' = exact_leaf nd →
  (∀ y, find_child nd' y = find_child nd y) →
  nodes_of s' !! g = Some ndg → pfx ndg = c1 →
  (∀ q x r, node_edges (p0 ++ c1) ndg q x r ↔
     (q = p0 ++ c1 ++ [b] ∧ x = false ∧ r = NodeAt n) ∨ leaf_edge l ql xl q x r) →
  (∀ a, a ≠ n → a ≠ g → is_Some (B !! a) → nodes_of s' !! a = N1 !! a) →
  live_key s l = Some k → fits ql xl k → l ∈ t_owned s → m !! k = None → leaves_kept s s' l →
  t_retired_nodes s' = t_retired_nodes s →
  (∀ a, node_status s' (<[g := p0]> (<[n := p0 ++ c1 ++ [b]]> B)) P' a) →
  wf s' (<[g := p0]> (<[n := p0 ++ c1 ++ [b]]> B)) (<[k := l]> m) P'.
Proof.
  intros Ev0 Ev Hn Epf HBn HBg Hn' Epf' Ex Ec Hg Epg Eg HN Hk Hf Ho Hm HL HRn HNs.
  set (q1 := p0 ++ c1 ++ [b]) in *. set (B' := <[g := p0]> (<[n := q1]> B)) in *.
  assert (g ≠ n) as Hgn by congruence.
  assert (q1 ≠ p0) as Hq1.
  { intros E%(f_equal length). unfold q1 in E. rewrite !length_app in E. cbn in E. lia. }
  assert (∀ l', live_key s' l' = live_key s l') as Hlive by (intros l'; apply live_key_kept, HL).
  set (A := λ (q : path) (x : bool) (r : raw),
    (q = p0 ∧ x = false ∧ r = NodeAt g) ∨ (q = q1 ∧ x = false ∧ r = NodeAt n) ∨ leaf_edge l ql xl q x r).
  assert (∀ q x r, tree_edges s' B' q x r ↔ (tree_edges s B q x r ∧ ¬ Slot q x r) ∨ A q x r) as HEd.
  { intros q x r. unfold tree_edges at 1. rewrite ER. unfold B'.
    rewrite (edges_add r1 (nodes_of s') _ g p0 ndg) by (done || by rewrite lookup_insert_ne).
    rewrite Epg, Eg, (edges_ext r1 (<[n := nd']> N1) (nodes_of s') (<[n := q1]> B)).
    2: { intros a [p [[<- _]|[Hne Ha]]%lookup_insert_Some]; [by rewrite lookup_insert_eq|].
         rewrite lookup_insert_ne by done. apply HN; [done| |by eexists]. congruence. }
    rewrite (edges_rebase r1 N1 B n p0 q1 nd nd'); [|done..| |done|done].
    2: { unfold q1. rewrite Epf', Epf, <- !(assoc_L (++)). done. }
    rewrite structure_slot, Ev. unfold A. naive_solver. }
  eapply (wf_update_insert s s' B B' m (<[k := l]> m) P P' Slot A W HEd) with (l := l) (k := k); try done.
  - intros q x a [(-> & -> & [= ->])|[(-> & -> & [= ->])|(? & _)]]; [..|done]; split; try done; unfold B'.
    + by rewrite lookup_insert_eq.
    + by rewrite lookup_insert_ne, lookup_insert_eq by done.
  - intros q x l' [(_ & _ & ?)|[(_ & _ & ?)|([= ->] & -> & ->)]]; [done..|]. exists k. by rewrite Hlive.
  - intros a q Ha NS. unfold B'. rewrite !lookup_insert_ne; [done|..].
    + intros <-. apply NS. split; [congruence|done].
    + congruence.
  - unfold B'. intros a q [[<- <-]|[Hne [[<- <-]|[Hne' Ha]]%lookup_insert_Some]]%lookup_insert_Some.
    + left. left. done.
    + left. right. left. done.
    + right. split; [done|]. intros [-> _]. apply Hne'.
      by apply (paths_determine_nodes _ _ _ _ (wf_edges _ _ _ _ W) n a p0).
  - intros l'. eapply leaves_insert; [apply W|done..].
  - rewrite HRn. apply W.
  - rewrite (lk_retired _ _ _ HL). apply W.
  - apply HO.
  - rewrite (od_len _ _ HO), (od_stripe _ _ HO). split; [apply W|done].
  - exists ql, xl. right. right. done.
  - intros q x l' [(_ & _ & ?)|[(_ & _ & ?)|([= ->] & _)]]; [done..|]. by left.
  - intros l'. right. intros q x El [E1 E2].
    pose proof (slot_edge _ _ _ _ _ _ _ _ _ _ _ W Hat El E1 E2). congruence.
Qed.

(** ** A copy takes a node's place *)

Section copy.
Context (n g : loc) (nd ndg : node raw) (E : path → bool → raw → Prop).
Context (Ev0 : v0 = Some (NodeAt n)) (Ev : v = Some (NodeAt g)).
Context (Hn : N1 !! n = Some nd) (HBn : B !! n = Some p0) (HBg : B !! g = None).
Context (Hg : nodes_of s' !! g = Some ndg) (Epg : pfx ndg = pfx nd).
Context (Eg : ∀ q x r, node_edges (p0 ++ pfx nd) ndg q x r ↔ node_edges (p0 ++ pfx nd) nd q x r ∨ E q x r).
Context (HN : ∀ a, a ≠ n → a ≠ g → is_Some (B !! a) → nodes_of s' !! a = N1 !! a).

Let A (q : path) (x : bool) (r : raw) : Prop := (q = p0 ∧ x = false ∧ r = NodeAt g) ∨ E q x r.
Let B' : gmap loc path := <[g := p0]> (delete n B).

Lemma copy_HE q x r : tree_edges s' B' q x r ↔ (tree_edges s B q x r ∧ ¬ Slot q x r) ∨ A q x r.
Proof.
  assert (g ≠ n) as Hgn by congruence.
  unfold tree_edges at 1. rewrite ER. unfold B'.
  rewrite (edges_add r1 (nodes_of s') _ g p0 ndg) by (done || by rewrite lookup_delete_ne).
  rewrite Epg, Eg, (edges_ext r1 N1 (nodes_of s') (delete n B)).
  2: { intros a [p [Hne Ha]%lookup_delete_Some]. apply HN; [done|congruence|by eexists]. }
  rewrite (or_assoc _ _ (E q x r)), <- (edges_split r1 N1 B n p0 nd) by done.
  rewrite structure_slot, Ev. unfold A. naive_solver.
Qed.

Lemma copy_keep a q : B !! a = Some q → ¬ Slot q false (NodeAt a) → B' !! a = Some q.
Proof.
  intros Ha NS. unfold B'. rewrite lookup_insert_ne, lookup_delete_ne; [done| |congruence].
  intros <-. apply NS. split; [congruence|done].
Qed.

Lemma copy_back a q : B' !! a = Some q → A q false (NodeAt a) ∨ (B !! a = Some q ∧ ¬ Slot q false (NodeAt a)).
Proof.
  unfold B'. intros [[<- <-]|[Hne [Hne' Ha]%lookup_delete_Some]]%lookup_insert_Some; [left; left; done|].
  right. split; [done|]. intros [-> _]. apply Hne'.
  by apply (paths_determine_nodes _ _ _ _ (wf_edges _ _ _ _ W) n a p0).
Qed.

Context (HNs : ∀ a, node_status s' B' P' a) (HRn : NoDup (t_retired_nodes s')).

(** Growth: the copy holds one more leaf. *)
Lemma wf_copy_insert l ql xl k :
  (∀ q x r, E q x r ↔ leaf_edge l ql xl q x r) →
  live_key s l = Some k → fits ql xl k → l ∈ t_owned s → m !! k = None → leaves_kept s s' l →
  wf s' B' (<[k := l]> m) P'.
Proof.
  intros HE Hk Hf Ho Hm HL.
  assert (∀ l', live_key s' l' = live_key s l') as Hlive by (intros l'; apply live_key_kept, HL).
  eapply (wf_update_insert s s' B B' m (<[k := l]> m) P P' Slot A W copy_HE) with (l := l) (k := k); try done.
  - intros q x a [(-> & -> & [= ->])|(? & _)%HE]; [|done]. split; [done|]. apply lookup_insert_eq.
  - intros q x l' [(_ & _ & ?)|([= ->] & -> & ->)%HE]; [done..|]. exists k. by rewrite Hlive.
  - intros a q Ha NS. by apply copy_keep.
  - apply copy_back.
  - intros l'. eapply leaves_insert; [apply W|done..].
  - rewrite (lk_retired _ _ _ HL). apply W.
  - apply HO.
  - rewrite (od_len _ _ HO), (od_stripe _ _ HO). split; [apply W|done].
  - exists ql, xl. right. by apply HE.
  - intros q x l' [(_ & _ & ?)|([= ->] & _)%HE]; [done..|]. by left.
  - intros l'. right. intros q x El [E1 E2].
    pose proof (slot_edge _ _ _ _ _ _ _ _ _ _ _ W Hat El E1 E2). congruence.
Qed.

(** Shrinking: the copy holds the same. *)
Lemma wf_copy_same :
  (∀ q x r, ¬ E q x r) → t_leaves s' = t_leaves s → t_retired_leaves s' = t_retired_leaves s →
  (∀ l, leaf_status s' m l) → wf s' B' m P'.
Proof.
  intros HE EL ERl HLs.
  assert (∀ l', live_key s' l' = live_key s l') as Hlive by (intros l'; by apply live_key_kept).
  eapply (wf_update_move s s' B B' m m P P' Slot A W copy_HE); try done.
  - intros q x a [(-> & -> & [= ->])|?%HE]; [|done]. split; [done|]. apply lookup_insert_eq.
  - intros q x l' [(_ & _ & ?)|?%HE]; done.
  - intros a q Ha NS. by apply copy_keep.
  - apply copy_back.
  - rewrite ERl. apply W.
  - apply HO.
  - rewrite (od_len _ _ HO), (od_stripe _ _ HO). split; [apply W|done].
  - intros q x l' [(_ & _ & ?)|?%HE]; done.
  - intros l'. right. intros q x El [E1 E2].
    pose proof (slot_edge _ _ _ _ _ _ _ _ _ _ _ W Hat El E1 E2). congruence.
Qed.
End copy.

(** ** A node without inner children leaves its slot *)

Section unlink.
Context (n : loc) (nd : node raw).
Context (Ev0 : v0 = Some (NodeAt n)) (Ev : v = None).
Context (Hn : N1 !! n = Some nd) (HBn : B !! n = Some p0).
Context (HN : ∀ a, a ≠ n → is_Some (B !! a) → nodes_of s' !! a = N1 !! a).
Context (HNs : ∀ a, node_status s' (delete n B) P' a) (HRn : NoDup (t_retired_nodes s')).
Context (Hinner : ∀ q x a, ¬ node_edges (p0 ++ pfx nd) nd q x (NodeAt a)).

Let G (q : path) (x : bool) (r : raw) : Prop := Slot q x r ∨ node_edges (p0 ++ pfx nd) nd q x r.
Let A (q : path) (x : bool) (r : raw) : Prop := False.

Lemma unlink_HE q x r : tree_edges s' (delete n B) q x r ↔ (tree_edges s B q x r ∧ ¬ G q x r) ∨ A q x r.
Proof.
  unfold tree_edges at 1. rewrite ER, (edges_ext r1 N1 (nodes_of s') (delete n B)).
  2: { intros a [p [Hne Ha]%lookup_delete_Some]. apply HN; [done|by eexists]. }
  rewrite (edges_delete _ _ _ _ _ _ _ _ n p0 nd q x r (wf_edges _ _ _ _ W) Hset HBn Hn).
  rewrite structure_slot, Ev. unfold G, A. naive_solver.
Qed.

Lemma unlink_keep a q : B !! a = Some q → ¬ G q false (NodeAt a) → delete n B !! a = Some q.
Proof.
  intros Ha NG. rewrite lookup_delete_ne; [done|]. intros <-. apply NG. left. split; [congruence|done].
Qed.

Lemma unlink_back a q : delete n B !! a = Some q → A q false (NodeAt a) ∨ (B !! a = Some q ∧ ¬ G q false (NodeAt a)).
Proof.
  intros [Hne Ha]%lookup_delete_Some. right. split; [done|]. intros [[-> _]|E].
  - apply Hne. by apply (paths_determine_nodes _ _ _ _ (wf_edges _ _ _ _ W) n a p0).
  - by apply Hinner in E.
Qed.

Lemma unlink_not_slot q x l : tree_edges s B q x (LeafAt l) → ¬ Slot q x (LeafAt l).
Proof.
  intros El [E1 E2]. pose proof (slot_edge _ _ _ _ _ _ _ _ _ _ _ W Hat El E1 E2). congruence.
Qed.

(** With its last leaf. *)
Lemma wf_unlink_last old x1 k :
  m !! k = Some old → (∃ q x, node_edges (p0 ++ pfx nd) nd q x (LeafAt old)) →
  (∀ q x l, node_edges (p0 ++ pfx nd) nd q x (LeafAt l) → l = old) →
  leaf_unlinked s s' old x1 (t_owned s) → wf s' (delete n B) (delete k m) P'.
Proof.
  intros Hm (q0 & x0 & Hold) Honly HL.
  assert (∀ l', live_key s' l' = if decide (l' = old) then None else live_key s l') as Hlive.
  { intros l'. by eapply live_key_unlinked. }
  pose proof (map_live _ _ _ _ _ _ W Hm) as Hk.
  eapply (wf_update_unlink s s' B (delete n B) m (delete k m) P P' G A W unlink_HE) with (old := old) (k := k) (new := None); try done.
  - intros a q Ha NG. by apply unlink_keep.
  - apply unlink_back.
  - intros l'. eapply (leaves_unlink _ _ _ _ _ _ _ None); [apply W|intros; by eapply map_live|exact Hm| |done|done].
    destruct HL as [? ? ? ? HL]. split; [done..|]. rewrite HL. cbn. set_solver.
  - rewrite (lu_retired _ _ _ _ _ HL). apply NoDup_cons. split; [|apply W].
    destruct (leaf_status_live _ _ _ _ (wf_leaves _ _ _ _ W old) Hm Hk) as (? & _ & _ & _ & ? & _). done.
  - apply HO.
  - rewrite (od_len _ _ HO), (od_stripe _ _ HO). split; [apply W|done].
  - intros q x El. right. destruct (proj1 (wf_map _ _ _ _ W k old) Hm) as (_ & q1 & x3 & E1).
    destruct (slot_set_pfx _ _ _ _ _ _ _ _ Hset Hn) as (nd0 & Hn0 & Epf).
    assert (tree_edges s B q0 x0 (LeafAt old)) as E0.
    { assert (edges r1 N1 B q0 x0 (LeafAt old)) as E by (right; eauto 10).
      apply structure_slot in E as [[E _]|(_ & _ & E)]; [done|congruence]. }
    by destruct (leaf_edge_unique _ _ _ _ (wf_edges _ _ _ _ W) _ _ _ _ _ _ k El E0 Hk Hk) as (-> & -> & _).
  - intros l' Hne. right. intros q x El [NS|E].
    + by eapply unlink_not_slot.
    + by apply Honly in E.
Qed.

(** Without any entry. *)
Lemma wf_unlink_empty :
  (∀ q x l, ¬ node_edges (p0 ++ pfx nd) nd q x (LeafAt l)) →
  t_leaves s' = t_leaves s → t_retired_leaves s' = t_retired_leaves s → (∀ l, leaf_status s' m l) →
  wf s' (delete n B) m P'.
Proof.
  intros Hnone EL ERl HLs.
  eapply (wf_update_move s s' B (delete n B) m m P P' G A W unlink_HE); try done.
  - intros a q Ha NG. by apply unlink_keep.
  - apply unlink_back.
  - rewrite ERl. apply W.
  - apply HO.
  - rewrite (od_len _ _ HO), (od_stripe _ _ HO). split; [apply W|done].
  - intros l'. by apply live_key_kept.
  - intros l'. right. intros q x El [NS|E]; [by eapply unlink_not_slot|by apply Hnone in E].
Qed.
End unlink.

(** ** A leaf takes the place of its node *)

Lemma wf_lift_leaf n nd l q0 x0 :
  v0 = Some (NodeAt n) → v = Some (LeafAt l) → N1 !! n = Some nd → B !! n = Some p0 →
  (∀ a, a ≠ n → is_Some (B !! a) → nodes_of s' !! a = N1 !! a) →
  (∀ a, node_status s' (delete n B) P' a) → NoDup (t_retired_nodes s') →
  (∀ q x r, node_edges (p0 ++ pfx nd) nd q x r ↔ q = q0 ∧ x = x0 ∧ r = LeafAt l) →
  t_leaves s' = t_leaves s → t_retired_leaves s' = t_retired_leaves s → (∀ l, leaf_status s' m l) →
  wf s' (delete n B) m P'.
Proof.
  intros Ev0 Ev Hn HBn HN HNs HRn Hedge EL ERl HLs.
  set (G := λ q x r, Slot q x r ∨ node_edges (p0 ++ pfx nd) nd q x r).
  set (A := λ (q : path) (x : bool) (r : raw), q = p0 ∧ x = false ∧ r = LeafAt l).
  assert (∀ l', live_key s' l' = live_key s l') as Hlive by (intros l'; by apply live_key_kept).
  destruct (slot_set_pfx _ _ _ _ _ _ _ _ Hset Hn) as (nd0 & Hn0 & Epf).
  assert (node_edges (p0 ++ pfx nd) nd q0 x0 (LeafAt l)) as E0 by by apply Hedge.
  assert (¬ (q0 = p0 ∧ x0 = false)) as Hfar.
  { intros [-> ->]. apply node_edges_slot_path in E0 as [z E]. apply (f_equal length) in E.
    rewrite !length_app in E. cbn in E. lia. }
  assert (tree_edges s B q0 x0 (LeafAt l)) as El.
  { assert (edges r1 N1 B q0 x0 (LeafAt l)) as E by (right; eauto 10).
    apply structure_slot in E as [[E _]|(E1 & E2 & E)]; [done|tauto]. }
  destruct (live_fits _ _ _ _ _ _ _ W El) as (k & Hk & F & Hmk).
  assert (fits p0 false k) as F0.
  { cbn.
    destruct x0; cbn in F; [subst k|]; apply node_edges_slot_path in E0; cbn in E0.
    - rewrite E0. rewrite <- (app_nil_r p0) at 1. apply prefix_app, prefix_nil.
    - destruct E0 as [z ->]. etrans; [|exact F]. rewrite <- (assoc_L (++)). by eexists. }
  eapply (wf_update_move s s' B (delete n B) m m P P' G A W); try done.
  - intros q x r. unfold tree_edges at 1. rewrite ER, (edges_ext r1 N1 (nodes_of s') (delete n B)).
    2: { intros a [p [Hne Ha]%lookup_delete_Some]. apply HN; [done|by eexists]. }
    rewrite (edges_delete _ _ _ _ _ _ _ _ n p0 nd q x r (wf_edges _ _ _ _ W) Hset HBn Hn).
    rewrite structure_slot, Ev. unfold G, A. rewrite Hedge. split; [naive_solver|].
    intros [?|(-> & -> & ->)]; [naive_solver|]. split; [by right|]. intros (-> & <- & _). tauto.
  - intros q x a (_ & _ & ?). done.
  - intros q x l' (-> & -> & [= ->]). exists k. by rewrite Hlive.
  - intros a q Ha NG. rewrite lookup_delete_ne; [done|]. intros <-. apply NG. left. split; [congruence|done].
  - intros a q [Hne Ha]%lookup_delete_Some. right. split; [done|]. intros [[-> _]|E].
    + apply Hne. by apply (paths_determine_nodes _ _ _ _ (wf_edges _ _ _ _ W) n a p0).
    + by apply Hedge in E as (_ & _ & ?).
  - rewrite ERl. apply W.
  - apply HO.
  - rewrite (od_len _ _ HO), (od_stripe _ _ HO). split; [apply W|done].
  - intros q x l' (_ & _ & [= ->]). eauto.
  - intros l'. destruct (decide (l' = l)) as [->|Hne]; [left; by exists p0, false|right].
    intros q x El' [NS|E].
    + destruct NS as [E1 E2]. pose proof (slot_edge _ _ _ _ _ _ _ _ _ _ _ W Hat El' E1 E2). congruence.
    + apply Hedge in E as (_ & _ & [= ->]). done.
Qed.
(** ** A node is merged with its only child *)

Lemma wf_merge n c g b nd ndc ndg pc :
  v0 = Some (NodeAt n) → v = Some (NodeAt g) → N1 !! n = Some nd → B !! n = Some p0 →
  N1 !! c = Some ndc → B !! c = Some pc → B !! g = None →
  (∀ q x r, node_edges (p0 ++ pfx nd) nd q x r ↔ q = p0 ++ pfx nd ++ [b] ∧ x = false ∧ r = NodeAt c) →
  nodes_of s' !! g = Some ndg → pfx ndg = pfx nd ++ b :: pfx ndc →
  exact_leaf ndg = exact_leaf ndc → (∀ y, find_child ndg y = find_child ndc y) →
  (∀ a, a ≠ n → a ≠ c → a ≠ g → is_Some (B !! a) → nodes_of s' !! a = N1 !! a) →
  (∀ a, node_status s' (<[g := p0]> (delete c (delete n B))) P' a) → NoDup (t_retired_nodes s') →
  t_leaves s' = t_leaves s → t_retired_leaves s' = t_retired_leaves s → (∀ l, leaf_status s' m l) →
  wf s' (<[g := p0]> (delete c (delete n B))) m P'.
Proof.
  intros Ev0 Ev Hn HBn Hc HBc HBg Hedge Hg Epg Exg Ecg HN HNs HRn EL ERl HLs.
  set (B' := <[g := p0]> (delete c (delete n B))) in *. set (p1 := p0 ++ pfx nd ++ [b]) in *.
  set (G := λ q x r, Slot q x r ∨ node_edges (p0 ++ pfx nd) nd q x r).
  set (A := λ (q : path) (x : bool) (r : raw), q = p0 ∧ x = false ∧ r = NodeAt g).
  assert (p1 ≠ p0) as Hp1.
  { intros E%(f_equal length). unfold p1 in E. rewrite !length_app in E. cbn in E. lia. }
  assert (tree_edges s B p1 false (NodeAt c)) as Ec.
  { assert (edges r1 N1 B p1 false (NodeAt c)) as E by (right; exists n, p0, nd; split_and!; [done..|by apply Hedge]).
    apply structure_slot in E as [[E _]|(E1 & E2 & E)]; [done|congruence]. }
  destruct (eo_node _ _ _ _ (wf_edges _ _ _ _ W) _ _ _ Ec) as [_ HBc']. assert (pc = p1) as -> by congruence. clear HBc'.
  assert (c ≠ n) as Hcn by congruence. assert (g ≠ n ∧ g ≠ c) as [Hgn Hgc] by (split; congruence).
  assert (∀ l', live_key s' l' = live_key s l') as Hlive by (intros l'; by apply live_key_kept).
  assert (∀ q x r, tree_edges s' B' q x r ↔ (tree_edges s B q x r ∧ ¬ G q x r) ∨ A q x r) as HEd.
  { intros q x r. unfold tree_edges at 1. rewrite ER. unfold B'.
    rewrite (edges_add r1 (nodes_of s') _ g p0 ndg) by (rewrite ?lookup_delete_ne; done).
    rewrite (edges_ext r1 N1 (nodes_of s')).
    2: { intros a [p [Hac [Han Ha]%lookup_delete_Some]%lookup_delete_Some]. apply HN; [done..| |by eexists]. congruence. }
    assert (node_edges (p0 ++ pfx ndg) ndg q x r ↔ node_edges (p1 ++ pfx ndc) ndc q x r) as ->.
    { replace (p0 ++ pfx ndg) with (p1 ++ pfx ndc) by (unfold p1; rewrite Epg, <- !(assoc_L (++)); done).
      unfold node_edges. rewrite Exg. by setoid_rewrite Ecg. }
    rewrite <- (edges_split r1 N1 (delete n B) c p1 ndc) by (done || by rewrite lookup_delete_ne).
    rewrite (edges_delete _ _ _ _ _ _ _ _ n p0 nd q x r (wf_edges _ _ _ _ W) Hset HBn Hn).
    rewrite structure_slot, Ev. unfold G, A. rewrite Hedge. split; [naive_solver|].
    intros [?|(-> & -> & ->)]; [naive_solver|]. split; [by right|]. intros (? & _ & _). congruence. }
  eapply (wf_update_move s s' B B' m m P P' G A W HEd); try done.
  - intros q x a (-> & -> & [= ->]). split; [done|]. apply lookup_insert_eq.
  - intros q x l' (_ & _ & ?). done.
  - intros a q Ha NG. unfold B'. rewrite lookup_insert_ne, !lookup_delete_ne; [done|..|congruence].
    + intros <-. apply NG. left. split; [congruence|done].
    + intros <-. apply NG. right. apply Hedge. split_and!; [congruence|done..].
  - unfold B'. intros a q [[<- <-]|[Hne [Hac [Han Ha]%lookup_delete_Some]%lookup_delete_Some]]%lookup_insert_Some; [by left|].
    right. split; [done|]. intros [[-> _]|(_ & _ & ?)%Hedge]; [|congruence]. apply Han.
    by apply (paths_determine_nodes _ _ _ _ (wf_edges _ _ _ _ W) n a p0).
  - rewrite ERl. apply W.
  - apply HO.
  - rewrite (od_len _ _ HO), (od_stripe _ _ HO). split; [apply W|done].
  - intros q x l' (_ & _ & ?). done.
  - intros l'. right. intros q x El [[E1 E2]|(_ & _ & ?)%Hedge]; [|done].
    pose proof (slot_edge _ _ _ _ _ _ _ _ _ _ _ W Hat El E1 E2). congruence.
Qed.
End structure.
End commits.
