(* ===== verification/Order.v ===== *)
(** * The tree in key order

    [visit] lists what hangs below a slot: every node before what it holds, its
    exact leaf before its children, and these in byte order. It lists each
    linked node and each leaf once ([visit_NoDup], [visit_complete]), in
    the lexicographic order of their paths and keys ([visit_sorted]). It is
    the reference for the walks and the iterators, and bounds their fuel. *)

From stdpp Require Import sorting.
From S2P Require Import Prelude Bytes Slot Bits Node NodeSpec NodeOps Free Mem Shape Raw Read Inv Commit Update Pool Chain Commits.

#[local] Opaque all_bytes children_list child_count.

(** ** Lists *)

Lemma bind_sorted {A B} (R : relation B) (f : A → list B) l :
  (∀ x, x ∈ l → StronglySorted R (f x)) →
  StronglySorted (λ x y, ∀ a b, a ∈ f x → b ∈ f y → R a b) l →
  StronglySorted R (l ≫= f).
Proof.
  induction l as [|x l IH]; intros Hf Hs; [constructor|].
  apply StronglySorted_cons in Hs as [Hx Hs]. rewrite bind_cons. apply StronglySorted_app_2.
  - intros a b Ha (y & Hb & Hy)%list_elem_of_bind. rewrite Forall_forall in Hx. by apply (Hx y).
  - apply Hf. set_solver.
  - apply IH; [|done]. intros y Hy. apply Hf. set_solver.
Qed.

Lemma StronglySorted_fmap_in {A B} (R : relation A) (R' : relation B) (f : A → B) l :
  (∀ x y, x ∈ l → y ∈ l → R x y → R' (f x) (f y)) → StronglySorted R l → StronglySorted R' (f <$> l).
Proof.
  induction l as [|x l IH]; intros Hf Hs; [constructor|]. apply StronglySorted_cons in Hs as [Hx Hs].
  rewrite fmap_cons. apply StronglySorted_cons. split; [|apply IH; [|done]; set_solver].
  rewrite Forall_forall in Hx. apply Forall_forall. intros y' (y & -> & Hy)%list_elem_of_fmap.
  apply Hf; [set_solver..|by apply Hx].
Qed.

Lemma StronglySorted_NoDup {A} (R : relation A) l : (∀ x, ¬ R x x) → StronglySorted R l → NoDup l.
Proof.
  intros HR. induction 1 as [|x l _ IH Hx]; constructor; [|done].
  rewrite Forall_forall in Hx. intros Hin%Hx. by apply (HR x).
Qed.

Lemma list_bind_in_ext {A B} (f g : A → list B) l : (∀ x, x ∈ l → f x = g x) → l ≫= f = l ≫= g.
Proof.
  induction l as [|x l IH]; intros E; [done|]. rewrite !bind_cons, (E x) by set_solver. f_equal. apply IH.
  set_solver.
Qed.

(** ** What hangs below a slot *)

Definition slots (nd : node raw) : list raw := exact_leaf nd :: (for_each_child nd).*2.

Fixpoint visit_from (N : gmap loc (node raw)) (fuel : nat) (r : raw) : list raw :=
  match r with
  | Null => []
  | LeafAt l => [LeafAt l]
  | NodeAt n =>
    match fuel with
    | O => []
    | S fuel => NodeAt n :: (if N !! n is Some nd then slots nd ≫= visit_from N fuel else [])
    end
  end.

Lemma visit_from_S N f n nd : N !! n = Some nd →
  visit_from N (S f) (NodeAt n) = NodeAt n :: (slots nd ≫= visit_from N f).
Proof. cbn. by intros ->. Qed.

(** More than the length of every start path. *)
Definition depth_bound (B : gmap loc path) : nat := S (max_list (length <$> (map_to_list B).*2)).

Lemma depth_bound_lt B n p : B !! n = Some p → length p < depth_bound B.
Proof.
  intros H. apply Nat.lt_succ_r. apply max_list_elem_of_le. apply list_elem_of_fmap. exists p. split; [done|].
  apply list_elem_of_fmap. exists (n, p). split; [done|]. by apply elem_of_map_to_list.
Qed.

Definition visit N B : raw → list raw := visit_from N (depth_bound B).

Lemma elem_of_slots nd r : node_ok nd → r ∈ slots nd → r ≠ Null →
  r = exact_leaf nd ∨ ∃ b, find_child nd b = Some r.
Proof.
  intros Hok [->|(e & -> & He)%list_elem_of_fmap]%elem_of_cons _; [by left|right]. destruct e as [b c]. exists b.
  rewrite for_each_child_list in He by done. by apply elem_of_children_list.
Qed.

Section visit.
Context (r0 : raw) (N : gmap loc (node raw)) (B : gmap loc path) (key : loc → option path).
Context (Hok : edges_ok r0 N B key).
Context (Hnodes : ∀ n p nd, B !! n = Some p → N !! n = Some nd → node_ok nd).

Lemma slot_edge_of n p nd r : B !! n = Some p → N !! n = Some nd → r ∈ slots nd → r ≠ Null →
  ∃ q x, node_edges (p ++ pfx nd) nd q x r.
Proof.
  intros Hp Hn Hr Hne. destruct (elem_of_slots nd r) as [->|[b Hb]]; [by eapply Hnodes|done..| |].
  - exists (p ++ pfx nd), true. by apply node_edges_exact.
  - exists ((p ++ pfx nd) ++ [b]), false. apply node_edges_child. eauto.
Qed.

Lemma slot_of_edge n p nd q x r : B !! n = Some p → N !! n = Some nd →
  node_edges (p ++ pfx nd) nd q x r → r ∈ slots nd.
Proof.
  intros Hp Hn [(-> & b & Hb & _)|(-> & <- & _)]; [|set_solver]. apply elem_of_cons. right.
  apply list_elem_of_fmap. exists (b, r). split; [done|]. rewrite for_each_child_list by by eapply Hnodes.
  by apply elem_of_children_list.
Qed.

Lemma node_edge_edge n p nd q x r : B !! n = Some p → N !! n = Some nd →
  node_edges (p ++ pfx nd) nd q x r → edges r0 N B q x r.
Proof. intros. right. eauto 10. Qed.

(** Induction from the leaves up. *)
Lemma edge_ind (P : path → bool → raw → Prop) :
  (∀ q x l, edges r0 N B q x (LeafAt l) → P q x (LeafAt l)) →
  (∀ n p nd, B !! n = Some p → N !! n = Some nd →
     (∀ q x r, node_edges (p ++ pfx nd) nd q x r → P q x r) → P p false (NodeAt n)) →
  ∀ q x r, edges r0 N B q x r → P q x r.
Proof.
  intros HL HN. assert (∀ w q x r, depth_bound B ≤ w + length q → edges r0 N B q x r → P q x r) as X;
    [|intros q x r; apply (X (depth_bound B)); lia].
  induction w as [|w IH]; intros q x r Hw E.
  all: destruct r as [|l|n]; [by destruct (edges_not_null _ _ _ _ _ E)|by apply HL|].
  all: destruct (eo_node _ _ _ _ Hok _ _ _ E) as [-> Hn]; pose proof (depth_bound_lt _ _ _ Hn); try (exfalso; lia).
  destruct (eo_present _ _ _ _ Hok _ _ Hn) as [nd Hnd]. eapply HN; [done..|].
  intros q' x' r' E'. destruct (node_edge_path _ _ _ _ _ E') as [_ Lq].
  pose proof (node_edge_edge _ _ _ _ _ _ Hn Hnd E') as E2. destruct x'; cbn in Lq.
  - destruct r' as [|l|n']; [by destruct (edges_not_null _ _ _ _ _ E2)|by apply HL|].
    by destruct (eo_node _ _ _ _ Hok _ _ _ E2).
  - apply IH; [lia|done].
Qed.

Lemma visit_from_stable f n p : B !! n = Some p → depth_bound B ≤ f + length p →
  visit_from N (S f) (NodeAt n) = visit_from N f (NodeAt n).
Proof.
  revert n p. induction f as [|f IH]; intros n p Hp Hf; [pose proof (depth_bound_lt _ _ _ Hp); lia|].
  destruct (eo_present _ _ _ _ Hok _ _ Hp) as [nd Hnd].
  rewrite !(visit_from_S N _ n nd) by done. f_equal. apply list_bind_in_ext. intros r Hr.
  destruct r as [|l|n']; [by destruct f..|]. destruct (slot_edge_of n p nd (NodeAt n')) as (q & x & E); [done..|].
  destruct (node_edge_path _ _ _ _ _ E) as [_ Lq].
  destruct (eo_node _ _ _ _ Hok q x n') as [-> Hq]; [by eapply node_edge_edge|]. cbn in Lq. apply (IH n' q); [done|lia].
Qed.

Lemma visit_null : visit N B Null = [].
Proof. done. Qed.

Lemma visit_leaf l : visit N B (LeafAt l) = [LeafAt l].
Proof. done. Qed.

Lemma visit_node n p nd : B !! n = Some p → N !! n = Some nd →
  visit N B (NodeAt n) = NodeAt n :: (slots nd ≫= visit N B).
Proof.
  intros Hp Hnd. unfold visit. destruct (depth_bound B) as [|D] eqn:ED; [done|].
  rewrite (visit_from_S N _ n nd) by done. f_equal. apply list_bind_in_ext. intros r Hr.
  destruct r as [|l|n']; [by destruct D..|]. destruct (slot_edge_of n p nd (NodeAt n')) as (q & x & E); [done..|].
  destruct (node_edge_path _ _ _ _ _ E) as [_ Lq].
  destruct (eo_node _ _ _ _ Hok q x n') as [-> Hq]; [by eapply node_edge_edge|]. cbn in Lq.
  symmetry. apply (visit_from_stable D n' q); [done|]. rewrite ED. lia.
Qed.

(** ** Completeness *)

Lemma visit_target q x r r' : edges r0 N B q x r → r' ∈ visit N B r → ∃ q' x', edges r0 N B q' x' r'.
Proof.
  revert q x r. apply (edge_ind (λ q x r, r' ∈ visit N B r → ∃ q' x', edges r0 N B q' x' r')).
  - intros q x l E ->%list_elem_of_singleton. eauto.
  - intros n p nd Hp Hnd IH. rewrite (visit_node n p nd) by done.
    intros [->|(r & Hr & Hs)%list_elem_of_bind]%elem_of_cons.
    { exists p, false. by apply (eo_linked _ _ _ _ Hok). }
    assert (r ≠ Null) as Hne by (intros ->; by apply elem_of_nil in Hr).
    destruct (slot_edge_of n p nd r) as (q & x & E); [done..|]. by apply (IH q x r).
Qed.

Lemma visit_trans q x r n p nd q1 x1 r1 : edges r0 N B q x r → NodeAt n ∈ visit N B r →
  B !! n = Some p → N !! n = Some nd → node_edges (p ++ pfx nd) nd q1 x1 r1 → r1 ∈ visit N B r.
Proof.
  intros E Hin Hp Hnd E1. revert q x r E Hin.
  apply (edge_ind (λ q x r, NodeAt n ∈ visit N B r → r1 ∈ visit N B r)).
  - by intros q x l E ?%list_elem_of_singleton.
  - intros n' p' nd' Hp' Hnd' IH. rewrite (visit_node n' p' nd') by done.
    intros [[= <-]|(r & Hr & Hs)%list_elem_of_bind]%elem_of_cons; apply elem_of_cons; right; apply list_elem_of_bind.
    + simplify_eq. exists r1. split; [|by eapply slot_of_edge].
      pose proof (node_edge_edge _ _ _ _ _ _ Hp Hnd E1) as E2. destruct r1 as [|l|n1].
      * by destruct (edges_not_null _ _ _ _ _ E2).
      * set_solver.
      * destruct (eo_node _ _ _ _ Hok _ _ _ E2) as [_ Hn1]. destruct (eo_present _ _ _ _ Hok _ _ Hn1) as [nd1 Hnd1].
        rewrite (visit_node n1 q1 nd1) by done. set_solver.
    + exists r. split; [|done]. assert (r ≠ Null) as Hne by (intros ->; by apply elem_of_nil in Hr).
      destruct (slot_edge_of n' p' nd' r) as (q & x & E); [done..|]. by apply (IH q x r).
Qed.

Lemma visit_self q x r : edges r0 N B q x r → r ∈ visit N B r.
Proof.
  destruct r as [|l|n]; intros E; [by destruct (edges_not_null _ _ _ _ _ E)|set_solver|].
  destruct (eo_node _ _ _ _ Hok _ _ _ E) as [_ Hn]. destruct (eo_present _ _ _ _ Hok _ _ Hn) as [nd Hnd].
  rewrite (visit_node n q nd) by done. set_solver.
Qed.

Lemma visit_complete q x r : edges r0 N B q x r → r ∈ visit N B r0.
Proof.
  assert (∀ w n p, length p < w → B !! n = Some p → NodeAt n ∈ visit N B r0) as X.
  { induction w as [|w IH]; intros n p Hw Hn; [lia|].
    destruct (parent_of_node _ _ _ _ Hok n p Hn) as [[R ->]|(m & a & d & b & M & D & C & ->)].
    - apply (eo_linked _ _ _ _ Hok) in Hn. rewrite R. by eapply visit_self.
    - rewrite !length_app in Hw. cbn in Hw.
      destruct (root_is_node _ _ _ _ Hok m a M) as [n0 R].
      eapply (visit_trans [] false r0 m a d); [rewrite R; by left|apply (IH m a); [lia|done]|done..|].
      apply node_edges_child. exists b. split; [done|]. by rewrite <- (assoc_L (++)). }
  intros E. pose proof E as [(-> & -> & -> & Hne)|(n & p & nd & Hp & Hnd & E')]; [by eapply visit_self|].
  destruct (root_is_node _ _ _ _ Hok n p Hp) as [n0 R].
  eapply (visit_trans [] false r0 n p nd); [rewrite R; by left|apply (X (S (length p)) n p); [lia|done]|done..].
Qed.

Lemma visit_elem r : r ∈ visit N B r0 ↔ ∃ q x, edges r0 N B q x r.
Proof.
  split; [|intros (q & x & E); by eapply visit_complete]. destruct (decide (r0 = Null)) as [->|Hne].
  - rewrite visit_null. by intros ?%elem_of_nil.
  - intros Hr. eapply (visit_target [] false r0); [by left|done].
Qed.

(** ** Order *)

(** The place of a node or a leaf: its path or key, nodes first. *)
Definition place (r : raw) : option (path * nat) :=
  match r with
  | Null => None
  | LeafAt l => k ← key l; Some (k, 1)
  | NodeAt n => p ← B !! n; Some (p, 0)
  end.

Definition before (r r' : raw) : Prop :=
  match place r, place r' with
  | Some (p, i), Some (p', i') => lex_cmp p p' = Lt ∨ (p = p' ∧ i < i')
  | _, _ => False
  end.

Lemma before_irrefl r : ¬ before r r.
Proof.
  unfold before. destruct (place r) as [[p i]|]; [|by intros []]. intros [E|[_ ?]]; [|lia]. by rewrite lex_cmp_refl in E.
Qed.

(** Where a thing below a slot is. *)
Lemma visit_under q x r r' : edges r0 N B q x r → r' ∈ visit N B r →
  ∃ p i, place r' = Some (p, i) ∧ if x then p = q ∧ i = 1 else q `prefix_of` p.
Proof.
  revert q x r.
  apply (edge_ind (λ q x r, r' ∈ visit N B r → ∃ p i, place r' = Some (p, i) ∧ if x then p = q ∧ i = 1 else q `prefix_of` p)).
  - intros q x l E ->%list_elem_of_singleton. destruct (eo_leaf _ _ _ _ Hok _ _ _ E) as (k & Hk & F).
    exists k, 1. cbn. rewrite Hk. split; [done|]. destruct x; cbn in F; [by subst|done].
  - intros n p nd Hp Hnd IH. rewrite (visit_node n p nd) by done.
    intros [->|(r & Hr & Hs)%list_elem_of_bind]%elem_of_cons.
    { exists p, 0. cbn. by rewrite Hp. }
    assert (r ≠ Null) as Hne by (intros ->; by apply elem_of_nil in Hr).
    destruct (slot_edge_of n p nd r) as (q & x & E); [done..|].
    destruct (IH q x r E Hr) as (p' & i & Hpl & Hu). exists p', i. split; [done|].
    destruct (node_edge_path _ _ _ _ _ E) as [Kp _]. destruct x; [by destruct Hu as [-> _]|by etrans].
Qed.

(** The slots of a node are in order. *)
Lemma slots_sorted n p nd : B !! n = Some p → N !! n = Some nd →
  StronglySorted (λ r r', ∀ a b, a ∈ visit N B r → b ∈ visit N B r' → before a b) (slots nd).
Proof.
  intros Hp Hnd. assert (node_ok nd) as Hokn by eauto.
  assert (∀ b r a, find_child nd b = Some r → a ∈ visit N B r →
    ∃ k i, place a = Some ((p ++ pfx nd) ++ b :: k, i)) as HC.
  { intros b r a Hb Ha. destruct (visit_under ((p ++ pfx nd) ++ [b]) false r a) as (p' & i & E & [k ->]); [|done|].
    - right. exists n, p, nd. split_and!; [done..|]. apply node_edges_child. eauto.
    - exists k, i. by rewrite E, <- !(assoc_L (++)). }
  apply StronglySorted_cons. split.
  - apply Forall_forall. intros r' ([b c] & -> & Hbc)%list_elem_of_fmap a a' Ha Ha'.
    rewrite for_each_child_list, elem_of_children_list in Hbc by done. cbn in Ha'.
    assert (exact_leaf nd ≠ Null) as Hne by (intros E; rewrite E in Ha; by apply elem_of_nil in Ha).
    destruct (visit_under (p ++ pfx nd) true (exact_leaf nd) a) as (p1 & i1 & E1 & -> & ->); [|done|].
    { right. exists n, p, nd. split_and!; [done..|]. by apply node_edges_exact. }
    destruct (HC b c a' Hbc Ha') as (k & i & E). unfold before. rewrite E1, E. left. by apply lex_cmp_prefix.
  - rewrite for_each_child_list by done. eapply StronglySorted_fmap_in; [|apply children_list_sorted].
    intros [b c] [b' c'] Hbc Hbc' Hlt a a' Ha Ha'. apply elem_of_children_list in Hbc, Hbc'. cbn in *.
    destruct (HC b c a Hbc Ha) as (k & i & E). destruct (HC b' c' a' Hbc' Ha') as (k' & i' & E').
    unfold before. rewrite E, E'. left. by apply lex_cmp_branch.
Qed.

Lemma visit_sorted_edge q x r : edges r0 N B q x r → StronglySorted before (visit N B r).
Proof.
  revert q x r. apply (edge_ind (λ q x r, StronglySorted before (visit N B r))).
  - intros. rewrite visit_leaf. repeat constructor.
  - intros n p nd Hp Hnd IH. rewrite (visit_node n p nd) by done. apply StronglySorted_cons. split.
    + apply Forall_forall. intros r' (r & Hr & Hs)%list_elem_of_bind.
      assert (r ≠ Null) as Hne by (intros ->; by apply elem_of_nil in Hr).
      destruct (slot_edge_of n p nd r) as (q & x & E); [done..|].
      destruct (visit_under q x r r') as (p' & i & Hpl & Hu); [by eapply node_edge_edge|done|].
      unfold before. cbn. rewrite Hp, Hpl. cbn. destruct (node_edge_path _ _ _ _ _ E) as [[k ->] Lq]. destruct x.
      * destruct Hu as [-> ->]. destruct k as [|c k]; [right; rewrite app_nil_r; auto|left]. by apply lex_cmp_prefix.
      * destruct Hu as [k' ->]. left. rewrite <- (assoc_L (++)). apply lex_cmp_prefix.
        cbn in Lq. rewrite length_app in Lq. destruct k; cbn in Lq; [lia|done].
    + apply bind_sorted; [|by eapply slots_sorted]. intros r Hr.
      destruct (decide (r = Null)) as [->|Hne]; [constructor|].
      destruct (slot_edge_of n p nd r) as (q & x & E); [done..|]. by apply (IH q x).
Qed.

Lemma visit_sorted : StronglySorted before (visit N B r0).
Proof.
  destruct (decide (r0 = Null)) as [->|Hne]; [constructor|].
  eapply (visit_sorted_edge [] false). by left.
Qed.

Lemma visit_NoDup : NoDup (visit N B r0).
Proof. eapply StronglySorted_NoDup, visit_sorted. apply before_irrefl. Qed.
End visit.

(** ** The nodes and leaves of a list *)

Definition as_leaf (r : raw) : option loc := match r with LeafAt l => Some l | _ => None end.
Definition as_node (r : raw) : option loc := match r with NodeAt n => Some n | _ => None end.

Definition leaves_in (rs : list raw) : list loc := omap as_leaf rs.
Definition nodes_in (rs : list raw) : list loc := omap as_node rs.

Lemma elem_of_leaves_in l rs : l ∈ leaves_in rs ↔ LeafAt l ∈ rs.
Proof.
  unfold leaves_in. rewrite list_elem_of_omap. split; [|by exists (LeafAt l)].
  intros ([|l'|n] & Hr & [= ->]). done.
Qed.

Lemma elem_of_nodes_in n rs : n ∈ nodes_in rs ↔ NodeAt n ∈ rs.
Proof.
  unfold nodes_in. rewrite list_elem_of_omap. split; [|by exists (NodeAt n)].
  intros ([|l|n'] & Hr & [= ->]). done.
Qed.

Lemma leaves_in_leaf l rs : leaves_in (LeafAt l :: rs) = l :: leaves_in rs.
Proof. done. Qed.

Lemma leaves_in_node n rs : leaves_in (NodeAt n :: rs) = leaves_in rs.
Proof. done. Qed.

Lemma leaves_in_app rs rs' : leaves_in (rs ++ rs') = leaves_in rs ++ leaves_in rs'.
Proof. apply omap_app. Qed.

Lemma nodes_in_app rs rs' : nodes_in (rs ++ rs') = nodes_in rs ++ nodes_in rs'.
Proof. apply omap_app. Qed.

Lemma leaves_in_NoDup rs : NoDup rs → NoDup (leaves_in rs).
Proof.
  induction 1 as [|r rs Hr _ IH]; [constructor|]. destruct r as [|l|n]; cbn; [done| |done].
  constructor; [|done]. by rewrite elem_of_leaves_in.
Qed.

Lemma nodes_in_NoDup rs : NoDup rs → NoDup (nodes_in rs).
Proof.
  induction 1 as [|r rs Hr _ IH]; [constructor|]. destruct r as [|l|n]; cbn; [done..|].
  constructor; [|done]. by rewrite elem_of_nodes_in.
Qed.

Lemma length_split rs : Null ∉ rs → length rs = (length (nodes_in rs) + length (leaves_in rs))%nat.
Proof.
  unfold nodes_in, leaves_in. induction rs as [|[|l|n] rs IH]; intros Hr; [done|set_solver|..].
  all: cbn in *; rewrite IH by set_solver; lia.
Qed.

(** Distinct elements of a map's domain are no more than the map. *)
Lemma NoDup_dom_length {I A} `{Countable I} (h : gmap I A) (ls : list I) : NoDup ls →
  (∀ l, l ∈ ls → is_Some (h !! l)) → (length ls ≤ size h)%nat.
Proof.
  intros Hd Hs. rewrite <- (size_list_to_set (C := gset I)) by done. rewrite <- (size_dom h). apply subseteq_size.
  intros l Hl%elem_of_list_to_set. apply elem_of_dom. by apply Hs.
Qed.

(** ** The tree at rest, in order *)

Section tour.
Context {L St : Type} {LN : LeafNode L} {LL : LeafLaws L} {LY : Layout St} {EX : Exempt}.
Implicit Types (s : RawTree L St) (m : gmap path loc) (B : gmap loc path) (P : gset loc).

Definition tour s B : list raw := visit (nodes_of s) B (t_root s).

(** The leaves of the tree in order. *)
Definition tour_leaves s B : list loc := leaves_in (tour s B).

Lemma wf_node_oks s B m P : wf s B m P →
  ∀ n p nd, B !! n = Some p → nodes_of s !! n = Some nd → node_ok nd.
Proof.
  intros W n p nd Hp (ob & Hob & ->)%nodes_of_Some. destruct (wf_linked _ _ _ _ _ _ W Hp) as (ob' & ? & ? & _).
  by simplify_eq.
Qed.

Section at_rest.
Context s B m P (W : wf s B m P).

Lemma tour_elem r : r ∈ tour s B ↔ ∃ q x, tree_edges s B q x r.
Proof. apply (visit_elem _ _ _ (live_key s)); [apply W|by eapply wf_node_oks]. Qed.

Lemma tour_null : Null ∉ tour s B.
Proof. rewrite tour_elem. intros (q & x & E). by destruct (edges_not_null _ _ _ _ _ E). Qed.

Lemma tour_node n : NodeAt n ∈ tour s B ↔ is_Some (B !! n).
Proof.
  rewrite tour_elem. split.
  - intros (q & x & E). destruct (eo_node _ _ _ _ (wf_edges _ _ _ _ W) _ _ _ E). eauto.
  - intros [q Hq]. exists q, false. by apply (wf_edges _ _ _ _ W).
Qed.

Lemma tour_leaf l : LeafAt l ∈ tour s B ↔ ∃ k, m !! k = Some l.
Proof.
  rewrite tour_elem. split.
  - intros (q & x & E). destruct (eo_leaf _ _ _ _ (wf_edges _ _ _ _ W) _ _ _ E) as (k & Hk & _).
    exists k. apply (wf_map _ _ _ _ W). eauto.
  - intros [k [_ E]%(wf_map _ _ _ _ W)]. done.
Qed.

Lemma tour_NoDup : NoDup (tour s B).
Proof. apply (visit_NoDup _ _ _ (live_key s)); [apply W|by eapply wf_node_oks]. Qed.

Lemma tour_leaves_perm : tour_leaves s B ≡ₚ (map_to_list m).*2.
Proof.
  apply NoDup_Permutation.
  - apply leaves_in_NoDup, tour_NoDup.
  - assert (NoDup (map_to_list m)) as Hd by apply NoDup_map_to_list.
    apply (NoDup_alt (_.*2)). intros i j l Hi Hj. apply list_lookup_fmap_Some in Hi as ([k1 l1] & E1 & H1), Hj as ([k2 l2] & E2 & H2).
    cbn in *. subst. eapply (NoDup_lookup _ _ _ (k1, l2)); [done..|]. rewrite H2. do 2 f_equal.
    apply list_elem_of_lookup_2, elem_of_map_to_list in H1, H2. by eapply map_inj.
  - intros l. unfold tour_leaves. rewrite elem_of_leaves_in, tour_leaf. split.
    + intros [k Hk]. apply list_elem_of_fmap. exists (k, l). split; [done|]. by apply elem_of_map_to_list.
    + intros ([k l'] & -> & Hk%elem_of_map_to_list)%list_elem_of_fmap. by exists k.
Qed.

Lemma tour_count : length (tour_leaves s B) = size m.
Proof. by rewrite tour_leaves_perm, length_fmap, length_map_to_list. Qed.

(** A tour is no longer than the memory. *)
Lemma tour_length : (length (tour s B) ≤ size (t_nodes s) + size (t_leaves s))%nat.
Proof.
  rewrite length_split by apply tour_null. apply Nat.add_le_mono; apply NoDup_dom_length.
  - apply nodes_in_NoDup, tour_NoDup.
  - intros n Hn. rewrite elem_of_nodes_in, tour_node in Hn. destruct Hn as [p Hp].
    destruct (wf_linked _ _ _ _ _ _ W Hp) as (ob & ? & _). eauto.
  - apply leaves_in_NoDup, tour_NoDup.
  - intros l Hl. rewrite elem_of_leaves_in, tour_leaf in Hl. destruct Hl as [k Hk].
    apply (map_live _ _ _ _ _ _ W), live_key_Some in Hk as (x & ? & _). eauto.
Qed.

(** The keys of the leaves, in order. *)
Lemma tour_keys : StronglySorted (λ k k', lex_cmp k k' = Lt) (omap (live_key s) (tour_leaves s B)).
Proof.
  assert (StronglySorted (before B (live_key s)) (tour s B)) as Hs.
  { apply (visit_sorted _ _ _ (live_key s)); [apply W|by eapply wf_node_oks]. }
  unfold tour_leaves. induction Hs as [|r rs _ IH Hr]; [constructor|].
  destruct r as [|l|n]; cbn; [done| |done]. destruct (live_key s l) as [k|] eqn:Hk; [|done].
  apply StronglySorted_cons. split; [|done]. rewrite Forall_forall in Hr. apply Forall_forall.
  intros k' (l' & Hl' & Hk')%list_elem_of_omap. apply elem_of_leaves_in, Hr in Hl'. unfold before in Hl'.
  cbn in Hl'. rewrite Hk, Hk' in Hl'. cbn in Hl'. destruct Hl' as [|[_ ?]]; [done|lia].
Qed.

Lemma tour_keys_elem k : k ∈ omap (live_key s) (tour_leaves s B) ↔ is_Some (m !! k).
Proof.
  rewrite list_elem_of_omap. unfold tour_leaves. split.
  - intros (l & Hl%elem_of_leaves_in%tour_leaf & Hk). destruct Hl as [k' Hk'].
    pose proof (map_live _ _ _ _ _ _ W Hk'). simplify_eq. eauto.
  - intros [l Hl]. exists l. rewrite elem_of_leaves_in, tour_leaf.
    split; [eauto|by apply (map_live _ _ _ _ _ _ W)].
Qed.
End at_rest.
End tour.
