(* ===== verification/Rules.v ===== *)
(** * Rules for the accesses of a commit

    The rules that the specifications of inserts, removes and walks share: the
    counter, the owners, leaves, latches, and the statuses of the nodes after a
    commit. *)

From S2P Require Import Prelude Bytes Latch Slot Bits Node NodeSpec NodeOps Free Mem Shape Raw Read Write Inv Descent Commit Update Pool Chain Guard Commits.
Local Open Scope Z_scope.

(** Several stores to one node are one. *)
Ltac state_eq := unfold put_node, set_t_nodes, set_t_owned, set_t_len, set_t_leaves, set_t_retired_leaves, set_t_retired_nodes in *;
  cbn [t_root t_root_latch t_len t_storage t_nodes t_leaves t_retired_nodes t_retired_leaves t_owned t_stripe o_node o_latch] in *;
  rewrite ?insert_insert_eq in *.

Section rules.
Context {L St : Type} {LN : LeafNode L} {LL : LeafLaws L} {LY : Layout St} {EX : Exempt}.
Implicit Types (s : RawTree L St) (m : gmap path loc) (B : gmap loc path) (P : gset loc) (Q : unit → RawTree L St → Prop).

(** ** Rules for the accesses of a commit *)

Definition counted (n : Z) s : list Z := if decide (n ≠ 0) then Counter.add (t_stripe s) n (t_len s) else t_len s.

Lemma counted_length n s : length (counted n s) = length (t_len s).
Proof. unfold counted. case_decide; [apply Counter.add_length|done]. Qed.

Lemma wp_len_add n Q s : Q tt (set_t_len (counted n s) s) → wp (len_add n) Q s.
Proof.
  unfold len_add, counted. case_decide; intros HQ.
  - by eapply wp_exec.
  - apply wp_ret. by destruct s.
Qed.

Lemma wp_owner_disarm l Q s : Q tt (set_t_owned (t_owned s ∖ {[l]}) s) → wp (owner_disarm l) Q s.
Proof. intros HQ. by eapply wp_exec. Qed.

Lemma wp_mark_removed l x x' Q s : t_leaves s !! l = Some x → mark_removed x = Some x' →
  Q tt (set_t_leaves (<[l := x']> (t_leaves s)) s) → wp (leaf_mark_removed l) Q s.
Proof. intros E Em HQ. eapply wp_exec; [|exact HQ]. cbn. unfold with_leaf. by rewrite E, Em. Qed.

Lemma wp_retire_leaf l x Q s : t_leaves s !! l = Some x →
  Q tt (set_t_retired_leaves (l :: t_retired_leaves s) s) → wp (trigger (RetireLeaf l)) Q s.
Proof. intros E HQ. eapply wp_exec; [|exact HQ]. cbn. unfold with_leaf. by rewrite E. Qed.

Lemma wp_retire_node n ob Q s : t_nodes s !! n = Some ob →
  Q tt (set_t_retired_nodes (n :: t_retired_nodes s) s) → wp (trigger (RetireNode n)) Q s.
Proof. intros E HQ. eapply wp_exec; [|exact HQ]. cbn. unfold with_node. by rewrite E. Qed.

Lemma wp_node_drop n w ob Q s : t_nodes s !! n = Some ob →
  Q tt (put_node s n {| o_latch := drop_guard w; o_node := o_node ob |}) → wp (node_drop n w) Q s.
Proof. intros E HQ. by eapply wp_node_latch. Qed.

Lemma wp_node_unlock n w ob (Q : Z → RawTree L St → Prop) s : t_nodes s !! n = Some ob →
  Q (unlock w) (put_node s n {| o_latch := unlock w; o_node := o_node ob |}) → wp (node_unlock n w) Q s.
Proof. intros E HQ. by eapply wp_node_latch. Qed.

Lemma wp_node_mark_obsolete n w ob Q s : t_nodes s !! n = Some ob →
  Q tt (put_node s n {| o_latch := mark_obsolete w; o_node := o_node ob |}) → wp (node_mark_obsolete n w) Q s.
Proof. intros E HQ. by eapply wp_node_latch. Qed.

Lemma wp_root_drop w Q s : Q tt (set_t_root_latch (drop_guard w) s) → wp (root_drop w) Q s.
Proof. intros HQ. by eapply wp_root_latch. Qed.

(** ** The nodes after a commit *)

Lemma nodes_kept s s' B m P : wf s B m P → t_nodes s' = t_nodes s →
  t_retired_nodes s' = t_retired_nodes s → ∀ a, node_status s' B P a.
Proof.
  intros W E R a. eapply node_frame; [by rewrite E|done|by rewrite R|done|apply W].
Qed.

Lemma node_changed s s' B m P n p ob : wf s B m P → B !! n = Some p →
  t_nodes s' = <[n := ob]> (t_nodes s) → t_retired_nodes s' = t_retired_nodes s →
  node_ok (o_node ob) → quiet (o_latch ob) → (n ∉ exempt → nonempty (o_node ob)) →
  ∀ a, node_status s' B P a.
Proof.
  intros W Hn E R Ho Hq He a. destruct (decide (a = n)) as [->|Hne].
  - destruct (wf_nodes _ _ _ _ W n) as [ob' H1 H2 H3 H4 _ _ _| | |]; [|congruence..].
    apply node_linked with ob; rewrite ?R; try done. rewrite E. apply lookup_insert_eq.
  - eapply node_frame; [by rewrite E, lookup_insert_ne|done|by rewrite R|done|apply W].
Qed.

Lemma nodes_of_changed s s' n ob : t_nodes s' = <[n := ob]> (t_nodes s) →
  nodes_of s' = <[n := o_node ob]> (nodes_of s).
Proof. unfold nodes_of. intros ->. apply fmap_insert. Qed.

(** Nodes that leave the pool for the tree. *)
Lemma status_commit s1 s' B m P (BN : gmap loc path) (top : raw) q E :
  wf s1 B m P → dom BN ⊆ P → subtree (nodes_of s1) top q BN E →
  (∀ n, n ∈ dom BN → t_nodes s' !! n = t_nodes s1 !! n) → t_retired_nodes s' = t_retired_nodes s1 →
  (∀ n, n ∉ dom BN → node_status s' B P n) → ∀ n, node_status s' (BN ∪ B) (P ∖ dom BN) n.
Proof.
  intros W HP HT HN HR HS n. destruct (decide (n ∈ dom BN)) as [Hn|Hn].
  - assert (n ∈ P) as HnP by set_solver. destruct (wf_pool_node _ _ _ _ n W HnP) as (H1 & H2 & ob & H3 & H4 & H5).
    pose proof Hn as [pn Hpn]%elem_of_dom. destruct (sub_nodes _ _ _ _ _ HT n pn Hpn) as (nd & Hnd & Hne).
    apply nodes_of_Some in Hnd as (ob' & ? & ->). assert (ob' = ob) as -> by congruence.
    apply node_linked with ob; [by rewrite HN|apply lookup_union_is_Some; left; by eexists|by rewrite HR|set_solver| | |done];
      [done|by rewrite H5].
  - eapply node_frame; [done| |done| |by apply HS].
    + apply not_elem_of_dom in Hn. by rewrite lookup_union, Hn, (left_id_L None _).
    + set_solver.
Qed.
(** R4: a parent in order is still the parent. *)
Lemma still_parent_spec s B n q parent (Q' : bool → RawTree L St → Prop) :
  parent_ok s B n q parent → Q' true s → wp (still_parent parent (NodeAt n)) Q' s.
Proof.
  intros [R ->|a qa ob y Ha Hn Hq Hok Hc ->] HQ; unfold still_parent.
  - apply wp_bind, wp_root, wp_ret. by rewrite R, bool_decide_true.
  - apply wp_bind, wp_node_ref. by eapply wp_validate.
Qed.
(** Only the latch word of [n] changes. *)
Lemma wf_put_latch s B m P n (p : path) ob w : wf s B m P → B !! n = Some p → t_nodes s !! n = Some ob → quiet w →
  wf (put_node s n {| o_latch := w; o_node := o_node ob |}) B m P.
Proof.
  intros W Hp Hn Hw. set (s' := put_node _ _ _).
  assert (nodes_of s' = nodes_of s) as EN.
  { unfold s'. rewrite nodes_of_put. cbn [o_node]. apply insert_id. by rewrite lookup_nodes_of, Hn. }
  assert (∀ a, node_status s' B P a) as NS.
  { intros a. destruct (wf_nodes _ _ _ _ W n) as [ob' H1 H2 H3 H4 H5 H6 H7| | |]; [|congruence..].
    assert (ob' = ob) as -> by congruence. by eapply node_changed. }
  destruct W as [W1 W2 W3 W4 W5 W6 W7 W8]. split; try done.
  - rewrite EN. exact W1.
  - intros k l. etrans; [apply W2|]. unfold tree_edges. by rewrite EN.
  - intros l. apply (leaf_frame s); [done..|apply W4].
Qed.

(** Only the latch of the parent changes. *)
Lemma wf_overlay_latch s B m P pg v n (p : path) w : wf s B m P → guards s B pg v n p → quiet w →
  wf (overlay pg (with_word w v) s) B m P.
Proof.
  intros W (_ & _ & G) Hw. destruct pg as [u|a u b]; cbn [overlay].
  - destruct G as (_ & ER & _). destruct W as [W1 W2 W3 W4 W5 W6 W7 W8].
    replace (set_t_root (pv_root (with_word w v)) s) with s by (cbn; rewrite <- ER; by destruct s).
    split; try done.
    + intros a. by apply (node_frame s _ B B P P a); [..|apply W3].
    + intros l. by apply (leaf_frame s); [..|apply W4].
  - destruct G as (q & _ & Ha & Hn & _). by apply (wf_put_latch s B m P a q {| o_latch := pv_word v; o_node := pv_node v |}).
Qed.

(** A parent in order is still so after a preparation. *)
Lemma parent_ok_prepared {s p B m} s1 p1 X n q parent : prepared s p s1 p1 B m X →
  parent_ok s B n q parent → parent_ok s1 B n q parent.
Proof.
  intros HP [R ->|a qa ob y Ha Hn Hq Hok Hc ->].
  - constructor; [|done]. by rewrite (sm_root _ _ _ (pr_same _ _ _ _ _ _ _ HP)).
  - destruct (linked_prepared s1 p1 X a HP) as [_ E]; [by eexists|]. econstructor; rewrite ?E; done.
Qed.


(** The statuses after a node [g] of the pool was published in the slot of [n]:
    the parent's, those of [n] and [g], and the others'. *)
Lemma published_status {B m} (s1 s2 : RawTree L St) P pg v v' n q c g B' X :
  wf s1 B m P → guards s1 B pg v n q → stored pg v v' (Some c) →
  g ∈ P → X = {[g]} →
  (∀ a, a ≠ n → a ≠ g → t_nodes s2 !! a = t_nodes s1 !! a) →
  (t_retired_nodes s2 = t_retired_nodes s1 ∨ t_retired_nodes s2 = n :: t_retired_nodes s1) →
  (∀ a, a ≠ n → a ≠ g → is_Some (B' !! a) ↔ is_Some (B !! a)) →
  let s' := overlay pg (with_word (freed pg) v') s2 in
  node_status s' B' (P ∖ X) n → node_status s' B' (P ∖ X) g →
  ∀ a, node_status s' B' (P ∖ X) a.
Proof.
  intros W1 G Hst Hg -> HN HR HB s' Sn Sg a.
  destruct (decide (a = n)) as [->|Hn]; [done|]. destruct (decide (a = g)) as [->|Hag]; [done|].
  destruct (decide (apart pg a)) as [Ha|Ha].
  - eapply node_frame; [|by apply HB| | |apply (wf_nodes _ _ _ _ W1)].
    + unfold s'. rewrite overlay_lookup by done. by apply HN.
    + unfold s'. destruct (overlay_fields pg (with_word (freed pg) v') s2) as (_ & _ & _ & _ & _ & ->).
      destruct HR as [->| ->]; set_solver.
    + set_solver.
  - unfold s'. eapply overlay_parent_status; [exact W1|exact G|exact Hst|by eapply freed_quiet| | |done|done|set_solver].
    + destruct HR as [->|E]; [by left|right]. exists n. split; [done|]. by eapply guards_apart.
    + intros a' Ha' Hl. apply HB; [| |done].
      * intros ->. apply Ha'. by eapply guards_apart.
      * intros ->. destruct (wf_pool_node _ _ _ _ g W1 Hg) as [E _]. rewrite E in Hl. by destruct Hl.
Qed.

(** A published node of the pool is in order. *)
Lemma published_node {B m} (s1 s' : RawTree L St) P B' g nd : wf s1 B m P → g ∈ P →
  t_nodes s' !! g = Some {| o_latch := 0; o_node := nd |} → node_ok nd → nonempty nd →
  is_Some (B' !! g) → g ∉ t_retired_nodes s' → node_status s' B' (P ∖ {[g]}) g.
Proof.
  intros W1 Hg E Hok Hne HB HR. eapply node_linked; [done..|set_solver|done|done|done].
Qed.

End rules.
