(* ===== verification/WriteSpec.v ===== *)
(** * Inserts keep the tree and its map

    What [insert_with] does to a tree at rest, branch by branch. [insert_ok]
    is the contract: the key's leaf is inserted, replaces the old one, or the
    existing one is reported; the map changes in that key only, the count
    follows, and every object stays accounted for. An attempt that fails for
    lack of storage leaves the tree as it was. [insert_attempt_spec]: an
    attempt that runs alone never retries, so one turn of the retry loop is
    enough ([insert_hinted_spec], [insert_at_hint_spec]). *)

From S2P Require Import Prelude Bytes Latch Slot Bits Node NodeSpec NodeOps Free Mem Shape Raw Read Write Inv Descent Commit Update Pool Chain Guard Commits Rules.
Local Open Scope Z_scope.

(** ** The contract *)

Section contract.
Context {L St : Type} {LN : LeafNode L} {LL : LeafLaws L} {LY : Layout St} {EX : Exempt}.
Implicit Types (s : RawTree L St) (m : gmap path loc) (B : gmap loc path) (P : gset loc).

(** Where a hint points: a linked node on the path of [key], unchanged since. *)
Definition hint_ok s B (key : path) (h : Hint) : Prop :=
  ∃ n p ob, hint_node h = NodeAt n ∧ B !! n = Some p ∧ t_nodes s !! n = Some ob ∧
    o_latch ob = hint_version h ∧ length (p ++ pfx (o_node ob)) = hint_depth h ∧
    p ++ pfx (o_node ob) `prefix_of` key.

(** The new leaf [l] is linked at [key]; [leaves] says what happened to the
    leaves. *)
Record inserted s m (l : loc) (key : path) (len : list Z) s' B' P' : Prop := {
  in_wf : wf s' B' (<[key := l]> m) P';
  in_len : t_len s' = len;
  in_stripe : t_stripe s' = t_stripe s;
}.

(** A leaf that is replaced can be marked. *)
Definition replaceable (mode : Mode) : Prop := mode = Replace → ∀ x : L, is_Some (mark_removed x).

(** The nodes of the tree at rest are as they were, but for those that were
    latched and unlocked once. *)
Record stepped s B s' : Prop := {
  st_nodes n ob : t_nodes s !! n = Some ob → is_Some (B !! n) ∨ n ∈ t_retired_nodes s →
    ∃ ob', t_nodes s' !! n = Some ob' ∧ (ob' = ob ∨ quiet (o_latch ob) ∧ o_latch ob' = unlock {| g_v := o_latch ob |});
  st_retired : t_retired_nodes s' = t_retired_nodes s;
}.

Lemma stepped_none s B s' : t_nodes s' = t_nodes s → t_retired_nodes s' = t_retired_nodes s → stepped s B s'.
Proof. intros E1 E2. split; [|done]. intros n ob Hn _. exists ob. rewrite E1. by split; [|left]. Qed.

Lemma stepped_one s B s' n ob nd' : t_nodes s !! n = Some ob → quiet (o_latch ob) →
  t_nodes s' = <[n := {| o_latch := drop_guard {| g_v := o_latch ob |}; o_node := nd' |}]> (t_nodes s) →
  t_retired_nodes s' = t_retired_nodes s → stepped s B s'.
Proof.
  intros Hn Hq E1 E2. split; [|done]. intros n' ob' Hn' _. rewrite E1. destruct (decide (n' = n)) as [->|Hne].
  - rewrite lookup_insert_eq. assert (ob' = ob) as -> by congruence. eexists. split; [done|]. by right.
  - rewrite lookup_insert_ne by done. exists ob'. by split; [|left].
Qed.

(** [old] is marked, retired and no longer reachable; [l] has no owner. *)
Definition leaf_replaced s s' (old l : loc) : Prop := ∃ x x1,
  t_leaves s !! old = Some x ∧ mark_removed x = Some x1 ∧ leaf_unlinked s s' old x1 (t_owned s ∖ {[l]}).

Definition insert_ok s B m (l : loc) key mode count (hint : option Hint) (r : insert_result) s' : Prop :=
  let '(o, p', h) := r in
  pool_ok p' ∧
  match o with
  | Some (Inserted l') => l' = l ∧ m !! key = None ∧ leaves_kept s s' l ∧
      ∃ B', inserted s m l key (counted count s) s' B' (pool p') ∧
        (h = hint ∨ ∃ h', h = Some h' ∧ hint_ok s' B' key h')
  | Some (Replaced old) => mode = Replace ∧ m !! key = Some old ∧ leaf_replaced s s' old l ∧
      inserted s m l key (t_len s) s' B (pool p') ∧ stepped s B s' ∧ h = hint
  | Some (Existing old) => mode = InsertIfAbsent ∧ m !! key = Some old ∧
      wf s' B m (pool p') ∧ same_tree s s' (pool p') ∧ h = hint
  | None => storage_refuses s' ∧ wf s' B m (pool p') ∧ same_tree s s' (pool p') ∧ h = hint
  end.

Definition breaks {A} (Q : insert_result → RawTree L St → Prop) : flow A insert_result → RawTree L St → Prop :=
  λ r s', match r with Break res => Q res s' | Continue _ => False end.
End contract.

(** ** The branches *)

Section branches.
Context {L St : Type} {LN : LeafNode L} {LL : LeafLaws L} {LY : Layout St} {EX : Exempt}.
Context (s : RawTree L St) (m : gmap path loc) (B : gmap loc path) (p : Prepared).
Context (l : loc) (key : path) (mode : Mode) (count : Z) (hint : option Hint) (b : SpinBackoff).
Context (W : wf s B m (pool p)) (Hp : pool_ok p).
Context (Ho : l ∈ t_owned s) (Hkey : live_key s l = Some key).
Context (Hmark : replaceable mode).
Abbreviation OK := (breaks (A := retry_state) (insert_ok s B m l key mode count hint)).

(** The map after a leaf of [key] is in place. *)
Lemma lookup_live k l' : m !! k = Some l' → ∃ x, t_leaves s !! l' = Some x ∧ is_removed x = false ∧ key_bytes x = k.
Proof using W. intros Hk. by apply (map_live _ _ _ _ _ _ W), live_key_Some in Hk. Qed.

Lemma done_existing old : mode = InsertIfAbsent → m !! key = Some old →
  wp (finish (L := L) (Existing old) p hint) OK s.
Proof using All. intros. apply wp_ret. split_and!; done. Qed.

Lemma insert_first_spec : t_root s = Null → wp (insert_first l count hint b p) OK s.
Proof using All.
  intros R. destruct (root_null _ _ _ _ W R) as [Hm _]. pose proof (wf_root_latch _ _ _ _ W) as Hq.
  unfold insert_first. apply wp_bind, wp_root_lock; [done|]. apply wp_bind, wp_root.
  cbn [t_root set_t_root_latch]. rewrite R. wp_simpl.
  apply wp_bind, wp_len_add, wp_bind, wp_owner_disarm, wp_bind, wp_root_write; [by apply quiet_locked|].
  apply wp_bind, wp_root_drop, wp_ret. split; [done|]. split_and!; [done|by rewrite Hm|done|].
  exists B. split; [|by left]. split; [|done..].
  eapply (wf_slot_insert s _ B m (pool p) SlotRoot [] false None (Some (LeafAt l)) W); try done.
  - replace None with (present (R := raw) (t_root s)) by (by rewrite R). constructor.
  - by apply set_root_slot.
  - by eapply (nodes_kept s).
  - split; [by apply quiet_drop|etrans; [apply counted_length|done]|done].
  - apply prefix_nil.
  - by rewrite Hm.
Qed.

(** One store of the leaf in a slot of a node on the path. *)
Section store.
Context (n : loc) (q : path) (ob : NodeObj) (O : on_path s B key n q ob).
Context (sl : slot) (q0 : path) (x0 : bool) (nd' : node raw) (w : Z).
Context (Hset : slot_set (t_root s) (nodes_of s) sl (Some (LeafAt l)) (t_root s) (<[n := nd']> (nodes_of s))).
Context (Hok : node_ok nd') (Hne : nonempty nd') (Hw : quiet w) (Hf : fits q0 x0 key).

Lemma store_new : slot_at (t_root s) (nodes_of s) B sl q0 x0 None → m !! key = None →
  wf (put_node (set_t_owned (t_owned s ∖ {[l]}) (set_t_len (counted count s) s)) n {| o_latch := w; o_node := nd' |})
    B (<[key := l]> m) (pool p).
Proof using All.
  intros SA Hm. eapply (wf_slot_insert s _ B m (pool p) sl q0 x0 None (Some (LeafAt l)) W SA); try done.
  - by rewrite nodes_of_put.
  - eapply node_changed; [done|apply O|done..].
  - split; [apply W|etrans; [apply counted_length|done]|done].
Qed.

Lemma store_replaced old x x1 : slot_at (t_root s) (nodes_of s) B sl q0 x0 (Some (LeafAt old)) → m !! key = Some old →
  t_leaves s !! old = Some x → mark_removed x = Some x1 →
  let s' := put_node (set_t_retired_leaves (old :: t_retired_leaves s)
      (set_t_leaves (<[old := x1]> (t_leaves s)) (set_t_owned (t_owned s ∖ {[l]}) s))) n
      {| o_latch := w; o_node := nd' |} in
  leaf_replaced s s' old l ∧ wf s' B (<[key := l]> m) (pool p).
Proof using All.
  intros SA Hm Hx Hx1 s'. assert (leaf_unlinked s s' old x1 (t_owned s ∖ {[l]})) as LU by (by split; [|done|eapply is_removed_mark|..]).
  split; [by exists x, x1|].
  eapply (wf_slot_unlink s s' B m (pool p) sl q0 x0 (Some (LeafAt old)) (Some (LeafAt l)) W SA)
    with (old := old) (k := key) (new := Some l); try done.
  - unfold s'. by rewrite nodes_of_put.
  - eapply node_changed; [done|apply O|done..].
  - split; [apply W|done..].
  - by intros ? [= <-].
Qed.
End store.

(** A chain of prepared nodes in the place of a leaf. *)
Lemma entry_fits p0 pre e r0 q x (r : raw) : pre `prefix_of` e →
  entry_edge (p0 ++ pre) (length pre) (e, r0) q x r → fits q x (p0 ++ e).
Proof.
  intros [e' ->] [_ H]. cbn [fst] in H. destruct e' as [|y e'].
  - rewrite app_nil_r in *. rewrite lookup_ge_None_2 in H by lia. by destruct H as [-> ->].
  - rewrite list_lookup_middle in H by done. destruct H as [-> ->]. exists e'. by rewrite <- !(assoc_L (++)).
Qed.

Lemma take_common_length (es ns : path) : length (take (common_prefix es ns) ns) = common_prefix es ns.
Proof. destruct (common_prefix_spec es ns) as (? & ? & _). rewrite length_take. lia. Qed.

Lemma common_diverges (es ns : path) : es ≠ ns → es !! common_prefix es ns ≠ ns !! common_prefix es ns.
Proof.
  destruct (common_prefix_spec es ns) as (H1 & H2 & H3 & H4). intros Hne Ed. apply Hne.
  destruct (es !! common_prefix es ns) as [x|] eqn:Ex, (ns !! common_prefix es ns) as [y|] eqn:Ey; try done.
  - by destruct (H4 x y eq_refl eq_refl); injection Ed.
  - symmetry in Ed. apply lookup_ge_None in Ex, Ey. by rewrite !take_ge in H3 by lia.
Qed.

Section chain.
Context (s1 : RawTree L St) (p1 : Prepared) (X : gset loc) (BN : gmap loc path) (top : raw).
Context (p0 es ns : path) (old : loc) (sl : slot).
Context (Hu : used p = ∅) (HP : prepared s p s1 p1 B m X) (HX : dom BN = X).
Context (Hold : live_key s old = Some (p0 ++ es)) (Ekey : key = p0 ++ ns) (Hne : p0 ++ es ≠ key).
Abbreviation common := (common_prefix es ns).
Abbreviation E := (λ q x r, entry_edge (p0 ++ take common ns) common (es, LeafAt old) q x r ∨
                            entry_edge (p0 ++ take common ns) common (ns, LeafAt l) q x r).
Context (HT : subtree (nodes_of s1) top p0 BN E).

Lemma chain_committed : pool_ok (prep_commit p1) ∧ pool (prep_commit p1) = pool p1 ∖ X ∧ X ⊆ pool p1 ∧ BN ##ₘ B.
Proof using All.
  destruct (prep_commit_ok p1 (pr_ok _ _ _ _ _ _ _ HP)) as [H1 H2].
  rewrite H2, (pr_used _ _ _ _ _ _ _ HP), Hu, (right_id_L ∅ (∪)).
  assert (X ⊆ pool p1) as HXp by (rewrite (pr_pool _ _ _ _ _ _ _ HP); set_solver).
  split_and!; [done..|]. apply map_disjoint_dom, elem_of_disjoint. intros n Hn [q Hq]%elem_of_dom.
  destruct (wf_pool_node _ _ _ _ n (pr_wf _ _ _ _ _ _ _ HP)) as [? _]; [set_solver|congruence].
Qed.

Lemma chain_wf s' :
  slot_at (t_root s1) (nodes_of s1) B sl p0 false (Some (LeafAt old)) →
  slot_set (t_root s1) (nodes_of s1) sl (Some top) (t_root s') (nodes_of s') → m !! key = None →
  (∀ n, n ∉ X → node_status s' B (pool p1) n) → (∀ n, n ∈ X → t_nodes s' !! n = t_nodes s1 !! n) →
  t_retired_nodes s' = t_retired_nodes s1 → leaves_kept s1 s' l → orderly s1 s' →
  wf s' (BN ∪ B) (<[key := l]> m) (pool (prep_commit p1)).
Proof using All.
  intros SA SS Hm HS HN HR HL HO. destruct chain_committed as (C1 & -> & C3 & C4).
  pose proof (pr_same _ _ _ _ _ _ _ HP) as HST. pose proof (pr_wf _ _ _ _ _ _ _ HP) as W1.
  assert (∀ l', live_key s1 l' = live_key s l') as Hlive by (intros; by apply live_key_kept, (sm_leaves _ _ _ HST)).
  assert (take common ns `prefix_of` es) as Hpe.
  { destruct (common_prefix_spec es ns) as (_ & _ & <- & _). by exists (drop common es); rewrite take_drop. }
  assert (take common ns `prefix_of` ns) as Hpn by (by exists (drop common ns); rewrite take_drop).
  eapply (wf_chain s1 s' B m (pool p1) _ sl p0 _ (Some top) (t_root s') (nodes_of s') W1 SA SS)
    with (top := top) (E := E) (old := old); try done.
  - eapply subtree_ext; [|exact HT]. intros n Hn. rewrite !lookup_nodes_of, HN; [done|].
    rewrite <- HX. by apply elem_of_dom.
  - intros q x r. pose proof (take_common_length es ns) as CL.
    intros [Ed|Ed]; (split; [destruct Ed as [-> _]; cbn; auto|]); intros k' (l' & -> & Hk'); rewrite Hlive in Hk'.
    + assert (l' = old) as -> by (by destruct Ed as [[= ->] _]). assert (k' = p0 ++ es) as -> by congruence.
      eapply entry_fits; [exact Hpe|]. by rewrite CL.
    + assert (l' = l) as -> by (by destruct Ed as [[= ->] _]). assert (k' = p0 ++ ns) as -> by congruence.
      eapply entry_fits; [exact Hpn|]. by rewrite CL.
  - unfold entry_edge. cbn [fst snd]. destruct (es !! common); eauto 10.
  - unfold entry_edge. cbn [fst snd]. destruct (ns !! common); eauto 10.
  - by rewrite Hlive.
  - by rewrite (sm_owned _ _ _ HST).
  - rewrite <- HX. eapply status_commit; [exact W1|by rewrite HX|exact HT|by rewrite HX|done|by rewrite HX].
Qed.
End chain.

Lemma insert_exact_spec n q ob : on_path s B key n q ob → key = q ++ pfx (o_node ob) →
  wp (insert_exact l mode count hint b p n (o_latch ob)) OK s.
Proof using All.
  intros O Ek. pose proof (op_node _ _ _ _ _ _ O) as Hn. pose proof (op_quiet _ _ _ _ _ _ O) as Hq.
  pose proof (at_end _ _ _ _ W _ _ _ _ O Ek) as Hm.
  destruct (set_exact_leaf_ok (o_node ob) (LeafAt l) (op_ok _ _ _ _ _ _ O)) as (G1 & G2 & G3 & G4 & G5).
  set (nd' := set_exact_leaf (o_node ob) (LeafAt l)) in *.
  assert (slot_set (t_root s) (nodes_of s) (SlotExact n) (Some (LeafAt l)) (t_root s) (<[n := nd']> (nodes_of s))) as SS.
  { eapply set_exact_slot; [by rewrite lookup_nodes_of, Hn|unfold pfx; by rewrite G3|by rewrite G4|done]. }
  pose proof (at_exact (t_root s) (nodes_of s) B n q (o_node ob) (op_base _ _ _ _ _ _ O) (at_nodes_of _ _ _ _ _ _ O)) as SA.
  rewrite <- Ek in SA. assert (nonempty nd') as Hne by (right; by rewrite G4).
  unfold insert_exact. apply wp_bind. eapply wp_node_read; [done|].
  apply wp_bind. eapply wp_validate; [done..|]. wp_simpl.
  destruct (at_exact_cases _ _ _ _ W _ _ _ _ O) as [E|(old & E & _)]; rewrite E in *; wp_simpl.
  - apply wp_bind. eapply wp_try_upgrade; [done..|].
    apply wp_bind, wp_len_add, wp_bind, wp_owner_disarm, wp_bind.
    eapply wp_node_write; [apply lookup_insert_eq|by apply quiet_locked|done|].
    apply wp_bind. eapply wp_node_drop; [apply lookup_insert_eq|]. apply wp_ret.
    split; [done|]. split_and!; [done..|]. exists B. split; [|by left]. split; [|done..].
    state_eq.
    eapply (store_new n q ob O (SlotExact n) key true nd'); [done..|by apply quiet_drop|done|exact SA|done].
  - apply wp_bind, wp_leaf_ref. destruct (decide (mode = InsertIfAbsent)); [by apply done_existing|].
    assert (mode = Replace) by by destruct mode.
    destruct (lookup_live _ _ Hm) as (x & Hx & _). destruct (Hmark ltac:(done) x) as [x1 Hx1].
    apply wp_bind. eapply wp_try_upgrade; [done..|]. apply wp_bind, wp_owner_disarm, wp_bind.
    eapply wp_node_write; [apply lookup_insert_eq|by apply quiet_locked|done|].
    apply wp_bind. eapply wp_mark_removed; [done|exact Hx1|].
    apply wp_bind. eapply wp_node_drop; [apply lookup_insert_eq|].
    apply wp_bind. eapply wp_retire_leaf; [apply lookup_insert_eq|]. apply wp_ret.
    edestruct (store_replaced n q ob O (SlotExact n) key true nd' (drop_guard {| g_v := o_latch ob |})) as [LU WF];
      [done..|by apply quiet_drop|done|exact SA|done|exact Hx|exact Hx1|]. state_eq.
    split; [done|]. split_and!; [done..| |by eapply (stepped_one s B _ n ob)|done]. split; [exact WF|done..].
Qed.
(** What the commit of prepared nodes did, seen from the start. *)
Lemma prepared_inserted s1 p1 X s' B' p' h :
  prepared s p s1 p1 B m X → pool_ok p' → m !! key = None → leaves_kept s1 s' l →
  wf s' B' (<[key := l]> m) (pool p') → t_len s' = counted count s1 → t_stripe s' = t_stripe s1 →
  h = hint ∨ (∃ h', h = Some h' ∧ hint_ok s' B' key h') →
  OK (Break (Some (Inserted l), p', h)) s'.
Proof using All.
  intros HP Hp' Hm [K1 K2 K3] W' EL ES Hh. destruct (pr_same _ _ _ _ _ _ _ HP) as [_ _ F1 F2 F3 _ F4 F5 _].
  split; [done|]. split_and!; [done..| |].
  - split; congruence.
  - exists B'. split; [|done]. split; [done| |congruence]. rewrite EL. unfold counted. by rewrite F1, F2.
Qed.

(** A shortage of storage while preparing. *)
Lemma prepared_full s1 p1 X : prepared s p s1 p1 B m X → storage_refuses s1 → OK (Break (None, p1, hint)) s1.
Proof using All.
  intros [H1 H2 H3 _ _ H4] HF. split; [done|]. split_and!; [done..| |done].
  eapply same_tree_mono; [|done]. set_solver.
Qed.

Lemma insert_root_leaf_spec old : used p = ∅ → t_root s = LeafAt old →
  wp (insert_root_leaf l key mode count hint b p (LeafAt old)) OK s.
Proof using All.
  intros Hu R. destruct (root_leaf _ _ _ _ _ W R) as (ekey & Hold & Em).
  pose proof (wf_root_latch _ _ _ _ W) as Hq.
  assert (m !! ekey = Some old) as Hmo by (rewrite Em; apply lookup_singleton_eq).
  assert (∀ s' : RawTree L St, t_root s' = t_root s → slot_at (t_root s') (nodes_of s') B SlotRoot [] false (Some (LeafAt old))) as SA.
  { intros s' E. replace (Some (LeafAt old)) with (present (R := raw) (t_root s')) by (by rewrite E, R). constructor. }
  unfold insert_root_leaf. apply wp_bind, wp_leaf_ref, wp_bind. eapply wp_leaf_key; [done|].
  destruct (decide (ekey = key)) as [->|Hne].
  - destruct (decide (mode = InsertIfAbsent)); [by apply done_existing|].
    assert (mode = Replace) by by destruct mode. destruct (lookup_live _ _ Hmo) as (x & Hx & _).
    destruct (Hmark ltac:(done) x) as [x1 Hx1].
    apply wp_bind, wp_root_lock; [done|]. apply wp_bind, wp_root. cbn [t_root set_t_root_latch]. rewrite R, bool_decide_true by done.
    wp_simpl. apply wp_bind, wp_owner_disarm, wp_bind, wp_root_write; [by apply quiet_locked|].
    apply wp_bind. eapply wp_mark_removed; [done|exact Hx1|]. apply wp_bind, wp_root_drop, wp_bind.
    eapply wp_retire_leaf; [apply lookup_insert_eq|]. apply wp_ret.
    match goal with |- OK _ ?s' => set (s2 := s') end.
    assert (leaf_unlinked s s2 old x1 (t_owned s ∖ {[l]})) as LU by (by split; [|done|eapply is_removed_mark|..]).
    split; [done|]. split_and!; [done..|by exists x, x1| |by apply stepped_none|done]. split; [|done..].
    eapply (wf_slot_unlink s s2 B m (pool p) SlotRoot [] false (Some (LeafAt old)) (Some (LeafAt l)) W (SA s eq_refl))
      with (old := old) (k := key) (new := Some l); try done.
    + by apply set_root_slot.
    + by eapply (nodes_kept s).
    + split; [by apply quiet_drop|done..].
    + intros ? [= <-]. split_and!; [done..|apply prefix_nil].
  - assert (m !! key = None) as Hm by (rewrite Em; by apply lookup_singleton_ne).
    cbv zeta. set (common := common_prefix ekey key).
    assert (length (take common key) = common) as CL by apply take_common_length.
    rewrite <- CL at 2. apply wp_bind. eapply wp_mono.
    { eapply (build_chain_spec s p B m []); [done..|]. rewrite CL.
      by apply common_diverges. }
    intros [[[top bottom]|] p1] s1; intros (X & HP & HB); [|apply wp_ret; by eapply prepared_full].
    destruct HB as (BN & HX & HT & _). rewrite CL in HT.
    pose proof (pr_same _ _ _ _ _ _ _ HP) as HS1.
    assert (t_root_latch s1 = t_root_latch s) as Hq1 by apply HS1.
    apply wp_bind, wp_root_lock; [by rewrite Hq1|]. apply wp_bind, wp_root. cbn [t_root set_t_root_latch].
    rewrite (sm_root _ _ _ HS1), R, bool_decide_true by done. wp_simpl.
    apply wp_bind, wp_len_add, wp_bind, wp_owner_disarm, wp_bind, wp_root_write; [rewrite Hq1; by apply quiet_locked|].
    apply wp_bind, wp_root_drop, wp_ret.
    match goal with |- OK _ ?s' => set (s2 := s') end.
    assert (leaves_kept s1 s2 l) as LK by done.
    assert (orderly s1 s2) as OD.
    { split; [by apply quiet_drop; rewrite Hq1|etrans; [apply counted_length|done]|done]. }
    eapply (prepared_inserted s1 p1 X s2 (BN ∪ B)); [done| |done..| |done|done|by left].
    + by eapply (prep_commit_ok p1), HP.
    + eapply (chain_wf s1 p1 X BN top [] ekey key old SlotRoot); try done.
      * apply SA, HS1.
      * destruct (sub_top _ _ _ _ _ HT) as (n0 & -> & _). by apply set_root_slot.
      * intros n _. eapply (nodes_kept s1); [apply HP|done..].
Qed.
(** ** At a node, past its prefix *)

Section at_node.
Context (n : loc) (q : path) (ob : NodeObj) (O : on_path s B key n q ob) (byte : Byte.byte).
Abbreviation nd := (o_node ob).
Abbreviation base := (q ++ pfx (o_node ob)).
Context (Hb : base ++ [byte] `prefix_of` key).

Lemma node_slot v : find_child nd byte = v →
  slot_at (t_root s) (nodes_of s) B (SlotChild n byte) (base ++ [byte]) false v.
Proof using O.
  intros <-. rewrite <- (assoc_L (++)). apply at_child; [apply O|by eapply at_nodes_of].
Qed.

Lemma node_slot_set nd' v : same_header nd nd' →
  (∀ y, find_child nd' y = if decide (y = byte) then v else find_child nd y) →
  slot_set (t_root s) (nodes_of s) (SlotChild n byte) v (t_root s) (<[n := nd']> (nodes_of s)).
Proof using O.
  intros (_ & H2 & H3) F. eapply set_child_slot; [by eapply at_nodes_of|unfold pfx; by rewrite H2|done..].
Qed.

Lemma insert_room_spec : find_child nd byte = None → m !! key = None → is_full nd = false →
  wp (insert_room l count b p n (o_latch ob) (length base) byte) OK s.
Proof using All.
  intros Hnone Hm Hroom. pose proof (op_node _ _ _ _ _ _ O) as Hn. pose proof (op_quiet _ _ _ _ _ _ O) as Hq.
  destruct (insert_child_spec nd byte (LeafAt l) (op_ok _ _ _ _ _ _ O) Hnone) as (nd' & Ei & Hok & Hh & F); [done| |].
  { apply bool_decide_eq_false in Hroom. lia. }
  unfold insert_room. apply wp_bind. eapply wp_try_upgrade; [done..|].
  apply wp_bind, wp_len_add, wp_bind, wp_owner_disarm, wp_bind.
  eapply wp_node_write; [apply lookup_insert_eq|by apply quiet_locked|exact Ei|].
  apply wp_bind. eapply wp_node_unlock; [apply lookup_insert_eq|]. apply wp_ret.
  split; [done|]. split_and!; [done..|]. exists B. split.
  - split; [|done..]. state_eq.
    eapply (store_new n q ob O (SlotChild n byte) (base ++ [byte]) false nd');
      [by apply node_slot_set|done| |by apply quiet_unlock|done|by apply node_slot|done].
    left. exists byte. by rewrite F, decide_True.
  - right. eexists. split; [done|]. exists n, q. eexists. split_and!; [done|apply O|apply lookup_insert_eq|done| |];
      cbn [o_node hint_depth]; (replace (pfx nd') with (pfx nd) by (unfold pfx; by rewrite (proj1 (proj2 Hh)))); [done|].
    by eapply prefix_app_self.
Qed.

Lemma insert_at_leaf_spec old : used p = ∅ → find_child nd byte = Some (LeafAt old) →
  wp (insert_at_leaf l key mode count hint b p n (o_latch ob) (length base) byte (LeafAt old)) OK s.
Proof using All.
  intros Hu Hc. pose proof (op_node _ _ _ _ _ _ O) as Hn. pose proof (op_quiet _ _ _ _ _ _ O) as Hq.
  destruct (at_branch _ _ _ _ W _ _ _ _ O byte old) as (_ & _ & HL);
    [by eapply prefix_app_self|by apply prefix_lookup_next|].
  destruct (HL Hc) as ((ekey & Hold & Hpe & Hmo) & Hmk).
  unfold insert_at_leaf. apply wp_bind, wp_leaf_ref, wp_bind. eapply wp_leaf_key; [done|].
  destruct (decide (ekey = key)) as [->|Hne].
  - destruct (decide (mode = InsertIfAbsent)); [by apply done_existing|].
    assert (mode = Replace) by by destruct mode. destruct (lookup_live _ _ Hmo) as (x & Hx & _).
    destruct (Hmark ltac:(done) x) as [x1 Hx1].
    destruct (replace_child_spec nd byte _ (LeafAt l) (op_ok _ _ _ _ _ _ O) Hc) as (nd' & Er & Hok & Hh & F & _); [done|].
    apply wp_bind. eapply wp_try_upgrade; [done..|]. apply wp_bind, wp_owner_disarm, wp_bind.
    eapply wp_node_write; [apply lookup_insert_eq|by apply quiet_locked|exact Er|].
    apply wp_bind. eapply wp_mark_removed; [done|exact Hx1|].
    apply wp_bind. eapply wp_node_drop; [apply lookup_insert_eq|].
    apply wp_bind. eapply wp_retire_leaf; [apply lookup_insert_eq|]. apply wp_ret.
    edestruct (store_replaced n q ob O (SlotChild n byte) (base ++ [byte]) false nd' (drop_guard {| g_v := o_latch ob |})) as [LU WF];
      [by apply node_slot_set|done| |by apply quiet_drop|done|by apply node_slot|done|exact Hx|exact Hx1|].
    { left. exists byte. by rewrite F, decide_True. }
    state_eq. split; [done|]. split_and!; [done..| |by eapply (stepped_one s B _ n ob)|done]. split; [exact WF|done..].
  - assert (m !! key = None) as Hm.
    { destruct (m !! key) as [l'|] eqn:El; [|done]. rewrite Hmk in El by done.
      destruct Hne. by eapply (map_inj s B m). }
    destruct Hpe as [es ->], Hb as [ns Ekey].
    assert (length base + 1 = length (base ++ [byte]))%nat as EL by (by rewrite (length_app _ [byte])).
    assert (drop (length base + 1) key = ns) as En by (by rewrite EL, Ekey, drop_app_length).
    cbv zeta. rewrite En, EL, key_from_drop, drop_app_length by (by exists es).
    set (p0 := base ++ [byte]) in *. pose proof (take_common_length es ns) as CL. set (common := common_prefix es ns) in *.
    rewrite <- CL at 2. apply wp_bind. eapply wp_mono.
    { eapply (build_chain_spec s p B m p0); [done..|]. rewrite CL. cbn [fst].
      apply common_diverges. congruence. }
    intros [[[top bottom]|] p1] s1; intros (X & HP & HB); [|apply wp_ret; by eapply prepared_full].
    destruct HB as (BN & HX & HT & nb & pb & ndb & -> & Hpb & Fb & Epb). rewrite CL in HT.
    pose proof (pr_same _ _ _ _ _ _ _ HP) as HS1. pose proof (pr_wf _ _ _ _ _ _ _ HP) as W1.
    assert (n ∉ X) as HnX.
    { intros Hx. destruct (wf_pool_node _ _ _ _ n W1) as [Hno _].
      - rewrite (pr_pool _ _ _ _ _ _ _ HP). set_solver.
      - rewrite (op_base _ _ _ _ _ _ O) in Hno. done. }
    assert (t_nodes s1 !! n = Some ob) as Hn1 by (by rewrite (sm_nodes _ _ _ HS1)).
    assert (top ≠ Null) as Htop by (by destruct (sub_top _ _ _ _ _ HT) as (n0 & -> & _)).
    destruct (replace_child_spec nd byte _ top (op_ok _ _ _ _ _ _ O) Hc Htop) as (nd' & Er & Hok & Hh & F & _).
    apply wp_bind. eapply wp_try_upgrade; [done..|].
    apply wp_bind, wp_len_add, wp_bind, wp_owner_disarm, wp_bind.
    eapply wp_node_write; [apply lookup_insert_eq|by apply quiet_locked|exact Er|].
    apply wp_bind. eapply wp_node_drop; [apply lookup_insert_eq|]. apply wp_ret.
    match goal with |- OK _ ?s' => assert (t_nodes s' = <[n := {| o_latch := drop_guard {| g_v := o_latch ob |}; o_node := nd' |}]> (t_nodes s1)) as Nd2 end.
    { state_eq. done. }
    match goal with |- OK _ ?s' => set (s2 := s') in * end.
    destruct (chain_committed s1 p1 X BN top p0 es ns old (SlotChild n byte)) as (C1 & _ & _ & C4); try done.
    assert (nb ∈ X) as HnbX by (rewrite <- HX; apply elem_of_dom; by eexists).
    eapply (prepared_inserted s1 p1 X s2 (BN ∪ B)); [done..| |done|done|].
    + eapply (chain_wf s1 p1 X BN top p0 es ns old (SlotChild n byte)); try done.
      * rewrite (sm_root _ _ _ HS1). rewrite <- Hc. unfold p0. rewrite <- (assoc_L (++)).
        apply at_child; [apply O|by rewrite lookup_nodes_of, Hn1].
      * rewrite (nodes_of_changed s1 s2 _ _ Nd2). cbn [o_node].
        eapply set_child_slot; [by rewrite lookup_nodes_of, Hn1|unfold pfx; by rewrite (proj1 (proj2 Hh))|apply Hh|done].
      * intros a Ha. eapply node_changed; [exact W1|apply O|exact Nd2|done|done|by apply quiet_drop|].
        intros _. left. exists byte. cbn [o_node]. by rewrite F, decide_True.
      * intros a Ha. rewrite Nd2, lookup_insert_ne; [done|]. congruence.
      * split; [apply W1|etrans; [apply counted_length|done]|done].
    + right. eexists. split; [done|]. exists nb, pb, {| o_latch := 0; o_node := ndb |}. split_and!; [done| | |done|..]; cbn [o_node hint_depth].
      * rewrite lookup_union_Some by done. by left.
      * rewrite Nd2, lookup_insert_ne by congruence. exact Fb.
      * rewrite Epb, length_app, CL. done.
      * rewrite Epb, Ekey. apply prefix_app. exists (drop common ns). by rewrite take_drop.
Qed.
End at_node.
(** ** Under the parent's latch *)

(** What the section did beside the parent and the nodes. *)
Record section_end (s2 s3 : RawTree L St) : Prop := {
  se_root : t_root s3 = t_root s2;
  se_root_latch : t_root_latch s3 = t_root_latch s2;
  se_len : t_len s3 = counted count s2;
  se_stripe : t_stripe s3 = t_stripe s2;
  se_leaves : t_leaves s3 = t_leaves s2;
  se_retired_leaves : t_retired_leaves s3 = t_retired_leaves s2;
  se_owned : t_owned s3 = t_owned s2 ∖ {[l]};
}.

Lemma section_kept s1 s3 p1 X pg v v' n q :
  prepared s p s1 p1 B m X → guards s1 B pg v n q → section_end s1 s3 →
  let s' := overlay pg (with_word (freed pg) v') s3 in
  leaves_kept s1 s' l ∧ orderly s1 s' ∧ t_len s' = counted count s1 ∧ t_stripe s' = t_stripe s1.
Proof using All.
  intros HP G [E1 E2 E3 E4 E5 E6 E7] s'.
  destruct (overlay_fields pg (with_word (freed pg) v') s3) as (X1 & X2 & X3 & X4 & X5 & X6). fold s' in X1, X2, X3, X4, X5, X6.
  split_and!; [split; congruence|split|congruence..].
  - unfold s'. apply overlay_quiet; [|by eapply freed_quiet]. rewrite E2. apply (pr_wf _ _ _ _ _ _ _ HP).
  - rewrite X1, E3. apply counted_length.
  - congruence.
Qed.

(** The split node's content: a leaf of the key beside the node [n]. *)
Lemma split_content (c1 rest : path) (y : byte) n (matched : nat) (pf : path) :
  (length c1 <= MAX_PREFIX_LEN)%nat → length c1 = matched → pf !! matched = Some y → rest !! matched ≠ Some y →
  ∃ nd1 nd2, insert_child_raw (write_prefix (node_new Node4) c1) y (NodeAt n) = Some nd1 ∧
    match rest !! matched with
    | None => Some (set_exact_leaf nd1 (LeafAt l))
    | Some b2 => insert_child_raw nd1 b2 (LeafAt l)
    end = Some nd2 ∧ node_ok nd1 ∧ node_ok nd2 ∧ pfx nd2 = c1 ∧ nonempty nd2 ∧
    ∀ q0 q x r, node_edges (q0 ++ c1) nd2 q x r ↔
      (q = q0 ++ c1 ++ [y] ∧ x = false ∧ r = NodeAt n) ∨
      leaf_edge l (q0 ++ c1 ++ match rest !! matched with None => [] | Some b2 => [b2] end)
        (bool_decide (rest !! matched = None)) q x r.
Proof using All.
  intros Hc <- Hy Hr. destruct (bottom_node c1 (length c1) (pf, NodeAt n) (rest, LeafAt l)) as (nd1 & nd2 & H1 & H2 & H3 & H4 & H5 & H6 & H7);
    [done..|cbn; congruence|].
  exists nd1, nd2. unfold place_entry in *. cbn [fst snd] in *. rewrite Hy in H1.
  split_and!; [done|by destruct (rest !! _)|done..|]. intros q0 q x r. rewrite H7. unfold entry_edge, leaf_edge. cbn [fst snd].
  rewrite Hy. destruct (rest !! length c1) as [b2|]; rewrite <- ?(assoc_L (++)), ?app_nil_r; cbn; naive_solver.
Qed.

Section split.
Context (parent : Parent) (n : loc) (q : path) (ob : NodeObj) (matched : nat) (y : byte).
Context (O : on_path s B key n q ob) (PO : parent_ok s B n q parent) (Hu : used p = ∅).
Abbreviation nd := (o_node ob).
Abbreviation rest := (drop (length q) key).
Context (Ematch : matched = common_prefix (pfx nd) rest) (Hy : pfx nd !! matched = Some y).
Abbreviation c1 := (take matched (pfx nd)).
Abbreviation c2 := (drop (matched + 1) (pfx nd)).

Lemma split_path : key = q ++ c1 ++ drop matched rest ∧ rest !! matched ≠ Some y ∧ (length q + matched <= length key)%nat ∧
  m !! key = None ∧ pfx nd = c1 ++ y :: c2 ∧ length c1 = matched ∧ (length (pfx nd) <= MAX_PREFIX_LEN)%nat.
Proof using All.
  destruct (common_prefix_spec (pfx nd) rest) as (H1 & H2 & H3 & H4). rewrite <- Ematch in *.
  pose proof (op_prefix _ _ _ _ _ _ O) as [k Ek]. assert (rest = k) as Er by (by rewrite Ek, drop_app_length).
  pose proof (lookup_lt_Some _ _ _ Hy) as Hlt. split_and!.
  - rewrite H3, take_drop, Er. exact Ek.
  - intros Hr. by apply (H4 y y).
  - rewrite Ek at 1. rewrite length_app, <- Er. lia.
  - eapply (at_mismatch _ _ _ _ W); [exact O|]. rewrite <- prefix_of_drop by apply O.
    rewrite common_prefix_prefix, <- Ematch. lia.
  - rewrite Nat.add_1_r. symmetry. by apply take_drop_middle.
  - rewrite length_take. lia.
  - rewrite <- (at_prefix_len _ _ _ _ _ _ O). pose proof (at_snapshot _ _ _ _ _ _ O) as [? _]. done.
Qed.

Lemma insert_split_spec :
  wp (insert_split l key count hint b p parent n (o_latch ob) (length q) (load_prefix nd) matched) OK s.
Proof using All.
  destruct split_path as (Ekey & Hr & Hle & Hm & Epf & Hc1 & Hmax).
  pose proof (op_node _ _ _ _ _ _ O) as Hn. pose proof (op_quiet _ _ _ _ _ _ O) as Hq.
  unfold insert_split. apply wp_bind. eapply wp_validate; [done..|]. wp_simpl.
  apply wp_bind. eapply wp_mono; [by apply (prep_node_spec _ B m)|].
  intros [[g|] p1] s1; cbv beta iota.
  2: { intros (-> & -> & HF). apply wp_ret. eapply prepared_full; [by apply prepared_nil|done]. }
  intros [HP0 F0].
  destruct (split_content c1 rest y n matched (pfx nd)) as (nd1 & nd2 & E1 & E2 & K1 & K2 & K3 & K4 & K5);
    [rewrite length_take; lia|done..|].
  apply wp_bind. eapply wp_init_node; [exact F0|done|].
  assert (ps_bytes (load_prefix nd) !! matched = Some y) as ->.
  { unfold pfx, as_slice in Hy. by apply lookup_take_Some in Hy as [? _]. }
  apply wp_bind, wp_ret. apply wp_bind. eapply wp_init_node; [apply fresh_put|exact E1|].
  set (st1 := put_node s1 g {| o_latch := 0; o_node := write_prefix (node_new Node4) c1 |}).
  set (st2 := put_node st1 g {| o_latch := 0; o_node := nd1 |}).
  set (s2 := put_node st2 g {| o_latch := 0; o_node := nd2 |}).
  assert (prepared s p s2 p1 B m {[g]}) as HP.
  { assert (node_ok (write_prefix (node_new (R := raw) Node4) c1)) by (apply write_prefix_ok, node_new_ok).
    do 3 (apply prepared_put; [|set_solver|done]). done. }
  assert (fresh_node s2 g nd2) as F2 by apply fresh_put.
  apply wp_bind. eapply (wp_mono _ (λ _ s', s' = s2)).
  { rewrite lookup_drop in E2. destruct (key !! (length q + matched)%nat) as [b2|] eqn:Eb.
    - rewrite decide_False by (apply lookup_lt_Some in Eb; lia).
      apply wp_bind, wp_ret. eapply wp_init_node; [apply fresh_put|exact E2|done].
    - rewrite decide_True by (apply lookup_ge_None in Eb; lia).
      eapply wp_init_node; [apply fresh_put|exact E2|done]. }
  intros _ ? ->. clearbody s2. clear F0 HP0 E1 E2 st1 st2.
  assert (is_Some (B !! n)) as HnB by (eexists; apply O).
  destruct (linked_prepared s2 p1 {[g]} n HP HnB) as [Hng Hn2]. rewrite Hn in Hn2.
  pose proof (pr_wf _ _ _ _ _ _ _ HP) as W2.
  eapply wp_lock_parent; [exact W2|apply O|by eapply parent_ok_prepared|].
  intros pg v G. pose proof (guards_apart _ _ _ _ _ _ G) as Han.
  apply wp_bind. eapply wp_try_upgrade; [by rewrite overlay_lookup|done..|].
  rewrite overlay_put by done.
  apply wp_bind. eapply wp_node_write; [rewrite overlay_lookup by done; apply lookup_insert_eq|by apply quiet_locked|done|].
  rewrite overlay_put by done. apply wp_bind, wp_len_add. rewrite overlay_set_len.
  apply wp_bind, wp_owner_disarm. rewrite overlay_set_owned.
  apply wp_bind. eapply wp_publish; [exact G|done|]. intros v' Hst.
  apply wp_bind. eapply wp_node_drop; [rewrite overlay_lookup by done; apply lookup_insert_eq|].
  rewrite overlay_put by done. apply wp_bind, wp_pg_drop. apply wp_ret.
  match goal with |- OK _ (overlay _ _ ?s') => set (s3 := s') end.
  change (with_word _ (with_word _ v')) with (with_word (freed pg) v').
  set (nd' := write_prefix nd c2). set (obn := {| o_latch := drop_guard {| g_v := o_latch ob |}; o_node := nd' |}).
  assert (t_nodes s3 = <[n := obn]> (t_nodes s2)) as N3 by (unfold s3; state_eq; done).
  destruct (write_prefix_ok nd c2 (op_ok _ _ _ _ _ _ O)) as (G1 & G2 & G3 & G4). fold nd' in G1, G2, G3, G4.
  assert (pfx nd' = c2) as Epf' by (apply load_write_prefix; rewrite length_drop; lia).
  assert (g ≠ n) as Hgn by set_solver.
  assert (g ∈ pool p1) as Hgp by (rewrite (pr_pool _ _ _ _ _ _ _ HP); set_solver).
  destruct (prep_commit_ok p1 (pr_ok _ _ _ _ _ _ _ HP)) as [C1 C2].
  rewrite (pr_used _ _ _ _ _ _ _ HP), Hu, (right_id_L ∅ (∪)) in C2.
  set (s' := overlay pg (with_word (freed pg) v') s3).
  assert (apart pg g) as Hag.
  { destruct (decide (apart pg g)) as [|Ha]; [done|]. destruct (guards_linked _ _ _ _ _ _ _ G Ha) as [? E].
    destruct (wf_pool_node _ _ _ _ g W2 Hgp). congruence. }
  assert (t_nodes s' !! n = Some obn) as Hn'.
  { unfold s'. rewrite overlay_lookup, N3 by done. apply lookup_insert_eq. }
  assert (t_nodes s' !! g = Some {| o_latch := 0; o_node := nd2 |}) as Hg'.
  { unfold s'. rewrite overlay_lookup, N3, lookup_insert_ne by done. exact F2. }
  assert (section_end s2 s3) as SE by (split; try done; by destruct pg).
  assert (t_retired_nodes s3 = t_retired_nodes s2) as R3 by done. clearbody s3.
  assert (t_retired_nodes s' = t_retired_nodes s2) as R' by (rewrite <- R3; unfold s'; by destruct pg).
  destruct (section_kept s2 s3 p1 _ pg v v' n q HP G SE) as (LK & OD & LE & SP). fold s' in LK, OD, LE, SP.
  destruct (wf_pool_node _ _ _ _ g W2 Hgp) as (HgB & HgR & _).
  pose proof (pr_same _ _ _ _ _ _ _ HP) as HS2.
  set (B' := <[g := q]> (<[n := q ++ c1 ++ [y]]> B)).
  assert (∀ a, node_status s' B' (pool (prep_commit p1)) a) as NS.
  { rewrite C2. eapply published_status; fold s'; [exact W2|exact G|exact Hst|done|done| |by left| | |].
    - intros a Ha _. by rewrite N3, lookup_insert_ne.
    - intros a Ha Hga. unfold B'. by rewrite !lookup_insert_ne.
    - destruct (wf_nodes _ _ _ _ W2 n) as [ob' D1 D2 D3 D4 D5 D6 D7| | |]; [|destruct HnB; congruence..].
      assert (ob' = ob) as -> by congruence.
      apply node_linked with obn; [done| |by rewrite R'|set_solver|done|by apply quiet_drop|].
      + unfold B'. rewrite lookup_insert_ne, lookup_insert_eq by done. by eexists.
      + intros He. destruct (D7 He) as [[z Hz]|Hx]; [left; exists z|right]; unfold obn; cbn [o_node]; [by rewrite G4|by rewrite G3].
    - eapply published_node; [exact W2|done..| |by rewrite R']. unfold B'. rewrite lookup_insert_eq. by eexists. }
  eapply (prepared_inserted s2 p1 {[g]} s' B'); try done.
  - set (N1 := nodes_of (overlay pg (with_word (freed pg) v') s2)).
    assert (slot_set (t_root s2) (nodes_of s2) (guard_slot pg) (Some (NodeAt g)) (t_root s') N1) as SS.
    { replace (t_root s') with (t_root (overlay pg (with_word (freed pg) v') s2)).
      - eapply overlay_slot_set; [exact G|done..].
      - unfold s'. destruct pg; [done|]. symmetry. apply SE. }
    eapply (wf_split s2 s' B m (pool p1) _ (guard_slot pg) q _ _ (t_root s') N1 W2 (guards_slot_at _ _ _ _ _ _ G) SS)
      with (b := y) (nd := nd) (nd' := nd') (ndg := nd2) (c1 := c1) (c2 := c2)
           (ql := q ++ c1 ++ match rest !! matched with None => [] | Some b2 => [b2] end)
           (xl := bool_decide (rest !! matched = None)); try done.
    + unfold N1. by rewrite lookup_nodes_of, overlay_lookup, Hn2.
    + apply O.
    + by rewrite lookup_nodes_of, Hn'.
    + by rewrite lookup_nodes_of, Hg'.
    + intros a Han' Hag' _. unfold N1, s'. rewrite !lookup_nodes_of. destruct (decide (apart pg a)).
      * by rewrite !overlay_lookup, N3, lookup_insert_ne by done.
      * destruct pg; [done|]. cbn in *. assert (a = p0) as -> by (destruct (decide (a = p0)); tauto). unfold put_node; cbn. by rewrite !lookup_insert_eq.
    + by rewrite (live_key_prepared _ _ _ _ HP).
    + destruct (rest !! matched) as [b2|] eqn:Er.
      * rewrite bool_decide_false by done. cbn [fits]. rewrite (assoc_L (++)). apply prefix_snoc_of_lookup.
        -- rewrite Ekey, (assoc_L (++)). by eexists.
        -- rewrite length_app, Hc1. by rewrite lookup_drop in Er.
      * rewrite bool_decide_true by done. cbn [fits]. apply lookup_ge_None in Er.
        by rewrite app_nil_r, Ekey, (drop_ge rest matched), app_nil_r at 1.
    + by rewrite (sm_owned _ _ _ HS2).
  - right. eexists. split; [done|]. exists g, q. eexists. split_and!; [done| |exact Hg'|done|..]; cbn [o_node hint_depth].
    + apply lookup_insert_eq.
    + by rewrite K3, length_app, Hc1.
    + rewrite K3, Ekey. apply prefix_app. by eexists.
Qed.
End split.
(** ** Growth *)

Section grow.
Context (parent : Parent) (n : loc) (q : path) (ob : NodeObj) (y : byte).
Context (O : on_path s B key n q ob) (PO : parent_ok s B n q parent) (Hu : used p = ∅).
Abbreviation nd := (o_node ob).
Abbreviation base := (q ++ pfx (o_node ob)).
Context (Hb : base ++ [y] `prefix_of` key) (Hnone : find_child nd y = None) (Hm : m !! key = None).

Lemma grown_room : is_full nd = true → ∃ ty, grown (node_type nd) = Some ty ∧ (num_children nd < capacity ty)%nat.
Proof using All.
  intros Hf%bool_decide_eq_true. pose proof (proj1 (num_children_spec nd (op_ok _ _ _ _ _ _ O))) as En.
  pose proof (child_count_insert (find_child nd) (λ x, if decide (x = y) then Some (LeafAt l) else find_child nd x) y (LeafAt l) Hnone) as Hi.
  cbv beta in Hi. rewrite (decide_True (P := y = y)) in Hi by done. specialize (Hi eq_refl).
  assert (∀ f : byte → option raw, (child_count f <= 256)%nat) as Hle by apply child_count_le.
  specialize (Hle (λ x, if decide (x = y) then Some (LeafAt l) else find_child nd x)).
  rewrite Hi in Hle by (intros x Hx; by rewrite decide_False).
  pose proof (proj2 (num_children_spec nd (op_ok _ _ _ _ _ _ O))) as Hcap.
  destruct (node_type nd); cbn in *; [exists Node16|exists Node48|exists Node256|]; cbn; (split; [done|lia]) || lia.
Qed.

(** The grown copy with the leaf. *)
Lemma grown_content ty : (num_children nd < capacity ty)%nat →
  ∃ nd1 nd2, copy_into nd (node_new ty) = Some nd1 ∧ insert_child_raw nd1 y (LeafAt l) = Some nd2 ∧
    node_ok nd1 ∧ node_ok nd2 ∧ pfx nd2 = pfx nd ∧ nonempty nd2 ∧
    ∀ β q0 x r, node_edges β nd2 q0 x r ↔ node_edges β nd q0 x r ∨ leaf_edge l (β ++ [y]) false q0 x r.
Proof using All.
  intros Hroom. destruct (node_new_ok (R := raw) ty) as (N1 & N2 & N3 & N4).
  pose proof (op_ok _ _ _ _ _ _ O) as Hok.
  destruct (copy_into_ok nd (node_new ty) Hok N1 N2) as (nd1 & E1 & K1 & K2 & K3 & K4 & K5); [rewrite N4; lia|].
  assert (num_children nd1 = num_children nd) as En.
  { rewrite (proj1 (num_children_spec nd Hok)), (proj1 (num_children_spec nd1 K1)). by apply child_count_same. }
  destruct (insert_child_spec nd1 y (LeafAt l) K1) as (nd2 & E2 & L1 & (_ & L2 & L3) & L4); [by rewrite K5|done|rewrite K2, N4; lia|].
  assert (∀ x, find_child nd2 x = if decide (x = y) then Some (LeafAt l) else find_child nd x) as L5 by (intros x; by rewrite L4, K5).
  exists nd1, nd2. split_and!; [done..| | |].
  - unfold pfx. by rewrite L2, K3.
  - left. exists y. by rewrite L4, decide_True.
  - intros β q0 x r. unfold node_edges, leaf_edge. rewrite L3, K4. setoid_rewrite L5. split.
    + intros [(-> & z & Hz & ->)|?]; [|auto]. case_decide; [right; by simplify_eq|left; left; eauto].
    + intros [[(-> & z & Hz & ->)|?]|(-> & -> & ->)]; [|auto|].
      * left. split; [done|]. exists z. rewrite decide_False by congruence. done.
      * left. split; [done|]. exists y. by rewrite decide_True.
Qed.

Lemma insert_grow_spec : is_full nd = true →
  wp (insert_grow l count hint b p parent n (o_latch ob) (length base) y) OK s.
Proof using All.
  intros (ty & Ety & Hroom)%grown_room. destruct (grown_content ty Hroom) as (nd1 & nd2 & E1 & E2 & K1 & K2 & K3 & K4 & K5).
  pose proof (op_node _ _ _ _ _ _ O) as Hn. pose proof (op_quiet _ _ _ _ _ _ O) as Hq.
  unfold insert_grow. apply wp_bind. eapply wp_node_read; [done|]. rewrite Ety. apply wp_bind, wp_ret.
  apply wp_bind. eapply wp_mono; [by apply (prep_node_spec _ B m)|].
  intros [[g|] p1] s1; cbv beta iota.
  2: { intros (-> & -> & HF). apply wp_ret. eapply prepared_full; [by apply prepared_nil|done]. }
  intros [HP F1].
  assert (is_Some (B !! n)) as HnB by (eexists; apply O).
  destruct (linked_prepared s1 p1 {[g]} n HP HnB) as [Hng Hn1]. rewrite Hn in Hn1.
  pose proof (pr_wf _ _ _ _ _ _ _ HP) as W1. assert (g ≠ n) as Hgn by set_solver.
  assert (g ∈ pool p1) as Hgp by (rewrite (pr_pool _ _ _ _ _ _ _ HP); set_solver).
  destruct (wf_pool_node _ _ _ _ g W1 Hgp) as (HgB & HgR & _).
  eapply wp_lock_parent; [exact W1|apply O|by eapply parent_ok_prepared|].
  intros pg v G. pose proof (guards_apart _ _ _ _ _ _ G) as Han.
  assert (apart pg g) as Hag.
  { destruct (decide (apart pg g)) as [|Ha]; [done|]. destruct (guards_linked _ _ _ _ _ _ _ G Ha). congruence. }
  apply wp_bind. eapply wp_try_upgrade; [by rewrite overlay_lookup|done..|].
  rewrite overlay_put by done.
  apply wp_bind. unfold node_copy_into. apply wp_bind.
  eapply wp_node_read; [rewrite overlay_lookup by done; apply lookup_insert_eq|]. cbn [o_node id].
  eapply wp_init_node; [unfold fresh_node; rewrite overlay_lookup by done; etrans; [by apply lookup_insert_ne|exact F1]|exact E1|].
  rewrite overlay_put by done. apply wp_bind.
  eapply wp_init_node; [unfold fresh_node; rewrite overlay_lookup by done; apply lookup_insert_eq|exact E2|].
  rewrite overlay_put by done. apply wp_bind, wp_len_add. rewrite overlay_set_len.
  apply wp_bind, wp_owner_disarm. rewrite overlay_set_owned.
  apply wp_bind. eapply wp_publish; [exact G|done|]. intros v' Hst.
  apply wp_bind. eapply wp_node_mark_obsolete.
  { rewrite overlay_lookup by done. etrans; [by apply lookup_insert_ne|]. etrans; [by apply lookup_insert_ne|]. apply lookup_insert_eq. }
  rewrite overlay_put by done. apply wp_bind, wp_pg_drop, wp_bind.
  eapply wp_retire_node; [rewrite overlay_lookup by done; apply lookup_insert_eq|].
  rewrite overlay_set_retired_nodes. apply wp_ret.
  match goal with |- OK _ (overlay _ _ ?s') => set (s3 := s') end.
  change (with_word _ (with_word _ v')) with (with_word (freed pg) v').
  set (obn := {| o_latch := mark_obsolete {| g_v := o_latch ob |}; o_node := nd |}).
  set (obg := {| o_latch := 0; o_node := nd2 |}).
  assert (t_nodes s3 !! n = Some obn) as Nn by apply lookup_insert_eq.
  assert (t_nodes s3 !! g = Some obg) as Ng by (etrans; [by apply lookup_insert_ne|]; apply lookup_insert_eq).
  assert (∀ a, a ≠ n → a ≠ g → t_nodes s3 !! a = t_nodes s1 !! a) as N3.
  { intros a Hna Hga. do 4 (etrans; [by apply lookup_insert_ne|]). done. }
  assert (section_end s1 s3) as SE by (split; try done; by destruct pg).
  assert (t_retired_nodes s3 = n :: t_retired_nodes s1) as R3 by (by destruct pg). clearbody s3.
  set (s' := overlay pg (with_word (freed pg) v') s3).
  assert (t_nodes s' !! n = Some obn) as Hn' by (unfold s'; by rewrite overlay_lookup).
  assert (t_nodes s' !! g = Some obg) as Hg' by (unfold s'; by rewrite overlay_lookup).
  assert (t_retired_nodes s' = n :: t_retired_nodes s1) as R' by (rewrite <- R3; unfold s'; by destruct pg).
  destruct (prep_commit_ok p1 (pr_ok _ _ _ _ _ _ _ HP)) as [C1 C2].
  rewrite (pr_used _ _ _ _ _ _ _ HP), Hu, (right_id_L ∅ (∪)) in C2.
  destruct (section_kept s1 s3 p1 _ pg v v' n q HP G SE) as (LK & OD & LE & SP). fold s' in LK, OD, LE, SP.
  pose proof (pr_same _ _ _ _ _ _ _ HP) as HS1.
  assert (n ∉ t_retired_nodes s1 ∧ n ∉ pool p1) as [HnR HnP].
  { destruct (wf_nodes _ _ _ _ W1 n) as [ob' D1 D2 D3 D4 D5 D6 D7| | |]; [done|destruct HnB; congruence..]. }
  set (B' := <[g := q]> (delete n B)).
  assert (∀ a, node_status s' B' (pool (prep_commit p1)) a) as NS.
  { rewrite C2. eapply published_status; fold s'; [exact W1|exact G|exact Hst|done|done|done|by right| | |].
    - intros a Ha Hga. unfold B'. by rewrite lookup_insert_ne, lookup_delete_ne.
    - apply node_retired with obn; [done| |rewrite R'; set_solver|set_solver|by apply quiet_obsolete].
      unfold B'. by rewrite lookup_insert_ne, lookup_delete_eq.
    - eapply published_node; [exact W1|done..| |rewrite R'; set_solver]. unfold B'. rewrite lookup_insert_eq. by eexists. }
  eapply (prepared_inserted s1 p1 {[g]} s' B'); try done.
  - set (N1 := nodes_of (overlay pg (with_word (freed pg) v') s1)).
    assert (slot_set (t_root s1) (nodes_of s1) (guard_slot pg) (Some (NodeAt g)) (t_root s') N1) as SS.
    { replace (t_root s') with (t_root (overlay pg (with_word (freed pg) v') s1)).
      - eapply overlay_slot_set; [exact G|done..].
      - unfold s'. destruct pg; [done|]. symmetry. apply SE. }
    eapply (wf_copy_insert s1 s' B m (pool p1) _ (guard_slot pg) q _ _ (t_root s') N1 W1 (guards_slot_at _ _ _ _ _ _ G) SS)
      with (n := n) (g := g) (nd := nd) (ndg := nd2) (ql := base ++ [y]) (xl := false); try done.
    + unfold N1. by rewrite lookup_nodes_of, overlay_lookup, Hn1.
    + apply O.
    + by rewrite lookup_nodes_of, Hg'.
    + intros a Hna Hga _. unfold N1, s'. rewrite !lookup_nodes_of. destruct (decide (apart pg a)).
      * by rewrite !overlay_lookup, N3 by done.
      * destruct pg; [done|]. cbn in *. assert (a = p0) as -> by (destruct (decide (a = p0)); tauto).
        unfold put_node; cbn. by rewrite !lookup_insert_eq.
    + rewrite R'. apply NoDup_cons. split; [done|apply W1].
    + by rewrite (live_key_prepared _ _ _ _ HP).
    + by rewrite (sm_owned _ _ _ HS1).
  - right. eexists. split; [done|]. exists g, q, obg. split_and!; [done| |exact Hg'|done|..]; cbn [o_node hint_depth obg].
    + apply lookup_insert_eq.
    + by rewrite K3.
    + rewrite K3. by eapply prefix_app_self.
Qed.
End grow.
(** ** The descent *)

Definition cursor_ok (c : Parent * raw * nat) : Prop :=
  ∃ n q ob, c.1.2 = NodeAt n ∧ c.2 = length q ∧ on_path s B key n q ob ∧ parent_ok s B n q c.1.1.

(** A branch ends the descent. *)
Lemma wp_ends (pr : prog L verdict) : wp pr OK s →
  wp (r ← pr; mret (Break r))
    (λ (r : flow (Parent * raw * nat) verdict) s',
      match r with Continue _ => False | Break v => OK v s' end) s.
Proof. intros H. apply wp_bind. eapply wp_mono; [exact H|]. intros v s' Hv. by apply wp_ret. Qed.

Definition turn_ok (c : Parent * raw * nat) (r : flow (Parent * raw * nat) verdict) (s' : RawTree L St) : Prop :=
  match r with
  | Continue c' => s' = s ∧ cursor_ok c' ∧ (length key - c'.2 < length key - c.2)%nat
  | Break v => OK v s'
  end.

Lemma wp_turn c (pr : prog L verdict) : wp pr OK s → wp (r ← pr; mret (Break r)) (turn_ok c) s.
Proof. intros H. eapply wp_mono; [by apply wp_ends|]. by intros [] s'. Qed.

Lemma insert_turn_spec c : used p = ∅ → cursor_ok c →
  wp (insert_turn l key mode count hint b p c) (turn_ok c) s.
Proof using All.
  intros Hu. destruct c as [[parent r] depth]. intros (n & q & ob & E1 & E2 & O & PO). cbn in E1, E2, PO. subst r depth.
  pose proof (op_node _ _ _ _ _ _ O) as Hn. pose proof (op_quiet _ _ _ _ _ _ O) as Hq.
  unfold insert_turn. apply wp_bind, wp_node_ref, wp_bind. eapply wp_read_version; [done..|].
  apply wp_bind. eapply still_parent_spec; [done|]. wp_simpl.
  apply wp_bind. eapply wp_node_read; [done|].
  rewrite (at_is_prefix_of _ _ _ _ _ _ O), (at_prefix_len _ _ _ _ _ _ O), key_from_drop by apply O.
  change (as_slice (load_prefix (o_node ob))) with (pfx (o_node ob)).
  case_bool_decide as K.
  2: { assert (common_prefix (pfx (o_node ob)) (drop (length q) key) < length (pfx (o_node ob)))%nat as Hlt.
       { rewrite <- prefix_of_drop in K by apply O. rewrite common_prefix_prefix in K.
         pose proof (common_prefix_spec (pfx (o_node ob)) (drop (length q) key)) as [? _]. lia. }
       rewrite decide_True by done. apply wp_turn. destruct (lookup_lt_is_Some_2 _ _ Hlt) as [y Hy].
       by eapply insert_split_spec. }
  rewrite decide_False by lia. rewrite <- length_app.
  destruct (decide (length (q ++ pfx (o_node ob)) = length key)) as [D|D].
  { apply wp_turn, (insert_exact_spec n q); [done|]. symmetry. apply prefix_length_eq; [done|lia]. }
  destruct (lookup_lt_is_Some_2 key (length (q ++ pfx (o_node ob)))) as [y Hy].
  { apply prefix_length in K. lia. }
  rewrite Hy. apply wp_bind, wp_ret, wp_bind. eapply wp_node_read; [done|].
  destruct (at_branch _ _ _ _ W _ _ _ _ O y inhabitant K Hy) as (K' & HN & _).
  assert (∀ child : option raw, find_child (o_node ob) y = child → (∀ n', child ≠ Some (NodeAt n')) →
    wp (is_full ← trigger (NodeRead n is_full); ok ← node_validate n (o_latch ob);
        if negb ok then r ← retry b p; mret (Break r)
        else r ← match child with
                 | None => if is_full : bool then insert_grow l count hint b p parent n (o_latch ob) (length (q ++ pfx (o_node ob))) y
                           else insert_room l count b p n (o_latch ob) (length (q ++ pfx (o_node ob))) y
                 | Some c => insert_at_leaf l key mode count hint b p n (o_latch ob) (length (q ++ pfx (o_node ob))) y c
                 end; mret (Break r)) (turn_ok (parent, NodeAt n, length q)) s) as X.
  { intros child Ec Hc. apply wp_bind. eapply wp_node_read; [done|]. apply wp_bind. eapply wp_validate; [done..|]. wp_simpl.
    apply wp_turn. destruct child as [[|old|n']|].
    - by apply (find_child_not_null (R := raw)) in Ec.
    - by apply (insert_at_leaf_spec n q).
    - by destruct (Hc n').
    - specialize (HN Ec). destruct (is_full (o_node ob)) eqn:Ef.
      + by eapply insert_grow_spec.
      + by apply (insert_room_spec n q). }
  destruct (find_child (o_node ob) y) as [[|old|n']|] eqn:Ec;
    [apply (X (Some Null)); [done|by intros]|apply (X (Some (LeafAt old))); [done|by intros]| |apply (X None); [done|by intros]].
  apply wp_ret. split; [done|]. destruct (at_inner _ _ _ _ W _ _ _ _ O y n' K' Ec) as [[ob' O'] PO'].
  cbn [snd]. split.
  - exists n', ((q ++ pfx (o_node ob)) ++ [y]), ob'. split_and!; [done| |done..]. cbn. rewrite (length_app _ [y]). cbn. lia.
  - apply prefix_length in K'. rewrite length_app in K'. cbn in K'. rewrite length_app in *. lia.
Qed.
End branches.

(** ** Whole operations *)

Section attempt.
Context {L St : Type} {LN : LeafNode L} {LL : LeafLaws L} {LY : Layout St} {EX : Exempt}.
Implicit Types (s : RawTree L St) (m : gmap path loc) (B : gmap loc path) (p : Prepared).

Lemma insert_attempt_spec s m B p l key mode count hint b :
  wf s B m (pool p) → pool_ok p → l ∈ t_owned s → live_key s l = Some key → replaceable mode →
  wp (insert_attempt l key mode count hint (b, p)) (breaks (insert_ok s B m l key mode count hint)) s.
Proof.
  intros W Hp Ho Hk Hmark. destruct (prep_reset_ok p Hp) as (P1 & P2 & P3). rewrite <- P2 in W.
  unfold insert_attempt. apply wp_bind, wp_root. destruct (t_root s) as [|old|n] eqn:R.
  - by apply insert_first_spec.
  - by apply insert_root_leaf_spec.
  - destruct (root_on_path _ _ _ _ key _ W R) as [[ob O] PO].
    apply (wp_loop (λ c s', s' = s ∧ cursor_ok s B key c) (λ c, (length key - c.2)%nat)).
    + intros c ? [-> Hc]. eapply wp_mono; [by apply insert_turn_spec|].
      intros [c'|v] s'; [intros (-> & ? & ?)|]; done.
    + split; [done|]. by exists n, [], ob.
    + cbn. lia.
Qed.

(** What is left of the pool is released. *)
Lemma wp_free_all (es : list (loc * bool)) s (Q : unit → RawTree L St → Prop) :
  NoDup es.*1 → (∀ e, e ∈ es → is_Some (t_nodes s !! e.1)) →
  Q tt (set_t_nodes (foldl (λ N e, delete e.1 N) (t_nodes s) es) s) →
  wp (for_each es (λ e, trigger (FreeNode e.1))) Q s.
Proof.
  revert s. induction es as [|e es IH]; intros s; cbn [for_each foldl fmap list_fmap].
  - intros _ _ HQ. apply wp_ret. by destruct s.
  - intros [Hn Hes]%NoDup_cons Hin HQ. apply wp_bind. destruct (Hin e) as [ob Ho]; [set_solver|].
    eapply wp_exec; [cbn; unfold with_node; by rewrite Ho|]. apply IH; [done| |exact HQ].
    intros e' He'. cbn. rewrite lookup_delete_ne; [apply Hin; set_solver|].
    intros Ee. apply Hn. rewrite Ee. by apply list_elem_of_fmap_2.
Qed.

Lemma lookup_delete_all (es : list (loc * bool)) (N : gmap loc NodeObj) n :
  foldl (λ N e, delete e.1 N) N es !! n = if decide (n ∈ es.*1) then None else N !! n.
Proof.
  revert N. induction es as [|e es IH]; intros N; cbn [foldl fmap list_fmap].
  - rewrite decide_False by apply not_elem_of_nil. done.
  - rewrite IH. destruct (decide (n = e.1)) as [->|Hne].
    + rewrite lookup_delete_eq. rewrite (decide_True (P := e.1 ∈ e.1 :: _)) by set_solver. by case_decide.
    + rewrite lookup_delete_ne by done. repeat case_decide; set_solver.
Qed.

Lemma prep_release_spec s m B p : wf s B m (pool p) → pool_ok p →
  wp (prep_release p) (λ _ s', wf s' B m ∅ ∧ same_tree s s' (pool p) ∧ t_storage s' = t_storage s) s.
Proof.
  intros W Hp. unfold prep_release. unfold pool_ok, entries in Hp.
  rewrite fmap_app in Hp. apply NoDup_app in Hp as (Hp1 & Hp12 & Hp2).
  assert (∀ e, e ∈ entries p → pool_node s B e.1) as Hin.
  { intros [n u] He. eapply wf_pool_node; [exact W|]. apply elem_of_pool. by exists u. }
  apply wp_bind, wp_free_all; [done| |].
  { intros e He. destruct (Hin e) as (_ & _ & ob & -> & _); [unfold entries; set_solver|by eexists]. }
  set (s1 := set_t_nodes _ s). apply wp_free_all; [done| |].
  { intros e He. cbn. rewrite lookup_delete_all, decide_False.
    - destruct (Hin e) as (_ & _ & ob & -> & _); [unfold entries; set_solver|by eexists].
    - intros Hx. apply (Hp12 _ Hx). by apply list_elem_of_fmap_2. }
  cbn. set (s2 := set_t_nodes _ s1).
  assert (∀ n, t_nodes s2 !! n = if decide (n ∈ pool p) then None else t_nodes s !! n) as N2.
  { intros n. cbn. rewrite !lookup_delete_all.
    assert (n ∈ pool p ↔ n ∈ (omap id (inline p)).*1 ∨ n ∈ (spill p).*1) as Hn.
    { unfold pool. rewrite elem_of_list_to_set. unfold entries. by rewrite fmap_app, elem_of_app. }
    repeat case_decide; tauto. }
  assert (same_tree s s2 (pool p)) as HS by (split; try done; intros n Hn; by rewrite N2, decide_False).
  split; [|by split]. eapply wf_drop_pool; [done..|]. intros n Hn. by rewrite N2, decide_True.
Qed.

(** ** The contract of an insert at rest *)

Definition insert_done s B m (l : loc) key mode count (hint : option Hint) (r : option Outcome * option Hint) s' : Prop :=
  match r.1 with
  | Some (Inserted l') => l' = l ∧ m !! key = None ∧ leaves_kept s s' l ∧
      ∃ B', inserted s m l key (counted count s) s' B' ∅ ∧
        (r.2 = hint ∨ ∃ h', r.2 = Some h' ∧ hint_ok s' B' key h')
  | Some (Replaced old) => mode = Replace ∧ m !! key = Some old ∧ leaf_replaced s s' old l ∧
      inserted s m l key (t_len s) s' B ∅ ∧ stepped s B s' ∧ r.2 = hint
  | Some (Existing old) => mode = InsertIfAbsent ∧ m !! key = Some old ∧ wf s' B m ∅ ∧ same_tree s s' ∅ ∧ r.2 = hint
  | None => storage_refuses s' ∧ wf s' B m ∅ ∧ same_tree s s' ∅ ∧ r.2 = hint
  end.

Lemma same_stepped s s' B P : same_tree s s' P → P = ∅ → stepped s B s'.
Proof.
  intros HS ->. split; [|by rewrite (sm_retired_nodes _ _ _ HS)]. intros n ob Hn _. exists ob. split; [|by left].
  rewrite (sm_nodes _ _ _ HS); [done|]. set_solver.
Qed.

(** Releasing the pool of a tree that had none at the start. *)
Lemma released_same s s1 s2 B m P : wf s B m ∅ → wf s1 B m P → same_tree s s1 P → wf s2 B m ∅ → same_tree s1 s2 P →
  same_tree s s2 ∅.
Proof.
  intros W W1 S1 W2 S2. destruct (same_tree_trans s s1 s2 P P (reflexivity P) S1 S2) as [F1 F2 F3 F4 F5 F6 F7 F8 F9].
  split; try done. intros n _. destruct (decide (n ∈ P)) as [Hn|Hn]; [|by apply F9].
  destruct (wf_pool_node _ _ _ _ _ W1 Hn) as (H1 & H2 & _).
  assert (n ∉ t_retired_nodes s) as H3 by by rewrite <- (sm_retired_nodes _ _ _ S1).
  assert (n ∉ t_retired_nodes s2) as H4 by by rewrite (sm_retired_nodes _ _ _ S2).
  destruct (wf_nodes _ _ _ _ W n) as [ob _ [? ?]|ob|ob|E]; [congruence|done|set_solver|].
  destruct (wf_nodes _ _ _ _ W2 n) as [ob _ [? ?]|ob|ob|E']; [congruence|done|set_solver|]. congruence.
Qed.

Lemma hint_ok_same s1 s2 B m P key h : wf s1 B m P → same_tree s1 s2 P → hint_ok s1 B key h → hint_ok s2 B key h.
Proof.
  intros W HS (n & p & ob & H1 & H2 & H3 & H4). exists n, p, ob. rewrite (sm_nodes _ _ _ HS); [done|].
  intros Hn. destruct (wf_pool_node _ _ _ _ _ W Hn). congruence.
Qed.

Lemma leaves_kept_same s s1 s2 P l : same_tree s1 s2 P → leaves_kept s s1 l → leaves_kept s s2 l.
Proof. intros [_ _ _ _ F1 _ F2 F3 _] [K1 K2 K3]. split; congruence. Qed.

Lemma leaf_replaced_same s s1 s2 P old l : same_tree s1 s2 P → leaf_replaced s s1 old l → leaf_replaced s s2 old l.
Proof.
  intros [_ _ _ _ F1 _ F2 F3 _] (x & x1 & Hx & Hm & [K1 K2 K3 K4 K5]). exists x, x1. split_and!; [done..|]. split; congruence.
Qed.

Lemma inserted_same s s1 s2 m l key len B' P : same_tree s1 s2 P → wf s2 B' (<[key := l]> m) ∅ →
  inserted s m l key len s1 B' P → inserted s m l key len s2 B' ∅.
Proof. intros [_ _ F1 F2 _ _ _ _ _] W [_ K1 K2]. split; [done|congruence..]. Qed.

Lemma stepped_same s s1 s2 B m P : same_tree s1 s2 P → wf s1 B m P → stepped s B s1 → stepped s B s2.
Proof.
  intros HS W [H1 H2]. split; [|by rewrite (sm_retired_nodes _ _ _ HS)]. intros n ob Hn Hl.
  rewrite (sm_nodes _ _ _ HS); [by apply H1|]. intros HP. destruct (wf_pool_node _ _ _ _ _ W HP) as (E1 & E2 & _).
  rewrite E1, <- H2 in *. destruct Hl as [[? ?]|?]; done.
Qed.

Lemma insert_hinted_spec retries s m B l key mode count hint :
  (0 < retries)%nat → wf s B m ∅ → l ∈ t_owned s → live_key s l = Some key → replaceable mode →
  wp (insert_hinted retries l key mode count hint) (insert_done s B m l key mode count hint) s.
Proof.
  intros Hr W Ho Hk Hmark. destruct prep_new_empty as (N1 & N2 & _). unfold insert_hinted, insert_with. apply wp_bind, wp_bind.
  unfold owner_ptr. apply wp_bind. eapply wp_exec; [done|]. rewrite bool_decide_true by done. apply wp_ret.
  apply wp_loop_once; [done|]. eapply wp_mono; [eapply (insert_attempt_spec s m B prep_new l); [by rewrite N2|done..]|].
  intros [?|[[o p'] h]] s1; [done|]. intros [Hp' HO]. apply wp_bind.
  destruct o as [[l'|old|old]|].
  - destruct HO as (-> & Hm & LK & B' & HI & Hh). pose proof (in_wf _ _ _ _ _ _ _ _ HI) as W1.
    eapply wp_mono; [by eapply prep_release_spec|]. intros _ s2 (W2 & HS & ES). apply wp_ret.
    split_and!; [done..|by eapply (leaves_kept_same s s1)|]. exists B'. split; [by eapply (inserted_same s s1)|].
    destruct Hh as [?|(h' & -> & Hh')]; [by left|right]. exists h'. split; [done|]. by eapply (hint_ok_same s1).
  - destruct HO as (Hmo & Hm & LU & HI & ST & Hh). pose proof (in_wf _ _ _ _ _ _ _ _ HI) as W1.
    eapply wp_mono; [by eapply prep_release_spec|]. intros _ s2 (W2 & HS & ES). apply wp_ret.
    split_and!; [done..|by eapply (leaf_replaced_same s s1)|by eapply (inserted_same s s1)|by eapply (stepped_same s s1)|done].
  - destruct HO as (Hmo & Hm & W1 & S1 & Hh).
    eapply wp_mono; [by eapply prep_release_spec|]. intros _ s2 (W2 & HS & ES). apply wp_ret.
    split_and!; [done..|by eapply (released_same s s1)|done].
  - destruct HO as (HF & W1 & S1 & Hh).
    eapply wp_mono; [by eapply prep_release_spec|]. intros _ s2 (W2 & HS & ES). apply wp_ret.
    split_and!; [|done|by eapply (released_same s s1)|done]. unfold storage_refuses. by rewrite ES.
Qed.

(** The hint once its node was latched and unlocked. *)
Definition hint_bumped (h : Hint) : Hint :=
  {| hint_node := hint_node h; hint_version := unlock {| g_v := hint_version h |}; hint_depth := hint_depth h |}.

(** [s] with the node [n] latched and unlocked once, holding [nd]. *)
Definition node_bumped s (n : loc) (nd : node raw) : RawTree L St :=
  from_option (λ ob, put_node s n {| o_latch := unlock {| g_v := o_latch ob |}; o_node := nd |}) s (t_nodes s !! n).

(** The node of the hint, what it holds, and the byte of [key] below it. *)
Definition hint_at s (key : path) (h : Hint) (n : loc) (nd : node raw) (y : byte) : Prop :=
  hint_node h = NodeAt n ∧ nodes_of s !! n = Some nd ∧ key !! hint_depth h = Some y.

(** The fast path adds the leaf to the hint's node if that has room and no
    child at the byte. Else it declines: at the end of the key the state is the
    same, and otherwise but for the version of the hint's node. *)
Definition hint_fast s B m (l : loc) (key : path) count (h : Hint) (r : option Outcome * Hint) s' : Prop :=
  hint_ok s' B key r.2 ∧
  match r.1 with
  | Some o => o = Inserted l ∧ m !! key = None ∧ leaves_kept s s' l ∧
      inserted s m l key (counted count s) s' B ∅ ∧ r.2 = hint_bumped h ∧
      ∃ n nd y nd', hint_at s key h n nd y ∧ find_child nd y = None ∧ is_full nd = false ∧
        insert_child_raw nd y (LeafAt l) = Some nd' ∧
        s' = set_t_owned (t_owned s ∖ {[l]}) (set_t_len (counted count s) (node_bumped s n nd'))
  | None => wf s' B m ∅ ∧
      (key !! hint_depth h = None ∧ r.2 = h ∧ s' = s ∨
       ∃ n nd y, hint_at s key h n nd y ∧ (is_Some (find_child nd y) ∨ is_full nd = true) ∧
         r.2 = hint_bumped h ∧ s' = node_bumped s n nd)
  end.

(** What a client of the fast path needs to know of it. *)
Lemma hint_fast_cases s B m l key count h r s' : hint_fast s B m l key count h r s' →
  hint_ok s' B key r.2 ∧ (r.2 = h ∨ r.2 = hint_bumped h) ∧
  match r.1 with
  | Some o => o = Inserted l ∧ m !! key = None ∧ leaves_kept s s' l ∧ inserted s m l key (counted count s) s' B ∅
  | None => wf s' B m ∅ ∧ t_owned s' = t_owned s ∧ t_leaves s' = t_leaves s ∧ t_len s' = t_len s
  end.
Proof.
  intros [HO HD]. split; [done|]. destruct r as [[o|] h']; cbn [fst snd] in *.
  - destruct HD as (? & ? & ? & ? & ? & _). by split; [right|].
  - destruct HD as (? & [(_ & -> & ->)|(n & nd & y & _ & _ & -> & ->)]); [by split; [left|]|]. split; [by right|].
    split; [done|]. unfold node_bumped. by destruct (t_nodes s !! n).
Qed.

Lemma hint_on_path s B m P (key : path) h n (p : path) ob : wf s B m P → hint_node h = NodeAt n → B !! n = Some p →
  t_nodes s !! n = Some ob → p ++ pfx (o_node ob) `prefix_of` key → on_path s B key n p ob.
Proof.
  intros W _ Hn Ho Hp. destruct (wf_linked _ _ _ _ _ _ W Hn) as (ob' & ? & ? & ?).
  assert (ob' = ob) as -> by congruence. split; try done. by eapply prefix_app_self.
Qed.

Lemma insert_at_hint_spec s m B l key count h :
  wf s B m ∅ → l ∈ t_owned s → live_key s l = Some key → hint_ok s B key h →
  wp (insert_at_hint h l key count) (hint_fast s B m l key count h) s.
Proof.
  intros W Ho Hk Hh. pose proof Hh as (n & p & ob & E1 & Hp & Hn & Ev & Ed & Hpre). destruct h as [r v d]; cbn in *. subst r v d.
  pose proof (hint_on_path s B m ∅ key {| hint_node := NodeAt n; hint_version := 0; hint_depth := 0 |} n p ob W eq_refl Hp Hn Hpre) as O.
  pose proof (op_quiet _ _ _ _ _ _ O) as Hq.
  unfold insert_at_hint; cbn [hint_node hint_version hint_depth]. destruct (key !! length (p ++ pfx (o_node ob))) as [y|] eqn:Hy.
  2: { apply wp_ret. split; [done|]. split; [done|]. by left. }
  assert (hint_at s key {| hint_node := NodeAt n; hint_version := o_latch ob; hint_depth := length (p ++ pfx (o_node ob)) |} n (o_node ob) y) as HA
    by (split_and!; [done|by rewrite lookup_nodes_of, Hn|done]).
  destruct (at_branch _ _ _ _ W _ _ _ _ O y inhabitant Hpre Hy) as (K & HN & _).
  apply wp_bind, wp_node_ref, wp_bind. eapply wp_try_upgrade; [done..|].
  apply wp_bind. eapply wp_node_read; [apply lookup_insert_eq|]. cbn [o_node].
  apply wp_bind. eapply (wp_mono _ (λ f s', s' = put_node s n {| o_latch := o_latch ob + 1; o_node := o_node ob |} ∧
    f = bool_decide (is_Some (find_child (o_node ob) y)) || is_full (o_node ob))).
  { case_bool_decide; [by apply wp_ret|]. eapply wp_node_read; [apply lookup_insert_eq|]. done. }
  intros f ? [-> ->]. destruct (bool_decide _ || _) eqn:Ef.
  - apply wp_bind. eapply wp_node_unlock; [apply lookup_insert_eq|]. apply wp_ret. split.
    + exists n, p. eexists. split_and!; [done..|apply lookup_insert_eq|done|done|done].
    + split; [state_eq; by apply (wf_put_latch s B m ∅ n p); [..|apply quiet_unlock]|]. right. exists n, (o_node ob), y.
      split; [done|]. apply orb_true_iff in Ef. rewrite bool_decide_eq_true in Ef. split_and!; [done..|].
      unfold node_bumped. rewrite Hn. cbn [from_option]. by state_eq.
  - apply orb_false_iff in Ef as [Ef Hroom]. apply bool_decide_eq_false in Ef.
    rewrite <- eq_None_not_Some in Ef. specialize (HN Ef).
    destruct (insert_child_spec (o_node ob) y (LeafAt l) (op_ok _ _ _ _ _ _ O) Ef) as (nd' & Ei & Hok & Hhd & F); [done| |].
    { apply bool_decide_eq_false in Hroom. lia. }
    apply wp_bind. unfold owner_ptr. apply wp_bind. eapply wp_exec; [done|]. rewrite bool_decide_true by done. apply wp_ret.
    apply wp_bind, wp_len_add, wp_bind, wp_owner_disarm, wp_bind.
    eapply wp_node_write; [apply lookup_insert_eq|by apply quiet_locked|exact Ei|].
    apply wp_bind. eapply wp_node_unlock; [apply lookup_insert_eq|]. apply wp_ret. split.
    + exists n, p. eexists. split_and!; [done..|apply lookup_insert_eq|done| |]; cbn [o_node snd hint_depth];
        (replace (pfx nd') with (pfx (o_node ob)) by (unfold pfx; by rewrite (proj1 (proj2 Hhd)))); done.
    + cbn [fst]. split_and!; [done..| |done|].
      2: { exists n, (o_node ob), y, nd'. split_and!; [done..|]. unfold node_bumped. rewrite Hn. cbn [from_option]. by state_eq. }
      split; [|done..]. state_eq.
      eapply (store_new s m B prep_new l key InsertIfAbsent count None backoff_new W) with (q := p) (sl := SlotChild n y) (q0 := (p ++ pfx (o_node ob)) ++ [y]) (x0 := false); try done.
      * apply prep_new_empty.
      * by eapply node_slot_set.
      * left. exists y. by rewrite F, decide_True.
      * by apply quiet_unlock.
      * by eapply node_slot.
Qed.
End attempt.
