(* ===== verification/Remove.v ===== *)
(** * Removes ([src/raw/remove.rs])

    A remove takes one leaf out of its node, or unlinks the node with it when
    the leaf was its last entry; [unlink_emptied] goes on upwards while the
    node above is left empty. [matches] and [confirm] are the callbacks of
    [remove_confirmed]: programs over the leaf they are given. *)

From S2P Require Import Prelude Bytes Latch Slot Bits Node Free Mem Raw Read.
Local Open Scope Z_scope.

(** The result of an emptying remove's latched section. *)
Inductive Unlink := UnlinkRetry | UnlinkRefused | UnlinkDone (follow_up : bool).

Section remove.
Context {L : Type} `{LeafNode L}.
Abbreviation prog := (prog L).

Definition node_emptied_by (n : loc) (t : Taken) : prog bool := NodeRead n (λ nd, emptied_by nd t).

Definition take_out (n : loc) (taken : Taken) : prog unit :=
  match taken with
  | Exact => node_set_exact_leaf n NULL
  | Child byte => node_remove_child n byte
  | Nothing => mret tt
  end.

(** Whether a parent is left empty. *)
Definition guard_emptied (pg : ParentGuard) : prog bool :=
  match pg with
  | GuardNode p _ _ => node_emptied_by p Nothing
  | GuardRoot _ => mret false
  end.

(** ** The follow-up *)

(** The ancestors of the node at hand, the nearest first: node, version, byte
    to its child. *)
Definition parent_of (path : list (raw * Z * byte)) : Parent :=
  match path with
  | [] => ParentRoot
  | (r, version, byte) :: _ => ParentNode r version byte
  end.

Definition emptied_state : Type := SpinBackoff.
Definition descent_state : Type := list (raw * Z * byte) * raw * nat.

(** One step down to the last inner node on [key]'s path: [Break (Break _)]
    is that node, empty, with its ancestors and its version; [None], no such
    node. *)
Definition emptied_down (key : list byte) (b : SpinBackoff) (c : descent_state)
    : prog (flow descent_state (flow SpinBackoff (option (list (raw * Z * byte) * raw * Z)))) :=
  let '(path, node_raw, depth) := c in
  node ← node_ref node_raw;
  v ← node_read_version node;
  match v with
  | None => mret (Break (Continue (spin b).2))
  | Some v =>
    linked ← still_parent (parent_of path) node_raw;
    if negb linked then mret (Break (Continue b))
    else
      prefix ← trigger (NodeRead node load_prefix);
      let rest := key_from key depth in
      let node_depth := (depth + ps_len prefix)%nat in
      next ← match key !! node_depth with
             | Some byte =>
               if is_prefix_of prefix rest then
                 c ← trigger (NodeRead node (λ nd, find_child nd byte));
                 mret (match c with
                       | Some c => if is_leaf c then None else Some (byte, c)
                       | None => None
                       end)
               else mret None
             | None => mret None
             end;
      match next with
      | Some (byte, c) => mret (Continue ((node_raw, v, byte) :: path, c, S node_depth))
      | None =>
        empty ← node_emptied_by node Nothing;
        ok ← node_validate node v;
        if negb ok then mret (Break (Continue b))
        else if negb empty then mret (Break (Break None))
        else mret (Break (Break (Some (path, node_raw, v))))
      end
  end.

(** One step up: unlinks the empty node at hand. *)
Definition emptied_up (b : SpinBackoff) (c : list (raw * Z * byte) * raw * Z)
    : prog (flow (list (raw * Z * byte) * raw * Z) (flow SpinBackoff unit)) :=
  let '(path, x_raw, xv) := c in
  x ← node_ref x_raw;
  pg ← lock_parent (parent_of path) x_raw;
  match pg with
  | None => mret (Break (Continue (spin b).2))
  | Some pg =>
    xw ← node_try_upgrade x xv;
    match xw with
    | None => _ ← pg_drop pg; mret (Break (Continue (spin b).2))
    | Some xw =>
      e ← node_emptied_by x Nothing;
      _ ← debug_assert e;
      _ ← unlink_in_parent pg;
      _ ← node_mark_obsolete x xw;
      above_empty ← guard_emptied pg;
      unlocked ← pg_unlock pg;
      _ ← trigger (RetireNode x);
      if negb above_empty then mret (Break (Break tt))
      else match unlocked, path with
           | Some pv, (p_raw, _, _) :: path => mret (Continue (path, p_raw, pv))
           | _, _ => mret (Break (Break tt))
           end
    end
  end.

(** One attempt of the follow-up. *)
Definition emptied_attempt (key : list byte) (b : SpinBackoff) : prog (flow SpinBackoff unit) :=
  root ← root;
  match root with
  | NodeAt _ =>
    found ← loop (S (length key)) (emptied_down key b) ([], root, 0%nat);
    match found with
    | Continue b => mret (Continue b)
    | Break None => mret (Break tt)
    | Break (Some c) => loop (S (length key)) (emptied_up b) c
    end
  | _ => mret (Break tt)
  end.

Definition unlink_emptied (retries : nat) (key : list byte) : prog unit :=
  loop retries (emptied_attempt key) backoff_new.

(** ** The remove *)

Section remove_confirmed.
Context (key : list byte) (matches : loc → prog bool) (confirm : loc → prog (option Z)) (retries : nat).

Definition remove_verdict : Type := flow SpinBackoff (option loc).

(** The latched part of a remove that takes the last entry of [node]. *)
Definition remove_unlinking (parent : Parent) (node_raw : raw) (v : Z) (taken : Taken) (leaf : loc)
    : prog Unlink :=
  node ← node_ref node_raw;
  pg ← lock_parent parent node_raw;
  match pg with
  | None => mret UnlinkRetry
  | Some pg =>
    nw ← node_try_upgrade node v;
    match nw with
    | None => _ ← pg_drop pg; mret UnlinkRetry
    | Some nw =>
      e ← node_emptied_by node taken;
      _ ← debug_assert e;
      count ← confirm leaf;
      match count with
      | None => _ ← node_drop node nw; _ ← pg_drop pg; mret UnlinkRefused
      | Some count =>
        _ ← unlink_in_parent pg;
        _ ← leaf_mark_removed leaf;
        _ ← len_add (- count);
        _ ← node_mark_obsolete node nw;
        follow_up ← guard_emptied pg;
        _ ← pg_drop pg;
        _ ← trigger (RetireLeaf leaf);
        _ ← trigger (RetireNode node);
        mret (UnlinkDone follow_up)
      end
    end
  end.

(** The root is the single leaf. *)
Definition remove_root_leaf (b : SpinBackoff) (r0 : raw) : prog remove_verdict :=
  leaf ← leaf_ref r0;
  m ← matches leaf;
  if negb (m : bool) then mret (Break None)
  else
    w ← root_lock;
    r ← root;
    if negb (bool_decide (r = r0)) then _ ← root_drop w; mret (Continue b)
    else
      count ← confirm leaf;
      match count with
      | None => _ ← root_drop w; mret (Break None)
      | Some count =>
        _ ← set_root NULL;
        _ ← leaf_mark_removed leaf;
        _ ← len_add (- count);
        _ ← root_drop w;
        _ ← trigger (RetireLeaf leaf);
        mret (Break (Some leaf))
      end.

(** [node] keeps an entry: lock only [node]. *)
Definition remove_keeping (b : SpinBackoff) (node : loc) (v : Z) (taken : Taken) (leaf : loc)
    : prog remove_verdict :=
  nw ← node_try_upgrade node v;
  match nw with
  | None => mret (Continue (spin b).2)
  | Some nw =>
    count ← confirm leaf;
    match count with
    | None => _ ← node_drop node nw; mret (Break None)
    | Some count =>
      _ ← take_out node taken;
      _ ← leaf_mark_removed leaf;
      _ ← len_add (- count);
      _ ← node_drop node nw;
      _ ← trigger (RetireLeaf leaf);
      mret (Break (Some leaf))
    end
  end.

(** [node] is left empty: unlink it too. *)
Definition remove_emptying (b : SpinBackoff) (parent : Parent) (node_raw : raw) (v : Z) (taken : Taken) (leaf : loc)
    : prog remove_verdict :=
  u ← remove_unlinking parent node_raw v taken leaf;
  match u with
  | UnlinkRetry => mret (Continue (spin b).2)
  | UnlinkRefused => mret (Break None)
  | UnlinkDone follow_up =>
    _ ← (if follow_up : bool then unlink_emptied retries key else mret tt);
    mret (Break (Some leaf))
  end.

(** The slot of the key was read from [node]. *)
Definition remove_at (b : SpinBackoff) (parent : Parent) (node_raw : raw) (node : loc) (v : Z)
    (slot : raw) (taken : Taken) : prog remove_verdict :=
  empties ← node_emptied_by node taken;
  ok ← node_validate node v;
  if negb ok then mret (Continue b)
  else if is_null slot then mret (Break None)
  else
    leaf ← leaf_ref slot;
    m ← matches leaf;
    if negb (m : bool) then mret (Break None)
    else if empties : bool then remove_emptying b parent node_raw v taken leaf
    else remove_keeping b node v taken leaf.

(** One turn of the descent. *)
Definition remove_turn (b : SpinBackoff) (cursor : Parent * raw * nat)
    : prog (flow (Parent * raw * nat) remove_verdict) :=
  let '(parent, node_raw, depth) := cursor in
  node ← node_ref node_raw;
  v ← node_read_version node;
  match v with
  | None => mret (Break (Continue (spin b).2))
  | Some v =>
    linked ← still_parent parent node_raw;
    if negb linked then mret (Break (Continue b))
    else
      prefix ← trigger (NodeRead node load_prefix);
      if negb (is_prefix_of prefix (key_from key depth)) then
        ok ← node_validate node v;
        mret (Break (if negb ok then Continue b else Break None))
      else
        let node_depth := (depth + ps_len prefix)%nat in
        if decide (node_depth = length key) then
          slot ← trigger (NodeRead node exact_leaf);
          r ← remove_at b parent node_raw node v slot Exact; mret (Break r)
        else
          byte ← expect (key !! node_depth);
          child ← trigger (NodeRead node (λ nd, find_child nd byte));
          match child with
          | Some (NodeAt _ as c) => mret (Continue (ParentNode node_raw v byte, c, S node_depth))
          | _ =>
            r ← remove_at b parent node_raw node v (default NULL child) (Child byte);
            mret (Break r)
          end
  end.

Definition remove_attempt (b : SpinBackoff) : prog remove_verdict :=
  r0 ← root;
  match r0 with
  | Null => mret (Break None)
  | LeafAt _ => remove_root_leaf b r0
  | NodeAt _ => loop (S (length key)) (remove_turn b) (ParentRoot, r0, 0%nat)
  end.

Definition remove_confirmed : prog (option loc) := loop retries remove_attempt backoff_new.
End remove_confirmed.

Definition remove (key : list byte) (matches : loc → prog bool) (retries : nat) : prog (option loc) :=
  remove_confirmed key matches (λ _, mret (Some 1)) retries.
End remove.
