(* ===== verification/RemoveSpec.v ===== *)
(** * Removes keep the tree and its map

    What [remove_confirmed] does to a tree at rest: it unlinks the key's leaf,
    marks it removed and retires it once, and with it every node that it leaves
    empty, so that no empty node is left at rest; or it changes nothing but
    latch versions. Between the latched sections of one remove the node whose
    last entry is gone is exempt from the rule that nodes have an entry;
    [unlink_emptied_spec] discharges the exemption. *)

From S2P Require Import Prelude Bytes Latch Slot Bits Node NodeSpec NodeOps Free Mem Shape Raw Read Remove Inv Descent Commit Update Pool Guard Commits Rules.
Local Open Scope Z_scope.

(** No exemption. *)
Abbreviation at_rest := (∅ : gset loc).

Section exemptions.
Context {L St : Type} {LN : LeafNode L} {LL : LeafLaws L} {LY : Layout St}.
Implicit Types (s : RawTree L St) (m : gmap path loc) (B : gmap loc path) (P : gset loc).

(** Exchanging the exempt nodes. *)
Lemma wf_exempt (E1 E2 : gset loc) s B m P :
  wf (EX := E1) s B m P →
  (∀ n ob, n ∈ E1 → n ∉ E2 → is_Some (B !! n) → t_nodes s !! n = Some ob → nonempty (o_node ob)) →
  wf (EX := E2) s B m P.
Proof.
  intros [W1 W2 W3 W4 W5 W6 W7 W8] HE. split; try done.
  intros n. destruct (W3 n) as [ob H1 H2 H3 H4 H5 H6 H7|ob H1 H2 H3 H4 H5|ob H1 H2 H3 H4 H5 H6|H1 H2 H3 H4].
  - apply (node_linked (EX := E2)) with ob; try done. intros Hn.
    destruct (decide (n ∈ E1)) as [Hi|Hi]; [by eapply HE|by apply H7].
  - by apply (node_retired (EX := E2)) with ob.
  - by apply (node_pooled (EX := E2)) with ob.
  - by apply (node_free (EX := E2)).
Qed.

Lemma wf_exempt_more (E1 E2 : gset loc) s B m P : E1 ⊆ E2 → wf (EX := E1) s B m P → wf (EX := E2) s B m P.
Proof. intros HE W. eapply wf_exempt; [exact W|]. set_solver. Qed.

(** Never compute the list of children while comparing terms. *)
#[local] Opaque all_bytes children_list child_count.

Lemma emptied_nonempty (nd : node raw) : node_ok nd → emptied_by nd Nothing = false ↔ nonempty nd.
Proof.
  intros Hok. rewrite <- not_true_iff_false, emptied_by_spec by done. unfold nonempty. split.
  - intros H. destruct (decide (exact_leaf nd = Null)) as [E|]; [|by right]. left.
    destruct (children_list (find_child nd)) as [|[b c] es] eqn:El.
    + destruct H. split; [|done]. intros x Hx. destruct Hx.
      apply child_count_0. by rewrite child_count_length, El.
    + exists b, c. apply elem_of_children_list. rewrite El. by left.
  - intros [[b [c Hb]]|Hx] [H1 H2].
    + by specialize (H1 b); rewrite Hb in H1; specialize (H1 ltac:(done)).
    + by specialize (H2 Hx).
Qed.

Lemma emptied_empty (nd : node raw) : node_ok nd → emptied_by nd Nothing = true ↔
  (∀ b, find_child nd b = None) ∧ exact_leaf nd = Null.
Proof.
  intros Hok. rewrite emptied_by_spec by done. split.
  - intros [H1 H2]. split.
    + intros b. destruct (find_child nd b) eqn:E; [|done]. by specialize (H1 b ltac:(by rewrite E)).
    + destruct (decide (exact_leaf nd = Null)) as [|Hx]; [done|]. by specialize (H2 Hx).
  - intros [H1 H2]. split; [|done]. intros x Hx. by rewrite H1 in Hx.
Qed.

Lemma empty_no_edges β (nd : node raw) q x r : (∀ b, find_child nd b = None) → exact_leaf nd = Null →
  ¬ node_edges β nd q x r.
Proof. intros H1 H2 [(_ & b & E & _)|(_ & E & ? & _)]; [by rewrite H1 in E|congruence]. Qed.
End exemptions.

(** ** The node at hand leaves its parent *)

Section unlinking.
Context {L St : Type} {LN : LeafNode L} {LL : LeafLaws L} {LY : Layout St} {EX : Exempt}.
Implicit Types (s : RawTree L St) (m : gmap path loc) (B : gmap loc path) (P : gset loc) (pg : ParentGuard).

(** The parent that the section may leave empty. *)
Definition guard_exempt pg : gset loc := match pg with GuardRoot _ => ∅ | GuardNode a _ _ => {[a]} end.

Lemma not_apart_exempt pg a : ¬ apart pg a → a ∈ guard_exempt pg.
Proof. destruct pg; cbn; [tauto|]. intros Ha. destruct (decide (a = p)); [set_solver|tauto]. Qed.

Section node.
Context (s s3 : RawTree L St) (B : gmap loc path) (m : gmap path loc) (P : gset loc).
Context (pg : ParentGuard) (v v' : pview) (n : loc) (p : path) (ob ob' : NodeObj).
Context (W : wf s B m P) (G : guards s B pg v n p) (Hst : stored pg v v' None).
Context (HX : guard_exempt pg ⊆ exempt).
Context (Hp : B !! n = Some p) (Hn : t_nodes s !! n = Some ob).
Context (Hn3 : t_nodes s3 !! n = Some ob') (Hobs : is_obsolete (o_latch ob') = true).
Context (HN : ∀ a, a ≠ n → t_nodes s3 !! a = t_nodes s !! a).
Context (HR : t_retired_nodes s3 = n :: t_retired_nodes s).
Context (ER : t_root s3 = t_root s) (ERL : t_root_latch s3 = t_root_latch s).
Context (Elen : length (t_len s3) = length (t_len s)) (Estr : t_stripe s3 = t_stripe s).

Abbreviation s' := (overlay pg (with_word (freed pg) v') s3).
Abbreviation N1 := (nodes_of (overlay pg (with_word (freed pg) v') s)).

Lemma unlinked_apart : apart pg n.
Proof using G. by eapply guards_apart. Qed.

Lemma unlinked_status a : node_status s' (delete n B) P a.
Proof using All.
  destruct (overlay_fields pg (with_word (freed pg) v') s3) as (_ & _ & _ & _ & _ & F6).
  destruct (wf_nodes _ _ _ _ W n) as [ob0 D1 D2 D3 D4 D5 D6 D7| | |]; [|congruence..].
  destruct (decide (a = n)) as [->|Hne].
  - apply node_retired with ob'; [|apply lookup_delete_eq|rewrite F6, HR; set_solver|done|done].
    rewrite overlay_lookup by apply unlinked_apart. exact Hn3.
  - destruct (decide (apart pg a)) as [Ha|Ha].
    + eapply node_frame; [|by rewrite lookup_delete_ne| |done|apply W].
      * rewrite overlay_lookup by done. by apply HN.
      * rewrite F6, HR. set_solver.
    + eapply overlay_parent_status; [exact W|exact G|exact Hst|by eapply freed_quiet| | | |exact Ha|done].
      * right. exists n. split; [done|]. apply unlinked_apart.
      * intros a' Ha' Hl. rewrite lookup_delete_ne; [done|]. intros <-. apply Ha', unlinked_apart.
      * intros _ a' Ha'%not_apart_exempt He. set_solver.
Qed.

Lemma unlinked_set : slot_set (t_root s) (nodes_of s) (guard_slot pg) None (t_root s') N1.
Proof using All.
  replace (t_root s') with (t_root (overlay pg (with_word (freed pg) v') s)).
  - eapply overlay_slot_set; [exact G|done..].
  - destruct pg; [done|]. by symmetry.
Qed.

Lemma unlinked_nodes a : a ≠ n → nodes_of s' !! a = N1 !! a.
Proof using All.
  intros Hne. rewrite !lookup_nodes_of. destruct (decide (apart pg a)).
  - by rewrite !overlay_lookup, HN by done.
  - destruct pg as [|a0]; [done|]. cbn in *. assert (a = a0) as -> by (destruct (decide (a = a0)); tauto).
    unfold put_node; cbn. by rewrite !lookup_insert_eq.
Qed.

Lemma unlinked_node : N1 !! n = Some (o_node ob).
Proof using All. rewrite lookup_nodes_of, overlay_lookup by apply unlinked_apart. by rewrite Hn. Qed.

Lemma unlinked_orderly : orderly s s'.
Proof using All.
  destruct (overlay_fields pg (with_word (freed pg) v') s3) as (F1 & F2 & _). split.
  - apply overlay_quiet; [|by eapply freed_quiet]. rewrite ERL. apply W.
  - by rewrite F1.
  - by rewrite F2.
Qed.

Lemma unlinked_retired : NoDup (t_retired_nodes s').
Proof using All.
  destruct (overlay_fields pg (with_word (freed pg) v') s3) as (_ & _ & _ & _ & _ & ->). rewrite HR.
  apply NoDup_cons. split; [|apply W]. destruct (wf_nodes _ _ _ _ W n); [done|congruence..].
Qed.

Lemma unlinked_last old x1 k :
  (∀ q x a, ¬ node_edges (p ++ pfx (o_node ob)) (o_node ob) q x (NodeAt a)) →
  m !! k = Some old → (∃ q x, node_edges (p ++ pfx (o_node ob)) (o_node ob) q x (LeafAt old)) →
  (∀ q x l, node_edges (p ++ pfx (o_node ob)) (o_node ob) q x (LeafAt l) → l = old) →
  leaf_unlinked s s' old x1 (t_owned s) → wf s' (delete n B) (delete k m) P.
Proof using All.
  intros H1 H2 H3 H4 H5.
  eapply (wf_unlink_last s s' B m P P (guard_slot pg) p _ None (t_root s') N1 W (guards_slot_at _ _ _ _ _ _ G) unlinked_set eq_refl
    unlinked_orderly n (o_node ob)); try done.
  - apply unlinked_node.
  - intros. by apply unlinked_nodes.
  - apply unlinked_status.
  - apply unlinked_retired.
Qed.

Lemma unlinked_empty :
  (∀ q x r, ¬ node_edges (p ++ pfx (o_node ob)) (o_node ob) q x r) →
  t_leaves s' = t_leaves s → t_retired_leaves s' = t_retired_leaves s → t_owned s' = t_owned s →
  wf s' (delete n B) m P.
Proof using All.
  intros H1 H2 H3 H4.
  eapply (wf_unlink_empty s s' B m P P (guard_slot pg) p _ None (t_root s') N1 W (guards_slot_at _ _ _ _ _ _ G) unlinked_set eq_refl
    unlinked_orderly n (o_node ob)); try done.
  - apply unlinked_node.
  - intros. by apply unlinked_nodes.
  - apply unlinked_status.
  - apply unlinked_retired.
  - intros l. by apply (leaf_frame s); [..|apply W].
Qed.
End node.
End unlinking.

(** ** The follow-up *)

Section follow_up.
Context {L St : Type} {LN : LeafNode L} {LL : LeafLaws L} {LY : Layout St}.
Implicit Types (s : RawTree L St) (m : gmap path loc) (B : gmap loc path) (P : gset loc) (pg : ParentGuard).

(** The ancestors that the follow-up keeps, at the versions they have. *)
Inductive ancestors s B : list (raw * Z * byte) → loc → path → Prop :=
| ancestors_root n : t_root s = NodeAt n → ancestors s B [] n []
| ancestors_node above a q ob b n : ancestors s B above a q → B !! a = Some q →
    t_nodes s !! a = Some ob → quiet (o_latch ob) → node_ok (o_node ob) →
    find_child (o_node ob) b = Some (NodeAt n) →
    ancestors s B ((NodeAt a, o_latch ob, b) :: above) n (q ++ pfx (o_node ob) ++ [b]).

Lemma ancestors_parent s B above n q : ancestors s B above n q → parent_ok s B n q (parent_of above).
Proof. intros [n' R|above' a q' ob b n' _ H1 H2 H3 H4 H5]; [by constructor|by econstructor]. Qed.

Lemma ancestors_length s B above n q : ancestors s B above n q → (length above <= length q)%nat.
Proof. induction 1; [done|]. rewrite !length_app. cbn. lia. Qed.

(** Only the nodes above matter. *)
Lemma ancestors_frame s s' B B' above n q :
  ancestors s B above n q → t_root s' = t_root s →
  (∀ a qa, B !! a = Some qa → (length qa < length q)%nat → t_nodes s' !! a = t_nodes s !! a ∧ B' !! a = Some qa) →
  ancestors s' B' above n q.
Proof.
  intros H R. induction H as [n R0|above a q ob b n H IH H1 H2 H3 H4 H5]; intros HF.
  - constructor. congruence.
  - assert (length q < length (q ++ pfx (o_node ob) ++ [b]))%nat as Hlt by (rewrite !length_app; cbn; lia).
    destruct (HF a q H1 Hlt) as [E1 E2]. econstructor; [|done|congruence|done..].
    apply IH. intros a' qa' Ha' Hl. apply HF; [done|lia].
Qed.

(** What the follow-up does not touch. *)
Record stable s s' : Prop := {
  sb_leaves : t_leaves s' = t_leaves s;
  sb_retired : t_retired_leaves s' = t_retired_leaves s;
  sb_owned : t_owned s' = t_owned s;
  sb_len : t_len s' = t_len s;
  sb_stripe : t_stripe s' = t_stripe s;
  sb_cell : t_cell s' = t_cell s;
}.

Lemma stable_refl s : stable s s.
Proof. done. Qed.

Lemma stable_trans s1 s2 s3 : stable s1 s2 → stable s2 s3 → stable s1 s3.
Proof. intros [] []. split; congruence. Qed.

Definition guard_empty pg (v : pview) : bool :=
  match pg with GuardRoot _ => false | GuardNode _ _ _ => emptied_by (pv_node v) Nothing end.

Lemma wp_guard_emptied pg v s (Q : bool → RawTree L St → Prop) :
  Q (guard_empty pg v) (overlay pg v s) → wp (guard_emptied pg) Q (overlay pg v s).
Proof. destruct pg as [|a w b]; [done|]. intros HQ. eapply wp_node_read; [apply lookup_insert_eq|exact HQ]. Qed.

(** An exemption that ends with the section. *)
Lemma wf_guard_done s B m P pg v' n p v s0 (X : gset loc) :
  wf (EX := (X ∪ guard_exempt pg : gset loc)) (overlay pg (with_word (freed pg) v') s) (delete n B) m P → X ⊆ {[n]} →
  guards s0 B pg v n p → stored pg v v' None →
  wf (EX := if guard_empty pg v' then guard_exempt pg else at_rest) (overlay pg (with_word (freed pg) v') s) (delete n B) m P.
Proof.
  intros W HX (_ & _ & G) Hst. eapply wf_exempt; [exact W|]. intros a ob Ha Ha2 HB Ho.
  assert (a ≠ n) as Hne by (intros ->; rewrite lookup_delete_eq in HB; by destruct HB).
  destruct pg as [w|a0 w b]; cbn [guard_empty guard_exempt] in *; [set_solver|].
  assert (a = a0) as -> by set_solver. destruct Hst as (_ & Hok & _). cbn in Ho.
  unfold put_node in Ho. cbn in Ho. rewrite lookup_insert_eq in Ho. injection Ho as <-. cbn [o_node pv_node with_word].
  apply emptied_nonempty; [done|]. destruct (emptied_by (pv_node v') Nothing); [set_solver|done].
Qed.

(** One node at hand: empty, linked and exempt. *)
Definition empty_at s B m P (x : loc) (q : path) (ob : NodeObj) : Prop :=
  wf (EX := ({[x]} : gset loc)) s B m P ∧ B !! x = Some q ∧ t_nodes s !! x = Some ob ∧ emptied_by (o_node ob) Nothing = true.

Lemma emptied_up_spec s B m P b above x q ob :
  empty_at s B m P x q ob → ancestors s B above x q →
  wp (emptied_up b (above, NodeAt x, o_latch ob))
    (λ r s', stable s s' ∧
       match r with
       | Break (Break _) => ∃ B', wf (EX := at_rest) s' B' m P
       | Break (Continue _) => False
       | Continue (above', r', v') => ∃ B' x' q' ob', r' = NodeAt x' ∧ v' = o_latch ob' ∧
           empty_at s' B' m P x' q' ob' ∧ ancestors s' B' above' x' q' ∧ (length above' < length above)%nat
       end) s.
Proof.
  intros (W & Hx & Hn & He) HA.
  destruct (wf_linked _ _ _ _ _ _ W Hx) as (ob' & Hn' & Hok & Hq). assert (ob' = ob) as -> by congruence. clear Hn'.
  unfold emptied_up. apply wp_bind, wp_node_ref.
  eapply wp_lock_parent; [exact W|exact Hx|by apply ancestors_parent|].
  intros pg v G. pose proof (guards_apart _ _ _ _ _ _ G) as Hap.
  apply wp_bind. eapply wp_try_upgrade; [by rewrite overlay_lookup|done..|].
  rewrite overlay_put by done. apply wp_bind.
  eapply wp_node_read; [rewrite overlay_lookup by done; apply lookup_insert_eq|]. cbn [o_node]. rewrite He.
  apply wp_bind, wp_ret. apply wp_bind. eapply wp_unlink; [exact G|]. intros v' Hst.
  apply wp_bind. eapply wp_node_mark_obsolete; [rewrite overlay_lookup by done; apply lookup_insert_eq|].
  rewrite overlay_put by done. apply wp_bind, wp_guard_emptied, wp_bind, wp_pg_unlock, wp_bind.
  eapply wp_retire_node; [rewrite overlay_lookup by done; apply lookup_insert_eq|].
  rewrite overlay_set_retired_nodes.
  change (with_word _ (with_word _ v')) with (with_word (freed pg) v').
  change (guard_empty pg (with_word _ v')) with (guard_empty pg v').
  match goal with |- context [overlay _ _ ?s'] => set (s3 := s') end.
  set (obn := {| o_latch := mark_obsolete {| g_v := o_latch ob |}; o_node := o_node ob |}).
  assert (t_nodes s3 !! x = Some obn) as Hn3 by apply lookup_insert_eq.
  assert (∀ a, a ≠ x → t_nodes s3 !! a = t_nodes s !! a) as N3.
  { intros a Ha. do 2 (etrans; [by apply lookup_insert_ne|]). done. }
  assert (t_retired_nodes s3 = x :: t_retired_nodes s) as R3 by (by destruct pg).
  assert (stable s s3) as ST by (split; by destruct pg).
  assert (t_root s3 = t_root s ∧ t_root_latch s3 = t_root_latch s) as [Rt Rl] by done. clearbody s3.
  set (s' := overlay pg (with_word (freed pg) v') s3).
  destruct (overlay_fields pg (with_word (freed pg) v') s3) as (X1 & X2 & X3 & X4 & X5 & X6). fold s' in X1, X2, X3, X4, X5, X6.
  pose proof (overlay_cell pg (with_word (freed pg) v') s3) as X7. fold s' in X7.
  assert (stable s s') as ST' by (destruct ST; split; congruence).
  apply (emptied_empty (o_node ob) Hok) in He as He'. destruct He' as [He1 He2].
  assert (wf (EX := ({[x]} ∪ guard_exempt pg : gset loc)) s' (delete x B) m P) as W'.
  { eapply (unlinked_empty (EX := ({[x]} ∪ guard_exempt pg : gset loc)) s s3 B m P pg v v' x q ob obn);
      [eapply wf_exempt_more; [|exact W]; set_solver|exact G|exact Hst|set_solver|exact Hx|exact Hn|exact Hn3|
       by apply quiet_obsolete|exact N3|exact R3|exact Rt|exact Rl|by rewrite (sb_len _ _ ST)|by rewrite (sb_stripe _ _ ST)| | |..].
    - intros q0 x0 r. by apply empty_no_edges.
    - apply ST'.
    - apply ST'.
    - apply ST'. }
  pose proof (wf_guard_done _ _ _ _ _ _ _ _ _ _ {[x]} W' (reflexivity _) G Hst) as W''.
  destruct (guard_empty pg v') eqn:Eg; wp_simpl.
  2: { apply wp_ret. split; [done|]. by exists (delete x B). }
  destruct pg as [w|a w y]; [done|]. destruct G as (Gw & Gq & qa & Gax & Ga & Gn & Gok & Gc & Gp).
  inversion HA as [n0 R0 E1 E2 E3|above0 a0 q0 ob0 b0 n0 HA0 H1 H2 H3 H4 H5 E1 E2 E3].
  { rewrite <- E3 in Gp. by destruct qa, (pfx (pv_node v)). }
  assert (a0 = a) as ->.
  { destruct (decide (a0 = a)) as [|Hne]; [done|exfalso].
    eapply (slot_not_elsewhere _ _ _ _ a qa (pv_node v) a0 q0 (o_node ob0) q false (wf_edges _ _ _ _ W)); [done|done| |done| | |];
      rewrite ?lookup_nodes_of, ?Gn, ?H2; [done|done|exists y|exists b0]; by rewrite <- (assoc_L (++)). }
  rewrite Gn in H2. injection H2 as <-. rewrite Ga in H1. injection H1 as ->.
  assert (a ≠ x) as Hax by done.
  apply wp_ret. split; [done|]. exists (delete x B), a, q0, {| o_latch := freed (GuardNode a w y); o_node := pv_node v' |}.
  split_and!; [done|done| | |cbn; lia].
  - split; [exact W''|]. rewrite lookup_delete_ne by done. split_and!; [done|apply lookup_insert_eq|exact Eg].
  - eapply ancestors_frame; [exact HA0|exact Rt|]. intros a' qa' Ha' Hl.
    assert (a' ≠ x) as Hx'. { intros ->. rewrite Hx in Ha'. injection Ha' as ->. rewrite Gp, !length_app in Hl. cbn in Hl. lia. }
    assert (a' ≠ a) as Haa. { intros ->. rewrite Ga in Ha'. injection Ha' as ->. lia. }
    rewrite lookup_delete_ne by done. split; [|done]. unfold s'. rewrite overlay_lookup by done. by apply N3.
Qed.

(** The way down ends at the empty node. *)
Section down.
Context s B m P (x : loc) (qx : path) (obx : NodeObj) (key : path).
Context (HE : empty_at s B m P x qx obx) (Hkey : qx `prefix_of` key).

Definition down_ok (c : descent_state) : Prop :=
  ∃ n q ob, c.1.2 = NodeAt n ∧ c.2 = length q ∧ on_path s B key n q ob ∧ ancestors s B c.1.1 n q.

Lemma down_last n q ob : on_path s B key n q ob →
  n = x ∨ ∃ b n', find_child (o_node ob) b = Some (NodeAt n') ∧ (q ++ pfx (o_node ob)) ++ [b] `prefix_of` key.
Proof using All.
  intros O. destruct HE as (W & Hx & Hn & He). pose proof (wf_edges _ _ _ _ W) as EO.
  destruct (wf_linked _ _ _ _ _ _ W Hx) as (ob' & Hn' & Hok & Hq). assert (ob' = obx) as -> by congruence.
  apply (emptied_empty (o_node obx) Hok) in He as [He _].
  destruct (nodes_on_chain _ _ _ _ EO key n x q qx (op_base _ _ _ _ _ _ O) Hx (op_prefix _ _ _ _ _ _ O) Hkey) as [H1 H2].
  destruct (nodes_on_chain _ _ _ _ EO key x n qx q Hx (op_base _ _ _ _ _ _ O) Hkey (op_prefix _ _ _ _ _ _ O)) as [_ H3].
  destruct (lt_eq_lt_dec (length q) (length qx)) as [[Hl|Hl]|Hl]; [|left; auto|].
  - right. destruct (H2 Hl) as (p & nd & b & n' & X1 & X2 & X3 & X4).
    rewrite (op_base _ _ _ _ _ _ O) in X1. rewrite (at_nodes_of _ _ _ _ _ _ O) in X2. simplify_eq.
    exists b, n'. split; [done|]. rewrite <- (assoc_L (++)). by transitivity qx.
  - destruct (H3 Hl) as (p & nd & b & n' & X1 & X2 & X3 & X4).
    rewrite Hx in X1. rewrite lookup_nodes_of, Hn in X2. cbn in X2. simplify_eq. by rewrite He in X3.
Qed.

Lemma emptied_down_spec b c : down_ok c →
  wp (emptied_down key b c)
    (λ r s', s' = s ∧ match r with
       | Continue c' => down_ok c' ∧ (length key - c'.2 < length key - c.2)%nat
       | Break (Break (Some (above, r', v'))) => r' = NodeAt x ∧ v' = o_latch obx ∧ ancestors s B above x qx
       | Break _ => False
       end) s.
Proof using All.
  destruct c as [[above r] depth]. intros (n & q & ob & E1 & E2 & O & HA). cbn in E1, E2, HA. subst r depth.
  destruct HE as (W & Hx & Hnx & He).
  pose proof (op_node _ _ _ _ _ _ O) as Hn. pose proof (op_quiet _ _ _ _ _ _ O) as Hq.
  unfold emptied_down. apply wp_bind, wp_node_ref, wp_bind. eapply wp_read_version; [done..|].
  apply wp_bind. eapply still_parent_spec; [by apply ancestors_parent|]. wp_simpl.
  apply wp_bind. eapply wp_node_read; [done|].
  rewrite (at_is_prefix_of _ _ _ _ _ _ O), (at_depth _ _ _ _ _ _ O).
  apply wp_bind. eapply (wp_mono _ (λ o s', s' = s ∧
    match o with
    | Some (y, c) => (q ++ pfx (o_node ob)) ++ [y] `prefix_of` key ∧ ∃ n', c = NodeAt n' ∧ find_child (o_node ob) y = Some c
    | None => n = x
    end)).
  { assert (∀ Q : Prop, (∀ y n', find_child (o_node ob) y = Some (NodeAt n') → (q ++ pfx (o_node ob)) ++ [y] `prefix_of` key → Q) → n = x ∨ Q) as Hlast.
    { intros Q HQ. destruct (down_last n q ob O) as [|(y & n' & ? & ?)]; [by left|right; eauto]. }
    destruct (key !! length (q ++ pfx (o_node ob))) as [y|] eqn:Hy.
    - case_bool_decide as K.
      + apply wp_bind. eapply wp_node_read; [done|].
        assert (∀ y' n', find_child (o_node ob) y' = Some (NodeAt n') → (q ++ pfx (o_node ob)) ++ [y'] `prefix_of` key → y' = y) as Hyy.
        { intros y' n' _ K'%prefix_lookup_next. congruence. }
        destruct (find_child (o_node ob) y) as [[|l|n']|] eqn:Ec; cbn [is_leaf raw_slot].
        * by apply (find_child_not_null (R := raw)) in Ec.
        * apply wp_ret. split; [done|]. destruct (Hlast False) as [|[]]; [|done].
          intros y' n' E' K'. rewrite (Hyy y' n' E' K') in E'. congruence.
        * apply wp_ret. split; [done|]. split; [by apply prefix_snoc_of_lookup|]. by exists n'.
        * apply wp_ret. split; [done|]. destruct (Hlast False) as [|[]]; [|done].
          intros y' n' E' K'. rewrite (Hyy y' n' E' K') in E'. congruence.
      + apply wp_ret. split; [done|]. destruct (Hlast False) as [|[]]; [|done].
        intros y' n' _ K'. apply K. by eapply prefix_app_self.
    - apply wp_ret. split; [done|]. destruct (Hlast False) as [|[]]; [|done].
      intros y' n' _ K'%prefix_lookup_next. congruence. }
  intros [[y c]|] ? [-> H]; cbv beta iota.
  - destruct H as (K & n' & -> & Ec). apply wp_ret. split; [done|]. cbn [snd]. split.
    + destruct (at_inner _ _ _ _ W _ _ _ _ O y n' K Ec) as [[ob' O'] _].
      exists n', ((q ++ pfx (o_node ob)) ++ [y]), ob'. cbn [fst snd]. split_and!; [done| |done|].
      * rewrite (length_app _ [y]). cbn. lia.
      * rewrite <- (assoc_L (++)). econstructor; try done; apply O.
    + apply prefix_length in K. rewrite (length_app _ [y]), length_app in *. cbn in *. lia.
  - subst n. assert (ob = obx) as -> by congruence.
    assert (q = qx) as -> by (pose proof (op_base _ _ _ _ _ _ O); congruence).
    apply wp_bind. eapply wp_node_read; [done|]. rewrite He. apply wp_bind. eapply wp_validate; [done..|]. wp_simpl.
    by apply wp_ret.
Qed.
End down.

Lemma unlink_emptied_spec s B m P x q ob key retries :
  (0 < retries)%nat → empty_at s B m P x q ob → q `prefix_of` key →
  wp (unlink_emptied retries key) (λ _ s', stable s s' ∧ ∃ B', wf (EX := at_rest) s' B' m P) s.
Proof.
  intros Hr HE Hk. unfold unlink_emptied. apply wp_loop_once; [done|]. unfold emptied_attempt.
  pose proof HE as (W & Hx & Hn & He). destruct (root_is_node _ _ _ _ (wf_edges _ _ _ _ W) x q Hx) as [n0 R].
  apply wp_bind, wp_root. rewrite R. apply wp_bind.
  eapply (wp_mono _ (λ r s', s' = s ∧ ∃ above, r = Break (Some (above, NodeAt x, o_latch ob)) ∧ ancestors s B above x q)).
  { apply (wp_loop (λ c s', s' = s ∧ down_ok s B key c) (λ c, (length key - c.2)%nat)).
    - intros c ? [-> Hc]. eapply wp_mono; [by apply (emptied_down_spec s B m P x q ob)|].
      intros [c'|[?|[[[above r] v]|]]] s' [-> H]; try done; [by destruct H|].
      split; [done|]. destruct H as (-> & -> & ?). by exists above.
    - split; [done|]. destruct (root_on_path _ _ _ _ key _ W R) as [[ob0 O0] _].
      exists n0, [], ob0. split_and!; [done..|]. by constructor.
    - cbn. lia. }
  intros ? ? (-> & above & -> & HA).
  apply (wp_loop (λ c s', stable s s' ∧ ∃ B' x' q' ob', c.1.2 = NodeAt x' ∧ c.2 = o_latch ob' ∧
      empty_at s' B' m P x' q' ob' ∧ ancestors s' B' c.1.1 x' q') (λ c, length c.1.1)).
  - intros [[above' r'] v'] s1 (S1 & B' & x' & q' & ob' & E1 & E2 & HE' & HA'). cbn in E1, E2, HA'. subst r' v'.
    eapply wp_mono; [by eapply emptied_up_spec|].
    intros [[[above2 r2] v2]|[|]] s2 [S2 H]; try done.
    + destruct H as (B2 & x2 & q2 & ob2 & ? & ? & ? & ? & ?). split; [|done]. split; [by eapply stable_trans|].
      by exists B2, x2, q2, ob2.
    + split; [by eapply stable_trans|done].
  - split; [done|]. by exists B, x, q, ob.
  - cbn. apply ancestors_length in HA. apply prefix_length in Hk. lia.
Qed.
End follow_up.

(** ** The remove *)

(** An entry besides the taken one. *)
Section left.
#[local] Opaque all_bytes children_list child_count.

Lemma emptied_by_false (nd : node raw) taken : node_ok nd → taken_in nd taken → emptied_by nd taken = false →
  (∃ x c, others nd taken x = Some c) ∨ (exact_leaf nd ≠ Null ∧ taken ≠ Exact).
Proof.
  intros Hok Ht E. unfold emptied_by in E. rewrite bool_decide_eq_false, entries_left_eq in E by done.
  unfold entries_left in E. destruct (has_exact nd taken) eqn:Hx; [right; by apply has_exact_spec in Hx|left].
  rewrite child_count_length in E. destruct (children_list (others nd taken)) as [|[y c] es] eqn:El; [cbn in E; lia|].
  exists y, c. apply elem_of_children_list. rewrite El. by left.
Qed.
End left.

Section remove.
Context {L St : Type} {LN : LeafNode L} {LL : LeafLaws L} {LY : Layout St}.
Abbreviation wf := (wf (EX := at_rest)).

(** The callbacks, as functions of the leaf that they read. *)
Context (key : path) (matches : loc → prog L bool) (confirm : loc → prog L (option Z)) (retries : nat).
Context (mt : loc → L → bool) (cf : loc → L → option (Z * L)) (ce : loc → L → option (option nat) → option (option nat)).
Context (Hretries : (0 < retries)%nat).

Context (s : RawTree L St) (m : gmap path loc) (B : gmap loc path) (P : gset loc) (W : wf s B m P).
Context (Hmatches : ∀ l x (Q : bool → RawTree L St → Prop) s',
  t_leaves s !! l = Some x → t_leaves s' !! l = Some x → Q (mt l x) s' → wp (matches l) Q s').
Context (Hconfirm : ∀ l x (Q : option Z → RawTree L St → Prop) s',
  t_leaves s !! l = Some x → is_removed x = false → mt l x = true → t_leaves s' !! l = Some x →
  Q (fst <$> cf l x) (set_t_cell (ce l x (t_cell s')) (set_t_leaves (from_option (λ r, <[l := r.2]>) id (cf l x) (t_leaves s')) s')) →
  wp (confirm l) Q s').
Context (Hmt : ∀ l x, t_leaves s !! l = Some x → mt l x = true → key_bytes x = key).
Context (Hcf : ∀ l x c x', t_leaves s !! l = Some x → cf l x = Some (c, x') → is_Some (mark_removed x')).

(** What [confirm] left in the cell, if it was called. *)
Definition cell_after : option (option nat) :=
  match m !! key with
  | Some l => match t_leaves s !! l with Some x => if mt l x then ce l x (t_cell s) else t_cell s | None => t_cell s end
  | None => t_cell s
  end.

Definition remove_done (r : option loc) (s' : RawTree L St) : Prop :=
  match r with
  | Some l => ∃ x c x1 x2 B', m !! key = Some l ∧ t_leaves s !! l = Some x ∧ mt l x = true ∧
      cf l x = Some (c, x1) ∧ mark_removed x1 = Some x2 ∧ leaf_unlinked s s' l x2 (t_owned s) ∧ t_len s' = counted (- c) s ∧ t_stripe s' = t_stripe s ∧
      t_cell s' = cell_after ∧ wf s' B' (delete key m) P
  | None => (∀ l x, m !! key = Some l → t_leaves s !! l = Some x → mt l x = false ∨ cf l x = None) ∧
      stable (set_t_cell cell_after s) s' ∧ wf s' B m P
  end.

Abbreviation OK := (λ (v : remove_verdict) s',
  match v with Break r => remove_done r s' | Continue _ => False end).

(** A leaf of the tree, and what the callbacks say. *)
Lemma linked_leaf k l : m !! k = Some l → ∃ x, t_leaves s !! l = Some x ∧ is_removed x = false ∧ key_bytes x = k.
Proof using W. intros Hk. by apply (map_live _ _ _ _ _ _ W), live_key_Some in Hk. Qed.

Lemma remove_absent : m !! key = None → remove_done None s.
Proof using W. intros Hm. unfold remove_done, cell_after. rewrite Hm. split_and!; [intros; congruence|done..]. Qed.

Lemma cell_called l x : m !! key = Some l → t_leaves s !! l = Some x → mt l x = true → cell_after = ce l x (t_cell s).
Proof using. intros Hm Hx E. unfold cell_after. by rewrite Hm, Hx, E. Qed.

Lemma remove_unmatched l x : m !! key = Some l → t_leaves s !! l = Some x → mt l x = false → remove_done None s.
Proof using W.
  intros Hm Hx E. unfold remove_done, cell_after. rewrite Hm, Hx, E. split_and!; [|done..].
  intros l' x' ? ?. simplify_eq. by left.
Qed.

Lemma remove_declined l x s' : m !! key = Some l → t_leaves s !! l = Some x → mt l x = true → cf l x = None →
  stable (set_t_cell (ce l x (t_cell s)) s) s' → wf s' B m P → remove_done None s'.
Proof using.
  intros Hm Hx E Ec HS W'. unfold remove_done. rewrite (cell_called l x) by done. split_and!; [|done..].
  intros l' x' ? ?. simplify_eq. by right.
Qed.

(** A refusal leaves the leaves as they were. *)
Lemma same_leaves (s1 : RawTree L St) : set_t_leaves (t_leaves s1) s1 = s1.
Proof using. by destruct s1. Qed.

(** The cell is no part of the invariant. *)
Lemma wf_cell c (s1 : RawTree L St) B1 m1 (E : gset loc) : Inv.wf (EX := E) s1 B1 m1 P → Inv.wf (EX := E) (set_t_cell c s1) B1 m1 P.
Proof using.
  intros [W1 W2 W3 W4 W5 W6 W7 W8]. split; try done.
  - intros a. by apply (node_frame (EX := E) s1 _ B1 B1 P P a); [..|apply W3].
  - intros l'. by apply (leaf_frame s1); [..|apply W4].
Qed.

(** What [confirm] made of the leaf, marked. *)
Lemma confirmed l x c x1 : t_leaves s !! l = Some x → cf l x = Some (c, x1) → ∃ x2, mark_removed x1 = Some x2 ∧ is_removed x2 = true.
Proof using Hcf LL. intros Hx Ec. destruct (Hcf l x c x1 Hx Ec) as [x2 E]. exists x2. split; [done|by eapply is_removed_mark]. Qed.

Lemma confirmed_unlinked s' l x x1 x2 : t_leaves s !! l = Some x → is_removed x2 = true →
  t_leaves s' = <[l := x2]> (<[l := x1]> (t_leaves s)) → t_retired_leaves s' = l :: t_retired_leaves s →
  t_owned s' = t_owned s → leaf_unlinked s s' l x2 (t_owned s).
Proof using. intros Hx Hr E1 E2 E3. split; [by exists x|by rewrite E1, insert_insert_eq|done..]. Qed.

(** The key's slot holds the leaf [l]. *)
Lemma remove_root_leaf_spec b l : t_root s = LeafAt l → wp (remove_root_leaf matches confirm b (LeafAt l)) OK s.
Proof using All.
  intros R. destruct (root_leaf _ _ _ _ _ W R) as (k & Hk & Em). pose proof (wf_root_latch _ _ _ _ W) as Hq.
  assert (m !! k = Some l) as Hmk by (rewrite Em; apply lookup_singleton_eq).
  destruct (linked_leaf k l Hmk) as (x & Hx & Hrm & Hkx).
  unfold remove_root_leaf. apply wp_bind, wp_leaf_ref, wp_bind. eapply Hmatches; [exact Hx|exact Hx|].
  destruct (mt l x) eqn:Emt; wp_simpl.
  2: { apply wp_ret. destruct (decide (k = key)) as [->|Hne].
       - by apply (remove_unmatched l x).
       - apply remove_absent. rewrite Em. by apply lookup_singleton_ne. }
  assert (k = key) as -> by (rewrite <- Hkx; by eapply Hmt).
  apply wp_bind, wp_root_lock; [done|]. apply wp_bind, wp_root. cbn [t_root set_t_root_latch].
  rewrite R, bool_decide_true by done. wp_simpl. apply wp_bind. eapply Hconfirm; [exact Hx|done|done|exact Hx|].
  destruct (cf l x) as [[c x1]|] eqn:Ec; cbn [fmap option_fmap option_map from_option fst snd id].
  - destruct (confirmed l x c x1 Hx Ec) as (x2 & Hx2 & Hr2).
    apply wp_bind, wp_root_write; [by apply quiet_locked|]. apply wp_bind. eapply wp_mark_removed; [apply lookup_insert_eq|exact Hx2|].
    apply wp_bind, wp_len_add, wp_bind, wp_root_drop, wp_bind. eapply wp_retire_leaf; [apply lookup_insert_eq|]. apply wp_ret.
    match goal with |- remove_done _ ?s' => set (s2 := s') end.
    assert (leaf_unlinked s s2 l x2 (t_owned s)) as LU by (by eapply confirmed_unlinked).
    exists x, c, x1, x2, B. rewrite (cell_called l x) by done. split_and!; [done..|].
    eapply (wf_slot_unlink (EX := at_rest) s s2 B m P SlotRoot [] false (Some (LeafAt l)) None W) with (old := l) (k := key) (new := None); try done.
    + replace (Some (LeafAt l)) with (present (R := raw) (t_root s)) by (by rewrite R). constructor.
    + by apply set_root_slot.
    + by eapply (nodes_kept (EX := at_rest) s).
    + split; [by apply quiet_drop|etrans; [apply counted_length|done]|done].
    + destruct LU as [? ? ? ? E3]. split; [done..|]. rewrite E3. cbn. set_solver.
  - rewrite same_leaves. apply wp_bind, wp_root_drop, wp_ret. apply (remove_declined l x); [done..|].
    pose proof (wf_root_latch _ _ _ _ W). destruct W as [W1 W2 W3 W4 W5 W6 W7 W8]. split; try done.
    + intros a. by apply (node_frame (EX := at_rest) s _ B B P P a); [..|apply W3].
    + intros l'. by apply (leaf_frame s); [..|apply W4].
    + by apply quiet_drop.
Qed.

(** ** At the key's node *)

Section at_node.
Context (n : loc) (q : path) (ob : NodeObj) (O : on_path s B key n q ob).
Context (taken : Taken) (l : loc) (x : L).
Abbreviation nd := (o_node ob).
Abbreviation base := (q ++ pfx (o_node ob)).
Context (Htaken : match taken with
                  | Exact => key = base ∧ exact_leaf nd = LeafAt l
                  | Child y => base ++ [y] `prefix_of` key ∧ find_child nd y = Some (LeafAt l)
                  | Nothing => False
                  end).
Context (Hml : m !! key = Some l) (Hx : t_leaves s !! l = Some x) (Emt : mt l x = true).

Definition taken_slot : slot := match taken with Child y => SlotChild n y | _ => SlotExact n end.
Definition taken_path : path := match taken with Child y => base ++ [y] | _ => base end.
Definition taken_exact : bool := match taken with Child _ => false | _ => true end.

Lemma taken_at : slot_at (t_root s) (nodes_of s) B taken_slot taken_path taken_exact (Some (LeafAt l)).
Proof using O Htaken.
  unfold taken_slot, taken_path, taken_exact. destruct taken as [|y|]; [|destruct Htaken as [_ E]|done].
  - destruct Htaken as [_ E]. replace (Some (LeafAt l)) with (present (R := raw) (exact_leaf nd)) by (by rewrite E).
    apply at_exact; [apply O|by eapply at_nodes_of].
  - rewrite <- E, <- (assoc_L (++)). apply at_child; [apply O|by eapply at_nodes_of].
Qed.

Lemma taken_inside : taken_in nd taken.
Proof using Htaken. destruct taken; cbn; [done| |done]. destruct Htaken as [_ ->]. done. Qed.

Definition without : node raw :=
  match taken with
  | Exact => set_exact_leaf nd Null
  | Child y => remove_child nd y
  | Nothing => nd
  end.

Lemma without_spec : node_ok without ∧ pfx without = pfx nd ∧
  slot_set (t_root s) (nodes_of s) taken_slot None (t_root s) (<[n := without]> (nodes_of s)) ∧
  (emptied_by nd taken = false → nonempty without).
Proof using All.
  pose proof (op_ok _ _ _ _ _ _ O) as Hok. pose proof taken_inside as Hin.
  pose proof (emptied_by_false nd taken Hok Hin) as HE.
  unfold without, taken_slot. destruct taken as [|y|]; [| |done].
  - destruct (set_exact_leaf_ok nd Null Hok) as (H1 & H2 & H3 & H4 & H5). split_and!; [done|unfold pfx; by rewrite H3| |].
    + eapply set_exact_slot; [by eapply at_nodes_of|unfold pfx; by rewrite H3|by rewrite H4|done].
    + intros He. destruct (HE He) as [(z & c & Hz)|[_ ?]]; [|done]. left. exists z, c. by rewrite H5.
  - destruct Htaken as [_ Ec]. destruct (remove_child_spec nd y _ Hok Ec) as (H1 & (_ & H2 & H3) & H4).
    split_and!; [done|unfold pfx; by rewrite H2| |].
    + eapply set_child_slot; [by eapply at_nodes_of|unfold pfx; by rewrite H2|done|done].
    + intros He. destruct (HE He) as [(z & c & Hz)|[Hx' _]]; [left|right; by rewrite H3].
      exists z, c. unfold others in Hz. case_decide as D; [done|]. rewrite H4, decide_False; [done|]. congruence.
Qed.

Lemma remove_keeping_spec b : emptied_by nd taken = false →
  wp (remove_keeping confirm b n (o_latch ob) taken l) OK s.
Proof using All.
  intros He. pose proof (op_node _ _ _ _ _ _ O) as Hn. pose proof (op_quiet _ _ _ _ _ _ O) as Hq.
  destruct without_spec as (Hok' & Hpf & HS & Hne). specialize (Hne He).
  unfold remove_keeping. apply wp_bind. eapply wp_try_upgrade; [done..|].
  destruct (linked_leaf key l Hml) as (x0 & Hx0 & Hrm & _). assert (x0 = x) as -> by congruence.
  apply wp_bind. eapply Hconfirm; [exact Hx|done|done|exact Hx|].
  destruct (cf l x) as [[c x1]|] eqn:Ec; cbn [fmap option_fmap option_map from_option fst snd id].
  - destruct (confirmed l x c x1 Hx Ec) as (x2 & Hx2 & Hr2). set (s1 := set_t_cell _ _).
    apply wp_bind. eapply (wp_mono _ (λ _ s', s' = put_node s1 n {| o_latch := o_latch ob + 1; o_node := without |})).
    { unfold take_out, without. destruct taken as [|y|]; [| |done];
        (eapply wp_node_write; [apply lookup_insert_eq|by apply quiet_locked|done|done]). }
    intros _ ? ->. apply wp_bind. eapply wp_mark_removed; [apply lookup_insert_eq|exact Hx2|]. apply wp_bind, wp_len_add, wp_bind.
    eapply wp_node_drop; [apply lookup_insert_eq|]. apply wp_bind. eapply wp_retire_leaf; [apply lookup_insert_eq|]. apply wp_ret.
    match goal with |- remove_done _ ?s' => set (s2 := s') end.
    assert (t_nodes s2 = <[n := {| o_latch := drop_guard {| g_v := o_latch ob |}; o_node := without |}]> (t_nodes s)) as N2.
    { unfold s2, s1, put_node. cbn. by rewrite !insert_insert_eq. }
    assert (leaf_unlinked s s2 l x2 (t_owned s)) as LU by (by eapply confirmed_unlinked).
    exists x, c, x1, x2, B. rewrite (cell_called l x) by done. split_and!; [done..|].
    eapply (wf_slot_unlink (EX := at_rest) s s2 B m P taken_slot taken_path taken_exact (Some (LeafAt l)) None W taken_at)
      with (old := l) (k := key) (new := None); try done.
    + rewrite (nodes_of_changed s s2 _ _ N2). exact HS.
    + eapply node_changed; [exact W|apply O|exact N2|done|done|by apply quiet_drop|done].
    + split; [apply W|etrans; [apply counted_length|done]|done].
    + destruct LU as [? ? ? ? E3]. split; [done..|]. rewrite E3. cbn. set_solver.
  - rewrite same_leaves. apply wp_bind. eapply wp_node_drop; [apply lookup_insert_eq|]. apply wp_ret.
    apply (remove_declined l x); [done..|].
    pose proof (wf_put_latch (EX := at_rest) s B m P n q ob _ W (op_base _ _ _ _ _ _ O) Hn (quiet_drop _ Hq)) as W'.
    rewrite <- (put_node_twice s n {| o_latch := o_latch ob + 1; o_node := nd |}) in W'. exact (wf_cell _ _ _ _ _ W').
Qed.

(** The node's only entry is the taken one. *)
Lemma emptied_edges : emptied_by nd taken = true →
  ∀ q0 x0 r, node_edges base nd q0 x0 r ↔ q0 = taken_path ∧ x0 = taken_exact ∧ r = LeafAt l.
Proof using All.
  intros He q0 x0 r. apply emptied_by_spec in He; [|apply O|apply taken_inside]. destruct He as [H1 H2].
  unfold taken_path, taken_exact. destruct taken as [|y|]; [| |done].
  - destruct Htaken as [_ E]. unfold node_edges. rewrite E. split.
    + intros [(_ & z & Hz & _)|(-> & <- & _ & ->)]; [|done]. by specialize (H1 z ltac:(by rewrite Hz)).
    + intros (-> & -> & ->). by right.
  - destruct Htaken as [_ E]. unfold node_edges. split.
    + intros [(-> & z & Hz & ->)|(_ & E' & Hn & _)].
      * specialize (H1 z ltac:(by rewrite Hz)). injection H1 as <-. split_and!; [done..|congruence].
      * by specialize (H2 ltac:(by rewrite E')).
    + intros (-> & -> & ->). left. eauto.
Qed.

Lemma remove_emptying_spec parent b : parent_ok s B n q parent → emptied_by nd taken = true →
  wp (remove_emptying key confirm retries b parent (NodeAt n) (o_latch ob) taken l) OK s.
Proof using All.
  intros PO He. pose proof (op_node _ _ _ _ _ _ O) as Hn. pose proof (op_quiet _ _ _ _ _ _ O) as Hq.
  pose proof (op_base _ _ _ _ _ _ O) as Hp. pose proof (emptied_edges He) as HEd.
  unfold remove_emptying, remove_unlinking. apply wp_bind, wp_bind, wp_node_ref.
  eapply wp_lock_parent; [exact W|exact Hp|exact PO|]. intros pg v G. pose proof (guards_apart _ _ _ _ _ _ G) as Hap.
  apply wp_bind. eapply wp_try_upgrade; [by rewrite overlay_lookup|done..|]. rewrite overlay_put by done.
  apply wp_bind. eapply wp_node_read; [rewrite overlay_lookup by done; apply lookup_insert_eq|]. cbn [o_node]. rewrite He.
  apply wp_bind, wp_ret, wp_bind.
  destruct (linked_leaf key l Hml) as (y0 & Hy0 & Hrm & _). assert (y0 = x) as -> by congruence.
  eapply Hconfirm; [exact Hx|done|done|by destruct pg|].
  destruct (cf l x) as [[c x1]|] eqn:Ec; cbn [fmap option_fmap option_map from_option fst snd id].
  2: { rewrite same_leaves, overlay_set_cell. apply wp_bind. eapply wp_node_drop; [rewrite overlay_lookup by done; apply lookup_insert_eq|]. rewrite overlay_put by done.
       apply wp_bind, wp_pg_drop, wp_ret. apply wp_ret. cbv beta iota. apply (remove_declined l x); [done..| |].
       - split; by destruct pg.
       - change (with_word _ (with_word _ v)) with (with_word (freed pg) v). rewrite put_node_cell, put_node_twice, <- overlay_set_cell.
         apply wf_cell. eapply wf_overlay_latch; [|by apply guards_put|by eapply freed_quiet].
         apply (wf_put_latch (EX := at_rest) s B m P n q ob); [done..|by apply quiet_drop]. }
  destruct (confirmed l x c x1 Hx Ec) as (x2 & Hx2 & Hr2). rewrite overlay_set_leaves, overlay_set_cell.
  apply wp_bind. eapply wp_unlink; [exact G|]. intros v' Hst.
  apply wp_bind. eapply wp_mark_removed; [destruct pg; apply lookup_insert_eq|exact Hx2|]. rewrite overlay_set_leaves.
  apply wp_bind, wp_len_add. rewrite overlay_set_len.
  apply wp_bind. eapply wp_node_mark_obsolete; [rewrite overlay_lookup by done; apply lookup_insert_eq|]. rewrite overlay_put by done.
  apply wp_bind, wp_guard_emptied, wp_bind, wp_pg_drop, wp_bind.
  eapply wp_retire_leaf; [rewrite (proj1 (proj2 (proj2 (overlay_fields _ _ _)))); apply lookup_insert_eq|]. rewrite overlay_set_retired_leaves.
  apply wp_bind. eapply wp_retire_node; [rewrite overlay_lookup by done; apply lookup_insert_eq|]. rewrite overlay_set_retired_nodes.
  apply wp_ret. cbv beta iota.
  change (with_word _ (with_word _ v')) with (with_word (freed pg) v').
  change (guard_empty pg (with_word _ v')) with (guard_empty pg v').
  match goal with |- context [overlay _ _ ?s'] => set (s3 := s') end.
  set (obn := {| o_latch := mark_obsolete {| g_v := o_latch ob |}; o_node := nd |}).
  assert (t_nodes s3 !! n = Some obn) as Hn3 by apply lookup_insert_eq.
  assert (∀ a, a ≠ n → t_nodes s3 !! a = t_nodes s !! a) as N3.
  { intros a Ha. do 2 (etrans; [by apply lookup_insert_ne|]). done. }
  assert (t_retired_nodes s3 = n :: t_retired_nodes s) as R3 by (by destruct pg).
  assert (t_root s3 = t_root s ∧ t_root_latch s3 = t_root_latch s) as [Rt Rl] by done.
  assert (t_cell s3 = cell_after) as EC by (rewrite (cell_called l x) by done; by destruct pg).
  assert (leaf_unlinked s s3 l x2 (t_owned s)) as LU3 by (eapply confirmed_unlinked; [done..| | |]; by destruct pg).
  assert (t_len s3 = counted (- c) s ∧ t_stripe s3 = t_stripe s) as [EL ES] by (split; by destruct pg). clearbody s3.
  set (s' := overlay pg (with_word (freed pg) v') s3).
  destruct (overlay_fields pg (with_word (freed pg) v') s3) as (X1 & X2 & X3 & X4 & X5 & X6). fold s' in X1, X2, X3, X4, X5, X6.
  pose proof (overlay_cell pg (with_word (freed pg) v') s3) as X7. fold s' in X7.
  assert (leaf_unlinked s s' l x2 (t_owned s)) as LU by (destruct LU3; split; [done|congruence..]).
  assert (Inv.wf (EX := (guard_exempt pg : gset loc)) s' (delete n B) (delete key m) P) as W'.
  { eapply (unlinked_last (EX := (guard_exempt pg : gset loc)) s s3 B m P pg v v' n q ob obn); try done.
    - eapply wf_exempt_more; [|exact W]; set_solver.
    - by apply quiet_obsolete.
    - rewrite EL. apply counted_length.
    - by intros q0 x0 a (_ & _ & ?)%HEd.
    - exists taken_path, taken_exact. by apply HEd.
    - by intros q0 x0 l' (_ & _ & [= ->])%HEd. }
  assert (Inv.wf (EX := if guard_empty pg v' then guard_exempt pg else at_rest) s' (delete n B) (delete key m) P) as W''.
  { eapply (wf_guard_done s3 B (delete key m) P pg v' n q v s ∅); [|set_solver|exact G|exact Hst].
    by rewrite (left_id_L ∅ (∪)). }
  destruct (guard_empty pg v') eqn:Eg.
  - destruct pg as [w|a w y]; [done|]. destruct G as (Gw & Gq & qa & Gax & Ga & Gn & Gok & Gc & Gp).
    apply wp_bind. eapply wp_mono.
    { eapply (unlink_emptied_spec s' (delete n B) (delete key m) P a qa {| o_latch := freed (GuardNode a w y); o_node := pv_node v' |}); [done| |].
      - split; [exact W''|]. rewrite lookup_delete_ne by done. split_and!; [done|apply lookup_insert_eq|exact Eg].
      - etrans; [|apply O]. rewrite Gp. by eexists. }
    intros _ s4 [ST (B' & W4)]. apply wp_ret. destruct ST. exists x, c, x1, x2, B'.
    split_and!; [done..| | | | |done]; [destruct LU; split; [done|congruence..]|congruence..].
  - apply wp_bind, wp_ret, wp_ret. exists x, c, x1, x2, (delete n B). split_and!; [done..|congruence|congruence|congruence|done].
Qed.
End at_node.

(** The slot of the key, and what it says. *)
Lemma remove_at_spec b parent n q ob slot taken : on_path s B key n q ob → parent_ok s B n q parent →
  match slot with
  | Null => m !! key = None
  | LeafAt l => (∃ k, m !! k = Some l) ∧ (m !! key ≠ None → m !! key = Some l) ∧
      match taken with
      | Exact => key = q ++ pfx (o_node ob) ∧ exact_leaf (o_node ob) = LeafAt l
      | Child y => (q ++ pfx (o_node ob)) ++ [y] `prefix_of` key ∧ find_child (o_node ob) y = Some (LeafAt l)
      | Nothing => False
      end
  | NodeAt _ => False
  end →
  wp (remove_at key matches confirm retries b parent (NodeAt n) n (o_latch ob) slot taken) OK s.
Proof using All.
  intros O PO HS. pose proof (op_node _ _ _ _ _ _ O) as Hn. pose proof (op_quiet _ _ _ _ _ _ O) as Hq.
  unfold remove_at. apply wp_bind. eapply wp_node_read; [exact Hn|]. apply wp_bind. eapply wp_validate; [done..|].
  wp_simpl. destruct slot as [|l|]; [by apply wp_ret, remove_absent| |done]. wp_simpl.
  destruct HS as ((k & Hk) & Hm & HT). destruct (linked_leaf k l Hk) as (x & Hx & _ & Hkx).
  apply wp_bind, wp_leaf_ref, wp_bind. eapply Hmatches; [exact Hx|exact Hx|]. destruct (mt l x) eqn:Emt; wp_simpl.
  - assert (k = key) as -> by (rewrite <- Hkx; by eapply Hmt).
    destruct (emptied_by (o_node ob) taken) eqn:Ee.
    + by eapply remove_emptying_spec.
    + by eapply remove_keeping_spec.
  - apply wp_ret. destruct (m !! key) as [l'|] eqn:El; [|by apply remove_absent].
    assert (l' = l) as -> by (specialize (Hm ltac:(done)); congruence). by apply (remove_unmatched l x).
Qed.

(** ** The descent *)

Definition cursor_ok (c : Parent * raw * nat) : Prop :=
  ∃ n q ob, c.1.2 = NodeAt n ∧ c.2 = length q ∧ on_path s B key n q ob ∧ parent_ok s B n q c.1.1.

Definition turn_ok (c : Parent * raw * nat) (r : flow (Parent * raw * nat) remove_verdict) (s' : RawTree L St) : Prop :=
  match r with
  | Continue c' => s' = s ∧ cursor_ok c' ∧ (length key - c'.2 < length key - c.2)%nat
  | Break v => OK v s'
  end.

Lemma wp_remove_turn c (pr : prog L remove_verdict) : wp pr OK s → wp (r ← pr; mret (Break r)) (turn_ok c) s.
Proof. intros H. apply wp_bind. eapply wp_mono; [exact H|]. intros v s' Hv. by apply wp_ret. Qed.

Lemma remove_turn_spec b c : cursor_ok c →
  wp (remove_turn key matches confirm retries b c) (turn_ok c) s.
Proof using All.
  destruct c as [[parent r] depth]. intros (n & q & ob & E1 & E2 & O & PO). cbn in E1, E2, PO. subst r depth.
  pose proof (op_node _ _ _ _ _ _ O) as Hn. pose proof (op_quiet _ _ _ _ _ _ O) as Hq.
  unfold remove_turn. apply wp_bind, wp_node_ref, wp_bind. eapply wp_read_version; [done..|].
  apply wp_bind. eapply still_parent_spec; [done|]. wp_simpl.
  apply wp_bind. eapply wp_node_read; [done|]. rewrite (at_is_prefix_of _ _ _ _ _ _ O).
  case_bool_decide as K; wp_simpl.
  2: { apply wp_bind. eapply wp_validate; [done..|]. wp_simpl. apply wp_ret, remove_absent. by eapply at_mismatch. }
  cbv zeta. rewrite (at_depth _ _ _ _ _ _ O).
  destruct (decide (length (q ++ pfx (o_node ob)) = length key)) as [D|D].
  - assert (q ++ pfx (o_node ob) = key) as Ek by (apply prefix_length_eq; [done|lia]).
    apply wp_bind. eapply wp_node_read; [done|]. apply wp_remove_turn.
    pose proof (at_end _ _ _ _ W _ _ _ _ O (eq_sym Ek)) as HM.
    destruct (at_exact_cases _ _ _ _ W _ _ _ _ O) as [E|(l & E & _ & Hl)]; rewrite E in *; eapply remove_at_spec; try done.
    split_and!; eauto.
  - destruct (lookup_lt_is_Some_2 key (length (q ++ pfx (o_node ob)))) as [y Hy].
    { apply prefix_length in K. lia. }
    rewrite Hy. apply wp_bind, wp_ret, wp_bind. eapply wp_node_read; [done|].
    destruct (at_branch _ _ _ _ W _ _ _ _ O y inhabitant K Hy) as (K' & HN & _).
    destruct (find_child (o_node ob) y) as [[|l|n']|] eqn:Ec.
    + by apply (find_child_not_null (R := raw)) in Ec.
    + apply wp_remove_turn. eapply remove_at_spec; [done..|].
      destruct (at_branch _ _ _ _ W _ _ _ _ O y l K Hy) as (_ & _ & X). destruct (X Ec) as ((k & _ & _ & Hk) & Hm).
      split_and!; eauto.
    + apply wp_ret. split; [done|]. destruct (at_inner _ _ _ _ W _ _ _ _ O y n' K' Ec) as [[ob' O'] PO'].
      cbn [snd]. split.
      * exists n', ((q ++ pfx (o_node ob)) ++ [y]), ob'. split_and!; [done| |done..]. cbn. rewrite (length_app _ [y]). cbn. lia.
      * apply prefix_length in K'. rewrite length_app in K'. cbn in K'. rewrite length_app in *. lia.
    + apply wp_remove_turn. eapply remove_at_spec; [done..|]. by apply HN.
Qed.

Lemma remove_attempt_spec b :
  wp (remove_attempt key matches confirm retries b) OK s.
Proof using All.
  unfold remove_attempt. apply wp_bind, wp_root. destruct (t_root s) as [|l|n] eqn:R.
  - apply wp_ret, remove_absent. destruct (root_null _ _ _ _ W R) as [-> _]. apply lookup_empty.
  - by apply remove_root_leaf_spec.
  - destruct (root_on_path _ _ _ _ key _ W R) as [[ob O] PO].
    apply (wp_loop (λ c s', s' = s ∧ cursor_ok c) (λ c, (length key - c.2)%nat)).
    + intros c ? [-> Hc]. eapply wp_mono; [by apply remove_turn_spec|].
      intros [c'|v] s'; [intros (-> & ? & ?)|]; done.
    + split; [done|]. by exists n, [], ob.
    + cbn. lia.
Qed.

(** The contract of a remove at rest. *)
Lemma remove_confirmed_spec : wp (remove_confirmed key matches confirm retries) remove_done s.
Proof using All.
  unfold remove_confirmed. apply wp_loop_once; [done|]. eapply wp_mono; [apply remove_attempt_spec|].
  by intros [] s'.
Qed.
End remove.
