(* ===== verification/Shrink.v ===== *)
(** * Fitting the tree to its entries ([src/raw/shrink.rs])

    [shrink_to_fit] walks the tree once, children before parents, and fits
    each node: an empty node is unlinked, a single leaf takes its node's place,
    a single inner child is merged with its node, and a node that a smaller
    layout holds is copied there. *)

From S2P Require Import Prelude Bytes Latch Slot Bits Node Free Mem Raw Read.
Local Open Scope Z_scope.

Definition ATTEMPTS : nat := 8.

(** The prefix of [n] merged into its child [c] at [byte], if it fits: the
    buffer and the length in use. *)
Definition merged_prefix (n : PrefixSnapshot) (byte : byte) (c : PrefixSnapshot) : option (list Byte.byte * nat) :=
  let len := (ps_len n + 1 + ps_len c)%nat in
  if decide (MAX_PREFIX_LEN < len)%nat then None
  else Some (as_slice n ++ [byte] ++ as_slice c ++ replicate (MAX_PREFIX_LEN - len) Byte.x00, len).

Record Frame := { f_parent : Parent; f_node : raw; f_expanded : bool }.

Inductive Plan :=
| PlanUnlink
| PlanLeaf (l : raw)
| PlanMerge (byte : byte) (child : raw) (ty : NodeType)
| PlanShrink (ty : NodeType).

Section shrink.
Context {L : Type} `{LeafNode L}.
Abbreviation prog := (prog L).

(** [for _ in 0..n { ... }]: the state after the last turn, or what a turn
    returned. *)
Fixpoint attempts {S A} (n : nat) (body : S → prog (flow S A)) (s : S) : prog (flow S A) :=
  match n with
  | O => mret (Continue s)
  | Datatypes.S n =>
    r ← body s;
    match r with Continue s' => attempts n body s' | Break a => mret (Break a) end
  end.

(** One node's turn: the backoff and the pool go on, or the result and the
    pool are returned. [false] is [Err(Full)]. *)
Definition fit_state : Type := SpinBackoff * Prepared.
Definition fit_result : Type := bool * Prepared.

Definition fit_spin (b : SpinBackoff) (p : Prepared) : prog (flow fit_state fit_result) :=
  mret (Continue ((spin b).2, p)).

(** The plan for [node], from an optimistic read. *)
Definition fit_plan (node : loc) : prog (option Plan) :=
  r ← trigger (NodeRead node (λ nd, rest nd Nothing));
  match r with
  | RestEmpty => mret (Some PlanUnlink)
  | RestLeaf l => mret (Some (PlanLeaf l))
  | RestInner byte child =>
    c ← node_ref child;
    n_len ← trigger (NodeRead node prefix_len);
    c_len ← trigger (NodeRead c prefix_len);
    if decide (n_len + 1 + c_len <= MAX_PREFIX_LEN)%nat then
      count ← trigger (NodeRead c num_children);
      mret (Some (PlanMerge byte child (fitting count)))
    else
      ty ← trigger (NodeRead node node_type);
      mret (if type_ltb Node4 ty then Some (PlanShrink Node4) else None)
  | RestMany =>
    count ← trigger (NodeRead node num_children);
    let ty := fitting count in
    nt ← trigger (NodeRead node node_type);
    mret (if type_ltb ty nt then Some (PlanShrink ty) else None)
  end.

(** The type of the node that a plan prepares. *)
Definition plan_type (plan : Plan) : option NodeType :=
  match plan with
  | PlanMerge _ _ ty | PlanShrink ty => Some ty
  | PlanUnlink | PlanLeaf _ => None
  end.

Definition fit_prepare (p : Prepared) (plan : Plan) : prog (option (option loc) * Prepared) :=
  match plan_type plan with
  | None => mret (Some None, p)
  | Some ty =>
    '(n, p) ← prep_node p ty;
    mret (match n with Some n => Some (Some n) | None => None end, p)
  end.

(** The replacement under [pg] and [nw], and the child's latch: [None] to plan
    again. *)
Definition fit_replacement (node : loc) (plan : Plan) (fresh : option loc)
    : prog (option (option raw * option (loc * WriteGuard))) :=
  match plan with
  | PlanUnlink => mret (Some (None, None))
  | PlanLeaf l => mret (Some (Some l, None))
  | PlanShrink _ =>
    f ← expect fresh;
    _ ← node_copy_into node f;
    mret (Some (Some (NodeAt f), None))
  | PlanMerge byte child ty =>
    c ← node_ref child;
    cv ← node_read_version c;
    cw ← match cv with Some cv => node_try_upgrade c cv | None => mret None end;
    match cw with
    | None => mret None
    | Some cw =>
      np ← trigger (NodeRead node load_prefix);
      cp ← trigger (NodeRead c load_prefix);
      count ← trigger (NodeRead c num_children);
      match merged_prefix np byte cp, bool_decide (count <= capacity ty)%nat with
      | Some (bytes, len), true =>
        f ← expect fresh;
        _ ← node_copy_into c f;
        _ ← init_prefix f (take len bytes);
        mret (Some (Some (NodeAt f), Some (c, cw)))
      | _, _ => _ ← node_drop c cw; mret None
      end
    end
  end.

(** The latched part of a fit. *)
Definition fit_commit (b : SpinBackoff) (p : Prepared) (parent : Parent) (n_raw : raw) (node : loc) (v : Z)
    (plan : Plan) (fresh : option loc) : prog (flow fit_state fit_result) :=
  pg ← lock_parent parent n_raw;
  match pg with
  | None => mret (Break (true, p))
  | Some pg =>
    nw ← node_try_upgrade node v;
    match nw with
    | None => _ ← pg_drop pg; fit_spin b p
    | Some nw =>
      r ← fit_replacement node plan fresh;
      match r with
      | None => _ ← node_drop node nw; _ ← pg_drop pg; fit_spin b p
      | Some (replacement, cw) =>
        _ ← match replacement with
            | None => unlink_in_parent pg
            | Some r => publish_in_parent pg r
            end;
        _ ← match cw with Some (c, w) => node_mark_obsolete c w | None => mret tt end;
        _ ← node_mark_obsolete node nw;
        _ ← pg_drop pg;
        _ ← match plan with
            | PlanMerge _ child _ => c ← node_ref child; trigger (RetireNode c)
            | _ => mret tt
            end;
        _ ← trigger (RetireNode node);
        mret (Break (true, prep_commit p))
      end
    end
  end.

Definition fit_attempt (parent : Parent) (n_raw : raw) (node : loc) (st : fit_state)
    : prog (flow fit_state fit_result) :=
  let '(b, p) := st in
  let p := prep_reset p in
  v ← node_read_version node;
  match v with
  | None =>
    o ← node_is_obsolete node;
    if o : bool then mret (Break (true, p)) else fit_spin b p
  | Some v =>
    plan ← fit_plan node;
    ok ← node_validate node v;
    if negb ok then fit_spin b p
    else match plan with
         | None => mret (Break (true, p))
         | Some plan =>
           '(fresh, p) ← fit_prepare p plan;
           match fresh with
           | None => mret (Break (false, p))
           | Some fresh => fit_commit b p parent n_raw node v plan fresh
           end
         end
  end.

Definition fit (parent : Parent) (n_raw : raw) (p : Prepared) : prog fit_result :=
  node ← node_ref n_raw;
  r ← attempts ATTEMPTS (fit_attempt parent n_raw node) (backoff_new, p);
  match r with
  | Break res => mret res
  | Continue (_, p) => mret (true, p)
  end.

(** The inner children of [node], with the version they were read at. *)
Definition inner_children (node : loc) : prog (option (Z * list (byte * raw))) :=
  r ← attempts ATTEMPTS
    (λ b : SpinBackoff,
      v ← node_read_version node;
      match v with
      | None =>
        o ← node_is_obsolete node;
        if o : bool then mret (Break None) else mret (Continue (spin b).2)
      | Some v =>
        children ← trigger (NodeRead node (λ nd, filter (λ e : byte * raw, is_leaf e.2 = false) (for_each_child nd)));
        ok ← node_validate node v;
        if ok : bool then mret (Break (Some (v, children))) else mret (Continue (spin b).2)
      end) backoff_new;
  match r with Break res => mret res | Continue _ => mret None end.

(** One turn of the walk. *)
Definition shrink_turn (st : list Frame * Prepared) : prog (flow (list Frame * Prepared) Prepared) :=
  let '(stack, p) := st in
  match stack with
  | [] => mret (Break p)
  | f :: stack =>
    if f_expanded f then
      '(ok, p) ← fit (f_parent f) (f_node f) p;
      if (ok : bool) then mret (Continue (stack, p)) else mret (Break p)
    else
      node ← node_ref (f_node f);
      r ← inner_children node;
      match r with
      | None => mret (Continue (stack, p))
      | Some (v, children) =>
        let above := {| f_parent := f_parent f; f_node := f_node f; f_expanded := true |} :: stack in
        mret (Continue
          (map (λ '(byte, c), {| f_parent := ParentNode (f_node f) v byte; f_node := c; f_expanded := false |})
             children ++ above, p))
      end
  end.

Definition shrink_to_fit (fuel : nat) : prog unit :=
  root ← root;
  match root with
  | NodeAt _ =>
    p ← loop fuel shrink_turn ([{| f_parent := ParentRoot; f_node := root; f_expanded := false |}], prep_new);
    prep_release p
  | _ => mret tt
  end.
End shrink.
