(* ===== verification/ShrinkSpec.v ===== *)
(** * Fitting keeps the map, and leaves nothing to fit

    [plan_of] is what [fit] plans for a node, as a function of the node and its
    only inner child; a node without a plan is [minimal]. [fit_spec]: at rest
    one fit takes the node out of the tree, or puts one minimal node in its
    place, and moves no leaf of the map. [shrink_spec]: the walk visits
    children before parents, so in the end every linked node is minimal. *)

From S2P Require Import Prelude Bytes Latch Slot Bits Node NodeSpec NodeOps Free Mem Shape Raw Read Write Inv Descent Commit Update Pool Chain Guard Commits Rules WriteSpec Shrink.
Local Open Scope Z_scope.

#[local] Opaque all_bytes children_list child_count.

(** ** Plans *)

Definition plan_of (N : gmap loc (node raw)) (nd : node raw) : option Plan :=
  match rest nd Nothing with
  | RestEmpty => Some PlanUnlink
  | RestLeaf l => Some (PlanLeaf l)
  | RestInner b r =>
    match r with
    | NodeAt c =>
      ndc ← N !! c;
      if decide (prefix_len nd + 1 + prefix_len ndc <= MAX_PREFIX_LEN)%nat
      then Some (PlanMerge b r (fitting (num_children ndc)))
      else if type_ltb Node4 (node_type nd) then Some (PlanShrink Node4) else None
    | _ => None
    end
  | RestMany =>
    let ty := fitting (num_children nd) in
    if type_ltb ty (node_type nd) then Some (PlanShrink ty) else None
  end.

(** The merged prefix is the path between the two nodes' bases. *)
Lemma merged_prefix_spec (n c : PrefixSnapshot) b : snapshot_ok n → snapshot_ok c →
  (ps_len n + 1 + ps_len c <= MAX_PREFIX_LEN)%nat →
  ∃ bytes len, merged_prefix n b c = Some (bytes, len) ∧
    (len <= length bytes)%nat ∧ take len bytes = as_slice n ++ b :: as_slice c.
Proof.
  intros Hn Hc Hl. unfold merged_prefix. rewrite decide_False by lia.
  eexists _, _. split; [done|]. pose proof (as_slice_length n Hn). pose proof (as_slice_length c Hc).
  split; [rewrite !length_app, length_replicate; cbn; lia|].
  rewrite (assoc_L (++)), (assoc_L (++)), take_app_length'; [by rewrite <- (assoc_L (++))|].
  rewrite !length_app. cbn. lia.
Qed.

Lemma fitting_room k : (k <= 256)%nat → (k <= capacity (fitting k))%nat.
Proof. intros Hk. unfold fitting. repeat case_decide; cbn; lia. Qed.

Lemma type_ltb_irrefl t : type_ltb t t = false.
Proof. apply Z.ltb_irrefl || apply Nat.ltb_irrefl. Qed.

Section plan.
Context {L St : Type} {LN : LeafNode L} {LL : LeafLaws L} {LY : Layout St} {EX : Exempt}.
Implicit Types (s : RawTree L St) (m : gmap path loc) (B : gmap loc path) (P : gset loc).

(** Nothing is left to fit at [n]. *)
Definition minimal s (n : loc) : Prop :=
  ∃ nd, nodes_of s !! n = Some nd ∧ plan_of (nodes_of s) nd = None.

Section at_node.
Context s B m P (W : wf s B m P) (n : loc) (q : path) (ob : NodeObj).
Context (Hn : B !! n = Some q) (Hob : t_nodes s !! n = Some ob).
Abbreviation nd := (o_node ob).

Lemma fit_node_ok : node_ok nd ∧ quiet (o_latch ob) ∧ nodes_of s !! n = Some nd.
Proof using All.
  destruct (wf_linked _ _ _ _ _ _ W Hn) as (ob' & ? & ? & ?). simplify_eq.
  split_and!; [done..|]. apply nodes_of_Some. eauto.
Qed.

(** The only inner child. *)
Lemma rest_inner b r : rest nd Nothing = RestInner b r → ∃ c obc, r = NodeAt c ∧
  B !! c = Some (q ++ pfx nd ++ [b]) ∧ t_nodes s !! c = Some obc ∧ node_ok (o_node obc) ∧ quiet (o_latch obc) ∧
  nodes_of s !! c = Some (o_node obc) ∧ exact_leaf nd = Null ∧
  ∀ x, find_child nd x = if decide (x = b) then Some (NodeAt c) else None.
Proof using All.
  destruct fit_node_ok as (Hok & _ & Hnd). intros E. pose proof (rest_spec nd Nothing Hok I) as R. rewrite E in R.
  destruct R as (Hx & Hl & Ho). assert (find_child nd b = Some r) as Hb by (specialize (Ho b); by rewrite decide_True in Ho).
  assert (exact_leaf nd = Null) as HX.
  { destruct (decide (exact_leaf nd = Null)) as [|Hne]; [done|]. by rewrite (proj2 (has_exact_spec nd Nothing)) in Hx. }
  pose proof (edge_child (t_root s) _ B n q nd b r Hn Hnd Hb) as Ed.
  destruct r as [|l|c]; [by destruct (edges_not_null _ _ _ _ _ Ed)|done|].
  destruct (eo_node _ _ _ _ (wf_edges _ _ _ _ W) _ _ _ Ed) as [_ Hc].
  destruct (wf_linked _ _ _ _ _ _ W Hc) as (obc & ? & ? & ?). exists c, obc.
  split_and!; try done. apply nodes_of_Some. eauto.
Qed.

Lemma fit_plan_spec (Q : option Plan → RawTree L St → Prop) :
  Q (plan_of (nodes_of s) nd) s → wp (fit_plan n) Q s.
Proof using All.
  unfold plan_of, fit_plan. intros HQ. apply wp_bind. eapply wp_node_read; [done|].
  destruct (rest nd Nothing) as [|l|b r|] eqn:E; [by apply wp_ret..| |].
  - destruct (rest_inner b r E) as (c & obc & -> & Hc & Hobc & Hokc & Hqc & Hndc & _).
    rewrite Hndc in HQ. cbn in HQ. apply wp_bind, wp_node_ref, wp_bind. eapply wp_node_read; [done|].
    apply wp_bind. eapply wp_node_read; [exact Hobc|]. case_decide.
    + apply wp_bind. eapply wp_node_read; [exact Hobc|]. by apply wp_ret.
    + apply wp_bind. eapply wp_node_read; [done|]. by apply wp_ret.
  - apply wp_bind. eapply wp_node_read; [done|]. apply wp_bind. eapply wp_node_read; [done|]. by apply wp_ret.
Qed.
End at_node.

(** In the words of the code. *)
Lemma minimal_run s B m P n q : wf s B m P → B !! n = Some q → minimal s n → run (fit_plan n) s = Done None s.
Proof.
  intros W Hn (nd & Hnd & E). destruct (wf_linked _ _ _ _ _ _ W Hn) as (ob & Hob & _).
  assert (nd = o_node ob) as -> by (apply nodes_of_Some in Hnd as (ob' & ? & ->); congruence).
  pose proof (fit_plan_spec s B m P W n q ob Hn Hob (λ o s', o = None ∧ s' = s)) as X.
  rewrite E in X. specialize (X (conj eq_refl eq_refl)). apply wp_run in X as (a & s' & -> & -> & ->). done.
Qed.

(** A node is minimal as long as it and its only inner child do not change. *)
Lemma minimal_keep s s' B m P n q : wf s B m P → B !! n = Some q → minimal s n →
  nodes_of s' !! n = nodes_of s !! n →
  (∀ nd b c ndc, nodes_of s !! n = Some nd → find_child nd b = Some (NodeAt c) → nodes_of s !! c = Some ndc →
     ∃ ndc', nodes_of s' !! c = Some ndc' ∧ prefix_len ndc' = prefix_len ndc) → minimal s' n.
Proof.
  intros W Hn (nd & Hnd & E) En Hc. exists nd. rewrite En. split; [done|]. revert E. unfold plan_of.
  destruct (wf_linked _ _ _ _ _ _ W Hn) as (ob & Hob & _).
  assert (nd = o_node ob) as -> by (apply nodes_of_Some in Hnd as (ob' & ? & ->); congruence).
  destruct (rest (o_node ob) Nothing) as [|l|b r|] eqn:R; try done.
  destruct (rest_inner s B m P W n q ob Hn Hob b r R) as (c & obc & -> & _ & _ & _ & _ & Hndc & _ & Hf).
  destruct (Hc _ b c _ Hnd ltac:(by rewrite Hf, decide_True) Hndc) as (ndc' & -> & El).
  rewrite Hndc. cbn. rewrite El. by case_decide.
Qed.

(** ** Nodes below a path *)

(** How many nodes start at [q] or below. *)
Definition below B (q : path) : gmap loc path := filter (λ e, q `prefix_of` e.2) B.
Definition psize B (q : path) : nat := size (below B q).

Lemma psize_delete B n q : (psize (delete n B) q <= psize B q)%nat.
Proof.
  unfold psize. apply map_subseteq_size, map_filter_subseteq_mono, delete_subseteq.
Qed.

Lemma psize_replace B n g p q : B !! n = Some p → (psize (<[g := p]> (delete n B)) q <= psize B q)%nat.
Proof.
  intros Hn. unfold psize, below. destruct (decide (q `prefix_of` p)) as [Hq|Hq].
  - rewrite map_filter_insert_True by done. rewrite map_filter_delete, map_size_insert, map_size_delete.
    rewrite (proj2 (map_lookup_filter_Some _ B n p)) by done.
    assert (0 < size (filter (λ e : loc * path, q `prefix_of` e.2) B))%nat.
    { apply Nat.neq_0_lt_0. intros E%map_size_empty_inv.
      assert (filter (λ e : loc * path, q `prefix_of` e.2) B !! n = Some p) as X by by apply map_lookup_filter_Some.
      by rewrite E in X. }
    destruct (delete n _ !! g); cbn; lia.
  - rewrite map_filter_insert_False by done. apply map_subseteq_size, map_filter_subseteq_mono.
    etrans; apply delete_subseteq.
Qed.

(** A node and what is below its children. *)
Lemma psize_children B n q β (bs : list byte) : B !! n = Some q → q `prefix_of` β → NoDup bs →
  (1 + sum_list_with (λ b, psize B (β ++ [b])) bs <= psize B q)%nat.
Proof.
  intros Hn Hq Hd.
  assert (sum_list_with (λ b, psize B (β ++ [b])) bs <=
    size (filter (λ e : loc * path, Exists (λ b, β ++ [b] `prefix_of` e.2) bs) B))%nat as X.
  { induction Hd as [|b bs Hb Hd IH]; [cbn; lia|]. cbn [sum_list_with].
    etrans; [apply Nat.add_le_mono_l, IH|]. unfold psize, below. rewrite <- map_size_disj_union.
    - apply map_subseteq_size. apply map_union_least; apply map_filter_subseteq_ext; intros i x _; cbn.
      + intros Hx. by left.
      + intros Hx. by right.
    - apply map_disjoint_spec. intros i x y [Hx1 Hx2]%map_lookup_filter_Some [Hy1 (b' & Hb' & Hy2)%Exists_exists]%map_lookup_filter_Some.
      cbn in *. simplify_eq. by rewrite (prefix_branch _ _ _ _ Hx2 Hy2) in Hb. }
  apply Nat.le_trans with (size (<[n := q]> (filter (λ e : loc * path, Exists (λ b, β ++ [b] `prefix_of` e.2) bs) B))).
  - rewrite map_size_insert_None; [lia|]. apply map_lookup_filter_None. right. intros p Hp (b & _ & Hb)%Exists_exists. cbn in Hb. simplify_eq.
    apply prefix_length in Hb, Hq. rewrite length_app in Hb. cbn in Hb. lia.
  - apply map_subseteq_size. unfold below. apply insert_subseteq_l.
    + by apply map_lookup_filter_Some.
    + apply map_filter_subseteq_ext. intros i x _ (b & _ & Hb)%Exists_exists. cbn in *. etrans; [exact Hq|]. by eapply prefix_app_self.
Qed.
End plan.

(** ** One fit *)

Section refit.
Context {L St : Type} {LN : LeafNode L} {LL : LeafLaws L} {LY : Layout St} {EX : Exempt}.
Implicit Types (s : RawTree L St) (m : gmap path loc) (B : gmap loc path) (P : gset loc).

Definition child_of s (n a : loc) : Prop :=
  ∃ nd b, nodes_of s !! n = Some nd ∧ find_child nd b = Some (NodeAt a).

#[local] Instance child_of_dec s n a : Decision (child_of s n a).
Proof.
  destruct (nodes_of s !! n) as [nd|] eqn:E.
  - destruct (decide (Exists (λ b, find_child nd b = Some (NodeAt a)) all_bytes)) as [H|H]; [left|right].
    + apply Exists_exists in H as (b & _ & Hb). by exists nd, b.
    + intros (nd' & b & E' & Hb). apply H, Exists_exists. exists b. split; [apply elem_of_all_bytes|congruence].
  - right. intros (nd & b & E' & _). congruence.
Defined.

(** The node [n] at [q] is gone, perhaps with its child, and at most one node,
    a minimal one, is new, in its place. *)
Record refit s B s' B' (n : loc) (q : path) : Prop := {
  rf_gone : B' !! n = None;
  rf_back a pa : B' !! a = Some pa → B !! a = Some pa ∨ (pa = q ∧ minimal s' a);
  rf_keep a pa : B !! a = Some pa → a ≠ n → ¬ child_of s n a → B' !! a = Some pa;
  rf_node a nd : is_Some (B !! a) → is_Some (B' !! a) → nodes_of s !! a = Some nd →
    ∃ nd', nodes_of s' !! a = Some nd' ∧ pfx nd' = pfx nd ∧
      (∀ y, find_child nd y ≠ Some (NodeAt n) → find_child nd' y = find_child nd y) ∧
      ((∀ y, find_child nd y ≠ Some (NodeAt n)) → nd' = nd);
  rf_root : t_root s ≠ NodeAt n → t_root s' = t_root s;
  rf_size x : (psize B' x <= psize B x)%nat;
}.

(** What no fit touches. *)
Record entries_kept s s' : Prop := {
  ek_leaves : t_leaves s' = t_leaves s;
  ek_retired_leaves : t_retired_leaves s' = t_retired_leaves s;
  ek_owned : t_owned s' = t_owned s;
  ek_len : t_len s' = t_len s;
  ek_stripe : t_stripe s' = t_stripe s;
}.

(** The latched section of a fit, between the state [s1] that it started from
    and the state [s3] that it left, the parent's content aside. *)
Section after.
Context (s1 s3 : RawTree L St) B m P1 (pg : ParentGuard) (v v' : pview) (n : loc) (q : path) (r : raw).
Context (W1 : wf s1 B m P1) (Hn : B !! n = Some q) (G : guards s1 B pg v n q) (Hst : stored pg v v' (Some r)) (Hr : r ≠ Null).
Context (HK : entries_kept s1 s3) (Hroot : t_root s3 = t_root s1) (Hrl : t_root_latch s3 = t_root_latch s1).
Context (R : list loc) (new : option loc) (B' : gmap loc path).
Context (HRn : t_retired_nodes s3 = R ++ t_retired_nodes s1) (HR : NoDup R) (HnR : n ∈ R).
Context (HRc : ∀ a, a ∈ R → is_Some (B !! a) ∧ apart pg a ∧ (a = n ∨ child_of s1 n a) ∧
  ∃ ob, t_nodes s3 !! a = Some ob ∧ is_obsolete (o_latch ob) = true).
Context (Hnew : ∀ g, new = Some g → g ∈ P1 ∧
  ∃ nd, t_nodes s3 !! g = Some {| o_latch := 0; o_node := nd |} ∧ node_ok nd ∧ nonempty nd).
Context (Hsame : ∀ a, a ∉ R → new ≠ Some a → t_nodes s3 !! a = t_nodes s1 !! a).
Context (HB : ∀ a, B' !! a = if decide (new = Some a) then Some q else if decide (a ∈ R) then None else B !! a).

Abbreviation s' := (overlay pg (with_word (freed pg) v') s3).
Abbreviation N1 := (nodes_of (overlay pg (with_word (freed pg) v') s1)).
Abbreviation P' := (P1 ∖ from_option singleton ∅ new).

Lemma new_not_linked g : new = Some g → B !! g = None ∧ g ∉ R ∧ g ∉ t_retired_nodes s1 ∧ apart pg g.
Proof using All.
  intros Hg. destruct (Hnew g Hg) as [HP _]. destruct (wf_pool_node _ _ _ _ g W1 HP) as (HgB & HgR & _).
  split_and!; [done| |done|].
  - intros [[p Hp] _]%HRc. congruence.
  - destruct (decide (apart pg g)) as [|Ha]; [done|]. destruct (guards_linked _ _ _ _ _ _ _ G Ha). congruence.
Qed.

Lemma after_retired : t_retired_nodes s' = R ++ t_retired_nodes s1.
Proof using All. rewrite <- HRn. by destruct pg. Qed.

Lemma after_retired_NoDup : NoDup (t_retired_nodes s').
Proof using All.
  rewrite after_retired. apply NoDup_app. split_and!; [done| |apply W1]. intros a [[p Hp] _]%HRc Hx.
  destruct (wf_nodes _ _ _ _ W1 a); congruence.
Qed.

Lemma after_kept : entries_kept s1 s'.
Proof using All. destruct HK, (overlay_fields pg (with_word (freed pg) v') s3) as (X1 & X2 & X3 & X4 & X5 & X6). split; congruence. Qed.

Lemma after_orderly : orderly s1 s'.
Proof using All.
  destruct after_kept as [_ _ _ E1 E2]. split; [|congruence|done].
  apply overlay_quiet; [|by eapply freed_quiet]. rewrite Hrl. apply W1.
Qed.

Lemma after_leaf_status l : leaf_status s' m l.
Proof using All. destruct after_kept. eapply leaf_frame; [done..|apply W1]. Qed.

Lemma after_status a : node_status s' B' P' a.
Proof using All.
  destruct (decide (new = Some a)) as [Ha|Ha].
  { destruct (new_not_linked a Ha) as (A1 & A2 & A3 & A4). destruct (Hnew a Ha) as (HP & nd & End & Hok & Hne).
    eapply node_linked with {| o_latch := 0; o_node := nd |}; [|rewrite HB, decide_True by done; eauto| | |done..].
    - by rewrite overlay_lookup.
    - rewrite after_retired. rewrite elem_of_app. tauto.
    - rewrite Ha. cbn. set_solver. }
  assert (a ∈ P' ↔ a ∈ P1) as HP by (destruct new; cbn; set_solver).
  destruct (decide (a ∈ R)) as [HaR|HaR].
  { destruct (HRc a HaR) as ([p Hp] & Hap & _ & ob & Hob & Hobs).
    apply node_retired with ob; [by rewrite overlay_lookup|by rewrite HB, decide_False, decide_True| | |done].
    - rewrite after_retired. apply elem_of_app. by left.
    - rewrite HP. destruct (wf_nodes _ _ _ _ W1 a); congruence. }
  assert (B' !! a = B !! a) as EB by (by rewrite HB, !decide_False).
  assert (a ∈ t_retired_nodes s' ↔ a ∈ t_retired_nodes s1) as ER by (rewrite after_retired, elem_of_app; tauto).
  destruct (decide (apart pg a)) as [Hap|Hap].
  - apply (node_frame s1 _ B B' P1 P'); [by rewrite overlay_lookup, Hsame|by rewrite EB|done|done|apply W1].
  - eapply overlay_parent_linked; [exact W1|exact G|exact Hst|by eapply freed_quiet| | |done|done|destruct new; cbn; set_solver].
    + intros x Hx. rewrite HRn, elem_of_app. intros [Hin|?]; [|done]. by destruct (HRc x Hin) as (_ & ? & _).
    + intros x Hx Hl. rewrite HB. case_decide; [eauto|]. rewrite decide_False; [done|]. intros Hin.
      by destruct (HRc x Hin) as (_ & ? & _).
Qed.

Lemma after_slot_set : slot_set (t_root s1) (nodes_of s1) (guard_slot pg) (Some r) (t_root s') N1.
Proof using All.
  replace (t_root s') with (t_root (overlay pg (with_word (freed pg) v') s1)) by (by destruct pg).
  eapply overlay_slot_set; [exact G|exact Hst|congruence|done..].
Qed.

Lemma after_same a : a ∉ R → new ≠ Some a → nodes_of s' !! a = N1 !! a.
Proof using All.
  intros Ha Hg. rewrite !lookup_nodes_of. destruct (decide (apart pg a)).
  - by rewrite !overlay_lookup, Hsame by done.
  - destruct pg; [done|]. cbn in *. assert (a = p) as -> by (destruct (decide (a = p)); tauto).
    unfold put_node; cbn. by rewrite !lookup_insert_eq.
Qed.

Lemma after_before a : a ∈ R → N1 !! a = nodes_of s1 !! a.
Proof using All. intros Ha. destruct (HRc a Ha) as (_ & Hap & _). by rewrite !lookup_nodes_of, overlay_lookup. Qed.

Lemma after_refit : (∀ g, new = Some g → minimal s' g) →
  (∀ x, (psize B' x <= psize B x)%nat) → refit s1 B s' B' n q.
Proof using All.
  intros Hmin Hsz. split; [| | | | |done].
  - rewrite HB, decide_False, decide_True; [done..|]. intros (? & _)%new_not_linked. congruence.
  - intros a pa. rewrite HB. case_decide as D; [intros [= <-]; right; auto|]. case_decide; [done|by left].
  - intros a pa Ha Hna Hc. rewrite HB, !decide_False; [done| |].
    + intros Hin. by destruct (HRc a Hin) as (_ & _ & [?|?] & _).
    + intros (? & _)%new_not_linked. congruence.
  - intros a nd Ha Ha' Hnd.
    assert (new ≠ Some a) as Hng by (intros (E & _)%new_not_linked; rewrite E in Ha; by destruct Ha).
    assert (a ∉ R) as HaR by (intros Hin; rewrite HB, decide_False, decide_True in Ha' by done; by destruct Ha').
    rewrite after_same by done. destruct (decide (apart pg a)) as [Hap|Hap].
    + exists nd. rewrite lookup_nodes_of, overlay_lookup, <- lookup_nodes_of by done. done.
    + destruct pg as [u|a0 u b]; [done|]. cbn in Hap. assert (a = a0) as -> by (destruct (decide (a = a0)); tauto).
      destruct G as (_ & _ & q0 & _ & _ & Ha0 & _ & Hb & _). destruct Hst as (_ & _ & (_ & Hpf & Hx) & F).
      rewrite lookup_nodes_of, Ha0 in Hnd. injection Hnd as <-. cbn [o_node] in *.
      exists (pv_node v'). split_and!.
      * rewrite lookup_nodes_of. cbn. unfold put_node; cbn. by rewrite lookup_insert_eq.
      * unfold pfx. by rewrite Hpf.
      * intros y Hy. rewrite F, decide_False; [done|]. by intros ->.
      * intros Hno. by destruct (Hno b).
  - intros Hne. destruct pg as [u|a0 u b]; [|exact Hroot]. destruct G as (_ & _ & _ & E1 & E2 & _). congruence.
Qed.

(** All of it. *)
Lemma after_all : (∀ a, node_status s' B' P' a) ∧ (∀ l, leaf_status s' m l) ∧ orderly s1 s' ∧ entries_kept s1 s' ∧
  NoDup (t_retired_nodes s') ∧
  slot_set (t_root s1) (nodes_of s1) (guard_slot pg) (Some r) (t_root s') N1 ∧
  (∀ a, a ∉ R → new ≠ Some a → nodes_of s' !! a = N1 !! a) ∧ (∀ a, a ∈ R → N1 !! a = nodes_of s1 !! a) ∧
  ((∀ g, new = Some g → minimal s' g) → (∀ x, (psize B' x <= psize B x)%nat) → refit s1 B s' B' n q).
Proof using All.
  split_and!; [exact after_status|exact after_leaf_status|exact after_orderly|exact after_kept|exact after_retired_NoDup
    |exact after_slot_set|exact after_same|exact after_before|exact after_refit].
Qed.
End after.

Lemma entries_kept_trans s s1 s2 : entries_kept s s1 → entries_kept s1 s2 → entries_kept s s2.
Proof. intros [] []. split; congruence. Qed.

Lemma prepared_kept s p s1 p1 B m X : prepared s p s1 p1 B m X → entries_kept s s1.
Proof. intros HP. destruct (pr_same _ _ _ _ _ _ _ HP) as [_ _ F1 F2 F3 _ F4 F5 _]. by split. Qed.

Lemma prepared_nodes_same s p s1 p1 B m X a : prepared s p s1 p1 B m X → is_Some (B !! a) →
  nodes_of s1 !! a = nodes_of s !! a.
Proof. intros HP Ha. rewrite !lookup_nodes_of. by rewrite (proj2 (linked_prepared _ _ _ a HP Ha)). Qed.

Lemma refit_prepared s p s1 p1 B m X s' B' n q : prepared s p s1 p1 B m X → is_Some (B !! n) →
  refit s1 B s' B' n q → refit s B s' B' n q.
Proof.
  intros HP Hn [F1 F2 F3 F4 F5 F6]. pose proof (prepared_nodes_same _ _ _ _ _ _ _ n HP Hn) as En.
  split; [done|done| | | |done].
  - intros a pa Ha Hna Hc. apply F3; [done..|]. unfold child_of. by rewrite En.
  - intros a nd Ha Ha' Hnd. apply F4; [done..|]. by rewrite (prepared_nodes_same _ _ _ _ _ _ _ a HP Ha).
  - rewrite <- (sm_root _ _ _ (pr_same _ _ _ _ _ _ _ HP)). exact F5.
Qed.
End refit.

(** A frame's parent, in whose slot the frame's node is; its version may be
    out of date. *)
Inductive frame_parent {L St} {LN : LeafNode L} {EX : Exempt} (s : RawTree L St) (B : gmap loc path) (n : loc) (q : path) : Parent → Prop :=
| frame_parent_intro parent v : parent_ok s B n q parent →
    frame_parent s B n q (match parent with ParentRoot => ParentRoot | ParentNode r _ b => ParentNode r v b end).

Section fit.
Context {L St : Type} {LN : LeafNode L} {LL : LeafLaws L} {LY : Layout St} {EX : Exempt}.
Context (s : RawTree L St) (m : gmap path loc) (B : gmap loc path) (p : Prepared).
Context (W : wf s B m (pool p)) (Hp : pool_ok p) (Hu : used p = ∅) (HE : ∀ a : loc, a ∉ exempt).
Context (n : loc) (q : path) (ob : NodeObj) (parent : Parent) (b : SpinBackoff).
Context (Hn : B !! n = Some q) (Hob : t_nodes s !! n = Some ob) (PO : frame_parent s B n q parent).
Abbreviation nd := (o_node ob).

Definition fit_ok (res : fit_result) (s' : RawTree L St) : Prop :=
  let '(ok, p') := res in pool_ok p' ∧ entries_kept s s' ∧
  if ok then ∃ B', wf s' B' m (pool p') ∧ (refit s B s' B' n q ∨ (s' = s ∧ B' = B ∧ minimal s n))
  else storage_full (St := St) ∧ wf s' B m (pool p').

(** A fit that ends the attempts. *)
Definition fit_ends (r : flow fit_state fit_result) (s' : RawTree L St) : Prop :=
  match r with Break res => fit_ok res s' | Continue _ => False end.

Lemma wp_lock_frame {A} s1 p1 X (k : option ParentGuard → prog L A) (Q : A → RawTree L St → Prop) :
  prepared s p s1 p1 B m X →
  (∀ pg v, guards s1 B pg v n q → wp (k (Some pg)) Q (overlay pg (with_word (pv_word v + 1) v) s1)) →
  wp (x ← lock_parent parent (NodeAt n); k x) Q s1.
Proof using All.
  intros HP HQ. destruct PO as [par v PO'].
  pose proof (parent_ok_prepared _ _ _ _ _ _ HP PO') as PO1.
  pose proof (wp_lock_parent par n q s1 B m (pool p1) k Q (pr_wf _ _ _ _ _ _ _ HP) Hn PO1 HQ) as X1.
  by destruct par.
Qed.

(** *** A leaf takes the place of its node *)

Lemma rest_leaf r : rest nd Nothing = RestLeaf r → ∃ l q0 x0, r = LeafAt l ∧
  ∀ q' x r', node_edges (q ++ pfx nd) nd q' x r' ↔ q' = q0 ∧ x = x0 ∧ r' = LeafAt l.
Proof using All.
  intros E. destruct (fit_node_ok s B m _ W n q ob Hn Hob) as (Hok & _ & Hnd).
  pose proof (rest_spec nd Nothing Hok I) as R. rewrite E in R. destruct R as [(Hx & -> & Hnone)|(Hx & Hl & y & Hy)].
  - apply has_exact_spec in Hx as [Hx _].
    pose proof (edge_exact (t_root s) _ B n q nd Hn Hnd Hx) as Ed.
    destruct (exact_leaf nd) as [|l|c] eqn:El; [done| |by destruct (eo_node _ _ _ _ (wf_edges _ _ _ _ W) _ _ _ Ed)].
    exists l, (q ++ pfx nd), true. split; [done|]. intros q' x r'. unfold node_edges. rewrite El. split.
    + intros [(_ & y & Hy & _)|(-> & <- & _ & ->)]; [|done]. specialize (Hnone y). change (find_child nd y = None) in Hnone. congruence.
    + intros (-> & -> & ->). by right.
  - assert (exact_leaf nd = Null) as HX.
    { destruct (decide (exact_leaf nd = Null)) as [|Hne]; [done|]. by rewrite (proj2 (has_exact_spec nd Nothing)) in Hx. }
    assert (∀ z, find_child nd z = if decide (z = y) then Some r else None) as Hz by exact Hy. clear Hy.
    destruct r as [|l|c]; [done| |done]. exists l, ((q ++ pfx nd) ++ [y]), false. split; [done|].
    intros q' x r'. unfold node_edges. rewrite HX. split.
    + intros [(-> & z & Hc & ->)|(_ & <- & ? & _)]; [|done]. rewrite Hz in Hc. case_decide; [|done]. by simplify_eq.
    + intros (-> & -> & ->). left. split; [done|]. exists y. by rewrite Hz, decide_True.
Qed.

Lemma fit_leaf_spec r : rest nd Nothing = RestLeaf r →
  wp (fit_commit b p parent (NodeAt n) n (o_latch ob) (PlanLeaf r) None) fit_ends s.
Proof using All.
  intros E. destruct (rest_leaf r E) as (l & q0 & x0 & -> & Hedge).
  destruct (fit_node_ok s B m _ W n q ob Hn Hob) as (Hok & Hq & Hnd).
  unfold fit_commit. eapply wp_lock_frame; [by apply prepared_nil|]. intros pg v G.
  pose proof (guards_apart _ _ _ _ _ _ G) as Han. cbn [fit_replacement].
  apply wp_bind. eapply wp_try_upgrade; [by rewrite overlay_lookup|done..|]. rewrite overlay_put by done.
  apply wp_bind, wp_ret, wp_bind. eapply wp_publish; [exact G|done|]. intros v' Hst.
  apply wp_bind, wp_ret, wp_bind. eapply wp_node_mark_obsolete.
  { rewrite overlay_lookup by done. apply lookup_insert_eq. }
  rewrite overlay_put by done. apply wp_bind, wp_pg_drop, wp_bind, wp_ret, wp_bind.
  eapply wp_retire_node; [rewrite overlay_lookup by done; apply lookup_insert_eq|].
  rewrite overlay_set_retired_nodes. apply wp_ret.
  match goal with |- fit_ends _ (overlay _ _ ?s0) => set (s3 := s0) end.
  change (with_word _ (with_word _ v')) with (with_word (freed pg) v').
  assert (t_retired_nodes s3 = [n] ++ t_retired_nodes s) as R3 by (by destruct pg).
  assert (∃ obn, t_nodes s3 !! n = Some obn ∧ is_obsolete (o_latch obn) = true) as Nn.
  { eexists. split; [apply lookup_insert_eq|]. by apply quiet_obsolete. }
  assert (∀ a, a ≠ n → t_nodes s3 !! a = t_nodes s !! a) as N3.
  { intros a Ha. do 2 (etrans; [by apply lookup_insert_ne|]). done. }
  assert (entries_kept s s3 ∧ t_root s3 = t_root s ∧ t_root_latch s3 = t_root_latch s) as (K3 & E1 & E2) by (split; [split|]; by destruct pg).
  clearbody s3.
  destruct (after_all s s3 B m (pool p) pg v v' n q (LeafAt l)) with (R := [n]) (new := @None loc) (B' := delete n B)
    as (A1 & A2 & A3 & A4 & A5 & A6 & A7 & A8 & A9); try done.
  - apply NoDup_singleton.
  - by left.
  - intros a ->%list_elem_of_singleton. split_and!; [by eexists|done|by left|done].
  - intros a Ha _. apply N3. set_solver.
  - intros a. rewrite decide_False by done. case_decide as D.
    + apply list_elem_of_singleton in D as ->. apply lookup_delete_eq.
    + apply lookup_delete_ne. set_solver.
  - destruct (prep_commit_ok p Hp) as [C1 C2]. rewrite Hu in C2.
    split_and!; [done..|]. exists (delete n B). split; [|left; apply A9; [done|]; intros x; apply psize_delete].
    rewrite C2. eapply (wf_lift_leaf s _ B m (pool p) _ (guard_slot pg) q _ _ _ _ W (guards_slot_at _ _ _ _ _ _ G) A6 eq_refl A3)
      with (n := n) (nd := nd) (l := l); try done; try apply A4.
    + rewrite A8; [done|by left].
    + intros a Ha _. apply A7; [set_solver|done].
Qed.

(** *** A copy takes its place *)

Lemma child_apart (s1 : RawTree L St) pg v c pc : guards s1 B pg v n q → B !! c = Some (q ++ pc) → pc ≠ [] → apart pg c ∧ c ≠ n.
Proof using All.
  intros (_ & _ & G) Hc Hne. assert (c ≠ n) as Hcn.
  { intros ->. rewrite Hn in Hc. injection Hc as Hc. apply (f_equal length) in Hc. rewrite length_app in Hc.
    destruct pc; cbn in Hc; [done|lia]. }
  split; [|done]. destruct pg as [|a w y]; [done|]. cbn. intros ->. destruct G as (qa & _ & Ha & _ & _ & _ & E).
  rewrite Hc in Ha. injection Ha as Ha. apply (f_equal length) in E, Ha. rewrite !length_app in *. cbn in *. lia.
Qed.

Lemma prefix_len_pfx (nd1 nd2 : node raw) : node_ok nd1 → node_ok nd2 → pfx nd1 = pfx nd2 → prefix_len nd1 = prefix_len nd2.
Proof using. intros H1 H2 E. rewrite <- !prefix_len_slice by done. unfold pfx in E. by rewrite E. Qed.

Lemma copy_minimal (N N' : gmap loc (node raw)) nd1 ndg ty : node_ok nd1 → node_ok ndg → same_content nd1 ndg → node_type ndg = ty →
  plan_of N nd1 = Some (PlanShrink ty) → (∀ y c, rest nd1 Nothing = RestInner y (NodeAt c) → N' !! c = N !! c) →
  plan_of N' ndg = None.
Proof using.
  intros Hok1 Hokg (E1 & E2 & E3) Hty. unfold plan_of. rewrite (rest_ext nd1 ndg) by done.
  rewrite (num_children_ext nd1 ndg), (prefix_len_pfx ndg nd1) by done.
  destruct (rest nd1 Nothing) as [|l|y r|]; try done.
  - destruct r as [|l|c]; try done. intros E HN. rewrite (HN y c) by done. destruct (N !! c) as [ndc|]; [|done]. cbn in *.
    case_decide; [done|]. destruct (type_ltb Node4 (node_type nd1)); [|done]. injection E as <-. rewrite Hty. done.
  - case_match; [|done]. intros [= <-] _. by rewrite Hty, type_ltb_irrefl.
Qed.

Lemma fit_copy_spec ty s1 p1 g : plan_of (nodes_of s) nd = Some (PlanShrink ty) → (num_children nd <= capacity ty)%nat →
  prepared s p s1 p1 B m {[g]} → fresh_node s1 g (node_new ty) →
  wp (fit_commit b p1 parent (NodeAt n) n (o_latch ob) (PlanShrink ty) (Some g)) fit_ends s1.
Proof using All.
  intros Hplan Hroom HP F1.
  destruct (fit_node_ok s B m _ W n q ob Hn Hob) as (Hok & Hq & Hnd).
  destruct (node_new_ok (R := raw) ty) as (O1 & O2 & O3 & O4).
  destruct (copy_into_ok nd (node_new ty) Hok O1 O2) as (ndg & Ec & K1 & K2 & K3); [by rewrite O4|].
  assert (is_Some (B !! n)) as HnB by by eexists.
  destruct (linked_prepared _ _ _ n HP HnB) as [Hng Hn1]. rewrite Hob in Hn1.
  pose proof (pr_wf _ _ _ _ _ _ _ HP) as W1. assert (g ≠ n) as Hgn by set_solver.
  assert (g ∈ pool p1) as Hgp by (rewrite (pr_pool _ _ _ _ _ _ _ HP); set_solver).
  destruct (wf_pool_node _ _ _ _ g W1 Hgp) as (HgB & HgR & _).
  unfold fit_commit. eapply wp_lock_frame; [exact HP|]. intros pg v G.
  pose proof (guards_apart _ _ _ _ _ _ G) as Han.
  assert (apart pg g) as Hag.
  { destruct (decide (apart pg g)) as [|Ha]; [done|]. destruct (guards_linked _ _ _ _ _ _ _ G Ha). congruence. }
  cbn [fit_replacement].
  apply wp_bind. eapply wp_try_upgrade; [by rewrite overlay_lookup|done..|]. rewrite overlay_put by done.
  apply wp_bind, wp_bind, wp_ret, wp_bind. unfold node_copy_into. apply wp_bind.
  eapply wp_node_read; [rewrite overlay_lookup by done; apply lookup_insert_eq|]. cbn [o_node id].
  eapply wp_init_node; [unfold fresh_node; rewrite overlay_lookup by done; etrans; [by apply lookup_insert_ne|exact F1]|exact Ec|].
  rewrite overlay_put by done. apply wp_ret, wp_bind. eapply wp_publish; [exact G|done|]. intros v' Hst.
  apply wp_bind, wp_ret, wp_bind. eapply wp_node_mark_obsolete.
  { rewrite overlay_lookup by done. etrans; [by apply lookup_insert_ne|]. apply lookup_insert_eq. }
  rewrite overlay_put by done. apply wp_bind, wp_pg_drop, wp_bind, wp_ret, wp_bind.
  eapply wp_retire_node; [rewrite overlay_lookup by done; apply lookup_insert_eq|].
  rewrite overlay_set_retired_nodes. apply wp_ret.
  match goal with |- fit_ends _ (overlay _ _ ?s0) => set (s3 := s0) end.
  change (with_word _ (with_word _ v')) with (with_word (freed pg) v').
  assert (t_retired_nodes s3 = [n] ++ t_retired_nodes s1) as R3 by (by destruct pg).
  assert (∃ obn, t_nodes s3 !! n = Some obn ∧ is_obsolete (o_latch obn) = true) as Nn.
  { eexists. split; [apply lookup_insert_eq|]. by apply quiet_obsolete. }
  assert (t_nodes s3 !! g = Some {| o_latch := 0; o_node := ndg |}) as Ng.
  { etrans; [by apply lookup_insert_ne|]. apply lookup_insert_eq. }
  assert (∀ a, a ≠ n → a ≠ g → t_nodes s3 !! a = t_nodes s1 !! a) as N3.
  { intros a Ha Hga. do 3 (etrans; [by apply lookup_insert_ne|]). done. }
  assert (entries_kept s1 s3 ∧ t_root s3 = t_root s1 ∧ t_root_latch s3 = t_root_latch s1) as (KK & E1 & E2) by (split; [split|]; by destruct pg).
  clearbody s3. pose proof K3 as (P1 & P2 & P3).
  assert (nonempty ndg) as Hneg.
  { destruct (wf_nodes _ _ _ _ W n) as [ob' ? _ _ _ _ _ Hne| | |]; [|congruence..]. simplify_eq.
    destruct (Hne (HE n)) as [[y Hy]|Hx]; [left; exists y; by rewrite P3|right; by rewrite P2]. }
  destruct (after_all s1 s3 B m (pool p1) pg v v' n q (NodeAt g)) with (R := [n]) (new := Some g) (B' := <[g := q]> (delete n B))
    as (A1 & A2 & A3 & A4 & A5 & A6 & A7 & A8 & A9); try done.
  - apply NoDup_singleton.
  - by left.
  - intros a ->%list_elem_of_singleton. split_and!; [done|done|by left|done].
  - intros ? [= <-]. split; [done|]. by exists ndg.
  - intros a Ha Hga. apply N3; [set_solver|congruence].
  - intros a. case_decide as D; [injection D as ->; apply lookup_insert_eq|]. rewrite lookup_insert_ne by congruence.
    case_decide as D2.
    + apply list_elem_of_singleton in D2 as ->. apply lookup_delete_eq.
    + apply lookup_delete_ne. set_solver.
  - destruct (prep_commit_ok p1 (pr_ok _ _ _ _ _ _ _ HP)) as [C1 C2].
    rewrite (pr_used _ _ _ _ _ _ _ HP), Hu, (right_id_L ∅ (∪)) in C2.
    set (s' := overlay _ _ s3) in *.
    assert (nodes_of s' !! g = Some ndg) as Ng' by (unfold s'; by rewrite lookup_nodes_of, overlay_lookup, Ng).
    split_and!; [done|by eapply entries_kept_trans; [by eapply prepared_kept|]|]. exists (<[g := q]> (delete n B)). split.
    + rewrite C2. eapply (wf_copy_same s1 s' B m (pool p1) _ (guard_slot pg) q _ _ _ _ W1 (guards_slot_at _ _ _ _ _ _ G) A6 eq_refl A3)
        with (n := n) (g := g) (nd := nd) (ndg := ndg) (E := λ _ _ _, False); try done; try apply A4.
      * rewrite A8 by (by left). by rewrite lookup_nodes_of, Hn1.
      * intros q' x r. unfold node_edges. rewrite P2. setoid_rewrite P3. tauto.
      * intros a Ha Hga _. apply A7; [set_solver|congruence].
      * tauto.
    + left. eapply refit_prepared; [exact HP|done|]. apply A9; [|intros x; by apply psize_replace].
      intros ? [= <-]. exists ndg. split; [done|]. apply (copy_minimal (nodes_of s) _ nd ndg ty Hok K1 K3 (eq_trans K2 O4) Hplan).
      intros y c Er. destruct (rest_inner s B m _ W n q ob Hn Hob y _ Er) as (c' & obc & [= <-] & Hc & _ & _ & _ & Hndc & _).
      destruct (child_apart s1 pg v c _ G Hc) as [Hap Hcn]; [by destruct (pfx nd)|].
      assert (is_Some (B !! c)) as HcB by by eexists.
      rewrite A7; [|set_solver|congruence]. rewrite lookup_nodes_of, overlay_lookup, <- lookup_nodes_of by done.
      by apply (prepared_nodes_same _ _ _ _ _ _ _ _ HP).
Qed.

(** *** A node is merged with its only child *)

Lemma merged_minimal (N N' : gmap loc (node raw)) ndc ndg : node_ok ndc → node_ok ndg →
  exact_leaf ndg = exact_leaf ndc → (∀ x, find_child ndg x = find_child ndc x) →
  node_type ndg = fitting (num_children ndc) → (prefix_len ndc <= prefix_len ndg)%nat →
  plan_of N ndc = None → (∀ y c, rest ndc Nothing = RestInner y (NodeAt c) → N' !! c = N !! c) →
  plan_of N' ndg = None.
Proof using.
  intros Hokc Hokg Ex Ec Hty Hl. unfold plan_of. rewrite (rest_ext ndc ndg), (num_children_ext ndc ndg), Hty by done.
  destruct (rest ndc Nothing) as [|l|y r|]; try done.
  - destruct r as [|l|c]; try done. intros E HN. rewrite (HN y c) by done. destruct (N !! c) as [ndd|]; [|done]. cbn in *.
    case_decide; [done|]. rewrite decide_False by lia.
    destruct (type_ltb Node4 (node_type ndc)) eqn:Et; [done|]. pose proof (proj2 (num_children_spec ndc Hokc)) as Hcap.
    assert (fitting (num_children ndc) = Node4) as ->; [|done]. destruct (node_type ndc); try done.
    unfold fitting. by rewrite decide_True by done.
  - by rewrite type_ltb_irrefl.
Qed.

Lemma merged_content y (obc : NodeObj) : snapshot_ok (load_prefix nd) → node_ok nd → node_ok (o_node obc) →
  (prefix_len nd + 1 + prefix_len (o_node obc) <= MAX_PREFIX_LEN)%nat →
  let ty := fitting (num_children (o_node obc)) in
  ∃ bytes len nd1, merged_prefix (load_prefix nd) y (load_prefix (o_node obc)) = Some (bytes, len) ∧
    copy_into (o_node obc) (node_new ty) = Some nd1 ∧ node_ok nd1 ∧
    let ndg := write_prefix nd1 (take len bytes) in
    node_ok ndg ∧ node_type ndg = ty ∧ pfx ndg = pfx nd ++ y :: pfx (o_node obc) ∧
    exact_leaf ndg = exact_leaf (o_node obc) ∧ (∀ x, find_child ndg x = find_child (o_node obc) x).
Proof using.
  intros Hsn Hokn Hokc Hl ty.
  assert (num_children (o_node obc) <= capacity ty)%nat as Hroom.
  { apply fitting_room. rewrite (proj1 (num_children_spec _ Hokc)). apply child_count_le. }
  destruct (merged_prefix_spec (load_prefix nd) (load_prefix (o_node obc)) y) as (bytes & len & E & Hlen & Et);
    [done|by apply load_prefix_ok|rewrite <- !as_slice_length, !prefix_len_slice by (done || by apply load_prefix_ok); done|].
  destruct (node_new_ok (R := raw) ty) as (O1 & O2 & O3 & O4).
  destruct (copy_into_ok (o_node obc) (node_new ty) Hokc O1 O2) as (nd1 & Ec & K1 & K2 & K3 & K4 & K5); [by rewrite O4|].
  exists bytes, len, nd1. split_and!; [done..|]. cbv zeta. rewrite Et.
  destruct (write_prefix_ok nd1 (as_slice (load_prefix nd) ++ y :: as_slice (load_prefix (o_node obc))) K1) as (L1 & L2 & L3 & L4).
  split_and!; [done|congruence| |congruence|intros x; by rewrite L4, K5].
  unfold pfx. apply load_write_prefix. rewrite length_app. cbn. rewrite !prefix_len_slice by done. lia.
Qed.

(** After the section of a merge. *)
Lemma merge_ends y c obc s1 p1 g s3 pg v v' ndg (ty := fitting (num_children (o_node obc))) :
  rest nd Nothing = RestInner y (NodeAt c) → t_nodes s !! c = Some obc → minimal s c →
  prepared s p s1 p1 B m {[g]} → guards s1 B pg v n q → stored pg v v' (Some (NodeAt g)) →
  entries_kept s1 s3 → t_root s3 = t_root s1 → t_root_latch s3 = t_root_latch s1 →
  t_retired_nodes s3 = [n; c] ++ t_retired_nodes s1 →
  (∃ obn, t_nodes s3 !! n = Some obn ∧ is_obsolete (o_latch obn) = true) →
  (∃ obn, t_nodes s3 !! c = Some obn ∧ is_obsolete (o_latch obn) = true) →
  t_nodes s3 !! g = Some {| o_latch := 0; o_node := ndg |} →
  (∀ a, a ≠ n → a ≠ c → a ≠ g → t_nodes s3 !! a = t_nodes s1 !! a) →
  node_ok ndg → node_type ndg = ty → pfx ndg = pfx nd ++ y :: pfx (o_node obc) →
  exact_leaf ndg = exact_leaf (o_node obc) → (∀ x, find_child ndg x = find_child (o_node obc) x) →
  fit_ends (Break (true, prep_commit p1)) (overlay pg (with_word (freed pg) v') s3).
Proof using All.
  intros Erest Hobc Hmin HP G Hst KK E1 E2 R3 Nn Nc Ng N3 K2 K3 K4 K5 K6.
  destruct (fit_node_ok s B m _ W n q ob Hn Hob) as (Hok & Hq & Hnd).
  destruct (rest_inner s B m _ W n q ob Hn Hob y _ Erest) as (c' & obc' & [= <-] & Hc & Hobc' & Hokc & Hqc & Hndc & HX & Hedge).
  assert (obc' = obc) as -> by congruence. clear Hobc'.
  assert (is_Some (B !! n)) as HnB by by eexists. assert (is_Some (B !! c)) as HcB by by eexists.
  destruct (linked_prepared _ _ _ n HP HnB) as [Hng Hn1]. rewrite Hob in Hn1.
  destruct (linked_prepared _ _ _ c HP HcB) as [Hcg Hc1]. rewrite Hobc in Hc1.
  pose proof (pr_wf _ _ _ _ _ _ _ HP) as W1. assert (g ≠ n ∧ g ≠ c) as [Hgn Hgc] by (split; set_solver).
  assert (g ∈ pool p1) as Hgp by (rewrite (pr_pool _ _ _ _ _ _ _ HP); set_solver).
  destruct (wf_pool_node _ _ _ _ g W1 Hgp) as (HgB & HgR & _).
  pose proof (guards_apart _ _ _ _ _ _ G) as Han.
  destruct (child_apart s1 pg v c _ G Hc) as [Hac Hcn]; [by destruct (pfx nd)|].
  assert (nonempty ndg) as Hneg.
  { destruct (wf_nodes _ _ _ _ W c) as [ob' ? _ _ _ _ _ Hne| | |]; [|destruct HcB; congruence..]. simplify_eq.
    destruct (Hne (HE c)) as [[z Hz]|Hx]; [left; exists z; by rewrite K6|right; by rewrite K5]. }
  destruct (after_all s1 s3 B m (pool p1) pg v v' n q (NodeAt g)) with (R := [n; c]) (new := Some g) (B' := <[g := q]> (delete c (delete n B)))
    as (A1 & A2 & A3 & A4 & A5 & A6 & A7 & A8 & A9); try done.
  - apply NoDup_cons. split; [set_solver|apply NoDup_singleton].
  - by left.
  - intros a [-> | ->%list_elem_of_singleton]%elem_of_cons; split_and!; try done; [by left|right].
    exists nd, y. rewrite (prepared_nodes_same _ _ _ _ _ _ _ n HP HnB). split; [done|]. by rewrite Hedge, decide_True.
  - intros ? [= <-]. split; [done|]. by exists ndg.
  - intros a Ha Hga. apply N3; [set_solver..|congruence].
  - intros a. case_decide as D; [injection D as ->; apply lookup_insert_eq|]. rewrite lookup_insert_ne by congruence.
    case_decide as D2.
    + apply elem_of_cons in D2 as [-> | ->%list_elem_of_singleton]; [|apply lookup_delete_eq].
      rewrite lookup_delete_ne by done. apply lookup_delete_eq.
    + rewrite !lookup_delete_ne by set_solver. done.
  - destruct (prep_commit_ok p1 (pr_ok _ _ _ _ _ _ _ HP)) as [C1 C2].
    rewrite (pr_used _ _ _ _ _ _ _ HP), Hu, (right_id_L ∅ (∪)) in C2.
    set (s' := overlay _ _ s3) in *.
    assert (nodes_of s' !! g = Some ndg) as Ng'.
    { unfold s'. rewrite lookup_nodes_of, overlay_lookup, Ng; [done|].
      destruct (decide (apart pg g)) as [|Ha]; [done|]. destruct (guards_linked _ _ _ _ _ _ _ G Ha). congruence. }
    split_and!; [done|by eapply entries_kept_trans; [by eapply prepared_kept|]|].
    exists (<[g := q]> (delete c (delete n B))). split.
    + rewrite C2. eapply (wf_merge s1 s' B m (pool p1) _ (guard_slot pg) q _ _ _ _ W1 (guards_slot_at _ _ _ _ _ _ G) A6 eq_refl A3)
        with (n := n) (c := c) (g := g) (b := y) (nd := nd) (ndc := o_node obc) (ndg := ndg); try done; try apply A4.
      * rewrite A8 by (by left). by rewrite lookup_nodes_of, Hn1.
      * rewrite A8 by (by right; left). by rewrite lookup_nodes_of, Hc1.
      * intros q' x r. unfold node_edges. rewrite HX. setoid_rewrite Hedge. split.
        -- intros [(-> & z & Hz & ->)|(_ & <- & ? & _)]; [|done]. case_decide; [|done]. simplify_eq. by rewrite <- (assoc_L (++)).
        -- intros (-> & -> & ->). left. split; [done|]. exists y. by rewrite decide_True, (assoc_L (++)).
      * intros a Ha Hca Hga _. apply A7; [set_solver|congruence].
    + left. eapply refit_prepared; [exact HP|done|]. apply A9.
      * intros ? [= <-]. exists ndg. split; [done|]. destruct Hmin as (ndc & Hndc' & Hplan).
        assert (ndc = o_node obc) as -> by congruence.
        eapply (merged_minimal (nodes_of s) _ (o_node obc)); try done.
        -- rewrite <- !prefix_len_slice by done. unfold pfx in K4. rewrite K4, length_app. cbn. lia.
        -- intros z d Er. destruct (rest_inner s B m _ W c _ obc Hc Hobc z (NodeAt d) Er) as (d' & obd & [= <-] & Hd & _ & _ & _ & _ & _).
           rewrite <- !(assoc_L (++)) in Hd.
           destruct (child_apart s1 pg v d _ G Hd) as [Hap Hdn]; [by destruct (pfx nd)|].
           assert (is_Some (B !! d)) as HdB by by eexists.
           assert (d ≠ c). { intros ->. rewrite Hc in Hd. injection Hd as Hd. apply (f_equal length) in Hd. rewrite !length_app in Hd. cbn in Hd. rewrite ?length_app in Hd. cbn in Hd. lia. }
           rewrite A7; [|set_solver|congruence]. rewrite lookup_nodes_of, overlay_lookup, <- lookup_nodes_of by done.
           by apply (prepared_nodes_same _ _ _ _ _ _ _ _ HP).
      * intros x. etrans; [|apply (psize_replace B n g q x Hn)]. unfold psize. apply map_subseteq_size, map_filter_subseteq_mono.
        apply insert_mono, delete_subseteq.
Qed.

Lemma fit_merge_spec y c obc s1 p1 g (ty := fitting (num_children (o_node obc))) :
  rest nd Nothing = RestInner y (NodeAt c) → t_nodes s !! c = Some obc → minimal s c →
  (prefix_len nd + 1 + prefix_len (o_node obc) <= MAX_PREFIX_LEN)%nat →
  prepared s p s1 p1 B m {[g]} → fresh_node s1 g (node_new ty) →
  wp (fit_commit b p1 parent (NodeAt n) n (o_latch ob) (PlanMerge y (NodeAt c) ty) (Some g)) fit_ends s1.
Proof using All.
  intros Erest Hobc Hmin Hl HP F1.
  destruct (fit_node_ok s B m _ W n q ob Hn Hob) as (Hok & Hq & Hnd).
  destruct (rest_inner s B m _ W n q ob Hn Hob y _ Erest) as (c' & obc' & [= <-] & Hc & Hobc' & Hokc & Hqc & Hndc & HX & Hedge).
  assert (obc' = obc) as -> by congruence. clear Hobc'.
  destruct (merged_content y obc) as (bytes & len & nd1 & Em & Ec & K1 & K2 & K3 & K4 & K5 & K6); [by apply load_prefix_ok|done..|].
  fold ty in Ec, K3. set (ndg := write_prefix nd1 (take len bytes)) in *.
  assert (is_Some (B !! n)) as HnB by by eexists. assert (is_Some (B !! c)) as HcB by by eexists.
  destruct (linked_prepared _ _ _ n HP HnB) as [Hng Hn1]. rewrite Hob in Hn1.
  destruct (linked_prepared _ _ _ c HP HcB) as [Hcg Hc1]. rewrite Hobc in Hc1.
  pose proof (pr_wf _ _ _ _ _ _ _ HP) as W1. assert (g ≠ n ∧ g ≠ c) as [Hgn Hgc] by (split; set_solver).
  assert (g ∈ pool p1) as Hgp by (rewrite (pr_pool _ _ _ _ _ _ _ HP); set_solver).
  destruct (wf_pool_node _ _ _ _ g W1 Hgp) as (HgB & HgR & _).
  unfold fit_commit. eapply wp_lock_frame; [exact HP|]. intros pg v G.
  pose proof (guards_apart _ _ _ _ _ _ G) as Han.
  destruct (child_apart s1 pg v c _ G Hc) as [Hac Hcn]; [by destruct (pfx nd)|].
  assert (apart pg g) as Hag.
  { destruct (decide (apart pg g)) as [|Ha]; [done|]. destruct (guards_linked _ _ _ _ _ _ _ G Ha). congruence. }
  cbn [fit_replacement].
  apply wp_bind. eapply wp_try_upgrade; [by rewrite overlay_lookup|done..|]. rewrite overlay_put by done.
  apply wp_bind, wp_bind, wp_node_ref, wp_bind.
  eapply wp_read_version; [rewrite overlay_lookup by done; etrans; [by apply lookup_insert_ne|exact Hc1]|done|].
  apply wp_bind. eapply wp_try_upgrade; [rewrite overlay_lookup by done; etrans; [by apply lookup_insert_ne|exact Hc1]|done..|].
  rewrite overlay_put by done. apply wp_bind. eapply wp_node_read.
  { rewrite overlay_lookup by done. etrans; [by apply lookup_insert_ne|apply lookup_insert_eq]. }
  cbn [o_node]. apply wp_bind. eapply wp_node_read; [rewrite overlay_lookup by done; apply lookup_insert_eq|]. cbn [o_node].
  apply wp_bind. eapply wp_node_read; [rewrite overlay_lookup by done; apply lookup_insert_eq|]. cbn [o_node].
  rewrite Em, bool_decide_true by (apply fitting_room; rewrite (proj1 (num_children_spec _ Hokc)); apply child_count_le).
  apply wp_bind, wp_ret, wp_bind. unfold node_copy_into. apply wp_bind.
  eapply wp_node_read; [rewrite overlay_lookup by done; apply lookup_insert_eq|]. cbn [o_node id].
  eapply wp_init_node; [unfold fresh_node; rewrite overlay_lookup by done; do 2 (etrans; [by apply lookup_insert_ne|]); exact F1|exact Ec|].
  rewrite overlay_put by done. apply wp_bind. unfold init_prefix.
  eapply wp_init_node; [unfold fresh_node; rewrite overlay_lookup by done; apply lookup_insert_eq|reflexivity|]. fold ndg.
  rewrite overlay_put by done. apply wp_ret, wp_bind. eapply wp_publish; [exact G|done|]. intros v' Hst.
  apply wp_bind. eapply wp_node_mark_obsolete.
  { rewrite overlay_lookup by done. do 2 (etrans; [by apply lookup_insert_ne|]). apply lookup_insert_eq. }
  rewrite overlay_put by done. apply wp_bind. eapply wp_node_mark_obsolete.
  { rewrite overlay_lookup by done. do 4 (etrans; [by apply lookup_insert_ne|]). apply lookup_insert_eq. }
  rewrite overlay_put by done. apply wp_bind, wp_pg_drop, wp_bind, wp_bind, wp_node_ref.
  eapply wp_retire_node; [rewrite overlay_lookup by done; etrans; [by apply lookup_insert_ne|apply lookup_insert_eq]|].
  rewrite overlay_set_retired_nodes. apply wp_bind.
  eapply wp_retire_node; [rewrite overlay_lookup by done; apply lookup_insert_eq|].
  rewrite overlay_set_retired_nodes. apply wp_ret.
  match goal with |- fit_ends _ (overlay _ _ ?s0) => set (s3 := s0) end.
  change (with_word _ (with_word _ v')) with (with_word (freed pg) v').
  assert (t_retired_nodes s3 = [n; c] ++ t_retired_nodes s1) as R3 by (by destruct pg).
  assert (∃ obn, t_nodes s3 !! n = Some obn ∧ is_obsolete (o_latch obn) = true) as Nn.
  { eexists. split; [apply lookup_insert_eq|]. by apply quiet_obsolete. }
  assert (∃ obn, t_nodes s3 !! c = Some obn ∧ is_obsolete (o_latch obn) = true) as Nc.
  { eexists. split; [etrans; [by apply lookup_insert_ne|apply lookup_insert_eq]|]. by apply quiet_obsolete. }
  assert (t_nodes s3 !! g = Some {| o_latch := 0; o_node := ndg |}) as Ng.
  { do 2 (etrans; [by apply lookup_insert_ne|]). apply lookup_insert_eq. }
  assert (∀ a, a ≠ n → a ≠ c → a ≠ g → t_nodes s3 !! a = t_nodes s1 !! a) as N3.
  { intros a Ha Hca Hga. do 6 (etrans; [by apply lookup_insert_ne|]). done. }
  assert (entries_kept s1 s3 ∧ t_root s3 = t_root s1 ∧ t_root_latch s3 = t_root_latch s1) as (KK & E1 & E2) by (split; [split|]; by destruct pg).
  clearbody s3.
  eapply merge_ends; try done.
Qed.

(** *** An attempt *)

Lemma rest_room r y : rest nd Nothing = RestInner y r → (num_children nd <= 4)%nat.
Proof using. unfold rest. case_decide as D; [done|]. cbn in D. lia. Qed.

Lemma fit_prepare_spec plan ty : plan_type plan = Some ty →
  wp (fit_prepare p plan) (λ '(fresh, p1) s1, match fresh with
    | Some (Some g) => prepared s p s1 p1 B m {[g]} ∧ fresh_node s1 g (node_new ty)
    | Some None => False
    | None => s1 = s ∧ p1 = p ∧ storage_full (St := St)
    end) s.
Proof using All.
  intros E. unfold fit_prepare. rewrite E. apply wp_bind. eapply wp_mono; [by apply (prep_node_spec s B m)|].
  intros [[g|] p1] s1 H; apply wp_ret; [done|]. destruct H as (? & ? & HF). split_and!; [done..|]. by eapply storage_refuses_full.
Qed.

Lemma fit_plan_commit plan : plan_of (nodes_of s) nd = Some plan → (∀ c, child_of s n c → minimal s c) →
  wp ('(fresh, p1) ← fit_prepare p plan;
      match fresh with
      | None => mret (Break (false, p1))
      | Some fresh => fit_commit b p1 parent (NodeAt n) n (o_latch ob) plan fresh
      end) fit_ends s.
Proof using All.
  intros Hplan Hmin. pose proof Hplan as E. unfold plan_of in E.
  destruct (fit_node_ok s B m _ W n q ob Hn Hob) as (Hok & _ & Hnd).
  assert (∀ ty, plan = PlanShrink ty → (num_children nd <= capacity ty)%nat →
    wp ('(fresh, p1) ← fit_prepare p plan;
      match fresh with
      | None => mret (Break (false, p1))
      | Some fresh => fit_commit b p1 parent (NodeAt n) n (o_latch ob) plan fresh
      end) fit_ends s) as Hshrink.
  { intros ty -> Hcap. apply wp_bind. eapply wp_mono; [by apply (fit_prepare_spec _ ty)|].
    intros [[[g|]|] p1] s1; [|done|].
    - intros [HP F1]. by apply fit_copy_spec.
    - intros (-> & -> & HF). by apply wp_ret. }
  destruct (rest nd Nothing) as [|r|y r|] eqn:R.
  - exfalso. pose proof (rest_spec nd Nothing Hok I) as X. rewrite R in X. destruct X as [X1 X2].
    destruct (wf_nodes _ _ _ _ W n) as [ob' ? _ _ _ _ _ Hne| | |]; [|congruence..]. simplify_eq.
    destruct (Hne (HE n)) as [[z [c Hz]]|Hx].
    + specialize (X1 z). change (find_child nd z = None) in X1. congruence.
    + by rewrite (proj2 (has_exact_spec nd Nothing)) in X2.
  - injection E as <-. apply wp_bind, wp_ret. by apply fit_leaf_spec.
  - destruct (rest_inner s B m _ W n q ob Hn Hob y r R) as (c & obc & -> & Hc & Hobc & _ & _ & Hndc & _ & Hf).
    rewrite Hndc in E. cbn in E. case_decide as D.
    + injection E as <-. apply wp_bind. eapply wp_mono; [by eapply fit_prepare_spec|].
      intros [[[g|]|] p1] s1; [|done|].
      * intros [HP F1]. apply fit_merge_spec; try done. apply Hmin. exists nd, y. split; [done|]. by rewrite Hf, decide_True.
      * intros (-> & -> & HF). by apply wp_ret.
    + destruct (type_ltb _ _); [|done]. injection E as <-. apply (Hshrink Node4); [done|]. by eapply rest_room.
  - destruct (type_ltb _ _); [|done]. injection E as <-. eapply Hshrink; [done|]. apply fitting_room.
    rewrite (proj1 (num_children_spec _ Hok)). apply child_count_le.
Qed.
End fit.

Section fits.
Context {L St : Type} {LN : LeafNode L} {LL : LeafLaws L} {LY : Layout St} {EX : Exempt}.
Implicit Types (s : RawTree L St) (m : gmap path loc) (B : gmap loc path) (p : Prepared).

(** At rest one fit changes its node or finds it minimal, or the storage is
    full; it never gives up. *)
Lemma fit_spec s m B p n q parent : wf s B m (pool p) → pool_ok p → (∀ a : loc, a ∉ exempt) →
  B !! n = Some q → frame_parent s B n q parent → (∀ c, child_of s n c → minimal s c) →
  wp (fit parent (NodeAt n) p) (fit_ok s m B n q) s.
Proof.
  intros W Hp HE Hn PO Hmin. destruct (prep_reset_ok p Hp) as (P1 & P2 & P3). rewrite <- P2 in W.
  destruct (wf_linked _ _ _ _ _ _ W Hn) as (ob & Hob & Hok & Hq).
  unfold fit. apply wp_bind, wp_node_ref, wp_bind. unfold ATTEMPTS. cbn [attempts]. apply wp_bind.
  eapply (wp_mono _ (fit_ends s m B n q)).
  2: { intros [st|res] s' H; [done|]. apply wp_ret, wp_ret. exact H. }
  unfold fit_attempt. apply wp_bind. eapply wp_read_version; [done..|].
  apply wp_bind. eapply (fit_plan_spec s B m _ W n q ob Hn Hob). apply wp_bind. eapply wp_validate; [done..|]. wp_simpl.
  destruct (plan_of (nodes_of s) (o_node ob)) as [plan|] eqn:E.
  - by eapply fit_plan_commit.
  - apply wp_ret. split_and!; [done|by split|]. exists B. split; [done|]. right. split_and!; [done..|].
    exists (o_node ob). split; [|done]. apply nodes_of_Some. eauto.
Qed.

(** ** The walk *)

(** The frames, top first: no node twice, every node linked in its parent's
    slot, and all nodes above a frame's node further down, expanded. *)
Inductive stack_inv s B : list Frame → Prop :=
| stack_nil : stack_inv s B []
| stack_cons f st n q : f_node f = NodeAt n → B !! n = Some q → frame_parent s B n q (f_parent f) →
    (∀ g, g ∈ st → f_node g ≠ NodeAt n) →
    (∀ a pa, B !! a = Some pa → pa `prefix_of` q → pa ≠ q →
       ∃ g, g ∈ st ∧ f_expanded g = true ∧ f_node g = NodeAt a) →
    stack_inv s B st → stack_inv s B (f :: st).

(** What is not minimal is on the stack, or below an unexpanded frame. *)
Definition unfit_inv s B (st : list Frame) : Prop := ∀ a pa, B !! a = Some pa →
  minimal s a ∨ (∃ g, g ∈ st ∧ f_node g = NodeAt a) ∨
  ∃ g n q, g ∈ st ∧ f_expanded g = false ∧ f_node g = NodeAt n ∧ B !! n = Some q ∧ q `prefix_of` pa.

Definition frame_cost B (f : Frame) : nat :=
  if f_expanded f then 1
  else match f_node f with NodeAt n => 2 * psize B (default [] (B !! n)) | _ => 0 end.
Definition stack_cost B (st : list Frame) : nat := sum_list_with (frame_cost B) st.

Lemma stack_linked s B st g : stack_inv s B st → g ∈ st → ∃ n q, f_node g = NodeAt n ∧ B !! n = Some q.
Proof.
  induction 1 as [|f st n q Hf Hn _ _ _ _ IH]; [by intros ?%elem_of_nil|].
  intros [->|?]%elem_of_cons; [by exists n, q|by apply IH].
Qed.

Lemma stack_unique s B st g g' n : stack_inv s B st → g ∈ st → g' ∈ st →
  f_node g = NodeAt n → f_node g' = NodeAt n → g = g'.
Proof.
  induction 1 as [|f st n0 q Hf Hn _ Hd _ _ IH]; [by intros ?%elem_of_nil|].
  intros [->|Hg]%elem_of_cons [->|Hg']%elem_of_cons E E'; [done| | |by apply IH].
  - destruct (Hd g'); [done|congruence].
  - destruct (Hd g); [done|congruence].
Qed.

(** A node above one of the stack is on the stack. *)
Lemma stack_above s B st g a n q pa : stack_inv s B st → g ∈ st → f_node g = NodeAt n → B !! n = Some q →
  B !! a = Some pa → pa `prefix_of` q → pa ≠ q → ∃ g', g' ∈ st ∧ f_expanded g' = true ∧ f_node g' = NodeAt a.
Proof.
  induction 1 as [|f st n0 q0 Hf Hn _ _ Ha _ IH]; [by intros ?%elem_of_nil|].
  intros [->|Hg]%elem_of_cons E Hq Hpa Hp Hne.
  - rewrite Hf in E. simplify_eq. destruct (Ha a pa) as (g' & ? & ? & ?); [done..|]. exists g'. set_solver.
  - destruct IH as (g' & ? & ? & ?); [done..|]. exists g'. set_solver.
Qed.

Lemma child_path s B m P n q a : wf s B m P → B !! n = Some q → child_of s n a →
  ∃ nd b, nodes_of s !! n = Some nd ∧ find_child nd b = Some (NodeAt a) ∧ B !! a = Some (q ++ pfx nd ++ [b]).
Proof.
  intros W Hn (nd & b & Hnd & Hb). exists nd, b. split_and!; [done..|].
  pose proof (edge_child (t_root s) _ B n q nd b _ Hn Hnd Hb) as Ed.
  by destruct (eo_node _ _ _ _ (wf_edges _ _ _ _ W) _ _ _ Ed).
Qed.

Lemma wf_node_ok s B m P a pa nd : wf s B m P → B !! a = Some pa → nodes_of s !! a = Some nd → node_ok nd.
Proof.
  intros W Ha (ob & Hob & ->)%nodes_of_Some. destruct (wf_linked _ _ _ _ _ _ W Ha) as (ob' & ? & ? & _). congruence.
Qed.

(** A child of a node that is not on the stack is not on it either. *)
Lemma stack_no_child s B m P st n q g a : wf s B m P → stack_inv s B st → B !! n = Some q →
  (∀ g, g ∈ st → f_node g ≠ NodeAt n) → child_of s n a → g ∈ st → f_node g ≠ NodeAt a.
Proof.
  intros W HS Hn Hno Hc Hg E. destruct (child_path _ _ _ _ _ _ _ W Hn Hc) as (nd & b & Hnd & Hb & Ha).
  destruct (stack_above s B st g n a _ q HS Hg E Ha Hn) as (g' & Hg' & _ & E'); [by eexists| |by apply (Hno g')].
  intros X%(f_equal length). rewrite !length_app in X. cbn in X. lia.
Qed.

(** *** A fit of the top frame *)

Section step.
Context s m B p s' B' (P' : gset loc) (n : loc) (q : path) (st : list Frame).
Context (W : wf s B m (pool p)) (W' : wf s' B' m P') (Hn : B !! n = Some q) (HR : refit s B s' B' n q).
Context (HS : stack_inv s B st) (Hno : ∀ g, g ∈ st → f_node g ≠ NodeAt n).

(** The nodes of the other frames are still linked. *)
Lemma refit_on_stack g a pa : g ∈ st → f_node g = NodeAt a → B !! a = Some pa → B' !! a = Some pa ∧ a ≠ n.
Proof using All.
  intros Hg E Ha. assert (a ≠ n) as Hne by (intros ->; by apply (Hno g)). split; [|done].
  apply (rf_keep _ _ _ _ _ _ HR); [done..|]. intros Hc. by eapply (stack_no_child s B m (pool p) st n q g a).
Qed.

Lemma refit_parent g a pa st2 : g ∈ st → f_node g = NodeAt a → B !! a = Some pa → st2 ⊆ st →
  (∀ c pc, B !! c = Some pc → pc `prefix_of` pa → pc ≠ pa → ∃ g, g ∈ st2 ∧ f_expanded g = true ∧ f_node g = NodeAt c) →
  frame_parent s B a pa (f_parent g) → frame_parent s' B' a pa (f_parent g).
Proof using All.
  intros Hg E Ha Hsub Habove F. destruct (refit_on_stack g a pa Hg E Ha) as [_ Hne]. destruct F as [par v PO].
  destruct PO as [R ->|c qc ob b Hc Hob Hq Hok Hb ->].
  - apply (frame_parent_intro s' B' a [] ParentRoot v). constructor; [|done].
    rewrite (rf_root _ _ _ _ _ _ HR); [done|congruence].
  - destruct (Habove c qc Hc) as (g' & Hg' & _ & E'); [by eexists| |].
    { intros X%(f_equal length). rewrite !length_app in X. cbn in X. lia. }
    destruct (refit_on_stack g' c qc (Hsub _ Hg') E' Hc) as [Hc' _].
    destruct (rf_node _ _ _ _ _ _ HR c (o_node ob)) as (nd' & Hnd' & Epf & Ech & _);
      [by eexists..|by apply nodes_of_Some; eauto|].
    apply nodes_of_Some in Hnd' as (ob' & Hob' & ->).
    destruct (wf_linked _ _ _ _ _ _ W' Hc') as (ob2 & ? & ? & ?). simplify_eq.
    apply (frame_parent_intro s' B' a _ (ParentNode (NodeAt c) (o_latch ob') b) v).
    rewrite <- Epf. econstructor; try done. rewrite Ech; [done|]. congruence.
Qed.

Lemma refit_stack : stack_inv s' B' st.
Proof using All.
  assert (∀ st2, st2 ⊆ st → stack_inv s B st2 → stack_inv s' B' st2) as X; [|by apply X].
  induction 2 as [|f st2 a pa Hf Ha Hp Hd Habove HS2 IH]; [constructor|].
  assert (f ∈ st) as Hfst by set_solver. assert (st2 ⊆ st) as Hsub by set_solver.
  destruct (refit_on_stack f a pa Hfst Hf Ha) as [Ha' Hne].
  econstructor; [done|done| |done| |by apply IH].
  - eapply refit_parent; [done..|]. exact Hp.
  - intros c pc Hc Hpre Hnec. destruct (rf_back _ _ _ _ _ _ HR c pc Hc) as [Hc0|[-> _]]; [by eapply Habove|].
    destruct (Habove n q Hn Hpre Hnec) as (g & Hg & _ & E). by destruct (Hno g (Hsub _ Hg)).
Qed.

Lemma refit_cost : (stack_cost B' st <= stack_cost B st)%nat.
Proof using All.
  assert (∀ st2, st2 ⊆ st → (stack_cost B' st2 <= stack_cost B st2)%nat) as X; [|by apply X].
  induction st2 as [|f st2 IH]; intros Hsub; cbn; [lia|]. apply Nat.add_le_mono; [|apply IH; set_solver].
  unfold frame_cost. destruct (f_expanded f); [lia|].
  destruct (stack_linked s B st f HS) as (a & pa & E & Ha); [set_solver|].
  destruct (refit_on_stack f a pa) as [Ha' _]; [set_solver|done..|]. rewrite E, Ha, Ha'. cbn.
  pose proof (rf_size _ _ _ _ _ _ HR pa). lia.
Qed.

Lemma refit_unfit f : f_node f = NodeAt n → f_expanded f = true →
  (∀ a pa, B !! a = Some pa → pa `prefix_of` q → pa ≠ q → ∃ g, g ∈ st ∧ f_expanded g = true ∧ f_node g = NodeAt a) →
  unfit_inv s B (f :: st) → unfit_inv s' B' st.
Proof using All.
  intros Hf He Habove HU a pa Ha'.
  destruct (rf_back _ _ _ _ _ _ HR a pa Ha') as [Ha|[_ Hmin]]; [|by left].
  assert (a ≠ n) as Hne by (intros ->; rewrite (rf_gone _ _ _ _ _ _ HR) in Ha'; done).
  destruct (HU a pa Ha) as [Hmin|[(g & [->|Hg]%elem_of_cons & E)|(g & c & qc & [->|Hg]%elem_of_cons & Hexp & E & Hc & Hpre)]].
  - (* [a] above the fitted node is on the stack; others do not change *)
    destruct (wf_linked _ _ _ _ _ _ W Ha) as (oba & Hoba & Hoka & _).
    assert (nodes_of s !! a = Some (o_node oba)) as Hnd by (apply nodes_of_Some; eauto).
    destruct (rf_node _ _ _ _ _ _ HR a (o_node oba)) as (nd' & Hnd' & _ & _ & Esame); [by eexists..|done|].
    destruct (child_of_dec s a n) as [Hc|Hc].
    + destruct (child_path _ _ _ _ _ _ _ W Ha Hc) as (nd & b & _ & _ & Hn'). right. left.
      assert (q = pa ++ pfx nd ++ [b]) as -> by congruence. destruct (Habove a pa Ha) as (g & ? & _ & ?); [by eexists| |by exists g].
      intros X%(f_equal length). rewrite !length_app in X. cbn in X. lia.
    + left. eapply (minimal_keep s s' B m _ a pa W Ha Hmin).
      { rewrite Hnd', Hnd, Esame; [done|]. intros y Hy. apply Hc. by exists (o_node oba), y. }
      intros nd b c ndc Hnd2 Hb Hndc. assert (nd = o_node oba) as -> by congruence.
      assert (child_of s a c) as Hac by by exists (o_node oba), b.
      destruct (child_path _ _ _ _ _ _ _ W Ha Hac) as (nd & z & Hnda & Hz & Hcp).
      assert (B' !! c = Some (pa ++ pfx nd ++ [z])) as Hc'.
      { apply (rf_keep _ _ _ _ _ _ HR); [done|by intros ->|]. intros Hnc.
        destruct (child_path _ _ _ _ _ _ _ W Hn Hnc) as (ndn & y & Hndn & _ & Hcp').
        eapply (slot_not_elsewhere _ _ _ _ a pa nd n q ndn _ false (wf_edges _ _ _ _ W) (not_eq_sym Hne) Ha Hnda Hn Hndn).
        - exists z. by rewrite <- (assoc_L (++)).
        - exists y. rewrite <- (assoc_L (++)). congruence. }
      destruct (rf_node _ _ _ _ _ _ HR c ndc) as (ndc' & Hndc' & Epf & _); [by eexists..|done|].
      exists ndc'. split; [done|].
      eapply prefix_len_pfx; [eapply (wf_node_ok s')|eapply (wf_node_ok s)|done]; done.
  - congruence.
  - right. left. eauto.
  - congruence.
  - right. right. exists g, c, qc. destruct (refit_on_stack g c qc Hg E Hc) as [? _]. by split_and!.
Qed.
End step.

(** When the top frame is fitted, the children of its node are minimal. *)
Lemma children_minimal s m B P f st n q : wf s B m P → stack_inv s B (f :: st) → unfit_inv s B (f :: st) →
  f_node f = NodeAt n → B !! n = Some q → f_expanded f = true → ∀ c, child_of s n c → minimal s c.
Proof.
  intros W HS HU Hf Hn Hexp c Hc. destruct (child_path _ _ _ _ _ _ _ W Hn Hc) as (nd & b & Hnd & Hb & Hcp).
  inversion HS as [|? ? n' q' Hf' Hn' Hp Hd Habove HS2]; subst. assert (n' = n) as -> by congruence. simplify_eq.
  assert (∀ g, g ∈ st → f_node g ≠ NodeAt c) as Hnc by (intros g Hg; exact (stack_no_child s B m P st n q g c W HS2 Hn Hd Hc Hg)).
  destruct (HU c _ Hcp) as [?|[(g & [->|Hg]%elem_of_cons & E)|(g & a & qa & [->|Hg]%elem_of_cons & He & E & Ha & Hpre)]]; [done|exfalso..].
  - rewrite Hf in E. simplify_eq.
    assert (q = q ++ pfx nd ++ [b]) as X by congruence. apply (f_equal length) in X. rewrite !length_app in X. cbn in X. lia.
  - by destruct (Hnc g Hg).
  - congruence.
  - assert (q `prefix_of` q ++ pfx nd ++ [b]) as Hpq by by eexists.
    pose proof (wf_edges _ _ _ _ W) as EO.
    destruct (lt_eq_lt_dec (length qa) (length q)) as [[Hlt|Heq]|Hlt].
    + destruct (Habove a qa Ha) as (g' & Hg' & He' & E').
      * destruct (prefix_weak_total qa q _ Hpre Hpq) as [|Hx]; [done|]. apply prefix_length in Hx. lia.
      * intros ->. lia.
      * assert (g = g') as <- by by eapply stack_unique. congruence.
    + assert (qa = q) as -> by by eapply prefix_same_length.
      assert (a = n) as -> by by eapply (paths_determine_nodes _ _ _ _ EO). by destruct (Hd g Hg).
    + destruct (nodes_on_chain _ _ _ _ EO _ n a q qa Hn Ha Hpq Hpre) as [_ Hnext].
      destruct (Hnext Hlt) as (p0 & d0 & b0 & c0 & X1 & X2 & X3 & X4). simplify_eq.
      assert (b0 = b) as ->.
      { assert (q ++ pfx nd ++ [b0] `prefix_of` q ++ pfx nd ++ [b]) as X by by etrans.
        rewrite !(assoc_L (++)) in X. eapply prefix_branch; [exact X|done]. }
      assert (c0 = c) as -> by congruence. assert (qa = q ++ pfx nd ++ [b]) as ->.
      { apply prefix_length_eq; [done|]. by apply prefix_length. }
      assert (a = c) as -> by by eapply (paths_determine_nodes _ _ _ _ EO). by destruct (Hnc g Hg).
Qed.

(** *** Expanding the top frame *)

(** The frames of the inner children. *)
Definition child_frames (r : raw) (v : Z) (cs : list (byte * raw)) : list Frame :=
  map (λ '(byte, c), {| f_parent := ParentNode r v byte; f_node := c; f_expanded := false |}) cs.

Lemma elem_of_child_frames r v cs g : g ∈ child_frames r v cs ↔
  ∃ b c, (b, c) ∈ cs ∧ g = {| f_parent := ParentNode r v b; f_node := c; f_expanded := false |}.
Proof.
  unfold child_frames. rewrite list_elem_of_fmap. split.
  - intros ([b c] & -> & H). by exists b, c.
  - intros (b & c & H & ->). by exists (b, c).
Qed.

Lemma inner_children_spec s m B P n q ob (Q : option (Z * list (byte * raw)) → RawTree L St → Prop) :
  wf s B m P → B !! n = Some q → t_nodes s !! n = Some ob →
  Q (Some (o_latch ob, filter (λ e : byte * raw, is_leaf e.2 = false) (for_each_child (o_node ob)))) s →
  wp (inner_children n) Q s.
Proof.
  intros W Hn Hob HQ. destruct (fit_node_ok s B m P W n q ob Hn Hob) as (_ & Hq & _).
  unfold inner_children. apply wp_bind. unfold ATTEMPTS. cbn [attempts]. apply wp_bind, wp_bind.
  eapply wp_read_version; [done..|]. apply wp_bind. eapply wp_node_read; [done|]. apply wp_bind.
  eapply wp_validate; [done..|]. by apply wp_ret, wp_ret, wp_ret.
Qed.

Section expand.
Context s m B (P : gset loc) (f : Frame) (st : list Frame) (n : loc) (q : path) (ob : NodeObj).
Context (W : wf s B m P) (HS : stack_inv s B (f :: st)) (HU : unfit_inv s B (f :: st)).
Context (Hf : f_node f = NodeAt n) (Hexp : f_expanded f = false) (Hn : B !! n = Some q) (Hob : t_nodes s !! n = Some ob).
Abbreviation nd := (o_node ob).
Abbreviation above := ({| f_parent := f_parent f; f_node := f_node f; f_expanded := true |} :: st).
Abbreviation inner := (filter (λ e : byte * raw, is_leaf e.2 = false) (for_each_child nd)).

Lemma inner_child b r : (b, r) ∈ inner ↔ ∃ c, r = NodeAt c ∧ find_child nd b = Some (NodeAt c).
Proof using All.
  destruct (fit_node_ok s B m P W n q ob Hn Hob) as (Hok & _ & _).
  rewrite list_elem_of_filter, for_each_child_list, elem_of_children_list by done. cbn [snd]. split.
  - intros [Hl Hb]. destruct r as [|l|c]; [|done|by exists c]. by apply (find_child_not_null (R := raw)) in Hb.
  - by intros (c & -> & Hb).
Qed.

Lemma inner_path b c : find_child nd b = Some (NodeAt c) → B !! c = Some (q ++ pfx nd ++ [b]).
Proof using All.
  intros Hb. destruct (fit_node_ok s B m P W n q ob Hn Hob) as (_ & _ & Hnd).
  destruct (child_path s B m P n q c W Hn) as (nd' & b' & Hnd' & Hb' & Hc); [by exists nd, b|].
  pose proof (edge_child (t_root s) _ B n q nd b _ Hn Hnd Hb) as E1.
  by destruct (eo_node _ _ _ _ (wf_edges _ _ _ _ W) _ _ _ E1).
Qed.

Lemma inner_NoDup : NoDup inner.*1.
Proof using All.
  destruct (fit_node_ok s B m P W n q ob Hn Hob) as (Hok & _ & _).
  assert (es_sorted (for_each_child nd)) as Hs by (rewrite for_each_child_list by done; apply children_list_sorted).
  induction Hs as [|[b r] es _ IH Hb]; [constructor|]. rewrite filter_cons. case_decide; [|done].
  cbn. apply NoDup_cons. split; [|done]. intros ([b' r'] & -> & [_ Hin]%list_elem_of_filter)%list_elem_of_fmap.
  rewrite Forall_forall in Hb. apply Hb in Hin. cbn in Hin. lia.
Qed.

Lemma expand_inv : stack_inv s B (child_frames (f_node f) (o_latch ob) inner ++ above).
Proof using All.
  destruct (fit_node_ok s B m P W n q ob Hn Hob) as (Hok & Hq & Hnd).
  inversion HS as [|? ? n' q' Hf' Hn' Hp Hd Habove HS2]; subst. assert (n' = n) as -> by congruence. simplify_eq.
  assert (stack_inv s B above) as HA by (econstructor; done).
  assert (∀ cs, (∀ e, e ∈ cs → e ∈ inner) → NoDup cs.*1 → stack_inv s B (child_frames (f_node f) (o_latch ob) cs ++ above)) as X.
  { induction cs as [|[b r] cs IH]; intros Hsub Hdup; [done|]. apply NoDup_cons in Hdup as [Hb Hdup].
    assert ((b, r) ∈ inner) as Hin by (apply Hsub; by left).
    apply inner_child in Hin as (c & -> & Hc). pose proof (inner_path b c Hc) as Hcp.
    cbn [child_frames map app]. econstructor; cbn [f_node f_parent]; [done|exact Hcp| | | |].
    - rewrite Hf. apply (frame_parent_intro s B c _ (ParentNode (NodeAt n) (o_latch ob) b) (o_latch ob)). by econstructor.
    - intros g [(b2 & r2 & Hin & ->)%elem_of_child_frames|[->|Hg]%elem_of_cons]%elem_of_app E; cbn in E.
      + subst r2. assert ((b2, NodeAt c) ∈ inner) as Hin2 by (apply Hsub; by right).
        apply inner_child in Hin2 as (? & [= <-] & Hc2). pose proof (inner_path b2 c Hc2) as Hcp2.
        rewrite Hcp in Hcp2. injection Hcp2 as E2. apply app_inv_head, app_inj_tail in E2 as [_ <-].
        apply Hb. apply list_elem_of_fmap. by exists (b, NodeAt c).
      + rewrite Hf in E. injection E as <-. rewrite Hn in Hcp. injection Hcp as E2. apply (f_equal length) in E2.
        rewrite !length_app in E2. cbn in E2. lia.
      + by apply (stack_no_child s B m P st n q g c W HS2 Hn Hd (ex_intro _ nd (ex_intro _ b (conj Hnd Hc))) Hg).
    - intros a pa Ha Hpre Hne. assert (q `prefix_of` q ++ pfx nd ++ [b]) as Hpq by by eexists.
      pose proof (wf_edges _ _ _ _ W) as EO.
      destruct (lt_eq_lt_dec (length pa) (length q)) as [[Hlt|Heq]|Hlt].
      + destruct (Habove a pa Ha) as (g & Hg & ? & ?).
        * destruct (prefix_weak_total pa q _ Hpre Hpq) as [|Hx]; [done|]. apply prefix_length in Hx. lia.
        * intros ->. lia.
        * exists g. rewrite elem_of_app, elem_of_cons. auto.
      + assert (pa = q) as -> by by eapply prefix_same_length.
        assert (a = n) as -> by by eapply (paths_determine_nodes _ _ _ _ EO).
        eexists. rewrite elem_of_app. split; [right; by left|done].
      + destruct (nodes_on_chain _ _ _ _ EO _ n a q pa Hn Ha Hpq Hpre) as [_ Hnext].
        destruct (Hnext Hlt) as (p0 & d0 & b0 & c0 & X1 & X2 & X3 & X4). simplify_eq. destruct Hne.
        apply prefix_length_eq; [done|]. apply prefix_length in X4. rewrite !length_app in *. done.
    - apply IH; [|done]. intros e He. apply Hsub. by right. }
  apply X; [done|apply inner_NoDup].
Qed.

Lemma expand_unfit : unfit_inv s B (child_frames (f_node f) (o_latch ob) inner ++ above).
Proof using All.
  destruct (fit_node_ok s B m P W n q ob Hn Hob) as (Hok & Hq & Hnd). pose proof (wf_edges _ _ _ _ W) as EO.
  intros a pa Ha. destruct (HU a pa Ha) as [?|[(g & [->|Hg]%elem_of_cons & E)|(g & c & qc & [->|Hg]%elem_of_cons & He & E & Hc & Hpre)]].
  - by left.
  - right. left. eexists. rewrite elem_of_app, elem_of_cons. split; [right; by left|done].
  - right. left. exists g. rewrite elem_of_app, elem_of_cons. auto.
  - rewrite Hf in E. assert (c = n) as -> by congruence. assert (qc = q) as -> by congruence.
    destruct (decide (pa = q)) as [->|Hne].
    + assert (a = n) as -> by by eapply (paths_determine_nodes _ _ _ _ EO).
      right. left. eexists. rewrite elem_of_app, elem_of_cons. split; [right; by left|done].
    + assert (length q < length pa)%nat as Hlt.
      { pose proof (prefix_length _ _ Hpre). destruct (decide (length pa = length q)); [|lia].
        destruct Hne. symmetry. apply prefix_length_eq; [done|lia]. }
      destruct (nodes_on_chain _ _ _ _ EO pa n a q pa Hn Ha Hpre ltac:(done)) as [_ Hnext].
      destruct (Hnext Hlt) as (p0 & d0 & b & c' & X1 & X2 & X3 & X4). assert (d0 = nd) as -> by congruence.
      assert (p0 = q) as -> by congruence.
      right. right. exists {| f_parent := ParentNode (f_node f) (o_latch ob) b; f_node := NodeAt c'; f_expanded := false |}, c', (q ++ pfx nd ++ [b]).
      split_and!; [|done|done|by apply (inner_path b c')|done].
      apply elem_of_app. left. apply elem_of_child_frames. exists b, (NodeAt c'). split; [|done]. apply inner_child. eauto.
  - right. right. exists g, c, qc. rewrite elem_of_app, elem_of_cons. split_and!; auto.
Qed.

Lemma expand_cost : (stack_cost B (child_frames (f_node f) (o_latch ob) inner ++ above) < stack_cost B (f :: st))%nat.
Proof using All.
  assert (stack_cost B (child_frames (f_node f) (o_latch ob) inner) =
    2 * sum_list_with (λ b, psize B ((q ++ pfx nd) ++ [b])) inner.*1)%nat as E.
  { assert (∀ e, e ∈ inner → e ∈ inner) as Hin by done. revert Hin. generalize inner at 1 3 4.
    intros cs. induction cs as [|[b r] cs IH]; intros Hin; [done|]. cbn. unfold stack_cost, child_frames in IH. rewrite IH by set_solver.
    destruct (proj1 (inner_child b r)) as (c & -> & Hc); [apply Hin; by left|].
    unfold frame_cost. cbn. rewrite (inner_path b c Hc). cbn. rewrite <- (assoc_L (++)). lia. }
  pose proof (psize_children B n q (q ++ pfx nd) inner.*1 Hn ltac:(by eexists) inner_NoDup) as HP.
  assert (frame_cost B f = 2 * psize B q)%nat as Ef by (unfold frame_cost; by rewrite Hexp, Hf, Hn).
  unfold stack_cost in *. rewrite sum_list_with_app, E. cbn [sum_list_with]. rewrite Ef.
  change (frame_cost B {| f_parent := f_parent f; f_node := f_node f; f_expanded := true |}) with 1%nat. lia.
Qed.
End expand.

(** *** One turn, and the walk *)

(** Between two turns, with the stack's cost as the measure. *)
Definition walk_inv s0 m (k : nat) (st : list Frame * Prepared) s : Prop :=
  ∃ B, wf s B m (pool st.2) ∧ pool_ok st.2 ∧ entries_kept s0 s ∧
    stack_inv s B st.1 ∧ unfit_inv s B st.1 ∧ k = stack_cost B st.1.

Definition walk_end s0 m (p : Prepared) s : Prop :=
  ∃ B, wf s B m (pool p) ∧ pool_ok p ∧ entries_kept s0 s ∧
    (¬ storage_full (St := St) → ∀ a, is_Some (B !! a) → minimal s a).

Lemma shrink_turn_spec s0 m k st s : (∀ a : loc, a ∉ exempt) → walk_inv s0 m k st s →
  wp (shrink_turn st) (λ r s', match r with
    | Continue st' => ∃ k', (k' < k)%nat ∧ walk_inv s0 m k' st' s'
    | Break p => walk_end s0 m p s' end) s.
Proof.
  intros HE (B & W & Hp & HK & HS & HU & ->). destruct st as [stack p]. cbn [fst snd] in *.
  destruct stack as [|f stack]; cbn [shrink_turn].
  - apply wp_ret. exists B. split_and!; [done..|]. intros _ a [pa Ha].
    destruct (HU a pa Ha) as [?|[(g & []%elem_of_nil & _)|(g & ? & ? & []%elem_of_nil & _)]]; done.
  - inversion HS as [|? ? n q Hf Hn PO Hd Habove HS2]; subst.
    destruct (f_expanded f) eqn:Hexp.
    + rewrite Hf. apply wp_bind. eapply wp_mono.
      { apply (fit_spec s m B p n q (f_parent f) W Hp HE Hn PO). by eapply children_minimal. }
      intros [ok p'] s' (Hp' & HK' & HR). assert (entries_kept s0 s') as HK2 by by eapply entries_kept_trans. destruct ok.
      * destruct HR as (B' & W' & HR). apply wp_ret.
        assert (stack_cost B (f :: stack) = S (stack_cost B stack)) as Ec by (cbn; unfold frame_cost at 1; by rewrite Hexp).
        exists (stack_cost B' stack). destruct HR as [HR|(-> & -> & Hmin)].
        -- split; [rewrite Ec; eapply Nat.lt_succ_r, (refit_cost s m B p s' B' (pool p') n q); done|].
           exists B'. split_and!; [done..| | |done].
           ++ by eapply (refit_stack s m B p s' B' (pool p') n q).
           ++ by eapply (refit_unfit s m B p s' B' (pool p') n q).
        -- split; [lia|]. exists B. split_and!; [done..| |done]. intros a pa Ha.
           destruct (HU a pa Ha) as [?|[(g & [->|Hg]%elem_of_cons & E)|(g & c & qc & [->|Hg]%elem_of_cons & X & Y)]].
           ++ by left.
           ++ left. rewrite Hf in E. by injection E as <-.
           ++ right. left. eauto.
           ++ congruence.
           ++ right. right. exists g, c, qc. auto.
      * apply wp_ret. destruct HR as [HF W']. exists B. by split_and!.
    + destruct (wf_linked _ _ _ _ _ _ W Hn) as (ob & Hob & _). rewrite Hf.
      apply wp_bind, wp_node_ref, wp_bind. eapply inner_children_spec; [done..|]. apply wp_ret.
      pose proof (expand_cost s m B _ f stack n q ob W HS HU Hf Hexp Hn Hob) as Hc.
      pose proof (expand_inv s m B _ f stack n q ob W HS HU Hf Hexp Hn Hob) as Hi.
      pose proof (expand_unfit s m B _ f stack n q ob W HS HU Hf Hexp Hn Hob) as Hu.
      rewrite Hf in Hc, Hi, Hu. eexists. split; [exact Hc|]. exists B. by split_and!.
Qed.

(** [shrink_to_fit] keeps the entries and, when the storage does not run out,
    leaves no node that could be smaller. *)
Lemma shrink_spec fuel s m B : (∀ a : loc, a ∉ exempt) → wf s B m ∅ → (2 * size (t_nodes s) < fuel)%nat →
  wp (shrink_to_fit fuel) (λ _ s', ∃ B', wf s' B' m ∅ ∧ entries_kept s s' ∧
    (¬ storage_full (St := St) → ∀ a, is_Some (B' !! a) → minimal s' a)) s.
Proof.
  intros HE W Hfuel. unfold shrink_to_fit. apply wp_bind, wp_root.
  destruct (t_root s) as [|l|n] eqn:R.
  1,2: apply wp_ret; exists B; split_and!; [done..|]; intros _ a [pa Ha].
  1,2: destruct (root_is_node _ _ _ _ (wf_edges _ _ _ _ W) _ _ Ha); congruence.
  apply wp_bind. eapply wp_mono.
  { eapply (wp_loop_measure (walk_inv s m)).
    - intros k st s1 HI. by apply shrink_turn_spec.
    - destruct (root_on_path s B m ∅ [] n W R) as [[ob O] PO]. pose proof (op_base _ _ _ _ _ _ O) as Hn.
      destruct prep_new_empty as (N1 & N2 & _). exists B. cbn [fst snd]. rewrite N2. split_and!; [done..| | |done].
      + econstructor; [done|exact Hn|by apply (frame_parent_intro s B n [] ParentRoot 0)| | |constructor].
        * by intros g ?%elem_of_nil.
        * intros a pa _ ->%prefix_nil_inv Hne. done.
      + intros a pa Ha. right. right. eexists _, n, []. split_and!; [by apply list_elem_of_singleton|done..|apply prefix_nil].
    - cbn. unfold frame_cost. cbn. destruct (root_on_path s B m ∅ [] n W R) as [[ob O] _].
      rewrite (op_base _ _ _ _ _ _ O). cbn. eapply Nat.le_lt_trans; [|exact Hfuel].
      assert (psize B [] <= size (t_nodes s))%nat; [|lia]. unfold psize, below.
      rewrite <- !(size_dom (D := gset loc)). apply subseteq_size. intros a [pa Ha]%elem_of_dom.
      apply map_lookup_filter_Some in Ha as [Ha _].
      destruct (wf_linked _ _ _ _ _ _ W Ha) as (oba & ? & _). by apply elem_of_dom. }
  intros p s1 (B1 & W1 & Hp & HK & Hmin). eapply wp_mono; [by eapply prep_release_spec|].
  intros _ s2 (W2 & ST & _). exists B1. split_and!; [done| |].
  - destruct HK, ST. split; congruence.
  - intros HF a [pa Ha]. specialize (Hmin HF a (mk_is_Some _ _ Ha)).
    assert (∀ c, is_Some (B1 !! c) → nodes_of s2 !! c = nodes_of s1 !! c) as Hsame.
    { intros c [pc Hc]. unfold nodes_of. rewrite !lookup_fmap, (sm_nodes _ _ _ ST); [done|].
      intros Hpool. destruct (wf_pool_node _ _ _ _ _ W1 Hpool) as [? _]. congruence. }
    eapply (minimal_keep s1 s2 B1 m _ a pa W1 Ha Hmin); [apply Hsame; eauto|].
    intros nd b c ndc Hnd Hb Hndc. exists ndc. split; [|done]. rewrite Hsame; [done|].
    pose proof (child_path s1 B1 m _ a pa c W1 Ha (ex_intro _ nd (ex_intro _ b (conj Hnd Hb)))) as (? & ? & _ & _ & Hc). eauto.
Qed.
End fits.
