(* ===== verification/Walk.v ===== *)
(** * Whole-tree walks ([src/raw/walk.rs])

    [destroy] frees a tree, [clear_counting] detaches and retires it,
    [validate_counting] checks its structure. Each walk has an explicit
    worklist, with its most recent entry first. *)

From S2P Require Import Prelude Bytes Latch Slot Bits Node Free Mem Raw Read.
Local Open Scope Z_scope.

Section walk.
Context {L : Type} `{LeafNode L}.
Abbreviation prog := (prog L).

(** ** Drop *)

Definition destroy_turn (work : list raw) : prog (flow (list raw) unit) :=
  match work with
  | [] => mret (Break tt)
  | r :: work =>
    match r with
    | Null => mret (Continue work)
    | LeafAt l => _ ← trigger (FreeLeaf l); mret (Continue work)
    | NodeAt n =>
      exact ← trigger (NodeRead n exact_leaf);
      children ← trigger (NodeRead n for_each_child);
      _ ← trigger (FreeNode n);
      mret (Continue (rev (map snd children) ++ exact :: work))
    end
  end.

(** The root is swapped by its only user. *)
Definition destroy (fuel : nat) : prog unit :=
  root ← trigger (RootSwap NULL);
  loop fuel destroy_turn [root].

(** ** Clear *)

Section clear.
Context (count : loc → prog Z).

(** The counts of the detached leaves of one node, each marked removed. *)
Fixpoint clear_leaves (leaves : list raw) (total : Z) : prog Z :=
  match leaves with
  | [] => mret total
  | l :: leaves =>
    leaf ← leaf_ref l;
    c ← count leaf;
    _ ← leaf_mark_removed leaf;
    clear_leaves leaves (total + c)
  end.

Definition clear_node (n : loc) (work : list raw) (total : Z) : prog (flow (list raw * Z) Z) :=
  w ← node_lock n;
  match w with
  | None => _ ← debug_assert false; mret (Continue (work, total))
  | Some w =>
    exact ← trigger (NodeRead n exact_leaf);
    children ← trigger (NodeRead n for_each_child);
    let leaves := (if is_null exact then [] else [exact]) ++
                  filter (λ c, is_leaf c = true) (map snd children) in
    let inner := filter (λ c, is_leaf c = false) (map snd children) in
    total ← clear_leaves leaves total;
    _ ← node_mark_obsolete n w;
    _ ← for_each leaves (λ l, leaf ← leaf_ref l; trigger (RetireLeaf leaf));
    _ ← trigger (RetireNode n);
    mret (Continue (rev inner ++ work, total))
  end.

Definition clear_turn (st : list raw * Z) : prog (flow (list raw * Z) Z) :=
  let '(work, total) := st in
  match work with
  | [] => mret (Break total)
  | r :: work =>
    if is_leaf r then
      leaf ← leaf_ref r;
      c ← count leaf;
      _ ← leaf_mark_removed leaf;
      _ ← trigger (RetireLeaf leaf);
      mret (Continue (work, total + c))
    else
      n ← node_ref r;
      clear_node n work total
  end.

Definition clear_counting (fuel : nat) : prog unit :=
  w ← root_lock;
  old ← trigger (RootSwap NULL);
  _ ← root_drop w;
  if is_null old then mret tt
  else
    total ← loop fuel clear_turn ([old], 0);
    len_add (- total).
End clear.

Definition clear (fuel : nat) : prog unit := clear_counting (λ _, mret 1) fuel.

(** ** Validation *)

Section validate.
Context (live : loc → prog Z).

(** Where the walk is: the path, the number of leaves and their live count. *)
Record Validation := { va_path : list byte; va_count : Z; va_live : Z }.

Definition starts_with (k p : list byte) : bool := bool_decide (p `prefix_of` k).

(** A reachable leaf, whose key [fits]. *)
Definition validate_leaf (r : raw) (fits : list byte → bool) (va : Validation) : prog Validation :=
  l ← leaf_ref r;
  removed ← trigger (LeafRead l is_removed);
  _ ← debug_assert (negb removed);
  k ← leaf_key l;
  _ ← debug_assert (fits k);
  c ← live l;
  mret {| va_path := va_path va; va_count := va_count va + 1; va_live := va_live va + c |}.

(** The bytes of [children] are in order. *)
Fixpoint bytes_sorted (last : option byte) (children : list (byte * raw)) : bool :=
  match children with
  | [] => true
  | (b, _) :: children =>
    match last with None => true | Some l => b2z l <? b2z b end && bytes_sorted (Some b) children
  end.

Definition validate_node (n : loc) (va : Validation) : prog (list (raw * nat * option byte) * Validation) :=
  o ← node_is_obsolete n;
  _ ← debug_assert (negb o);
  v ← node_read_version n;
  _ ← debug_assert (bool_decide (is_Some v));
  len ← trigger (NodeRead n raw_prefix_len);
  _ ← debug_assert (len <=? Z.of_nat MAX_PREFIX_LEN);
  e ← trigger (NodeRead n (λ nd, emptied_by nd Nothing));
  _ ← debug_assert (negb e);
  prefix ← trigger (NodeRead n load_prefix);
  let path := va_path va ++ as_slice prefix in
  let va := {| va_path := path; va_count := va_count va; va_live := va_live va |} in
  exact ← trigger (NodeRead n exact_leaf);
  va ← (if negb (is_null exact) then
          _ ← debug_assert (is_leaf exact);
          validate_leaf exact (λ k, bool_decide (k = path)) va
        else mret va);
  num ← trigger (NodeRead n num_children);
  children ← trigger (NodeRead n for_each_child);
  _ ← debug_assert (bytes_sorted None children);
  _ ← debug_assert (bool_decide (length children = num));
  mret (map (λ '(b, c), (c, length path, Some b)) children, va).

Definition validate_turn (st : list (raw * nat * option byte) * Validation)
    : prog (flow (list (raw * nat * option byte) * Validation) Validation) :=
  let '(work, va) := st in
  match work with
  | [] => mret (Break va)
  | (r, depth, byte) :: work =>
    let path := take depth (va_path va) ++ from_option (λ b, [b]) [] byte in
    let va := {| va_path := path; va_count := va_count va; va_live := va_live va |} in
    match r with
    | Null => mret (Continue (work, va))
    | LeafAt _ =>
      va ← validate_leaf r (λ k, starts_with k path) va;
      mret (Continue (work, va))
    | NodeAt n =>
      '(children, va) ← validate_node n va;
      mret (Continue (children ++ work, va))
    end
  end.

Definition validate_counting (fuel : nat) : prog Z :=
  root ← root;
  va ← loop fuel validate_turn ([(root, 0%nat, None)], {| va_path := []; va_count := 0; va_live := 0 |});
  total ← trigger LenSum;
  _ ← debug_assert (va_live va =? Z.max total 0);
  mret (va_count va).
End validate.

Definition tree_validate (fuel : nat) : prog Z := validate_counting (λ _, mret 1) fuel.
End walk.
