(* ===== verification/WalkSpec.v ===== *)
(** * What the whole-tree walks do

    Each walk pops its worklist until it is empty; what is left to do is the
    tour below the worklist's slots ([rest_of]). [destroy] frees every linked
    node and leaf once, [clear] leaves an empty tree and retires them once,
    and [validate] accepts every well-formed tree and counts its leaves. *)

From stdpp Require Import sorting.
From S2P Require Import Prelude Bytes Latch Slot Bits Node NodeSpec NodeOps Free Mem Shape Raw Read Inv Descent Commit Update Pool Commits Rules Order Walk.
Local Open Scope Z_scope.

#[local] Opaque all_bytes children_list child_count for_each_child.

(** ** Sums *)

Fixpoint sum_by {A} (f : A → Z) (l : list A) : Z :=
  match l with [] => 0 | x :: l => f x + sum_by f l end.

Lemma sum_by_app {A} (f : A → Z) l k : sum_by f (l ++ k) = sum_by f l + sum_by f k.
Proof. induction l as [|x l IH]; cbn in *; [done|]. rewrite IH. lia. Qed.

#[export] Instance sum_by_perm {A} (f : A → Z) : Proper ((≡ₚ) ==> (=)) (sum_by f).
Proof. induction 1; cbn in *; lia. Qed.

Lemma sum_by_ext {A} (f g : A → Z) l : (∀ x, x ∈ l → f x = g x) → sum_by f l = sum_by g l.
Proof.
  induction l as [|x l IH]; intros H; cbn in *; [done|]. rewrite (H x) by by left. rewrite IH; [done|].
  intros y Hy. apply H. by right.
Qed.

Lemma sum_by_one {A} (l : list A) : sum_by (λ _, 1) l = Z.of_nat (length l).
Proof. induction l as [|x l IH]; cbn in *; lia. Qed.

Section walks.
Context {L St : Type} {LN : LeafNode L} {LL : LeafLaws L} {LY : Layout St} {EX : Exempt}.
Implicit Types (s : RawTree L St) (m : gmap path loc) (B : gmap loc path) (P : gset loc) (work : list raw).

(** ** What is left of a walk *)

Definition rest_of s B work : list raw := work ≫= visit (nodes_of s) B.

(** Slots of the tree. *)
Definition tree_slot s B (r : raw) : Prop := r = Null ∨ ∃ q x, tree_edges s B q x r.

Lemma rest_of_perm s B work work' : work ≡ₚ work' → rest_of s B work ≡ₚ rest_of s B work'.
Proof. intros E. unfold rest_of. by rewrite E. Qed.

Lemma rest_of_app s B work work' : rest_of s B (work ++ work') = rest_of s B work ++ rest_of s B work'.
Proof. apply bind_app. Qed.

Lemma rest_of_cons s B r work : rest_of s B (r :: work) = visit (nodes_of s) B r ++ rest_of s B work.
Proof. apply bind_cons. Qed.

(** ** The detached leaves of one node *)

(** The weight of a leaf, and of the leaves of a map. *)
Definition weigh (w : L → Z) s (l : loc) : Z := from_option w 0 (t_leaves s !! l).
Definition total_in (w : L → Z) s m : Z := sum_by (weigh w s) (map_to_list m).*2.

Lemma total_one s B m P : wf s B m P → total_in (λ _, 1) s m = Z.of_nat (size m).
Proof.
  intros W. unfold total_in. rewrite (sum_by_ext _ (λ _, 1)).
  - by rewrite sum_by_one, length_fmap, length_map_to_list.
  - intros l ([k l'] & -> & Hk%elem_of_map_to_list)%list_elem_of_fmap.
    apply (map_live _ _ _ _ _ _ W), live_key_Some in Hk as (x & Hx & _). unfold weigh. cbn in *. by rewrite Hx.
Qed.

(** A callback that counts a leaf and may change it: [cl x] is the count and
    the leaf once marked. *)
Definition counts (ok : L → Prop) (count : loc → prog L Z) (cl : L → Z * L) : Prop :=
  ∀ l x (Q : Z → RawTree L St → Prop) s, ok x → is_removed x = false → t_leaves s !! l = Some x →
    (∀ x1, mark_removed x1 = Some (cl x).2 → Q (cl x).1 (set_t_leaves (<[l := x1]> (t_leaves s)) s)) → wp (count l) Q s.

Lemma clear_leaves_spec ok count cl ls total s : counts ok count cl → NoDup ls →
  (∀ l, l ∈ ls → ∃ x, t_leaves s !! l = Some x ∧ is_removed x = false ∧ ok x ∧ ∃ x1, mark_removed x1 = Some (cl x).2) →
  wp (clear_leaves count (LeafAt <$> ls) total) (λ t s', t = total + sum_by (weigh (λ x, (cl x).1) s) ls ∧
    ∃ h, s' = set_t_leaves h s ∧
    ∀ l, h !! l = if decide (l ∈ ls) then snd ∘ cl <$> t_leaves s !! l else t_leaves s !! l) s.
Proof.
  intros HC. revert total s. induction ls as [|l ls IH]; intros total s HD HS.
  { apply wp_ret. split; [cbn; lia|]. exists (t_leaves s). split; [by destruct s|done]. }
  apply NoDup_cons in HD as [Hl HD]. destruct (HS l) as (x & Hx & Hr & Hok & _); [by left|]. cbn [fmap list_fmap clear_leaves].
  apply wp_bind, wp_leaf_ref, wp_bind. eapply HC; [done..|]. intros x1 Hx1.
  apply wp_bind. eapply wp_mark_removed; [apply lookup_insert_eq|exact Hx1|].
  eapply wp_mono; [apply IH; [done|]|].
  - intros l' Hl'. cbn. rewrite !lookup_insert_ne by congruence. apply HS. by right.
  - intros t s' (-> & h & -> & Hh). cbn [sum_by] in *. split.
    + unfold weigh at 2. rewrite Hx. cbn [from_option]. rewrite (sum_by_ext _ (weigh (λ x, (cl x).1) s)); [cbn; lia|].
      intros l' Hl'. unfold weigh. cbn. by rewrite !lookup_insert_ne by congruence.
    + exists h. split; [done|]. intros l'. rewrite Hh. cbn. rewrite insert_insert_eq.
      destruct (decide (l' = l)) as [->|Hne].
      * rewrite decide_False, lookup_insert_eq, decide_True by (done || by left). by rewrite Hx.
      * rewrite lookup_insert_ne by done. apply decide_ext. rewrite elem_of_cons. naive_solver.
Qed.

Lemma retire_leaves_spec ls s : (∀ l, l ∈ ls → is_Some (t_leaves s !! l)) →
  wp (for_each (LeafAt <$> ls) (λ r, leaf ← leaf_ref r; trigger (RetireLeaf leaf)))
    (λ _ s', s' = set_t_retired_leaves (rev ls ++ t_retired_leaves s) s) s.
Proof.
  revert s. induction ls as [|l ls IH]; intros s HS; [apply wp_ret; by destruct s|].
  destruct (HS l) as [x Hx]; [by left|]. cbn [fmap list_fmap for_each].
  apply wp_bind, wp_bind, wp_leaf_ref. eapply wp_retire_leaf; [done|].
  eapply wp_mono; [apply IH|]; [intros l' Hl'; apply HS; by right|].
  intros _ s' ->. cbn. by rewrite <- (assoc_L (++)).
Qed.

(** Slots, with their leaves first. *)
Lemma leaves_of_slots (e : raw) (cs : list raw) : (∀ c, c ∈ cs → c ≠ Null) → (e = Null ∨ ∃ l, e = LeafAt l) →
  (if is_null e then [] else [e]) ++ filter (λ c, is_leaf c = true) cs = LeafAt <$> leaves_in (e :: cs).
Proof.
  intros Hc He. assert (filter (λ c, is_leaf c = true) cs = LeafAt <$> leaves_in cs) as ->.
  { induction cs as [|c cs IH]; [done|]. specialize (IH ltac:(set_solver)). specialize (Hc c ltac:(set_solver)).
    destruct c as [|l|n]; [done|by rewrite filter_cons_True, IH|by rewrite filter_cons_False]. }
  by destruct He as [->|[l ->]].
Qed.

Lemma rest_of_leaves s B (cs : list raw) :
  rest_of s B cs ≡ₚ (LeafAt <$> leaves_in cs) ++ rest_of s B (filter (λ c, is_leaf c = false) cs).
Proof.
  induction cs as [|c cs IH]; [done|]. rewrite rest_of_cons, IH. destruct c as [|l|n].
  - by rewrite filter_cons_True, rest_of_cons by done.
  - by rewrite filter_cons_False by done.
  - rewrite filter_cons_True, rest_of_cons by done. apply Permutation_app_swap_app.
Qed.

(** The counter is not part of the shape. *)
Lemma wf_len_add n s B m P : wf s B m P → wf (set_t_len (counted n s) s) B m P.
Proof.
  intros [W1 W2 W3 W4 W5 W6 W7 [W8 W9]]. split; try done.
  - intros a. destruct (W3 a); [eapply node_linked|eapply node_retired|eapply node_pooled|eapply node_free]; done.
  - intros a. destruct (W4 a); [eapply leaf_linked|eapply leaf_retired|eapply leaf_owned|eapply leaf_free]; done.
  - cbn. by rewrite counted_length.
Qed.

Lemma sum_counted n s B m P (z : Z) : wf s B m P → Counter.sum (t_len s) = Counter.wrap_i64 z →
  Counter.sum (counted n s) = Counter.wrap_i64 (z + n).
Proof.
  intros W E. destruct (wf_stripes _ _ _ _ W) as [HL HS]. unfold counted. case_decide as D.
  - rewrite Counter.sum_add, E by lia. apply Counter.wrap_i64_add.
  - rewrite E. f_equal. lia.
Qed.


Section tree.
Context s B m P (W : wf s B m P).

Lemma rest_of_root : rest_of s B [t_root s] = tour s B.
Proof. unfold rest_of. cbn. apply app_nil_r. Qed.

Lemma tree_slot_root : tree_slot s B (t_root s).
Proof. destruct (decide (t_root s = Null)); [by left|right]. exists [], false. by left. Qed.

Lemma tree_slot_node n : tree_slot s B (NodeAt n) → ∃ p ob, B !! n = Some p ∧ t_nodes s !! n = Some ob ∧
  node_ok (o_node ob) ∧ quiet (o_latch ob) ∧
  visit (nodes_of s) B (NodeAt n) = NodeAt n :: rest_of s B (slots (o_node ob)) ∧
  Forall (tree_slot s B) (slots (o_node ob)).
Proof.
  intros [|(q & x & E)]; [done|]. destruct (eo_node _ _ _ _ (wf_edges _ _ _ _ W) _ _ _ E) as [_ Hn].
  destruct (wf_linked _ _ _ _ _ _ W Hn) as (ob & Hob & Ho & Hq). exists q, ob.
  assert (nodes_of s !! n = Some (o_node ob)) as Hnd by (apply nodes_of_Some; eauto).
  split_and!; try done.
  - exact (visit_node _ _ _ _ (wf_edges _ _ _ _ W) (wf_node_oks s B m P W) n q (o_node ob) Hn Hnd).
  - apply Forall_forall. intros r Hr. destruct (decide (r = Null)); [by left|right].
    destruct (slot_edge_of _ _ (wf_node_oks s B m P W) n q (o_node ob) r) as (q' & x' & E'); [done..|].
    exists q', x'. by eapply node_edge_edge.
Qed.

Lemma tree_slot_leaf l : tree_slot s B (LeafAt l) → ∃ k, m !! k = Some l ∧ live_key s l = Some k.
Proof.
  intros [|(q & x & E)]; [done|]. destruct (eo_leaf _ _ _ _ (wf_edges _ _ _ _ W) _ _ _ E) as (k & Hk & _).
  exists k. split; [|done]. apply (wf_map _ _ _ _ W). eauto.
Qed.

(** The slots of one node: at most its exact leaf is null. *)
Lemma child_not_null nd c : node_ok nd → c ∈ (for_each_child nd).*2 → c ≠ Null.
Proof.
  intros Ho ([b c'] & -> & Hc)%list_elem_of_fmap. rewrite for_each_child_list, elem_of_children_list in Hc by done.
  cbn. by apply (find_child_not_null (R := raw)) in Hc.
Qed.

Lemma rest_elem r work : Forall (tree_slot s B) work → r ∈ rest_of s B work → r ∈ tour s B.
Proof.
  intros HF (r' & Hr & Hr')%list_elem_of_bind. rewrite Forall_forall in HF. apply HF in Hr' as [->|(q & x & E)].
  - by apply elem_of_nil in Hr.
  - apply (tour_elem s B m P W). by eapply (visit_target _ _ _ _ (wf_edges _ _ _ _ W) (wf_node_oks s B m P W)).
Qed.

(** ** Drop *)

(** The tree with what is not in [rem] freed. *)
Record freed (rem : list raw) s' : Prop := {
  fr_nodes n : t_nodes s' !! n = if decide (NodeAt n ∈ tour s B ∧ NodeAt n ∉ rem) then None else t_nodes s !! n;
  fr_leaves l : t_leaves s' !! l = if decide (LeafAt l ∈ tour s B ∧ LeafAt l ∉ rem) then None else t_leaves s !! l;
  fr_retired_nodes : t_retired_nodes s' = t_retired_nodes s;
  fr_retired_leaves : t_retired_leaves s' = t_retired_leaves s;
  fr_owned : t_owned s' = t_owned s;
}.

(** One turn of a walk per thing below the slots, and one per null slot. *)
Definition walk_cost work : nat := length (filter (.= Null) work) + 2 * length (rest_of s B work).

Lemma walk_cost_perm work work' : work ≡ₚ work' → walk_cost work = walk_cost work'.
Proof. intros E. unfold walk_cost. by rewrite (rest_of_perm s B _ _ E), E. Qed.

Lemma walk_cost_cons r work : walk_cost (r :: work) =
  ((if decide (r = Null) then 1 else 0) + 2 * length (visit (nodes_of s) B r) + walk_cost work)%nat.
Proof. unfold walk_cost. rewrite rest_of_cons, filter_cons, length_app. case_decide; cbn [length]; lia. Qed.

Lemma walk_cost_app work work' : walk_cost (work ++ work') = (walk_cost work + walk_cost work')%nat.
Proof. unfold walk_cost. rewrite rest_of_app, filter_app, !length_app. lia. Qed.

Lemma slots_nulls nd : node_ok nd → (length (filter (.= Null) (slots nd)) <= 1)%nat.
Proof.
  intros Ho. unfold slots. rewrite filter_cons.
  assert (filter (.= Null) (for_each_child nd).*2 = []) as ->; [|by case_decide; cbn; lia].
  apply list_nil_subseteq. intros c [-> Hc]%list_elem_of_filter. by apply child_not_null in Hc.
Qed.

Lemma destroy_turn_spec work s' :
  Forall (tree_slot s B) work → NoDup (rest_of s B work) → freed (rest_of s B work) s' →
  wp (destroy_turn work) (λ r s'', match r with
    | Continue work' => (Forall (tree_slot s B) work' ∧ NoDup (rest_of s B work') ∧ freed (rest_of s B work') s'') ∧
        (walk_cost work' < walk_cost work)%nat
    | Break _ => freed [] s''
    end) s'.
Proof.
  destruct work as [|r work]; intros HF HD HI; [by apply wp_ret|].
  pose proof HF as HF0. apply Forall_cons in HF as [Hr HF]. rewrite rest_of_cons in HD, HI. destruct r as [|l|n]; cbn [destroy_turn].
  - apply wp_ret. split; [done|]. rewrite walk_cost_cons, decide_True by done. lia.
  - change (visit _ _ _) with [LeafAt l] in HD, HI. cbn in HD, HI. apply NoDup_cons in HD as [Hl HD].
    destruct (tree_slot_leaf l Hr) as (k & Hk & (x & Hx & _)%live_key_Some).
    assert (LeafAt l ∈ tour s B) as Ht by (eapply tour_leaf; eauto).
    apply wp_bind. destruct HI as [H1 H2 H3 H4 H5]. eapply wp_exec.
    { cbn. unfold with_leaf. rewrite H2, decide_False by set_solver. by rewrite Hx. }
    apply wp_ret. split; [split_and!; [done..|]|].
    + split; cbn; try done; intros a.
      * rewrite H1. apply decide_ext. set_solver.
      * destruct (decide (a = l)) as [->|Hne].
        -- by rewrite lookup_delete_eq, decide_True by done.
        -- rewrite lookup_delete_ne, H2 by done. apply decide_ext. set_solver.
    + rewrite walk_cost_cons. change (visit _ _ _) with [LeafAt l]. cbn [length]. lia.
  - destruct (tree_slot_node n Hr) as (p & ob & Hp & Hob & Ho & _ & Hv & Hs). rewrite Hv in HD, HI.
    cbn in HD, HI. apply NoDup_cons in HD as [Hn HD].
    assert (NodeAt n ∈ tour s B) as Ht by (eapply tour_node; eauto).
    destruct HI as [H1 H2 H3 H4 H5].
    assert (t_nodes s' !! n = Some ob) as Hob' by (rewrite H1, decide_False; [done|]; intros [_ []]; apply elem_of_cons; by left).
    apply wp_bind. eapply wp_node_read; [done|]. apply wp_bind. eapply wp_node_read; [done|].
    apply wp_bind. eapply wp_exec. { cbn. unfold with_node. by rewrite Hob'. }
    apply wp_ret.
    assert (rev (map snd (for_each_child (o_node ob))) ++ exact_leaf (o_node ob) :: work ≡ₚ slots (o_node ob) ++ work) as EP.
    { unfold slots. rewrite <- Permutation_rev. cbn. symmetry. apply Permutation_middle. }
    split; [split_and!|].
    + rewrite EP. by apply Forall_app.
    + by rewrite (rest_of_perm s B _ _ EP), rest_of_app.
    + assert (∀ r, r ∈ rest_of s B (rev (map snd (for_each_child (o_node ob))) ++ exact_leaf (o_node ob) :: work) ↔
        r ∈ rest_of s B (slots (o_node ob)) ++ rest_of s B work) as EI by (intros r; by rewrite (rest_of_perm s B _ _ EP), rest_of_app).
      split; cbn; try done; intros a.
      * destruct (decide (a = n)) as [->|Hne].
        -- rewrite lookup_delete_eq, decide_True; [done|]. by rewrite EI.
        -- rewrite lookup_delete_ne, H1 by done. apply decide_ext. rewrite EI, not_elem_of_cons. naive_solver.
      * rewrite H2. apply decide_ext. rewrite EI, not_elem_of_cons. naive_solver.
    + rewrite (walk_cost_perm _ _ EP), walk_cost_app, walk_cost_cons, Hv, decide_False by done.
      pose proof (slots_nulls _ Ho). unfold walk_cost. cbn [length]. lia.
Qed.

(** [destroy] frees every linked node and leaf, each once. *)
Lemma destroy_spec fuel : (2 * (size (t_nodes s) + size (t_leaves s)) + 1 < fuel)%nat →
  wp (destroy fuel) (λ _ s', freed [] s') s.
Proof.
  intros Hf. unfold destroy. apply wp_bind. eapply wp_exec; [done|].
  eapply (wp_loop (λ work s', Forall (tree_slot s B) work ∧ NoDup (rest_of s B work) ∧ freed (rest_of s B work) s') walk_cost).
  - intros work s' (H1 & H2 & H3). eapply wp_mono; [by apply destroy_turn_spec|]. by intros [work'|[]] s''.
  - split_and!; rewrite ?rest_of_root.
    + apply Forall_singleton, tree_slot_root.
    + by eapply tour_NoDup.
    + split; cbn; try done; intros a; rewrite decide_False by naive_solver; done.
  - pose proof (tour_length s B m P W) as HT. unfold tour in HT. rewrite walk_cost_cons. change (walk_cost []) with 0%nat. case_decide; lia.
Qed.

(** ** Clear *)

Section clear.
Context (ok : L → Prop) (count : loc → prog L Z) (cl : L → Z * L) (Hcount : counts ok count cl).
Context (Hok : ∀ k l x, m !! k = Some l → t_leaves s !! l = Some x → ok x).
Context (Hcl : ∀ k l x, m !! k = Some l → t_leaves s !! l = Some x → ∃ x1, mark_removed x1 = Some (cl x).2).
Abbreviation weight := (weigh (λ x, (cl x).1) s).
Abbreviation whole := (total_in (λ x, (cl x).1) s m).

Lemma clear_leaf k l : m !! k = Some l →
  ∃ x, t_leaves s !! l = Some x ∧ is_removed x = false ∧ ok x ∧ ∃ x1, mark_removed x1 = Some (cl x).2.
Proof using Hok Hcl W.
  intros Hk. pose proof Hk as (x & Hx & ? & _)%(map_live _ _ _ _ _ _ W)%live_key_Some. exists x. split_and!; eauto.
Qed.

(** An empty root has no edges. *)
Lemma empty_shape s1 : t_root s1 = Null →
  edges_ok (t_root s1) (nodes_of s1) ∅ (live_key s1) ∧ map_ok s1 ∅ ∅.
Proof.
  intros ER. assert (∀ q x r, ¬ tree_edges s1 ∅ q x r) as E.
  { intros q x r [(_ & _ & -> & ?)|(n & p & nd & Hn & _)]; [done|]. by rewrite lookup_empty in Hn. }
  split; [split|].
  - intros q x n Hn. by apply E in Hn.
  - intros q x l Hl. by apply E in Hl.
  - intros n q. by rewrite lookup_empty.
  - intros n q. by rewrite lookup_empty.
  - intros k l. rewrite lookup_empty. split; [done|]. intros (_ & q & x & Hx). by apply E in Hx.
Qed.

(** Unlinked: in the tree of [s], and no longer to be visited. *)
Definition gone (rem : list raw) (r : raw) : Prop := r ∈ tour s B ∧ r ∉ rem.

Record cleared (rem : list raw) (total : Z) s' : Prop := {
  cl_root : t_root s' = Null;
  cl_latch : quiet (t_root_latch s');
  cl_gone n : gone rem (NodeAt n) → ∃ ob, t_nodes s' !! n = Some ob ∧ is_obsolete (o_latch ob) = true;
  cl_kept n : ¬ gone rem (NodeAt n) → t_nodes s' !! n = t_nodes s !! n;
  cl_leaves_gone l : gone rem (LeafAt l) → t_leaves s' !! l = snd ∘ cl <$> t_leaves s !! l;
  cl_leaves_kept l : ¬ gone rem (LeafAt l) → t_leaves s' !! l = t_leaves s !! l;
  cl_retired_nodes : ∃ rn, t_retired_nodes s' = rn ++ t_retired_nodes s ∧ NoDup rn ∧ ∀ n, n ∈ rn ↔ gone rem (NodeAt n);
  cl_retired_leaves : ∃ rl, t_retired_leaves s' = rl ++ t_retired_leaves s ∧ NoDup rl ∧ ∀ l, l ∈ rl ↔ gone rem (LeafAt l);
  cl_frame : t_len s' = t_len s ∧ t_owned s' = t_owned s ∧ t_stripe s' = t_stripe s;
  cl_total : total = whole - sum_by weight (leaves_in rem);
}.

Lemma gone_ext rem rem' r : rem ≡ₚ rem' → gone rem r ↔ gone rem' r.
Proof. unfold gone. intros E. by rewrite E. Qed.

Lemma gone_app ls rem r : ls ⊆ tour s B → NoDup (ls ++ rem) → gone rem r ↔ r ∈ ls ∨ gone (ls ++ rem) r.
Proof.
  unfold gone. intros HS (H1 & H2 & H3)%NoDup_app. rewrite not_elem_of_app.
  split; [destruct (decide (r ∈ ls)); naive_solver|]. intros [Hr|[? []]]; [|done]. split; [by apply HS|by apply H2].
Qed.

(** Unlinking some nodes and leaves. *)
Lemma cleared_step ns ls rem total s1 s2 (ds := (NodeAt <$> ns) ++ (LeafAt <$> ls)) :
  ds ⊆ tour s B → NoDup (ds ++ rem) → cleared (ds ++ rem) total s1 →
  t_root s2 = t_root s1 → t_root_latch s2 = t_root_latch s1 →
  (∀ n, n ∈ ns → ∃ ob, t_nodes s2 !! n = Some ob ∧ is_obsolete (o_latch ob) = true) →
  (∀ n, n ∉ ns → t_nodes s2 !! n = t_nodes s1 !! n) →
  (∀ l, t_leaves s2 !! l = if decide (l ∈ ls) then snd ∘ cl <$> t_leaves s1 !! l else t_leaves s1 !! l) →
  t_retired_nodes s2 = ns ++ t_retired_nodes s1 → t_retired_leaves s2 = rev ls ++ t_retired_leaves s1 →
  t_len s2 = t_len s1 ∧ t_owned s2 = t_owned s1 ∧ t_stripe s2 = t_stripe s1 →
  cleared rem (total + sum_by weight ls) s2.
Proof.
  intros HT HD [C1 C2 C3 C4 C5 C6 (rn & C7 & C7' & C7i) (rl & C8 & C8' & C8i) (F1 & F2 & F3) C9] E1 E2 En En' El Ern Erl (G1 & G2 & G3).
  assert (∀ r, gone rem r ↔ r ∈ ds ∨ gone (ds ++ rem) r) as HG by (intros r; by apply gone_app).
  assert (∀ n, NodeAt n ∈ ds ↔ n ∈ ns) as Hns.
  { intros n. unfold ds. rewrite elem_of_app, !list_elem_of_fmap. naive_solver. }
  assert (∀ l, LeafAt l ∈ ds ↔ l ∈ ls) as Hls.
  { intros l. unfold ds. rewrite elem_of_app, !list_elem_of_fmap. naive_solver. }
  assert (∀ r, r ∈ ds → ¬ gone (ds ++ rem) r) as Hnot by (intros r Hr [_ []]; apply elem_of_app; by left).
  pose proof HD as (HDd & _ & _)%NoDup_app. pose proof HDd as (HDn & _ & HDl)%NoDup_app.
  apply NoDup_fmap_1 in HDn, HDl.
  split; [congruence|congruence|..].
  - intros n [Hn|Hn]%HG; [apply En; by apply Hns|]. destruct (decide (n ∈ ns)); [by apply En|].
    rewrite En' by done. by apply C3.
  - intros n Hn. assert (NodeAt n ∉ ds ∧ ¬ gone (ds ++ rem) (NodeAt n)) as [H1 H2] by (rewrite HG in Hn; naive_solver).
    rewrite En', C4; [done..|]. by rewrite <- Hns.
  - intros l Hl. rewrite El. case_decide as Hd.
    + rewrite C6; [done|]. apply Hnot. by apply Hls.
    + apply C5. apply HG in Hl as [Hl%Hls|]; done.
  - intros l Hl. assert (LeafAt l ∉ ds ∧ ¬ gone (ds ++ rem) (LeafAt l)) as [H1 H2] by (rewrite HG in Hl; naive_solver).
    rewrite El, decide_False by (by rewrite <- Hls). by apply C6.
  - exists (ns ++ rn). rewrite Ern, C7. split_and!; [by rewrite (assoc_L (++))| |].
    + apply NoDup_app. split_and!; [done| |done]. intros n Hn%Hns Hn'%C7i. by apply (Hnot (NodeAt n)).
    + intros n. rewrite elem_of_app, HG, Hns, C7i. done.
  - exists (rev ls ++ rl). rewrite Erl, C8. assert (∀ l, l ∈ rev ls ↔ l ∈ ls) as Hrev by (intros l; by rewrite <- Permutation_rev).
    split_and!; [by rewrite (assoc_L (++))| |].
    + apply NoDup_app. split_and!; [by rewrite <- Permutation_rev| |done].
      intros l Hl%Hrev%Hls Hl'%C8i. by apply (Hnot (LeafAt l)).
    + intros l. rewrite elem_of_app, HG, Hls, C8i, Hrev. done.
  - split_and!; congruence.
  - rewrite C9, leaves_in_app, sum_by_app. assert (leaves_in ds = ls) as ->; [|lia].
    unfold ds. rewrite leaves_in_app. assert (leaves_in (NodeAt <$> ns) = []) as ->.
    { clear. induction ns; [done|]. done. }
    cbn. clear. induction ls as [|l ls IH]; [done|]. cbn. f_equal. apply IH.
Qed.

Lemma cleared_perm rem rem' total s1 : rem ≡ₚ rem' → cleared rem total s1 → cleared rem' total s1.
Proof.
  intros E [C1 C2 C3 C4 C5 C6 (rn & C7 & C7' & C7i) (rl & C8 & C8' & C8i) C9 C10].
  assert (∀ r, gone rem r ↔ gone rem' r) as HG by (intros r; by apply gone_ext).
  split; [done|done|..].
  - intros n Hn. by apply C3, HG.
  - intros n Hn. apply C4. by rewrite HG.
  - intros l Hl. by apply C5, HG.
  - intros l Hl. apply C6. by rewrite HG.
  - exists rn. split_and!; [done..|]. intros n. by rewrite C7i.
  - exists rl. split_and!; [done..|]. intros l. by rewrite C8i.
  - done.
  - rewrite C10. unfold leaves_in. by rewrite E.
Qed.

(** The exact leaf of a linked node, and its slots with the leaves first. *)
Lemma exact_is_null_or_leaf n p ob : B !! n = Some p → t_nodes s !! n = Some ob →
  exact_leaf (o_node ob) = Null ∨ ∃ l, exact_leaf (o_node ob) = LeafAt l.
Proof.
  intros Hp Hob. destruct (exact_leaf (o_node ob)) as [|l|n'] eqn:E; [by left|by right; eauto|].
  destruct (eo_node _ _ _ _ (wf_edges _ _ _ _ W) (p ++ pfx (o_node ob)) true n') as [? _]; [|done].
  rewrite <- E. apply edge_exact with n; [done|apply nodes_of_Some; eauto|by rewrite E].
Qed.

Lemma node_rest ob : (exact_leaf (o_node ob) = Null ∨ ∃ l, exact_leaf (o_node ob) = LeafAt l) →
  rest_of s B (slots (o_node ob)) ≡ₚ (LeafAt <$> leaves_in (slots (o_node ob))) ++
    rest_of s B (filter (λ c, is_leaf c = false) (for_each_child (o_node ob)).*2).
Proof.
  intros He. rewrite rest_of_leaves. f_equiv. unfold slots. destruct He as [->|[l ->]].
  - by rewrite filter_cons_True, rest_of_cons by done.
  - by rewrite filter_cons_False by done.
Qed.

Lemma clear_turn_spec work total s1 :
  Forall (tree_slot s B) work → Null ∉ work → NoDup (rest_of s B work) → cleared (rest_of s B work) total s1 →
  wp (clear_turn count (work, total)) (λ r s2, match r with
    | Continue (work', total') =>
        (Forall (tree_slot s B) work' ∧ Null ∉ work' ∧ NoDup (rest_of s B work') ∧ cleared (rest_of s B work') total' s2) ∧
        (length (rest_of s B work') < length (rest_of s B work))%nat
    | Break total' => cleared [] total' s2
    end) s1.
Proof.
  intros HF HN HD HC. destruct work as [|r work]; [by apply wp_ret|].
  pose proof HF as HF0. apply Forall_cons in HF as [Hr HF]. apply not_elem_of_cons in HN as [HNr HN].
  rewrite rest_of_cons in HD, HC. cbn [clear_turn]. destruct r as [|l|n]; [done|..]; cbn [is_leaf raw_slot].
  - change (visit _ _ _) with [LeafAt l] in HD, HC.
    destruct (tree_slot_leaf l Hr) as (k & Hk & _). destruct (clear_leaf k l Hk) as (x & Hx & Hrx & Hokx & _).
    assert (LeafAt l ∈ tour s B) as Ht by (eapply tour_leaf; eauto).
    assert (t_leaves s1 !! l = Some x) as Hxs.
    { rewrite (cl_leaves_kept _ _ _ HC); [done|]. intros [_ []]. by left. }
    apply wp_bind, wp_leaf_ref, wp_bind. eapply Hcount; [done..|]. intros x1 Hx1. apply wp_bind.
    eapply wp_mark_removed; [apply lookup_insert_eq|exact Hx1|].
    apply wp_bind. eapply wp_retire_leaf; [cbn; apply lookup_insert_eq|]. apply wp_ret. split.
    + split_and!; [done..|by apply NoDup_cons in HD as [_ ?]|].
      replace (cl x).1 with (sum_by weight [l]) by (cbn; unfold weigh; rewrite Hx; cbn; lia).
      eapply (cleared_step [] [l] _ _ s1); try done.
      * cbn. set_solver.
      * set_solver.
      * intros l'. cbn. rewrite insert_insert_eq. destruct (decide (l' = l)) as [->|Hne].
        -- rewrite lookup_insert_eq, decide_True, Hxs by (by left). done.
        -- rewrite lookup_insert_ne, decide_False by set_solver. done.
    + rewrite rest_of_cons. change (visit _ _ _) with [LeafAt l]. cbn. lia.
  - destruct (tree_slot_node n Hr) as (p & ob & Hp & Hob & Ho & Hq & Hv & Hs). rewrite Hv in HD, HC.
    pose proof (exact_is_null_or_leaf n p ob Hp Hob) as He. cbn [node_ref]. apply wp_bind, wp_ret. unfold clear_node.
    assert (NodeAt n ∈ tour s B) as Ht by (eapply tour_node; eauto).
    assert (∀ r, r ∈ rest_of s B (slots (o_node ob)) → r ∈ tour s B) as Hst by (intros r; by apply rest_elem).
    pose proof (leaves_of_slots _ _ (λ c Hc, child_not_null _ c Ho Hc) He) as EL.
    pose proof (node_rest ob He) as EP.
    set (ls := leaves_in (slots (o_node ob))) in *.
    set (inner := filter (λ c, is_leaf c = false) (for_each_child (o_node ob)).*2) in *.
    assert ((NodeAt n :: rest_of s B (slots (o_node ob))) ++ rest_of s B work ≡ₚ
      ((NodeAt <$> [n]) ++ (LeafAt <$> ls)) ++ rest_of s B (rev inner ++ work)) as EW.
    { rewrite rest_of_app, (rest_of_perm s B (rev inner) inner), EP by (symmetry; apply Permutation_rev).
      cbn. by rewrite <- !(assoc_L (++)). }
    rewrite EW in HD. apply (cleared_perm _ _ _ _ EW) in HC.
    assert (t_nodes s1 !! n = Some ob) as Hob1.
    { rewrite (cl_kept _ _ _ HC); [done|]. intros [_ []]. cbn. by left. }
    assert (∀ l, l ∈ ls → (∃ k, m !! k = Some l) ∧ t_leaves s1 !! l = t_leaves s !! l) as Hls.
    { intros l Hl. split.
      - apply (tour_leaf s B m P W), Hst. rewrite EP, elem_of_app. left. apply list_elem_of_fmap. eauto.
      - apply (cl_leaves_kept _ _ _ HC). intros [_ []]. rewrite !elem_of_app. left. right. apply list_elem_of_fmap. eauto. }
    assert (NoDup ls) as HDls by (by apply NoDup_app in HD as ((_ & _ & ?%NoDup_fmap_1)%NoDup_app & _)).
    apply wp_bind. eapply wp_lock; [done..|]. cbn [o_latch].
    set (s2 := put_node s1 n _). apply wp_bind. eapply wp_node_read; [apply lookup_insert_eq|].
    apply wp_bind. eapply wp_node_read; [apply lookup_insert_eq|]. cbn [o_node]. cbv zeta.
    change (map snd (for_each_child (o_node ob))) with ((for_each_child (o_node ob)).*2). rewrite EL. fold inner.
    apply wp_bind. eapply wp_mono.
    { apply (clear_leaves_spec ok count cl ls total s2); [done..|]. intros l [[k Hk] El]%Hls.
      change (t_leaves s2 !! l) with (t_leaves s1 !! l). rewrite El. by eapply clear_leaf. }
    intros t ? (-> & h & -> & Hh). rewrite (sum_by_ext _ weight ls)
      by (intros l Hl; unfold weigh; change (t_leaves s2) with (t_leaves s1); by rewrite (proj2 (Hls l Hl))).
    apply wp_bind. eapply wp_node_mark_obsolete; [apply lookup_insert_eq|]. cbn [o_node].
    apply wp_bind. eapply wp_mono; [apply (retire_leaves_spec ls)|].
    { intros l Hl. cbn. rewrite Hh, decide_True by done. destruct (Hls l Hl) as [[k Hk] El]. destruct (clear_leaf k l Hk) as (x & Hx & _).
      change (t_leaves s2) with (t_leaves s1). rewrite El, Hx. cbn. eauto. }
    intros _ ? ->. apply wp_bind. eapply wp_retire_node; [apply lookup_insert_eq|]. apply wp_ret.
    split; [split_and!|].
    + apply Forall_app. split; [|done]. apply Forall_forall. intros c Hc. rewrite <- Permutation_rev in Hc.
      apply list_elem_of_filter in Hc as [_ Hc]. rewrite Forall_forall in Hs. apply Hs. by right.
    + rewrite elem_of_app, <- Permutation_rev. intros [[_ Hc]%list_elem_of_filter|]; [|done].
      by apply child_not_null in Hc.
    + by apply NoDup_app in HD as (_ & _ & ?).
    + eapply (cleared_step [n] ls _ _ s1); try done.
      * intros r [Hr'|Hr']%elem_of_app; [cbn in Hr'; set_solver|]. apply Hst. rewrite EP. by apply elem_of_app; left.
      * intros n' ->%list_elem_of_singleton. eexists. split; [apply lookup_insert_eq|]. by apply quiet_obsolete.
      * intros n' Hn'. unfold s2, put_node. cbn. rewrite !lookup_insert_ne by set_solver. done.
    + rewrite rest_of_cons, Hv, EW, (length_app (_ ++ _)). cbn. lia.
Qed.

(** The invariant after the walk: the empty tree. *)
Lemma wf_cleared total s1 : cleared [] total s1 → wf s1 ∅ ∅ P.
Proof.
  intros [C1 C2 C3 C4 C5 C6 (rn & C7 & C7' & C7i) (rl & C8 & C8' & C8i) (F1 & F2 & F3) C9].
  assert (∀ r, gone [] r ↔ r ∈ tour s B) as HG by (intros r; unfold gone; rewrite elem_of_nil; naive_solver).
  assert (∀ n, gone [] (NodeAt n) ↔ is_Some (B !! n)) as HGn by (intros n; by rewrite HG, (tour_node s B m P W)).
  assert (∀ l, gone [] (LeafAt l) ↔ ∃ k, m !! k = Some l) as HGl by (intros l; by rewrite HG, (tour_leaf s B m P W)).
  destruct (empty_shape s1 C1) as [X1 X2].
  split; [exact X1|exact X2| | | | |exact C2|].
  - intros n. destruct (decide (is_Some (B !! n))) as [Hn|Hn].
    + destruct Hn as [p Hp]. destruct (C3 n) as (ob & Hob & Hobs); [apply HGn; eauto|].
      apply node_retired with ob; [done|apply lookup_empty| | |done].
      * rewrite C7. apply elem_of_app. left. apply C7i, HGn. eauto.
      * destruct (wf_nodes _ _ _ _ W n); congruence.
    + assert (t_nodes s1 !! n = t_nodes s !! n) as E by (apply C4; by rewrite HGn).
      assert (n ∈ t_retired_nodes s1 ↔ n ∈ t_retired_nodes s) as R.
      { rewrite C7, elem_of_app, C7i, HGn. tauto. }
      destruct (wf_nodes _ _ _ _ W n) as [ob H1 H2| ob H1 H2 H3 H4 H5|ob H1 H2 H3 H4 H5 H6|H1 H2 H3 H4]; [done|..].
      * apply node_retired with ob; rewrite ?R, ?E; done.
      * apply node_pooled with ob; rewrite ?R, ?E; done.
      * apply node_free; rewrite ?R, ?E; done.
  - intros l. assert (∀ k, (∅ : gmap path loc) !! k ≠ Some l) as Hemp by (intros k; by rewrite lookup_empty).
    destruct (wf_leaves _ _ _ _ W l) as [x H1 H2 H3 H4 H5|x H1 H2 H3 H4 H5|x H1 H2 H3 H4 H5|H1 H3 H4 H5].
    1: { assert (gone [] (LeafAt l)) as Hg by (apply HGl; eauto).
      destruct (clear_leaf _ l H3) as (x' & Hx' & _ & _ & x1 & Hx1). assert (x' = x) as -> by congruence.
      apply leaf_retired with (cl x).2; [rewrite (C5 l Hg), H1; done|by eapply is_removed_mark|done| |by rewrite F2].
      rewrite C8. apply elem_of_app. left. by apply C8i. }
    all: assert (¬ gone [] (LeafAt l)) as Hg by (rewrite HGl; intros [k ?]; by eapply H3).
    all: assert (t_leaves s1 !! l = t_leaves s !! l) as E by (by apply C6).
    all: assert (l ∈ t_retired_leaves s1 ↔ l ∈ t_retired_leaves s) as R
      by (rewrite C8, elem_of_app, C8i; tauto).
    + apply leaf_retired with x; rewrite ?R, ?E, ?F2; done.
    + apply leaf_owned with x; rewrite ?R, ?E, ?F2; done.
    + apply leaf_free; rewrite ?R, ?E, ?F2; done.
  - rewrite C7. apply NoDup_app. split_and!; [done| |apply W]. intros n Hn%C7i%HGn Hr. destruct Hn as [p Hp].
    destruct (wf_nodes _ _ _ _ W n); congruence.
  - rewrite C8. apply NoDup_app. split_and!; [done| |apply W]. intros l Hl%C8i%HGl Hr. destruct Hl as [k Hk].
    destruct (wf_leaves _ _ _ _ W l) as [x H1 H2 H3 H4 H5|x H1 H2 H3 H4 H5|x H1 H2 H3 H4 H5|H1 H3 H4 H5]; [done|by eapply H3..].
  - rewrite F1, F3. apply W.
Qed.

(** What [clear] does: an empty tree, the old nodes and leaves retired, the
    leaves marked removed, the count less theirs. *)
Record clear_done s1 : Prop := {
  cd_wf : wf s1 ∅ ∅ P;
  cd_len : t_len s1 = counted (- whole) s;
  cd_owned : t_owned s1 = t_owned s;
  cd_linked k l : m !! k = Some l → t_leaves s1 !! l = snd ∘ cl <$> t_leaves s !! l;
  cd_other l : (∀ k, m !! k ≠ Some l) → t_leaves s1 !! l = t_leaves s !! l;
}.

Lemma clear_spec fuel : (size (t_nodes s) + size (t_leaves s) < fuel)%nat →
  wp (clear_counting count fuel) (λ _ s1, clear_done s1) s.
Proof.
  intros Hf. unfold clear_counting. pose proof (wf_root_latch _ _ _ _ W) as Hq.
  apply wp_bind, wp_root_lock; [done|]. apply wp_bind. eapply wp_exec; [done|]. apply wp_bind, wp_root_drop.
  match goal with |- wp _ _ ?s0 => set (s1 := s0) end. cbn [t_root set_t_root_latch].
  assert (cleared (tour s B) 0 s1) as HC.
  { assert (∀ r, ¬ gone (tour s B) r) as HG by (unfold gone; naive_solver).
    split; try done; try (intros a; intros ?%HG; done).
    - by apply quiet_drop.
    - exists []. split_and!; [done|constructor|]. intros n. rewrite elem_of_nil. split; [done|apply HG].
    - exists []. split_and!; [done|constructor|]. intros n. rewrite elem_of_nil. split; [done|apply HG].
    - pose proof (tour_leaves_perm s B m P W) as E. unfold tour_leaves in E. unfold total_in. rewrite E. lia. }
  assert (∀ total s2, cleared [] total s2 → wf s2 ∅ ∅ P ∧ t_len s2 = t_len s ∧ t_owned s2 = t_owned s ∧ t_stripe s2 = t_stripe s ∧
    (∀ k l, m !! k = Some l → t_leaves s2 !! l = snd ∘ cl <$> t_leaves s !! l) ∧
    (∀ l, (∀ k, m !! k ≠ Some l) → t_leaves s2 !! l = t_leaves s !! l) ∧ total = whole) as Hend.
  { intros total s2 C. destruct (cl_frame _ _ _ C) as (F1 & F2 & F3). split_and!; [by eapply wf_cleared|done..| | |].
    - intros k l Hk. apply C. split; [eapply tour_leaf; eauto|apply not_elem_of_nil].
    - intros l Hl. apply C. intros [[k Hk]%(tour_leaf s B m P W) _]. by apply (Hl k).
    - rewrite (cl_total _ _ _ C). cbn. lia. }
  destruct (is_null (t_root s)) eqn:ER.
  - assert (t_root s = Null) as E0 by (by destruct (t_root s)). apply wp_ret.
    assert (tour s B = []) as ET by (unfold tour; by rewrite E0). rewrite ET in HC.
    destruct (Hend _ _ HC) as (H1 & H2 & H3 & H4 & H5 & H6 & H7). split; try done. by rewrite H2, <- H7.
  - assert (t_root s ≠ Null) as E0 by (by destruct (t_root s)). apply wp_bind.
    eapply (wp_loop (λ (st : list raw * Z) s2, Forall (tree_slot s B) st.1 ∧ Null ∉ st.1 ∧ NoDup (rest_of s B st.1) ∧ cleared (rest_of s B st.1) st.2 s2)
      (λ st, length (rest_of s B st.1))).
    + intros [work total] s2 (H1 & H2 & H3 & H4). eapply wp_mono; [by apply clear_turn_spec|].
      intros [[work' total']|total'] s3; [done|]. intros C. destruct (Hend _ _ C) as (X1 & X2 & X3 & X4 & X5 & X6 & X7).
      apply wp_len_add. split; cbn; try done.
      * by apply wf_len_add.
      * unfold counted. by rewrite X2, X4, X7.
    + split_and!; cbn [fst snd]; rewrite ?rest_of_root.
      * apply Forall_singleton, tree_slot_root.
      * set_solver.
      * by eapply tour_NoDup.
      * done.
    + cbn [fst]. rewrite rest_of_root. pose proof (tour_length s B m P W). lia.
Qed.

End clear.

Implicit Types stk : list (raw * nat * option byte).

(** ** Validation *)

(** A stack entry leads to a slot of the tree: the walk's path, cut at the
    entry's depth, and its byte are the slot's path. *)
Definition entry_ok (π : path) (e : raw * nat * option byte) : Prop :=
  let '(r, d, b) := e in
  (d <= length π)%nat ∧ (r = Null ∨ tree_edges s B (take d π ++ from_option (λ b, [b]) [] b) false r).

(** The depths go down the stack. *)
Definition stack_ok (π : path) (stk : list (raw * nat * option byte)) : Prop :=
  Forall (entry_ok π) stk ∧ StronglySorted (λ e e', (e'.1.2 <= e.1.2)%nat) stk.

Definition stack_rest (stk : list (raw * nat * option byte)) : list raw := rest_of s B (stk.*1.*1).

Lemma stack_tail (π : path) r d b stk (ext : path) : stack_ok π ((r, d, b) :: stk) → stack_ok (take d π ++ ext) stk.
Proof.
  intros [[[Hd _] HF]%Forall_cons [Hlt HS]%StronglySorted_cons]. split; [|done].
  rewrite Forall_forall in HF, Hlt |- *. intros [[r' d'] b'] He. pose proof (HF _ He) as [Hd' He'].
  specialize (Hlt _ He). cbn in Hlt. split; [rewrite length_app, length_take; lia|].
  rewrite take_app_le by (rewrite length_take; lia). rewrite take_take, Nat.min_l by lia. done.
Qed.

Lemma stack_push (q : path) nd stk : stack_ok q stk →
  (∀ b c, (b, c) ∈ for_each_child nd → tree_edges s B ((q ++ pfx nd) ++ [b]) false c) →
  stack_ok (q ++ pfx nd) (((λ '(b, c), (c, length (q ++ pfx nd), Some b)) <$> for_each_child nd) ++ stk).
Proof.
  intros HS HX. assert (stack_ok (q ++ pfx nd) stk) as [HF Hst].
  { destruct HS as [HF Hst]. split; [|done]. rewrite Forall_forall in HF |- *. intros [[r d] b] He.
    pose proof (HF _ He) as [Hd Hr]. split; [rewrite length_app; lia|]. by rewrite take_app_le. }
  split.
  - apply Forall_app. split; [|done]. apply Forall_forall. intros e ([b c] & -> & Hbc)%list_elem_of_fmap.
    split; [lia|right]. rewrite take_ge by lia. by apply HX.
  - apply StronglySorted_app_2; [| |done].
    + intros e [[r d] b] ([b' c] & -> & Hbc)%list_elem_of_fmap He. rewrite Forall_forall in HF. by destruct (HF _ He).
    + generalize (for_each_child nd). intros l. induction l as [|[b c] l IH]; [constructor|].
      rewrite fmap_cons. apply StronglySorted_cons. split; [|done]. apply Forall_forall.
      intros e ([b' c'] & -> & _)%list_elem_of_fmap. done.
Qed.

Lemma bytes_sorted_true last es : es_sorted es → (∀ l b c, last = Some l → (b, c) ∈ es → b2z l < b2z b) →
  bytes_sorted last es = true.
Proof.
  revert last. induction es as [|[b c] es IH]; intros last Hs Hl; [done|].
  apply StronglySorted_cons in Hs as [Hb Hs]. cbn. rewrite IH; [|done|].
  - destruct last as [l|]; [|done]. rewrite andb_true_r. apply Z.ltb_lt. eapply Hl; [done|]. by left.
  - intros l b' c' [= <-] He. rewrite Forall_forall in Hb. by apply Hb in He.
Qed.

(** What the callback counts. *)
Context (live : loc → prog L Z) (w : L → Z).
Context (Hlive : ∀ k l x (Q : Z → RawTree L St → Prop), m !! k = Some l → t_leaves s !! l = Some x → Q (w x) s → wp (live l) Q s).

(** The leaves found and those to come are all the leaves. *)
Definition counted_ok (va : Validation) (rem : list raw) : Prop :=
  va_count va = Z.of_nat (size m) - Z.of_nat (length (leaves_in rem)) ∧
  va_live va = total_in w s m - sum_by (weigh w s) (leaves_in rem).

Lemma validate_leaf_spec l k (fit : list byte → bool) va (Q : Validation → RawTree L St → Prop) :
  live_key s l = Some k → m !! k = Some l → fit k = true →
  Q {| va_path := va_path va; va_count := va_count va + 1; va_live := va_live va + weigh w s l |} s →
  wp (validate_leaf live (LeafAt l) fit va) Q s.
Proof using Hlive.
  intros Hk Hm Hf HQ. pose proof Hk as (x & Hx & Hrm & Hkx)%live_key_Some. unfold validate_leaf.
  apply wp_bind, wp_leaf_ref, wp_bind. eapply wp_leaf_read; [done|]. rewrite Hrm. apply wp_bind, wp_ret, wp_bind.
  eapply wp_leaf_key; [done|]. apply wp_bind. rewrite Hf. apply wp_ret, wp_bind. eapply Hlive; [done..|].
  unfold weigh in HQ. rewrite Hx in HQ. by apply wp_ret.
Qed.

Lemma not_emptied nd : node_ok nd → nonempty nd → emptied_by nd Nothing = false.
Proof.
  intros Ho Hne. apply not_true_is_false. intros [H1 H2]%emptied_by_spec; [|done..].
  destruct Hne as [[b [c Hb]]|Hx].
  - specialize (H1 b). rewrite Hb in H1. by specialize (H1 ltac:(done)).
  - by specialize (H2 Hx).
Qed.

Context (HE : ∀ n : loc, n ∉ exempt).

Lemma validate_node_spec n q va stk :
  tree_edges s B q false (NodeAt n) → va_path va = q →
  counted_ok va (visit (nodes_of s) B (NodeAt n) ++ stack_rest stk) →
  wp (validate_node live n va) (λ r s', s' = s ∧
    ∃ ob, t_nodes s !! n = Some ob ∧ va_path r.2 = q ++ pfx (o_node ob) ∧
      r.1 = (λ '(b, c), (c, length (va_path r.2), Some b)) <$> for_each_child (o_node ob) ∧
      counted_ok r.2 (rest_of s B (for_each_child (o_node ob)).*2 ++ stack_rest stk) ∧
      (∀ b c, (b, c) ∈ for_each_child (o_node ob) → tree_edges s B (va_path r.2 ++ [b]) false c)) s.
Proof.
  intros E Hq [HC HL]. destruct (tree_slot_node n) as (p & ob & Hp & Hob & Ho & Hqt & Hv & Hs); [right; eauto|].
  destruct (eo_node _ _ _ _ (wf_edges _ _ _ _ W) _ _ _ E) as [_ Hn]. simplify_eq.
  assert (nodes_of s !! n = Some (o_node ob)) as Hnd by (apply nodes_of_Some; eauto).
  assert (nonempty (o_node ob)) as Hne.
  { destruct (wf_nodes _ _ _ _ W n) as [ob' ? _ _ _ _ _ Hne| | |]; [|congruence..]. simplify_eq. by apply Hne. }
  unfold validate_node. apply wp_bind. eapply wp_is_obsolete; [done|]. rewrite quiet_not_obsolete by done.
  apply wp_bind, wp_ret, wp_bind. eapply wp_read_version; [done..|]. apply wp_bind, wp_ret, wp_bind.
  eapply wp_node_read; [done|]. rewrite raw_prefix_len_spec by done. apply wp_bind.
  pose proof (prefix_len_max _ Ho). rewrite (proj2 (Z.leb_le _ _)) by lia. apply wp_ret, wp_bind.
  eapply wp_node_read; [done|]. apply wp_bind. rewrite not_emptied by done. apply wp_ret, wp_bind.
  eapply wp_node_read; [done|]. cbv zeta. fold (pfx (o_node ob)). apply wp_bind. eapply wp_node_read; [done|]. apply wp_bind.
  set (π := va_path va ++ pfx (o_node ob)) in *.
  rewrite Hv in HC, HL. unfold slots in HC, HL. rewrite rest_of_cons in HC, HL.
  assert (∀ va', va_path va' = π → counted_ok va' (rest_of s B (for_each_child (o_node ob)).*2 ++ stack_rest stk) →
    wp (num ← trigger (NodeRead n num_children); children ← trigger (NodeRead n for_each_child);
        _ ← debug_assert (bytes_sorted None children); _ ← debug_assert (bool_decide (length children = num));
        mret (map (λ '(b, c), (c, length π, Some b)) children, va'))
      (λ r s', s' = s ∧ ∃ ob, t_nodes s !! n = Some ob ∧ va_path r.2 = va_path va ++ pfx (o_node ob) ∧
        r.1 = (λ '(b, c), (c, length (va_path r.2), Some b)) <$> for_each_child (o_node ob) ∧
        counted_ok r.2 (rest_of s B (for_each_child (o_node ob)).*2 ++ stack_rest stk) ∧
        (∀ b c, (b, c) ∈ for_each_child (o_node ob) → tree_edges s B (va_path r.2 ++ [b]) false c)) s) as Hend.
  { intros va' Hpath HC'. apply wp_bind. eapply wp_node_read; [done|]. apply wp_bind. eapply wp_node_read; [done|].
    destruct (num_children_spec _ Ho) as [EN _]. rewrite child_count_length, <- for_each_child_list in EN by done.
    apply wp_bind. rewrite bytes_sorted_true; [|rewrite for_each_child_list by done; apply children_list_sorted|done].
    apply wp_ret, wp_bind. rewrite bool_decide_true by done. apply wp_ret, wp_ret. split; [done|]. exists ob. cbn [fst snd].
    rewrite Hpath. split_and!; [done..|]. intros b c Hbc. rewrite for_each_child_list, elem_of_children_list in Hbc by done.
    unfold π. rewrite <- (assoc_L (++)). by apply edge_child with n. }
  destruct (exact_is_null_or_leaf n _ _ Hp Hob) as [HX|[l HX]]; rewrite HX in HC, HL |- *; cbn [is_null raw_slot negb].
  - apply wp_ret. apply Hend; [done|]. split; [exact HC|exact HL].
  - apply wp_bind. apply wp_ret.
    assert (tree_edges s B π true (LeafAt l)) as EL.
    { rewrite <- HX. apply edge_exact with n; [done..|by rewrite HX]. }
    destruct (eo_leaf _ _ _ _ (wf_edges _ _ _ _ W) _ _ _ EL) as (k & Hk & ->).
    eapply validate_leaf_spec; [done|apply (wf_map _ _ _ _ W); eauto|by rewrite bool_decide_true|].
    change (visit _ _ (LeafAt l)) with [LeafAt l] in HC, HL. cbn [app] in HC, HL. rewrite leaves_in_node, leaves_in_leaf in HC, HL.
    apply Hend; [done|].
    split; cbn [va_count va_live]; [rewrite HC|rewrite HL]; cbn [length sum_by]; lia.
Qed.

Lemma validate_turn_spec stk va : stack_ok (va_path va) stk → counted_ok va (stack_rest stk) →
  wp (validate_turn live (stk, va)) (λ r s', s' = s ∧ match r with
    | Continue (stk', va') => (stack_ok (va_path va') stk' ∧ counted_ok va' (stack_rest stk')) ∧
        (walk_cost (stk'.*1.*1) < walk_cost (stk.*1.*1))%nat
    | Break va' => counted_ok va' []
    end) s.
Proof.
  intros HS HC. destruct stk as [|[[r d] b] stk]; [by apply wp_ret|]. cbn [validate_turn].
  pose proof HS as [[[Hd Hr] _]%Forall_cons _].
  set (q := take d (va_path va) ++ from_option (λ b, [b]) [] b) in *.
  pose proof (stack_tail _ _ _ _ _ (from_option (λ b, [b]) [] b) HS) as HT. fold q in HT.
  cbn [fmap list_fmap fst]. rewrite walk_cost_cons. unfold stack_rest in HC. cbn [fmap list_fmap fst] in HC.
  rewrite rest_of_cons in HC. destruct r as [|l|n].
  - apply wp_ret. split_and!; [done..|]. rewrite decide_True by done. lia.
  - destruct Hr as [|Hr]; [done|]. destruct (eo_leaf _ _ _ _ (wf_edges _ _ _ _ W) _ _ _ Hr) as (k & Hk & F).
    apply wp_bind. eapply validate_leaf_spec; [done|apply (wf_map _ _ _ _ W); eauto|by apply bool_decide_eq_true|]. apply wp_ret.
    change (visit _ _ _) with [LeafAt l] in HC |- *. split_and!; [done..| |cbn [length]; lia].
    destruct HC as [HC HL]. cbn [app] in HC, HL. rewrite leaves_in_leaf in HC, HL.
    split; cbn [va_count va_live]; [rewrite HC|rewrite HL]; cbn [length sum_by]; unfold stack_rest; lia.
  - destruct Hr as [|Hr]; [done|]. apply wp_bind. eapply wp_mono.
    { apply (validate_node_spec n q _ stk); [done..|]. exact HC. }
    intros [children va'] ? (-> & ob & Hob & Hp & Ech & HC' & HX). cbn [fst snd] in *. subst children. apply wp_ret.
    set (π := va_path va') in *.
    assert (((λ '(b, c), (c, length π, Some b)) <$> for_each_child (o_node ob)).*1.*1 = (for_each_child (o_node ob)).*2) as EC.
    { rewrite <- !list_fmap_compose. apply list_fmap_ext. by intros ? []. }
    destruct (tree_slot_node n) as (p & ob' & _ & Hob' & Ho & _ & Hv & _); [right; eauto|]. simplify_eq.
    split_and!; [done| | |].
    + rewrite Hp. apply stack_push; [done|]. rewrite <- Hp. apply HX.
    + unfold stack_rest in *. by rewrite !fmap_app, EC, rest_of_app.
    + rewrite !fmap_app, EC, walk_cost_app, Hv, decide_False by done.
      assert (filter (.= Null) (for_each_child (o_node ob)).*2 = []) as EN.
      { apply list_nil_subseteq. intros c [-> Hc]%list_elem_of_filter. by apply child_not_null in Hc. }
      unfold walk_cost at 1. rewrite EN. unfold slots. rewrite rest_of_cons. cbn [length]. rewrite length_app. lia.
Qed.

(** Validation accepts a tree at rest, and returns the number of its leaves. *)
Lemma validate_spec fuel : (2 * (size (t_nodes s) + size (t_leaves s)) + 1 < fuel)%nat →
  Counter.sum (t_len s) = total_in w s m → 0 <= total_in w s m →
  wp (validate_counting live fuel) (λ n s', s' = s ∧ n = Z.of_nat (size m)) s.
Proof.
  intros Hf Hlen Hpos. unfold validate_counting. apply wp_bind, wp_root, wp_bind.
  eapply (wp_loop (λ st s', s' = s ∧ stack_ok (va_path st.2) st.1 ∧ counted_ok st.2 (stack_rest st.1))
    (λ st, walk_cost (st.1.*1.*1))).
  - intros [stk va] ? (-> & H1 & H2). eapply wp_mono; [by apply validate_turn_spec|].
    intros [[stk' va']|va'] ? [-> HX]; [naive_solver|]. destruct HX as [X1 X2].
    cbn in X1. apply wp_bind. eapply wp_exec; [done|]. apply wp_bind. rewrite Hlen, X2. cbn [leaves_in omap list_omap sum_by].
    rewrite (proj2 (Z.eqb_eq _ _)) by lia. apply wp_ret, wp_ret. split; [done|]. rewrite X1. cbn. lia.
  - split_and!; [done| |].
    + split; [|repeat constructor]. apply Forall_singleton. split; [cbn; lia|].
      destruct (decide (t_root s = Null)) as [->|Hne]; [by left|right]. by left.
    + pose proof (tour_leaves_perm s B m P W) as EL. unfold tour_leaves in EL.
      split; cbn [va_count va_live snd fst stack_rest]; [|unfold stack_rest; cbn [fmap list_fmap fst]; rewrite rest_of_root; unfold total_in; rewrite EL; lia]. unfold stack_rest. cbn [fmap list_fmap fst].
      rewrite rest_of_root. pose proof (tour_count s B m P W) as E. unfold tour_leaves in E. rewrite E. lia.
  - pose proof (tour_length s B m P W) as HT. unfold tour in HT. cbn [fst fmap list_fmap].
    rewrite walk_cost_cons. change (walk_cost []) with 0%nat. case_decide; lia.
Qed.
End tree.
End walks.
