(* ===== verification/Cursor.v ===== *)
(** * The validated iterator cursor ([src/raw/cursor.rs])

    A double-ended cursor over a key range: [seek] positions an end, [step]
    gathers a validated batch of leaves or moves to another node, [advance]
    yields a leaf after checking it against the far bound and the other end.
    Every operation returns the side it changed beside its result. *)

From S2P Require Import Prelude Bytes Latch Slot Bits Node Free Mem Raw Read.
Local Open Scope Z_scope.

(** ** Keys and bounds *)

(** An owned key, inline up to 32 bytes. *)
Inductive KeyBuf :=
| Inline (bytes : list byte) (len : Z)   (** [[u8; 32]], [u8] *)
| Heap (bytes : list byte).

Definition keybuf_new (bytes : list byte) : KeyBuf :=
  if decide (length bytes <= 32)%nat
  then Inline (bytes ++ replicate (32 - length bytes) Byte.x00) (Z.of_nat (length bytes) mod 256)
  else Heap bytes.

Definition keybuf_as_slice (k : KeyBuf) : list byte :=
  match k with Inline b len => take (Z.to_nat len) b | Heap b => b end.

Inductive Bound (A : Type) := Included (k : A) | Excluded (k : A) | Unbounded.
Arguments Included {A}. Arguments Excluded {A}. Arguments Unbounded {A}.

Definition owned_bound (b : Bound (list byte)) : Bound KeyBuf :=
  match b with
  | Included k => Included (keybuf_new k)
  | Excluded k => Excluded (keybuf_new k)
  | Unbounded => Unbounded
  end.

Inductive Dir := Forward | Backward.

#[export] Instance dir_eq_dec : EqDecision Dir.
Proof. solve_decision. Defined.

Definition is_ge (c : comparison) : bool := match c with Lt => false | _ => true end.
Definition is_gt (c : comparison) : bool := match c with Gt => true | _ => false end.
Definition is_le (c : comparison) : bool := match c with Gt => false | _ => true end.
Definition is_lt (c : comparison) : bool := match c with Lt => true | _ => false end.

Definition above_start (k : list byte) (start : Bound KeyBuf) : bool :=
  match start with
  | Included s => is_ge (cmp_keys k (keybuf_as_slice s))
  | Excluded s => is_gt (cmp_keys k (keybuf_as_slice s))
  | Unbounded => true
  end.

Definition below_end (k : list byte) (end_ : Bound KeyBuf) : bool :=
  match end_ with
  | Included e => is_le (cmp_keys k (keybuf_as_slice e))
  | Excluded e => is_lt (cmp_keys k (keybuf_as_slice e))
  | Unbounded => true
  end.

(** ** Frames and stacks *)

Record CursorFrame := { cf_node : raw; cf_version : Z; cf_next : Z; cf_exact : bool }.

Definition INLINE_FRAMES : nat := 12.

(** A stack of frames, inline for the common depths. *)
Record Stack := { st_inline : list (option CursorFrame); st_len : nat; st_spill : list CursorFrame }.

Definition stack_new : Stack :=
  {| st_inline := replicate INLINE_FRAMES None; st_len := 0; st_spill := [] |}.

Definition stack_clear (s : Stack) : Stack :=
  {| st_inline := st_inline s; st_len := 0; st_spill := [] |}.

Definition stack_push (s : Stack) (f : CursorFrame) : Stack :=
  if decide (st_len s < INLINE_FRAMES)%nat then
    {| st_inline := <[st_len s := Some f]> (st_inline s); st_len := S (st_len s); st_spill := st_spill s |}
  else {| st_inline := st_inline s; st_len := S (st_len s); st_spill := st_spill s ++ [f] |}.

Definition stack_pop (s : Stack) : Stack :=
  {| st_inline := st_inline s; st_len := pred (st_len s);
     st_spill := if decide (INLINE_FRAMES < st_len s)%nat then removelast (st_spill s) else st_spill s |}.

Definition stack_top (s : Stack) : option CursorFrame :=
  match st_len s with
  | O => None
  | S n => if decide (S n <= INLINE_FRAMES)%nat then mjoin (st_inline s !! n) else last (st_spill s)
  end.

(** A store through the [&mut] of [top]. *)
Definition stack_set_top (s : Stack) (f : CursorFrame) : Stack :=
  match st_len s with
  | O => s
  | S n =>
    if decide (S n <= INLINE_FRAMES)%nat then
      {| st_inline := <[n := Some f]> (st_inline s); st_len := st_len s; st_spill := st_spill s |}
    else {| st_inline := st_inline s; st_len := st_len s; st_spill := removelast (st_spill s) ++ [f] |}
  end.

(** ** Ends *)

Definition BATCH : nat := 16.

(** Where an end of the cursor resumes from. *)
Inductive Resume := ResumeLeaf (l : loc) | ResumeKey (k : KeyBuf).

Record Side := {
  sd_stack : Stack;
  sd_pending : option raw;
  sd_batch : list raw;
  sd_batch_len : nat;
  sd_batch_pos : nat;
  sd_batch_in_range : bool;
  sd_last : option Resume;
  sd_positioned : bool;
}.

Definition side_new : Side :=
  {| sd_stack := stack_new; sd_pending := None; sd_batch := replicate BATCH Null; sd_batch_len := 0;
     sd_batch_pos := 0; sd_batch_in_range := false; sd_last := None; sd_positioned := false |}.

Definition side_reset (s : Side) : Side :=
  {| sd_stack := stack_clear (sd_stack s); sd_pending := None; sd_batch := sd_batch s; sd_batch_len := 0;
     sd_batch_pos := 0; sd_batch_in_range := false; sd_last := sd_last s; sd_positioned := sd_positioned s |}.

Definition side_set_stack (s : Side) (k : Stack) : Side :=
  {| sd_stack := k; sd_pending := sd_pending s; sd_batch := sd_batch s; sd_batch_len := sd_batch_len s;
     sd_batch_pos := sd_batch_pos s; sd_batch_in_range := sd_batch_in_range s; sd_last := sd_last s;
     sd_positioned := sd_positioned s |}.
Definition side_set_pending (s : Side) (r : option raw) : Side :=
  {| sd_stack := sd_stack s; sd_pending := r; sd_batch := sd_batch s; sd_batch_len := sd_batch_len s;
     sd_batch_pos := sd_batch_pos s; sd_batch_in_range := sd_batch_in_range s; sd_last := sd_last s;
     sd_positioned := sd_positioned s |}.
Definition side_set_batch (s : Side) (batch : list raw) (len pos : nat) (in_range : bool) : Side :=
  {| sd_stack := sd_stack s; sd_pending := sd_pending s; sd_batch := batch; sd_batch_len := len;
     sd_batch_pos := pos; sd_batch_in_range := in_range; sd_last := sd_last s;
     sd_positioned := sd_positioned s |}.
Definition side_set_last (s : Side) (r : option Resume) : Side :=
  {| sd_stack := sd_stack s; sd_pending := sd_pending s; sd_batch := sd_batch s; sd_batch_len := sd_batch_len s;
     sd_batch_pos := sd_batch_pos s; sd_batch_in_range := sd_batch_in_range s; sd_last := r;
     sd_positioned := sd_positioned s |}.
Definition side_set_positioned (s : Side) (b : bool) : Side :=
  {| sd_stack := sd_stack s; sd_pending := sd_pending s; sd_batch := sd_batch s; sd_batch_len := sd_batch_len s;
     sd_batch_pos := sd_batch_pos s; sd_batch_in_range := sd_batch_in_range s; sd_last := sd_last s;
     sd_positioned := b |}.

Definition side_push (s : Side) (f : CursorFrame) : Side := side_set_stack s (stack_push (sd_stack s) f).

(** One leaf of the batch is taken. *)
Definition side_advance_batch (s : Side) : Side :=
  side_set_batch s (sd_batch s) (sd_batch_len s) (S (sd_batch_pos s)) (sd_batch_in_range s).

Record CursorState := {
  cu_start : Bound KeyBuf;
  cu_end : Bound KeyBuf;
  cu_front : Side;
  cu_back : Side;
  cu_done : bool;
}.

Definition cursor_new (start end_ : Bound KeyBuf) : CursorState :=
  {| cu_start := start; cu_end := end_; cu_front := side_new; cu_back := side_new; cu_done := false |}.

Definition cu_side (c : CursorState) (dir : Dir) : Side :=
  match dir with Forward => cu_front c | Backward => cu_back c end.
Definition cu_other (c : CursorState) (dir : Dir) : Side :=
  match dir with Forward => cu_back c | Backward => cu_front c end.
Definition cu_set_side (c : CursorState) (dir : Dir) (s : Side) : CursorState :=
  match dir with
  | Forward => {| cu_start := cu_start c; cu_end := cu_end c; cu_front := s; cu_back := cu_back c; cu_done := cu_done c |}
  | Backward => {| cu_start := cu_start c; cu_end := cu_end c; cu_front := cu_front c; cu_back := s; cu_done := cu_done c |}
  end.
Definition cu_finish (c : CursorState) : CursorState :=
  {| cu_start := cu_start c; cu_end := cu_end c; cu_front := cu_front c; cu_back := cu_back c; cu_done := true |}.

(** A frame positioned before the first (forward) or after the last
    (backward) entry of a node. *)
Definition edge_frame (node : raw) (version : Z) (dir : Dir) : CursorFrame :=
  {| cf_node := node; cf_version := version;
     cf_next := match dir with Forward => 0 | Backward => 255 end; cf_exact := true |}.

Inductive Step := StepLeaf (r : raw) | StepBatch (r : raw) | StepEnd | StepInvalid.

Section cursor.
Context {L : Type} `{LeafNode L}.
Abbreviation prog := (prog L).

Definition resume_key (r : Resume) : prog (list byte) :=
  match r with ResumeLeaf l => leaf_key l | ResumeKey k => mret (keybuf_as_slice k) end.

(** ** Positioning *)

(** Whether the root leaf satisfies the bound. *)
Definition seek_takes (bound : Bound KeyBuf) (dir : Dir) (k : list byte) : bool :=
  match bound, dir with
  | Unbounded, _ => true
  | Included b, Forward => is_ge (cmp_keys k (keybuf_as_slice b))
  | Excluded b, Forward => is_gt (cmp_keys k (keybuf_as_slice b))
  | Included b, Backward => is_le (cmp_keys k (keybuf_as_slice b))
  | Excluded b, Backward => is_lt (cmp_keys k (keybuf_as_slice b))
  end.

(** [k > key || (inclusive && k == key)], or the mirror image. *)
Definition seek_takes_leaf (key : list byte) (inclusive : bool) (dir : Dir) (k : list byte) : bool :=
  match lex_cmp k key, dir with
  | Gt, Forward | Lt, Backward => true
  | Eq, _ => inclusive
  | _, _ => false
  end.

Definition seek_state : Type := SpinBackoff * Side.

(** R4: couple to the frame above, or re-check the root. *)
Definition seek_coupled (s : Side) (node_raw : raw) : prog bool :=
  match stack_top (sd_stack s) with
  | Some p => n ← node_ref (cf_node p); node_validate n (cf_version p)
  | None => r ← root; mret (bool_decide (r = node_raw))
  end.

(** The frame of a node whose child at [byte] was followed. *)
Definition seek_frame (node : raw) (v : Z) (byte : byte) (dir : Dir) : CursorFrame :=
  match dir with
  | Forward => {| cf_node := node; cf_version := v; cf_next := b2z byte + 1; cf_exact := false |}
  | Backward => {| cf_node := node; cf_version := v; cf_next := b2z byte - 1; cf_exact := true |}
  end.

Definition seek_turn (key : list byte) (inclusive : bool) (dir : Dir) (b : SpinBackoff) (c : Side * raw * nat)
    : prog (flow (Side * raw * nat) (flow seek_state Side)) :=
  let '(s, node_raw, depth) := c in
  let retry b := mret (Break (Continue (b, s))) in
  node ← node_ref node_raw;
  v ← node_read_version node;
  match v with
  | None => retry (spin b).2
  | Some v =>
    coupled ← seek_coupled s node_raw;
    if negb coupled then retry b
    else
      prefix ← trigger (NodeRead node load_prefix);
      let rest := key_from key depth in
      let m := common_prefix (as_slice prefix) rest in
      if decide (m < ps_len prefix)%nat then
        let subtree_after_key := bool_decide (m = length rest) || (b2z (rest !!! m) <? b2z (ps_bytes prefix !!! m)) in
        ok ← node_validate node v;
        if negb ok then retry b
        else mret (Break (Break (if bool_decide (subtree_after_key = bool_decide (dir = Forward))
                                 then side_push s (edge_frame node_raw v dir) else s)))
      else
        let node_depth := (depth + ps_len prefix)%nat in
        if decide (node_depth = length key) then
          ok ← node_validate node v;
          if negb ok then retry b
          else mret (Break (Break (side_push s
            {| cf_node := node_raw; cf_version := v;
               cf_next := match dir with Forward => 0 | Backward => -1 end; cf_exact := inclusive |})))
        else
          byte ← expect (key !! node_depth);
          child ← trigger (NodeRead node (λ nd, find_child nd byte));
          ok ← node_validate node v;
          if negb ok then retry b
          else
            let s := side_push s (seek_frame node_raw v byte dir) in
            match child with
            | None => mret (Break (Break s))
            | Some c =>
              if is_leaf c then
                l ← leaf_ref c;
                k ← leaf_key l;
                mret (Break (Break (
                  if seek_takes_leaf key inclusive dir k then
                    match stack_top (sd_stack s) with
                    | Some top => side_set_stack s (stack_set_top (sd_stack s)
                        {| cf_node := cf_node top; cf_version := cf_version top; cf_next := b2z byte;
                           cf_exact := cf_exact top |})
                    | None => s
                    end
                  else s)))
              else mret (Continue (s, c, S node_depth))
            end
  end.

Definition seek_attempt (bound : Bound KeyBuf) (dir : Dir) (st : seek_state) : prog (flow seek_state Side) :=
  let '(b, s) := st in
  let s := side_reset s in
  root ← root;
  match root with
  | Null => mret (Break s)
  | LeafAt l =>
    k ← leaf_key l;
    mret (Break (if seek_takes bound dir k then side_set_pending s (Some root) else s))
  | NodeAt _ =>
    match bound with
    | Unbounded =>
      node ← node_ref root;
      v ← node_read_version node;
      match v with
      | None => mret (Continue ((spin b).2, s))
      | Some v =>
        r ← Raw.root;
        if bool_decide (r = root) then mret (Break (side_push s (edge_frame root v dir)))
        else mret (Continue (b, s))
      end
    | Included k | Excluded k =>
      let inclusive := match bound with Included _ => true | _ => false end in
      let key := keybuf_as_slice k in
      loop (S (length key)) (seek_turn key inclusive dir b) (s, root, 0%nat)
    end
  end.

Definition seek (retries : nat) (s : Side) (bound : Bound KeyBuf) (dir : Dir) : prog Side :=
  loop retries (seek_attempt bound dir) (backoff_new, s).

(** ** Steps *)

(** Gathers consecutive leaf children from [next] on, stopping before an inner
    child: the batch with its length, the first entry if it is an inner
    child, and the new position. *)
Fixpoint gather (fuel : nat) (node : loc) (dir : Dir) (batch : list raw) (n : nat) (next : Z)
    : prog (list raw * nat * option raw * Z) :=
  match fuel with
  | O => OutOfFuel
  | S fuel =>
    found ← match dir with
            | Forward => if next <=? 255 then trigger (NodeRead node (λ nd, next_child nd next)) else mret None
            | Backward => if 0 <=? next then trigger (NodeRead node (λ nd, prev_child nd (z2b next))) else mret None
            end;
    match found with
    | None => mret (batch, n, None, next)
    | Some (byte, child) =>
      let after := match dir with Forward => b2z byte + 1 | Backward => b2z byte - 1 end in
      if is_leaf child then
        let batch := <[n := child]> batch in
        if decide (S n = BATCH) then mret (batch, S n, None, after)
        else gather fuel node dir batch (S n) after
      else if decide (n = 0%nat) then mret (batch, n, Some child, after)
      else mret (batch, n, None, next)
    end
  end.

Definition set_next (f : CursorFrame) (next : Z) : CursorFrame :=
  {| cf_node := cf_node f; cf_version := cf_version f; cf_next := next; cf_exact := cf_exact f |}.
Definition set_visited (f : CursorFrame) : CursorFrame :=
  {| cf_node := cf_node f; cf_version := cf_version f; cf_next := cf_next f; cf_exact := false |}.

(** One turn of the step, at the top frame. *)
Definition step_turn (dir : Dir) (s : Side) : prog (flow Side (Step * Side)) :=
  match stack_top (sd_stack s) with
  | None => mret (Break (StepEnd, s))
  | Some top =>
    node ← node_ref (cf_node top);
    let exact_now := match dir with Forward => cf_exact top | Backward => cf_exact top && (cf_next top <? 0) end in
    if exact_now then
      let s := side_set_stack s (stack_set_top (sd_stack s) (set_visited top)) in
      ex ← trigger (NodeRead node exact_leaf);
      ok ← node_validate node (cf_version top);
      if negb ok then mret (Break (StepInvalid, s))
      else if negb (is_null ex) then mret (Break (StepLeaf ex, s))
      else mret (Continue s)
    else
      '(batch, n, inner, next) ← gather (S BATCH) node dir (sd_batch s) 0 (cf_next top);
      match inner with
      | Some child =>
        let s := side_set_batch s batch (sd_batch_len s) (sd_batch_pos s) (sd_batch_in_range s) in
        let s := side_set_stack s (stack_set_top (sd_stack s) (set_next top next)) in
        cn ← node_ref child;
        cv ← node_read_version cn;
        match cv with
        | None => mret (Break (StepInvalid, s))
        | Some cv =>
          ok ← node_validate node (cf_version top);
          if negb ok then mret (Break (StepInvalid, s))
          else mret (Continue (side_push s (edge_frame child cv dir)))
        end
      | None =>
        let s := side_set_batch s batch (sd_batch_len s) (sd_batch_pos s) (sd_batch_in_range s) in
        ok ← node_validate node (cf_version top);
        if negb ok then mret (Break (StepInvalid, s))
        else
          let s := side_set_stack s (stack_set_top (sd_stack s) (set_next top next)) in
          if decide (0 < n)%nat then
            mret (Break (StepBatch (batch !!! 0%nat), side_set_batch s batch n 1 false))
          else match dir with
               | Forward => mret (Continue (side_set_stack s (stack_pop (sd_stack s))))
               | Backward =>
                 if cf_exact top
                 then mret (Continue (side_set_stack s (stack_set_top (sd_stack s) (set_next top (-1)))))
                 else mret (Continue (side_set_stack s (stack_pop (sd_stack s))))
               end
      end
  end.

Definition step (fuel : nat) (s : Side) (dir : Dir) : prog (Step * Side) :=
  if decide (sd_batch_pos s < sd_batch_len s)%nat then
    mret (StepLeaf (sd_batch s !!! sd_batch_pos s), side_advance_batch s)
  else loop fuel (step_turn dir) s.

(** ** Yielding *)

Definition far_ok (c : CursorState) (dir : Dir) (k : list byte) : bool :=
  match dir with Forward => below_end k (cu_end c) | Backward => above_start k (cu_start c) end.

(** Checks a leaf against the far bound and the other end, then yields it. *)
Definition accept (c : CursorState) (dir : Dir) (leaf_raw : raw) : prog (option loc * CursorState) :=
  leaf ← leaf_ref leaf_raw;
  k ← leaf_key leaf;
  crossed ← match sd_last (cu_other c dir) with
            | None => mret false
            | Some r =>
              k' ← resume_key r;
              mret (match dir with Forward => is_ge (cmp_keys k k') | Backward => is_le (cmp_keys k k') end)
            end;
  if negb (far_ok c dir k) || crossed then mret (None, cu_finish c)
  else mret (Some leaf, cu_set_side c dir (side_set_last (cu_side c dir) (Some (ResumeLeaf leaf)))).

(** One turn of [advance_slow]. *)
Definition advance_turn (fuel : nat) (dir : Dir) (c : CursorState)
    : prog (flow CursorState (option loc * CursorState)) :=
  if cu_done c then mret (Break (None, c))
  else
    let s := cu_side c dir in
    s ← (if sd_positioned s then mret s
         else
           bound ← match sd_last s, dir with
                   | Some r, _ => k ← resume_key r; mret (Excluded (keybuf_new k))
                   | None, Forward => mret (cu_start c)
                   | None, Backward => mret (cu_end c)
                   end;
           s ← seek fuel s bound dir;
           mret (side_set_positioned s true));
    match sd_pending s with
    | Some l =>
      r ← accept (cu_set_side c dir (side_set_pending s None)) dir l; mret (Break r)
    | None =>
      '(st, s) ← step fuel s dir;
      match st with
      | StepLeaf l => r ← accept (cu_set_side c dir s) dir l; mret (Break r)
      | StepBatch l =>
        last ← leaf_ref (sd_batch s !!! (sd_batch_len s - 1)%nat);
        k ← leaf_key last;
        let s := side_set_batch s (sd_batch s) (sd_batch_len s) (sd_batch_pos s) (far_ok c dir k) in
        r ← accept (cu_set_side c dir s) dir l; mret (Break r)
      | StepEnd => mret (Break (None, cu_finish (cu_set_side c dir s)))
      | StepInvalid => mret (Continue (cu_set_side c dir (side_set_positioned s false)))
      end
    end.

Definition advance_slow (fuel : nat) (c : CursorState) (dir : Dir) : prog (option loc * CursorState) :=
  loop fuel (advance_turn fuel dir) c.

Definition advance (fuel : nat) (c : CursorState) (dir : Dir) : prog (option loc * CursorState) :=
  let s := cu_side c dir in
  if sd_batch_in_range s && bool_decide (sd_batch_pos s < sd_batch_len s)%nat
     && bool_decide (sd_last (cu_other c dir) = None :> option Resume) && bool_decide (sd_pending s = None)
     && sd_positioned s && negb (cu_done c)
  then
    leaf ← leaf_ref (sd_batch s !!! sd_batch_pos s);
    mret (Some leaf, cu_set_side c dir (side_set_last (side_advance_batch s) (Some (ResumeLeaf leaf))))
  else advance_slow fuel c dir.

Definition next (fuel : nat) (c : CursorState) : prog (option loc * CursorState) := advance fuel c Forward.
Definition next_back (fuel : nat) (c : CursorState) : prog (option loc * CursorState) := advance fuel c Backward.

(** ** Before a repin *)

Definition invalidate_side (s : Side) : prog Side :=
  let s := side_reset (side_set_positioned s false) in
  match sd_last s with
  | None => mret s
  | Some r => k ← resume_key r; mret (side_set_last s (Some (ResumeKey (keybuf_new k))))
  end.

Definition invalidate (c : CursorState) : prog CursorState :=
  f ← invalidate_side (cu_front c);
  b ← invalidate_side (cu_back c);
  mret (cu_set_side (cu_set_side c Forward f) Backward b).
End cursor.
