(* ===== verification/CursorSpec.v ===== *)
(** * The cursor yields its range in order

    The cursor of [Cursor.v] on a tree at rest. A side stands for the list of
    the leaves it has still to visit ([side_rest]): its pending leaf, the rest
    of its batch, and what its frames have not visited yet. [seek] makes that
    the part of the tour on the right side of the bound, and [step] takes the
    first leaf of it off. From this, [advance] is a double-ended queue over the
    leaves of the range: each end yields the next leaf from its side, and the
    two ends share the leaves without a gap or an overlap.

    The tree does not change meanwhile: both ends only read. [invalidate] may
    come in between at any point. *)

From stdpp Require Import sorting.
From S2P Require Import Prelude Bytes Latch Slot Bits Node NodeSpec NodeOps Free Mem Shape Raw Read Inv Descent Commit Update Pool Chain Commits Order Cursor.
Local Open Scope Z_scope.

#[local] Opaque all_bytes children_list INLINE_FRAMES.

(** ** Keys and bounds *)

Lemma keybuf_slice bytes : keybuf_as_slice (keybuf_new bytes) = bytes.
Proof.
  unfold keybuf_new. case_decide as D; cbn; [|done].
  rewrite Z.mod_small by lia. by rewrite Nat2Z.id, take_app_length.
Qed.

(** The order in which a direction meets the keys. *)
Definition ocmp (dir : Dir) (a b : list byte) : comparison :=
  match dir with Forward => lex_cmp a b | Backward => lex_cmp b a end.

(** Whether the walk in a direction meets [k] at or after the bound. *)
Definition reach (dir : Dir) (bound : Bound KeyBuf) (k : list byte) : bool :=
  match dir with Forward => above_start k bound | Backward => below_end k bound end.

Lemma ocmp_antisym dir a b : ocmp dir b a = CompOpp (ocmp dir a b).
Proof. destruct dir; apply lex_cmp_antisym. Qed.

Lemma ocmp_trans dir a b c : ocmp dir a b = Lt → ocmp dir b c = Lt → ocmp dir a c = Lt.
Proof. destruct dir; cbn; eauto using lex_cmp_trans. Qed.

Lemma ocmp_eq dir a b : ocmp dir a b = Eq ↔ a = b.
Proof. destruct dir; cbn; rewrite lex_cmp_eq; naive_solver. Qed.

Lemma reach_spec dir bound k : reach dir bound k =
  match bound with
  | Included b => is_le (ocmp dir (keybuf_as_slice b) k)
  | Excluded b => is_lt (ocmp dir (keybuf_as_slice b) k)
  | Unbounded => true
  end.
Proof.
  destruct dir, bound as [b|b|]; cbn; rewrite ?cmp_keys_lex; try done.
  all: rewrite (lex_cmp_antisym k); by destruct (lex_cmp k (keybuf_as_slice b)).
Qed.

(** What follows a key that is reached is reached. *)
Lemma reach_mono dir bound k k' : reach dir bound k = true → ocmp dir k k' = Lt → reach dir bound k' = true.
Proof.
  rewrite !reach_spec. intros H Hk. destruct bound as [b|b|]; [| |done].
  - destruct (ocmp dir (keybuf_as_slice b) k) eqn:E; cbn in H; [|by rewrite (ocmp_trans _ _ _ _ E Hk)|done].
    apply ocmp_eq in E as ->. by rewrite Hk.
  - destruct (ocmp dir (keybuf_as_slice b) k) eqn:E; cbn in H; [done| |done].
    by rewrite (ocmp_trans _ _ _ _ E Hk).
Qed.

Lemma seek_takes_reach bound dir k : seek_takes bound dir k = reach dir bound k.
Proof. by destruct bound, dir. Qed.

(** ** Stacks of frames *)

(** The frames, top first. *)
Definition stack_list (s : Stack) : list CursorFrame :=
  reverse (omap id (take (st_len s) (st_inline s)) ++ st_spill s).

Record stack_ok (s : Stack) : Prop := {
  so_inline : length (st_inline s) = INLINE_FRAMES;
  so_some i : (i < st_len s)%nat → (i < INLINE_FRAMES)%nat → ∃ f, st_inline s !! i = Some (Some f);
  so_spill : length (st_spill s) = (st_len s - INLINE_FRAMES)%nat;
}.

Lemma omap_id_snoc {A} (l : list (option A)) x : omap id (l ++ [Some x]) = omap id l ++ [x].
Proof. by rewrite omap_app. Qed.

Lemma stack_new_ok : stack_ok stack_new ∧ stack_list stack_new = [].
Proof. split; [split; cbn; [by rewrite length_replicate|intros; lia|done]|done]. Qed.

Lemma stack_clear_ok s : stack_ok s → stack_ok (stack_clear s) ∧ stack_list (stack_clear s) = [].
Proof. intros [H1 H2 H3]. split; [split; cbn; [done|intros; lia|done]|done]. Qed.

Lemma stack_push_ok s f : stack_ok s → stack_ok (stack_push s f) ∧ stack_list (stack_push s f) = f :: stack_list s.
Proof.
  intros [H1 H2 H3]. unfold stack_push. case_decide as D.
  - assert (st_spill s = []) as E by (apply nil_length_inv; lia). split.
    + split; cbn [st_inline st_len st_spill]; [by rewrite length_insert| |lia]. intros i Hi Hi2. destruct (decide (i = st_len s)) as [->|Hne].
      * exists f. by apply list_lookup_insert_eq; lia.
      * rewrite list_lookup_insert_ne by done. apply H2; lia.
    + unfold stack_list. cbn [st_inline st_len st_spill]. rewrite E, !app_nil_r. rewrite (take_S_r _ _ (Some f)) by (apply list_lookup_insert_eq; lia).
      rewrite take_insert_ge by lia. by rewrite omap_id_snoc, reverse_snoc.
  - split.
    + split; cbn [st_inline st_len st_spill]; [done| |rewrite length_app; cbn; lia]. intros i Hi Hi2. apply H2; lia.
    + unfold stack_list. cbn [st_len st_inline st_spill]. rewrite !take_ge by lia. rewrite (assoc_L (++)). apply reverse_snoc.
Qed.

(** A stack with a frame ends in it. *)
Lemma stack_split s n : stack_ok s → st_len s = S n → ∃ f,
  stack_top s = Some f ∧ stack_ok (stack_pop s) ∧ stack_list s = f :: stack_list (stack_pop s) ∧
  (∀ g, stack_ok (stack_set_top s g) ∧ stack_list (stack_set_top s g) = g :: stack_list (stack_pop s)).
Proof.
  intros [H1 H2 H3] Hn. rewrite Hn in H2, H3. unfold stack_top, stack_pop, stack_set_top. rewrite Hn. cbn [pred].
  destruct (decide (S n <= INLINE_FRAMES)%nat) as [D|D].
  - destruct (H2 n) as [f Hf]; [lia..|]. exists f. rewrite Hf. change (mjoin (Some (Some f))) with (Some f). rewrite decide_False by lia.
    assert (st_spill s = []) as E by (apply nil_length_inv; lia). split_and!; [done|split; cbn [st_inline st_len st_spill]; [done| |lia]| |].
    + intros i Hi Hi2. apply H2; lia.
    + unfold stack_list. cbn [st_inline st_len st_spill]. rewrite E, Hn, !app_nil_r, (take_S_r _ _ (Some f)) by done. by rewrite omap_id_snoc, reverse_snoc.
    + intros g. split; [split; cbn [st_inline st_len st_spill]; [by rewrite length_insert| |done]|].
      * intros i Hi Hi2. destruct (decide (i = n)) as [->|Hne]; [exists g; apply list_lookup_insert_eq; lia|].
        rewrite list_lookup_insert_ne by done. by apply H2.
      * unfold stack_list. cbn [st_inline st_len st_spill]. rewrite E, !app_nil_r. rewrite (take_S_r _ _ (Some g)) by (apply list_lookup_insert_eq; lia).
        rewrite take_insert_ge by lia. by rewrite omap_id_snoc, reverse_snoc.
  - destruct (st_spill s) as [|f l _] eqn:E using rev_ind; [cbn in H3; lia|].
    exists f. rewrite last_snoc, decide_True, removelast_last by lia. rewrite length_app in H3. cbn in H3.
    split_and!; [done|split; cbn [st_inline st_len st_spill]; [done| |lia]| |].
    + intros i Hi Hi2. apply H2; lia.
    + unfold stack_list. cbn [st_inline st_len st_spill]. rewrite E, Hn, !take_ge by lia. rewrite (assoc_L (++)). apply reverse_snoc.
    + intros g. split; [split; cbn [st_inline st_len st_spill]; [done|done|rewrite length_app; cbn; lia]|].
      unfold stack_list. cbn [st_inline st_len st_spill]. rewrite !take_ge by lia. rewrite (assoc_L (++)). apply reverse_snoc.
Qed.

(** On lists: the stack is its list. *)
Lemma stack_nil s : stack_ok s → stack_list s = [] → stack_top s = None.
Proof.
  intros Hs E. unfold stack_top. destruct (st_len s) as [|n] eqn:Hn; [done|].
  destruct (stack_split s n Hs Hn) as (f & _ & _ & E' & _). congruence.
Qed.

Lemma stack_cons s f fs : stack_ok s → stack_list s = f :: fs →
  stack_top s = Some f ∧ stack_ok (stack_pop s) ∧ stack_list (stack_pop s) = fs ∧
  ∀ g, stack_ok (stack_set_top s g) ∧ stack_list (stack_set_top s g) = g :: fs.
Proof.
  intros Hs E. destruct (st_len s) as [|n] eqn:Hn.
  - destruct Hs as [_ _ H3]. unfold stack_list in E. rewrite Hn in *. cbn in *.
    assert (st_spill s = []) as E2 by (apply nil_length_inv; lia). by rewrite E2 in E.
  - destruct (stack_split s n Hs Hn) as (f' & H1 & H2 & H3 & H4). rewrite E in H3. injection H3 as <- E3.
    rewrite <- E3 in *. by split_and!.
Qed.

(** ** The children in one direction *)

Lemma es_sorted_filter (P : byte * raw → Prop) `{∀ e, Decision (P e)} es : es_sorted es → es_sorted (filter P es).
Proof.
  induction 1 as [|e es _ IH He]; [constructor|]. rewrite filter_cons. case_decide; [|done].
  constructor; [done|]. apply Forall_forall. intros x [_ Hx]%list_elem_of_filter.
  rewrite Forall_forall in He. by apply He.
Qed.

(** A list has one sorted order. *)
Lemma es_sorted_unique (es es' : list (byte * raw)) : es_sorted es → es_sorted es' → (∀ e, e ∈ es ↔ e ∈ es') → es = es'.
Proof.
  intros Hs. revert es'. induction Hs as [|e es Hs IH He]; intros es' Hs' E.
  { destruct es' as [|e' es']; [done|]. destruct (not_elem_of_nil e'). apply E. by left. }
  rewrite Forall_forall in He. destruct Hs' as [|e' es' Hs' He'].
  { destruct (not_elem_of_nil e). apply E. by left. }
  rewrite Forall_forall in He'.
  assert (e = e') as ->.
  { pose proof (proj1 (E e) (list_elem_of_here _ _)) as [->|H1]%elem_of_cons; [done|].
    pose proof (proj2 (E e') (list_elem_of_here _ _)) as [->|H2]%elem_of_cons; [done|].
    apply He' in H1. apply He in H2. lia. }
  f_equal. apply IH; [done|]. intros e. split; intros Hin.
  - pose proof (proj1 (E e) (list_elem_of_further _ _ _ Hin)) as [->|?]%elem_of_cons; [|done]. apply He in Hin. lia.
  - pose proof (proj2 (E e) (list_elem_of_further _ _ _ Hin)) as [->|?]%elem_of_cons; [|done]. apply He' in Hin. lia.
Qed.

Definition orient {A} (dir : Dir) (l : list A) : list A := match dir with Forward => l | Backward => reverse l end.

Lemma elem_of_orient {A} dir (x : A) l : x ∈ orient dir l ↔ x ∈ l.
Proof. destruct dir; cbn; [done|apply elem_of_reverse]. Qed.

Lemma orient_perm {A} dir (l : list A) : orient dir l ≡ₚ l.
Proof. destruct dir; cbn; [done|apply reverse_Permutation]. Qed.

Lemma orient_orient {A} dir (l : list A) : orient dir (orient dir l) = l.
Proof. destruct dir; [done|apply reverse_involutive]. Qed.

Lemma orient_app {A} dir (l k : list A) :
  orient dir (l ++ k) = match dir with Forward => orient dir l ++ orient dir k | Backward => orient dir k ++ orient dir l end.
Proof. destruct dir; cbn; [done|apply reverse_app]. Qed.

Lemma orient_bind {A B} dir (f : A → list B) l : orient dir (l ≫= f) = orient dir l ≫= λ x, orient dir (f x).
Proof.
  destruct dir; cbn [orient]; [done|]. induction l as [|x l IH]; [done|].
  by rewrite bind_cons, reverse_app, IH, reverse_cons, bind_app, bind_singleton.
Qed.

(** The children from position [next] on. *)
Definition from_next (dir : Dir) (next : Z) (b : byte) : Prop :=
  match dir with Forward => next <= b2z b | Backward => b2z b <= next end.

#[global] Instance from_next_dec dir next b : Decision (from_next dir next b).
Proof. destruct dir; cbn; apply _. Defined.

Definition kids (dir : Dir) (nd : node raw) (next : Z) : list (byte * raw) :=
  orient dir (filter (λ e, from_next dir next e.1) (children_list (find_child nd))).

Definition next_ok (dir : Dir) (next : Z) : Prop :=
  match dir with Forward => 0 <= next <= 256 | Backward => -1 <= next <= 255 end.

Lemma elem_of_kids dir nd next b c : (b, c) ∈ kids dir nd next ↔ from_next dir next b ∧ find_child nd b = Some c.
Proof. unfold kids. by rewrite elem_of_orient, list_elem_of_filter, elem_of_children_list. Qed.

(** The position after a child. *)
Definition after (dir : Dir) (b : byte) : Z := match dir with Forward => b2z b + 1 | Backward => b2z b - 1 end.

Lemma kids_cons dir nd next b c : find_child nd b = Some c → from_next dir next b →
  (∀ x, from_next dir next x → ¬ from_next dir (after dir b) x → x ≠ b → find_child nd x = None) →
  kids dir nd next = (b, c) :: kids dir nd (after dir b).
Proof.
  intros Hb Hn Hx. unfold kids.
  assert (∀ z, es_sorted (filter (λ e, from_next dir z e.1) (children_list (find_child nd)))) as HS
    by (intros; apply es_sorted_filter, children_list_sorted).
  assert (∀ e, e ∈ filter (λ e, from_next dir next e.1) (children_list (find_child nd)) ↔
    e = (b, c) ∨ e ∈ filter (λ e, from_next dir (after dir b) e.1) (children_list (find_child nd))) as E.
  { intros [x d]. rewrite !list_elem_of_filter, !elem_of_children_list. cbn [fst]. split.
    - intros [H1 H2]. destruct (decide (x = b)) as [->|Hne]; [left; congruence|].
      destruct (decide (from_next dir (after dir b) x)) as [?|Hno]; [by right|]. rewrite (Hx x) in H2; done.
    - intros [[= -> ->]|[H1 H2]]; [done|]. split; [|done]. destruct dir; cbn in *; lia. }
  destruct dir; cbn [orient].
  - apply es_sorted_unique; [apply HS| |].
    + constructor; [apply HS|]. apply Forall_forall. intros [x d] [H1 _]%list_elem_of_filter. cbn in *. lia.
    + intros e. by rewrite E, elem_of_cons.
  - rewrite <- reverse_snoc. f_equal. apply es_sorted_unique; [apply HS| |].
    + apply es_sorted_app. rewrite app_nil_r. split_and!; [done| |by intros ? ?%elem_of_nil].
      intros [x d] [H1 _]%list_elem_of_filter. cbn in *. lia.
    + intros e. rewrite E, elem_of_app, list_elem_of_singleton. tauto.
Qed.

Lemma kids_nil dir nd next : (∀ x, from_next dir next x → find_child nd x = None) → kids dir nd next = [].
Proof.
  intros Hx. destruct (kids dir nd next) as [|[b c] es] eqn:E; [done|].
  assert ((b, c) ∈ kids dir nd next) as [H1 H2]%elem_of_kids by (rewrite E; by left).
  by rewrite (Hx b) in H2.
Qed.

Lemma kids_all dir nd : kids dir nd (match dir with Forward => 0 | Backward => 255 end) = orient dir (children_list (find_child nd)).
Proof.
  unfold kids. f_equal. apply list_filter_all, Forall_forall. intros [b c] _. pose proof (b2z_range b).
  destruct dir; cbn; lia.
Qed.

(** ** What is left of a frame, a stack, a side *)

Lemma leaves_in_bind {A} (f : A → list raw) l : leaves_in (l ≫= f) = l ≫= λ x, leaves_in (f x).
Proof. induction l as [|x l IH]; [done|]. by rewrite !bind_cons, leaves_in_app, IH. Qed.

Lemma elem_of_option_pair (b x : byte) (o : option raw) c : (x, c) ∈ option_list (pair b <$> o) ↔ x = b ∧ o = Some c.
Proof. destruct o as [d|]; cbn; [rewrite list_elem_of_singleton; naive_solver|rewrite elem_of_nil; naive_solver]. Qed.

Lemma filter_nil {A} (F : A → Prop) `{∀ x, Decision (F x)} l : (∀ x, x ∈ l → ¬ F x) → filter F l = [].
Proof.
  induction l as [|x l IH]; intros HF; [done|]. rewrite filter_cons_False by (apply HF; by left).
  apply IH. intros y Hy. apply HF. by right.
Qed.

Lemma StronglySorted_filter {A} (R : relation A) (F : A → Prop) `{∀ x, Decision (F x)} (l : list A) :
  StronglySorted R l → StronglySorted R (filter F l).
Proof.
  induction 1 as [|x l _ IH Hx]; [constructor|]. rewrite filter_cons. destruct (decide (F x)); [|done].
  constructor; [done|]. apply Forall_forall. intros y [_ Hy]%list_elem_of_filter. rewrite Forall_forall in Hx. by apply Hx.
Qed.

Lemma filter_comm {A} (F G : A → Prop) `{∀ x, Decision (F x)} `{∀ x, Decision (G x)} (l : list A) :
  filter F (filter G l) = filter G (filter F l).
Proof. rewrite !list_filter_filter. apply list_filter_iff. intros x. tauto. Qed.

Section spec.
Context {L St : Type} {LN : LeafNode L} {LL : LeafLaws L} {LY : Layout St} {EX : Exempt}.
Implicit Types (s : RawTree L St) (m : gmap path loc) (B : gmap loc path) (P : gset loc) (sd : Side).

(** The leaves below a slot. *)
Definition under s B (dir : Dir) (r : raw) : list loc := orient dir (leaves_in (visit (nodes_of s) B r)).

Definition frame_exact s B dir (nd : node raw) (f : CursorFrame) : list loc :=
  if cf_exact f then under s B dir (exact_leaf nd) else [].

Definition node_rest s B dir (nd : node raw) (f : CursorFrame) : list loc :=
  let below := kids dir nd (cf_next f) ≫= λ e, under s B dir e.2 in
  match dir with
  | Forward => frame_exact s B dir nd f ++ below
  | Backward => below ++ frame_exact s B dir nd f
  end.

Definition frame_rest s B dir (f : CursorFrame) : list loc :=
  match cf_node f with
  | NodeAt n => if nodes_of s !! n is Some nd then node_rest s B dir nd f else []
  | _ => []
  end.

(** The frames are of linked nodes, read at their current version, deeper and
    deeper. *)
Inductive frames_ok s B dir : nat → list CursorFrame → Prop :=
| frames_nil d : frames_ok s B dir d []
| frames_cons d f fs n q ob : cf_node f = NodeAt n → B !! n = Some q → t_nodes s !! n = Some ob →
    cf_version f = o_latch ob → next_ok dir (cf_next f) → (length q < d)%nat → frames_ok s B dir (length q) fs →
    frames_ok s B dir d (f :: fs).

Definition batch_rest sd : list loc := leaves_in (drop (sd_batch_pos sd) (take (sd_batch_len sd) (sd_batch sd))).
Definition stack_rest s B dir (fs : list CursorFrame) : list loc := fs ≫= frame_rest s B dir.

Definition side_rest s B dir sd : list loc :=
  from_option (λ r, leaves_in [r]) [] (sd_pending sd) ++ batch_rest sd ++ stack_rest s B dir (stack_list (sd_stack sd)).

Record side_ok s B dir sd : Prop := {
  sk_stack : stack_ok (sd_stack sd);
  sk_frames : frames_ok s B dir (depth_bound B) (stack_list (sd_stack sd));
  sk_batch : length (sd_batch sd) = BATCH;
  sk_len : (sd_batch_len sd <= BATCH)%nat;
  sk_leaves i : (sd_batch_pos sd <= i < sd_batch_len sd)%nat → ∃ l, sd_batch sd !! i = Some (LeafAt l);
  sk_pending r : sd_pending sd = Some r → ∃ l, r = LeafAt l;
}.

Section at_rest.
Context s m B P (W : wf s B m P).
Abbreviation N := (nodes_of s).
Abbreviation und := (under s B).

Lemma linked_node n q : B !! n = Some q → ∃ ob, t_nodes s !! n = Some ob ∧ N !! n = Some (o_node ob) ∧
  node_ok (o_node ob) ∧ quiet (o_latch ob).
Proof using W.
  intros Hn. destruct (wf_linked _ _ _ _ _ _ W Hn) as (ob & ? & ? & ?). exists ob. split_and!; [done| |done..].
  apply nodes_of_Some. eauto.
Qed.

Lemma under_null dir : und dir Null = [].
Proof using. by destruct dir. Qed.

Lemma under_leaf dir l : und dir (LeafAt l) = [l].
Proof using. by destruct dir. Qed.

Lemma under_node dir n q nd : B !! n = Some q → N !! n = Some nd → node_ok nd →
  und dir (NodeAt n) = match dir with
    | Forward => und dir (exact_leaf nd) ++ (kids dir nd 0 ≫= λ e, und dir e.2)
    | Backward => (kids dir nd 255 ≫= λ e, und dir e.2) ++ und dir (exact_leaf nd)
    end.
Proof using W.
  intros Hn Hnd Hok. pose proof (kids_all dir nd) as HK. unfold under.
  rewrite (visit_node _ _ _ (live_key s) (wf_edges _ _ _ _ W) (wf_node_oks s B m P W) n q nd Hn Hnd).
  rewrite leaves_in_node. unfold slots. rewrite bind_cons, leaves_in_app, orient_app, !leaves_in_bind, orient_bind.
  rewrite for_each_child_list by done.
  assert (∀ f : raw → list loc, orient dir (children_list (find_child nd)).*2 ≫= f = orient dir (children_list (find_child nd)) ≫= λ e, f e.2) as X.
  { intros f. destruct dir; cbn [orient]; [|rewrite <- fmap_reverse]; by rewrite list_fmap_bind. }
  rewrite X, <- HK. by destruct dir.
Qed.

Lemma edge_frame_rest dir n q v : B !! n = Some q → frame_rest s B dir (edge_frame (NodeAt n) v dir) = und dir (NodeAt n).
Proof using W.
  intros Hn. destruct (linked_node n q Hn) as (ob & Hob & Hnd & Hok & _).
  rewrite (under_node dir n q (o_node ob)) by done. unfold frame_rest. cbn [edge_frame cf_node]. rewrite Hnd.
  by destruct dir.
Qed.

(** *** Gathering a batch *)

Definition gathered dir nd (batch : list raw) (k : nat) (next : Z) (r : list raw * nat * option raw * Z) : Prop :=
  let '(batch', k', inner, next') := r in
  ∃ ls, length batch' = BATCH ∧ next_ok dir next' ∧ (k' = k + length ls)%nat ∧ (k' <= BATCH)%nat ∧
    (∀ i, (i < k)%nat → batch' !! i = batch !! i) ∧
    (∀ i l, ls !! i = Some l → batch' !! (k + i)%nat = Some (LeafAt l)) ∧
    match inner with
    | None => (∃ es, kids dir nd next = es ++ kids dir nd next' ∧ es.*2 = LeafAt <$> ls) ∧
        (k' = 0%nat → kids dir nd next = [])
    | Some r => ∃ b c, r = NodeAt c ∧ k' = 0%nat ∧ find_child nd b = Some (NodeAt c) ∧
        kids dir nd next = (b, NodeAt c) :: kids dir nd next'
    end.

(** The code's search for the next child. *)
Lemma wp_search {A} dir n ob next (k : option (byte * raw) → prog L A) (Q : A → RawTree L St → Prop) :
  t_nodes s !! n = Some ob → node_ok (o_node ob) → next_ok dir next →
  (kids dir (o_node ob) next = [] → wp (k None) Q s) →
  (∀ b c, find_child (o_node ob) b = Some c → next_ok dir (after dir b) →
     kids dir (o_node ob) next = (b, c) :: kids dir (o_node ob) (after dir b) → wp (k (Some (b, c))) Q s) →
  wp (found ← match dir with
              | Forward => if next <=? 255 then trigger (NodeRead n (λ nd, next_child nd next)) else mret None
              | Backward => if 0 <=? next then trigger (NodeRead n (λ nd, prev_child nd (z2b next))) else mret None
              end; k found) Q s.
Proof using.
  intros Hob Hok Hnext HN HS.
  assert (∀ o, match o with
    | Some (b, c) => from_next dir next b ∧ find_child (o_node ob) b = Some c ∧
        ∀ x, from_next dir next x → ¬ from_next dir (after dir b) x → x ≠ b → find_child (o_node ob) x = None
    | None => ∀ x, from_next dir next x → find_child (o_node ob) x = None
    end → wp (k o) Q s) as X.
  { intros [[b c]|] Ho.
    - destruct Ho as (H1 & H2 & H3). apply HS; [done| |by apply kids_cons].
      pose proof (b2z_range b). unfold next_ok, after. destruct dir; lia.
    - apply HN. by apply kids_nil. }
  apply wp_bind. unfold next_ok in Hnext. destruct dir.
  - destruct (Z.leb_spec next 255).
    + eapply wp_node_read; [done|]. apply X. clear X HN HS.
      pose proof (next_child_spec (o_node ob) next Hok ltac:(lia)) as PS. destruct (next_child (o_node ob) next) as [[b c]|]; [|exact PS].
      destruct PS as (H1 & H2 & H3). split_and!; [done..|]. intros x Hx Ha Hne. apply H3. cbn in *.
      destruct (byte_trichotomy x b) as [?|[?|?]]; [lia|done|lia].
    + apply wp_ret, X. intros x Hx. pose proof (b2z_range x). cbn in Hx. lia.
  - destruct (Z.leb_spec 0 next).
    + eapply wp_node_read; [done|]. apply X. clear X HN HS. pose proof (prev_child_spec (o_node ob) (z2b next) Hok) as PS.
      rewrite b2z_z2b, Z.mod_small in PS by lia. destruct (prev_child (o_node ob) (z2b next)) as [[b c]|]; [|exact PS].
      destruct PS as (H1 & H2 & H3). split_and!; [done..|]. intros x Hx Ha Hne. apply H3. cbn in *.
      destruct (byte_trichotomy x b) as [?|[?|?]]; [lia|done|lia].
    + apply wp_ret, X. intros x Hx. pose proof (b2z_range x). cbn in Hx. lia.
Qed.

Lemma gather_spec fuel dir n ob batch k next (Q : list raw * nat * option raw * Z → RawTree L St → Prop) :
  t_nodes s !! n = Some ob → node_ok (o_node ob) →
  (∀ b c, find_child (o_node ob) b = Some c → c ≠ Null) → next_ok dir next →
  length batch = BATCH → (k < BATCH)%nat → (BATCH < fuel + k)%nat →
  (∀ r, gathered dir (o_node ob) batch k next r → Q r s) → wp (gather fuel n dir batch k next) Q s.
Proof using.
  intros Hob Hok Hnn. revert batch k next Q. induction fuel as [|fuel IH]; intros batch k next Q Hnext HB Hk Hf HQ; [lia|].
  cbn [gather]. eapply wp_search; [done..| |].
  - intros E. apply wp_ret, HQ. exists []. split_and!; [done|done|cbn; lia|lia|done| |exists []; by rewrite E|done].
    by intros i l ?%list_elem_of_lookup_2%elem_of_nil.
  - intros b c Hb Hafter E. fold (after dir b).
    destruct c as [|l|c]; [by destruct (Hnn b Null Hb)|change (is_leaf (LeafAt l)) with true|change (is_leaf (NodeAt c)) with false]; cbv iota.
    + set (batch1 := <[k := LeafAt l]> batch). assert (length batch1 = BATCH) as HB1 by (unfold batch1; by rewrite length_insert).
      assert (∀ r, gathered dir (o_node ob) batch1 (S k) (after dir b) r → gathered dir (o_node ob) batch k next r) as X.
      { intros [[[batch' k'] inner] next'] (ls & G1 & G2 & G3 & G4 & G5 & G6 & G7). exists (l :: ls).
        split_and!; [done|done|cbn; lia|done| | |].
        - intros i Hi. rewrite G5 by lia. unfold batch1. by rewrite list_lookup_insert_ne by lia.
        - intros [|i] l' Hl'; cbn in Hl'.
          + simplify_eq. rewrite Nat.add_0_r, G5 by lia. unfold batch1. apply list_lookup_insert_eq. lia.
          + rewrite Nat.add_succ_r. by apply (G6 i).
        - destruct inner as [r|]; [destruct G7 as (? & ? & _ & ? & _); lia|]. destruct G7 as [(es & E1 & E2) _].
          split; [|lia]. exists ((b, LeafAt l) :: es). rewrite E, E1, fmap_cons, E2. done. }
      case_decide as D.
      * apply wp_ret, HQ, X. exists []. split_and!; [done|done|cbn; lia|lia|done| |by exists []|lia].
        by intros i l' ?%list_elem_of_lookup_2%elem_of_nil.
      * apply IH; [done..|lia|lia|]. intros r Hr. by apply HQ, X.
    + case_decide as D.
      * apply wp_ret, HQ. exists []. subst k. split_and!; [done|done|done|lia|done| |by exists b, c].
        by intros i l ?%list_elem_of_lookup_2%elem_of_nil.
      * apply wp_ret, HQ. exists []. split_and!; [done|done|cbn; lia|lia|done| |by exists []|lia].
        by intros i l ?%list_elem_of_lookup_2%elem_of_nil.
Qed.

(** *** One step *)

(** The number of nodes in and below a slot, and in slots. *)
Definition weight (r : raw) : nat := length (nodes_in (visit N B r)).
Definition weights (es : list (byte * raw)) : nat := sum_list_with (λ e, weight e.2) es.

(** Turns for a frame and what is below it, and for a stack. *)
Definition turns dir (f : CursorFrame) : nat :=
  match cf_node f with
  | NodeAt n => if N !! n is Some nd then
      4 * weights (kids dir nd (cf_next f)) + (if cf_exact f then 1 else 0) + (if decide (0 <= cf_next f)%Z then 1 else 0) + 1
      else 0
  | _ => 0
  end%nat.
Definition stack_turns dir (fs : list CursorFrame) : nat := sum_list_with (turns dir) fs.

Lemma turns_node dir f n nd : cf_node f = NodeAt n → N !! n = Some nd → turns dir f =
  (4 * weights (kids dir nd (cf_next f)) + (if cf_exact f then 1 else 0) + (if decide (0 <= cf_next f)%Z then 1 else 0) + 1)%nat.
Proof using. unfold turns. by intros -> ->. Qed.

Lemma rest_node dir f n nd : cf_node f = NodeAt n → N !! n = Some nd → frame_rest s B dir f = node_rest s B dir nd f.
Proof using. unfold frame_rest. by intros -> ->. Qed.

Lemma weights_perm es es' : es ≡ₚ es' → weights es = weights es'.
Proof using. unfold weights. induction 1; cbn [sum_list_with]; lia. Qed.

Lemma weights_app es es' : weights (es ++ es') = (weights es + weights es')%nat.
Proof using. apply sum_list_with_app. Qed.

Lemma weights_filter (F : byte * raw → Prop) `{∀ e, Decision (F e)} es : (weights (filter F es) <= weights es)%nat.
Proof using.
  unfold weights. induction es as [|e es IH]; [done|]. rewrite filter_cons. cbn [sum_list_with].
  destruct (decide (F e)); cbn [sum_list_with]; lia.
Qed.

Lemma weight_node n q nd : B !! n = Some q → N !! n = Some nd → node_ok nd →
  (S (weights (children_list (find_child nd))) <= weight (NodeAt n))%nat.
Proof using W.
  intros Hn Hnd Hok. unfold weight.
  rewrite (visit_node _ _ _ (live_key s) (wf_edges _ _ _ _ W) (wf_node_oks s B m P W) n q nd Hn Hnd).
  change (nodes_in (NodeAt n :: ?l)) with (n :: nodes_in l). cbn [length]. apply le_n_S.
  unfold slots. rewrite bind_cons, nodes_in_app, length_app, for_each_child_list by done.
  etrans; [|apply Nat.le_add_l]. unfold weights. induction (children_list _) as [|e es IH]; [cbn; lia|].
  cbn [sum_list_with fmap list_fmap]. rewrite bind_cons, nodes_in_app, length_app. unfold weight at 1. lia.
Qed.

(** A frame at the edge of a node is paid for by the node. *)
Lemma turns_edge dir n q v : B !! n = Some q → (turns dir (edge_frame (NodeAt n) v dir) < 4 * weight (NodeAt n))%nat.
Proof using W.
  intros Hn. destruct (linked_node n q Hn) as (ob & _ & Hnd & Hok & _).
  rewrite (turns_node _ _ n (o_node ob)) by done. pose proof (weight_node n q _ Hn Hnd Hok) as HW.
  assert (weights (kids dir (o_node ob) (cf_next (edge_frame (NodeAt n) v dir))) = weights (children_list (find_child (o_node ob)))) as ->.
  { cbn [edge_frame cf_next]. rewrite kids_all. apply weights_perm, orient_perm. }
  cbn [edge_frame cf_exact]. case_decide; lia.
Qed.

Lemma side_ok_stack dir sd k : side_ok s B dir sd → stack_ok k → frames_ok s B dir (depth_bound B) (stack_list k) →
  side_ok s B dir (side_set_stack sd k).
Proof using. intros [] ? ?. by split. Qed.

(** The top frame moves within its node. *)
Lemma frames_move dir d f g fs : frames_ok s B dir d (f :: fs) → cf_node g = cf_node f → cf_version g = cf_version f →
  next_ok dir (cf_next g) → frames_ok s B dir d (g :: fs).
Proof using. intros H E1 E2 Hg. inversion H; subst. econstructor; try done; congruence. Qed.

Lemma frames_weaken dir d d' fs : frames_ok s B dir d fs → (d <= d')%nat → frames_ok s B dir d' fs.
Proof using. destruct 1; intros; econstructor; try done. lia. Qed.

(** What a child adds to the stack. *)
Lemma frames_push dir d f fs n nd b c q ob : frames_ok s B dir d (f :: fs) → cf_node f = NodeAt n → N !! n = Some nd →
  find_child nd b = Some (NodeAt c) → B !! c = Some q → t_nodes s !! c = Some ob → ∀ next ex, next_ok dir next →
  frames_ok s B dir (depth_bound B) ({| cf_node := NodeAt c; cf_version := o_latch ob; cf_next := next; cf_exact := ex |} :: f :: fs).
Proof using W.
  intros H Hf Hnd Hb Hc Hob next ex Hnext. inversion H as [|? ? ? n' qn obn E1 Hn Hobn Hv Hnx Hlt Hfs]; subst.
  assert (n' = n) as -> by congruence.
  pose proof (edge_child (t_root s) _ B n qn nd b _ Hn Hnd Hb) as E.
  destruct (eo_node _ _ _ _ (wf_edges _ _ _ _ W) _ _ _ E) as [_ Hc2]. assert (q = qn ++ pfx nd ++ [b]) as -> by congruence.
  econstructor; [done|exact Hc|done|done|done|by eapply depth_bound_lt|].
  econstructor; try done. rewrite !length_app. cbn. lia.
Qed.

(** What a step leaves, beside what it yields. *)
Definition side_same sd sd' : Prop := sd_last sd' = sd_last sd ∧ sd_positioned sd' = sd_positioned sd.

Definition step_post dir sd (r : Step * Side) : Prop :=
  let '(st, sd') := r in
  side_ok s B dir sd' ∧ sd_pending sd' = None ∧ side_same sd sd' ∧
  match st with
  | StepEnd => side_rest s B dir sd = []
  | StepInvalid => False
  | StepLeaf r => ∃ l, r = LeafAt l ∧ side_rest s B dir sd = l :: side_rest s B dir sd' ∧
      sd_batch_in_range sd' = sd_batch_in_range sd ∧ batch_rest sd' ⊆ batch_rest sd
  | StepBatch r => ∃ l l', r = LeafAt l ∧ side_rest s B dir sd = l :: side_rest s B dir sd' ∧
      sd_batch_pos sd' = 1%nat ∧ sd_batch sd' !! (sd_batch_len sd' - 1)%nat = Some (LeafAt l') ∧
      last (l :: batch_rest sd') = Some l'
  end.

(** Between two turns: the batch is used up. *)
Definition turn_inv dir sd0 sd : Prop :=
  side_ok s B dir sd ∧ sd_pending sd = None ∧ side_same sd0 sd ∧ (sd_batch_len sd <= sd_batch_pos sd)%nat ∧
  sd_batch_in_range sd = sd_batch_in_range sd0 ∧ side_rest s B dir sd = side_rest s B dir sd0.

Lemma batch_rest_nil sd : (sd_batch_len sd <= sd_batch_pos sd)%nat → batch_rest sd = [].
Proof using. intros H. unfold batch_rest. rewrite drop_ge; [done|]. rewrite length_take. lia. Qed.

Lemma side_rest_stack dir sd : sd_pending sd = None → (sd_batch_len sd <= sd_batch_pos sd)%nat →
  side_rest s B dir sd = stack_rest s B dir (stack_list (sd_stack sd)).
Proof using. intros Hp Hb. unfold side_rest. by rewrite Hp, batch_rest_nil. Qed.

(** A turn that only changes the stack. *)
Lemma turn_stack dir sd0 sd k fs : turn_inv dir sd0 sd → stack_ok k → stack_list k = fs →
  frames_ok s B dir (depth_bound B) fs → stack_rest s B dir fs = stack_rest s B dir (stack_list (sd_stack sd)) →
  turn_inv dir sd0 (side_set_stack sd k).
Proof using.
  intros (HO & Hp & HS & Hb & Hr & E) Hk <- Hfs Hrest. split_and!; [by apply side_ok_stack|done|done|done|done|].
  rewrite <- E, !side_rest_stack; done.
Qed.

(** A new batch array, without leaves in it. *)
Lemma turn_batch dir sd0 sd batch : turn_inv dir sd0 sd → length batch = BATCH →
  turn_inv dir sd0 (side_set_batch sd batch (sd_batch_len sd) (sd_batch_pos sd) (sd_batch_in_range sd)).
Proof using.
  intros (HO & Hp & HS & Hb & Hr & E) HB. destruct HO as [O1 O2 O3 O4 O5 O6].
  split_and!; [split; cbn; try done; intros; lia|done|done|done|done|].
  rewrite <- E, !side_rest_stack; done.
Qed.

Lemma exact_is_leaf n q nd : B !! n = Some q → N !! n = Some nd → exact_leaf nd ≠ Null → ∃ l, exact_leaf nd = LeafAt l.
Proof using W.
  intros Hn Hnd Hne. pose proof (edge_exact (t_root s) _ _ _ _ _ Hn Hnd Hne) as E.
  destruct (exact_leaf nd) as [|l|a]; [done|by exists l|]. by destruct (eo_node _ _ _ _ (wf_edges _ _ _ _ W) _ _ _ E).
Qed.

(** [kids ≫= under] of leaves are these leaves. *)
Lemma under_leaves dir (es : list (byte * raw)) ls : es.*2 = LeafAt <$> ls → es ≫= (λ e, und dir e.2) = ls.
Proof using.
  revert es. induction ls as [|l ls IH]; intros [|e es] E; try done. rewrite !fmap_cons in E. injection E as E1 E2.
  by rewrite bind_cons, E1, under_leaf, IH.
Qed.

Definition exact_now (dir : Dir) (f : CursorFrame) : bool :=
  match dir with Forward => cf_exact f | Backward => cf_exact f && (cf_next f <? 0) end.

(** The exact leaf comes next. *)
Lemma visited_rest dir nd f : exact_now dir f = true →
  node_rest s B dir nd f = und dir (exact_leaf nd) ++ node_rest s B dir nd (set_visited f).
Proof using.
  unfold node_rest, frame_exact. destruct dir; cbn [exact_now set_visited cf_exact cf_next].
  - by intros ->.
  - intros [-> Hn%Z.ltb_lt]%andb_prop. rewrite kids_nil; [cbn; by rewrite app_nil_r|].
    intros x Hx. pose proof (b2z_range x). cbn in Hx. lia.
Qed.

(** Children come next. *)
Lemma next_rest dir nd f es next : exact_now dir f = false → kids dir nd (cf_next f) = es ++ kids dir nd next →
  node_rest s B dir nd f = (es ≫= λ e, und dir e.2) ++ node_rest s B dir nd (set_next f next).
Proof using.
  intros He E. unfold node_rest, frame_exact. rewrite E, bind_app. destruct dir; cbn [exact_now set_next cf_next cf_exact] in *; [rewrite He, !app_nil_l; reflexivity|].
  rewrite <- (assoc_L (++)). reflexivity.
Qed.

Lemma take_gathered (batch : list raw) (ls : list loc) : length batch = BATCH → (length ls <= BATCH)%nat →
  (∀ i l, ls !! i = Some l → batch !! i = Some (LeafAt l)) → take (length ls) batch = LeafAt <$> ls.
Proof using.
  intros HB Hl H. apply list_eq. intros i. rewrite list_lookup_fmap. destruct (ls !! i) as [l|] eqn:E; cbn.
  - rewrite lookup_take_lt by (by eapply lookup_lt_Some). by apply H.
  - apply lookup_ge_None in E. apply lookup_take_ge. lia.
Qed.

Lemma leaves_in_fmap (ls : list loc) : leaves_in (LeafAt <$> ls) = ls.
Proof using. induction ls as [|l ls IH]; [done|]. by rewrite fmap_cons, leaves_in_leaf, IH. Qed.

Section turn.
Context (dir : Dir) (sd0 sd : Side) (f : CursorFrame) (fs : list CursorFrame) (n : loc) (q : path) (ob : NodeObj).
Context (HI : turn_inv dir sd0 sd) (E : stack_list (sd_stack sd) = f :: fs) (Hf : cf_node f = NodeAt n).
Context (Hn : B !! n = Some q) (Hob : t_nodes s !! n = Some ob) (Hv : cf_version f = o_latch ob) (Hnx : next_ok dir (cf_next f)).
Abbreviation nd := (o_node ob).
Abbreviation moved g := (side_set_stack sd (stack_set_top (sd_stack sd) g)).

Lemma turn_node : N !! n = Some nd ∧ node_ok nd ∧ quiet (o_latch ob) ∧ stack_top (sd_stack sd) = Some f ∧
  (∀ g, stack_ok (stack_set_top (sd_stack sd) g) ∧ stack_list (stack_set_top (sd_stack sd) g) = g :: fs) ∧
  stack_ok (stack_pop (sd_stack sd)) ∧ stack_list (stack_pop (sd_stack sd)) = fs ∧
  frames_ok s B dir (depth_bound B) (f :: fs) ∧ frames_ok s B dir (depth_bound B) fs ∧
  (∀ g, cf_node g = NodeAt n → frame_rest s B dir g = node_rest s B dir nd g).
Proof using All.
  destruct HI as ([O1 O2 O3 O4 O5 O6] & _). destruct (linked_node n q Hn) as (ob' & Hob' & Hnd & Hok & Hq).
  assert (ob' = ob) as -> by congruence. destruct (stack_cons _ f fs O1 E) as (H1 & H2 & H3 & H4).
  rewrite E in O2. split_and!; try done.
  - inversion O2; subst. eapply frames_weaken; [done|lia].
  - intros g Hg. by apply (rest_node dir g n).
Qed.

(** The top frame moves without leaving anything out. *)
Lemma turn_move g : cf_node g = NodeAt n → cf_version g = cf_version f → next_ok dir (cf_next g) →
  node_rest s B dir nd g = node_rest s B dir nd f → turn_inv dir sd0 (moved g).
Proof using All.
  intros Hg Hgv Hgn Hr. destruct turn_node as (_ & _ & _ & _ & T & _ & _ & F & _ & R). destruct (T g) as [T1 T2].
  eapply turn_stack; [done|exact T1|exact T2| |].
  - eapply frames_move; [exact F|congruence|done|done].
  - unfold stack_rest. rewrite E, !bind_cons, !R by done. by rewrite Hr.
Qed.

Lemma turn_pop : node_rest s B dir nd f = [] → turn_inv dir sd0 (side_set_stack sd (stack_pop (sd_stack sd))).
Proof using All.
  intros Hr. destruct turn_node as (_ & _ & _ & _ & _ & P1 & P2 & _ & F & R).
  eapply turn_stack; [done|exact P1|exact P2|done|]. unfold stack_rest. by rewrite E, bind_cons, R, Hr by done.
Qed.

(** The top frame yields leaves. *)
Lemma turn_yield g ls : cf_node g = NodeAt n → cf_version g = cf_version f → next_ok dir (cf_next g) →
  node_rest s B dir nd f = ls ++ node_rest s B dir nd g →
  side_ok s B dir (moved g) ∧ side_rest s B dir sd0 = ls ++ stack_rest s B dir (stack_list (sd_stack (moved g))).
Proof using All.
  intros Hg Hgv Hgn Hr. destruct turn_node as (_ & _ & _ & _ & T & _ & _ & F & _ & R). destruct (T g) as [T1 T2].
  destruct HI as (HO & Hp & HS & Hb & Hrg & ER). split.
  - apply side_ok_stack; [done|done|]. rewrite T2. eapply frames_move; [exact F|congruence|done|done].
  - rewrite <- ER, side_rest_stack by done. cbn [side_set_stack sd_stack]. rewrite T2. unfold stack_rest.
    by rewrite E, !bind_cons, !R, Hr, <- (assoc_L (++)) by done.
Qed.

Lemma turn_push g b c : cf_node g = NodeAt n → cf_version g = cf_version f → next_ok dir (cf_next g) →
  find_child nd b = Some (NodeAt c) → node_rest s B dir nd f = und dir (NodeAt c) ++ node_rest s B dir nd g →
  ∀ obc, t_nodes s !! c = Some obc → turn_inv dir sd0 (side_push (moved g) (edge_frame (NodeAt c) (o_latch obc) dir)).
Proof using All.
  intros Hg Hgv Hgn Hb Hr obc Hobc. destruct turn_node as (Hnd & _ & _ & _ & T & _ & _ & F & _ & R). destruct (T g) as [T1 T2].
  pose proof (edge_child (t_root s) _ B n q nd b _ Hn Hnd Hb) as Ed.
  destruct (eo_node _ _ _ _ (wf_edges _ _ _ _ W) _ _ _ Ed) as [_ Hc].
  destruct (stack_push_ok _ (edge_frame (NodeAt c) (o_latch obc) dir) T1) as [P1 P2]. rewrite T2 in P2.
  unfold side_push. eapply (turn_stack dir sd0 sd _ _ HI P1 P2).
  - eapply (frames_push dir (depth_bound B) g fs n nd b c); [|done..|].
    + eapply frames_move; [exact F|congruence|done|done].
    + by destruct dir.
  - unfold stack_rest. rewrite E, !bind_cons, (R f Hf), (R g Hg). by rewrite (edge_frame_rest dir c _ _ Hc), Hr, <- (assoc_L (++)).
Qed.
End turn.

Abbreviation turns_of dir sd := (stack_turns dir (stack_list (sd_stack sd))).

Lemma turns_at dir f n nd : cf_node f = NodeAt n → N !! n = Some nd → (1 <= turns dir f)%nat.
Proof using. intros. rewrite (turns_node dir f n nd) by done. lia. Qed.

Lemma kids_nil_end nd : kids Backward nd (-1) = [].
Proof using. apply kids_nil. intros x Hx. pose proof (b2z_range x). cbn in Hx. lia. Qed.

(** How a turn may end, by what the top frame finds. *)
Section outcome.
Context (dir : Dir) (sd0 sd : Side) (f : CursorFrame) (fs : list CursorFrame) (n : loc) (q : path) (ob : NodeObj).
Context (HI : turn_inv dir sd0 sd) (E : stack_list (sd_stack sd) = f :: fs) (Hf : cf_node f = NodeAt n).
Context (Hn : B !! n = Some q) (Hob : t_nodes s !! n = Some ob) (Hv : cf_version f = o_latch ob) (Hnx : next_ok dir (cf_next f)).
Abbreviation nd := (o_node ob).
Abbreviation moved g := (side_set_stack sd (stack_set_top (sd_stack sd) g)).
Abbreviation goes_on sd' := (turn_inv dir sd0 sd' ∧ (turns_of dir sd' < stack_turns dir (f :: fs))%nat).

Lemma outcome_null : exact_now dir f = true → exact_leaf nd = Null → goes_on (moved (set_visited f)).
Proof using All.
  intros Hex Hnull. destruct (turn_node dir sd0 sd f fs n q ob HI E Hf Hn Hob Hv Hnx) as (Hnd & _ & _ & _ & T & _).
  assert (cf_exact f = true) as He by (destruct dir; cbn in Hex; [done|by apply andb_prop in Hex as [? _]]). split.
  - eapply turn_move; try done. by rewrite (visited_rest dir nd f Hex), Hnull, under_null.
  - cbn [side_set_stack sd_stack]. rewrite (proj2 (T _)). cbn [stack_turns sum_list_with].
    rewrite (turns_node dir f n _ Hf Hnd), He, (turns_node dir (set_visited f) n _ Hf Hnd).
    cbn [set_visited cf_next cf_exact]. unfold stack_turns. lia.
Qed.

Lemma outcome_leaf l : exact_now dir f = true → exact_leaf nd = LeafAt l → step_post dir sd0 (StepLeaf (LeafAt l), moved (set_visited f)).
Proof using All.
  intros Hex Hl. pose proof (visited_rest dir nd f Hex) as HR. rewrite Hl, under_leaf in HR.
  pose proof HI as (_ & Hp & HS & Hb & Hrg & _).
  destruct (turn_yield dir sd0 sd f fs n q ob HI E Hf Hn Hob Hv Hnx (set_visited f) [l]) as [Y1 Y2]; [done..|].
  unfold step_post. split_and!; [done|done|done|]. exists l. split_and!; [done| |done|].
  - rewrite Y2, (side_rest_stack dir (side_set_stack _ _)); [reflexivity|exact Hp|exact Hb].
  - rewrite (batch_rest_nil (side_set_stack _ _)); [apply list_subseteq_nil|exact Hb].
Qed.

Lemma outcome_inner b c next qc obc : exact_now dir f = false → next_ok dir next → find_child nd b = Some (NodeAt c) →
  kids dir nd (cf_next f) = (b, NodeAt c) :: kids dir nd next → B !! c = Some qc → t_nodes s !! c = Some obc →
  goes_on (side_push (moved (set_next f next)) (edge_frame (NodeAt c) (o_latch obc) dir)).
Proof using All.
  intros Hex Hnext Hc EK Hcq Hobc. destruct (turn_node dir sd0 sd f fs n q ob HI E Hf Hn Hob Hv Hnx) as (Hnd & _ & _ & _ & T & _).
  pose proof (next_rest dir _ f [(b, NodeAt c)] next Hex EK) as HR. rewrite bind_singleton in HR. split.
  - by eapply (turn_push dir sd0 sd f fs n q ob HI E Hf Hn Hob Hv Hnx (set_next f next) b c).
  - destruct (stack_push_ok _ (edge_frame (NodeAt c) (o_latch obc) dir) (proj1 (T (set_next f next)))) as [_ PL].
    cbn [side_push side_set_stack sd_stack]. rewrite PL, (proj2 (T _)). cbn [stack_turns sum_list_with].
    pose proof (turns_edge dir c _ (o_latch obc) Hcq) as TE. rewrite (turns_node dir f n _ Hf Hnd).
    rewrite (turns_node dir (set_next f next) n _ Hf Hnd). cbn [set_next cf_next cf_exact]. rewrite EK.
    change (weights ((b, NodeAt c) :: ?l)) with (weight (NodeAt c) + weights l)%nat.
    assert (0 <= cf_next f) as H0.
    { assert ((b, NodeAt c) ∈ kids dir nd (cf_next f)) as [X _]%elem_of_kids by (rewrite EK; by left).
      pose proof (b2z_range b). destruct dir; cbn in X, Hnx; lia. }
    rewrite (decide_True (P := 0 <= cf_next f)) by done. unfold stack_turns. destruct (decide (0 <= next)); lia.
Qed.

Lemma outcome_batch batch next es l ls : exact_now dir f = false → next_ok dir next → length batch = BATCH →
  (length (l :: ls) <= BATCH)%nat → (∀ i x, (l :: ls) !! i = Some x → batch !! i = Some (LeafAt x)) →
  kids dir nd (cf_next f) = es ++ kids dir nd next → es.*2 = LeafAt <$> (l :: ls) →
  step_post dir sd0 (StepBatch (LeafAt l), side_set_batch (moved (set_next f next)) batch (length (l :: ls)) 1 false).
Proof using All.
  intros Hex Hnext HB Hlen Hb EK Els. pose proof HI as (_ & Hp & HS & _).
  pose proof (next_rest dir _ f es next Hex EK) as HR. rewrite (under_leaves dir es _ Els) in HR.
  destruct (turn_yield dir sd0 sd f fs n q ob HI E Hf Hn Hob Hv Hnx (set_next f next) (l :: ls)) as [Y1 Y2]; [done..|].
  set (sd' := side_set_batch _ _ _ _ _).
  assert (batch_rest sd' = ls) as EB.
  { unfold batch_rest. cbn [sd' side_set_batch sd_batch sd_batch_len sd_batch_pos]. rewrite take_gathered by done. apply leaves_in_fmap. }
  destruct (last (l :: ls)) as [l'|] eqn:Elast; [|by apply last_None in Elast].
  unfold step_post. split_and!; [|done|done|exists l, l'; split_and!; [done| |done| |by rewrite EB]].
  - destruct Y1 as [O1 O2 O3 O4 O5 O6]. split; cbn [sd' side_set_batch sd_batch sd_batch_len sd_batch_pos]; try done. intros i Hi.
    destruct ((l :: ls) !! i) as [y|] eqn:Ey; [exists y; by apply Hb|]. apply lookup_ge_None in Ey. lia.
  - rewrite Y2. unfold side_rest. rewrite EB. cbn [sd_pending sd' side_set_batch side_set_stack]. by rewrite Hp.
  - apply Hb. rewrite <- Elast, last_lookup. f_equal. cbn. lia.
Qed.

(** No child is left: the exact leaf, if it comes last, or the node is done. *)
Lemma outcome_end next : exact_now dir f = false → next_ok dir next → kids dir nd (cf_next f) = [] → kids dir nd next = [] →
  let k := stack_set_top (sd_stack sd) (set_next f next) in
  if cf_exact f && bool_decide (dir = Backward)
  then goes_on (side_set_stack (side_set_stack sd k) (stack_set_top k (set_next f (-1))))
  else goes_on (side_set_stack (side_set_stack sd k) (stack_pop k)).
Proof using All.
  intros Hex Hnext EF EK k. destruct (turn_node dir sd0 sd f fs n q ob HI E Hf Hn Hob Hv Hnx) as (Hnd & _ & _ & _ & T & _).
  assert (node_rest s B dir nd f = frame_exact s B dir nd f) as HF.
  { unfold node_rest. rewrite EF. destruct dir; [apply app_nil_r|reflexivity]. }
  assert (node_rest s B dir nd (set_next f next) = frame_exact s B dir nd f) as HX.
  { unfold node_rest, frame_exact. cbn [set_next cf_next cf_exact]. rewrite EK. destruct dir; [apply app_nil_r|reflexivity]. }
  destruct (T (set_next f next)) as [T1 T2]. destruct (stack_cons _ _ fs T1 T2) as (_ & _ & Tpop & Tset). fold k in T1, T2, Tpop, Tset.
  assert (turn_inv dir sd0 (side_set_stack sd k)) as HI3.
  { apply (turn_move dir sd0 sd f fs n q ob HI E Hf Hn Hob Hv Hnx (set_next f next) Hf eq_refl Hnext). by rewrite HF. }
  pose proof (turns_node dir f n _ Hf Hnd) as TF. rewrite EF in TF. change (weights []) with 0%nat in TF.
  destruct (cf_exact f && bool_decide (dir = Backward)) eqn:Hback.
  - apply andb_prop in Hback as [He Hdir%bool_decide_eq_true]. subst dir.
    assert (0 <= cf_next f) as H0 by (unfold exact_now in Hex; rewrite He in Hex; by apply Z.ltb_ge in Hex). split.
    + apply (turn_move Backward sd0 _ _ fs n q ob HI3 T2 Hf Hn Hob Hv Hnext (set_next f (-1)) Hf eq_refl); [cbn; lia|].
      rewrite HX. unfold node_rest, frame_exact. cbn [set_next cf_next cf_exact]. by rewrite kids_nil_end.
    + cbn [side_set_stack sd_stack]. rewrite (proj2 (Tset _)). cbn [stack_turns sum_list_with].
      rewrite TF, He, decide_True by done. rewrite (turns_node Backward (set_next f (-1)) n _ Hf Hnd).
      cbn [set_next cf_next cf_exact]. rewrite kids_nil_end, He, decide_False by lia. change (weights []) with 0%nat. unfold stack_turns. lia.
  - assert (cf_exact f = false) as He.
    { apply andb_false_iff in Hback as [He|Hd%bool_decide_eq_false]; [done|]. destruct dir; done. }
    split.
    + apply (turn_pop dir sd0 _ _ fs n q ob HI3 T2 Hf Hn Hob Hv Hnext). rewrite HX. unfold frame_exact. by rewrite He.
    + cbn [side_set_stack sd_stack]. rewrite Tpop. cbn [stack_turns sum_list_with]. unfold stack_turns. lia.
Qed.
End outcome.

Lemma step_turn_spec dir sd0 sd : turn_inv dir sd0 sd →
  wp (step_turn dir sd) (λ r s', s' = s ∧ match r with
    | Continue sd' => turn_inv dir sd0 sd' ∧ (turns_of dir sd' < turns_of dir sd)%nat
    | Break r => step_post dir sd0 r end) s.
Proof using All.
  intros HI. pose proof HI as (HO & Hp & HS & Hb & Hrg & ER). unfold step_turn.
  destruct (stack_list (sd_stack sd)) as [|f fs] eqn:E.
  { rewrite (stack_nil _ (sk_stack _ _ _ _ HO) E). apply wp_ret. split; [done|]. unfold step_post. split_and!; [done..|].
    rewrite <- ER, side_rest_stack, E by done. done. }
  pose proof (sk_frames _ _ _ _ HO) as F. rewrite E in F.
  inversion F as [|? ? ? n q ob Hf Hn Hob Hv Hnx Hlt Hfs]; subst.
  destruct (turn_node dir sd0 sd f fs n q ob HI E Hf Hn Hob Hv Hnx) as (Hnd & Hok & Hq & Etop & _).
  rewrite Etop, Hf. apply wp_bind, wp_node_ref. fold (exact_now dir f). destruct (exact_now dir f) eqn:Hex.
  - apply wp_bind. eapply wp_node_read; [done|]. apply wp_bind. rewrite Hv. eapply wp_validate; [done..|]. wp_simpl.
    destruct (decide (exact_leaf (o_node ob) = Null)) as [Hnull|Hnn].
    + rewrite Hnull. cbn [is_null negb]. apply wp_ret. split; [done|]. by eapply outcome_null.
    + destruct (exact_is_leaf n q _ Hn Hnd Hnn) as [l Hl]. rewrite Hl. cbn [is_null negb]. apply wp_ret. split; [done|].
      by eapply outcome_leaf.
  - apply wp_bind. eapply gather_spec; [exact Hob|exact Hok| |exact Hnx|apply HO|unfold BATCH; lia|unfold BATCH; lia|].
    { intros b c Hb' ->. by apply (find_child_not_null (R := raw)) in Hb'. }
    intros [[[batch k'] inner] next] (ls & G1 & G2 & G3 & G4 & _ & G6 & G7).
    pose proof (turn_batch dir sd0 sd batch HI G1) as HI2.
    destruct inner as [child|].
    + destruct G7 as (b & c & -> & _ & Hc & EK). apply wp_bind, wp_node_ref.
      pose proof (edge_child (t_root s) _ B n q (o_node ob) b _ Hn Hnd Hc) as Ed.
      destruct (eo_node _ _ _ _ (wf_edges _ _ _ _ W) _ _ _ Ed) as [_ Hcq].
      destruct (linked_node c _ Hcq) as (obc & Hobc & _ & _ & Hqc).
      apply wp_bind. eapply wp_read_version; [done..|]. apply wp_bind. rewrite Hv. eapply wp_validate; [done..|]. wp_simpl.
      apply wp_ret. split; [done|]. by eapply (outcome_inner dir sd0 _ f fs n q ob HI2 E Hf Hn Hob Hv Hnx b c).
    + destruct G7 as [(es & EK & Els) Hnil]. apply wp_bind. rewrite Hv. eapply wp_validate; [done..|]. wp_simpl.
      destruct (decide (0 < k')%nat) as [D|D].
      * destruct ls as [|l ls]; [cbn in G3; lia|]. rewrite (list_lookup_total_correct _ _ _ (G6 0%nat l eq_refl)). apply wp_ret.
        split; [done|]. rewrite G3. by apply (outcome_batch dir sd0 _ f fs n q ob HI2 E Hf Hn Hob Hv Hnx batch next es); [..|lia| | |].
      * assert (k' = 0%nat) as E0 by lia. specialize (Hnil E0). rewrite Hnil in EK. symmetry in EK. apply app_eq_nil in EK as [_ EK].
        pose proof (outcome_end dir sd0 _ f fs n q ob HI2 E Hf Hn Hob Hv Hnx next Hex G2 Hnil EK) as HE. cbv zeta in HE.
        destruct dir; [rewrite andb_false_r in HE; by apply wp_ret|]. rewrite bool_decide_true, andb_true_r in HE by done.
        destruct (cf_exact f); by apply wp_ret.
Qed.

(** A batch has its first leaf taken off. *)
Lemma batch_pop dir sd l : side_ok s B dir sd → sd_batch sd !! sd_batch_pos sd = Some (LeafAt l) →
  (sd_batch_pos sd < sd_batch_len sd)%nat → batch_rest sd = l :: batch_rest (side_advance_batch sd).
Proof using.
  intros HO Hl Hlt. unfold batch_rest. cbn [side_advance_batch side_set_batch sd_batch sd_batch_len sd_batch_pos].
  rewrite (drop_S _ (LeafAt l)) by (by rewrite lookup_take_lt). done.
Qed.

Lemma step_spec fuel dir sd : side_ok s B dir sd → sd_pending sd = None → (turns_of dir sd < fuel)%nat →
  wp (step fuel sd dir) (λ r s', s' = s ∧ step_post dir sd r) s.
Proof using All.
  intros HO Hp Hf. unfold step. case_decide as D.
  - destruct (sk_leaves _ _ _ _ HO (sd_batch_pos sd)) as [l Hl]; [lia|].
    rewrite (list_lookup_total_correct _ _ _ Hl). apply wp_ret. split; [done|].
    pose proof (batch_pop dir sd l HO Hl D) as Hpop. unfold step_post. split_and!; [|done|done|].
    { destruct HO as [O1 O2 O3 O4 O5 O6]. split; cbn; try done. intros i Hi. apply O5. lia. }
    exists l. split_and!; [done| |done|rewrite Hpop; apply list_subseteq_cons; done].
    unfold side_rest. cbn [sd_pending side_advance_batch side_set_batch sd_stack]. by rewrite Hp, Hpop.
  - apply (wp_loop (λ sd' s', s' = s ∧ turn_inv dir sd sd') (λ sd', turns_of dir sd')); [|by split; [done|]; unfold turn_inv; split_and!; try lia|done].
    intros sd' s' [-> HI]. eapply wp_mono; [by apply (step_turn_spec dir sd sd')|].
    intros [sd''|r] s' [-> Hr]; [by destruct Hr|done].
Qed.

(** Fuel for any stack. *)
Lemma weight_bound n q : B !! n = Some q → (weight (NodeAt n) <= size (t_nodes s))%nat.
Proof using W.
  intros Hn. unfold weight. pose proof (wf_edges _ _ _ _ W) as EO. pose proof (wf_node_oks s B m P W) as HN.
  pose proof (eo_linked _ _ _ _ EO _ _ Hn) as Ed. apply NoDup_dom_length.
  - apply nodes_in_NoDup. eapply StronglySorted_NoDup; [|by eapply (visit_sorted_edge _ _ _ (live_key s) EO HN)].
    apply before_irrefl.
  - intros a Ha%elem_of_nodes_in. destruct (visit_target _ _ _ (live_key s) EO HN _ _ _ _ Ed Ha) as (q' & x & E').
    destruct (eo_node _ _ _ _ EO _ _ _ E') as [_ Ha']. destruct (linked_node a q' Ha') as (ob & ? & _). eauto.
Qed.

Definition cursor_fuel : nat := S (depth_bound B * (4 * size (t_nodes s) + 3)).

Lemma turns_bound dir d fs : frames_ok s B dir d fs → (stack_turns dir fs <= d * (4 * size (t_nodes s) + 3))%nat.
Proof using W.
  induction 1 as [d|d f fs n q ob Hf Hn Hob Hv Hnx Hlt Hfs IH]; [cbn; lia|].
  destruct (linked_node n q Hn) as (ob' & Hob' & Hnd & Hok & _). cbn [stack_turns sum_list_with].
  rewrite (turns_node dir f n _ Hf Hnd). pose proof (weight_node n q _ Hn Hnd Hok) as H1. pose proof (weight_bound n q Hn) as H2.
  assert (weights (kids dir (o_node ob') (cf_next f)) <= weights (children_list (find_child (o_node ob'))))%nat as H3.
  { unfold kids. rewrite (weights_perm _ _ (orient_perm dir _)).
    apply weights_filter. }
  fold (stack_turns dir fs). assert (S (length q) <= d)%nat as Hd by lia.
  etrans; [|apply Nat.mul_le_mono_r, Hd]. cbn [Nat.mul]. destruct (cf_exact f); case_decide; lia.
Qed.

Lemma side_turns dir sd : side_ok s B dir sd → (turns_of dir sd < cursor_fuel)%nat.
Proof using W. intros HO. unfold cursor_fuel. apply Nat.lt_succ_r, turns_bound, HO. Qed.

(** *** Positioning *)

(** The children before, at and after a byte. *)
Lemma kids_split dir nd b : ∃ pre,
  kids dir nd (match dir with Forward => 0 | Backward => 255 end) = pre ++ option_list (pair b <$> find_child nd b) ++ kids dir nd (after dir b) ∧
  ∀ e, e ∈ pre → find_child nd e.1 = Some e.2 ∧ ¬ from_next dir (b2z b) e.1.
Proof using.
  set (ch := children_list (find_child nd)). set (lo := filter (λ e : byte * raw, b2z e.1 <= b2z b - 1) ch).
  set (hi := filter (λ e : byte * raw, b2z b + 1 <= b2z e.1) ch). set (mid := option_list (pair b <$> find_child nd b)).
  assert (ch = lo ++ mid ++ hi) as E.
  { apply es_sorted_unique; [apply children_list_sorted| |].
    - assert (es_sorted lo ∧ es_sorted hi) as [Hlo Hhi] by (split; apply es_sorted_filter, children_list_sorted).
      assert (∀ e, e ∈ lo → b2z e.1 < b2z b) as Llo by (intros e [? _]%list_elem_of_filter; lia).
      assert (∀ e, e ∈ hi → b2z b < b2z e.1) as Lhi by (intros e [? _]%list_elem_of_filter; lia).
      assert (es_sorted (lo ++ hi)) as Hlh.
      { apply StronglySorted_app_2; [|done..]. intros x y Hx%Llo Hy%Lhi. lia. }
      unfold mid. destruct (find_child nd b) as [c|]; cbn; [|done]. by apply es_sorted_app.
    - intros [x c]. unfold mid, lo, hi, ch. rewrite !elem_of_app, !list_elem_of_filter, !elem_of_children_list. cbn [fst].
      rewrite elem_of_option_pair. destruct (byte_trichotomy x b) as [?|[->|?]].
      + split; [intros ?; left; split; [lia|done]|]. intros [[? ?]|[[-> ?]|[? ?]]]; [done|lia|lia].
      + split; [auto|]. intros [[? ?]|[[_ ?]|[? ?]]]; [lia|done|lia].
      + split; [intros ?; right; right; split; [lia|done]|]. intros [[? ?]|[[-> ?]|[? ?]]]; [lia|lia|done]. }
  assert (∀ e, e ∈ ch → find_child nd e.1 = Some e.2) as HL by (intros [x c]; apply elem_of_children_list).
  rewrite kids_all. fold ch. destruct dir; cbn [orient after].
  - exists lo. split; [by rewrite E at 1|]. intros e [H1 H2]%list_elem_of_filter. split; [by apply HL|]. cbn. lia.
  - exists (reverse hi). split.
    + rewrite E at 1. rewrite !reverse_app, <- (assoc_L (++)). f_equal. f_equal. unfold mid. by destruct (find_child nd b).
    + intros e [H1 H2]%elem_of_reverse%list_elem_of_filter. split; [by apply HL|]. cbn. lia.
Qed.

(** Whether a leaf is at or after the bound. *)
Definition ahead dir (bound : Bound KeyBuf) (l : loc) : Prop :=
  from_option (λ k, reach dir bound k = true) False (live_key s l).

#[local] Instance ahead_dec dir bound l : Decision (ahead dir bound l).
Proof using. unfold ahead. destruct (live_key s l); cbn; apply _. Defined.

Lemma under_keys dir q x r l : tree_edges s B q x r → l ∈ und dir r →
  ∃ k, live_key s l = Some k ∧ if x then k = q else q `prefix_of` k.
Proof using W.
  intros Ed Hl. unfold under in Hl. rewrite elem_of_orient, elem_of_leaves_in in Hl.
  destruct (visit_under _ _ _ (live_key s) (wf_edges _ _ _ _ W) (wf_node_oks s B m P W) q x r _ Ed Hl) as (p & i & Hpl & Hu).
  cbn in Hpl. destruct (live_key s l) as [k|] eqn:Hk; cbn in Hpl; [|done]. simplify_eq. exists p. split; [done|].
  destruct x; [by destruct Hu|done].
Qed.

(** The leaves below a slot are all on one side of the bound. *)
Lemma all_ahead dir bound (ls : list loc) : (∀ l, l ∈ ls → ∃ k, live_key s l = Some k ∧ reach dir bound k = true) →
  filter (ahead dir bound) ls = ls.
Proof using.
  intros H. apply list_filter_all, Forall_forall. intros l (k & Hk & Hr)%H. unfold ahead. by rewrite Hk.
Qed.

Lemma none_ahead dir bound (ls : list loc) : (∀ l, l ∈ ls → ∃ k, live_key s l = Some k ∧ reach dir bound k = false) →
  filter (ahead dir bound) ls = [].
Proof using.
  intros H. apply filter_nil. intros l (k & Hk & Hr)%H. unfold ahead. rewrite Hk. cbn. congruence.
Qed.

(** A proper bound reaches what is behind its key and not what is before it. *)
Definition bound_key (bound : Bound KeyBuf) : option (bool * list byte) :=
  match bound with
  | Included k => Some (true, keybuf_as_slice k)
  | Excluded k => Some (false, keybuf_as_slice k)
  | Unbounded => None
  end.

Lemma reach_at dir bound incl key k : bound_key bound = Some (incl, key) →
  reach dir bound k = match ocmp dir key k with Lt => true | Eq => incl | Gt => false end.
Proof using. rewrite reach_spec. destruct bound; cbn; [intros [= <- <-]..|done]; by destruct (ocmp _ _ _). Qed.

(** The keys below a node, its exact leaf and its children. *)
Lemma child_keys dir n q nd b c l : B !! n = Some q → N !! n = Some nd → find_child nd b = Some c → l ∈ und dir c →
  ∃ k z, live_key s l = Some k ∧ k = (q ++ pfx nd) ++ b :: z.
Proof using W.
  intros Hn Hnd Hb Hl. pose proof (edge_child (t_root s) _ B n q nd b c Hn Hnd Hb) as Ed.
  destruct (under_keys dir _ _ _ _ Ed Hl) as (k & Hk & [z Hz]). exists k, z. split; [done|].
  by rewrite Hz, <- !(assoc_L (++)).
Qed.

Lemma exact_keys dir n q nd l : B !! n = Some q → N !! n = Some nd → l ∈ und dir (exact_leaf nd) →
  live_key s l = Some (q ++ pfx nd).
Proof using W.
  intros Hn Hnd Hl. assert (exact_leaf nd ≠ Null) as Hne by (intros E; rewrite E, under_null in Hl; by apply elem_of_nil in Hl).
  pose proof (edge_exact (t_root s) _ B n q nd Hn Hnd Hne) as Ed. destruct (under_keys dir _ _ _ _ Ed Hl) as (k & Hk & ->). done.
Qed.

Lemma node_keys dir n q nd l : B !! n = Some q → N !! n = Some nd → node_ok nd → l ∈ und dir (NodeAt n) →
  ∃ k, live_key s l = Some k ∧ q ++ pfx nd `prefix_of` k.
Proof using W.
  intros Hn Hnd Hok Hl. rewrite (under_node dir n q nd Hn Hnd Hok) in Hl.
  assert (l ∈ und dir (exact_leaf nd) ∨ ∃ e, e ∈ kids dir nd (match dir with Forward => 0 | Backward => 255 end) ∧ l ∈ und dir e.2)
    as [Hx|([b c] & [_ Hb]%elem_of_kids & Hc)].
  { destruct dir; rewrite elem_of_app, list_elem_of_bind in Hl; naive_solver. }
  - exists (q ++ pfx nd). split; [by eapply exact_keys|done].
  - destruct (child_keys dir n q nd b c l Hn Hnd Hb Hc) as (k & z & Hk & ->). eexists. split; [done|by eexists].
Qed.

(** How a key compares with the keys below a node that its path leaves. *)
Lemma diverge_cmp (key q p : path) z : q `prefix_of` key →
  let rest := drop (length q) key in let i := common_prefix p rest in (i < length p)%nat →
  lex_cmp key (q ++ p ++ z) = if bool_decide (i = length rest) || (b2z (rest !!! i) <? b2z (p !!! i)) then Lt else Gt.
Proof using.
  intros [rest ->]. rewrite drop_app_length. cbv zeta. intros Hi.
  rewrite lex_cmp_app, lex_cmp_refl by done. destruct (common_prefix_spec p rest) as (_ & H2 & H3 & H4).
  set (i := common_prefix p rest) in *.
  assert (take i rest = take i (p ++ z)) as Et by (rewrite take_app_le by lia; done).
  rewrite (lex_cmp_split i) by done. rewrite drop_app_le by lia.
  destruct (lookup_lt_is_Some_2 p i Hi) as [x Hx]. rewrite (drop_S _ _ _ Hx), (list_lookup_total_correct _ _ _ Hx).
  case_bool_decide as D; cbn [orb].
  - rewrite drop_ge by lia. done.
  - destruct (lookup_lt_is_Some_2 rest i) as [y Hy]; [lia|]. rewrite (drop_S _ _ _ Hy), (list_lookup_total_correct _ _ _ Hy).
    specialize (H4 x y Hx Hy). cbn [lex_cmp app]. destruct (byte_trichotomy y x) as [?|[?|?]]; [|congruence|].
    + rewrite (proj2 (Z.compare_lt_iff _ _)), (proj2 (Z.ltb_lt _ _)) by done. done.
    + rewrite (proj2 (Z.compare_gt_iff _ _)), (proj2 (Z.ltb_ge _ _)) by lia. done.
Qed.

Section seek.
Context (dir : Dir) (bound : Bound KeyBuf) (incl : bool) (key : path) (HK : bound_key bound = Some (incl, key)).
Context (n : loc) (q : path) (ob : NodeObj) (Hn : B !! n = Some q) (Hob : t_nodes s !! n = Some ob) (Hq : q `prefix_of` key).
Abbreviation nd := (o_node ob).
Abbreviation rest := (drop (length q) key).

Lemma seek_node : N !! n = Some nd ∧ node_ok nd ∧ quiet (o_latch ob).
Proof using All. destruct (linked_node n q Hn) as (ob' & ? & ? & ? & ?). by assert (ob' = ob) as -> by congruence. Qed.

Lemma reach_key k : reach dir bound k = match ocmp dir key k with Lt => true | Eq => incl | Gt => false end.
Proof using HK. by apply reach_at. Qed.

(** The path leaves the node's prefix: all of the subtree, or nothing. *)
Lemma seek_diverge : let i := common_prefix (pfx nd) rest in (i < length (pfx nd))%nat →
  let sa := bool_decide (i = length rest) || (b2z (rest !!! i) <? b2z (pfx nd !!! i)) in
  filter (ahead dir bound) (und dir (NodeAt n)) = if bool_decide (sa = bool_decide (dir = Forward)) then und dir (NodeAt n) else [].
Proof using All.
  intros i Hi sa. destruct seek_node as (Hnd & Hok & _).
  assert (∀ l, l ∈ und dir (NodeAt n) → ∃ k, live_key s l = Some k ∧ lex_cmp key k = if sa then Lt else Gt) as HC.
  { intros l Hl. destruct (node_keys dir n q nd l Hn Hnd Hok Hl) as (k & Hk & [z ->]). exists ((q ++ pfx nd) ++ z). split; [done|].
    rewrite <- (assoc_L (++)). by apply diverge_cmp. }
  case_bool_decide as D.
  - apply all_ahead. intros l (k & Hk & Hc)%HC. exists k. split; [done|]. rewrite reach_key.
    destruct dir; cbn in *; rewrite ?(lex_cmp_antisym key k), Hc; by destruct sa.
  - apply none_ahead. intros l (k & Hk & Hc)%HC. exists k. split; [done|]. rewrite reach_key.
    destruct dir; cbn in *; rewrite ?(lex_cmp_antisym key k), Hc; by destruct sa.
Qed.

(** The children at and after a byte, for keys that extend the node's path. *)
Lemma ahead_kids es : (∀ e, e ∈ es → find_child nd e.1 = Some e.2 ∧ ∀ z, ocmp dir key ((q ++ pfx nd) ++ e.1 :: z) = Lt) →
  filter (ahead dir bound) (es ≫= λ e, und dir e.2) = es ≫= λ e, und dir e.2.
Proof using All.
  intros H. destruct seek_node as (Hnd & _). apply all_ahead. intros l ([b c] & Hl & He)%list_elem_of_bind.
  destruct (H _ He) as [Hb Hz]. destruct (child_keys dir n q nd b c l Hn Hnd Hb Hl) as (k & z & Hk & ->).
  eexists. split; [done|]. by rewrite reach_key, Hz.
Qed.

Lemma behind_kids es : (∀ e, e ∈ es → find_child nd e.1 = Some e.2 ∧ ∀ z, ocmp dir key ((q ++ pfx nd) ++ e.1 :: z) = Gt) →
  filter (ahead dir bound) (es ≫= λ e, und dir e.2) = [].
Proof using All.
  intros H. destruct seek_node as (Hnd & _). apply none_ahead. intros l ([b c] & Hl & He)%list_elem_of_bind.
  destruct (H _ He) as [Hb Hz]. destruct (child_keys dir n q nd b c l Hn Hnd Hb Hl) as (k & z & Hk & ->).
  eexists. split; [done|]. by rewrite reach_key, Hz.
Qed.

(** The exact leaf. *)
Lemma exact_ahead : filter (ahead dir bound) (und dir (exact_leaf nd)) = if reach dir bound (q ++ pfx nd) then und dir (exact_leaf nd) else [].
Proof using All.
  destruct seek_node as (Hnd & _). destruct (reach dir bound (q ++ pfx nd)) eqn:E.
  - apply all_ahead. intros l Hl. exists (q ++ pfx nd). split; [by eapply exact_keys|done].
  - apply none_ahead. intros l Hl. exists (q ++ pfx nd). split; [by eapply exact_keys|done].
Qed.

(** The key ends at the node. *)
Lemma seek_end v : q ++ pfx nd = key → filter (ahead dir bound) (und dir (NodeAt n)) =
  node_rest s B dir nd {| cf_node := NodeAt n; cf_version := v; cf_next := match dir with Forward => 0 | Backward => -1 end; cf_exact := incl |}.
Proof using All.
  intros Ek. destruct seek_node as (Hnd & Hok & _). rewrite (under_node dir n q nd Hn Hnd Hok).
  pose proof exact_ahead as HX. rewrite Ek, reach_key, (proj2 (ocmp_eq _ _ _) eq_refl) in HX.
  assert (∀ e next, e ∈ kids dir nd next → find_child nd e.1 = Some e.2) as HC by (by intros [b c] next [_ ?]%elem_of_kids).
  assert (∀ b z, lex_cmp key (key ++ b :: z) = Lt) as HL by (intros; by apply lex_cmp_prefix).
  pose proof ahead_kids as HA. pose proof behind_kids as HB. unfold node_rest, frame_exact. cbn [cf_exact cf_next].
  clear Hok HK. destruct dir.
  - rewrite filter_app, HX. f_equal. apply HA. intros e He. split; [by eapply HC|].
    intros z. rewrite Ek. apply HL.
  - rewrite filter_app, HX, kids_nil_end. f_equal. apply HB. intros e He. split; [by eapply HC|].
    intros z. rewrite Ek. cbn [ocmp]. by rewrite lex_cmp_antisym, HL.
Qed.

(** The key goes on through the child at [b]. *)
Lemma seek_branch v b z0 : key = (q ++ pfx nd) ++ b :: z0 → filter (ahead dir bound) (und dir (NodeAt n)) =
  filter (ahead dir bound) (from_option (und dir) [] (find_child nd b)) ++ node_rest s B dir nd (seek_frame (NodeAt n) v b dir).
Proof using All.
  intros Ek. destruct seek_node as (Hnd & Hok & _). rewrite (under_node dir n q nd Hn Hnd Hok).
  assert (∀ x z, ocmp dir key ((q ++ pfx nd) ++ x :: z) = if decide (from_next dir (after dir b) x) then Lt
    else if decide (from_next dir (b2z b) x) then ocmp dir key ((q ++ pfx nd) ++ x :: z) else Gt) as HC.
  { intros x z. rewrite Ek. pose proof (lex_cmp_branch (q ++ pfx nd) x b z z0) as X1.
    pose proof (lex_cmp_branch (q ++ pfx nd) b x z0 z) as X2. destruct dir; cbn [from_next after ocmp] in *.
    - case_decide; [apply X2; lia|]. case_decide; [done|]. rewrite lex_cmp_antisym, X1 by lia. done.
    - case_decide; [apply X1; lia|]. case_decide; [done|]. rewrite lex_cmp_antisym, X2 by lia. done. }
  destruct (kids_split dir nd b) as (pre & EK & Hpre).
  assert (filter (ahead dir bound) (kids dir nd (match dir with Forward => 0 | Backward => 255 end) ≫= λ e, und dir e.2) =
    filter (ahead dir bound) (from_option (und dir) [] (find_child nd b)) ++ (kids dir nd (after dir b) ≫= λ e, und dir e.2)) as HKids.
  { rewrite EK, !bind_app, !filter_app, behind_kids, app_nil_l.
    2: { intros e He. destruct (Hpre e He) as [H1 H2]. split; [done|]. intros z. rewrite HC.
         rewrite decide_False, decide_False; [done|done|]. destruct dir; cbn in *; lia. }
    f_equal; [by destruct (find_child nd b); cbn; rewrite ?app_nil_r|]. apply ahead_kids.
    intros [x c] [H1 H2]%elem_of_kids. split; [done|]. intros z. by rewrite HC, decide_True. }
  pose proof exact_ahead as HX. rewrite reach_key in HX.
  assert (lex_cmp (q ++ pfx nd) key = Lt) as HL by (rewrite Ek; by apply lex_cmp_prefix).
  unfold node_rest, frame_exact. clear HC Hpre EK HK. destruct dir; cbn [ocmp seek_frame cf_exact cf_next after] in *.
  - rewrite lex_cmp_antisym, HL in HX. cbn [CompOpp] in HX. rewrite filter_app, HX, HKids, !app_nil_l. reflexivity.
  - rewrite HL in HX. rewrite filter_app, HX, HKids, <- (assoc_L (++)). reflexivity.
Qed.

(** The child at [b] is a leaf that the seek takes: the frame starts at it. *)
Lemma seek_branch_leaf v b l : find_child nd b = Some (LeafAt l) →
  und dir (LeafAt l) ++ node_rest s B dir nd (seek_frame (NodeAt n) v b dir) =
  node_rest s B dir nd (set_next (seek_frame (NodeAt n) v b dir) (b2z b)).
Proof using All.
  intros Hb. symmetry. assert (kids dir nd (b2z b) = [(b, LeafAt l)] ++ kids dir nd (after dir b)) as EK.
  { apply kids_cons; [done|destruct dir; cbn; lia|]. intros x Hx Ha Hne. destruct dir; cbn in *; destruct (byte_trichotomy x b) as [?|[?|?]]; try lia; done. }
  pose proof (b2z_range b) as Hr.
  assert (exact_now dir (set_next (seek_frame (NodeAt n) v b dir) (b2z b)) = false) as Hex.
  { destruct dir; cbn; [done|]. apply Z.ltb_ge. lia. }
  rewrite (next_rest dir nd _ _ _ Hex EK), bind_singleton. f_equal. destruct dir; reflexivity.
Qed.
End seek.

Section seeking.
Context (dir : Dir) (bound : Bound KeyBuf) (sd0 : Side).
Abbreviation target := (filter (ahead dir bound) (und dir (t_root s))).

(** What a seek leaves. *)
Definition seek_post sd : Prop :=
  side_ok s B dir sd ∧ batch_rest sd = [] ∧ sd_batch_in_range sd = false ∧ side_same sd0 sd ∧ side_rest s B dir sd = target.

(** A side without a batch or a pending leaf. *)
Definition bare sd : Prop :=
  side_ok s B dir sd ∧ sd_pending sd = None ∧ sd_batch_len sd = 0%nat ∧ sd_batch_in_range sd = false ∧ side_same sd0 sd.

Lemma bare_post sd : bare sd → stack_rest s B dir (stack_list (sd_stack sd)) = target → seek_post sd.
Proof using.
  intros (HO & Hp & Hl & Hr & HS) E. split_and!; [done|apply batch_rest_nil; lia|done|done|].
  by rewrite side_rest_stack by (done || lia).
Qed.

Lemma bare_push sd n q ob f : bare sd → frames_ok s B dir (length q) (stack_list (sd_stack sd)) →
  B !! n = Some q → t_nodes s !! n = Some ob → cf_node f = NodeAt n → cf_version f = o_latch ob → next_ok dir (cf_next f) →
  bare (side_push sd f) ∧ stack_list (sd_stack (side_push sd f)) = f :: stack_list (sd_stack sd).
Proof using.
  intros (HO & Hp & Hl & Hr & HS) F Hn Hob Hf Hv Hnx.
  destruct (stack_push_ok (sd_stack sd) f (sk_stack _ _ _ _ HO)) as [P1 P2]. split; [|done].
  split_and!; try done. apply side_ok_stack; [done|done|]. rewrite P2. econstructor; try done. by eapply depth_bound_lt.
Qed.

(** The top frame may be moved. *)
Lemma bare_move sd f g fs : bare sd → stack_list (sd_stack sd) = f :: fs → cf_node g = cf_node f → cf_version g = cf_version f →
  next_ok dir (cf_next g) → bare (side_set_stack sd (stack_set_top (sd_stack sd) g)) ∧
  stack_list (stack_set_top (sd_stack sd) g) = g :: fs.
Proof using.
  intros (HO & Hp & Hl & Hr & HS) E E1 E2 Hnx. destruct (stack_cons _ f fs (sk_stack _ _ _ _ HO) E) as (_ & _ & _ & T).
  destruct (T g) as [T1 T2]. split; [|done]. split_and!; try done. apply side_ok_stack; [done|done|]. rewrite T2.
  eapply frames_move; [|done..]. rewrite <- E. apply HO.
Qed.

Section keyed.
Context (incl : bool) (key : path) (HK : bound_key bound = Some (incl, key)).

Definition seek_inv (c : Side * raw * nat) : Prop :=
  let '(sd, r, depth) := c in ∃ n q ob,
    r = NodeAt n ∧ B !! n = Some q ∧ t_nodes s !! n = Some ob ∧ q `prefix_of` key ∧ depth = length q ∧ bare sd ∧
    frames_ok s B dir (length q) (stack_list (sd_stack sd)) ∧ (stack_list (sd_stack sd) = [] → t_root s = NodeAt n) ∧
    target = filter (ahead dir bound) (und dir (NodeAt n)) ++ stack_rest s B dir (stack_list (sd_stack sd)).

Lemma seek_coupled_spec sd n (Q : bool → RawTree L St → Prop) : side_ok s B dir sd →
  (stack_list (sd_stack sd) = [] → t_root s = NodeAt n) → Q true s → wp (seek_coupled sd (NodeAt n)) Q s.
Proof using W.
  intros HO Hr HQ. unfold seek_coupled. destruct (stack_list (sd_stack sd)) as [|f fs] eqn:E.
  - rewrite (stack_nil _ (sk_stack _ _ _ _ HO) E). apply wp_bind, wp_root, wp_ret. rewrite Hr by done. by rewrite bool_decide_true.
  - destruct (stack_cons _ f fs (sk_stack _ _ _ _ HO) E) as (-> & _). pose proof (sk_frames _ _ _ _ HO) as F. rewrite E in F.
    inversion F as [|? ? ? a qa oba Hf Ha Hoba Hv Hnx Hlt Hfs]; subst. rewrite Hf. apply wp_bind, wp_node_ref.
    destruct (linked_node a qa Ha) as (ob' & ? & _ & _ & Hq). assert (ob' = oba) as -> by congruence. rewrite Hv. by eapply wp_validate.
Qed.

Lemma prefix_cases nd : node_ok nd → ps_len (load_prefix nd) = length (pfx nd) ∧
  ∀ i, (i < ps_len (load_prefix nd))%nat → ps_bytes (load_prefix nd) !!! i = pfx nd !!! i.
Proof using.
  intros Hok. pose proof (load_prefix_ok nd Hok) as HP. split; [symmetry; by apply as_slice_length|].
  intros i Hi. unfold pfx, as_slice. rewrite !list_lookup_total_alt, lookup_take_lt by lia. done.
Qed.

Lemma seek_turn_spec bo c : seek_inv c →
  wp (seek_turn key incl dir bo c) (λ r s', s' = s ∧ match r with
    | Continue c' => seek_inv c' ∧ (length key - c'.2 < length key - c.2)%nat
    | Break (Break sd) => seek_post sd
    | Break (Continue _) => False
    end) s.
Proof using All.
  destruct c as [[sd r] depth]. intros (n & q & ob & -> & Hn & Hob & Hq & -> & HB & F & Hroot & HT).
  destruct (linked_node n q Hn) as (ob' & ? & Hnd & Hok & Hqu). assert (ob' = ob) as -> by congruence.
  destruct (prefix_cases (o_node ob) Hok) as [Hpl Hpb].
  cbn [seek_turn]. apply wp_bind, wp_node_ref, wp_bind. eapply wp_read_version; [done..|]. apply wp_bind.
  eapply seek_coupled_spec; [apply HB|done|]. wp_simpl. apply wp_bind. eapply wp_node_read; [done|]. cbv zeta.
  rewrite key_from_drop by done. fold (pfx (o_node ob)). rewrite Hpl.
  assert (∀ f, cf_node f = NodeAt n → frame_rest s B dir f = node_rest s B dir (o_node ob) f) as FR.
  { intros f Hf. by apply (rest_node dir f n). }
  destruct (decide (common_prefix (pfx (o_node ob)) (drop (length q) key) < length (pfx (o_node ob)))%nat) as [Hi|Hi].
  - apply wp_bind. eapply wp_validate; [done..|]. wp_simpl. apply wp_ret. split; [done|].
    pose proof (seek_diverge dir bound incl key HK n q ob Hn Hob Hq Hi) as HD. cbv zeta in HD.
    rewrite Hpb by lia. rewrite HD in HT. destruct (bool_decide _).
    + destruct (bare_push sd n q ob (edge_frame (NodeAt n) (o_latch ob) dir) HB F Hn Hob) as [P1 P2]; [done..|by destruct dir|].
      apply bare_post; [done|]. rewrite P2, HT. unfold stack_rest. by rewrite bind_cons, (edge_frame_rest dir n q) by done.
    + apply bare_post; [done|]. by rewrite HT.
  - destruct (common_prefix_spec (pfx (o_node ob)) (drop (length q) key)) as (C1 & _).
    assert (q ++ pfx (o_node ob) `prefix_of` key) as [rest Ek].
    { apply prefix_of_drop; [done|]. apply common_prefix_prefix. lia. }
    assert (length key = length (q ++ pfx (o_node ob)) + length rest)%nat as Lk by by rewrite Ek, length_app.
    rewrite length_app in Lk. destruct (decide (length q + length (pfx (o_node ob)) = length key)%nat) as [D|D].
    + assert (rest = []) as -> by (apply nil_length_inv; lia). rewrite app_nil_r in Ek.
      apply wp_bind. eapply wp_validate; [done..|]. wp_simpl. apply wp_ret. split; [done|].
      set (f := {| cf_node := NodeAt n; cf_version := _; cf_next := _; cf_exact := _ |}).
      destruct (bare_push sd n q ob f HB F Hn Hob) as [P1 P2]; [done..|by destruct dir|].
      apply bare_post; [done|]. rewrite P2, HT. unfold stack_rest. rewrite bind_cons, (FR f) by done. f_equal. symmetry.
      by apply (seek_end dir bound incl key HK n q ob).
    + destruct rest as [|b z0]; [cbn in Lk; lia|].
      assert (key !! (length q + length (pfx (o_node ob)))%nat = Some b) as Hb.
      { rewrite Ek, <- length_app. by rewrite lookup_app_at. }
      rewrite Hb. apply wp_bind, wp_ret, wp_bind. eapply wp_node_read; [done|]. apply wp_bind.
      eapply wp_validate; [done..|]. wp_simpl.
      rewrite (seek_branch dir bound incl key HK n q ob Hn Hob Hq (o_latch ob) b z0 Ek) in HT.
      set (f := seek_frame (NodeAt n) (o_latch ob) b dir) in *. pose proof (b2z_range b) as Hrb.
      destruct (bare_push sd n q ob f HB F Hn Hob) as [P1 P2]; [by destruct dir..|destruct dir; cbn; lia|].
      assert (stack_rest s B dir (stack_list (sd_stack (side_push sd f))) =
        node_rest s B dir (o_node ob) f ++ stack_rest s B dir (stack_list (sd_stack sd))) as HR.
      { rewrite P2. unfold stack_rest. rewrite bind_cons, FR; [done|by destruct dir]. }
      destruct (find_child (o_node ob) b) as [c|] eqn:Hc; cbn [from_option] in HT.
      2: { apply wp_ret. split; [done|]. apply bare_post; [done|]. by rewrite HR, HT. }
      destruct c as [|l|c]; [by apply (find_child_not_null (R := raw)) in Hc| |].
      * change (is_leaf (LeafAt l)) with true. cbv iota. apply wp_bind, wp_leaf_ref, wp_bind.
        destruct (child_keys dir n q (o_node ob) b (LeafAt l) l Hn Hnd Hc) as (k & z & Hk & _); [rewrite under_leaf; by left|].
        eapply wp_leaf_key; [exact Hk|]. apply wp_ret. split; [done|].
        assert (seek_takes_leaf key incl dir k = reach dir bound k) as ->.
        { rewrite (reach_at dir bound incl key k HK). unfold seek_takes_leaf. destruct dir; cbn [ocmp]; rewrite ?(lex_cmp_antisym k key); by destruct (lex_cmp k key). }
        rewrite under_leaf in HT. destruct (reach dir bound k) eqn:Hre.
        -- destruct (stack_cons _ f _ (sk_stack _ _ _ _ (proj1 P1)) P2) as (-> & _).
           destruct (bare_move _ f (set_next f (b2z b)) _ P1 P2 eq_refl eq_refl) as [M1 M2]; [destruct dir; cbn; lia|].
           apply bare_post; [exact M1|]. cbn [side_set_stack sd_stack]. unfold set_next in M2. rewrite M2, HT.
           rewrite (all_ahead dir bound [l]) by (intros y ->%list_elem_of_singleton; eauto).
           unfold stack_rest. rewrite bind_cons, FR by (by destruct dir). f_equal.
           rewrite <- (under_leaf dir l). symmetry. by apply (seek_branch_leaf dir bound incl key HK n q ob Hn Hob Hq).
        -- apply bare_post; [done|]. rewrite HR, HT. by rewrite (none_ahead dir bound [l]) by (intros y ->%list_elem_of_singleton; eauto).
      * change (is_leaf (NodeAt c)) with false. cbv iota. apply wp_ret. split; [done|].
        pose proof (edge_child (t_root s) _ B n q _ b _ Hn Hnd Hc) as Ed.
        destruct (eo_node _ _ _ _ (wf_edges _ _ _ _ W) _ _ _ Ed) as [_ Hcq].
        destruct (linked_node c _ Hcq) as (obc & Hobc & _). split; [|cbn; lia].
        exists c, (q ++ pfx (o_node ob) ++ [b]), obc. split_and!; [done..| | |done| | |].
        -- rewrite Ek. exists z0. by rewrite <- !(assoc_L (++)).
        -- rewrite !length_app. cbn. lia.
        -- rewrite P2. econstructor; [by destruct dir|exact Hn|exact Hob|by destruct dir|destruct dir; cbn; lia| |done].
           rewrite !length_app. cbn. lia.
        -- by rewrite P2.
        -- by rewrite HR, HT, <- (assoc_L (++)).
Qed.
End keyed.

(** What every operation keeps of a side. *)
Definition side_wf sd : Prop := stack_ok (sd_stack sd) ∧ length (sd_batch sd) = BATCH.

Lemma reset_bare : side_wf sd0 → bare (side_reset sd0) ∧ stack_list (sd_stack (side_reset sd0)) = [].
Proof using.
  intros [H1 H2]. destruct (stack_clear_ok _ H1) as [C1 C2]. split; [|exact C2].
  split_and!; try done. split; cbn [side_reset sd_stack sd_batch sd_batch_len sd_batch_pos sd_pending]; try done.
  - rewrite C2. constructor.
  - lia.
  - intros i Hi. lia.
Qed.

Lemma root_linked n : t_root s = NodeAt n → B !! n = Some [].
Proof using W.
  intros R. destruct (eo_node _ _ _ _ (wf_edges _ _ _ _ W) [] false n) as [_ Hn]; [|done].
  rewrite <- R. apply edge_root. by rewrite R.
Qed.

Lemma seek_attempt_spec b : side_wf sd0 →
  wp (seek_attempt bound dir (b, sd0)) (λ r s', s' = s ∧ match r with Break sd => seek_post sd | Continue _ => False end) s.
Proof using All.
  intros Hw. destruct (reset_bare Hw) as [HB E]. cbn [seek_attempt]. apply wp_bind, wp_root.
  pose proof (wf_edges _ _ _ _ W) as EO. destruct (t_root s) as [|l|n] eqn:R.
  - apply wp_ret. split; [done|]. apply bare_post; [done|]. by rewrite E, R, under_null.
  - destruct (eo_leaf _ _ _ _ EO [] false l) as (k & Hk & _); [rewrite <- R; apply edge_root; by rewrite R|].
    apply wp_bind. eapply wp_leaf_key; [exact Hk|]. apply wp_ret. split; [done|]. rewrite seek_takes_reach.
    destruct (reach dir bound k) eqn:Hre.
    + destruct HB as ([O1 O2 O3 O4 O5 O6] & Hp & Hl & Hr & HS). split_and!; [|by apply batch_rest_nil; cbn; lia|done|done|].
      * split; cbn; try done. intros r [= <-]. by exists l.
      * unfold side_rest. cbn [side_set_pending sd_pending sd_stack from_option]. rewrite E, R, under_leaf, all_ahead; [done|].
        intros y ->%list_elem_of_singleton. eauto.
    + apply bare_post; [done|]. rewrite E, R, under_leaf, none_ahead; [done|]. intros y ->%list_elem_of_singleton. eauto.
  - pose proof (root_linked n R) as Hn. destruct (linked_node n [] Hn) as (ob & Hob & Hnd & Hok & Hq).
    destruct (bound_key bound) as [[incl key]|] eqn:HK.
    + assert (match bound with Included k | Excluded k => keybuf_as_slice k | Unbounded => [] end = key ∧
        match bound with Included _ => true | _ => false end = incl) as [Ek Ei] by (destruct bound; cbn in HK |- *; by simplify_eq).
      assert (wp (loop (S (length key)) (seek_turn key incl dir b) (side_reset sd0, NodeAt n, 0%nat))
        (λ r s', s' = s ∧ match r with Break sd => seek_post sd | Continue _ => False end) s) as X.
      { apply (wp_loop (λ c s', s' = s ∧ seek_inv key c) (λ c, (length key - c.2)%nat)).
        - intros c ? [-> Hc]. eapply wp_mono; [by eapply (seek_turn_spec incl key HK)|].
          intros [c'|[|sd]] s' [-> Hr]; [|done..]. destruct Hr. by split.
        - split; [done|]. exists n, [], ob. rewrite E. split_and!; try done; [apply prefix_nil|constructor|].
          by rewrite R, app_nil_r.
        - cbn. lia. }
      destruct bound; cbn in HK; simplify_eq; exact X.
    + assert (bound = Unbounded) as EU by (destruct bound; [discriminate HK..|done]).
      rewrite EU. apply wp_bind, wp_node_ref, wp_bind. eapply wp_read_version; [done..|]. apply wp_bind, wp_root.
      rewrite R, bool_decide_true by done. apply wp_ret. split; [done|].
      destruct (bare_push (side_reset sd0) n [] ob (edge_frame (NodeAt n) (o_latch ob) dir) HB) as [P1 P2];
        [rewrite E; constructor|done..|by destruct dir|].
      apply bare_post; [done|]. rewrite P2, E, R. unfold stack_rest. rewrite bind_cons, (edge_frame_rest dir n []) by done.
      rewrite all_ahead; [apply app_nil_r|]. intros l Hl.
      destruct (node_keys dir n [] _ l Hn Hnd Hok Hl) as (k & Hk & _). exists k. split; [done|]. by rewrite reach_spec, EU.
Qed.
End seeking.

Lemma seek_spec retries dir bound sd : (0 < retries)%nat → side_wf sd →
  wp (seek retries sd bound dir) (λ sd' s', s' = s ∧ seek_post dir bound sd sd') s.
Proof using All.
  intros Hr Hw. unfold seek. apply wp_loop_once; [done|]. eapply wp_mono; [by apply seek_attempt_spec|].
  by intros [?|sd'] s' [-> H].
Qed.

(** *** The leaves in one direction *)

Abbreviation all dir := (und dir (t_root s)).
Definition key_of (l : loc) : path := default [] (live_key s l).

Lemma all_live dir l : l ∈ all dir ↔ ∃ k, m !! k = Some l.
Proof using W. unfold under. rewrite elem_of_orient, elem_of_leaves_in. by apply (tour_leaf s B m P W). Qed.

Lemma all_key dir l : l ∈ all dir → live_key s l = Some (key_of l).
Proof using W.
  intros [k Hk]%all_live. pose proof (map_live _ _ _ _ _ _ W Hk) as X. unfold key_of. by rewrite X.
Qed.

Abbreviation sorted dir := (StronglySorted (λ l l', ocmp dir (key_of l) (key_of l') = Lt)).

Lemma all_sorted dir : sorted dir (all dir).
Proof using W.
  assert (sorted Forward (all Forward)) as HS.
  { unfold under, orient. pose proof (visit_sorted _ _ _ (live_key s) (wf_edges _ _ _ _ W) (wf_node_oks s B m P W)) as Hs.
    induction Hs as [|r rs _ IH Hr]; [constructor|]. destruct r as [|l|n]; [exact IH| |exact IH].
    rewrite leaves_in_leaf. constructor; [exact IH|]. rewrite Forall_forall in Hr. apply Forall_forall.
    intros l' Hl'%elem_of_leaves_in%Hr. unfold before in Hl'. cbn in Hl' |- *. unfold key_of.
    destruct (live_key s l); cbn in *; [|done]. destruct (live_key s l'); cbn in *; [|done]. destruct Hl' as [|[_ ?]]; [done|lia]. }
  destruct dir; [exact HS|]. unfold under, orient in *. induction HS as [|l ls _ IH Hl]; [constructor|].
  rewrite reverse_cons. apply StronglySorted_app_2; [|exact IH|repeat constructor].
  intros x y Hx ->%list_elem_of_singleton. rewrite elem_of_reverse in Hx. rewrite Forall_forall in Hl. exact (Hl x Hx).
Qed.

Lemma ahead_key dir bound l : l ∈ all dir → ahead dir bound l ↔ reach dir bound (key_of l) = true.
Proof using W. intros Hl%all_key. unfold ahead. by rewrite Hl. Qed.

(** Moving on past the first leaf. *)
Lemma filter_past dir bound l ls U : (∀ x, x ∈ U → x ∈ all dir) → sorted dir U →
  filter (ahead dir bound) U = l :: ls → filter (ahead dir (Excluded (keybuf_new (key_of l)))) U = ls.
Proof using W.
  intros HU HS. induction HS as [|u U _ IH Hu]; [done|]. rewrite Forall_forall in Hu.
  assert (u ∈ all dir) as Hua by (apply HU; by left). assert (∀ x, x ∈ U → x ∈ all dir) as HU' by (intros; apply HU; by right).
  rewrite !filter_cons. destruct (decide (ahead dir bound u)) as [Ha|Ha].
  - intros [= <- E]. rewrite decide_False.
    + rewrite <- E. rewrite !all_ahead; [done|..]; intros x Hx; exists (key_of x).
      * split; [by eapply all_key, HU'|]. apply ahead_key in Ha; [|done]. eapply reach_mono; [exact Ha|by apply Hu].
      * split; [by eapply all_key, HU'|]. rewrite reach_spec, keybuf_slice. by rewrite Hu.
    + rewrite ahead_key, reach_spec, keybuf_slice, (proj2 (ocmp_eq _ _ _) eq_refl) by done. done.
  - intros E. assert (l ∈ filter (ahead dir bound) U) as [Hla Hl]%list_elem_of_filter by (rewrite E; by left).
    rewrite decide_False; [by apply IH|]. rewrite ahead_key in * by auto.
    rewrite reach_spec, keybuf_slice. rewrite (ocmp_antisym dir (key_of u)), (Hu l) by done. done.
Qed.

(** *** The cursor *)

Definition opp (dir : Dir) : Dir := match dir with Forward => Backward | Backward => Forward end.

(** The key that an end resumes from. *)
Definition resume_at (r : Resume) : option path :=
  match r with ResumeLeaf l => live_key s l | ResumeKey k => Some (keybuf_as_slice k) end.

Definition limit (c : CursorState) (dir : Dir) : Bound KeyBuf := match dir with Forward => cu_start c | Backward => cu_end c end.

(** Where an end is. *)
Definition pos (c : CursorState) (dir : Dir) : Bound KeyBuf :=
  match sd_last (cu_side c dir) ≫= resume_at with
  | Some k => Excluded (keybuf_new k)
  | None => limit c dir
  end.

(** What is left to yield, as an end meets it. *)
Definition remaining (c : CursorState) (dir : Dir) : list loc :=
  filter (ahead (opp dir) (pos c (opp dir))) (filter (ahead dir (pos c dir)) (all dir)).

Definition within (c : CursorState) (k : path) : Prop := ∀ dir, reach dir (limit c dir) k = true.

Record end_ok (c : CursorState) (dir : Dir) : Prop := {
  eo_wf : side_wf (cu_side c dir);
  eo_last r : sd_last (cu_side c dir) = Some r → ∃ k, resume_at r = Some k ∧ within c k;
  eo_positioned : cu_done c = false → sd_positioned (cu_side c dir) = true →
    side_ok s B dir (cu_side c dir) ∧ sd_pending (cu_side c dir) = None ∧
    side_rest s B dir (cu_side c dir) = filter (ahead dir (pos c dir)) (all dir) ∧
    (sd_batch_in_range (cu_side c dir) = true → ∀ l, l ∈ batch_rest (cu_side c dir) →
       reach (opp dir) (limit c (opp dir)) (key_of l) = true);
}.

Record cursor_ok (c : CursorState) : Prop := {
  co_end dir : end_ok c dir;
  co_done : cu_done c = true → remaining c Forward = [];
}.

Lemma opp_opp dir : opp (opp dir) = dir.
Proof using. by destruct dir. Qed.

Lemma remaining_opp c dir : remaining c (opp dir) = reverse (remaining c dir).
Proof using.
  unfold remaining. rewrite opp_opp. assert (all (opp dir) = reverse (all dir)) as -> by
    (destruct dir; cbn [opp]; unfold under, orient; by rewrite ?reverse_involutive).
  by rewrite filter_comm, !filter_reverse.
Qed.

Lemma remaining_done c dir : remaining c Forward = [] ↔ remaining c dir = [].
Proof using.
  destruct dir; [done|]. pose proof (remaining_opp c Forward) as E. cbn [opp] in E. rewrite E.
  destruct (remaining c Forward); [done|]. rewrite reverse_cons. split; [done|]. by intros [_ ?]%app_eq_nil.
Qed.

(** A side with the same last key is at the same place. *)
Lemma pos_set c dir dir' sd : sd_last sd = sd_last (cu_side c dir) → pos (cu_set_side c dir sd) dir' = pos c dir'.
Proof using. intros E. unfold pos. destruct dir, dir'; cbn in *; by rewrite ?E. Qed.

Lemma limit_set c dir dir' sd : limit (cu_set_side c dir sd) dir' = limit c dir'.
Proof using. by destruct dir, dir'. Qed.

Lemma side_set c dir sd : cu_side (cu_set_side c dir sd) dir = sd.
Proof using. by destruct dir. Qed.

Lemma side_set_opp c dir sd : cu_side (cu_set_side c dir sd) (opp dir) = cu_side c (opp dir).
Proof using. by destruct dir. Qed.

Lemma side_other c dir : cu_other c dir = cu_side c (opp dir).
Proof using. by destruct dir. Qed.

Lemma dir_cases (F : Dir → Prop) dir : F dir → F (opp dir) → ∀ dir', F dir'.
Proof using. intros H1 H2 dir'. by destruct dir, dir'. Qed.

(** A leaf is yielded: the end moves on past it. *)
Definition taken (c : CursorState) (dir : Dir) (l : loc) : CursorState :=
  cu_set_side c dir (side_set_last (cu_side c dir) (Some (ResumeLeaf l))).

(** The state before a leaf is accepted: it is the next one of the end. *)
Record next_leaf (c : CursorState) (dir : Dir) (l : loc) : Prop := {
  nl_live : l ∈ all dir;
  nl_other : end_ok c (opp dir);
  nl_last r : sd_last (cu_side c dir) = Some r → ∃ k, resume_at r = Some k ∧ within c k;
  nl_side : side_ok s B dir (cu_side c dir);
  nl_pending : sd_pending (cu_side c dir) = None;
  nl_positioned : sd_positioned (cu_side c dir) = true;
  nl_rest : filter (ahead dir (pos c dir)) (all dir) = l :: side_rest s B dir (cu_side c dir);
  nl_range : sd_batch_in_range (cu_side c dir) = true → ∀ l', l' ∈ batch_rest (cu_side c dir) →
    reach (opp dir) (limit c (opp dir)) (key_of l') = true;
}.

(** A key at this end's place is past its limit. *)
Lemma pos_limit c dir k : (∀ r, sd_last (cu_side c dir) = Some r → ∃ k, resume_at r = Some k ∧ within c k) →
  reach dir (pos c dir) k = true → reach dir (limit c dir) k = true.
Proof using.
  intros HL. unfold pos. destruct (sd_last (cu_side c dir)) as [r|] eqn:E; cbn; [|done].
  destruct (HL r eq_refl) as (k' & -> & Hw). rewrite reach_spec, keybuf_slice. intros Hlt.
  eapply reach_mono; [apply Hw|]. by destruct (ocmp dir k' k).
Qed.

(** The other end takes the leaf or nothing of what is left. *)
Lemma remaining_cons c dir l ls : filter (ahead dir (pos c dir)) (all dir) = l :: ls →
  if reach (opp dir) (pos c (opp dir)) (key_of l)
  then remaining c dir = l :: filter (ahead (opp dir) (pos c (opp dir))) ls
  else remaining c dir = [].
Proof using W.
  intros E. unfold remaining. rewrite E. assert (∀ x, x ∈ l :: ls → x ∈ all dir) as Hin.
  { intros x Hx. rewrite <- E in Hx. by apply list_elem_of_filter in Hx as [_ ?]. }
  assert (∀ x, x ∈ all dir → x ∈ all (opp dir)) as Hopp by (intros x; rewrite !all_live; done).
  assert (sorted dir (l :: ls)) as HS.
  { rewrite <- E. apply StronglySorted_filter, all_sorted. }
  apply StronglySorted_cons in HS as [Hl _]. rewrite Forall_forall in Hl.
  destruct (reach (opp dir) (pos c (opp dir)) (key_of l)) eqn:Hr.
  - rewrite filter_cons_True; [done|]. apply ahead_key; [|done]. apply Hopp, Hin. by left.
  - apply filter_nil. intros x Hx. rewrite ahead_key by auto. apply elem_of_cons in Hx as [->|Hx]; [congruence|].
    intros Hrx. assert (reach (opp dir) (pos c (opp dir)) (key_of l) = true); [|congruence].
    eapply reach_mono; [exact Hrx|]. specialize (Hl x Hx). by destruct dir.
Qed.

(** The other end does not notice. *)
Lemma end_ok_ext c c' dir : end_ok c dir → cu_side c' dir = cu_side c dir → (cu_done c' = false → cu_done c = false) → (∀ d, limit c' d = limit c d) → end_ok c' dir.
Proof using.
  intros [E1 E2 E3] ES ED EL. assert (pos c' dir = pos c dir) as EP by (unfold pos; by rewrite ES, EL).
  split; rewrite ?ES; [done| |].
  - intros r Hr. destruct (E2 r Hr) as (k & ? & Hw). exists k. split; [done|]. intros d. by rewrite EL.
  - rewrite EP, EL. auto.
Qed.

Lemma taken_limit c dir l d : limit (taken c dir l) d = limit c d.
Proof using. apply limit_set. Qed.

Lemma taken_ok c dir l : next_leaf c dir l → cu_done c = false → reach (opp dir) (pos c (opp dir)) (key_of l) = true →
  cursor_ok (taken c dir l) ∧ remaining c dir = l :: remaining (taken c dir l) dir.
Proof using W.
  intros [N1 N2 N3 N4 N5 N6 N7 N8] Hd Hr. pose proof (all_key dir l N1) as Hk.
  assert (pos (taken c dir l) dir = Excluded (keybuf_new (key_of l))) as EP.
  { unfold pos, taken. rewrite side_set. cbn [side_set_last sd_last mbind option_bind resume_at]. by rewrite Hk. }
  assert (pos (taken c dir l) (opp dir) = pos c (opp dir)) as EO.
  { unfold pos, taken. by rewrite side_set_opp, limit_set. }
  assert (filter (ahead dir (Excluded (keybuf_new (key_of l)))) (all dir) = side_rest s B dir (cu_side c dir)) as ER.
  { eapply filter_past; [done|apply all_sorted|exact N7]. }
  assert (reach dir (limit c dir) (key_of l) = true) as Hlim.
  { apply pos_limit; [exact N3|]. apply ahead_key; [done|].
    assert (l ∈ filter (ahead dir (pos c dir)) (all dir)) as [? _]%list_elem_of_filter by (rewrite N7; by left). done. }
  split.
  - split; [|intros Hx; assert (cu_done (taken c dir l) = cu_done c) by (by destruct dir); congruence]. apply (dir_cases _ dir).
    + assert (cu_side (taken c dir l) dir = side_set_last (cu_side c dir) (Some (ResumeLeaf l))) as ET by apply side_set.
      split; rewrite ?ET.
      * split; apply N4.
      * intros r [= <-]. exists (key_of l). split; [done|]. intros d. rewrite taken_limit. revert d. apply (dir_cases _ dir); [done|].
        apply pos_limit; [apply N2|done].
      * intros _ _. split_and!; [by destruct N4 as [? ? ? ? ? ?]; split|done| |].
        -- by rewrite EP, ER.
        -- rewrite taken_limit. exact N8.
    + apply (end_ok_ext c); [done|apply side_set_opp|done|apply taken_limit].
  - pose proof (remaining_cons c dir l _ N7) as RC. rewrite Hr in RC. rewrite RC. unfold remaining. by rewrite EP, EO, ER.
Qed.

(** The check of the far bound and the other end is the place of that end. *)
Lemma accept_test c dir k : end_ok c (opp dir) →
  reach (opp dir) (pos c (opp dir)) k = far_ok c dir k && match sd_last (cu_side c (opp dir)) ≫= resume_at with
    | Some k' => negb (match dir with Forward => is_ge (cmp_keys k k') | Backward => is_le (cmp_keys k k') end)
    | None => true end.
Proof using.
  intros HO. assert (far_ok c dir k = reach (opp dir) (limit c (opp dir)) k) as -> by by destruct dir.
  unfold pos. destruct (sd_last (cu_side c (opp dir))) as [r|] eqn:E; cbn [mbind option_bind]; [|by rewrite andb_true_r].
  destruct (eo_last _ _ HO r E) as (k' & -> & Hw). rewrite reach_spec, keybuf_slice, cmp_keys_lex.
  specialize (Hw (opp dir)). pose proof (reach_mono (opp dir) _ k' k Hw) as HM.
  pose proof (lex_cmp_antisym k k') as Ea.
  destruct dir; cbn [opp ocmp] in *; [|rewrite Ea in HM |- *]; clear Ea; destruct (lex_cmp k k');
    cbn [CompOpp is_lt is_ge is_le negb] in *; rewrite ?HM, ?andb_false_r by done; reflexivity.
Qed.

Definition advanced (c : CursorState) (dir : Dir) (r : option loc * CursorState) : Prop :=
  cursor_ok r.2 ∧ (∀ d, limit r.2 d = limit c d) ∧
  match r.1 with
  | Some l => remaining c dir = l :: remaining r.2 dir
  | None => remaining c dir = [] ∧ remaining r.2 dir = []
  end.

Lemma accept_spec c dir l : next_leaf c dir l → cu_done c = false →
  wp (accept c dir (LeafAt l)) (λ r s', s' = s ∧ advanced c dir r) s.
Proof using All.
  intros HN Hd. unfold accept. apply wp_bind, wp_leaf_ref, wp_bind.
  eapply wp_leaf_key; [by eapply all_key, HN|]. rewrite side_other.
  pose proof (accept_test c dir (key_of l) (nl_other _ _ _ HN)) as HT.
  apply wp_bind. apply (wp_mono _ (λ b s', s' = s ∧ reach (opp dir) (pos c (opp dir)) (key_of l) = far_ok c dir (key_of l) && negb b)).
  { destruct (sd_last (cu_side c (opp dir))) as [r|] eqn:E; [|apply wp_ret; by rewrite HT].
    destruct (eo_last _ _ (nl_other _ _ _ HN) r E) as (k' & Hk' & _). cbn in HT. rewrite Hk' in HT.
    apply wp_bind. destruct r as [l'|kb]; cbn in Hk' |- *.
    - eapply wp_leaf_key; [exact Hk'|]. apply wp_ret. split; [done|exact HT].
    - simplify_eq. apply wp_ret, wp_ret. split; [done|exact HT]. }
  intros crossed s' [-> Hr]. destruct (reach (opp dir) (pos c (opp dir)) (key_of l)) eqn:Hx.
  - symmetry in Hr. apply andb_prop in Hr as [-> Hc]. apply negb_true_iff in Hc as ->. cbn [negb orb]. apply wp_ret.
    split; [done|]. destruct (taken_ok c dir l HN Hd Hx) as [T1 T2]. split_and!; [done|apply taken_limit|done].
  - assert (negb (far_ok c dir (key_of l)) || crossed = true) as ->.
    { destruct (far_ok c dir (key_of l)), crossed; done. }
    apply wp_ret. split; [done|]. pose proof (remaining_cons c dir l _ (nl_rest _ _ _ HN)) as RC. rewrite Hx in RC.
    assert (∀ d, cu_side (cu_finish c) d = cu_side c d) as ES by by intros [].
    assert (∀ d, limit (cu_finish c) d = limit c d) as EL by by intros [].
    assert (∀ d, remaining (cu_finish c) d = remaining c d) as ERm by (intros d; unfold remaining, pos; by rewrite !ES, !EL).
    split_and!; [|done|cbn; split; [exact RC|by rewrite ERm]]. split; [|intros _; rewrite ERm; by apply (remaining_done c dir)].
    apply (dir_cases _ dir).
    + split; rewrite ?ES; [split; apply HN| |done]. intros r Hlast. destruct (nl_last _ _ _ HN r Hlast) as (k & ? & Hw).
      exists k. split; [done|]. intros d. rewrite EL. apply Hw.
    + apply (end_ok_ext c); [apply HN|done|done|done].
Qed.

(** A side in place: what it stands for is what its end has left. *)
Record ready (c : CursorState) (dir : Dir) sd : Prop := {
  rd_side : side_ok s B dir sd;
  rd_last : sd_last sd = sd_last (cu_side c dir);
  rd_positioned : sd_positioned sd = true;
  rd_rest : side_rest s B dir sd = filter (ahead dir (pos c dir)) (all dir);
  rd_range : sd_batch_in_range sd = true → ∀ l, l ∈ batch_rest sd → reach (opp dir) (limit c (opp dir)) (key_of l) = true;
}.

Lemma advanced_set c dir sd r : sd_last sd = sd_last (cu_side c dir) →
  advanced (cu_set_side c dir sd) dir r → advanced c dir r.
Proof using.
  intros E (H1 & H2 & H3). assert (remaining (cu_set_side c dir sd) dir = remaining c dir) as ER.
  { unfold remaining. by rewrite !pos_set. }
  split_and!; [done|intros d; by rewrite H2, limit_set|]. by rewrite ER in H3.
Qed.

(** The side moves to [sd], past the leaf that it yields. *)
Lemma next_leaf_intro c dir sd l : cursor_ok c → cu_done c = false → side_ok s B dir sd → sd_pending sd = None →
  sd_last sd = sd_last (cu_side c dir) → sd_positioned sd = true →
  filter (ahead dir (pos c dir)) (all dir) = l :: side_rest s B dir sd →
  (sd_batch_in_range sd = true → ∀ l', l' ∈ batch_rest sd → reach (opp dir) (limit c (opp dir)) (key_of l') = true) →
  next_leaf (cu_set_side c dir sd) dir l.
Proof using.
  intros [HE _] Hd HO Hp El Hpos HR Hrg. split; rewrite ?side_set, ?pos_set, ?limit_set by done; try done.
  - assert (l ∈ filter (ahead dir (pos c dir)) (all dir)) as [_ ?]%list_elem_of_filter by (rewrite HR; by left). done.
  - apply (end_ok_ext c); [apply HE|apply side_set_opp|by destruct dir|intros d; apply limit_set].
  - intros r Hr. rewrite El in Hr. destruct (eo_last _ _ (HE dir) r Hr) as (k & ? & Hw). exists k. split; [done|].
    intros d. by rewrite limit_set.
Qed.

Lemma accept_moved c dir sd l : cursor_ok c → cu_done c = false → side_ok s B dir sd → sd_pending sd = None →
  sd_last sd = sd_last (cu_side c dir) → sd_positioned sd = true →
  filter (ahead dir (pos c dir)) (all dir) = l :: side_rest s B dir sd →
  (sd_batch_in_range sd = true → ∀ l', l' ∈ batch_rest sd → reach (opp dir) (limit c (opp dir)) (key_of l') = true) →
  wp (accept (cu_set_side c dir sd) dir (LeafAt l)) (λ r s', s' = s ∧ advanced c dir r) s.
Proof using All.
  intros. eapply wp_mono; [apply accept_spec; [by apply next_leaf_intro|by destruct dir]|].
  intros r s' [-> HA]. split; [done|]. by eapply advanced_set.
Qed.

(** A batch whose last leaf is in range is in range. *)
Lemma batch_in_range c dir sd l l' ls : filter (ahead dir (pos c dir)) (all dir) = ls → (l :: batch_rest sd) `prefix_of` ls →
  last (l :: batch_rest sd) = Some l' → reach (opp dir) (limit c (opp dir)) (key_of l') = true →
  ∀ x, x ∈ batch_rest sd → reach (opp dir) (limit c (opp dir)) (key_of x) = true.
Proof using W.
  intros E [rest Els] Hlast Hr x Hx.
  assert (sorted dir (l :: batch_rest sd)) as HS.
  { assert (sorted dir ((l :: batch_rest sd) ++ rest)) as HS by (rewrite <- Els, <- E; apply StronglySorted_filter, all_sorted).
    by apply StronglySorted_app_1_l in HS. }
  apply last_Some in Hlast as [pre Epre]. rewrite Epre in HS. assert (x ∈ pre ++ [l']) as Hx' by (rewrite <- Epre; by right).
  apply elem_of_app in Hx' as [Hx'| ->%list_elem_of_singleton]; [|done].
  apply StronglySorted_app in HS as (HS & _ & _). specialize (HS x l' Hx' ltac:(by left)). eapply reach_mono; [exact Hr|].
  by destruct dir.
Qed.

(** A cursor that is done keeps what it resumes from. *)
Lemma end_finished c c' dir : end_ok c dir → (∀ d, limit c' d = limit c d) → side_wf (cu_side c' dir) →
  sd_last (cu_side c' dir) = sd_last (cu_side c dir) → cu_done c' = true → end_ok c' dir.
Proof using.
  intros [E1 E2 E3] EL HW El Hd. split; [done| |congruence]. rewrite El. intros r Hr.
  destruct (E2 r Hr) as (k & ? & Hw). exists k. split; [done|]. intros d. by rewrite EL.
Qed.

(** The side is in place, or a seek puts it there. *)
Lemma position_spec fuel c dir (Q : Side → RawTree L St → Prop) : cursor_ok c → cu_done c = false → (0 < fuel)%nat →
  (∀ sd, ready c dir sd → Q sd s) →
  wp (if sd_positioned (cu_side c dir) then mret (cu_side c dir)
      else
        bound ← match sd_last (cu_side c dir), dir with
                | Some r, _ => k ← resume_key r; mret (Excluded (keybuf_new k))
                | None, Forward => mret (cu_start c)
                | None, Backward => mret (cu_end c)
                end;
        sd ← seek fuel (cu_side c dir) bound dir;
        mret (side_set_positioned sd true)) Q s.
Proof using All.
  intros [HE _] Hd Hf HQ. destruct (HE dir) as [E1 E2 E3]. destruct (sd_positioned (cu_side c dir)) eqn:Hpos.
  - apply wp_ret, HQ. destruct (E3 Hd eq_refl) as (H1 & H2 & H3 & H4). by split.
  - apply wp_bind. apply (wp_mono _ (λ b s', s' = s ∧ b = pos c dir)).
    { unfold pos. destruct (sd_last (cu_side c dir)) as [r|] eqn:El; [|destruct dir; by apply wp_ret].
      destruct (E2 r eq_refl) as (k & Hk & _). cbn [mbind option_bind]. rewrite Hk. apply wp_bind.
      destruct r as [l|kb]; cbn in Hk |- *; [eapply wp_leaf_key; [exact Hk|]; by apply wp_ret|]. simplify_eq. by apply wp_ret, wp_ret. }
    intros b s' [-> ->]. apply wp_bind. eapply wp_mono; [by apply seek_spec|].
    intros sd s' [-> (P1 & P2 & P3 & [P4 P5] & P6)]. apply wp_ret, HQ.
    split; [by destruct P1; split|done|done|done|]. cbn. by rewrite P3.
Qed.

Lemma advance_turn_spec fuel dir c : cursor_ok c → (cursor_fuel <= fuel)%nat →
  wp (advance_turn fuel dir c) (λ r s', s' = s ∧ match r with Break r => advanced c dir r | Continue _ => False end) s.
Proof using All.
  intros HC Hf. assert (0 < fuel)%nat as Hf0 by (unfold cursor_fuel in Hf; lia). unfold advance_turn.
  destruct (cu_done c) eqn:Hd.
  { apply wp_ret. split; [done|]. pose proof (co_done c HC Hd) as HR. rewrite (remaining_done c dir) in HR. by split_and!. }
  cbv zeta. apply wp_bind. apply position_spec; [done..|]. intros sd [R1 R2 R3 R4 R5].
  destruct (sd_pending sd) as [r|] eqn:Hp.
  - destruct (sk_pending _ _ _ _ R1 r Hp) as [l ->]. apply wp_bind.
    eapply wp_mono; [eapply (accept_moved c dir (side_set_pending sd None) l HC Hd)|]; try done.
    + by destruct R1; split.
    + rewrite <- R4. unfold side_rest. rewrite Hp. done.
  - apply wp_bind. eapply wp_mono; [apply (step_spec fuel dir sd R1 Hp); pose proof (side_turns dir sd R1); lia|].
    intros [st sd'] s' [-> (S1 & S2 & [S3 S4] & S5)]. destruct st as [r|r| |].
    + destruct S5 as (l & -> & S5 & S6 & S7). apply wp_bind.
      eapply wp_mono; [eapply (accept_moved c dir sd' l HC Hd); try done|intros r s' HA; apply wp_ret; exact HA].
      * congruence.
      * congruence.
      * by rewrite <- R4.
      * rewrite S6. intros Hrg l' Hl'. apply R5; [done|]. by apply S7.
    + destruct S5 as (l & l' & -> & S5 & S6 & S7 & S8). apply wp_bind. rewrite (list_lookup_total_correct _ _ _ S7).
      apply wp_leaf_ref, wp_bind.
      assert (∀ x, x ∈ l :: batch_rest sd' → x ∈ all dir) as Hin.
      { intros x Hx. assert (x ∈ filter (ahead dir (pos c dir)) (all dir)) as [_ ?]%list_elem_of_filter; [|done].
        rewrite <- R4, S5. unfold side_rest. rewrite S2. cbn [from_option]. set_solver. }
      eapply wp_leaf_key; [apply (all_key dir), Hin; apply last_Some in S8 as [pre ->]; set_solver|].
      set (sd2 := side_set_batch _ _ _ _ _). apply wp_bind.
      eapply wp_mono; [eapply (accept_moved c dir sd2 l HC Hd); try done|intros r s' HA; apply wp_ret; exact HA].
      * by destruct S1; split.
      * cbn. congruence.
      * cbn. congruence.
      * by rewrite <- R4.
      * cbn. intros Hrg. eapply (batch_in_range c dir sd' l l' _ eq_refl); [|exact S8|by destruct dir].
        rewrite <- R4, S5. unfold side_rest. rewrite S2. cbn [from_option]. eexists. reflexivity.
    + apply wp_ret. split; [done|]. rewrite R4 in S5.
      assert (remaining c dir = []) as HR by (unfold remaining; by rewrite S5).
      assert (remaining (cu_finish (cu_set_side c dir sd')) dir = []) as HR2.
      { rewrite <- HR. unfold remaining. rewrite <- !(pos_set c dir _ sd') by congruence. by destruct dir. }
      split_and!; [|by intros d; destruct dir, d|cbn; by split].
      split; [|intros _; by apply (remaining_done _ dir)].
      assert (cu_side (cu_finish (cu_set_side c dir sd')) dir = sd') as ES by by destruct dir.
      assert (cu_side (cu_finish (cu_set_side c dir sd')) (opp dir) = cu_side c (opp dir)) as EO by by destruct dir.
      cbn [snd]. apply (dir_cases _ dir); (apply (end_finished c); [apply HC|by intros d; destruct dir, d| | |by destruct dir]).
      * rewrite ES. split; apply S1.
      * rewrite ES. congruence.
      * rewrite EO. apply HC.
      * by rewrite EO.
    + done.
Qed.

Lemma advance_spec fuel c dir : cursor_ok c → (cursor_fuel <= fuel)%nat →
  wp (advance fuel c dir) (λ r s', s' = s ∧ advanced c dir r) s.
Proof using All.
  intros HC Hf. unfold advance.
  cbv zeta. match goal with |- wp (if ?b then _ else _) _ _ => destruct b eqn:Hfast end.
  - rewrite !andb_true_iff, !bool_decide_eq_true, negb_true_iff, side_other in Hfast.
    destruct Hfast as (((((F1 & F2) & F3) & F4) & F5) & F6).
    destruct (eo_positioned _ _ (co_end _ HC dir) F6 F5) as (H1 & H2 & H3 & H4).
    destruct (sk_leaves _ _ _ _ H1 (sd_batch_pos (cu_side c dir))) as [l Hl]; [lia|].
    rewrite (list_lookup_total_correct _ _ _ Hl). apply wp_bind, wp_leaf_ref, wp_ret. split; [done|].
    pose proof (batch_pop dir _ l H1 Hl F2) as HB. set (sd := side_advance_batch (cu_side c dir)) in *.
    assert (next_leaf (cu_set_side c dir sd) dir l) as HN.
    { apply next_leaf_intro; try done.
      - destruct H1 as [O1 O2 O3 O4 O5 O6]. split; cbn; try done. intros i Hi. apply O5. lia.
      - rewrite <- H3. unfold side_rest. rewrite HB. cbn [sd side_advance_batch side_set_batch sd_pending sd_stack]. by rewrite H2.
      - intros _ l' Hl'. apply H4; [done|]. rewrite HB. by right. }
    assert (reach (opp dir) (limit c (opp dir)) (key_of l) = true) as Hr by (apply H4; [done|]; rewrite HB; by left).
    destruct (taken_ok _ dir l HN) as [T1 T2]; [by destruct dir| |].
    { rewrite pos_set by done. unfold pos. rewrite F3. done. }
    apply (advanced_set c dir sd); [done|].
    replace (cu_set_side c dir (side_set_last sd (Some (ResumeLeaf l)))) with (taken (cu_set_side c dir sd) dir l) by by destruct dir.
    split_and!; [exact T1|apply taken_limit|exact T2].
  - unfold advance_slow. apply wp_loop_once; [unfold cursor_fuel in Hf; lia|].
    eapply wp_mono; [by apply advance_turn_spec|]. by intros [c'|r] s' [-> HA].
Qed.

(** *** Invalidation *)

Lemma invalidate_side_spec c dir (Q : Side → RawTree L St → Prop) : end_ok c dir →
  (∀ sd, side_wf sd → sd_positioned sd = false → sd_last sd ≫= resume_at = sd_last (cu_side c dir) ≫= resume_at →
     (∀ r, sd_last sd = Some r → ∃ k, resume_at r = Some k ∧ within c k) → Q sd s) →
  wp (invalidate_side (cu_side c dir)) Q s.
Proof using All.
  intros [[E1 E1'] E2 E3] HQ. unfold invalidate_side. cbv zeta.
  change (sd_last (side_reset ?x)) with (sd_last x). change (sd_last (side_set_positioned ?x _)) with (sd_last x).
  assert (∀ l, side_wf (side_set_last (side_reset (side_set_positioned (cu_side c dir) false)) l)) as HW.
  { intros l. split; [by apply stack_clear_ok|done]. }
  destruct (sd_last (cu_side c dir)) as [r|] eqn:El.
  - destruct (E2 r eq_refl) as (k & Hk & Hw).
    assert (Q (side_set_last (side_reset (side_set_positioned (cu_side c dir) false)) (Some (ResumeKey (keybuf_new k)))) s) as HQk.
    { apply HQ; [apply HW|done| |].
      - cbn [side_set_last sd_last mbind option_bind resume_at]. by rewrite keybuf_slice, Hk.
      - intros r' [= <-]. exists k. cbn. by rewrite keybuf_slice. }
    apply wp_bind. destruct r as [l|kb]; cbn in Hk |- *.
    + eapply wp_leaf_key; [exact Hk|]. by apply wp_ret.
    + simplify_eq. by apply wp_ret, wp_ret.
  - apply wp_ret, HQ; [split; [by apply stack_clear_ok|done]|done|cbn; by rewrite El|]. intros r Hr. cbn in Hr. congruence.
Qed.

Lemma invalidate_spec c : cursor_ok c →
  wp (invalidate c) (λ c' s', s' = s ∧ cursor_ok c' ∧ (∀ d, limit c' d = limit c d) ∧ ∀ d, remaining c' d = remaining c d) s.
Proof using All.
  intros HC. unfold invalidate. apply wp_bind. apply (invalidate_side_spec c Forward); [apply HC|].
  intros f F1 F2 F3 F4. apply wp_bind. apply (invalidate_side_spec c Backward); [apply HC|].
  intros b B1 B2 B3 B4. apply wp_ret. split; [done|]. set (c' := cu_set_side _ _ _).
  assert (∀ d, limit c' d = limit c d) as EL by by intros [].
  assert (∀ d, pos c' d = pos c d) as EP by (intros []; unfold pos; cbn in F3, B3 |- *; rewrite ?F3, ?B3; done).
  assert (∀ d, remaining c' d = remaining c d) as ER by (intros d; unfold remaining; by rewrite !EP).
  split_and!; [|done|done]. split; [|intros Hd; rewrite ER; by apply (co_done c HC)].
  intros []; (split; cbn; [done| |congruence]).
  - intros r Hr. destruct (F4 r Hr) as (k & ? & Hw). exists k. split; [done|]. intros d. by rewrite EL.
  - intros r Hr. destruct (B4 r Hr) as (k & ? & Hw). exists k. split; [done|]. intros d. by rewrite EL.
Qed.

(** *** A new cursor *)

Lemma cursor_new_ok start end_ : cursor_ok (cursor_new start end_).
Proof using.
  split; [|done]. intros dir. assert (cu_side (cursor_new start end_) dir = side_new) as E by by destruct dir.
  split; rewrite ?E; [|done..]. split; [apply stack_new_ok|done].
Qed.
End at_rest.
End spec.

(** ** Sequences of operations *)

(** An end yields, or the cursor is invalidated before a repin. *)
Inductive cursor_op := Yield (dir : Dir) | Invalidate.

Fixpoint cursor_run {L} `{LeafNode L} (fuel : nat) (c : CursorState) (ops : list cursor_op) : prog L (list (option loc)) :=
  match ops with
  | [] => mret []
  | Yield dir :: ops => '(o, c) ← advance fuel c dir; os ← cursor_run fuel c ops; mret (o :: os)
  | Invalidate :: ops => c ← invalidate c; cursor_run fuel c ops
  end.

(** A double-ended queue. *)
Definition pop {A} (dir : Dir) (ls : list A) : option A * list A :=
  match orient dir ls with
  | [] => (None, [])
  | l :: ls => (Some l, orient dir ls)
  end.

Fixpoint deque {A} (ls : list A) (ops : list cursor_op) : list (option A) :=
  match ops with
  | [] => []
  | Yield dir :: ops => let '(o, ls) := pop dir ls in o :: deque ls ops
  | Invalidate :: ops => deque ls ops
  end.

(** Keys on the right side of one bound, and between two. *)
Definition beyond (dir : Dir) (bound : Bound path) (k : path) : Prop :=
  match bound with
  | Included b => b = k ∨ ocmp dir b k = Lt
  | Excluded b => ocmp dir b k = Lt
  | Unbounded => True
  end.
Definition inside (start end_ : Bound path) (k : path) : Prop := beyond Forward start k ∧ beyond Backward end_ k.

Lemma reach_owned dir bound k : reach dir (owned_bound bound) k = true ↔ beyond dir bound k.
Proof.
  rewrite reach_spec. destruct bound as [b|b|]; cbn [owned_bound beyond]; [..|done]; rewrite keybuf_slice.
  - rewrite <- (ocmp_eq dir). destruct (ocmp dir b k); naive_solver.
  - destruct (ocmp dir b k); naive_solver.
Qed.

Lemma Forall2_orient {A A'} (R : A → A' → Prop) dir ls es : Forall2 R ls es → Forall2 R (orient dir ls) (orient dir es).
Proof. destruct dir; [done|apply Forall2_reverse]. Qed.

Lemma pop_Forall2 {A A'} (R : A → A' → Prop) dir ls es : Forall2 R ls es →
  option_Forall2 R (pop dir ls).1 (pop dir es).1 ∧ Forall2 R (pop dir ls).2 (pop dir es).2.
Proof.
  intros H. unfold pop. destruct (Forall2_orient R dir ls es H) as [|l e ls' es' Hl Hs]; [by split; constructor|].
  split; [by constructor|by apply Forall2_orient].
Qed.

Section sequences.
Context {L St : Type} {LN : LeafNode L} {LL : LeafLaws L} {LY : Layout St} {EX : Exempt}.
Context (s : RawTree L St) (m : gmap path loc) (B : gmap loc path) (P : gset loc) (W : wf s B m P).

Lemma remaining_orient c dir : remaining s B c dir = orient dir (remaining s B c Forward).
Proof using. destruct dir; [done|]. exact (remaining_opp s B c Forward). Qed.

(** One end yields what the queue pops there. *)
Lemma advance_pops fuel c dir : cursor_ok s B c → (cursor_fuel s B <= fuel)%nat →
  wp (advance fuel c dir) (λ r s', s' = s ∧ cursor_ok s B r.2 ∧
    (r.1, remaining s B r.2 Forward) = pop dir (remaining s B c Forward)) s.
Proof using W LL LY.
  intros HC Hf. eapply wp_mono; [by eapply (advance_spec s m B P W)|]. intros [o c'] s' [-> (H1 & _ & H3)].
  cbn [fst snd] in *. split_and!; [done..|]. unfold pop.
  rewrite (remaining_orient c dir), (remaining_orient c' dir) in H3. destruct o as [l|].
  - by rewrite H3, orient_orient.
  - destruct H3 as [-> E]. apply (f_equal (orient dir)) in E. rewrite orient_orient in E. rewrite E. by destruct dir.
Qed.

Lemma cursor_run_spec fuel c ops : cursor_ok s B c → (cursor_fuel s B <= fuel)%nat →
  wp (cursor_run fuel c ops) (λ os s', s' = s ∧ os = deque (remaining s B c Forward) ops) s.
Proof using W LL LY.
  intros HC Hf. revert c HC. induction ops as [|[dir|] ops IH]; intros c HC; cbn [cursor_run deque]; [by apply wp_ret| |].
  - apply wp_bind. eapply wp_mono; [by apply advance_pops|]. intros [o c'] s' [-> [H1 <-]].
    apply wp_bind. eapply wp_mono; [by apply IH|]. intros os s' [-> ->]. by apply wp_ret.
  - apply wp_bind. eapply wp_mono; [by eapply (invalidate_spec s m B P W)|]. intros c' s' [-> (H1 & _ & H3)].
    eapply wp_mono; [by apply IH|]. intros os s' [-> ->]. by rewrite H3.
Qed.

(** What a new cursor has to yield: the leaves with keys in the range, in order. *)
Lemma remaining_new start end_ : let ls := remaining s B (cursor_new (owned_bound start) (owned_bound end_)) Forward in
  StronglySorted (λ l l', lex_cmp (key_of s l) (key_of s l') = Lt) ls ∧
  ∀ l, l ∈ ls ↔ ∃ k, m !! k = Some l ∧ inside start end_ k.
Proof using W.
  cbv zeta. set (c := cursor_new _ _). unfold remaining. cbn [opp]. change (pos s c Forward) with (owned_bound start).
  change (pos s c Backward) with (owned_bound end_). split.
  - apply StronglySorted_filter, StronglySorted_filter. exact (all_sorted s m B P W Forward).
  - intros l. rewrite !list_elem_of_filter. unfold ahead, inside. split.
    + intros (H1 & H2 & Hl). rewrite (all_key s m B P W Forward l Hl) in H1, H2. apply reach_owned in H1, H2.
      apply (all_live s m B P W) in Hl as [k Hk]. pose proof (map_live _ _ _ _ _ _ W Hk) as Hlk.
      exists k. assert (key_of s l = k) as <- by (unfold key_of; by rewrite Hlk). by split_and!.
    + intros (k & Hk & H1%reach_owned & H2%reach_owned). rewrite (map_live _ _ _ _ _ _ W Hk).
      split_and!; [done..|]. apply (all_live s m B P W). eauto.
Qed.
End sequences.
