(* ===== verification/Tree.v ===== *)
(** * The heap tree behind the maps ([src/tree.rs], [src/node.rs], [src/key.rs])

    Keys are seen through [AsBytes], which is taken to be deterministic.
    [Tree::insert] allocates a leaf, inserts it under an owner, and drops the
    owner; [Tree::remove] and [Tree::remove_leaf] give the remove algorithm its
    callback; [Drop] destroys the tree. *)

From S2P Require Import Prelude Bytes Latch Slot Bits Node Free Mem Raw Read Write Remove Walk.
From Stdlib Require Import Strings.String.
Local Open Scope Z_scope.

(** ** Keys *)

Class AsBytes (K : Type) := as_bytes : K → list byte.
#[global] Hint Mode AsBytes ! : typeclass_instances.

(** [[u8]], [[u8; N]], [Vec<u8>] and [ByteSlice]; [str] and [String]; [u8]. *)
#[export] Instance bytes_as_bytes : AsBytes (list byte) := λ k, k.
#[export] Instance string_as_bytes : AsBytes string := list_byte_of_string.
#[export] Instance u8_as_bytes : AsBytes byte := λ b, [b].

(** ** Leaves *)

(** [Leaf]: a key, a value, and the removed flag. *)
Record Leaf (K V : Type) := { lf_key : K; lf_value : V; lf_removed : bool }.
Arguments lf_key {K V}. Arguments lf_value {K V}. Arguments lf_removed {K V}.

Definition leaf_new {K V} (key : K) (value : V) : Leaf K V :=
  {| lf_key := key; lf_value := value; lf_removed := false |}.

#[export] Instance leaf_node {K V} `{AsBytes K} : LeafNode (Leaf K V) := {
  key_bytes x := as_bytes (lf_key x);
  mark_removed x := Some {| lf_key := lf_key x; lf_value := lf_value x; lf_removed := true |};
  is_removed := lf_removed;
}.

#[export] Instance leaf_laws {K V} `{AsBytes K} : LeafLaws (Leaf K V).
Proof. split; by intros x x' [= <-]. Qed.

(** ** The tree *)

Section tree.
Context {K V : Type} `{AsBytes K}.
Abbreviation prog := (prog (Leaf K V)).

(** [retries] bounds the turns of the retry loops, here and below. The heap
    never reports [Full]: its error type has no value. *)
Definition tree_insert (retries : nat) (key : K) (value : V) (mode : Mode) : prog Outcome :=
  leaf ← trigger (AllocLeaf (leaf_new key value));
  _ ← owner_new leaf;
  key_bytes ← leaf_key leaf;
  r ← insert retries leaf key_bytes mode 1;
  o ← expect r;
  _ ← owner_drop leaf;
  mret o.

Definition tree_remove (retries : nat) (key : list byte) : prog (option loc) :=
  remove key (λ l, k ← leaf_key l; mret (bool_decide (k = key))) retries.

Definition tree_remove_leaf (retries : nat) (leaf : loc) : prog bool :=
  removed ← trigger (LeafRead leaf is_removed);
  if removed : bool then mret false
  else
    key ← leaf_key leaf;
    r ← remove key (λ c, mret (bool_decide (c = leaf))) retries;
    mret (bool_decide (is_Some r)).

Definition tree_len : prog Z := raw_len.

Definition tree_drop (fuel : nat) : prog unit := destroy fuel.
End tree.
