(* ===== verification/Version.v ===== *)
(** * Versioned leaves ([src/versioned/node.rs])

    A versioned leaf is a key and a chain of version nodes, newest first. On the
    heap two nodes live in slots of the leaf; in an arena ([ANode.v]) a leaf has
    no slots. Every other node is an object of its own that belongs to one leaf,
    so the model keeps these nodes of a leaf, and those of them that were
    retired, beside its fields. A link is null or leads to one of the slots or
    to such a node. Chains are walked and changed by accesses to the leaf, one
    load or store at a time; a store through the chain latch needs the latch to
    be held. *)

From S2P Require Import Prelude Bytes Latch Slot Bits Node Free Mem Raw Tree.
Local Open Scope Z_scope.

(** ** Version nodes *)

Definition SUPERSEDED : Z := 1.
Definition TOMBSTONE : Z := 2.
Definition INLINE : Z := 4.
Definition FLAGS : Z := Z.lor (Z.lor SUPERSEDED TOMBSTONE) INLINE.

(** The [next] word of a node: the address of the next node with the flags in
    its low bits; a store keeps the flags. *)
Module Word.
Definition flags (w : Z) : Z := Z.land w FLAGS.
Definition next (w : Z) : Z := Z.land w (Z.lxor (2 ^ 64 - 1) FLAGS).
Definition store_next (w a : Z) : Z := Z.lor a (flags w).
Definition mark_superseded (w : Z) : Z := Z.lor w SUPERSEDED.
End Word.

(** A link. Its word is the pair of the link and the flags. *)
Inductive vptr := VNull | VSlot0 | VSlot1 | VHeap (n : loc).

#[export] Instance vptr_eq_dec : EqDecision vptr.
Proof. solve_decision. Defined.

Record VersionNode (V : Type) := {
  vn_version : Z;
  vn_next : vptr;
  vn_flags : Z;
  vn_value : option V;  (** [None]: not initialised *)
}.
Arguments Build_VersionNode {V}. Arguments vn_version {V}. Arguments vn_next {V}.
Arguments vn_flags {V}. Arguments vn_value {V}.

Section node.
Context {V : Type}.
Implicit Types n : VersionNode V.

Definition version_new (version : Z) (value : option V) (inline : bool) : VersionNode V :=
  {| vn_version := version; vn_next := VNull;
     vn_flags := Z.lor (if decide (is_Some value) then 0 else TOMBSTONE) (if inline then INLINE else 0);
     vn_value := value |}.

Definition is_tombstone n : bool := negb (Z.land (vn_flags n) TOMBSTONE =? 0).
Definition is_inline n : bool := negb (Z.land (vn_flags n) INLINE =? 0).
Definition is_superseded n : bool := negb (Z.land (vn_flags n) SUPERSEDED =? 0).

(** [assume_init] reads an initialised value: [node_fine] of the proofs. *)
Definition version_value n : option V := if is_tombstone n then None else vn_value n.

Definition store_next (next : vptr) n : VersionNode V :=
  {| vn_version := vn_version n; vn_next := next; vn_flags := vn_flags n; vn_value := vn_value n |}.
Definition superseded n : VersionNode V :=
  {| vn_version := vn_version n; vn_next := vn_next n; vn_flags := Z.lor (vn_flags n) SUPERSEDED; vn_value := vn_value n |}.
End node.

(** ** Versioned leaves *)

(** What a leaf keeps of version nodes in its own memory: the two slots of a
    leaf on the heap, nothing in an arena. *)
Class LeafSlots (X V : Type) := {
  slot_get : vptr → X → option (VersionNode V);
  slot_put : vptr → VersionNode V → X → X;
  has_slots : bool;
}.

#[export] Hint Mode LeafSlots ! - : typeclass_instances.

Record VersionedLeaf (X K V : Type) := {
  vl_key : K;
  vl_head : vptr;
  vl_slots : X;
  vl_chain_latch : Z;
  vl_heap : gmap loc (VersionNode V);  (** the other nodes made for this leaf *)
  vl_retired : list loc;               (** those of them that were retired *)
}.
Arguments Build_VersionedLeaf {X K V}. Arguments vl_key {X K V}. Arguments vl_head {X K V}.
Arguments vl_slots {X K V}. Arguments vl_chain_latch {X K V}. Arguments vl_heap {X K V}. Arguments vl_retired {X K V}.

Section leaf.
Context {X K V : Type} `{LeafSlots X V}.
Implicit Types x : VersionedLeaf X K V.

Definition vl_set_head (p : vptr) x : VersionedLeaf X K V :=
  {| vl_key := vl_key x; vl_head := p; vl_slots := vl_slots x;
     vl_chain_latch := vl_chain_latch x; vl_heap := vl_heap x; vl_retired := vl_retired x |}.
Definition vl_set_latch (w : Z) x : VersionedLeaf X K V :=
  {| vl_key := vl_key x; vl_head := vl_head x; vl_slots := vl_slots x;
     vl_chain_latch := w; vl_heap := vl_heap x; vl_retired := vl_retired x |}.
Definition vl_set_slots (sl : X) x : VersionedLeaf X K V :=
  {| vl_key := vl_key x; vl_head := vl_head x; vl_slots := sl;
     vl_chain_latch := vl_chain_latch x; vl_heap := vl_heap x; vl_retired := vl_retired x |}.
Definition vl_set_heap (h : gmap loc (VersionNode V)) (r : list loc) x : VersionedLeaf X K V :=
  {| vl_key := vl_key x; vl_head := vl_head x; vl_slots := vl_slots x;
     vl_chain_latch := vl_chain_latch x; vl_heap := h; vl_retired := r |}.

(** The node that a link leads to. *)
Definition vl_deref x (p : vptr) : option (VersionNode V) :=
  match p with
  | VNull => None
  | VSlot0 | VSlot1 => slot_get p (vl_slots x)
  | VHeap n => vl_heap x !! n
  end.

Definition vl_put (p : vptr) (n : VersionNode V) x : VersionedLeaf X K V :=
  match p with
  | VNull => x
  | VSlot0 | VSlot1 => vl_set_slots (slot_put p n (vl_slots x)) x
  | VHeap i => vl_set_heap (<[i := n]> (vl_heap x)) (vl_retired x) x
  end.

Definition vl_dead x : bool := is_dead (vl_chain_latch x).
Definition vl_held x : bool := vl_chain_latch x =? CHAIN_LOCKED.
End leaf.

(** ** The slots of a leaf on the heap *)

Definition SLOT0 : Z := 1.
Definition SLOT1 : Z := 2.

Record HeapSlots (V : Type) := {
  slot0 : option (VersionNode V);
  slot1 : option (VersionNode V);
  slots_init : Z;
}.
Arguments Build_HeapSlots {V}. Arguments slot0 {V}. Arguments slot1 {V}. Arguments slots_init {V}.

#[export] Instance heap_slots {V} : LeafSlots (HeapSlots V) V := {
  slot_get p sl := match p with VSlot0 => slot0 sl | VSlot1 => slot1 sl | _ => None end;
  slot_put p n sl :=
    match p with
    | VSlot0 => {| slot0 := Some n; slot1 := slot1 sl; slots_init := slots_init sl |}
    | VSlot1 => {| slot0 := slot0 sl; slot1 := Some n; slots_init := slots_init sl |}
    | _ => sl
    end;
  has_slots := true;
}.

Abbreviation HeapLeaf K V := (VersionedLeaf (HeapSlots V) K V).

(** [new_boxed]. *)
Definition versioned_leaf_new {K V} (key : K) (version : Z) (value : option V) : HeapLeaf K V :=
  {| vl_key := key; vl_head := VSlot0;
     vl_slots := {| slot0 := Some (version_new version value true); slot1 := None; slots_init := SLOT0 |};
     vl_chain_latch := chain_new; vl_heap := ∅; vl_retired := [] |}.

(** The key's bytes; a leaf is unlinked only with a dead chain, which is its
    removed state. *)
#[export] Instance versioned_leaf_node {X K V} `{AsBytes K} : LeafNode (VersionedLeaf X K V) := {
  key_bytes x := as_bytes (vl_key x);
  mark_removed x := if vl_dead x then Some x else None;
  is_removed := vl_dead;
}.

#[export] Instance versioned_leaf_laws {X K V} `{AsBytes K} : LeafLaws (VersionedLeaf X K V).
Proof. split; intros x x'; cbn; destruct (vl_dead x) eqn:E; intros [= <-]; done. Qed.

(** ** Accesses *)

Section accesses.
Context {X K V : Type} `{LeafSlots X V} `{AsBytes K}.
Abbreviation prog := (prog (VersionedLeaf X K V)).

(** One turn of [ChainLock::lock]: [Some true] with the guard, [Some false] on a
    dead lock, [None] to spin. *)
Definition chain_lock_turn (w : Z) : option (bool * Z) :=
  let r := chain_try_lock w in
  if r.1 then Some r else if is_dead w then Some (false, w) else None.

Definition chain_lock (l : loc) : prog bool :=
  LeafLatch l (λ x, '(b, w) ← chain_lock_turn (vl_chain_latch x); mret (b, vl_set_latch w x)).
Definition chain_unlock (l : loc) : prog unit := LeafWrite l (λ x, Some (vl_set_latch chain_drop x)).
Definition chain_kill_leaf (l : loc) : prog unit := LeafWrite l (λ x, Some (vl_set_latch chain_kill x)).
Definition chain_is_dead (l : loc) : prog bool := LeafRead l vl_dead.

Definition head_ptr (l : loc) : prog vptr := LeafRead l vl_head.

(** A field of the node that a link leads to. *)
Definition version_read {A} (l : loc) (p : vptr) (f : VersionNode V → A) : prog A :=
  o ← trigger (LeafRead l (λ x, f <$> vl_deref x p)); expect o.

(** Under the chain latch. *)
Definition set_head (l : loc) (p : vptr) : prog unit :=
  LeafWrite l (λ x, if vl_held x then Some (vl_set_head p x) else None).
Definition version_write (l : loc) (p : vptr) (f : VersionNode V → VersionNode V) : prog unit :=
  LeafWrite l (λ x, if vl_held x then n ← vl_deref x p; Some (vl_put p (f n) x) else None).
Definition set_next (l : loc) (p next : vptr) : prog unit := version_write l p (store_next next).
Definition mark_superseded (l : loc) (p : vptr) : prog unit := version_write l p superseded.

(** Before the node is published. *)
Definition init_next (l : loc) (p next : vptr) : prog unit :=
  LeafWrite l (λ x, n ← vl_deref x p; Some (vl_put p (store_next next n) x)).

(** [retire_version] of [tree.rs]: a node of a slot is left to its leaf. *)
Definition retire_version (l : loc) (p : vptr) : prog unit :=
  inline ← (if has_slots (X := X) (V := V) then version_read l p is_inline else mret false);
  if inline : bool then mret tt
  else trigger (LeafWrite l (λ x,
    match p with VHeap n => Some (vl_set_heap (vl_heap x) (n :: vl_retired x) x) | _ => None end)).
End accesses.

Section heap.
Context {K V : Type} `{AsBytes K}.
Abbreviation prog := (prog (HeapLeaf K V)).

(** The free slot, or a heap node; the latch is held. *)
Definition alloc_version (l : loc) (version : Z) (value : option V) : prog vptr :=
  held ← trigger (LeafRead l vl_held);
  _ ← debug_assert held;
  init ← trigger (LeafRead l (λ x, slots_init (vl_slots x)));
  if Z.land init SLOT1 =? 0 then
    _ ← trigger (LeafWrite l (λ x, let sl := vl_slots x in
      Some (vl_set_slots {| slot0 := slot0 sl; slot1 := Some (version_new version value true);
                            slots_init := Z.lor (slots_init sl) SLOT1 |} x)));
    mret VSlot1
  else
    trigger (LeafLatch l (λ x, let n := fresh (dom (vl_heap x)) in
      Some (VHeap n, vl_set_heap (<[n := version_new version value false]> (vl_heap x)) (vl_retired x) x))).

(** [take_first]: the only version moves out of an unpublished leaf. *)
Definition take_first (l : loc) : prog (Z * option V) :=
  n ← version_read l VSlot0 (λ n, n);
  _ ← trigger (LeafWrite l (λ x, let sl := vl_slots x in
    Some (vl_set_slots {| slot0 := slot0 sl; slot1 := slot1 sl; slots_init := 0 |} x)));
  mret (vn_version n, if is_tombstone n then None else vn_value n).
End heap.

(** ** The drop of a leaf *)

(** Frees the heap nodes of the chain from [p] on; the slots are dropped by
    [slots_init]. The results are the freed heap nodes and the dropped slots;
    [None] is a read of a node that does not exist. *)
Fixpoint drop_chain {K V} (fuel : nat) (x : HeapLeaf K V) (p : vptr) (freed : list loc) : option (list loc) :=
  match fuel, p with
  | _, VNull => Some freed
  | O, _ => None
  | S fuel, _ =>
    n ← vl_deref x p;
    match p with
    | VHeap i =>
      if is_inline n then drop_chain fuel x (vn_next n) freed
      else drop_chain fuel (vl_set_heap (delete i (vl_heap x)) (vl_retired x) x) (vn_next n) (i :: freed)
    | _ => if is_inline n then drop_chain fuel x (vn_next n) freed else None
    end
  end.

Definition versioned_leaf_drop {K V} (fuel : nat) (x : HeapLeaf K V) : option (list loc * list vptr) :=
  freed ← drop_chain fuel x (vl_head x) [];
  let init := slots_init (vl_slots x) in
  mret (freed, (if Z.land init SLOT0 =? 0 then [] else [VSlot0]) ++ (if Z.land init SLOT1 =? 0 then [] else [VSlot1])).
