(* ===== verification/ANode.v ===== *)
(** * Leaves and version nodes of an arena ([src/arena/node.rs])

    The leaf of an [ArenaArtMap], and the version node and the leaf of an
    [ArenaVersionedArtMap], whose links are offsets into the arena: 32-bit words
    that carry a node's flags in their low bits. [ArenaLeaf] is the part of the
    storage's interface that links retired leaves. *)

From S2P Require Import Prelude Bytes Latch Slot Bits Node Free Mem Tree Version.
Local Open Scope Z_scope.

(** ** [trait ArenaLeaf]: the link of the retired list *)

Class ArenaLeaf (L : Type) := {
  set_next_retired : Z → L → option L;  (** [None]: a failed debug assertion *)
  next_retired : L → Z;
}.

(** An offset that a list can link: null or a leaf, which is 8-aligned. *)
Definition linkable (off : Z) : Prop := 0 <= off < 2 ^ 32 ∧ Z.land off 7 = 0.

(** [retirable]: what a leaf satisfies when it is retired. *)
Class ArenaLeafLaws (L : Type) `{ArenaLeaf L} := {
  retirable : L → Prop;
  set_next_retired_ok (x : L) next : retirable x → linkable next →
    ∃ x', set_next_retired next x = Some x' ∧ retirable x' ∧ next_retired x' = next;
}.

(** ** [Leaf] *)

Record ALeaf (K V : Type) := { al_removed : bool; al_next_retired : Z; al_key : K; al_value : V }.
Arguments Build_ALeaf {K V}. Arguments al_removed {K V}. Arguments al_next_retired {K V}.
Arguments al_key {K V}. Arguments al_value {K V}.

Definition aleaf_new {K V} (key : K) (value : V) : ALeaf K V :=
  {| al_removed := false; al_next_retired := 0; al_key := key; al_value := value |}.

#[export] Instance aleaf_node {K V} `{AsBytes K} : LeafNode (ALeaf K V) := {
  key_bytes x := as_bytes (al_key x);
  mark_removed x := Some {| al_removed := true; al_next_retired := al_next_retired x; al_key := al_key x; al_value := al_value x |};
  is_removed := al_removed;
}.

#[export] Instance aleaf_laws {K V} `{AsBytes K} : LeafLaws (ALeaf K V).
Proof. split; by intros x x' [= <-]. Qed.

#[export] Instance aleaf_arena {K V} : ArenaLeaf (ALeaf K V) := {
  set_next_retired next x :=
    Some {| al_removed := al_removed x; al_next_retired := next; al_key := al_key x; al_value := al_value x |};
  next_retired := al_next_retired;
}.

#[export] Program Instance aleaf_arena_laws {K V} : ArenaLeafLaws (ALeaf K V) := { retirable _ := True }.
Next Obligation. intros K V x next _ _. by eexists. Qed.

(** ** [VersionNode] *)

Module AVersion.
Definition SUPERSEDED : Z := 1.
Definition TOMBSTONE : Z := 2.
Definition FLAGS : Z := Z.lor SUPERSEDED TOMBSTONE.

Record VersionNode (V : Type) := {
  version : Z;
  next_word : Z;              (** the offset of the next node, and the flags *)
  next_retired_version : Z;
  value : option V;           (** [None]: not initialised *)
}.
Arguments Build_VersionNode {V}. Arguments version {V}. Arguments next_word {V}.
Arguments next_retired_version {V}. Arguments value {V}.

Section node.
Context {V : Type}.
Implicit Types n : VersionNode V.

Definition new (ver : Z) (v : option V) : VersionNode V :=
  {| version := ver; next_word := if decide (is_Some v) then 0 else TOMBSTONE; next_retired_version := 0; value := v |}.

Definition is_tombstone n : bool := negb (Z.land (next_word n) TOMBSTONE =? 0).
Definition value_of n : option V := if is_tombstone n then None else value n.
Definition into_value n : option V := if is_tombstone n then None else value n.

Definition with_next (w : Z) n : VersionNode V :=
  {| version := version n; next_word := w; next_retired_version := next_retired_version n; value := value n |}.

Definition next n : Z := Z.land (next_word n) (Z.lxor (2 ^ 32 - 1) FLAGS).

(** [None]: a failed debug assertion. *)
Definition store_next (next : Z) n : option (VersionNode V) :=
  if Z.land next FLAGS =? 0 then Some (with_next (Z.lor next (Z.land (next_word n) FLAGS)) n) else None.
Definition init_next := store_next.
Definition set_next := store_next.

Definition is_superseded n : bool := negb (Z.land (next_word n) SUPERSEDED =? 0).
Definition mark_superseded n : VersionNode V := with_next (Z.lor (next_word n) SUPERSEDED) n.
Definition set_next_retired (next : Z) n : VersionNode V :=
  {| version := version n; next_word := next_word n; next_retired_version := next; value := value n |}.
End node.
End AVersion.

(** The list of the retired versions is linked like that of the leaves. *)
#[export] Instance aversion_arena {V} : ArenaLeaf (AVersion.VersionNode V) := {
  set_next_retired next n := Some (AVersion.set_next_retired next n);
  next_retired := AVersion.next_retired_version;
}.

#[export] Program Instance aversion_arena_laws {V} : ArenaLeafLaws (AVersion.VersionNode V) := { retirable _ := True }.
Next Obligation. intros V x next _ _. by eexists. Qed.

(** ** Words and links

    [VersionedLeaf] and its chains are modelled with the links and nodes of
    [Version.v], where the word of a node is the pair of its link and its flags.
    [off] is where the arena placed what a link leads to, [0] for null. *)

Definition word_of {V} (off : vptr → Z) (n : Version.VersionNode V) : Z := Z.lor (off (vn_next n)) (vn_flags n).

Record carries {V} (off : vptr → Z) (w : AVersion.VersionNode V) (n : Version.VersionNode V) : Prop := {
  ca_version : AVersion.version w = vn_version n;
  ca_word : AVersion.next_word w = word_of off n;
  ca_value : AVersion.value w = vn_value n;
  ca_flags : 0 <= vn_flags n < 4;
}.

Section words.
Context {V : Type} (off : vptr → Z) (Hoff : ∀ p, linkable (off p)).
Implicit Types (w : AVersion.VersionNode V) (n : Version.VersionNode V).

(** An offset keeps clear of the flags. *)
Lemma off_flags p (m : Z) : 0 <= m < 4 → Z.land (off p) m = 0.
Proof using Hoff.
  intros Hm. destruct (Hoff p) as [_ H7]. replace m with (Z.land 7 m) by (assert (m = 0 ∨ m = 1 ∨ m = 2 ∨ m = 3) as E by lia;
    destruct E as [->|[->|[->| ->]]]; done). by rewrite Z.land_assoc, H7.
Qed.

Lemma off_next p : Z.land (off p) (Z.lxor (2 ^ 32 - 1) AVersion.FLAGS) = off p.
Proof using Hoff.
  destruct (Hoff p) as [Hr _]. pose proof (off_flags p 3 ltac:(lia)) as H3. change AVersion.FLAGS with 3.
  apply Z.bits_inj'. intros i Hi. rewrite Z.land_spec, Z.lxor_spec. change (2 ^ 32 - 1) with (Z.ones 32).
  assert (Z.testbit 3 i = (i <? 2)) as -> by (change 3 with (Z.ones 2); by rewrite Z.testbit_ones_nonneg by lia).
  rewrite Z.testbit_ones_nonneg by lia. destruct (Z.ltb_spec i 2) as [H2|H2].
  - assert (Z.testbit (off p) i = false) as ->; [|done]. apply (f_equal (λ z, Z.testbit z i)) in H3. rewrite Z.land_spec, Z.bits_0 in H3.
    change 3 with (Z.ones 2) in H3. rewrite Z.testbit_ones_nonneg in H3 by lia. destruct (Z.ltb_spec i 2); [|lia]. by rewrite andb_true_r in H3.
  - destruct (Z.ltb_spec i 32) as [H32|H32]; [by rewrite xorb_false_r, andb_true_r|].
    rewrite (Z.bits_above_log2 (off p) i); [done|lia|]. destruct (decide (off p = 0)) as [->|]; [cbn; lia|].
    apply Z.log2_lt_pow2; [lia|]. apply Z.lt_le_trans with (2 ^ 32); [lia|]. apply Z.pow_le_mono_r; lia.
Qed.

Lemma small_flags (f : Z) : 0 <= f < 4 → f = 0 ∨ f = 1 ∨ f = 2 ∨ f = 3.
Proof using. lia. Qed.

(** What the operations on words do to links and flags. *)
Lemma carries_ops w n : carries off w n →
  AVersion.next w = off (vn_next n) ∧ AVersion.is_tombstone w = is_tombstone n ∧ AVersion.is_superseded w = is_superseded n ∧
  AVersion.value_of w = version_value n ∧ carries off (AVersion.mark_superseded w) (superseded n) ∧
  ∀ r, ∃ w', AVersion.store_next (off r) w = Some w' ∧ carries off w' (store_next r n).
Proof using Hoff.
  intros [E1 E2 E3 Hf]. unfold word_of in E2.
  assert (∀ m, 0 <= m < 4 → Z.land (AVersion.next_word w) m = Z.land (vn_flags n) m) as EL.
  { intros m Hm. rewrite E2, Z.land_lor_distr_l, off_flags, Z.lor_0_l; done. }
  assert (AVersion.is_tombstone w = is_tombstone n) as ET by (unfold AVersion.is_tombstone, is_tombstone; by rewrite EL).
  assert (Z.land (vn_flags n) AVersion.FLAGS = vn_flags n) as E4.
  { destruct (small_flags _ Hf) as [->|[->|[->| ->]]]; done. }
  split_and!; [|done| | | |].
  - unfold AVersion.next. rewrite E2, Z.land_lor_distr_l, off_next.
    destruct (small_flags _ Hf) as [->|[->|[->| ->]]]; apply Z.lor_0_r.
  - unfold AVersion.is_superseded, is_superseded. by rewrite EL.
  - unfold AVersion.value_of, version_value. by rewrite ET, E3.
  - split; cbn; [done| |done|].
    + unfold word_of. cbn. by rewrite E2, Z.lor_assoc.
    + destruct (small_flags _ Hf) as [->|[->|[->| ->]]]; vm_compute; done.
  - intros r. unfold AVersion.store_next. rewrite off_flags by done. cbn [Z.eqb]. eexists. split; [done|].
    split; cbn; [done| |done..]. unfold word_of. cbn. by rewrite EL, E4 by done.
Qed.
End words.

(** ** [VersionedLeaf] *)

(** A leaf in an arena has no slots: every version is a node of the arena. *)
Inductive NoSlots := Slotless.

#[export] Instance arena_slots {V} : LeafSlots NoSlots V := {
  slot_get _ _ := None;
  slot_put _ _ sl := sl;
  has_slots := false;
}.

Abbreviation AVLeaf K V := (VersionedLeaf NoSlots K V).

(** [node] is the new version, at the head. *)
Definition avleaf_new {K V} (key : K) (node : Version.VersionNode V) : AVLeaf K V :=
  let n := fresh (∅ : gset loc) in
  {| vl_key := key; vl_head := VHeap n; vl_slots := Slotless; vl_chain_latch := chain_new; vl_heap := {[n := node]}; vl_retired := [] |}.

(** The node belongs to another leaf from here on. *)
Definition av_detach_head_unpublished {K V} (x : AVLeaf K V) : AVLeaf K V := vl_set_heap ∅ (vl_retired x) (vl_set_head VNull x).

(** The link of a retired leaf is kept in its dead chain lock. *)
#[export] Instance avleaf_arena {K V} : ArenaLeaf (AVLeaf K V) := {
  set_next_retired next x :=
    if vl_dead x && (Z.land next (Z.lor CHAIN_LOCKED CHAIN_DEAD) =? 0)
    then Some (vl_set_latch (set_retired_link next) x) else None;
  next_retired x := retired_link (vl_chain_latch x);
}.

#[export] Program Instance avleaf_arena_laws {K V} : ArenaLeafLaws (AVLeaf K V) := { retirable x := vl_dead x = true }.
Next Obligation.
  intros K V x next Hd [Hr Hl]. cbn. rewrite Hd. assert (Z.land next 3 = 0) as Hl3.
  { change 3 with (Z.land 7 3). by rewrite Z.land_assoc, Hl. }
  destruct (retired_link_roundtrip next Hr Hl3) as [R1 R2]. change (Z.lor CHAIN_LOCKED CHAIN_DEAD) with 3. rewrite Hl3. by eexists.
Qed.

(** [drop_in_arena]: drops the nodes of the chain from [p] on, and the key. The
    result is the dropped nodes, newest first, and the key; [None] is a read of
    a node that does not exist or was dropped. *)
Fixpoint av_drop_chain {K V} (fuel : nat) (x : AVLeaf K V) (p : vptr) : option (list loc) :=
  match p with
  | VNull => Some []
  | VHeap i =>
    match fuel with
    | O => None
    | S fuel =>
      n ← vl_heap x !! i;
      rest ← av_drop_chain fuel (vl_set_heap (delete i (vl_heap x)) (vl_retired x) x) (vn_next n);
      Some (i :: rest)
    end
  | _ => None
  end.
Definition av_drop_in_arena {K V} (fuel : nat) (x : AVLeaf K V) : option (list loc * K) :=
  dropped ← av_drop_chain fuel x (vl_head x); Some (dropped, vl_key x).
