(* ===== verification/Retired.v ===== *)
(** * The retired lists of an arena map ([src/arena/storage.rs], [src/arena/versioned_tree.rs])

    Unlinked leaves of an arena map stay in the arena until the map is dropped:
    [retire_leaf] pushes them onto a list linked through the leaves themselves,
    by compare-and-exchange on its head, and the storage's drop walks the list.
    The pushes are programs over the accesses to the head and to the links;
    [lstep] interleaves those of any number of threads. A versioned tree keeps
    a second such list, of the version nodes unlinked from live chains. *)

From S2P Require Import Prelude Bytes Latch Slot Bits Node Free Mem Tree ANode.
Local Open Scope Z_scope.

(** ** Pushes *)

Inductive rop : Type → Type :=
| HeadLoad : rop Z
| SetLink (off next : Z) : rop unit              (** [leaf.set_next_retired(next)] *)
| HeadCas (old new : Z) : rop (option Z).        (** [compare_exchange_weak] *)

Definition rtrigger {A} (o : rop A) : free rop A := Vis o Ret.

(** One turn of the loop of [retire_leaf]. *)
Definition retire_turn (off head : Z) : free rop (flow Z unit) :=
  _ ← rtrigger (SetLink off head);
  r ← rtrigger (HeadCas head off);
  match r with None => mret (Break tt) | Some h => mret (Continue h) end.

Definition retire_leaf (fuel : nat) (off : Z) : free rop unit :=
  head ← rtrigger HeadLoad; loop fuel (retire_turn off) head.

(** ** The drop *)

Section drop.
Context {L : Type} `{ArenaLeaf L}.

(** The walk of [ArenaStorage::drop]: the offsets whose leaf is dropped, in order.
    [None]: an offset that is no leaf, or no fuel. *)
Fixpoint drain (fuel : nat) (leaves : gmap Z L) (off : Z) : option (list Z) :=
  if off =? 0 then Some []
  else match fuel with
       | O => None
       | S fuel =>
         leaf ← leaves !! off;
         rest ← drain fuel leaves (next_retired leaf);
         Some (off :: rest)
       end.

(** A leaf type without destructors skips the walk. *)
Definition storage_drop (needs_drop : bool) (fuel : nat) (leaves : gmap Z L) (retired : Z) : option (list Z) :=
  if negb needs_drop then Some [] else drain fuel leaves retired.
End drop.

(** ** The retired versions *)

(** [ArenaVersionedTree::retire_version]. *)
Definition retire_version (fuel : nat) (off : Z) : free rop unit := retire_leaf fuel off.

(** The walk of [ArenaVersionedTree::drop] along them. *)
Definition drop_versions {V} (fuel : nat) (nodes : gmap Z (AVersion.VersionNode V)) (off : Z) : option (list Z) := drain fuel nodes off.

(** ** Threads that retire leaves *)

Section threads.
Context {L : Type} `{ArenaLeafLaws L}.

Record lstate := {
  l_leaves : gmap Z L;
  l_head : Z;
  l_threads : nat → option (Z * free rop unit);  (** the leaf being retired, what is left to do *)
  l_retired : list Z;                            (** the leaves whose push is done, a ghost *)
}.

Definition lset (s : lstate) (t : nat) (r : option (Z * free rop unit)) : nat → option (Z * free rop unit) :=
  λ u, if decide (u = t) then r else l_threads s u.

(** A leaf is retired once: no thread retires it now, none did. *)
Definition retirable_now (s : lstate) (off : Z) : Prop :=
  off ∉ l_retired s ∧ ∀ t o p, l_threads s t = Some (o, p) → o ≠ off.

Inductive lstep (s : lstate) : lstate → Prop :=
| l_call t off x fuel :
  l_threads s t = None → l_leaves s !! off = Some x → retirable x → linkable off → off ≠ 0 → retirable_now s off →
  lstep s {| l_leaves := l_leaves s; l_head := l_head s; l_retired := l_retired s;
             l_threads := lset s t (Some (off, retire_leaf fuel off)) |}
| l_load t off k :
  l_threads s t = Some (off, Vis HeadLoad k) →
  lstep s {| l_leaves := l_leaves s; l_head := l_head s; l_retired := l_retired s; l_threads := lset s t (Some (off, k (l_head s))) |}
| l_link t off o next k x x' :
  l_threads s t = Some (off, Vis (SetLink o next) k) → l_leaves s !! o = Some x → set_next_retired next x = Some x' →
  lstep s {| l_leaves := <[o := x']> (l_leaves s); l_head := l_head s; l_retired := l_retired s; l_threads := lset s t (Some (off, k tt)) |}
| l_cas t off new k :
  l_threads s t = Some (off, Vis (HeadCas (l_head s) new) k) →
  lstep s {| l_leaves := l_leaves s; l_head := new; l_retired := new :: l_retired s; l_threads := lset s t (Some (off, k None)) |}
| l_cas_fail t off old new k :
  (** lost, or spurious *)
  l_threads s t = Some (off, Vis (HeadCas old new) k) →
  lstep s {| l_leaves := l_leaves s; l_head := l_head s; l_retired := l_retired s; l_threads := lset s t (Some (off, k (Some (l_head s)))) |}
| l_return t off :
  l_threads s t = Some (off, Ret tt) →
  lstep s {| l_leaves := l_leaves s; l_head := l_head s; l_retired := l_retired s; l_threads := lset s t None |}
| l_new off x :
  (** a new leaf, at an offset that the arena never handed out before *)
  l_leaves s !! off = None →
  lstep s {| l_leaves := <[off := x]> (l_leaves s); l_head := l_head s; l_retired := l_retired s; l_threads := l_threads s |}
| l_write off x x' :
  (** a change of a leaf that is not being retired and was not *)
  l_leaves s !! off = Some x → retirable_now s off →
  lstep s {| l_leaves := <[off := x']> (l_leaves s); l_head := l_head s; l_retired := l_retired s; l_threads := l_threads s |}.

Definition linit : lstate := {| l_leaves := ∅; l_head := 0; l_threads := λ _, None; l_retired := [] |}.

Inductive lreachable : lstate → Prop :=
| lreach_init : lreachable linit
| lreach_step s s' : lreachable s → lstep s s' → lreachable s'.

(** ** The invariant *)

(** The list that starts at [off]. *)
Inductive linked_list (leaves : gmap Z L) : Z → list Z → Prop :=
| linked_nil : linked_list leaves 0 []
| linked_cons off x l : off ≠ 0 → leaves !! off = Some x → linked_list leaves (next_retired x) l → linked_list leaves off (off :: l).

Lemma linked_list_insert leaves off x head l : off ∉ l → linked_list leaves head l → linked_list (<[off := x]> leaves) head l.
Proof.
  intros Hn. induction 1 as [|o y l Ho Hy _ IH]; [constructor|]. apply not_elem_of_cons in Hn as [H1 H2].
  eapply linked_cons; [done|by rewrite lookup_insert_ne|by apply IH].
Qed.

Lemma drain_linked leaves head l : linked_list leaves head l → drain (length l) leaves head = Some l.
Proof.
  induction 1 as [|o y l Ho Hy _ IH]; [done|]. cbn [length drain]. rewrite (proj2 (Z.eqb_neq o 0)) by done. rewrite Hy. cbn. by rewrite IH.
Qed.

(** What an access of a push needs and gives; [done] says that it is the last. *)
Definition rop_ok {A} (off : Z) (link : option Z) (o : rop A) : (option Z → A → Prop) → (A → Prop) → Prop :=
  match o in rop A return (option Z → A → Prop) → (A → Prop) → Prop with
  | HeadLoad => λ φ _, ∀ h, linkable h → φ None h
  | SetLink o next => λ φ _, o = off ∧ linkable next ∧ φ (Some next) tt
  | HeadCas old new => λ φ done, new = off ∧ link = Some old ∧ done None ∧ ∀ h, linkable h → φ link (Some h)
  end.

(** A push that has not happened yet. *)
Fixpoint pushing (off : Z) (link : option Z) (p : free rop unit) : Prop :=
  match p with
  | Ret _ => False
  | Vis o k => rop_ok off link o (λ link x, pushing off link (k x)) (λ x, k x = Ret tt)
  | Panic | OutOfFuel => True
  end.

Lemma retire_loop_pushing fuel off head link : linkable head → pushing off link (loop fuel (retire_turn off) head).
Proof.
  revert head link. induction fuel as [|fuel IH]; intros head link Hh; cbn; [done|].
  split_and!; [done|apply Hh..|done|done|done|]. intros h Hl. by apply IH.
Qed.

Lemma retire_leaf_pushing fuel off : pushing off None (retire_leaf fuel off).
Proof. cbn. intros h Hh. by apply retire_loop_pushing. Qed.

Definition thread_ok (s : lstate) (off : Z) (p : free rop unit) : Prop :=
  (p = Ret tt ∧ off ∈ l_retired s) ∨
  (off ∉ l_retired s ∧ ∃ link, pushing off link p ∧ ∃ x, l_leaves s !! off = Some x ∧ retirable x ∧ ∀ n, link = Some n → next_retired x = n).

Record linv (s : lstate) : Prop := {
  li_list : linked_list (l_leaves s) (l_head s) (l_retired s);
  li_nodup : NoDup (l_retired s);
  li_head : linkable (l_head s);
  li_thread t off p : l_threads s t = Some (off, p) → off ≠ 0 ∧ linkable off ∧ thread_ok s off p;
  li_apart t u off p q : l_threads s t = Some (off, p) → l_threads s u = Some (off, q) → t = u;
}.

Lemma lset_cases s t r u : (u = t ∧ lset s t r u = r) ∨ (u ≠ t ∧ lset s t r u = l_threads s u).
Proof. unfold lset. case_decide; auto. Qed.

(** A step of thread [t], with the same leaf under way, or none. *)
Lemma linv_thread s t off p leaves head retired r : linv s → l_threads s t = Some (off, p) →
  let s' := {| l_leaves := leaves; l_head := head; l_retired := retired; l_threads := lset s t r |} in
  linked_list leaves head retired → NoDup retired → linkable head →
  (∀ o, o ≠ off → leaves !! o = l_leaves s !! o ∧ (o ∈ retired ↔ o ∈ l_retired s)) →
  (∀ p', r = Some (off, p') → thread_ok s' off p') → (∀ o p', r = Some (o, p') → o = off) → linv s'.
Proof.
  intros I Ht s' H1 H2 H3 H4 H5 H6. destruct (li_thread s I t off p Ht) as (T1 & T2 & _). split; [done..| |].
  - intros u o q. unfold s'; cbn [l_threads]. destruct (lset_cases s t r u) as [[-> ->]|[Hu ->]]; intros Hq.
    + destruct (H6 o q Hq). split_and!; [done..|by apply H5].
    + destruct (li_thread s I u o q Hq) as (U1 & U2 & U3). split_and!; [done..|]. assert (o ≠ off) as Hne.
      { intros ->. apply Hu. by eapply (li_apart s I). }
      destruct (H4 o Hne) as [E1 E2]. destruct U3 as [[-> U3]|[U3 U4]]; [left; split; [done|by apply E2]|right; split; [by intros HX%E2|]].
      destruct U4 as (link & U5 & x & U6). exists link. split; [done|]. exists x. cbn. by rewrite E1.
  - intros u v o q q'. unfold s'; cbn [l_threads]. destruct (lset_cases s t r u) as [[-> ->]|[Hu ->]], (lset_cases s t r v) as [[-> ->]|[Hv ->]]; intros Hq Hq'; [done|..].
    + pose proof (H6 _ _ Hq) as ->. destruct Hv. by eapply (li_apart s I).
    + pose proof (H6 _ _ Hq') as ->. destruct Hu. by eapply (li_apart s I).
    + by eapply (li_apart s I).
Qed.

(** A change of a leaf that nobody retires. *)
Lemma linv_leaf s off x : linv s → retirable_now s off →
  linv {| l_leaves := <[off := x]> (l_leaves s); l_head := l_head s; l_retired := l_retired s; l_threads := l_threads s |}.
Proof.
  intros I [R1 R2]. split; [by apply linked_list_insert; [|apply I]|apply I|apply I| |apply I].
  intros t o p Hp. destruct (li_thread s I t o p Hp) as (U1 & U2 & U3). split_and!; [done..|]. pose proof (R2 t o p Hp) as Hne.
  destruct U3 as [U3|(U3 & link & U4 & y & U5)]; [by left|right]. split; [done|]. exists link. split; [done|]. exists y. cbn. by rewrite lookup_insert_ne.
Qed.

Lemma linked_list_elem leaves head l off : linked_list leaves head l → off ∈ l → off ≠ 0 ∧ is_Some (leaves !! off).
Proof. induction 1 as [|o y l Ho Hy _ IH]; [by intros ?%not_elem_of_nil|]. intros [->|?]%elem_of_cons; [by split|auto]. Qed.

Lemma absent_retirable s off : linv s → l_leaves s !! off = None → retirable_now s off.
Proof.
  intros I Hn. split.
  - intros Hin. destruct (linked_list_elem _ _ _ _ (li_list s I) Hin) as [_ [x Hx]]. congruence.
  - intros t o p Hp ->. destruct (li_thread s I t off p Hp) as (_ & _ & [[_ Hin]|(_ & link & _ & x & Hx & _)]); [|congruence].
    destruct (linked_list_elem _ _ _ _ (li_list s I) Hin) as [_ [x Hx]]. congruence.
Qed.

(** A finished push has no access left. *)
Lemma thread_pending s off A (o : rop A) k : thread_ok s off (Vis o k) →
  off ∉ l_retired s ∧ ∃ link, pushing off link (Vis o k) ∧ ∃ x, l_leaves s !! off = Some x ∧ retirable x ∧ ∀ n, link = Some n → next_retired x = n.
Proof. by intros [[? _]|?]. Qed.

Lemma lstep_linv s s' : linv s → lstep s s' → linv s'.
Proof.
  intros I [t off x fuel Ht Hx Hr Hl Hz HN|t off k Ht|t off o next k x x' Ht Hx Hs|t off new k Ht|t off old new k Ht|t off Ht|off x Hx|off x x' Hx HN].
  - split; [apply I..| |].
    + intros u o p. cbn [l_threads]. destruct (lset_cases s t (Some (off, retire_leaf fuel off)) u) as [[-> ->]|[Hu ->]]; [|apply I].
      intros [= <- <-]. split_and!; [done|apply Hl..|right]. split; [apply HN|]. exists None. split; [apply retire_leaf_pushing|]. by exists x.
    + destruct HN as [_ HN]. intros u v o p q. cbn [l_threads].
      destruct (lset_cases s t (Some (off, retire_leaf fuel off)) u) as [[-> ->]|[Hu ->]],
        (lset_cases s t (Some (off, retire_leaf fuel off)) v) as [[-> ->]|[Hv ->]]; intros Hp Hq; [done|..|by eapply (li_apart s I)].
      * injection Hp as <- <-. by destruct (HN v off q Hq).
      * injection Hq as <- <-. by destruct (HN u off p Hp).
  - destruct (li_thread s I t _ _ Ht) as (T1 & T2 & (T3 & link & T4 & x & T5)%thread_pending). cbn in T4.
    apply (linv_thread s t off _ _ _ _ _ I Ht); [apply I..|done| |by intros o p' [= <- _]]. intros p' [= <-]. right. split; [done|].
    exists None. split; [by apply T4, I|]. exists x. by destruct T5 as (? & ? & _).
  - destruct (li_thread s I t _ _ Ht) as (T1 & T2 & (T3 & link & T4 & y & T5 & T6 & _)%thread_pending). cbn in T4. destruct T4 as (-> & T7 & T8).
    assert (y = x) as -> by congruence. destruct (set_next_retired_ok x next T6 T7) as (x1 & E & R1 & R2). assert (x1 = x') as -> by congruence.
    apply (linv_thread s t off _ _ _ _ _ I Ht); [by apply linked_list_insert; [|apply I]|apply I..| | |by intros o p' [= <- _]].
    + intros o Ho. by rewrite lookup_insert_ne.
    + intros p' [= <-]. right. split; [done|]. exists (Some next). split; [done|]. exists x'. cbn. rewrite lookup_insert_eq.
      split_and!; [done..|]. by intros n [= <-].
  - destruct (li_thread s I t _ _ Ht) as (T1 & T2 & (T3 & link & T4 & x & T5 & T6 & T7)%thread_pending). cbn in T4. destruct T4 as (-> & -> & T8 & _).
    apply (linv_thread s t off _ _ _ _ _ I Ht).
    + eapply linked_cons; [done|exact T5|]. rewrite (T7 _ eq_refl). apply I.
    + constructor; [done|apply I].
    + done.
    + intros o Ho. split; [done|]. rewrite elem_of_cons. naive_solver.
    + intros p' [= <-]. left. split; [done|]. cbn. by apply elem_of_cons; left.
    + by intros o p' [= <- _].
  - destruct (li_thread s I t _ _ Ht) as (T1 & T2 & (T3 & link & T4 & x & T5)%thread_pending). cbn in T4. destruct T4 as (-> & -> & _ & T8).
    apply (linv_thread s t off _ _ _ _ _ I Ht); [apply I..|done| |by intros o p' [= <- _]]. intros p' [= <-]. right. split; [done|].
    exists (Some old). split; [by apply T8, I|]. by exists x.
  - apply (linv_thread s t off _ _ _ _ _ I Ht); [apply I..|done|done|done].
  - apply linv_leaf; [done|]. by apply absent_retirable.
  - by apply linv_leaf.
Qed.

Lemma lreachable_linv s : lreachable s → linv s.
Proof.
  induction 1 as [|s s' _ IH HS]; [|by eapply lstep_linv]. split; cbn; [constructor|constructor|by split|done|done].
Qed.

Lemma retired_list s : lreachable s →
  (∃ fuel, storage_drop true fuel (l_leaves s) (l_head s) = Some (l_retired s)) ∧ NoDup (l_retired s) ∧
  (∀ t off, l_threads s t = Some (off, Ret tt) → off ∈ l_retired s) ∧
  (∀ t off o next k, l_threads s t = Some (off, Vis (SetLink o next) k) →
    o = off ∧ ∃ x x', l_leaves s !! off = Some x ∧ set_next_retired next x = Some x').
Proof.
  intros I%lreachable_linv. split_and!.
  - exists (length (l_retired s)). apply drain_linked, I.
  - apply I.
  - intros t off Ht. destruct (li_thread s I t off _ Ht) as (_ & _ & [[_ ?]|(_ & link & [] & _)]). done.
  - intros t off o next k Ht. destruct (li_thread s I t _ _ Ht) as (_ & _ & (_ & link & T4 & x & T5 & T6 & _)%thread_pending).
    destruct T4 as (-> & T7 & _). split; [done|]. destruct (set_next_retired_ok x next T6 T7) as (x' & E & _). by exists x, x'.
Qed.

(** C31: the retired list. Under every interleaving of threads that retire leaves,
    each leaf once, spurious failures included: the walk that the storage's
    drop makes ends and visits exactly the leaves whose push took effect, the
    last first, each once; a push that returned took effect; and no push in
    progress is stuck on its leaf. *)
Theorem retired_leaves_are_dropped_once s : lreachable s →
  (∃ fuel, storage_drop true fuel (l_leaves s) (l_head s) = Some (l_retired s)) ∧ NoDup (l_retired s) ∧
  (∀ t off, l_threads s t = Some (off, Ret tt) → off ∈ l_retired s) ∧
  (∀ t off o next k, l_threads s t = Some (off, Vis (SetLink o next) k) →
    o = off ∧ ∃ x x', l_leaves s !! off = Some x ∧ set_next_retired next x = Some x').
Proof. apply retired_list. Qed.
End threads.

(** So do the retired versions. *)
Lemma retired_versions {V} (s : lstate (L := AVersion.VersionNode V)) : lreachable s →
  (∃ fuel, drop_versions fuel (l_leaves s) (l_head s) = Some (l_retired s)) ∧ NoDup (l_retired s).
Proof. intros (H1 & H2 & _)%retired_list. by split. Qed.

(** ** A run: one thread retires the leaf at offset 64 *)

Definition leaf64 : ALeaf (list byte) nat := aleaf_new [] 7%nat.

Lemma linkable64 : linkable 64.
Proof. unfold linkable. split; [lia|done]. Qed.

Lemma retired_leaves_are_dropped_once_witness :
  ∃ s : lstate (L := ALeaf (list byte) nat), lreachable s ∧ l_retired s = [64] ∧
    ∃ fuel, storage_drop true fuel (l_leaves s) (l_head s) = Some [64].
Proof.
  pose proof (lreach_step _ _ lreach_init (l_new linit 64 leaf64 eq_refl)) as R1.
  assert (∀ s : lstate (L := ALeaf (list byte) nat), l_retired s = [] → (∀ t, l_threads s t = None) → retirable_now s 64) as HN.
  { intros s H1 H2. split; [rewrite H1; by intros ?%not_elem_of_nil|]. intros t o p. by rewrite H2. }
  let s := match type of R1 with lreachable ?s => s end in
    pose proof (lreach_step _ _ R1 (l_call s 0 64 leaf64 1 eq_refl (lookup_insert_eq _ _ _) I linkable64 ltac:(done) (HN s eq_refl (λ _, eq_refl)))) as R2.
  let s := match type of R2 with lreachable ?s => s end in pose proof (lreach_step _ _ R2 (l_load s 0 64 _ eq_refl)) as R3.
  let s := match type of R3 with lreachable ?s => s end in
    pose proof (lreach_step _ _ R3 (l_link s 0 64 64 0 _ leaf64 leaf64 eq_refl (lookup_insert_eq _ _ _) eq_refl)) as R4.
  let s := match type of R4 with lreachable ?s => s end in pose proof (lreach_step _ _ R4 (l_cas s 0 64 64 _ eq_refl)) as R5.
  eexists. split; [exact R5|]. split; [reflexivity|]. exact (proj1 (retired_leaves_are_dropped_once _ R5)).
Defined.
