(* ===== verification/AStorage.v ===== *)
(** * The storage of an arena map ([src/arena/storage.rs])

    [ArenaStorage] places nodes and leaves in the arena, at offsets that
    [Arena::alloc] hands out for their layouts, and frees nothing. The model's
    memory names an object by a location; the storage keeps the account of the
    bytes: the arena, and the chunks of the running thread. Layouts follow the
    fields of the [repr(C)] structs of [src/raw/node.rs]. *)

From S2P Require Import Prelude Bytes Latch Slot Bits Node Free Mem Arena.
Local Open Scope Z_scope.

(** ** Layouts of [repr(C)] structs *)

Definition prim (size : Z) : AllocLayout := {| al_size := size; al_align := size |}.
Definition array (n : Z) (ly : AllocLayout) : AllocLayout := {| al_size := n * al_size ly; al_align := al_align ly |}.

(** [x] rounded up to a multiple of [align]. *)
Definition round_up (align x : Z) : Z := (x + align - 1) / align * align.

(** The fields in order, each at the next multiple of its alignment; the size
    is rounded up to the struct's alignment. *)
Definition repr_c (fields : list AllocLayout) : AllocLayout :=
  let align := foldr (λ f a, Z.max (al_align f) a) 1 fields in
  let stop := foldl (λ off f, round_up (al_align f) off + al_size f) 0 fields in
  {| al_size := round_up align stop; al_align := align |}.

(** [NodeHeader]: the latch, the type, the number of children, the prefix
    length, the prefix words and the exact leaf. *)
Definition header_layout (slot : AllocLayout) : AllocLayout :=
  repr_c [prim 8; prim 1; prim 2; prim 2; array 2 (prim 8); slot].

Definition node_layout (slot : AllocLayout) (ty : NodeType) : AllocLayout :=
  match ty with
  | Node4 => repr_c [header_layout slot; prim 4; array 4 slot]
  | Node16 => repr_c [header_layout slot; array 2 (prim 8); array 16 slot]
  | Node48 => repr_c [header_layout slot; array 256 (prim 1); array 4 (prim 8); array 48 slot]
  | Node256 => repr_c [header_layout slot; array 4 (prim 8); array 256 slot]
  end.

(** An [AtomicU32] slot. *)
Definition slot32 : AllocLayout := prim 4.

(** The sizes that the code's tests assert. *)
Example node_sizes :
  (al_size (header_layout slot32), (λ ty, al_size (node_layout slot32 ty)) <$> [Node4; Node16; Node48; Node256])
  = (40, [64; 120; 520; 1096]).
Proof. vm_compute. reflexivity. Qed.

Lemma node_layout_ok ty : layout_ok (node_layout slot32 ty) ∧ al_align (node_layout slot32 ty) = 8.
Proof. split; [|by destruct ty]. split; [by destruct ty|]. exists 3. by destruct ty. Qed.

(** ** [ArenaStorage] *)

Record ArenaStorage := {
  st_arena : Arena;
  st_tls : option (list Tlab.Slot);  (** the chunks of the running thread *)
}.

(** [ArenaStorage::new], on a thread with these chunks; it asserts that a node
    can be aligned. *)
Definition storage_new (arena : Arena) (tls : option (list Tlab.Slot)) : option ArenaStorage :=
  if al_align (node_layout slot32 Node256) <=? ARENA_ALIGN then Some {| st_arena := arena; st_tls := tls |} else None.

(** [Arena::alloc] run alone: one turn is enough ([arun_alloc]). *)
Definition storage_alloc (s : ArenaStorage) (ly : AllocLayout) : option (Z * ArenaStorage) :=
  let a := st_arena s in
  match arun (alloc (ar_id a) (ar_capacity a) 1 ly) (ar_cursor a, st_tls s) with
  | Some (Some off, (cursor, tls)) => Some (off, {| st_arena := set_cursor cursor a; st_tls := tls |})
  | _ => None
  end.

(** [place]. *)
Definition place (s : ArenaStorage) (ty : NodeType) : option ArenaStorage :=
  '(_, s) ← storage_alloc s (node_layout slot32 ty); Some s.

#[export] Instance arena_layout : Layout ArenaStorage := {
  alloc_node := place;
  alloc_bytes s size align := storage_alloc s {| al_size := size; al_align := align |};
}.

(** [alloc_value]: the value is handed back when the arena is full. *)
Definition alloc_value {L} (ly : AllocLayout) (x : L) : prog L (option loc) :=
  off ← trigger (AllocBytes (al_size ly) (al_align ly));
  match off with
  | Some _ => p ← trigger (AllocLeaf x); mret (Some p)
  | None => mret None
  end.

(** [NonNull::read] of an object that is never used again: it is moved out. *)
Definition leaf_take {L} (l : loc) : prog L L :=
  x ← trigger (LeafRead l (λ x, x)); _ ← trigger (FreeLeaf l); mret x.
