(* ===== verification/Map.v ===== *)
(** * The maps' public operations ([src/lib.rs], [src/entry.rs], [src/set.rs])

    [ArtMap] and [ArtSet] over the heap tree, and the entry handles that their
    operations return. A handle is the location of its leaf: the epoch guard
    that it also holds only delays the reclamation of retired leaves, which
    this memory never reuses. *)

From S2P Require Import Prelude Bytes Latch Slot Bits Node Free Mem Raw Read Write Remove Shrink Walk Tree.
Local Open Scope Z_scope.

Section map.
Context {K V : Type} `{AsBytes K}.
Context (retries : nat).
Abbreviation prog := (prog (Leaf K V)).

(** ** Entry handles *)

Definition entry_key (leaf : loc) : prog K := LeafRead leaf lf_key.
Definition entry_value (leaf : loc) : prog V := LeafRead leaf lf_value.
Definition entry_is_removed (leaf : loc) : prog bool := LeafRead leaf is_removed.
Definition entry_to_owned (leaf : loc) : prog (K * V) :=
  k ← entry_key leaf; v ← entry_value leaf; mret (k, v).
Definition entry_remove (leaf : loc) : prog bool := tree_remove_leaf retries leaf.

(** ** [ArtMap] *)

(** For a thread with this stripe; the capacity is unused. *)
Definition map_new (stripe : nat) : RawTree (Leaf K V) HeapStorage := new_in Build_HeapStorage stripe.
Definition map_with_capacity (capacity : Z) (stripe : nat) : RawTree (Leaf K V) HeapStorage := map_new stripe.

Definition map_len : prog Z := tree_len.
Definition map_is_empty : prog bool := n ← map_len; mret (n =? 0).

Definition map_get_by_slice (key : list byte) : prog (option loc) := get retries key.
Definition map_get {Q} `{AsBytes Q} (key : Q) : prog (option loc) := map_get_by_slice (as_bytes key).

(** The guard of the caller in place of a pin. *)
Definition map_get_with_guard {Q} `{AsBytes Q} (key : Q) : prog (option loc) := get retries (as_bytes key).

Definition map_with_value {Q R} `{AsBytes Q} (key : Q) (f : V → R) : prog (option R) :=
  leaf ← get retries (as_bytes key);
  match leaf with
  | None => mret None
  | Some leaf => r ← trigger (LeafRead leaf (λ x, f (lf_value x))); mret (Some r)
  end.
Definition map_get_value {Q} `{AsBytes Q} (key : Q) : prog (option V) := map_with_value key (λ v, v).

Definition map_contains_key_slice (key : list byte) : prog bool :=
  leaf ← get retries key; mret (bool_decide (is_Some leaf)).
Definition map_contains_key {Q} `{AsBytes Q} (key : Q) : prog bool := map_contains_key_slice (as_bytes key).

Definition map_insert_in (key : K) (value : V) : prog (option loc) :=
  o ← tree_insert retries key value Replace;
  match o with
  | Inserted _ => mret None
  | Replaced old => mret (Some old)
  | Existing _ => Panic
  end.
Definition map_insert (key : K) (value : V) : prog (option loc) := map_insert_in key value.
Definition map_insert_with_guard (key : K) (value : V) : prog (option loc) := map_insert_in key value.
Definition map_insert_cloned (key : K) (value : V) : prog (option V) :=
  old ← map_insert key value;
  match old with None => mret None | Some old => v ← entry_value old; mret (Some v) end.

Definition map_get_or_insert_with (key : K) (f : unit → V) : prog loc :=
  hit ← get retries (as_bytes key);
  match hit with
  | Some leaf => mret leaf
  | None =>
    o ← tree_insert retries key (f tt) InsertIfAbsent;
    match o with
    | Inserted leaf => mret leaf
    | Existing existing => mret existing
    | Replaced _ => Panic
    end
  end.

Definition map_insert_if_absent (key : K) (value : V) : prog bool :=
  hit ← get retries (as_bytes key);
  if bool_decide (is_Some hit) then mret false
  else
    o ← tree_insert retries key value InsertIfAbsent;
    match o with
    | Inserted _ => mret true
    | Existing _ => mret false
    | Replaced _ => Panic
    end.

Definition map_remove_by_slice (key : list byte) : prog (option loc) := tree_remove retries key.
Definition map_remove {Q} `{AsBytes Q} (key : Q) : prog (option loc) := map_remove_by_slice (as_bytes key).

Definition map_clear (fuel : nat) : prog unit := clear fuel.
Definition map_shrink_to_fit (fuel : nat) : prog unit := shrink_to_fit fuel.
Definition map_validate_invariants (fuel : nat) : prog unit := _ ← tree_validate fuel; mret tt.
End map.

(** ** [ArtSet]: [ArtMap<K, ()>] *)

Section set.
Context {K : Type} `{AsBytes K}.
Context (retries : nat).
Abbreviation prog := (prog (Leaf K unit)).

Definition set_new (stripe : nat) : RawTree (Leaf K unit) HeapStorage := map_new stripe.
Definition set_with_capacity (capacity : Z) (stripe : nat) : RawTree (Leaf K unit) HeapStorage :=
  map_with_capacity capacity stripe.
Definition set_len : prog Z := map_len.
Definition set_is_empty : prog bool := map_is_empty.
Definition set_contains {Q} `{AsBytes Q} (key : Q) : prog bool := map_contains_key retries key.
Definition set_contains_slice (key : list byte) : prog bool := map_contains_key_slice retries key.
Definition set_insert (key : K) : prog bool := map_insert_if_absent retries key tt.
Definition set_remove {Q} `{AsBytes Q} (key : Q) : prog bool :=
  r ← map_remove retries key; mret (bool_decide (is_Some r)).
Definition set_remove_by_slice (key : list byte) : prog bool :=
  r ← map_remove_by_slice retries key; mret (bool_decide (is_Some r)).
Definition set_clear (fuel : nat) : prog unit := map_clear fuel.
End set.
