(* ===== verification/Iter.v ===== *)
(** * Iterators of the maps ([src/iter.rs], parts of [src/lib.rs] and [src/set.rs])

    A [Range] is a cursor with a pin; the pin, owned or borrowed, only delays
    reclamation and is left out, so the [*_with_guard] iterators coincide with
    the owned ones. Every iterator wraps a [Range]: [Keys] and [Values] yield
    handles that dereference to a field of the leaf, [GuardKeys] and
    [GuardValues] the fields themselves. A [FnMut] callback threads its state. *)

From S2P Require Import Prelude Bytes Latch Slot Bits Node Free Mem Raw Read Cursor Tree Map.
Local Open Scope Z_scope.

(** [owned_bound], from a bound on a borrowed key. *)
Definition owned_bound_of {Q} `{AsBytes Q} (b : Bound Q) : Bound KeyBuf :=
  owned_bound (match b with
               | Included k => Included (as_bytes k)
               | Excluded k => Excluded (as_bytes k)
               | Unbounded => Unbounded
               end).

Section iter.
Context {K V : Type} `{AsBytes K}.
Context (fuel : nat).
Abbreviation prog := (prog (Leaf K V)).

(** ** [Range] *)

Record Range := { rg_cursor : CursorState }.

Definition range_owned (start end_ : Bound KeyBuf) : Range := {| rg_cursor := cursor_new start end_ |}.
Definition range_borrowed (start end_ : Bound KeyBuf) : Range := {| rg_cursor := cursor_new start end_ |}.

Definition range_next (r : Range) : prog (option loc * Range) :=
  '(leaf, c) ← next fuel (rg_cursor r); mret (leaf, {| rg_cursor := c |}).
Definition range_next_back (r : Range) : prog (option loc * Range) :=
  '(leaf, c) ← next_back fuel (rg_cursor r); mret (leaf, {| rg_cursor := c |}).

(** ** The wrappers *)

Definition key_ref_deref (k : loc) : prog K := entry_key k.
Definition value_ref_deref (v : loc) : prog V := entry_value v.

Definition keys_next (r : Range) : prog (option loc * Range) := range_next r.
Definition keys_next_back (r : Range) : prog (option loc * Range) := range_next_back r.
Definition values_next (r : Range) : prog (option loc * Range) := range_next r.
Definition values_next_back (r : Range) : prog (option loc * Range) := range_next_back r.

Definition guard_keys_next (r : Range) : prog (option K * Range) :=
  '(leaf, c) ← next fuel (rg_cursor r);
  match leaf with
  | None => mret (None, {| rg_cursor := c |})
  | Some leaf => k ← trigger (LeafRead leaf lf_key); mret (Some k, {| rg_cursor := c |})
  end.
Definition guard_values_next (r : Range) : prog (option V * Range) :=
  '(leaf, c) ← next fuel (rg_cursor r);
  match leaf with
  | None => mret (None, {| rg_cursor := c |})
  | Some leaf => v ← trigger (LeafRead leaf lf_value); mret (Some v, {| rg_cursor := c |})
  end.

(** ** [ArtMap]'s iterators *)

Definition map_range {Q} `{AsBytes Q} (start end_ : Bound Q) : Range :=
  range_owned (owned_bound_of start) (owned_bound_of end_).
Definition map_range_with_guard {Q} `{AsBytes Q} (start end_ : Bound Q) : Range :=
  range_borrowed (owned_bound_of start) (owned_bound_of end_).
Definition map_iter : Range := range_owned Unbounded Unbounded.
Definition map_iter_with_guard : Range := range_borrowed Unbounded Unbounded.
Definition map_keys : Range := map_iter.
Definition map_values : Range := map_iter.
Definition map_keys_with_guard : Range := map_iter_with_guard.
Definition map_values_with_guard : Range := map_iter_with_guard.

(** [scan]: one turn of its [for] loop, and the loop. *)
Definition scan_turn {S} (callback : K → V → S → bool * S) (c : Range * S) : prog (flow (Range * S) S) :=
  let '(r, st) := c in
  '(e, r) ← range_next r;
  match e with
  | None => mret (Break st)
  | Some e =>
    k ← entry_key e;
    v ← entry_value e;
    let '(go_on, st) := callback k v st in
    if go_on then mret (Continue (r, st)) else mret (Break st)
  end.

Definition map_scan {Q S} `{AsBytes Q} (start end_ : Bound Q) (callback : K → V → S → bool * S) (st : S) : prog S :=
  loop fuel (scan_turn callback) (map_range_with_guard start end_, st).

(** ** Handles *)

Definition entry_value_cloned (leaf : loc) : prog V := entry_value leaf.
Definition entry_deref (leaf : loc) : prog V := entry_value leaf.
Definition entry_clone (leaf : loc) : loc := leaf.
Definition entry_eq `{EqDecision K} `{EqDecision V} (a b : loc) : prog bool :=
  ka ← entry_key a; kb ← entry_key b;
  if bool_decide (ka = kb) then
    va ← entry_value a; vb ← entry_value b; mret (bool_decide (va = vb))
  else mret false.
End iter.

(** ** [ArtSet] *)

Section set.
Context {K : Type} `{AsBytes K}.
Abbreviation prog := (prog (Leaf K unit)).

Definition set_range {Q} `{AsBytes Q} (start end_ : Bound Q) : Range := map_range start end_.
Definition set_iter : Range := map_keys.
Definition set_scan {Q S} `{AsBytes Q} (fuel : nat) (start end_ : Bound Q) (callback : K → S → bool * S) (st : S) : prog S :=
  map_scan fuel start end_ (λ k _, callback k) st.
Definition set_shrink_to_fit (fuel : nat) : prog unit := map_shrink_to_fit fuel.
Definition set_validate_invariants (fuel : nat) : prog unit := map_validate_invariants fuel.
Definition set_into_iter : Range := set_iter.
End set.
