(* ===== verification/ATree.v ===== *)
(** * The tree of an arena map ([src/arena/tree.rs])

    The cached insertion point of an inserter, and the inserts, removes and
    teardown of an [ArenaTree]. The size and alignment of [Leaf<K, V>] are the
    parameter [leaf_layout]. *)

From S2P Require Import Prelude Bytes Latch Slot Bits Node Free Mem Raw Read Write Remove Walk Tree Arena ANode AStorage.
Local Open Scope Z_scope.

(** ** [InserterCache] *)

Record InserterCache := { ic_hint : option Hint; ic_path : list byte }.

Definition cache_new : InserterCache := {| ic_hint := None; ic_path := replicate 32 Byte.x00 |}.

(** The key lies under the cached node. *)
Definition cache_matching (c : InserterCache) (key : list byte) : option Hint :=
  h ← ic_hint c;
  if decide (hint_depth h <= length (ic_path c))%nat then
    if decide (hint_depth h < length key)%nat then
      if decide (take (hint_depth h) key = take (hint_depth h) (ic_path c)) then Some h else None
    else None
  else None.

(** [self.path[..depth].copy_from_slice(&key[..depth])]. *)
Definition cache_remember (hint : option Hint) (key : list byte) (c : InserterCache) : InserterCache :=
  match hint with
  | Some h =>
    if decide (hint_depth h <= length (ic_path c))%nat then
      if decide (hint_depth h <= length key)%nat then
        {| ic_hint := Some h; ic_path := take (hint_depth h) key ++ drop (hint_depth h) (ic_path c) |}
      else {| ic_hint := None; ic_path := ic_path c |}
    else {| ic_hint := None; ic_path := ic_path c |}
  | None => {| ic_hint := None; ic_path := ic_path c |}
  end.

(** [None]: take the normal path. *)
Definition try_fast {L} `{LeafNode L} (c : InserterCache) (owner : loc) (key : list byte) (count : Z)
    : prog L (option Outcome * InserterCache) :=
  match cache_matching c key with
  | None => mret (None, c)
  | Some h => '(r, h) ← insert_at_hint h owner key count; mret (r, {| ic_hint := Some h; ic_path := ic_path c |})
  end.

(** ** [ArenaTree] *)

(** [ArenaFull]: the key and value that were not inserted. *)
Record ArenaFull (K V : Type) := { af_key : K; af_value : V }.
Arguments Build_ArenaFull {K V}. Arguments af_key {K V}. Arguments af_value {K V}.

Section tree.
Context {K V : Type} `{AsBytes K}.
Context (leaf_layout : AllocLayout).
Abbreviation prog := (prog (ALeaf K V)).

(** The displaced leaf, or the key and value back. *)
Abbreviation InsertResult := (option loc + ArenaFull K V)%type.

Definition atree_new (storage : ArenaStorage) (stripe : nat) : RawTree (ALeaf K V) ArenaStorage := new_in storage stripe.

Definition atree_len : prog Z := raw_len.

(** The insert proper, with its leaf. *)
Definition atree_insert_full (retries : nat) (leaf : loc) (key_bytes : list byte) (cache : option InserterCache)
    : prog (InsertResult * option InserterCache) :=
  '(r, hint) ← insert_hinted retries leaf key_bytes Replace 1 None;
  match r with
  | Some (Inserted _) =>
    _ ← owner_drop leaf; mret (inl None, cache_remember hint key_bytes <$> cache)
  | Some (Replaced old) => _ ← owner_drop leaf; mret (inl (Some old), cache)
  | Some (Existing _) => Panic
  | None =>
    _ ← owner_disarm leaf;
    l ← leaf_take leaf;
    _ ← owner_drop leaf;
    mret (inr {| af_key := al_key l; af_value := al_value l |}, cache)
  end.

Definition atree_insert (retries : nat) (key : K) (value : V) (cache : option InserterCache)
    : prog (InsertResult * option InserterCache) :=
  leaf ← alloc_value leaf_layout (aleaf_new key value);
  match leaf with
  | None => mret (inr {| af_key := key; af_value := value |}, cache)
  | Some leaf =>
    _ ← owner_new leaf;
    key_bytes ← leaf_key leaf;
    '(fast, cache) ← match cache with
                     | Some c => '(r, c) ← try_fast c leaf key_bytes 1; mret (r, Some c)
                     | None => mret (None, None)
                     end;
    match fast with
    | Some _ => _ ← owner_drop leaf; mret (inl None, cache)
    | None => atree_insert_full retries leaf key_bytes cache
    end
  end.

Definition atree_remove (retries : nat) (key : list byte) : prog (option loc) :=
  remove key (λ l, k ← leaf_key l; mret (bool_decide (k = key))) retries.

(** Retired leaves are dropped by the storage afterwards ([storage_drop]). *)
Definition atree_drop (needs_drop : bool) (fuel : nat) : prog unit :=
  if needs_drop then destroy fuel else mret tt.
End tree.
