(* ===== verification/AMap.v ===== *)
(** * The arena map and its iterators ([src/arena/map.rs], [src/arena/iter.rs])

    [ArenaArtMap], its inserters, the handles on its entries and its range
    iterator. A handle is the location of its leaf: nothing of an arena is
    freed while its map is borrowed. *)

From S2P Require Import Prelude Bytes Latch Slot Bits Node Free Mem Raw Read Write Remove Walk Cursor Tree Iter Arena ANode AStorage ATree.
Local Open Scope Z_scope.

(** ** [max_insert_bytes] *)

(** [size] bytes at [align], worst case. *)
Definition pad (size align : Z) : Z := size + align - 1.

Definition max_insert_bytes (leaf_layout : AllocLayout) (key_len : nat) : Z :=
  let leaf := pad (al_size leaf_layout) (al_align leaf_layout) in
  let node4s := Z.of_nat key_len / (Z.of_nat MAX_PREFIX_LEN + 1) + 2 in
  let node ty := pad (al_size (node_layout slot32 ty)) 8 in
  leaf + node4s * node Node4 + node Node16 + node Node48 + node Node256.

Section amap.
Context {K V : Type} `{AsBytes K}.
Context (leaf_layout : AllocLayout) (retries : nat).
Abbreviation prog := (prog (ALeaf K V)).

(** ** [ArenaEntryRef] *)

Definition aentry_key (leaf : loc) : prog K := LeafRead leaf al_key.
Definition aentry_value (leaf : loc) : prog V := LeafRead leaf al_value.
Definition aentry_is_removed (leaf : loc) : prog bool := LeafRead leaf is_removed.
Definition aentry_deref (leaf : loc) : prog V := aentry_value leaf.
Definition aentry_eq `{EqDecision K, EqDecision V} (e e' : loc) : prog bool :=
  k ← aentry_key e; k' ← aentry_key e';
  if decide (k = k') then v ← aentry_value e; v' ← aentry_value e'; mret (bool_decide (v = v')) else mret false.

(** ** [ArenaArtMap] *)

Definition amap_new (storage : ArenaStorage) (stripe : nat) : RawTree (ALeaf K V) ArenaStorage := atree_new storage stripe.

(** A map in a new arena, with the identity and the block that it gets. *)
Definition amap_with_capacity (id raw_address capacity : Z) (tls : option (list Tlab.Slot)) (stripe : nat)
    : option (RawTree (ALeaf K V) ArenaStorage) :=
  arena ← arena_new id raw_address capacity;
  storage ← storage_new arena tls;
  Some (amap_new storage stripe).

Definition amap_len : prog Z := atree_len.
Definition amap_is_empty : prog bool := n ← amap_len; mret (n =? 0).

Definition amap_get_slice (key : list byte) : prog (option V) :=
  leaf ← get retries key;
  match leaf with
  | None => mret None
  | Some leaf => v ← aentry_value leaf; mret (Some v)
  end.
Definition amap_get_entry {Q} `{AsBytes Q} (key : Q) : prog (option loc) := get retries (as_bytes key).
Definition amap_get {Q} `{AsBytes Q} (key : Q) : prog (option V) :=
  e ← amap_get_entry key;
  match e with
  | None => mret None
  | Some e => v ← aentry_value e; mret (Some v)
  end.
Definition amap_contains_key {Q} `{AsBytes Q} (key : Q) : prog bool :=
  leaf ← get retries (as_bytes key); mret (bool_decide (is_Some leaf)).

Definition amap_try_insert (key : K) (value : V) : prog (option loc + ArenaFull K V) :=
  '(r, _) ← atree_insert leaf_layout retries key value None; mret r.
Definition amap_insert (key : K) (value : V) : prog (option loc) :=
  r ← amap_try_insert key value;
  match r with inl old => mret old | inr _ => Panic end.

Definition amap_remove {Q} `{AsBytes Q} (key : Q) : prog (option loc) := atree_remove retries (as_bytes key).

Definition amap_validate_invariants (fuel : nat) : prog unit := _ ← tree_validate fuel; mret tt.

(** ** [ArenaInserter] *)

Record ArenaInserter := { in_cache : InserterCache }.

Definition amap_inserter : ArenaInserter := {| in_cache := cache_new |}.

Definition inserter_try_insert (ins : ArenaInserter) (key : K) (value : V)
    : prog ((option loc + ArenaFull K V) * ArenaInserter) :=
  '(r, c) ← atree_insert leaf_layout retries key value (Some (in_cache ins));
  c ← expect c;
  mret (r, {| in_cache := c |}).
Definition inserter_insert (ins : ArenaInserter) (key : K) (value : V) : prog (option loc * ArenaInserter) :=
  '(r, ins) ← inserter_try_insert ins key value;
  match r with inl old => mret (old, ins) | inr _ => Panic end.

(** ** [Range] *)

Record ARange := { ag_cursor : CursorState }.

Definition arange_new (start end_ : Bound KeyBuf) : ARange := {| ag_cursor := cursor_new start end_ |}.

Definition arange_next (fuel : nat) (r : ARange) : prog (option loc * ARange) :=
  '(leaf, c) ← next fuel (ag_cursor r); mret (leaf, {| ag_cursor := c |}).
Definition arange_next_back (fuel : nat) (r : ARange) : prog (option loc * ARange) :=
  '(leaf, c) ← next_back fuel (ag_cursor r); mret (leaf, {| ag_cursor := c |}).

Definition amap_range {Q} `{AsBytes Q} (start end_ : Bound Q) : ARange :=
  arange_new (owned_bound_of start) (owned_bound_of end_).
Definition amap_iter : ARange := arange_new Unbounded Unbounded.
Definition amap_into_iter : ARange := amap_iter.

(** [scan]: one turn of its [for] loop, and the loop. *)
Definition ascan_turn {S} (fuel : nat) (callback : K → V → S → bool * S) (c : ARange * S) : prog (flow (ARange * S) S) :=
  let '(r, st) := c in
  '(e, r) ← arange_next fuel r;
  match e with
  | None => mret (Break st)
  | Some e =>
    k ← aentry_key e;
    v ← aentry_value e;
    let '(go_on, st) := callback k v st in
    if go_on then mret (Continue (r, st)) else mret (Break st)
  end.
Definition amap_scan {Q} `{AsBytes Q} {S} (fuel : nat) (start end_ : Bound Q) (callback : K → V → S → bool * S) (st : S)
    : prog S :=
  loop fuel (ascan_turn fuel callback) (amap_range start end_, st).
End amap.
