(* ===== verification/MapSpec.v ===== *)
(** * The maps implement finite maps

    [holds s M] says that a heap tree at rest holds the finite map [M] from key
    bytes to entries: the tree is well formed, its leaves are the entries, and
    the striped count is the size. Every public operation of [Map.v] is
    specified by what it does to [M], handles included. *)

From S2P Require Import Prelude Bytes Latch Slot Bits Node NodeSpec NodeOps Free Mem Shape Raw Read Write Remove Shrink Inv Descent Update Pool Commits Rules WriteSpec RemoveSpec ShrinkSpec Walk WalkSpec Tree Map.
Local Open Scope Z_scope.

(** ** Owned leaves come and go *)

Section owned.
Context {L St : Type} {LN : LeafNode L} {LL : LeafLaws L} {LY : Layout St} {EX : Exempt}.
Implicit Types (s : RawTree L St) (m : gmap path loc) (B : gmap loc path) (P : gset loc).

(** Leaves that do not hang in the tree do not matter to its shape. *)
Lemma wf_leaves_change s s' B m P :
  wf s B m P → t_root s' = t_root s → t_root_latch s' = t_root_latch s → t_nodes s' = t_nodes s →
  t_len s' = t_len s → t_stripe s' = t_stripe s → t_retired_nodes s' = t_retired_nodes s →
  t_retired_leaves s' = t_retired_leaves s →
  (∀ k l, m !! k = Some l → t_leaves s' !! l = t_leaves s !! l) → (∀ l, leaf_status s' m l) → wf s' B m P.
Proof.
  intros W E1 E2 E3 E4 E5 E6 E7 HL HS. destruct W as [W1 W2 W3 W4 W5 W6 W7 W8].
  assert (nodes_of s' = nodes_of s) as EN by (unfold nodes_of; by rewrite E3).
  assert (∀ q x r, tree_edges s' B q x r ↔ tree_edges s B q x r) as EE by (unfold tree_edges; by rewrite E1, EN).
  assert (∀ q x l k, tree_edges s B q x (LeafAt l) → live_key s l = Some k → live_key s' l = Some k) as LK.
  { intros q x l k He Hl. unfold live_key. rewrite (HL k l); [exact Hl|]. apply W2. eauto. }
  split.
  - rewrite E1, EN. destruct W1 as [O1 O2 O3 O4]. split; try done.
    intros q x l He. destruct (O2 q x l He) as (k & Hk & F). eauto.
  - intros k l. unfold map_ok in W2. split.
    + intros Hk. pose proof Hk as (Hl & q & x & He)%W2. split; [by eapply LK|]. exists q, x. by apply EE.
    + intros (Hl & q & x & He%EE). destruct (eo_leaf _ _ _ _ W1 q x l He) as (k' & Hk' & _).
      pose proof (LK q x l k' He Hk'). assert (k' = k) as -> by congruence. apply W2. eauto.
  - intros n. apply (node_frame s s' B B P P n); [by rewrite E3|done|by rewrite E6|done|done].
  - done.
  - by rewrite E6.
  - by rewrite E7.
  - by rewrite E2.
  - by rewrite E4, E5.
Qed.

Lemma wf_alloc_leaf s B m P l x :
  wf s B m P → t_leaves s !! l = None → is_removed x = false →
  wf (set_t_owned ({[l]} ∪ t_owned s) (set_t_leaves (<[l := x]> (t_leaves s)) s)) B m P.
Proof.
  intros W Hl Hx. assert (∀ k, m !! k ≠ Some l) as Hm.
  { intros k Hk. apply (map_live _ _ _ _ _ _ W) in Hk as (y & Hy & _)%live_key_Some. congruence. }
  apply (wf_leaves_change s); try done.
  - intros k l' Hk. apply lookup_insert_ne. intros ->. by apply (Hm k).
  - intros l'. pose proof (wf_leaves _ _ _ _ W) as Hs. destruct (decide (l' = l)) as [->|Hne].
    + destruct (Hs l) as [?|?|?|H1 H2 H3 H4]; [congruence..|].
      apply leaf_owned with x; cbn; [apply lookup_insert_eq|done..|set_solver].
    + assert (l' ∈ {[l]} ∪ t_owned s ↔ l' ∈ t_owned s) as E by set_solver.
      destruct (Hs l') as [y|y|y|]; [eapply leaf_linked with y|eapply leaf_retired with y|eapply leaf_owned with y|eapply leaf_free];
        cbn; rewrite ?lookup_insert_ne, ?E; done.
Qed.

Lemma wf_free_owned s B m P l :
  wf s B m P → l ∈ t_owned s →
  wf (set_t_leaves (delete l (t_leaves s)) (set_t_owned (t_owned s ∖ {[l]}) s)) B m P.
Proof.
  intros W Ho. destruct (leaf_status_owned s m l (wf_leaves _ _ _ _ W l) Ho) as (x & Hx & _ & Hm & Hr).
  apply (wf_leaves_change s); try done.
  - intros k l' Hk. apply lookup_delete_ne. intros ->. by apply (Hm k).
  - intros l'. pose proof (wf_leaves _ _ _ _ W) as Hs. destruct (decide (l' = l)) as [->|Hne].
    + apply leaf_free; cbn; [apply lookup_delete_eq|done..|set_solver].
    + assert (l' ∈ t_owned s ∖ {[l]} ↔ l' ∈ t_owned s) as E by set_solver.
      destruct (Hs l') as [y|y|y|]; [eapply leaf_linked with y|eapply leaf_retired with y|eapply leaf_owned with y|eapply leaf_free];
        cbn; rewrite ?lookup_delete_ne, ?E; done.
Qed.

Lemma wp_owner_drop_armed l Q s : l ∈ t_owned s → is_Some (t_leaves s !! l) →
  Q tt (set_t_leaves (delete l (t_leaves s)) (set_t_owned (t_owned s ∖ {[l]}) s)) → wp (owner_drop l) Q s.
Proof.
  intros Ho [x Hx] HQ. unfold owner_drop. apply wp_bind. eapply wp_exec; [done|]. rewrite bool_decide_true by done.
  apply wp_bind, wp_owner_disarm. eapply wp_exec; [|exact HQ]. cbn. unfold with_leaf. cbn. by rewrite Hx.
Qed.

Lemma wp_owner_drop_disarmed l Q s : l ∉ t_owned s → Q tt s → wp (owner_drop l) Q s.
Proof.
  intros Ho HQ. unfold owner_drop. apply wp_bind. eapply wp_exec; [done|]. rewrite bool_decide_false by done. by apply wp_ret.
Qed.
End owned.

(** ** The map a tree holds *)

(** What a leaf type of a map has: its entry, and a mark that is always possible. *)
Class EntryLeaf (L K V : Type) `{AsBytes K} `{LeafNode L} := {
  entry_of : L → K * V;
  marked : L → L;
  entry_bytes x : key_bytes x = as_bytes (entry_of x).1;
  mark_entry x : mark_removed x = Some (marked x);
  entry_marked x : entry_of (marked x) = entry_of x;
}.
#[global] Hint Mode EntryLeaf ! - - - - : typeclass_instances.

#[export] Program Instance leaf_entry {K V} `{AsBytes K} : EntryLeaf (Leaf K V) K V := {
  entry_of x := (lf_key x, lf_value x);
  marked x := {| lf_key := lf_key x; lf_value := lf_value x; lf_removed := true |};
}.
Solve All Obligations with done.

Section holds.
Context {L St K V : Type} {AB : AsBytes K} {LN : LeafNode L} {LL : LeafLaws L} {EL : EntryLeaf L K V} {LY : Layout St}.
Abbreviation tree := (RawTree L St).
Abbreviation wf := (wf (EX := at_rest)).
Implicit Types (s : tree) (x : L) (m : gmap path loc) (M : gmap path (K * V)).

Lemma leaf_replaceable mode : replaceable (L := L) mode.
Proof. intros _ x. exists (marked x). apply mark_entry. Qed.

Lemma marked_removed x : is_removed (marked x) = true.
Proof. eapply is_removed_mark, mark_entry. Qed.

(** The entry is that of a linked leaf too. *)
Lemma marked_handle x : entry_of (marked x) = entry_of x ∧ is_removed (marked x) = true.
Proof. split; [apply entry_marked|apply marked_removed]. Qed.

(** A handle's leaf: its entry, and whether it was removed. *)
Definition handle s (l : loc) (e : K * V) (removed : bool) : Prop :=
  ∃ x, t_leaves s !! l = Some x ∧ entry_of x = e ∧ is_removed x = removed.

Definition entries_ok s m M : Prop := ∀ k, M !! k = (l ← m !! k; entry_of <$> t_leaves s !! l).

Definition holds s M : Prop := ∃ B m,
  wf s B m ∅ ∧ t_owned s = ∅ ∧ entries_ok s m M ∧ Counter.sum (t_len s) = Counter.wrap_i64 (Z.of_nat (size M)).

Lemma entries_lookup s B m M k : wf s B m ∅ → entries_ok s m M →
  match m !! k with
  | Some l => ∃ x, t_leaves s !! l = Some x ∧ M !! k = Some (entry_of x) ∧ is_removed x = false ∧ key_bytes x = k
  | None => M !! k = None
  end.
Proof.
  intros W HE. rewrite (HE k). destruct (m !! k) as [l|] eqn:Hk; [|done].
  apply (map_live _ _ _ _ _ _ W), live_key_Some in Hk as (x & Hx & ? & ?). exists x. cbn. by rewrite Hx.
Qed.

(** The keys of the map are the bytes of its entries. *)
Lemma holds_keys s M k e : holds s M → M !! k = Some e → as_bytes e.1 = k.
Proof.
  intros (B & m & W & _ & HE & _) Hk. pose proof (entries_lookup s B m M k W HE) as X.
  destruct (m !! k); [|congruence]. destruct X as (x & _ & E & _ & <-). rewrite entry_bytes. by simplify_eq.
Qed.

Lemma holds_new (storage : St) stripe : (stripe < Counter.STRIPES)%nat → holds (new_in storage stripe : tree) ∅.
Proof.
  intros Hs. exists ∅, ∅. split_and!; [by apply wf_new|done| |done]. intros k. by rewrite !lookup_empty.
Qed.

Lemma size_is_empty M : (Z.of_nat (size M) =? 0) = bool_decide (M = ∅).
Proof.
  destruct (Z.eqb_spec (Z.of_nat (size M)) 0) as [E|E]; symmetry.
  - apply bool_decide_eq_true, map_size_empty_iff. lia.
  - apply bool_decide_eq_false. intros ->. by rewrite map_size_empty in E.
Qed.

(** [len] is the size. *)
Lemma holds_len s M : holds s M → Z.of_nat (size M) < 2 ^ 63 →
  wp raw_len (λ n s', s' = s ∧ n = Z.of_nat (size M)) s.
Proof.
  intros (B & m & _ & _ & _ & E) Hs. unfold raw_len. apply wp_bind. eapply wp_exec; [done|]. apply wp_ret.
  rewrite E, Counter.wrap_i64_small by lia. split; [done|lia].
Qed.

(** ** Lookups *)

Lemma get_holds retries s M key : (0 < retries)%nat → holds s M →
  wp (get retries key) (λ o s', s' = s ∧ match o with
    | Some l => ∃ e, M !! key = Some e ∧ handle s l e false
    | None => M !! key = None
    end) s.
Proof.
  intros Hr (B & m & W & _ & HE & _). eapply wp_mono; [by apply (get_spec (EX := at_rest) s B m ∅)|].
  intros o ? [-> ->]. split; [done|]. pose proof (entries_lookup s B m M key W HE) as X.
  destruct (m !! key) as [l|]; [|done]. destruct X as (x & Hx & E & Hr' & _). exists (entry_of x). split; [done|].
  by exists x.
Qed.

(** ** Inserts *)

(** The entries after [l] was linked at [k]. *)
Lemma entries_insert s s' m M k l x :
  entries_ok s m M → (∀ k' l', k' ≠ k → m !! k' = Some l' → entry_of <$> t_leaves s' !! l' = entry_of <$> t_leaves s !! l') →
  t_leaves s' !! l = Some x → entries_ok s' (<[k := l]> m) (<[k := entry_of x]> M).
Proof.
  intros HE HL Hl k'. destruct (decide (k' = k)) as [->|Hne].
  - rewrite !lookup_insert_eq. cbn. by rewrite Hl.
  - rewrite !lookup_insert_ne by done. rewrite (HE k'). destruct (m !! k') as [l'|] eqn:E; [|done]. cbn. by rewrite (HL k').
Qed.

(** A leaf with the entry [e] that waits to be inserted, in a tree that holds
    [M] and whose nodes lie at the paths [B]. *)
Record pending s B M (l : loc) (e : K * V) : Prop := {
  pe_owned : t_owned s = {[l]};
  pe_leaf : handle s l e false;
  pe_tree : ∃ m, wf s B m ∅ ∧ entries_ok s m M;
  pe_len : Counter.sum (t_len s) = Counter.wrap_i64 (Z.of_nat (size M));
}.

Definition holds_at s B M : Prop := ∃ m,
  wf s B m ∅ ∧ t_owned s = ∅ ∧ entries_ok s m M ∧ Counter.sum (t_len s) = Counter.wrap_i64 (Z.of_nat (size M)).

Lemma holds_at_holds s B M : holds_at s B M → holds s M.
Proof. by exists B. Qed.

(** What an insert of the pending entry may do. *)
Definition insert_pending s B M (l : loc) (e : K * V) mode (hint : option Hint) (r : option Outcome * option Hint) s' : Prop :=
  let k := as_bytes e.1 in
  match r.1 with
  | Some (Inserted l') => l' = l ∧ M !! k = None ∧ handle s' l e false ∧
      ∃ B', holds_at s' B' (<[k := e]> M) ∧ (r.2 = hint ∨ ∃ h, r.2 = Some h ∧ hint_ok s' B' k h)
  | Some (Replaced old) => mode = Replace ∧ (∃ e', M !! k = Some e' ∧ handle s' old e' true) ∧
      holds_at s' B (<[k := e]> M) ∧ stepped s B s' ∧ r.2 = hint
  | Some (Existing old) => mode = InsertIfAbsent ∧ (∃ e', M !! k = Some e' ∧ handle s' old e' false) ∧
      old ≠ l ∧ pending s' B M l e ∧ r.2 = hint
  | None => storage_refuses s' ∧ pending s' B M l e ∧ stepped s B s' ∧ r.2 = hint
  end.

Lemma pending_key s B M l e : pending s B M l e → live_key s l = Some (as_bytes e.1).
Proof.
  intros P. destruct (pe_leaf _ _ _ _ _ P) as (x & Hx & <- & Hr). apply live_key_Some. exists x. by rewrite entry_bytes.
Qed.

(** The pending leaf was linked. *)
Lemma inserted_holds s B M l e s' B' m : pending s B M l e → wf s B m ∅ → entries_ok s m M → M !! as_bytes e.1 = None →
  leaves_kept s s' l → inserted (EX := at_rest) s m l (as_bytes e.1) (counted 1 s) s' B' ∅ →
  handle s' l e false ∧ holds_at s' B' (<[as_bytes e.1 := e]> M).
Proof.
  intros [Ho (y & Hl & <- & Hry) _ HL] W HE HM [K1 K2 K3] [W2 E2 E3]. split; [exists y; by rewrite K1|].
  exists (<[as_bytes (entry_of y).1 := l]> m). split_and!; [done|rewrite K3, Ho; set_solver|..].
  - apply (entries_insert s s' m M _ l y); [done|by rewrite K1|by rewrite K1].
  - rewrite E2, (sum_counted 1 s B m ∅ (Z.of_nat (size M)) W HL). f_equal. rewrite map_size_insert_None by done. lia.
Qed.

Lemma insert_pending_spec retries s B M l e mode hint : (0 < retries)%nat → pending s B M l e →
  wp (insert_hinted retries l (as_bytes e.1) mode 1 hint) (insert_pending s B M l e mode hint) s.
Proof.
  intros Hr P. pose proof (pending_key _ _ _ _ _ P) as Hk. pose proof P as P0. destruct P as [Ho (y & Hl & <- & Hry) (m & W & HE) HL].
  set (key := as_bytes (entry_of y).1) in *.
  pose proof (entries_lookup s B m M (key) W HE) as X.
  assert (∀ k, m !! k ≠ Some l) as Hm by (intros k; apply (owned_not_linked s B m ∅ l k W); rewrite Ho; set_solver).
  eapply wp_mono; [eapply (insert_hinted_spec (EX := at_rest)); [done|exact W|rewrite Ho; set_solver|exact Hk|apply leaf_replaceable]|].
  intros [r h] s2 HD. unfold insert_done in HD. unfold insert_pending. cbn [fst snd] in HD |- *. destruct r as [[l'|old|old]|].
  - destruct HD as (-> & Hn & LK & B' & IN & Hh). rewrite Hn in X.
    destruct (inserted_holds s B M l _ s2 B' m P0 W HE X LK IN) as [H1 H2]. split_and!; [done..|]. by exists B'.
  - destruct HD as (-> & Hn & (x & x1 & Hx & Hx1 & [_ K1 _ K2 K3]) & [W2 E2 E3] & ST & Hh).
    rewrite Hn in X. destruct X as (x' & Hx' & EM & _). assert (x' = x) as -> by congruence.
    rewrite mark_entry in Hx1. injection Hx1 as <-.
    assert (old ≠ l) as Hne by (intros ->; by apply (Hm (key))).
    split_and!; [done|exists (entry_of x); split; [done|]; exists (marked x); rewrite K1, lookup_insert_eq; by split_and!; [|apply marked_handle..]| |done|done].
    exists (<[key := l]> m). split_and!; [done|rewrite K3, Ho; set_solver|..].
    + apply (entries_insert s s2 m M _ l y); [done| |by rewrite K1, lookup_insert_ne].
      intros k' l' Hk' Hm'. rewrite K1, lookup_insert_ne; [done|]. intros <-. apply Hk'. by eapply (map_inj (EX := at_rest) s).
    + rewrite E2, HL. f_equal. f_equal. symmetry. apply map_size_insert_Some. by eexists.
  - destruct HD as (-> & Hn & W2 & SM & Hh). destruct SM as [_ _ M3 _ M5 _ _ M8 _].
    rewrite Hn in X. destruct X as (x & Hx & EM & Hrm & _). split_and!; [done| |by intros ->; apply (Hm (key))| |done].
    + exists (entry_of x). split; [done|]. exists x. by rewrite M5.
    + split; [congruence|exists y; by rewrite M5| |congruence]. exists m. split; [done|]. intros k. by rewrite M5.
  - destruct HD as (HF & W2 & SM & Hh). pose proof (same_stepped s s2 B ∅ SM eq_refl) as ST.
    destruct SM as [_ _ M3 _ M5 _ _ M8 _]. split_and!; [done| |done..].
    split; [congruence|exists y; by rewrite M5| |congruence]. exists m. split; [done|]. intros k. by rewrite M5.
Qed.

(** A new leaf under an owner is pending. *)
Lemma pending_alloc s B M l x : holds_at s B M → t_leaves s !! l = None → is_removed x = false →
  pending (set_t_owned ({[l]} ∪ t_owned s) (set_t_leaves (<[l := x]> (t_leaves s)) s)) B M l (entry_of x).
Proof.
  intros (m & W & Ho & HE & HL) Hl Hx. split; [cbn; rewrite Ho; set_solver|exists x; by cbn; rewrite lookup_insert_eq| |done].
  exists m. split; [by apply wf_alloc_leaf|]. intros k. rewrite (HE k). destruct (m !! k) as [l'|] eqn:E; [|done].
  cbn. rewrite lookup_insert_ne; [done|]. intros <-. apply (map_live _ _ _ _ _ _ W), live_key_Some in E as (? & ? & _). congruence.
Qed.

(** Without its pending leaf the tree holds the same map. *)
Lemma pending_free s B M l e : pending s B M l e →
  holds_at (set_t_leaves (delete l (t_leaves s)) (set_t_owned (t_owned s ∖ {[l]}) s)) B M.
Proof.
  intros [Ho _ (m & W & HE) HL]. exists m. split_and!; [apply wf_free_owned; [done|rewrite Ho; set_solver]|cbn; rewrite Ho; set_solver| |done].
  intros k. rewrite (HE k). destruct (m !! k) as [l'|] eqn:E; [|done]. cbn. rewrite lookup_delete_ne; [done|].
  intros <-. apply (owned_not_linked s B m ∅ l k W); [rewrite Ho; set_solver|done].
Qed.

(** A handle does not notice that another leaf is freed. *)
Lemma handle_free s l l' e b o : l' ≠ l → handle s l e b →
  handle (set_t_leaves (delete l' (t_leaves s)) (set_t_owned o s)) l e b.
Proof. intros Hne (x & Hx & HH). exists x. cbn. by rewrite lookup_delete_ne. Qed.

(** ** Removes *)

Lemma entries_remove s s' m M k l x1 : entries_ok s m M → leaf_unlinked s s' l x1 (t_owned s) →
  (∀ k', m !! k' = Some l → k' = k) → entries_ok s' (delete k m) (delete k M).
Proof.
  intros HE [_ K1 _ _ _] HI k'. destruct (decide (k' = k)) as [->|Hne].
  - by rewrite !lookup_delete_eq.
  - rewrite !lookup_delete_ne by done. rewrite (HE k'). destruct (m !! k') as [l'|] eqn:E; [|done]. cbn.
    rewrite K1, lookup_insert_ne; [done|]. intros <-. by apply Hne, HI.
Qed.

(** What both ways to remove do: the leaf that the callback accepts goes. *)
Lemma remove_holds retries s M key matches (mt : loc → L → bool) : (0 < retries)%nat → holds s M →
  (∀ l x (Q : bool → tree → Prop) s0, t_leaves s0 !! l = Some x → Q (mt l x) s0 → wp (matches l) Q s0) →
  (∀ l x, t_leaves s !! l = Some x → mt l x = true → key_bytes x = key) →
  wp (remove key matches retries) (λ o s', match o with
    | Some l => ∃ x, t_leaves s !! l = Some x ∧ mt l x = true ∧ is_removed x = false ∧ M !! key = Some (entry_of x) ∧
        holds s' (delete key M) ∧ handle s' l (entry_of x) true
    | None => holds s' M ∧ t_leaves s' = t_leaves s ∧
        ∀ l x, t_leaves s !! l = Some x → is_removed x = false → key_bytes x = key → mt l x = false
    end) s.
Proof.
  intros Hr (B & m & W & Ho & HE & HL) Hmatches Hmt. unfold remove.
  eapply wp_mono.
  { eapply (remove_confirmed_spec key matches (λ _, mret (Some 1)) retries mt (λ _ x, Some (1, x)) (λ _ _ c, c)); try done.
    - intros l x Q s' _. apply Hmatches.
    - intros l x Q s' _ _ _ Hx HQ. apply wp_ret. cbn in HQ. rewrite insert_id in HQ by done. by destruct s'.
    - intros l x c x' _ [= _ <-]. exists (marked x). apply mark_entry. }
  pose proof (entries_lookup s B m M key W HE) as X. intros [l|] s' HD.
  - destruct HD as (x & c & ? & ? & B' & Hm & Hx & Emt & [= <- <-] & Hx1 & LU & El & _ & _ & W').
    rewrite mark_entry in Hx1. injection Hx1 as <-.
    rewrite Hm in X. destruct X as (x' & Hx' & EM & Hrm & _). assert (x' = x) as -> by congruence.
    exists x. split_and!; [done..| |].
    + exists B', (delete key m). split_and!; [done| |eapply entries_remove; [done..|]|].
      * by rewrite (lu_owned _ _ _ _ _ LU).
      * intros k' Hk'. by eapply (map_inj (EX := at_rest) s).
      * rewrite El, (sum_counted (- (1)) s B m ∅ (Z.of_nat (size M)) W HL).
        f_equal. rewrite map_size_delete, EM. assert (0 < size M)%nat; [|lia].
        assert (size M ≠ 0%nat) as Hne; [|lia]. intros E0%map_size_empty_inv. by rewrite E0, lookup_empty in EM.
    + exists (marked x). rewrite (lu_leaves _ _ _ _ _ LU), lookup_insert_eq. split; [done|apply marked_handle].
  - destruct HD as (Hn & ST & W'). destruct ST as [S1 _ S3 S4 _]. cbn in S1, S3, S4. split_and!.
    + exists B, m. split_and!; [done|congruence| |by rewrite S4]. intros k. by rewrite S1.
    + done.
    + intros l x Hx Hrm Hk. destruct (wf_leaves _ _ _ _ W l) as [y H1 H2 H3 _ _|y H1 H2|y H1 _ _ _ H5|H1]; [|congruence| |congruence].
      * assert (y = x) as -> by congruence. rewrite Hk in H3. destruct (Hn l x H3 Hx) as [|]; done.
      * by rewrite Ho in H5.
Qed.

(** The callback of the maps' removes compares the keys. *)
Lemma remove_key_holds retries s M key : (0 < retries)%nat → holds s M →
  wp (remove key (λ l, k ← leaf_key l; mret (bool_decide (k = key))) retries) (λ o s', match o with
    | Some l => ∃ e, M !! key = Some e ∧ holds s' (delete key M) ∧ handle s' l e true
    | None => M !! key = None ∧ holds s' M
    end) s.
Proof.
  intros Hr HS. eapply wp_mono.
  { eapply (remove_holds retries s M key _ (λ _ x, bool_decide (key_bytes x = key))); [done|done|..].
    - intros l x Q s0 Hx HQ. apply wp_bind. eapply wp_leaf_read; [exact Hx|]. by apply wp_ret.
    - intros l x _ ?%bool_decide_eq_true. done. }
  intros [l|] s'; cbn.
  - intros (x & Hx & _ & _ & HM & H1 & H2). by exists (entry_of x).
  - intros (H1 & _ & Hn). split; [|done]. destruct HS as (B & m & W & _ & HE & _).
    pose proof (entries_lookup s B m M key W HE) as X. destruct (m !! key) as [l|]; [|done].
    destruct X as (x & Hx & _ & Hrm & Hk). specialize (Hn l x Hx Hrm Hk). apply bool_decide_eq_false in Hn. done.
Qed.

(** ** Whole trees *)

Lemma holds_size s B m M : wf s B m ∅ → entries_ok s m M → size m = size M.
Proof.
  intros W HE. rewrite <- !(size_dom (D := gset path)). f_equal. apply set_eq. intros k. rewrite !elem_of_dom.
  pose proof (entries_lookup s B m M k W HE) as X. destruct (m !! k).
  - destruct X as (x & _ & -> & _). split; eauto.
  - by rewrite X.
Qed.

(** Every leaf counts as one, and is marked. *)
Lemma counts_one : counts (L := L) (St := St) (λ _, True) (λ _, mret 1) (λ x, (1, marked x)).
Proof.
  intros l x Q s _ _ Hx HQ. apply wp_ret. specialize (HQ x (mark_entry x)). cbn in HQ.
  rewrite insert_id in HQ by done. by destruct s.
Qed.

(** [clear] leaves an empty map, and every handle reads removed. *)
Lemma clear_holds fuel s M : holds s M → (size (t_nodes s) + size (t_leaves s) < fuel)%nat →
  wp (clear fuel) (λ _ s', (holds s' ∅ ∧ ∀ l e b, handle s l e b → handle s' l e true) ∧ wf s' ∅ ∅ ∅ ∧ t_owned s' = ∅) s.
Proof.
  intros (B & m & W & Ho & HE & HL) Hf. eapply wp_mono.
  { apply (clear_spec s B m ∅ W (λ _, True) (λ _, mret 1) (λ x, (1, marked x)) counts_one); [done| |done].
    intros k l x _ _. exists x. apply mark_entry. }
  intros _ s' [W' El Eo Hin Hout].
  split; [split|split; [done|congruence]].
  - exists ∅, ∅. split_and!; [done|congruence|intros k; by rewrite !lookup_empty|].
    change (λ x : L, (1, marked x).1) with (λ _ : L, 1) in El.
    rewrite El, (total_one s B m ∅ W), (sum_counted _ s B m ∅ _ W HL), (holds_size s B m M W HE). f_equal. rewrite map_size_empty. lia.
  - intros l e b (x & Hx & <- & Hb). destruct (wf_leaves _ _ _ _ W l) as [y H1 H2 H3 _ _|y H1 H2 H3|y H1 _ _ _ H5|H1].
    + exists (marked x). rewrite (Hin _ l H3), Hx. split; [done|apply marked_handle].
    + exists x. rewrite (Hout l H3), Hx. split_and!; [done..|]. congruence.
    + by rewrite Ho in H5.
    + congruence.
Qed.

Lemma validate_holds fuel s M : holds s M → Z.of_nat (size M) < 2 ^ 63 →
  (2 * (size (t_nodes s) + size (t_leaves s)) + 1 < fuel)%nat →
  wp (tree_validate fuel) (λ n s', s' = s ∧ n = Z.of_nat (size M)) s.
Proof.
  intros (B & m & W & Ho & HE & HL) Hs Hf. rewrite <- (holds_size s B m M W HE) in *.
  pose proof (total_one s B m ∅ W) as E. apply (validate_spec s B m ∅ W _ (λ _, 1)); [by intros; apply wp_ret|set_solver|done| |].
  - rewrite HL, Counter.wrap_i64_small by lia. by rewrite E.
  - rewrite E. lia.
Qed.

(** [shrink_to_fit] keeps the map and the handles. *)
Lemma shrink_holds fuel s M : holds s M → (2 * size (t_nodes s) < fuel)%nat →
  wp (shrink_to_fit fuel) (λ _ s', holds s' M ∧ t_leaves s' = t_leaves s ∧
    ∃ B m, wf s' B m ∅ ∧ (¬ storage_full (St := St) → ∀ n, is_Some (B !! n) → minimal s' n)) s.
Proof.
  intros (B & m & W & Ho & HE & HL) Hf. eapply wp_mono; [apply (shrink_spec (EX := at_rest) fuel s m B); [set_solver|done|lia]|].
  intros _ s' (B' & W' & [K1 _ K3 K4 _] & Hmin). split_and!; [|done|].
  - exists B', m. split_and!; [done|congruence| |by rewrite K4]. intros k. by rewrite K1.
  - by exists B', m.
Qed.
End holds.

(** ** The heap tree *)

Section heap.
Context {K V : Type} {AB : AsBytes K}.
Abbreviation tree := (RawTree (Leaf K V) HeapStorage).
Implicit Types (s : tree) (M : gmap path (K * V)).

Definition insert_result s M key (v : V) mode (o : Outcome) s' : Prop :=
  let k := as_bytes key in
  match o with
  | Inserted l => M !! k = None ∧ holds s' (<[k := (key, v)]> M) ∧ handle s' l (key, v) false
  | Replaced l => mode = Replace ∧ ∃ e, M !! k = Some e ∧ holds s' (<[k := (key, v)]> M) ∧ handle s' l e true
  | Existing l => mode = InsertIfAbsent ∧ ∃ e, M !! k = Some e ∧ holds s' M ∧ handle s' l e false
  end.

Lemma tree_insert_holds retries s M key v mode : (0 < retries)%nat → holds s M →
  wp (tree_insert retries key v mode) (insert_result s M key v mode) s.
Proof.
  intros Hr (B & HS). unfold tree_insert. apply wp_bind. eapply wp_exec; [done|].
  set (l := fresh _). assert (t_leaves s !! l = None) as Hl by (apply not_elem_of_dom, is_fresh). clearbody l.
  unfold owner_new. apply wp_bind. eapply wp_exec; [done|].
  pose proof (pending_alloc s B M l (leaf_new key v) HS Hl eq_refl) as P. cbn [entry_of leaf_entry lf_key lf_value leaf_new] in P.
  change (set_t_owned _ _) with (set_t_owned ({[l]} ∪ t_owned s) (set_t_leaves (<[l := leaf_new key v]> (t_leaves s)) s)).
  set (s1 := set_t_owned _ _) in P |- *. clearbody s1.
  apply wp_bind. eapply wp_leaf_key; [by eapply pending_key|]. apply wp_bind. unfold insert. apply wp_bind.
  eapply wp_mono; [by apply (insert_pending_spec retries s1 B M l (key, v) mode None)|].
  intros [r h] s2 HD. apply wp_ret. unfold insert_pending in HD. cbn [fst snd] in HD. destruct r as [[l'|old|old]|].
  - destruct HD as (-> & HM & Hh & B' & (m & W & Ho & HE & HL) & _). apply wp_bind, wp_ret, wp_bind.
    apply wp_owner_drop_disarmed; [set_solver|]. apply wp_ret. split_and!; [done|by exists B', m|done].
  - destruct HD as (-> & (e & HM & Hh) & (m & W & Ho & HE & HL) & _ & _). apply wp_bind, wp_ret, wp_bind.
    apply wp_owner_drop_disarmed; [set_solver|]. apply wp_ret. split; [done|]. exists e. split_and!; [done|by exists B, m|done].
  - destruct HD as (-> & (e & HM & Hh) & Hne & P2 & _). apply wp_bind, wp_ret, wp_bind.
    destruct (pe_leaf _ _ _ _ _ P2) as (y & Hy & Ey & _).
    apply wp_owner_drop_armed; [rewrite (pe_owned _ _ _ _ _ P2); set_solver|by eexists|]. apply wp_ret. split; [done|]. exists e.
    split_and!; [done|by apply (holds_at_holds _ B), pending_free with (key, v)|by apply handle_free].
  - destruct HD as ((ty & HF) & _). done.
Qed.

Lemma tree_remove_holds retries s M key : (0 < retries)%nat → holds s M →
  wp (tree_remove retries key) (λ o s', match o with
    | Some l => ∃ e, M !! key = Some e ∧ holds s' (delete key M) ∧ handle s' l e true
    | None => M !! key = None ∧ holds s' M
    end) s.
Proof. apply remove_key_holds. Qed.

(** Removing through a handle removes exactly that entry, or writes nothing. *)
Lemma tree_remove_leaf_holds retries s M l e b : (0 < retries)%nat → holds s M → handle s l e b →
  wp (tree_remove_leaf retries l) (λ r s', r = negb b ∧ handle s' l e true ∧
    holds s' (if b then M else delete (as_bytes e.1) M) ∧ (b = false → M !! as_bytes e.1 = Some e)) s.
Proof.
  intros Hr HS (x & Hx & <- & <-). unfold tree_remove_leaf. apply wp_bind. eapply wp_leaf_read; [exact Hx|].
  destruct (is_removed x) eqn:Hrm.
  { apply wp_ret. split_and!; [done|by exists x|done..]. }
  apply wp_bind. eapply wp_leaf_read; [exact Hx|]. apply wp_bind. eapply wp_mono.
  { eapply (remove_holds retries s M _ _ (λ c _, bool_decide (c = l))); [done|done|..].
    - intros c y Q s0 Hy HQ. by apply wp_ret.
    - intros c y Hy ->%bool_decide_eq_true. by assert (y = x) as -> by congruence. }
  intros [l'|] s' HD; apply wp_ret; cbn in HD |- *.
  - destruct HD as (y & Hy & ->%bool_decide_eq_true & _ & HM & H1 & H2).
    assert (y = x) as -> by congruence. by split_and!.
  - destruct HD as (_ & _ & Hn). specialize (Hn l x Hx Hrm eq_refl). apply bool_decide_eq_false in Hn. done.
Qed.
End heap.
