(* ===== verification/ABudget.v ===== *)
(** * [max_insert_bytes] is enough ([src/arena/map.rs], [src/arena/mod.rs])

    What an allocation takes of an arena that the thread has to itself, and
    what a program takes whose allocations [Budget.v] bounds. With the bytes
    that [max_insert_bytes] says an insert is never refused. *)

From S2P Require Import Prelude Bytes Latch Slot Bits Node Free Mem Arena ArenaSpec Raw Read Write Budget Tree ANode AStorage ATree AMap.
Local Open Scope Z_scope.

(** ** One allocation *)

(** The cursor lies in the buffer, and the thread's chunk, if it has one, at
    32-bit offsets. *)
Record storage_ok (st : ArenaStorage) : Prop := {
  so_cursor : ARENA_ALIGN <= ar_cursor (st_arena st) <= ar_capacity (st_arena st);
  so_capacity : ar_capacity (st_arena st) <= MAX_ARENA_SIZE;
  so_chunks slots s : st_tls st = Some slots → s ∈ slots → Tlab.sl_arena s = ar_id (st_arena st) →
    0 <= Tlab.sl_cur s ∧ Tlab.sl_end s <= 2 ^ 32;
}.

Definition room (st : ArenaStorage) : Z := arena_remaining (st_arena st).

Lemma room_eq st : storage_ok st → room st = ar_capacity (st_arena st) - ar_cursor (st_arena st).
Proof. intros [? _ _]. unfold room, arena_remaining, arena_size. lia. Qed.

Lemma storage_alloc_alone st ly : storage_ok st → layout_ok ly →
  storage_alloc st ly =
    let a := st_arena st in
    match alloc_alone (ar_id a) (ar_capacity a) ly (ar_cursor a, st_tls st) with
    | (Some off, (cursor, tls)) => Some (off, {| st_arena := set_cursor cursor a; st_tls := tls |})
    | _ => None
    end.
Proof.
  intros [H1 H2 _] Hly. unfold storage_alloc. rewrite arun_alloc; [|lia|done|cbn; unfold ARENA_ALIGN in *; lia|done].
  cbv zeta. by destruct (alloc_alone _ _ _ _) as [[off|] [c tls]].
Qed.

(** The bytes that an allocation may take, padding included. *)
Definition worst (ly : AllocLayout) : Z := pad (Z.max (al_size ly) 1) (al_align ly).

Lemma alloc_takes st ly off st' : storage_ok st → layout_ok ly → storage_alloc st ly = Some (off, st') →
  storage_ok st' ∧ room st - worst ly <= room st'.
Proof.
  intros OK Hly. pose proof OK as [H1 H2 H3]. rewrite storage_alloc_alone by done. cbv zeta. unfold alloc_alone. cbn [fst snd].
  pose proof Hly as [Hs Ha]. change (pow2_align (al_align ly)) in Ha. pose proof (pow2_align_range _ Ha) as Hr.
  set (size := Z.max (al_size ly) 1) in *.
  destruct (Tlab.take (ar_id (st_arena st)) (al_align ly) size (st_tls st)) as [hit tls] eqn:ET.
  assert (∀ slots s, tls = Some slots → s ∈ slots → Tlab.sl_arena s = ar_id (st_arena st) → 0 <= Tlab.sl_cur s ∧ Tlab.sl_end s <= 2 ^ 32) as H3'.
  { unfold Tlab.take in ET. destruct (st_tls st) as [slots|] eqn:EL; [|by simplify_eq]. destruct (Tlab.take_slots _ _ _ slots) as [r slots'] eqn:E.
    injection ET as <- <-. apply take_slots_spec in E as [[_ ->]|(j & s & start & stop & Hj & Hsa & ER & Hst & -> & _)].
    - intros ? s [= <-]. by apply H3.
    - destruct (H3 slots s eq_refl (list_elem_of_lookup_2 _ _ _ Hj) Hsa) as [C1 C2].
      apply range_from_spec in ER as (-> & R1 & _ & _); [|done..].
      intros ? s' [= <-] [k Hk]%list_elem_of_lookup. destruct (decide (k = j)) as [->|Hne].
      + rewrite list_lookup_insert_eq in Hk by (by eapply lookup_lt_Some). injection Hk as <-. cbn. intros _. lia.
      + rewrite list_lookup_insert_ne in Hk by done. apply (H3 slots s' eq_refl). by eapply list_elem_of_lookup_2. }
  rewrite (room_eq st OK).
  destruct hit as [o|].
  - intros [= <- <-]. assert (storage_ok {| st_arena := set_cursor (ar_cursor (st_arena st)) (st_arena st); st_tls := tls |}) as OK'.
    { split; [done|done|]. intros slots s E. by apply H3'. }
    split; [done|]. rewrite room_eq by done. cbn. unfold worst, pad. fold size. lia.
  - destruct (range_from _ _ _) as [[start stop]|] eqn:ER; [|done].
    apply range_from_spec in ER as (-> & R1 & _ & _); [|done|unfold ARENA_ALIGN in *; lia].
    destruct (Z.ltb_spec (ar_capacity (st_arena st)) (start + size)); [done|]. intros [= <- <-].
    assert (storage_ok {| st_arena := set_cursor (start + size) (st_arena st); st_tls := tls |}) as OK'.
    { split; [cbn; lia|done|]. intros slots s E. by apply H3'. }
    split; [done|]. rewrite room_eq by done. cbn. unfold worst, pad. fold size. lia.
Qed.

(** An allocation that fits in what remains succeeds. *)
Lemma alloc_fits st ly : storage_ok st → layout_ok ly → worst ly <= room st → is_Some (storage_alloc st ly).
Proof.
  intros OK Hly Hroom. pose proof OK as [H1 H2 _]. rewrite room_eq in Hroom by done. rewrite storage_alloc_alone by done. cbv zeta.
  pose proof Hly as [Hs Ha]. change (pow2_align (al_align ly)) in Ha. pose proof (pow2_align_range _ Ha) as Hr.
  unfold alloc_alone. cbn [fst snd]. unfold worst, pad in Hroom. set (size := Z.max (al_size ly) 1) in *.
  destruct (Tlab.take _ _ _ _) as [[o|] tls]; [by eexists|]. assert (MAX_ARENA_SIZE < 2 ^ 32) by (vm_compute; done).
  destruct (range_from _ _ _) as [[start stop]|] eqn:ER.
  - apply range_from_spec in ER as (-> & R1 & _ & _); [|done|unfold ARENA_ALIGN in *; lia].
    destruct (Z.ltb_spec (ar_capacity (st_arena st)) (start + size)); [lia|by eexists].
  - apply range_from_None in ER; [|done|unfold ARENA_ALIGN in *; lia]. lia.
Qed.

(** ** A program with an allowance *)

Definition node_types : list NodeType := [Node4; Node16; Node48; Node256].

(** The bytes that an allowance of nodes may take. *)
Definition node_bytes (ty : NodeType) : Z := pad (al_size (node_layout slot32 ty)) 8.
Definition cost (left : NodeType → nat) : Z :=
  Z.of_nat (left Node4) * node_bytes Node4 + Z.of_nat (left Node16) * node_bytes Node16 +
  Z.of_nat (left Node48) * node_bytes Node48 + Z.of_nat (left Node256) * node_bytes Node256.

Lemma node_bytes_worst ty : worst (node_layout slot32 ty) = node_bytes ty ∧ 0 < node_bytes ty.
Proof. destruct ty; vm_compute; done. Qed.

Lemma cost_spend left ty : (0 < left ty)%nat → cost (spend ty left) = cost left - node_bytes ty.
Proof.
  intros Hl. assert (Z.of_nat (pred (left ty)) = Z.of_nat (left ty) - 1) as E by lia.
  unfold cost, spend. destruct ty; repeat (case_decide; try discriminate); (rewrite E; ring) || done.
Qed.

Lemma cost_nonneg left : 0 <= cost left.
Proof.
  unfold cost. pose proof (node_bytes_worst Node4). pose proof (node_bytes_worst Node16).
  pose proof (node_bytes_worst Node48). pose proof (node_bytes_worst Node256). lia.
Qed.

Section run.
Context {L : Type}.
Abbreviation tree := (RawTree L ArenaStorage).
Implicit Types (s : tree) (T : gmap loc NodeType).

Definition types_true T s : Prop :=
  ∀ n ty, T !! n = Some ty → ∃ ob, t_nodes s !! n = Some ob ∧ node_type (o_node ob) = ty.

Lemma types_put T s n ob ob' : types_true T s → t_nodes s !! n = Some ob → node_type (o_node ob') = node_type (o_node ob) →
  types_true T (put_node s n ob').
Proof.
  intros HT Hn Ht n' ty Hn'. destruct (HT n' ty Hn') as (ob1 & H1 & H2). unfold put_node. cbn. destruct (decide (n' = n)) as [->|Hne].
  - rewrite lookup_insert_eq. exists ob'. split; [done|]. congruence.
  - rewrite lookup_insert_ne by done. by exists ob1.
Qed.

(** One access: what it needs is met, and it takes no more than its allowance. *)
Lemma exec_allocs {X} (o : op L X) T left (φ : _ → _ → X → Prop) s x s' :
  op_allocs false o T left φ → types_true T s → storage_ok (t_storage s) → cost left <= room (t_storage s) →
  exec o s = Done x s' →
  ∃ T' left', φ T' left' x ∧ types_true T' s' ∧ storage_ok (t_storage s') ∧
    room (t_storage s) - cost left <= room (t_storage s') - cost left'.
Proof.
  intros HA HT OK HC HE.
  assert (∀ s1 (y : X), exec o s = Done y s1 → φ T left y → t_nodes s1 = t_nodes s → t_storage s1 = t_storage s →
    ∃ T' left', φ T' left' x ∧ types_true T' s' ∧ storage_ok (t_storage s') ∧
      room (t_storage s) - cost left <= room (t_storage s') - cost left') as Hsame.
  { intros s1 y E Hy E1 E2. rewrite HE in E. injection E as <- <-. exists T, left. split; [done|]. rewrite E2. split; [|split; [done|lia]].
    intros n ty. rewrite E1. apply HT. }
  assert (∀ n ob ob' (y : X), exec o s = Done y (put_node s n ob') → φ T left y → t_nodes s !! n = Some ob →
    node_type (o_node ob') = node_type (o_node ob) →
    ∃ T' left', φ T' left' x ∧ types_true T' s' ∧ storage_ok (t_storage s') ∧
      room (t_storage s) - cost left <= room (t_storage s') - cost left') as Hput.
  { intros n ob ob' y E Hy E1 E2. rewrite HE in E. injection E as -> ->. exists T, left. split; [done|].
    split; [by eapply types_put|]. change (t_storage (put_node s n ob')) with (t_storage s). split; [exact OK|lia]. }
  destruct o; cbn in HA.
  all: try (cbn in HE; unfold with_node, with_leaf in HE; repeat case_match; try discriminate;
    eapply Hsame; [cbn; unfold with_node, with_leaf; simplify_eq; repeat (case_match; try congruence); simplify_eq; reflexivity|by eauto|done|done]; fail).
  - (* NodeLatch *) pose proof HE as HE'. cbn in HE'. unfold with_node in HE'. destruct (t_nodes s !! n) as [ob|] eqn:En; [|done].
    destruct (f (o_latch ob)) as [[a w]|]; [|done]. injection HE' as -> <-. by eapply (Hput n ob).
  - (* NodeRead *) pose proof HE as HE'. cbn in HE'. unfold with_node in HE'. destruct (t_nodes s !! n) as [ob|] eqn:En; [|done].
    injection HE' as <- <-. eapply Hsame; [exact HE| |done|done]. apply HA. intros ty Hty.
    destruct (HT n ty Hty) as (ob' & E1 & E2). congruence.
  - (* NodeWrite *) destruct HA as [Hf Hφ]. pose proof HE as HE'. cbn in HE'. unfold with_node in HE'.
    destruct (t_nodes s !! n) as [ob|] eqn:En; [|done]. destruct (locked (o_latch ob)); [|done].
    destruct (f (o_node ob)) as [nd|] eqn:Ef; [|done]. injection HE' as <- <-. eapply (Hput n ob); [exact HE|done|done|]. by apply Hf.
  - (* NodeInit *) destruct HA as [Hf Hφ]. pose proof HE as HE'. cbn in HE'. unfold with_node in HE'.
    destruct (t_nodes s !! n) as [ob|] eqn:En; [|done]. destruct (f ob) as [ob'|] eqn:Ef; [|done].
    injection HE' as <- <-. eapply (Hput n ob); [exact HE|done|done|]. by apply Hf.
  - (* AllocNode *) destruct HA as (Hl & _ & Hφ). destruct (node_layout_ok ty) as [Hly _].
    destruct (node_bytes_worst ty) as [Ew Hpos]. pose proof (cost_spend left ty Hl) as Ec. pose proof (cost_nonneg (spend ty left)).
    destruct (alloc_fits (t_storage s) (node_layout slot32 ty)) as [[off st] Ea]; [done|done|rewrite Ew; lia|].
    destruct (alloc_takes _ _ _ _ OK Hly Ea) as [OK' Hr]. rewrite Ew in Hr.
    cbn in HE. unfold place in HE. rewrite Ea in HE. cbn in HE. injection HE as <- <-.
    set (n := fresh (dom (t_nodes s))). assert (t_nodes s !! n = None) as Hn by (apply not_elem_of_dom, is_fresh).
    exists (<[n := ty]> T), (spend ty left). split_and!.
    + apply Hφ. destruct (T !! n) as [ty'|] eqn:E; [|done]. destruct (HT n ty' E) as (ob & ? & _). congruence.
    + intros n' ty'. unfold put_node. cbn [t_nodes set_t_nodes]. destruct (decide (n' = n)) as [->|Hne].
      * rewrite !lookup_insert_eq. intros [= <-]. eexists. split; [done|]. apply node_new_type.
      * rewrite !lookup_insert_ne by done. apply HT.
    + exact OK'.
    + change (t_storage (put_node (set_t_storage st s) n {| o_latch := latch_new; o_node := node_new ty |})) with st. lia.
  - done.
  - (* FreeNode *) pose proof HE as HE'. cbn in HE'. unfold with_node in HE'. destruct (t_nodes s !! n) as [ob|] eqn:En; [|done].
    injection HE' as <- <-. exists (delete n T), left. split_and!; [done| |exact OK|cbn [t_storage set_t_nodes]; lia].
    intros n' ty [Hne Hn']%lookup_delete_Some. cbn [t_nodes set_t_nodes]. rewrite lookup_delete_ne by done. by apply HT.
Qed.

Lemma run_allocs {A} (p : prog L A) T left Q s a s' :
  allocs false T left p Q → types_true T s → storage_ok (t_storage s) → cost left <= room (t_storage s) → run p s = Done a s' →
  ∃ T' left', Q T' left' a ∧ storage_ok (t_storage s') ∧ room (t_storage s) - cost left <= room (t_storage s') - cost left'.
Proof.
  revert T left s. induction p as [a0|X o k IH| |]; intros T left s HA HT OK HC HE; cbn in HA, HE; [|  |done..].
  - injection HE as <- <-. exists T, left. split_and!; [done..|lia].
  - destruct (exec o s) as [x s1| | |] eqn:E; [|done..].
    destruct (exec_allocs o T left _ s x s1 HA HT OK HC E) as (T1 & left1 & H1 & H2 & H3 & H4).
    destruct (IH x T1 left1 s1 H1 H2 H3 ltac:(lia) HE) as (T2 & left2 & H5 & H6 & H7). exists T2, left2. split_and!; [done..|lia].
Qed.

Lemma wp_allocs {A} (p : prog L A) T left (Q : _ → _ → A → Prop) Q' s :
  allocs false T left p Q → types_true T s → storage_ok (t_storage s) → cost left <= room (t_storage s) → wp p Q' s →
  wp p (λ a s', (∃ T' left', Q T' left' a) ∧ storage_ok (t_storage s') ∧ room (t_storage s) - cost left <= room (t_storage s')) s.
Proof.
  intros HA HT OK HC (a & s' & E & _)%wp_run. apply wp_run. exists a, s'. split; [done|].
  destruct (run_allocs p T left Q s a s' HA HT OK HC E) as (T' & left' & H1 & H2 & H3). pose proof (cost_nonneg left').
  split_and!; [by eauto|done|lia].
Qed.
End run.

(** ** The insert of an arena map *)

Section plain.
Context {L : Type} `{LeafNode L}.

Lemma plain_owner_drop l : plain (owner_drop l : prog L unit).
Proof. unfold owner_drop. plains. Qed.

Lemma plain_insert_at_hint h owner key count : plain (insert_at_hint h owner key count : prog L _).
Proof.
  unfold insert_at_hint. plains; intros ?; plains; intros ?; plains.
Qed.

Lemma plain_try_fast c owner key count : plain (try_fast c owner key count : prog L _).
Proof. unfold try_fast. destruct (cache_matching c key); [|done]. apply plain_bind; [apply plain_insert_at_hint|by intros []]. Qed.

End plain.

Section insert.
Context {K V : Type} `{AsBytes K}.

(** With an allowance that covers the key, an insert whose allocations succeed
    succeeds. *)
Lemma insert_full_allocs retries l key_bytes c :
  allocs false ∅ (node_need (length key_bytes)) (atree_insert_full retries l key_bytes c : prog (ALeaf K V) _) (λ _ _ r, ∃ old, r.1 = inl old).
Proof.
  unfold atree_insert_full. apply allocs_bind. eapply allocs_mono; [apply insert_allocs|].
  intros T left [[[]|] h] Hf; cbn [fst] in Hf.
  - apply allocs_plain_bind; [apply plain_owner_drop|intros _]. by eexists.
  - apply allocs_plain_bind; [apply plain_owner_drop|intros _]. by eexists.
  - done.
  - by specialize (Hf eq_refl).
Qed.

Lemma cost_need leaf_layout n : 1 <= al_size leaf_layout →
  cost (node_need n) + worst leaf_layout <= max_insert_bytes leaf_layout n.
Proof.
  intros Hl. unfold max_insert_bytes, cost, node_need, worst, node_bytes. rewrite Nat2Z.inj_add, Nat2Z.inj_div.
  change (Z.of_nat (MAX_PREFIX_LEN + 1)) with (Z.of_nat MAX_PREFIX_LEN + 1). rewrite Z.max_l by lia.
  set (q := Z.of_nat n / _). pose proof (node_bytes_worst Node4) as [_ H4]. unfold node_bytes in H4. cbn [Z.of_nat].
  generalize dependent (pad (al_size (node_layout slot32 Node4)) 8). intros x Hx. lia.
Qed.
End insert.
