(* ===== verification/AMapSpec.v ===== *)
(** * The arena maps implement finite maps

    The specification of [ATree.v]: an insert does the finite map's insert, or
    hands the key and value back and leaves the map as it was. An inserter's
    cached hint is valid, or its node has changed since ([cache_valid]); either
    way the insert is right and leaves such a cache. *)

From S2P Require Import Prelude Bytes Latch Slot Bits Node NodeSpec NodeOps Free Mem Shape Raw Read Write Remove Inv Descent Update Pool Commits Rules WriteSpec RemoveSpec Walk Tree Arena ANode AStorage ATree MapSpec.
Local Open Scope Z_scope.

#[export] Program Instance aleaf_entry {K V} `{AsBytes K} : EntryLeaf (ALeaf K V) K V := {
  entry_of x := (al_key x, al_value x);
  marked x := {| al_removed := true; al_next_retired := al_next_retired x; al_key := al_key x; al_value := al_value x |};
}.
Solve All Obligations with done.

(** ** The cache of an inserter *)

Section cache.
Context {L St K V : Type} {AB : AsBytes K} {LN : LeafNode L} {LL : LeafLaws L} {EL : EntryLeaf L K V} {LY : Layout St}.
Abbreviation tree := (RawTree L St).
Abbreviation wf := (wf (EX := at_rest)).
Implicit Types (s : tree) (m : gmap path loc) (B : gmap loc path) (M : gmap path (K * V)) (c : InserterCache).

(** The cached node is still there, and unless it changed since, it lies at the
    cached path. *)
Definition cache_valid s B c : Prop :=
  match ic_hint c with
  | None => True
  | Some h => ∃ n ob, hint_node h = NodeAt n ∧ t_nodes s !! n = Some ob ∧ (is_Some (B !! n) ∨ n ∈ t_retired_nodes s) ∧
      hint_version h <= o_latch ob ∧
      (o_latch ob = hint_version h → ∃ p, B !! n = Some p ∧ length (p ++ pfx (o_node ob)) = hint_depth h ∧
        p ++ pfx (o_node ob) = take (hint_depth h) (ic_path c))
  end.

(** The version of the cached node is [room] steps away from wrapping. *)
Definition cache_room s c (room : Z) : Prop :=
  ∀ h n ob, ic_hint c = Some h → hint_node h = NodeAt n → t_nodes s !! n = Some ob → 0 <= o_latch ob ∧ o_latch ob + room < 2 ^ 64.

Definition cache_good s B (o : option InserterCache) room : Prop :=
  ∀ c', o = Some c' → cache_valid s B c' ∧ cache_room s c' room.

Lemma cache_new_valid s B : cache_valid s B cache_new.
Proof. done. Qed.

Lemma cache_matching_Some c key h : cache_matching c key = Some h →
  ic_hint c = Some h ∧ (hint_depth h <= length (ic_path c))%nat ∧ (hint_depth h < length key)%nat ∧
  take (hint_depth h) key = take (hint_depth h) (ic_path c).
Proof.
  unfold cache_matching. destruct (ic_hint c) as [h'|]; [|done]. cbn. repeat case_decide; intros [= <-]; done.
Qed.

Lemma hint_ok_cache s B key h c : hint_ok s B key h → ic_hint c = Some h →
  take (hint_depth h) key = take (hint_depth h) (ic_path c) → cache_valid s B c.
Proof.
  intros (n & p & ob & H1 & H2 & H3 & H4 & H5 & [w ->]) E HT. unfold cache_valid. rewrite E. exists n, ob.
  split_and!; [done|done|left; by eexists|lia|]. intros _. exists p. split_and!; [done..|]. rewrite <- HT, <- H5. by rewrite take_app_length.
Qed.

Lemma cache_remember_valid s B key h c : hint_ok s B key h → cache_valid s B (cache_remember (Some h) key c).
Proof.
  intros HO. unfold cache_remember. case_decide as H1; [|done]. case_decide as H2; [|done].
  eapply hint_ok_cache; [exact HO|done|]. cbn. rewrite take_app_le by (rewrite length_take; lia). by rewrite take_take, Nat.min_id.
Qed.

(** The latch of the cached node does not go back. *)
Lemma cache_valid_stepped s s' B c : cache_valid s B c → cache_room s c 4 → stepped s B s' → cache_valid s' B c.
Proof.
  unfold cache_valid. intros HC HR [S1 S2]. destruct (ic_hint c) as [h|] eqn:E; [|done].
  destruct HC as (n & ob & H1 & H2 & H3 & H4 & H5). destruct (S1 n ob H2 H3) as (ob' & H6 & H7). exists n, ob'. rewrite S2.
  split_and!; [done..| |].
  - destruct H7 as [->|[_ ->]]; [done|]. pose proof (HR h n ob E H1 H2). unfold unlock, wrapping_add64, VERSION_STEP. cbn [g_v].
    rewrite Z.mod_small by lia. lia.
  - destruct H7 as [->|[_ E']]; [done|]. intros E2. exfalso. pose proof (HR h n ob E H1 H2). revert E2. rewrite E'.
    unfold unlock, wrapping_add64, VERSION_STEP. cbn [g_v]. rewrite Z.mod_small by lia. lia.
Qed.

(** The fast path declines on a node that changed. *)
Lemma insert_at_hint_stale s h n ob owner (key : path) count : hint_node h = NodeAt n → t_nodes s !! n = Some ob →
  o_latch ob ≠ hint_version h → wp (insert_at_hint h owner key count) (λ r s', r = (None, h) ∧ s' = s) s.
Proof.
  intros H1 H2 H3. unfold insert_at_hint. destruct (key !! hint_depth h); [|by apply wp_ret]. rewrite H1.
  apply wp_bind, wp_node_ref, wp_bind. eapply wp_exec.
  { cbn. unfold with_node. rewrite H2. instantiate (1 := s). instantiate (1 := None). unfold try_upgrade.
    rewrite (proj2 (Z.eqb_neq _ _)) by done.
    assert (put_node s n {| o_latch := o_latch ob; o_node := o_node ob |} = s) as E; [|by destruct (flagged _); rewrite E].
    unfold put_node. rewrite insert_id; [by destruct s|by destruct ob]. }
  cbn [fst]. by apply wp_ret.
Qed.

(** On a tree with an unpublished leaf [l] under its owner. *)
Lemma try_fast_raw s m B l key count c : wf s B m ∅ → l ∈ t_owned s → live_key s l = Some key → cache_valid s B c → cache_room s c 8 →
  wp (try_fast c l key count) (λ r s', cache_valid s' B r.2 ∧ match r.1 with
    | Some o => o = Inserted l ∧ m !! key = None ∧ leaves_kept s s' l ∧ inserted (EX := at_rest) s m l key (counted count s) s' B ∅
    | None => wf s' B m ∅ ∧ t_owned s' = t_owned s ∧ t_leaves s' = t_leaves s ∧ t_len s' = t_len s ∧ cache_room s' r.2 4
    end) s.
Proof.
  intros W Ho Hk HC HR. unfold try_fast. destruct (cache_matching c key) as [h|] eqn:E.
  2: { apply wp_ret. cbn [fst snd]. split_and!; [done..|]. intros h n ob H1 H2 H3. pose proof (HR h n ob H1 H2 H3). lia. }
  apply cache_matching_Some in E as (E1 & E2 & E3 & E4). pose proof HC as HC'. unfold cache_valid in HC'. rewrite E1 in HC'.
  destruct HC' as (n & ob & H1 & H2 & H3 & H4 & H5). pose proof (HR h n ob E1 H1 H2) as Hroom. apply wp_bind.
  destruct (decide (o_latch ob = hint_version h)) as [Ev|Ev].
  - destruct (H5 Ev) as (p & Hp & Hd & Hpath). eapply wp_mono.
    { eapply (insert_at_hint_spec s m B l key count h W Ho Hk). exists n, p, ob. split_and!; [done..|]. rewrite Hpath, <- E4. apply prefix_take. }
    intros [o h'] s' (HO & Hv & HD)%hint_fast_cases. apply wp_ret. cbn [fst snd] in *. split.
    { eapply hint_ok_cache; [exact HO|done|]. cbn. by assert (hint_depth h' = hint_depth h) as -> by by destruct Hv as [->| ->]. }
    destruct o as [o|]; [exact HD|]. destruct HD as (W' & D1 & D2 & D3). split_and!; [done..|].
    intros h2 n' ob' [= <-] F1 F2. destruct HO as (n2 & p2 & ob2 & G1 & _ & G3 & G4 & _).
    assert (n2 = n') as -> by congruence. assert (ob2 = ob') as -> by congruence. rewrite G4.
    destruct Hv as [->| ->]; cbn [hint_version hint_bumped]; [lia|]. unfold unlock, wrapping_add64, VERSION_STEP. cbn [g_v].
    rewrite Z.mod_small by lia. lia.
  - eapply wp_mono; [by eapply insert_at_hint_stale|]. intros ? ? [-> ->]. apply wp_ret. cbn [fst snd].
    assert ({| ic_hint := Some h; ic_path := ic_path c |} = c) as -> by (destruct c; cbn in *; by rewrite E1).
    split_and!; [done..|]. intros h2 n2 ob2 F1 F2 F3. pose proof (HR h2 n2 ob2 F1 F2 F3). lia.
Qed.

Lemma try_fast_spec s B M l e c : pending s B M l e → cache_valid s B c → cache_room s c 8 →
  wp (try_fast c l (as_bytes e.1) 1) (λ r s', cache_valid s' B r.2 ∧ match r.1 with
    | Some o => M !! as_bytes e.1 = None ∧ handle s' l e false ∧ holds_at s' B (<[as_bytes e.1 := e]> M)
    | None => pending s' B M l e ∧ cache_room s' r.2 4
    end) s.
Proof.
  intros P HC HR. pose proof P as [Ho Hh (m & W & HE) HL]. eapply wp_mono.
  { apply (try_fast_raw s m B l (as_bytes e.1) 1 c W); [rewrite Ho; set_solver|by eapply pending_key|done..]. }
  intros [o c'] s' [HV HD]. cbn [fst snd] in *. split; [done|]. destruct o as [o|].
  - destruct HD as (-> & HM & LK & IN). assert (M !! as_bytes e.1 = None) as HM' by (by rewrite (HE _), HM).
    split; [done|]. by eapply inserted_holds.
  - destruct HD as (W' & D1 & D2 & D3 & HR'). split; [|done].
    split; [congruence|destruct Hh as (x & ?); exists x; by rewrite D2| |congruence]. exists m. split; [done|]. intros k. by rewrite D2.
Qed.
End cache.

(** ** The storage of a tree does not matter to its map *)

Section storage.
Context {L St K V : Type} {AB : AsBytes K} {LN : LeafNode L} {LL : LeafLaws L} {EL : EntryLeaf L K V} {LY : Layout St}.
Implicit Types (s : RawTree L St) (B : gmap loc path) (M : gmap path (K * V)).

Lemma holds_at_storage s B M st : holds_at s B M → holds_at (set_t_storage st s) B M.
Proof. intros (m & W & HR). exists m. split; [|done]. apply (wf_leaves_change s _ B m ∅ W); try done.
  intros l. destruct (wf_leaves _ _ _ _ W l) as [x|x|x|];
    [eapply leaf_linked with x|eapply leaf_retired with x|eapply leaf_owned with x|eapply leaf_free]; done. Qed.

Lemma wp_alloc_value ly (x : L) (Q : option loc → RawTree L St → Prop) s :
  (∀ off st l, alloc_bytes (t_storage s) (al_size ly) (al_align ly) = Some (off, st) → t_leaves s !! l = None →
    Q (Some l) (set_t_leaves (<[l := x]> (t_leaves s)) (set_t_storage st s))) →
  (alloc_bytes (t_storage s) (al_size ly) (al_align ly) = None → Q None s) → wp (alloc_value ly x) Q s.
Proof.
  intros H1 H2. unfold alloc_value. apply wp_bind.
  destruct (alloc_bytes (t_storage s) (al_size ly) (al_align ly)) as [[off st]|] eqn:E.
  - eapply wp_exec; [cbn; by rewrite E|]. apply wp_bind. eapply wp_exec; [done|]. apply wp_ret.
    eapply H1; [done|]. apply not_elem_of_dom, is_fresh.
  - eapply wp_exec; [cbn; by rewrite E|]. apply wp_ret. by apply H2.
Qed.
End storage.

(** ** Inserts *)

Section insert.
Context {K V : Type} `{AsBytes K}.
Context (leaf_layout : AllocLayout).
Abbreviation tree := (RawTree (ALeaf K V) ArenaStorage).
Implicit Types (s : tree) (B : gmap loc path) (M : gmap path (K * V)).

(** What an insert may return and leave. *)
Definition ainsert_result s M B' (key : K) (value : V) (r : option loc + ArenaFull K V) s' : Prop :=
  let k := as_bytes key in
  match r with
  | inl None => M !! k = None ∧ holds_at s' B' (<[k := (key, value)]> M)
  | inl (Some old) => (∃ e, M !! k = Some e ∧ handle s' old e true) ∧ holds_at s' B' (<[k := (key, value)]> M)
  | inr full => full = {| af_key := key; af_value := value |} ∧ holds_at s' B' M
  end.

Definition ainsert_done s M key value (r : (option loc + ArenaFull K V) * option InserterCache) s' : Prop :=
  ∃ B', ainsert_result s M B' key value r.1 s' ∧ ∀ c, r.2 = Some c → cache_valid s' B' c.

Lemma insert_full_spec retries s B M l key value c : (0 < retries)%nat → pending s B M l (key, value) → cache_good s B c 4 →
  wp (atree_insert_full retries l (as_bytes key) c) (λ r s', ainsert_done s M key value r s' ∧ (is_Some r.2 ↔ is_Some c)) s.
Proof.
  intros Hr P HC. unfold atree_insert_full. apply wp_bind.
  eapply wp_mono; [by apply (insert_pending_spec retries s B M l (key, value) Replace None)|].
  intros [r h] s2 HD. unfold insert_pending in HD. cbn [fst snd] in HD. destruct r as [[l'|old|old]|].
  - destruct HD as (-> & HM & Hh & B' & HH & Hhint). pose proof HH as (m & W & Ho & _). apply wp_bind.
    apply wp_owner_drop_disarmed; [set_solver|]. apply wp_ret. split; [|cbn [snd]; by rewrite fmap_is_Some].
    exists B'. split; [done|]. cbn [snd]. intros c' (c0 & -> & ->)%fmap_Some. destruct Hhint as [->|(h' & -> & Hh')]; [done|].
    by apply cache_remember_valid.
  - destruct HD as (_ & HE & HH & ST & _). pose proof HH as (m & W & Ho & _). apply wp_bind.
    apply wp_owner_drop_disarmed; [set_solver|]. apply wp_ret. split; [|done]. exists B. split; [done|].
    cbn [snd]. intros c' ->. destruct (HC c' eq_refl). by eapply cache_valid_stepped.
  - by destruct HD.
  - destruct HD as (_ & P2 & ST & _). destruct (pe_leaf _ _ _ _ _ P2) as (y & Hy & Ey & _).
    apply wp_bind, wp_owner_disarm, wp_bind. unfold leaf_take. apply wp_bind. eapply wp_leaf_read; [exact Hy|].
    apply wp_bind. eapply wp_exec; [cbn; unfold with_leaf; cbn; by rewrite Hy|]. apply wp_ret, wp_bind.
    apply wp_owner_drop_disarmed; [cbn; set_solver|]. apply wp_ret. split; [|done]. exists B. cbn [fst snd]. split.
    + cbn in Ey. injection Ey as -> ->. split; [done|]. by eapply pending_free.
    + intros c' ->. destruct (HC c' eq_refl). by eapply (cache_valid_stepped s s2).
Qed.

(** Of a new leaf; the insert with and without an inserter's cache. *)
Lemma atree_insert_spec retries s B M key value c : (0 < retries)%nat → holds_at s B M → cache_good s B c 8 →
  wp (atree_insert leaf_layout retries key value c) (λ r s', ainsert_done s M key value r s' ∧ (is_Some r.2 ↔ is_Some c)) s.
Proof.
  intros Hr HS HC. unfold atree_insert. apply wp_bind, wp_alloc_value.
  2: { intros _. apply wp_ret. split; [|done]. exists B. split; [done|]. cbn [snd]. intros c' ->. by destruct (HC c' eq_refl). }
  intros off st l _ Hl. set (s0 := set_t_storage st s). pose proof (holds_at_storage s B M st HS) as HS0.
  unfold owner_new. apply wp_bind. eapply wp_exec; [done|].
  pose proof (pending_alloc s0 B M l (aleaf_new key value) HS0 Hl eq_refl) as P.
  change (entry_of (aleaf_new key value)) with (key, value) in P.
  set (s1 := set_t_owned _ _) in P. change (set_t_owned _ _) with s1.
  assert (cache_good s1 B c 8) as HC1 by (intros c' ->; by destruct (HC c' eq_refl)). clearbody s1.
  apply wp_bind. eapply wp_leaf_key; [by eapply pending_key|]. apply wp_bind. destruct c as [c|].
  - destruct (HC1 c eq_refl) as [HV HRm]. apply wp_bind. eapply wp_mono; [by apply (try_fast_spec s1 B M l (key, value) c)|].
    intros [o c'] s2 [HV2 HD]. apply wp_ret. cbn [fst snd] in *. destruct o as [o|].
    + destruct HD as (HM & Hh & HH). pose proof HH as (m & W & Ho & _). apply wp_bind.
      apply wp_owner_drop_disarmed; [set_solver|]. apply wp_ret. split; [|done]. exists B. split; [done|]. by intros ? [= <-].
    + destruct HD as [P2 HR2]. eapply wp_mono; [apply (insert_full_spec retries s2 B M l key value (Some c')); [done|exact P2|by intros ? [= <-]]|].
      intros r s3 [HD HS3]. split; [|by rewrite HS3]. exact HD.
  - apply wp_ret. eapply wp_mono; [apply (insert_full_spec retries s1 B M l key value None); [done|exact P|done]|]. intros r s3 HD. exact HD.
Qed.
End insert.
