(* ===== verification/ARefine.v ===== *)
(** * The arena map against its specification

    The finite map that an [ArenaArtMap] promises, in which an insert may also
    be refused: [allowed M op r M'] says that [op] on [M] may return [r] and
    leave [M']. *)

From S2P Require Import Prelude Bytes Latch Slot Bits Node Free Mem Simulate Shape Raw Read Write Remove Inv RemoveSpec Walk WalkSpec Tree Arena ANode AStorage ATree AMap MapSpec AMapSpec.
Local Open Scope Z_scope.

Section refine.
Context {K V : Type} `{AsBytes K}.
Context (leaf_layout : AllocLayout) (retries : nat) (Hretries : (0 < retries)%nat).
Abbreviation prog := (prog (ALeaf K V)).
Abbreviation tree := (RawTree (ALeaf K V) ArenaStorage).
Implicit Types (s : tree) (M : gmap path (K * V)).

Inductive amap_op :=
| AGet (key : list byte)
| AContains (key : list byte)
| ATryInsert (key : K) (value : V)
| ARemove (key : list byte)
| ALen
| AIsEmpty
| AValidate.

Inductive amap_result := AValue (v : option V) | ABool (b : bool) | ALength (n : Z) | AUnit | AFull (key : K) (value : V).

Inductive allowed M : amap_op → amap_result → gmap path (K * V) → Prop :=
| allowed_get k : allowed M (AGet k) (AValue (snd <$> M !! k)) M
| allowed_contains k : allowed M (AContains k) (ABool (bool_decide (is_Some (M !! k)))) M
| allowed_insert k v : allowed M (ATryInsert k v) (AValue (snd <$> M !! as_bytes k)) (<[as_bytes k := (k, v)]> M)
| allowed_full k v : allowed M (ATryInsert k v) (AFull k v) M
| allowed_remove k : allowed M (ARemove k) (AValue (snd <$> M !! k)) (delete k M)
| allowed_len : allowed M ALen (ALength (Z.of_nat (size M))) M
| allowed_is_empty : allowed M AIsEmpty (ABool (bool_decide (M = ∅))) M
| allowed_validate : allowed M AValidate AUnit M.

(** A displaced or removed entry's value, as its handle reads it. *)
Definition value_of_handle (l : option loc) : prog amap_result :=
  match l with None => mret (AValue None) | Some l => v ← aentry_value l; mret (AValue (Some v)) end.

(** What the code does. *)
Definition ado_op (fuel : nat) (op : amap_op) : prog amap_result :=
  match op with
  | AGet k => v ← amap_get retries k; mret (AValue v)
  | AContains k => b ← amap_contains_key retries k; mret (ABool b)
  | ATryInsert k v =>
    r ← amap_try_insert leaf_layout retries k v;
    match r with
    | inl old => value_of_handle old
    | inr full => mret (AFull (af_key full) (af_value full))
    end
  | ARemove k => l ← amap_remove retries k; value_of_handle l
  | ALen => n ← amap_len; mret (ALength n)
  | AIsEmpty => b ← amap_is_empty; mret (ABool b)
  | AValidate => _ ← amap_validate_invariants fuel; mret AUnit
  end.

Definition ado_ops (fuel : nat) (ops : list amap_op) : prog (list amap_result) := run_code ado_op fuel ops.

(** ** One operation *)

Lemma wp_aentry_value s l e b (Q : V → tree → Prop) : handle s l e b → Q e.2 s → wp (aentry_value l) Q s.
Proof. intros (x & Hx & <- & _) HQ. by eapply wp_leaf_read. Qed.

Abbreviation refines fuel op s M := (wp (ado_op fuel op) (λ r s', ∃ M', allowed M op r M' ∧ holds s' M') s).

Lemma aget_refines fuel s M k : holds s M → refines fuel (AGet k) s M.
Proof using Hretries.
  intros HS. cbn [ado_op]. apply wp_bind. unfold amap_get, amap_get_entry. apply wp_bind.
  eapply wp_mono; [by apply get_holds|]. change (as_bytes k) with k. intros [l|] ? [-> Hl].
  - destruct Hl as (e & E & Hl). apply wp_bind. eapply wp_aentry_value; [exact Hl|]. apply wp_ret, wp_ret. exists M.
    split; [|done]. replace (Some e.2) with (snd <$> M !! k) by by rewrite E. constructor.
  - apply wp_ret, wp_ret. exists M. split; [|done]. replace (@None V) with (snd <$> M !! k) by by rewrite Hl. constructor.
Qed.

Lemma acontains_refines fuel s M k : holds s M → refines fuel (AContains k) s M.
Proof using Hretries.
  intros HS. cbn [ado_op]. apply wp_bind. unfold amap_contains_key. apply wp_bind.
  eapply wp_mono; [by apply get_holds|]. change (as_bytes k) with k. intros o ? [-> Hl]. apply wp_ret, wp_ret. exists M. split; [|done].
  replace (bool_decide (is_Some o)) with (bool_decide (is_Some (M !! k))); [constructor|].
  apply bool_decide_ext. destruct o; [destruct Hl as (e & -> & _); split; by eexists|by rewrite Hl].
Qed.

Lemma atry_insert_refines fuel s M k v : holds s M → refines fuel (ATryInsert k v) s M.
Proof using Hretries.
  intros (B & HS). cbn [ado_op]. apply wp_bind. unfold amap_try_insert. apply wp_bind.
  eapply wp_mono; [by apply (atree_insert_spec leaf_layout retries s B M k v None)|].
  intros [r c] s' [(B' & HD & _) _]. apply wp_ret. cbn [fst] in HD. destruct r as [[old|]|full]; cbn in HD.
  - destruct HD as [(e & HM & Hh) HH%holds_at_holds]. unfold value_of_handle. apply wp_bind. eapply wp_aentry_value; [exact Hh|].
    apply wp_ret. eexists. split; [|exact HH]. replace (Some e.2) with (snd <$> M !! as_bytes k) by by rewrite HM. constructor.
  - destruct HD as [HM HH%holds_at_holds]. apply wp_ret. eexists. split; [|exact HH].
    replace (@None V) with (snd <$> M !! as_bytes k) by by rewrite HM. constructor.
  - destruct HD as [-> HH%holds_at_holds]. apply wp_ret. exists M. split; [|done]. constructor.
Qed.

Lemma aremove_refines fuel s M k : holds s M → refines fuel (ARemove k) s M.
Proof using Hretries.
  intros HS. cbn [ado_op]. apply wp_bind. unfold amap_remove, atree_remove.
  eapply wp_mono; [by apply remove_key_holds|]. change (as_bytes k) with k. intros [l|] s' HD; unfold value_of_handle.
  - destruct HD as (e & HM & HS' & Hl). apply wp_bind. eapply wp_aentry_value; [exact Hl|]. apply wp_ret.
    eexists. split; [|exact HS']. replace (Some e.2) with (snd <$> M !! k) by by rewrite HM. constructor.
  - destruct HD as [HM HS']. apply wp_ret. exists (delete k M). split; [|by rewrite delete_id].
    replace (@None V) with (snd <$> M !! k) by by rewrite HM. constructor.
Qed.

Lemma alen_refines fuel s M : holds s M → Z.of_nat (size M) < 2 ^ 63 → refines fuel ALen s M.
Proof.
  intros HS Hn. cbn [ado_op]. apply wp_bind. eapply wp_mono; [by apply holds_len|]. intros n ? [-> ->].
  apply wp_ret. exists M. split; [constructor|done].
Qed.

Lemma ais_empty_refines fuel s M : holds s M → Z.of_nat (size M) < 2 ^ 63 → refines fuel AIsEmpty s M.
Proof.
  intros HS Hn. cbn [ado_op]. apply wp_bind. unfold amap_is_empty. apply wp_bind.
  eapply wp_mono; [by apply holds_len|]. intros n ? [-> ->]. apply wp_ret, wp_ret. exists M. split; [|done].
  rewrite size_is_empty. constructor.
Qed.

Lemma avalidate_refines fuel s M : holds s M → Z.of_nat (size M) < 2 ^ 63 → (enough s <= fuel)%nat → refines fuel AValidate s M.
Proof.
  unfold enough. intros HS Hn Hf. cbn [ado_op]. apply wp_bind. unfold amap_validate_invariants. apply wp_bind.
  eapply wp_mono; [apply (validate_holds _ s M); [done|done|lia]|]. intros n s' [-> _]. apply wp_ret, wp_ret.
  exists M. split; [constructor|done].
Qed.

Lemma ado_op_holds fuel op s M : holds s M → Z.of_nat (size M) < 2 ^ 63 → (enough s <= fuel)%nat → refines fuel op s M.
Proof using Hretries.
  intros HS Hn Hf. destruct op; [by apply aget_refines|by apply acontains_refines|by apply atry_insert_refines
    |by apply aremove_refines|by apply alen_refines|by apply ais_empty_refines|by apply avalidate_refines].
Qed.

(** ** Sequences of operations *)

Lemma allowed_size M op r M' : allowed M op r M' → (size M' <= S (size M))%nat.
Proof.
  intros []; try lia.
  - rewrite map_size_insert. destruct (M !! as_bytes k); cbn; lia.
  - rewrite map_size_delete. destruct (M !! k); cbn; lia.
Qed.

#[export] Instance amap_simulation : Simulation allowed ado_op holds (λ n M, (size M <= n)%nat) (λ n, Z.of_nat n < 2 ^ 63).
Proof using Hretries.
  split.
  - intros n op s M HS Hn Hok. apply ado_op_holds; [done|lia|done].
  - intros f f' op Hf. destruct op; try done. cbn [ado_op]. apply extends_bind; [|done]. apply extends_bind; [|done].
    apply extends_bind; [done|]. intros r. apply extends_bind; [by apply extends_loop|done].
  - intros n op M r M' HA Hn. pose proof (allowed_size _ _ _ _ HA). lia.
  - intros n n' ? ?. lia.
Qed.

Lemma ado_ops_holds ops s M : holds s M → Z.of_nat (size M + length ops) < 2 ^ 63 →
  ∃ bound, ∀ fuel, (bound <= fuel)%nat → wp (ado_ops fuel ops) (λ rs s', ∃ M', allowed_run allowed ops rs M M' ∧ holds s' M') s.
Proof using Hretries.
  intros HS Hn. apply (run_code_allowed (holds := holds) (fits := λ n M, (size M <= n)%nat) (ok := λ n, Z.of_nat n < 2 ^ 63) _ _ (size M)); done.
Qed.
End refine.
Arguments amap_op : clear implicits.
Arguments amap_result : clear implicits.
