(* ===== verification/IterSpec.v ===== *)
(** * What the iterators of a map yield

    [ahead_ok s B c es]: the cursor [c] over the tree [s] has the entries [es]
    left. Each end pops its end of that list. *)

From stdpp Require Import sorting.
From S2P Require Import Prelude Bytes Latch Slot Bits Node NodeSpec NodeOps Free Mem Shape Raw Read Write Remove Shrink Inv Descent Update Pool Commits Order Rules WriteSpec RemoveSpec ShrinkSpec Walk WalkSpec Cursor CursorSpec Tree Map Iter MapSpec.
Local Open Scope Z_scope.

(** ** Specifications *)

Section spec.
Context {K V : Type} `{AsBytes K}.

(** [es] lists the entries of [M] in a range, in key order. *)
Definition range_of (M : gmap path (K * V)) (start end_ : Bound path) (es : list (K * V)) : Prop :=
  StronglySorted (λ e e', lex_cmp (as_bytes e.1) (as_bytes e'.1) = Lt) es ∧
  ∀ e, e ∈ es ↔ ∃ k, M !! k = Some e ∧ inside start end_ k.

Definition bytes_of {Q} `{AsBytes Q} (b : Bound Q) : Bound path :=
  match b with Included k => Included (as_bytes k) | Excluded k => Excluded (as_bytes k) | Unbounded => Unbounded end.

(** A callback over a list, until it says to stop. *)
Fixpoint visit_until {S} (callback : K → V → S → bool * S) (es : list (K * V)) (st : S) : S :=
  match es with
  | [] => st
  | e :: es => let '(go_on, st) := callback e.1 e.2 st in if go_on then visit_until callback es st else st
  end.

(** Any mix of the two ends of a range, the entries copied out. *)
Fixpoint ends_run {L R H E} (ends : Dir → R → prog L (option H * R)) (entry_at : H → prog L E) (r : R) (dirs : list Dir)
    : prog L (list (option E)) :=
  match dirs with
  | [] => mret []
  | dir :: dirs =>
    '(h, r) ← ends dir r;
    e ← match h with None => mret None | Some h => e ← entry_at h; mret (Some e) end;
    es ← ends_run ends entry_at r dirs;
    mret (e :: es)
  end.

(** One turn of a scan. *)
Definition ends_scan {L R S} (ends : Dir → R → prog L (option loc * R)) (key_at : loc → prog L K) (value_at : loc → prog L V)
    (callback : K → V → S → bool * S) (c : R * S) : prog L (flow (R * S) S) :=
  let '(r, st) := c in
  '(e, r) ← ends Forward r;
  match e with
  | None => mret (Break st)
  | Some e =>
    k ← key_at e;
    v ← value_at e;
    let '(go_on, st) := callback k v st in
    if go_on then mret (Continue (r, st)) else mret (Break st)
  end.

Definition range_ends (fuel : nat) (dir : Dir) (r : Range) : prog (Leaf K V) (option loc * Range) :=
  match dir with Forward => range_next fuel r | Backward => range_next_back fuel r end.

Definition range_run (fuel : nat) (r : Range) (dirs : list Dir) : prog (Leaf K V) (list (option (K * V))) :=
  ends_run (range_ends fuel) entry_to_owned r dirs.
End spec.

(** Ends that do the same. *)
Lemma ends_run_extends {L St R H E} (ends ends' : Dir → R → prog L (option H * R)) (entry_at : H → prog L E) {LY : Layout St} r dirs :
  (∀ dir r, extends (S := St) (ends dir r) (ends' dir r)) →
  extends (S := St) (ends_run ends entry_at r dirs) (ends_run ends' entry_at r dirs).
Proof.
  intros HE. revert r. induction dirs as [|dir dirs IH]; intros r; [done|]. cbn [ends_run]. apply extends_bind; [done|].
  intros [h r']. apply extends_bind; [done|]. intros e. by apply extends_bind.
Qed.

Lemma extends_body {L St X A} {LY : Layout St} f (body body' : X → prog L (flow X A)) x :
  (∀ x, extends (S := St) (body x) (body' x)) → extends (S := St) (loop f body x) (loop f body' x).
Proof. intros HB. revert x. induction f as [|f IH]; intros x; [done|]. cbn [loop]. apply extends_bind; [done|]. by intros []. Qed.

(** ** The entries of a new cursor *)

(** Given the entry of each leaf, what a cursor between two bounds has left. *)
Lemma entries_in_range {L St} {LN : LeafNode L} {LL : LeafLaws L} {LY : Layout St} {E}
    (s : RawTree L St) m B (W : Inv.wf (EX := at_rest) s B m ∅) (ent : loc → E → Prop) (kb : E → path) (M : gmap path E) start end_ :
  (∀ k, match m !! k with Some l => ∃ e, ent l e ∧ M !! k = Some e ∧ kb e = k | None => M !! k = None end) →
  ∃ es, StronglySorted (λ e e', lex_cmp (kb e) (kb e') = Lt) es ∧ (∀ e, e ∈ es ↔ ∃ k, M !! k = Some e ∧ inside start end_ k) ∧
    (length es <= size M)%nat ∧ Forall2 ent (remaining s B (cursor_new (owned_bound start) (owned_bound end_)) Forward) es.
Proof.
  intros HM. destruct (remaining_new (EX := at_rest) s m B ∅ W start end_) as [HS HI].
  set (ls := remaining s B _ Forward) in *.
  assert (∀ l, l ∈ ls → ∃ k e, m !! k = Some l ∧ inside start end_ k ∧ M !! k = Some e ∧ ent l e ∧ kb e = k ∧ key_of s l = k) as HL.
  { intros l (k & Hk & Hin)%HI. pose proof (HM k) as X. rewrite Hk in X. destruct X as (e & H1 & H2 & H3).
    exists k, e. split_and!; [done..|]. apply (map_live _ _ _ _ _ _ W) in Hk. unfold key_of. by rewrite Hk. }
  assert (∃ es, Forall2 (λ l e, ent l e ∧ M !! key_of s l = Some e ∧ kb e = key_of s l) ls es) as [es HF].
  { clearbody ls. clear HS HI. induction ls as [|l ls IH]; [by exists []|].
    destruct (HL l ltac:(by left)) as (k & e & _ & _ & H1 & H2 & H3 & H4). destruct IH as [es HF].
    - intros l' Hl'. apply HL. by right.
    - exists (e :: es). constructor; [by rewrite H4|done]. }
  exists es. split_and!.
  - clear HI HL. revert HS. induction HF as [|l e ls' es' (_ & _ & Ee) HF IH]; intros HS; [constructor|].
    apply StronglySorted_inv in HS as [HS HA]. constructor; [by apply IH|]. rewrite Ee. clear IH HS.
    induction HF as [|l2 e2 ls2 es2 (_ & _ & E2) HF IH]; [constructor|]. apply Forall_cons in HA as [Hlt HA].
    constructor; [by rewrite E2|by apply IH].
  - intros e. split.
    + intros [i Hi]%list_elem_of_lookup. destruct (Forall2_lookup_r _ _ _ _ _ HF Hi) as (l & Hl & _ & Hk & _).
      apply list_elem_of_lookup_2 in Hl. destruct (HL l Hl) as (k & e' & _ & H2 & H3 & _ & _ & H6). exists k. by rewrite <- H6 at 1.
    + intros (k & Hk & Hin). pose proof (HM k) as X. destruct (m !! k) as [l|] eqn:Hm; [|congruence].
      assert (l ∈ ls) as Hl by (apply HI; eauto). apply list_elem_of_lookup in Hl as [i Hi].
      destruct (Forall2_lookup_l _ _ _ _ _ HF Hi) as (e' & He' & _ & Hk' & _). apply list_elem_of_lookup_2 in He'.
      destruct (HL l ltac:(by eapply list_elem_of_lookup_2)) as (k2 & e2 & H1 & _ & _ & _ & _ & H6).
      assert (k2 = k) as -> by (eapply (map_inj (EX := at_rest) s); [exact W|exact H1|exact Hm]). rewrite H6 in Hk'. congruence.
  - rewrite <- (Forall2_length _ _ _ HF), <- (length_fmap (key_of s)). apply NoDup_dom_length.
    + apply NoDup_fmap_2_strong.
      * intros l l' Hl Hl'. destruct (HL l Hl) as (k & _ & H1 & _ & _ & _ & _ & ->).
        destruct (HL l' Hl') as (k' & _ & H1' & _ & _ & _ & _ & ->). intros ->. congruence.
      * eapply StronglySorted_NoDup; [|exact HS]. intros l Hx. rewrite lex_cmp_refl in Hx. done.
    + intros k (l & -> & Hl)%list_elem_of_fmap. destruct (HL l Hl) as (k & e & _ & _ & H3 & _ & _ & ->). eauto.
  - eapply Forall2_impl; [exact HF|]. by intros l e [? _].
Qed.

(** ** The proofs *)

(** The two ends of any range over a cursor, and the readers of its entries. *)
Section proofs.
Context {L St K V : Type} {AB : AsBytes K} {LN : LeafNode L} {LL : LeafLaws L} {EL : EntryLeaf L K V} {LY : Layout St}.
Abbreviation tree := (RawTree L St).
Abbreviation wf := (wf (EX := at_rest)).
Context (s : tree) (M : gmap path (K * V)) (B : gmap loc path) (m : gmap path loc).
Context (W : wf s B m ∅) (HE : entries_ok s m M) (fuel : nat) (Hf : (cursor_fuel s B <= fuel)%nat).

(** The cursor has these entries left. *)
Definition ahead_ok (c : CursorState) (es : list (K * V)) : Prop :=
  cursor_ok s B c ∧ Forall2 (λ l e, handle s l e false) (remaining s B c Forward) es.

Lemma advance_entries dir c es : ahead_ok c es →
  wp (advance fuel c dir) (λ o s', s' = s ∧
    option_Forall2 (λ l e, handle s l e false) o.1 (pop dir es).1 ∧ ahead_ok o.2 (pop dir es).2) s.
Proof using All.
  intros [HC HF]. pose proof (pop_Forall2 _ dir _ _ HF) as [H1 H2].
  eapply wp_mono; [by apply (advance_pops s m B ∅ W)|]. intros [o c'] s' [-> [HC' E]].
  cbn [fst snd] in E, HC' |- *. rewrite <- E in H1, H2. by split_and!.
Qed.

(** A new range has the entries between its bounds left. *)
Lemma ahead_new start end_ : ∃ es, range_of M start end_ es ∧ (length es <= size M)%nat ∧
  ahead_ok (cursor_new (owned_bound start) (owned_bound end_)) es.
Proof using All.
  destruct (entries_in_range s m B W (λ l e, handle s l e false) (λ e, as_bytes e.1) M start end_) as (es & H1 & H2 & H3 & H4).
  - intros k. pose proof (entries_lookup s B m M k W HE) as X. destruct (m !! k) as [l|]; [|done].
    destruct X as (x & Hx & EM & Hr & <-). exists (entry_of x). split_and!; [by exists x|done|by rewrite entry_bytes].
  - exists es. split_and!; [by split|done|]. split; [apply cursor_new_ok|done].
Qed.

(** A type of ranges with its ends, and readers of a handle. *)
Context {R : Type} (cursor : R → CursorState) (ends : Dir → R → prog L (option loc * R)).
Context (key_at : loc → prog L K) (value_at : loc → prog L V) (entry_at : loc → prog L (K * V)).
Context (Hends : ∀ dir r Q, wp (advance fuel (cursor r) dir) (λ o s', ∀ r', cursor r' = o.2 → Q (o.1, r') s') s → wp (ends dir r) Q s).
Context (Hkey : ∀ l e b Q, handle s l e b → Q e.1 s → wp (key_at l) Q s).
Context (Hvalue : ∀ l e b Q, handle s l e b → Q e.2 s → wp (value_at l) Q s).
Context (Hentry : ∀ l e b Q, handle s l e b → Q e s → wp (entry_at l) Q s).

(** Any mix of the two ends, the entries copied out. *)
Lemma ends_run_spec dirs r es : ahead_ok (cursor r) es →
  wp (ends_run ends entry_at r dirs) (λ rs s', s' = s ∧ rs = deque es (Yield <$> dirs)) s.
Proof using LL W HE Hf Hends Hentry.
  revert r es. induction dirs as [|dir dirs IH]; intros r es HR; cbn [ends_run fmap list_fmap deque]; [by apply wp_ret|].
  apply wp_bind, Hends. eapply wp_mono; [by apply advance_entries|]. intros [o c'] s' [-> [HO HR']] r' Er. cbn [fst snd] in HO, HR', Er. subst c'.
  destruct (pop dir es) as [o' es']. cbn [fst snd] in HO, HR'. apply wp_bind.
  assert (wp (match o with None => mret None | Some l => e ← entry_at l; mret (Some e) end)
    (λ e s', s' = s ∧ e = o') s) as X.
  { destruct HO as [l e Hl|]; [|by apply wp_ret]. apply wp_bind. eapply Hentry; [exact Hl|]. by apply wp_ret. }
  eapply wp_mono; [exact X|]. intros e s' [-> ->]. apply wp_bind. eapply wp_mono; [by apply IH|].
  intros rs s' [-> ->]. by apply wp_ret.
Qed.

(** A callback over the entries. *)
Lemma scan_spec {S} (callback : K → V → S → bool * S) r es st : ahead_ok (cursor r) es → (length es < fuel)%nat →
  wp (loop fuel (ends_scan ends key_at value_at callback) (r, st)) (λ st' s', s' = s ∧ st' = visit_until callback es st) s.
Proof using LL W HE Hf Hends Hkey Hvalue.
  intros HR Hl.
  apply (wp_loop_measure (λ k (c : R * S) s', s' = s ∧ ∃ es', ahead_ok (cursor c.1) es' ∧ k = length es' ∧
    visit_until callback es' c.2 = visit_until callback es st) _ _ _ _ _ (length es)); [|by eauto|done].
  intros k [r' st'] s' (-> & es' & HR' & -> & E). cbn [fst snd] in *. unfold ends_scan. apply wp_bind, Hends.
  eapply wp_mono; [by apply (advance_entries Forward)|]. intros [o c2] s' [-> [HO HR2]] r2 Er. cbn [fst snd] in *. subst c2.
  destruct es' as [|e es']; cbn [pop orient fst snd] in HO, HR2; inversion HO as [l ? Hh|]; subst.
  - apply wp_ret. by rewrite <- E.
  - apply wp_bind. eapply Hkey; [exact Hh|]. apply wp_bind. eapply Hvalue; [exact Hh|].
    cbn [visit_until] in E. destruct (callback e.1 e.2 st') as [[] st2]; apply wp_ret.
    + exists (length es'). cbn. split; [lia|]. split; [done|]. by exists es'.
    + done.
Qed.
End proofs.

(** ** The ranges of the heap map *)

Section heap.
Context {K V : Type} {AB : AsBytes K}.
Abbreviation tree := (RawTree (Leaf K V) HeapStorage).
Implicit Types (s : tree).

Lemma range_ends_ok fuel s dir r Q :
  wp (advance fuel (rg_cursor r) dir) (λ o s', ∀ r', rg_cursor r' = o.2 → Q (o.1, r') s') s → wp (range_ends fuel dir r) Q s.
Proof. intros HX. destruct dir; (apply wp_bind; eapply wp_mono; [exact HX|]; intros [o c] s' HQ; apply wp_ret; by apply HQ). Qed.

Lemma scan_holds {S} fuel {Q} `{AsBytes Q} (start end_ : Bound Q) (callback : K → V → S → bool * S) st Q0 s :
  wp (loop fuel (ends_scan (range_ends fuel) entry_key entry_value callback) (map_range start end_, st)) Q0 s →
  wp (map_scan fuel start end_ callback st) Q0 s.
Proof.
  unfold map_scan. assert (scan_turn fuel callback = ends_scan (range_ends fuel) entry_key entry_value callback) as ->; [|done].
  reflexivity.
Qed.

Lemma handle_key s l e b (Q : K → tree → Prop) : handle s l e b → Q e.1 s → wp (entry_key l) Q s.
Proof. intros (x & Hx & <- & _) HQ. by eapply wp_leaf_read. Qed.

Lemma handle_value s l e b (Q : V → tree → Prop) : handle s l e b → Q e.2 s → wp (entry_value l) Q s.
Proof. intros (x & Hx & <- & _) HQ. by eapply wp_leaf_read. Qed.

Lemma handle_owned s l e b (Q : K * V → tree → Prop) : handle s l e b → Q e s → wp (entry_to_owned l) Q s.
Proof.
  intros Hl HQ. unfold entry_to_owned. apply wp_bind. eapply handle_key; [exact Hl|]. apply wp_bind.
  eapply handle_value; [exact Hl|]. apply wp_ret. by destruct e.
Qed.
End heap.
