(* ===== verification/Refine.v ===== *)
(** * The map against its specification

    An interpreter of operations on a finite map, and the public operations of
    [Map.v] that it specifies. [do_op_holds] is one step of the refinement: the
    operation's result is the specified one, and the tree then holds the
    specified map. *)

From S2P Require Import Prelude Bytes Latch Slot Bits Node Free Mem Simulate Shape Raw Read Write Remove Shrink Inv RemoveSpec ShrinkSpec Walk Tree Map MapSpec.
Local Open Scope Z_scope.

Section refine.
Context {K V : Type} `{AsBytes K}.
Context (retries : nat) (Hretries : (0 < retries)%nat).
Abbreviation prog := (prog (Leaf K V)).
Abbreviation tree := (RawTree (Leaf K V) HeapStorage).
Implicit Types (s : tree) (M : gmap path (K * V)).

Inductive map_op :=
| OpGet (key : list byte)
| OpContains (key : list byte)
| OpInsert (key : K) (value : V)
| OpGetOrInsert (key : K) (value : V)
| OpInsertIfAbsent (key : K) (value : V)
| OpRemove (key : list byte)
| OpLen
| OpIsEmpty
| OpClear
| OpShrinkToFit
| OpValidate.

Inductive map_result := ResUnit | ResValue (v : option V) | ResBool (b : bool) | ResLen (n : Z).

(** What the operations promise. *)
Definition spec_op (op : map_op) M : map_result * gmap path (K * V) :=
  match op with
  | OpGet k => (ResValue (snd <$> M !! k), M)
  | OpContains k => (ResBool (bool_decide (is_Some (M !! k))), M)
  | OpInsert k v => (ResValue (snd <$> M !! as_bytes k), <[as_bytes k := (k, v)]> M)
  | OpGetOrInsert k v =>
    match M !! as_bytes k with
    | Some (_, v') => (ResValue (Some v'), M)
    | None => (ResValue (Some v), <[as_bytes k := (k, v)]> M)
    end
  | OpInsertIfAbsent k v =>
    match M !! as_bytes k with
    | Some _ => (ResBool false, M)
    | None => (ResBool true, <[as_bytes k := (k, v)]> M)
    end
  | OpRemove k => (ResValue (snd <$> M !! k), delete k M)
  | OpLen => (ResLen (Z.of_nat (size M)), M)
  | OpIsEmpty => (ResBool (bool_decide (M = ∅)), M)
  | OpClear => (ResUnit, ∅)
  | OpShrinkToFit => (ResUnit, M)
  | OpValidate => (ResUnit, M)
  end.

Definition spec_ops (ops : list map_op) M : list map_result * gmap path (K * V) := run_spec spec_op ops M.

(** What the code does; [fuel] bounds the walks over the whole tree. *)
Definition do_op (fuel : nat) (op : map_op) : prog map_result :=
  match op with
  | OpGet k => v ← map_get_value retries k; mret (ResValue v)
  | OpContains k => b ← map_contains_key retries k; mret (ResBool b)
  | OpInsert k v => old ← map_insert_cloned retries k v; mret (ResValue old)
  | OpGetOrInsert k v =>
    l ← map_get_or_insert_with retries k (λ _, v); v ← entry_value l; mret (ResValue (Some v))
  | OpInsertIfAbsent k v => b ← map_insert_if_absent retries k v; mret (ResBool b)
  | OpRemove k =>
    l ← map_remove_by_slice retries k;
    match l with None => mret (ResValue None) | Some l => v ← entry_value l; mret (ResValue (Some v)) end
  | OpLen => n ← map_len; mret (ResLen n)
  | OpIsEmpty => b ← map_is_empty; mret (ResBool b)
  | OpClear => _ ← map_clear fuel; mret ResUnit
  | OpShrinkToFit => _ ← map_shrink_to_fit fuel; mret ResUnit
  | OpValidate => _ ← map_validate_invariants fuel; mret ResUnit
  end.

Definition do_ops (fuel : nat) (ops : list map_op) : prog (list map_result) := run_code do_op fuel ops.

(** ** One operation *)

Lemma wp_entry_value s l e b (Q : V → tree → Prop) : handle s l e b → Q e.2 s → wp (entry_value l) Q s.
Proof. intros (x & Hx & <- & _) HQ. by eapply wp_leaf_read. Qed.

Abbreviation refines fuel op s M :=
  (wp (do_op fuel op) (λ r s', r = (spec_op op M).1 ∧ holds s' (spec_op op M).2) s).

Lemma get_refines fuel s M k : holds s M → refines fuel (OpGet k) s M.
Proof using Hretries.
  intros HS. cbn [do_op spec_op]. apply wp_bind. unfold map_get_value, map_with_value. apply wp_bind.
  eapply wp_mono; [by apply get_holds|]. change (as_bytes k) with k. intros [l|] ? [-> Hl].
  - destruct Hl as (e & -> & Hl). apply wp_bind. destruct Hl as (x & Hx & <- & _).
    eapply wp_leaf_read; [exact Hx|]. by apply wp_ret, wp_ret.
  - apply wp_ret, wp_ret. by rewrite Hl.
Qed.

Lemma contains_refines fuel s M k : holds s M → refines fuel (OpContains k) s M.
Proof using Hretries.
  intros HS. cbn [do_op spec_op]. apply wp_bind. unfold map_contains_key, map_contains_key_slice. apply wp_bind.
  eapply wp_mono; [by apply get_holds|]. change (as_bytes k) with k. intros [l|] ? [-> Hl]; apply wp_ret, wp_ret.
  - by destruct Hl as (e & -> & _).
  - by rewrite Hl.
Qed.

Lemma insert_refines fuel s M k v : holds s M → refines fuel (OpInsert k v) s M.
Proof using Hretries.
  intros HS. cbn [do_op spec_op]. apply wp_bind. unfold map_insert_cloned, map_insert, map_insert_in. apply wp_bind, wp_bind.
  eapply wp_mono; [by apply tree_insert_holds|]. intros [l|l|l] s' HD; cbn in HD.
  - destruct HD as (-> & HS' & _). by apply wp_ret, wp_ret, wp_ret.
  - destruct HD as (_ & e & -> & HS' & Hl). apply wp_ret, wp_bind. eapply wp_entry_value; [exact Hl|]. by apply wp_ret, wp_ret.
  - by destruct HD.
Qed.

Lemma get_or_insert_refines fuel s M k v : holds s M → refines fuel (OpGetOrInsert k v) s M.
Proof using Hretries.
  intros HS. cbn [do_op spec_op]. apply wp_bind. unfold map_get_or_insert_with. apply wp_bind.
  eapply wp_mono; [by apply get_holds|]. intros [l|] ? [-> Hl].
  - destruct Hl as ([k' v'] & -> & Hl). apply wp_ret, wp_bind. eapply wp_entry_value; [exact Hl|]. by apply wp_ret.
  - apply wp_bind. eapply wp_mono; [by apply tree_insert_holds|]. rewrite Hl. intros [l|l|l] s' HD; cbn in HD.
    + destruct HD as (_ & HS' & Hh). apply wp_ret, wp_bind. eapply wp_entry_value; [exact Hh|]. by apply wp_ret.
    + by destruct HD.
    + destruct HD as (_ & e & HM & _). congruence.
Qed.

Lemma insert_if_absent_refines fuel s M k v : holds s M → refines fuel (OpInsertIfAbsent k v) s M.
Proof using Hretries.
  intros HS. cbn [do_op spec_op]. apply wp_bind. unfold map_insert_if_absent. apply wp_bind.
  eapply wp_mono; [by apply get_holds|]. intros [l|] ? [-> Hl]; cbn [is_Some bool_decide].
  - destruct Hl as (e & -> & _). rewrite bool_decide_true by by eexists. by apply wp_ret, wp_ret.
  - rewrite bool_decide_false by by apply is_Some_None. apply wp_bind.
    eapply wp_mono; [by apply tree_insert_holds|]. rewrite Hl. intros [l|l|l] s' HD; cbn in HD.
    + destruct HD as (_ & HS' & Hh). by apply wp_ret, wp_ret.
    + by destruct HD.
    + destruct HD as (_ & e & HM & _). congruence.
Qed.

Lemma remove_refines fuel s M k : holds s M → refines fuel (OpRemove k) s M.
Proof using Hretries.
  intros HS. cbn [do_op spec_op]. apply wp_bind. unfold map_remove_by_slice.
  eapply wp_mono; [by apply tree_remove_holds|]. intros [l|] s' HD.
  - destruct HD as (e & -> & HS' & Hl). apply wp_bind. eapply wp_entry_value; [exact Hl|]. by apply wp_ret.
  - destruct HD as [HM HS']. apply wp_ret. rewrite HM. split; [done|]. by rewrite delete_id.
Qed.

Lemma len_refines fuel s M : holds s M → Z.of_nat (size M) < 2 ^ 63 → refines fuel OpLen s M.
Proof.
  intros HS Hn. cbn [do_op spec_op]. apply wp_bind. eapply wp_mono; [by apply holds_len|].
  intros n ? [-> ->]. by apply wp_ret.
Qed.

Lemma is_empty_refines fuel s M : holds s M → Z.of_nat (size M) < 2 ^ 63 → refines fuel OpIsEmpty s M.
Proof.
  intros HS Hn. cbn [do_op spec_op fst snd]. apply wp_bind. unfold map_is_empty. apply wp_bind.
  eapply wp_mono; [by apply holds_len|]. intros n ? [-> ->]. apply wp_ret, wp_ret. by rewrite size_is_empty.
Qed.

Lemma clear_refines fuel s M : holds s M → (enough s <= fuel)%nat → refines fuel OpClear s M.
Proof.
  unfold enough. intros HS Hf. cbn [do_op spec_op]. apply wp_bind. eapply wp_mono; [apply (clear_holds _ s M); [done|lia]|].
  intros [] s' [[HS' _] _]. by apply wp_ret.
Qed.

Lemma shrink_refines fuel s M : holds s M → (enough s <= fuel)%nat → refines fuel OpShrinkToFit s M.
Proof.
  unfold enough. intros HS Hf. cbn [do_op spec_op]. apply wp_bind. eapply wp_mono; [apply (shrink_holds _ s M); [done|lia]|].
  intros [] s' [HS' _]. by apply wp_ret.
Qed.

Lemma validate_refines fuel s M : holds s M → Z.of_nat (size M) < 2 ^ 63 → (enough s <= fuel)%nat →
  refines fuel OpValidate s M.
Proof.
  unfold enough. intros HS Hn Hf. cbn [do_op spec_op]. apply wp_bind. unfold map_validate_invariants. apply wp_bind.
  eapply wp_mono; [apply (validate_holds _ s M); [done|done|lia]|]. intros n s' [-> _]. by apply wp_ret, wp_ret.
Qed.

Lemma do_op_holds fuel op s M : holds s M → Z.of_nat (size M) < 2 ^ 63 → (enough s <= fuel)%nat → refines fuel op s M.
Proof using Hretries.
  intros HS Hn Hf. destruct op; [by apply get_refines|by apply contains_refines|by apply insert_refines
    |by apply get_or_insert_refines|by apply insert_if_absent_refines|by apply remove_refines|by apply len_refines
    |by apply is_empty_refines|by apply clear_refines|by apply shrink_refines|by apply validate_refines].
Qed.

(** ** Sequences of operations *)

Lemma spec_op_size op M : (size (spec_op op M).2 <= S (size M))%nat.
Proof.
  assert (∀ k e, size (<[k := e]> M) <= S (size M))%nat as X.
  { intros k e. rewrite map_size_insert. destruct (M !! k); cbn; lia. }
  destruct op as [k|k|k v|k v|k v|k| | | | |]; cbn [spec_op snd]; try lia; [apply X| | | |].
  - destruct (M !! as_bytes k) as [[]|]; cbn [snd]; [lia|apply X].
  - destruct (M !! as_bytes k); cbn [snd]; [lia|apply X].
  - rewrite map_size_delete. destruct (M !! k); cbn; lia.
  - rewrite map_size_empty. lia.
Qed.

(** More fuel changes nothing. *)
Lemma do_op_extends f f' op : (f <= f')%nat → extends (do_op f op : prog _) (do_op f' op).
Proof.
  intros Hf. assert (∀ St A body (x : St), extends (loop f body x : prog A) (loop f' body x)) as HL by (intros; by apply extends_loop).
  destruct op; cbn [do_op]; try reflexivity; apply extends_bind; try done.
  - apply extends_bind; [done|]. intros w. apply extends_bind; [done|]. intros old. apply extends_bind; [done|]. intros [].
    case_match; [done|]. by apply extends_bind.
  - apply extends_bind; [done|]. intros [|l|n]; [done..|]. by apply extends_bind.
  - apply extends_bind; [|done]. apply extends_bind; [done|]. intros r. by apply extends_bind.
Qed.

(** The limit: a 63-bit count. *)
Abbreviation sized := (λ n M, (size M <= n)%nat).
Abbreviation small := (λ n : nat, Z.of_nat n < 2 ^ 63).

#[export] Instance map_simulation : Simulation (just spec_op) do_op holds sized small.
Proof using Hretries.
  split.
  - intros n op s M HS Hn Hok. eapply wp_mono; [apply do_op_holds; [exact HS|lia|done]|]. intros r s' [-> HS']. by eexists.
  - intros f f' op. apply do_op_extends.
  - intros n op M r ? [-> ->] Hn. pose proof (spec_op_size op M). lia.
  - intros n n' ? ?. lia.
Qed.

Abbreviation refine_all fuel ops s M :=
  (wp (do_ops fuel ops) (λ rs s', rs = (spec_ops ops M).1 ∧ holds s' (spec_ops ops M).2) s).

Lemma do_ops_holds ops s M : holds s M → Z.of_nat (size M + length ops) < 2 ^ 63 →
  ∃ bound, ∀ fuel, (bound <= fuel)%nat → refine_all fuel ops s M.
Proof using Hretries.
  intros HS Hn. destruct (run_code_allowed (holds := holds) (fits := sized) (ok := small) _ _ (size M) ops s M HS (le_n _) Hn) as [bound Hb]. exists bound. intros fuel Hf.
  eapply wp_mono; [by apply Hb|]. by intros rs s' (M' & [-> ->]%run_just & HS').
Qed.

Lemma do_ops_done fuel ops s M rs s' : holds s M → Z.of_nat (size M + length ops) < 2 ^ 63 →
  run (do_ops fuel ops) s = Done rs s' → rs = (spec_ops ops M).1 ∧ holds s' (spec_ops ops M).2.
Proof using Hretries.
  intros HS Hn E. destruct (run_code_done (holds := holds) (fits := sized) (ok := small) _ _ (size M) fuel ops s M rs s' HS (le_n _) Hn E) as (M' & [-> ->]%run_just & HS'). done.
Qed.
End refine.
Arguments map_op : clear implicits.
Arguments map_result : clear implicits.
