(* ===== verification/TreeThm.v ===== *)
(** * What the tree promises

    The contracts of the tree's operations at rest, over any storage, and of
    the maps over the heap. Each is total: the operation returns, and what it
    returns and leaves behind is as stated. *)

From S2P Require Import Prelude Bytes Latch Slot Bits Node NodeSpec NodeOps Free Mem Simulate Shape Raw Read Write Remove Inv Descent Update Pool Commits Order Rules WriteSpec RemoveSpec Shrink ShrinkSpec Walk WalkSpec Tree Map MapSpec Refine Arena ANode AStorage AMapSpec.
Local Open Scope Z_scope.

(** ** The algorithms, over any storage *)

Section tree.
Context {L St : Type} {LN : LeafNode L} {LL : LeafLaws L} {LY : Layout St}.
Abbreviation wf := (wf (EX := at_rest)).
Abbreviation insert_done := (insert_done (EX := at_rest)).
Abbreviation hint_fast := (hint_fast (EX := at_rest)).
Implicit Types (s : RawTree L St) (m : gmap path loc) (B : gmap loc path).

(** C32: the point lookup. On a well-formed tree [get] returns the leaf of the
    key, or none, and changes nothing; it needs one attempt. *)
Theorem get_finds_the_leaf retries s m B key :
  (0 < retries)%nat → wf s B m ∅ → wp (get retries key) (λ o s', s' = s ∧ o = m !! key) s.
Proof. intros Hr W. by apply (get_spec (EX := at_rest) s B m ∅). Qed.

(** C2: the insert. With the leaf owned and not yet linked, [insert_hinted]
    either links it under its key (a new key), or swaps it for the old leaf,
    which it marks removed and retires once, or leaves the existing leaf, as
    the mode says; the count, the owner and the tree's invariant follow, every
    node it allocated is linked or freed, and the hint it may leave is valid. *)
Theorem insert_links_one_leaf retries s m B l key mode count hint :
  (0 < retries)%nat → wf s B m ∅ → l ∈ t_owned s → live_key s l = Some key → replaceable (L := L) mode →
  wp (insert_hinted retries l key mode count hint) (insert_done s B m l key mode count hint) s.
Proof. intros. by apply insert_hinted_spec. Qed.

(** C34: running out of storage. If an insert reports that the storage is full,
    then the storage that it leaves does refuse a node, and the tree, its map,
    its leaves and its count are as before: nodes already prepared were freed,
    and the caller still owns the leaf. *)
Theorem full_insert_changes_nothing retries s m B l key mode count hint :
  (0 < retries)%nat → wf s B m ∅ → l ∈ t_owned s → live_key s l = Some key → replaceable (L := L) mode →
  wp (insert_hinted retries l key mode count hint)
    (λ r s', r.1 = None → storage_refuses s' ∧ wf s' B m ∅ ∧ same_tree s s' ∅ ∧ l ∈ t_owned s' ∧ r.2 = hint) s.
Proof.
  intros Hr W Ho Hk Hm. eapply wp_mono; [by apply (insert_hinted_spec (EX := at_rest))|].
  intros [o h] s' HD E. cbn in E. subst o. destruct HD as (H1 & H2 & H3 & H4). split_and!; [done..| |done].
  by rewrite (sm_owned _ _ _ H3).
Qed.

(** C33: the inserters' fast path. From a hint that an earlier insert left, if
    it is still valid, [insert_at_hint] adds the leaf to the hint's node, like a
    full insert, if the key has a byte there, the node no child at it, and room
    for one. Otherwise it declines, with the state as it was but for the version
    of that node, which is unlocked once more unless the key ends there. Either
    way the hint that it returns is valid. *)
Theorem hinted_insert_is_an_insert s m B l key count h :
  wf s B m ∅ → l ∈ t_owned s → live_key s l = Some key → hint_ok s B key h →
  wp (insert_at_hint h l key count) (hint_fast s B m l key count h) s.
Proof. intros. by apply insert_at_hint_spec. Qed.


(** C13: the follow-up of a remove. On a tree whose only empty node lies on the
    key's path, [unlink_emptied] unlinks it, and every ancestor that this
    empties in turn, and restores the invariant that no linked node is empty;
    leaves, map and count are untouched. *)
Theorem unlink_emptied_leaves_no_empty_node key retries s m B x q ob :
  (0 < retries)%nat → empty_at s B m ∅ x q ob → q `prefix_of` key →
  wp (unlink_emptied retries key) (λ _ s', stable s s' ∧ ∃ B', wf s' B' m ∅) s.
Proof. intros. by eapply unlink_emptied_spec. Qed.

(** C18: the teardown. On a well-formed tree [destroy] ends, and frees each
    linked node and each linked leaf exactly once and nothing else: a second
    free, or a use after a free, panics. Retired objects are left to their
    reclaimer. *)
Theorem destroy_frees_the_tree_once fuel s m B :
  wf s B m ∅ → (2 * (size (t_nodes s) + size (t_leaves s)) + 1 < fuel)%nat →
  wp (destroy fuel) (λ _ s',
    (∀ n, t_nodes s' !! n = if decide (is_Some (B !! n)) then None else t_nodes s !! n) ∧
    (∀ l, (∃ k, m !! k = Some l) → t_leaves s' !! l = None) ∧
    (∀ l, ¬ (∃ k, m !! k = Some l) → t_leaves s' !! l = t_leaves s !! l) ∧
    t_retired_nodes s' = t_retired_nodes s ∧ t_retired_leaves s' = t_retired_leaves s) s.
Proof.
  intros W Hf. eapply wp_mono; [by eapply (destroy_spec (EX := at_rest) s B m ∅ W)|].
  intros _ s' [F1 F2 F3 F4 _]. split_and!; [| | |done|done].
  - intros n. rewrite F1. apply decide_ext. rewrite (tour_node (EX := at_rest) s B m ∅ W). set_solver.
  - intros l Hl. rewrite F2, decide_True; [done|]. rewrite (tour_leaf (EX := at_rest) s B m ∅ W). set_solver.
  - intros l Hl. rewrite F2, decide_False; [done|]. rewrite (tour_leaf (EX := at_rest) s B m ∅ W). by intros [? _].
Qed.

(** C17: the check of the invariants. On every well-formed tree with an exact
    count [validate] ends, none of its assertions fails, it returns the number
    of entries, and the tree is as before. *)
Theorem validate_accepts_well_formed_trees fuel s m B :
  wf s B m ∅ → Counter.sum (t_len s) = Z.of_nat (size m) →
  (2 * (size (t_nodes s) + size (t_leaves s)) + 1 < fuel)%nat →
  wp (tree_validate fuel) (λ n s', s' = s ∧ n = Z.of_nat (size m)) s.
Proof.
  intros W Hs Hf. pose proof (total_one s B m ∅ W) as E.
  apply (validate_spec (EX := at_rest) s B m ∅ W _ (λ _, 1)); [by intros; apply wp_ret|set_solver|done|congruence|lia].
Qed.

(** C15: [shrink_to_fit]. It ends, keeps the map, the leaves and the count, and
    leaves a well-formed tree; and unless the storage ran out, a second look
    at any node finds nothing to fit: no node is empty, holds a single leaf,
    can be merged with its only child, or fits a smaller layout. *)
Theorem shrink_to_fit_fits_every_node fuel s m B :
  wf s B m ∅ → (2 * size (t_nodes s) < fuel)%nat →
  wp (shrink_to_fit fuel) (λ _ s', ∃ B', wf s' B' m ∅ ∧ entries_kept s s' ∧
    (¬ storage_full (St := St) → ∀ n, is_Some (B' !! n) → run (fit_plan n) s' = Done None s')) s.
Proof.
  intros W Hf. eapply wp_mono; [apply (shrink_spec (EX := at_rest) fuel s m B); [set_solver|done..]|].
  intros _ s' (B' & W' & HK & Hmin). exists B'. split_and!; [done..|]. intros Hfull n Hn.
  pose proof (Hmin Hfull n Hn) as X. destruct Hn as [q Hq]. by eapply (minimal_run (EX := at_rest) s' B' m ∅).
Qed.
End tree.

(** ** The maps *)

Section map.
Context {K V : Type} `{AsBytes K}.
Abbreviation tree := (RawTree (Leaf K V) HeapStorage).
Implicit Types (s : tree) (M : gmap path (K * V)).

(** C1: [ArtMap] implements a finite map. Any sequence of gets, containment
    tests, inserts, inserts of absent keys, get-or-inserts, removes, [len]s,
    [is_empty]s, [clear]s, [shrink_to_fit]s and invariant checks on a fresh map
    returns, given enough fuel for its walks; every result is the one the
    finite map from key bytes to values gives, and the tree then holds that
    map: well formed, without an empty node, and counted exactly. *)
Theorem artmap_refines_a_finite_map retries stripe (ops : list (map_op K V)) :
  (0 < retries)%nat → (stripe < Counter.STRIPES)%nat → Z.of_nat (length ops) < 2 ^ 63 →
  ∃ bound, ∀ fuel, (bound <= fuel)%nat →
  wp (do_ops retries fuel ops) (λ rs s', rs = (spec_ops ops ∅).1 ∧ holds s' (spec_ops ops ∅).2)
    (new_in Build_HeapStorage stripe : tree).
Proof. intros Hr Hs Hn. apply do_ops_holds; [done|by apply holds_new|]. by rewrite map_size_empty. Qed.

(** C35: removing through a handle. [EntryRef::remove] takes out exactly the
    entry of the handle: if the entry was already removed or replaced it
    returns false and the map stays, otherwise it returns true, the key is
    gone, and the handle's leaf reads removed. *)
Theorem entry_remove_takes_that_entry retries s M l e removed :
  (0 < retries)%nat → holds s M → handle s l e removed →
  wp (entry_remove retries l) (λ r s', r = negb removed ∧ handle s' l e true ∧
    holds s' (if removed then M else delete (as_bytes e.1) M) ∧ (removed = false → M !! as_bytes e.1 = Some e)) s.
Proof. intros. by apply tree_remove_leaf_holds. Qed.

(** C14: reclamation. After any sequence of operations on a fresh map, a leaf
    in memory is either the map's entry for its key, or it is marked removed
    and was retired; a node is either free of entries and retired, obsolete,
    or it is live and holds an entry; nothing is retired twice, and no leaf is
    left unowned. *)
Theorem every_object_is_linked_or_retired_once retries stripe (ops : list (map_op K V)) :
  (0 < retries)%nat → (stripe < Counter.STRIPES)%nat → Z.of_nat (length ops) < 2 ^ 63 →
  ∃ bound, ∀ fuel, (bound <= fuel)%nat →
  wp (do_ops retries fuel ops) (λ _ s',
    (∀ l x, t_leaves s' !! l = Some x →
      if is_removed x then l ∈ t_retired_leaves s'
      else l ∉ t_retired_leaves s' ∧ (spec_ops ops ∅).2 !! key_bytes x = Some (entry_of x)) ∧
    (∀ n ob, t_nodes s' !! n = Some ob →
      if is_obsolete (o_latch ob) then n ∈ t_retired_nodes s'
      else n ∉ t_retired_nodes s' ∧ node_ok (o_node ob) ∧ nonempty (o_node ob)) ∧
    NoDup (t_retired_leaves s') ∧ NoDup (t_retired_nodes s'))
    (new_in Build_HeapStorage stripe : tree).
Proof.
  intros Hr Hs Hn. destruct (do_ops_holds retries Hr ops (new_in Build_HeapStorage stripe : tree) ∅) as [bound Hb];
    [by apply holds_new|by rewrite map_size_empty|]. exists bound. intros fuel Hf. eapply wp_mono; [by apply Hb|].
  intros rs s' [_ (B & m & W & Ho & HE & _)]. split_and!; [| |apply W|apply W].
  - intros l x Hx. destruct (wf_leaves _ _ _ _ W l) as [y H1 H2 H3 H4 H5|y H1 H2 H3 H4|y H1 _ _ _ H2|H1].
    + assert (y = x) as -> by congruence. rewrite H2. split; [done|]. rewrite (HE (key_bytes x)), H3. cbn. by rewrite Hx.
    + assert (y = x) as -> by congruence. by rewrite H2.
    + by rewrite Ho in H2.
    + congruence.
  - intros n ob Hob. destruct (wf_nodes _ _ _ _ W n) as [ob' H1 H2 H3 H4 H5 H6 H7|ob' H1 H2 H3 H4 H5|ob' H1 _ _ H4|H1].
    + assert (ob' = ob) as -> by congruence. rewrite quiet_not_obsolete by done. split_and!; [done..|]. apply H7. set_solver.
    + assert (ob' = ob) as -> by congruence. by rewrite H5.
    + set_solver.
    + congruence.
Qed.

(** C16: [clear]. It ends, and leaves the empty map: every entry was unlinked,
    marked removed and retired, every node retired, each once; every handle
    reads removed, and the count is zero. *)
Theorem clear_empties_the_map fuel s M :
  holds s M → (size (t_nodes s) + size (t_leaves s) < fuel)%nat →
  wp (map_clear fuel) (λ _ s', holds s' ∅ ∧ (∀ l e removed, handle s l e removed → handle s' l e true) ∧
    (∀ l, is_Some (t_leaves s' !! l) → l ∈ t_retired_leaves s') ∧
    (∀ n, is_Some (t_nodes s' !! n) → n ∈ t_retired_nodes s') ∧
    NoDup (t_retired_leaves s') ∧ NoDup (t_retired_nodes s')) s.
Proof.
  intros HS Hf. eapply wp_mono; [by apply (clear_holds fuel s M)|]. intros _ s' ([HS' Hh] & W & Ho).
  split_and!; [done..| | |apply W|apply W].
  - intros l [x Hx]. destruct (wf_leaves _ _ _ _ W l) as [y _ _ H3|y _ _ _ H4|y _ _ _ _ H2|H1]; [|done| |congruence].
    + by rewrite lookup_empty in H3.
    + by rewrite Ho in H2.
  - intros n [ob Hob]. destruct (wf_nodes _ _ _ _ W n) as [ob' _ [q H2]|ob' _ _ H3|ob' _ _ _ H4|H1]; [|done|set_solver|congruence].
    by rewrite lookup_empty in H2.
Qed.
End map.

(** ** Witnesses: trees of byte keys *)

Abbreviation bytes_leaf := (Leaf (list byte) nat).
Abbreviation bytes_tree := (RawTree bytes_leaf HeapStorage).
Definition key_a : list byte := [Byte.x61].
Definition key_b : list byte := [Byte.x62; Byte.x63].
Definition key_c : list byte := [Byte.x64].
Definition key_d : list byte := [Byte.x65; Byte.x00].

Definition tree0 : bytes_tree := new_in Build_HeapStorage 0.

(** A tree with two entries. *)
Definition sample_ops : list (map_op (list byte) nat) := [OpInsert key_a 7; OpInsert key_b 8]%nat.
Definition map1 : gmap path (list byte * nat) := (spec_ops sample_ops ∅).2.
Definition tree1 : bytes_tree := match run (do_ops 1 0 sample_ops) tree0 with Done _ s => s | _ => tree0 end.

Lemma tree1_holds : holds tree1 map1.
Proof.
  assert (holds tree0 ∅) as H0 by (apply holds_new; unfold Counter.STRIPES; lia).
  assert (match run (do_ops 1 0 sample_ops) tree0 with Done _ _ => true | _ => false end = true) as E by (vm_compute; reflexivity).
  unfold tree1. destruct (run _ _) as [o s| | |] eqn:X; [|discriminate E..].
  eapply (do_ops_done (K := list byte) (V := nat) 1 ltac:(lia) 0 sample_ops tree0 ∅); [exact H0| |exact X]. rewrite map_size_empty. cbn. lia.
Qed.

(** A leaf that waits to be inserted. *)
Definition with_new {L St} (s : RawTree L St) (x : L) : RawTree L St :=
  let l := fresh (dom (t_leaves s)) in set_t_owned ({[l]} ∪ t_owned s) (set_t_leaves (<[l := x]> (t_leaves s)) s).
Definition with_leaf (s : bytes_tree) (key : list byte) : bytes_tree := with_new s (leaf_new key 9%nat).
Abbreviation waiting s := (fresh (dom (t_leaves s))).

Lemma with_new_ok {L St} `{LeafLaws L, Layout St} (s : RawTree L St) B m x : is_removed x = false → wf (EX := at_rest) s B m ∅ →
  wf (EX := at_rest) (with_new s x) B m ∅ ∧ waiting s ∈ t_owned (with_new s x) ∧
  live_key (with_new s x) (waiting s) = Some (key_bytes x).
Proof.
  intros Hx W. split_and!.
  - apply wf_alloc_leaf; [done|apply not_elem_of_dom, is_fresh|done].
  - cbn. set_solver.
  - apply live_key_Some. eexists. split; [apply lookup_insert_eq|done].
Qed.

Lemma with_leaf_ok s B m key : wf (EX := at_rest) s B m ∅ →
  wf (EX := at_rest) (with_leaf s key) B m ∅ ∧ waiting s ∈ t_owned (with_leaf s key) ∧
  live_key (with_leaf s key) (waiting s) = Some key.
Proof. exact (with_new_ok s B m (leaf_new key 9%nat) eq_refl). Qed.

Definition tree2 : bytes_tree := with_leaf tree1 key_c.
Abbreviation leaf2 := (waiting tree1).

Lemma tree2_ok : ∃ B m, wf (EX := at_rest) tree2 B m ∅ ∧ leaf2 ∈ t_owned tree2 ∧ live_key tree2 leaf2 = Some key_c.
Proof. destruct tree1_holds as (B & m & W & _). exists B, m. by apply with_leaf_ok. Qed.

(** The tree after its insert, and the hint that it leaves. *)
Definition hinted : bytes_tree * Hint :=
  match run (insert_hinted 1 leaf2 key_c Replace 1 None) tree2 with
  | Done (Some (Inserted _), Some h) s => (s, h)
  | _ => (tree0, {| hint_node := Null; hint_version := 0; hint_depth := 0 |})
  end.

Lemma hinted_ok : ∃ B m, wf (EX := at_rest) hinted.1 B m ∅ ∧ hint_ok hinted.1 B key_d hinted.2.
Proof.
  destruct tree2_ok as (B & m & W & Ho & Hk).
  pose proof (insert_hinted_spec (EX := at_rest) 1 tree2 m B leaf2 key_c Replace 1 None ltac:(lia) W Ho Hk (leaf_replaceable Replace)) as X.
  assert (match run (insert_hinted 1 leaf2 key_c Replace 1 None) tree2 with
          | Done (Some (Inserted _), Some h) _ => hint_depth h = 0%nat | _ => False end) as E by (vm_compute; reflexivity).
  unfold wp in X. unfold hinted. revert E X. generalize (run (insert_hinted 1 leaf2 key_c Replace 1 None) tree2).
  intros [[[[l|l|l]|] [h|]] s| | |] E X; try exact (False_ind _ E).
  destruct X as (_ & _ & _ & B' & I & Hh). exists B', (<[key_c := leaf2]> m). split; [apply I|].
  destruct Hh as [?|(h' & [= <-] & n & p & ob & H1 & H2 & H3 & H4 & H5 & H6)]; [done|].
  exists n, p, ob. split_and!; [exact H1|exact H2|exact H3|exact H4|exact H5|].
  rewrite E in H5. apply length_zero_iff_nil in H5 as ->. apply prefix_nil.
Qed.

Lemma get_finds_the_leaf_witness : ∃ B m l, wf (EX := at_rest) tree1 B m ∅ ∧
  wp (get 1 key_a) (λ o s', s' = tree1 ∧ o = Some l) tree1.
Proof.
  destruct tree1_holds as (B & m & W & _ & HE & _). specialize (HE key_a).
  assert (map1 !! key_a = Some (key_a, 7%nat)) as E by (vm_compute; reflexivity). rewrite E in HE.
  destruct (m !! key_a) as [l|] eqn:Hl; [|done]. exists B, m, l. split; [exact W|]. rewrite <- Hl.
  exact (get_finds_the_leaf 1 tree1 m B key_a ltac:(lia) W).
Defined.

Lemma insert_links_one_leaf_witness : ∃ B m,
  wp (insert_hinted 1 leaf2 key_c Replace 1 None) (insert_done (EX := at_rest) tree2 B m leaf2 key_c Replace 1 None) tree2.
Proof.
  destruct tree2_ok as (B & m & W & Ho & Hk). exists B, m.
  exact (insert_links_one_leaf 1 tree2 m B leaf2 key_c Replace 1 None ltac:(lia) W Ho Hk (leaf_replaceable Replace)).
Defined.

(** A tree in an arena of 192 bytes, with one entry, and a leaf whose key shares
    20 bytes with it. Its insert needs two nodes of 64 bytes: the first takes
    the cursor from 88 to 152, and there is no room for the second. *)
Abbreviation arena_tree := (RawTree (ALeaf (list byte) nat) ArenaStorage).
Definition long_key (b : byte) : list byte := replicate 20 Byte.x61 ++ [b].
Definition tight_storage : ArenaStorage :=
  {| st_arena := {| ar_id := 1; ar_cursor := 88; ar_base := 4096; ar_raw := 4096; ar_capacity := 192 |}; st_tls := Some Tlab.slots_new |}.
Definition tight0 : arena_tree := with_new (new_in tight_storage 0) (aleaf_new (long_key Byte.x62) 7%nat).
Definition tight1 : arena_tree :=
  match run (insert_hinted 1 (waiting (new_in tight_storage 0 : arena_tree)) (long_key Byte.x62) Replace 1 None) tight0 with
  | Done (Some (Inserted _), _) s => s
  | _ => tight0
  end.
Definition tight2 : arena_tree := with_new tight1 (aleaf_new (long_key Byte.x63) 8%nat).

Lemma tight2_ok : ∃ B m, wf (EX := at_rest) tight2 B m ∅ ∧ waiting tight1 ∈ t_owned tight2 ∧
  live_key tight2 (waiting tight1) = Some (long_key Byte.x63).
Proof.
  assert (∃ B m, wf (EX := at_rest) tight1 B m ∅) as (B & m & W); [|exists B, m; exact (with_new_ok tight1 B m (aleaf_new (long_key Byte.x63) 8%nat) eq_refl W)].
  destruct (with_new_ok (new_in tight_storage 0 : arena_tree) ∅ ∅ (aleaf_new (long_key Byte.x62) 7%nat)) as (W & Ho & Hk);
    [done|apply wf_new; unfold Counter.STRIPES; lia|].
  pose proof (insert_hinted_spec (EX := at_rest) 1 tight0 ∅ ∅ _ _ Replace 1 None ltac:(lia) W Ho Hk (leaf_replaceable Replace)) as X.
  unfold wp in X. unfold tight1. change (key_bytes (aleaf_new (long_key Byte.x62) 7%nat)) with (long_key Byte.x62) in X.
  destruct (run _ _) as [[[[l|l|l]|] h] s| | |]; [|by exists ∅, ∅..].
  destruct X as (_ & _ & _ & B' & I & _). exists B'. eexists. exact (in_wf _ _ _ _ _ _ _ _ I).
Qed.

Lemma full_insert_changes_nothing_witness : ∃ B m s,
  run (insert_hinted 1 (waiting tight1) (long_key Byte.x63) Replace 1 None) tight2 = Done (None, None) s ∧
  ar_cursor (st_arena (t_storage s)) = 152 ∧ size (t_nodes s) = 0%nat ∧
  storage_refuses s ∧ wf (EX := at_rest) s B m ∅ ∧ same_tree tight2 s ∅ ∧ waiting tight1 ∈ t_owned s.
Proof.
  destruct tight2_ok as (B & m & W & Ho & Hk). exists B, m.
  pose proof (full_insert_changes_nothing 1 tight2 m B _ _ Replace 1 None ltac:(lia) W Ho Hk (leaf_replaceable Replace)) as X.
  assert (match run (insert_hinted 1 (waiting tight1) (long_key Byte.x63) Replace 1 None) tight2 with
          | Done (None, None) s => ar_cursor (st_arena (t_storage s)) = 152 ∧ size (t_nodes s) = 0%nat | _ => False end) as E
    by (vm_compute; done).
  unfold wp in X. revert E X. generalize (run (insert_hinted 1 (waiting tight1) (long_key Byte.x63) Replace 1 None) tight2).
  intros [[[o|] [h|]] s| | |] E X; try exact (False_ind _ E). destruct E as [E1 E2].
  destruct (X eq_refl) as (X1 & X2 & X3 & X4 & _). by exists s.
Defined.

(** The fast path adds a key with a new byte, and declines one whose byte has a
    child, and unlocks the node, at version 4, once; a key that ends at the node
    it declines without a latch. *)
Example hinted_insert_branches :
  (λ key, match run (insert_at_hint hinted.2 (waiting hinted.1) key 1) (with_leaf hinted.1 key) with
          | Done (o, h) s => Some (bool_decide (is_Some o), hint_version hinted.2, hint_version h, Counter.sum (t_len s))
          | _ => None
          end) <$> [key_d; key_c; []] = [Some (true, 4, 8, 4); Some (false, 4, 8, 3); Some (false, 4, 4, 3)].
Proof. vm_compute. reflexivity. Qed.

Lemma hinted_insert_is_an_insert_witness : ∃ B m,
  wp (insert_at_hint hinted.2 (waiting hinted.1) key_d 1)
    (hint_fast (EX := at_rest) (with_leaf hinted.1 key_d) B m (waiting hinted.1) key_d 1 hinted.2) (with_leaf hinted.1 key_d).
Proof.
  destruct hinted_ok as (B & m & W & Hh). destruct (with_leaf_ok _ B m key_d W) as (W' & Ho & Hk). exists B, m.
  exact (hinted_insert_is_an_insert (with_leaf hinted.1 key_d) m B (waiting hinted.1) key_d 1 hinted.2 W' Ho Hk Hh).
Defined.


Definition all_ops : list (map_op (list byte) nat) :=
  sample_ops ++ [OpValidate; OpRemove key_a; OpShrinkToFit; OpGet key_b; OpClear; OpIsEmpty].

Lemma artmap_refines_a_finite_map_witness : ∃ bound, ∀ fuel, (bound <= fuel)%nat →
  wp (do_ops 1 fuel all_ops) (λ rs s', rs = (spec_ops all_ops ∅).1 ∧ holds s' (spec_ops all_ops ∅).2) tree0.
Proof.
  exact (artmap_refines_a_finite_map 1 0 all_ops ltac:(lia) ltac:(unfold Counter.STRIPES; lia) ltac:(cbn; lia)).
Defined.

Lemma every_object_is_linked_or_retired_once_witness : ∃ bound, ∀ fuel, (bound <= fuel)%nat →
  wp (do_ops 1 fuel all_ops) (λ _ s', NoDup (t_retired_leaves s') ∧ NoDup (t_retired_nodes s')) tree0.
Proof.
  destruct (every_object_is_linked_or_retired_once 1 0 all_ops ltac:(lia) ltac:(unfold Counter.STRIPES; lia) ltac:(cbn; lia)) as [bound X].
  exists bound. intros fuel Hf. eapply wp_mono; [exact (X fuel Hf)|]. intros rs s' HX. apply HX.
Defined.

(** Enough fuel for the walks over [tree1]. *)
Definition fuel1 : nat := enough tree1.

Lemma destroy_frees_the_tree_once_witness : ∃ B : gmap loc path,
  wp (destroy fuel1) (λ _ s', ∀ n, t_nodes s' !! n = if decide (is_Some (B !! n)) then None else t_nodes tree1 !! n) tree1.
Proof.
  destruct tree1_holds as (B & m & W & _). exists B. eapply wp_mono.
  { apply (destroy_frees_the_tree_once fuel1 tree1 m B W). unfold fuel1, enough. lia. }
  intros ? s' X. apply X.
Defined.

Lemma validate_accepts_well_formed_trees_witness :
  wp (tree_validate fuel1) (λ n s', s' = tree1 ∧ n = 2) tree1.
Proof.
  destruct tree1_holds as (B & m & W & Ho & HE & HL). pose proof (holds_size tree1 B m map1 W HE) as Hm.
  assert (size map1 = 2%nat) as E by (vm_compute; reflexivity). rewrite E in *.
  pose proof (validate_accepts_well_formed_trees fuel1 tree1 m B W) as X. rewrite Hm in X. apply X.
  - rewrite HL. reflexivity.
  - unfold fuel1, enough. lia.
Defined.

Lemma shrink_to_fit_fits_every_node_witness :
  wp (shrink_to_fit fuel1) (λ _ s', ∃ B' m, wf (EX := at_rest) s' B' m ∅ ∧ t_len s' = t_len tree1) tree1.
Proof.
  destruct tree1_holds as (B & m & W & _). eapply wp_mono.
  { apply (shrink_to_fit_fits_every_node fuel1 tree1 m B W). unfold fuel1, enough. lia. }
  intros _ s' (B' & W' & HK & _). exists B', m. split; [exact W'|apply HK].
Defined.

Lemma clear_empties_the_map_witness : wp (map_clear fuel1) (λ _ s', holds s' ∅) tree1.
Proof.
  eapply wp_mono; [apply (clear_empties_the_map fuel1 tree1 map1 tree1_holds); unfold fuel1, enough; lia|].
  intros ? s' X. apply X.
Defined.

Lemma entry_remove_takes_that_entry_witness : ∃ l,
  wp (entry_remove 1 l) (λ r s', r = true ∧ holds s' (delete key_a map1)) tree1.
Proof.
  destruct tree1_holds as (B & m & W & Ho & HE & HL).
  pose proof (entries_lookup tree1 B m map1 key_a W HE) as X.
  assert (map1 !! key_a = Some (key_a, 7%nat)) as E by (vm_compute; reflexivity). rewrite E in X.
  destruct (m !! key_a) as [l|]; [|done]. destruct X as (x & Hx & EM & Hrm & _). exists l.
  assert (handle tree1 l (key_a, 7%nat) false) as Hl.
  { exists x. split; [exact Hx|]. split; [|exact Hrm]. apply (inj Some). exact (eq_sym EM). }
  pose proof (entry_remove_takes_that_entry 1 tree1 map1 l (key_a, 7%nat) false ltac:(lia) tree1_holds Hl) as X.
  eapply wp_mono; [exact X|]. intros r s' (-> & _ & HS & _). split; [reflexivity|exact HS].
Defined.

(** A tree whose root is an empty node. *)
Definition hollow : bytes_tree :=
  set_t_root (NodeAt 1) (put_node tree0 1 {| o_latch := 0; o_node := node_new Node4 |}).

Lemma hollow_ok : empty_at hollow {[1%positive := []]} ∅ ∅ 1%positive [] {| o_latch := 0; o_node := node_new Node4 |}.
Proof.
  destruct (node_new_ok (R := raw) Node4) as (H1 & H2 & H3 & _).
  assert (∀ q x r, tree_edges hollow {[1%positive := []]} q x r → q = [] ∧ x = false ∧ r = NodeAt 1) as HEd.
  { intros q x r [(-> & -> & -> & _)|(n & p & nd & Hn & Hnd & He)]; [done|].
    apply lookup_singleton_Some in Hn as [<- <-]. injection Hnd as <-.
    by apply (empty_no_edges _ _ _ _ _ H2 H3) in He. }
  split_and!; [|done|done|by apply emptied_empty]. split; [split| | | | | | |]; try done.
  - intros q x n He. apply HEd in He as (-> & -> & [= ->]). done.
  - intros q x l He. by apply HEd in He as (_ & _ & ?).
  - intros n q Hn. apply lookup_singleton_Some in Hn as [<- <-]. by apply edge_root.
  - intros n q Hn. apply lookup_singleton_Some in Hn as [<- <-]. by eexists.
  - intros k l. rewrite lookup_empty. split; [done|]. by intros (_ & q & x & (_ & _ & ?)%HEd).
  - intros n. destruct (decide (n = 1%positive)) as [->|Hne].
    + apply node_linked with {| o_latch := 0; o_node := node_new Node4 |};
        [done|by eexists|apply not_elem_of_nil|apply not_elem_of_empty|done|done|].
      intros Hx. destruct Hx. unfold exempt. by apply elem_of_singleton.
    + apply node_free; [|by apply lookup_singleton_ne|apply not_elem_of_nil|apply not_elem_of_empty].
      etrans; [by apply lookup_insert_ne|done].
  - intros l. apply leaf_free; [done| |apply not_elem_of_nil|apply not_elem_of_empty]. intros k. by rewrite lookup_empty.
  - constructor.
  - constructor.
  - split; [done|change (0 < 8)%nat; lia].
Qed.

Lemma unlink_emptied_leaves_no_empty_node_witness :
  wp (unlink_emptied 1 key_a) (λ _ s', stable hollow s' ∧ ∃ B', wf (EX := at_rest) s' B' ∅ ∅) hollow.
Proof.
  exact (unlink_emptied_leaves_no_empty_node key_a 1 hollow ∅ _ _ [] _ ltac:(lia) hollow_ok (prefix_nil key_a)).
Defined.
