(* ===== verification/IterThm.v ===== *)
(** * What the iterators promise

    The cursor over any storage, and the iterators of the maps, on a tree that
    does not change meanwhile. *)

From stdpp Require Import sorting.
From S2P Require Import Prelude Bytes Latch Slot Bits Node Free Mem Shape Raw Read Write Inv Order RemoveSpec Cursor CursorSpec Tree Map MapSpec Iter IterSpec Refine TreeThm.
Local Open Scope Z_scope.

(** C19: the cursor is a double-ended queue. It is created with the leaves
    whose keys lie between its bounds, in key order; every call at either end
    returns, and pops that end's leaf, or nothing once the ends have met; an
    invalidation before a repin loses and repeats nothing. *)
Theorem cursor_pops_the_range_in_order {L St} {LN : LeafNode L} {LL : LeafLaws L} {LY : Layout St}
    (s : RawTree L St) m B start end_ ops fuel :
  wf (EX := at_rest) s B m ∅ → (cursor_fuel s B <= fuel)%nat →
  ∃ ls, StronglySorted (λ l l', lex_cmp (key_of s l) (key_of s l') = Lt) ls ∧
    (∀ l, l ∈ ls ↔ ∃ k, m !! k = Some l ∧ inside start end_ k) ∧
    wp (cursor_run fuel (cursor_new (owned_bound start) (owned_bound end_)) ops)
      (λ rs s', s' = s ∧ rs = deque ls ops) s.
Proof.
  intros W Hf. destruct (remaining_new (EX := at_rest) s m B ∅ W start end_) as [H1 H2].
  eexists. split_and!; [exact H1|exact H2|]. apply (cursor_run_spec (EX := at_rest) s m B ∅ W); [apply cursor_new_ok|done].
Qed.

(** C20: the iterators of a map. With enough fuel, a [range] yields the entries
    between its bounds, in ascending key order from the front and descending
    from the back, each once whatever the mix of [next] and [next_back], and
    then nothing; [scan] calls its callback on them in order until it says to
    stop. Neither changes the map. *)
Theorem iterators_yield_the_entries_in_order {K V} `{AsBytes K} {Q} `{AsBytes Q} {S}
    (s : RawTree (Leaf K V) HeapStorage) M (start end_ : Bound Q) dirs (callback : K → V → S → bool * S) st :
  holds s M →
  ∃ es bound, range_of M (bytes_of start) (bytes_of end_) es ∧ ∀ fuel, (bound <= fuel)%nat →
    wp (range_run fuel (map_range start end_) dirs) (λ rs s', s' = s ∧ rs = deque es (Yield <$> dirs)) s ∧
    wp (map_scan fuel start end_ callback st) (λ st' s', s' = s ∧ st' = visit_until callback es st) s.
Proof.
  intros (B & m & W & _ & HE & _). destruct (ahead_new s M B m W HE (cursor_fuel s B) (le_n _) (bytes_of start) (bytes_of end_)) as (es & H1 & H2 & H3).
  exists es, (Nat.max (cursor_fuel s B) (Datatypes.S (size M))). split; [done|]. intros fuel Hf. split.
  - eapply (ends_run_spec s M B m W HE fuel ltac:(lia) rg_cursor); [|exact (handle_owned s)|exact H3].
    intros dir r Q0. apply range_ends_ok.
  - apply scan_holds.
    eapply (scan_spec s M B m W HE fuel ltac:(lia) rg_cursor (range_ends fuel) entry_key entry_value);
      [|exact (handle_key s)|exact (handle_value s)|exact H3|lia]. intros dir r Q0. apply range_ends_ok.
Qed.

(** ** Witnesses *)

Lemma cursor_pops_the_range_in_order_witness : ∃ B m ls,
  wp (cursor_run (cursor_fuel tree1 B) (cursor_new (owned_bound Unbounded) (owned_bound (Excluded key_b))) [Yield Backward; Invalidate; Yield Forward])
    (λ rs s', s' = tree1 ∧ rs = deque ls [Yield Backward; Invalidate; Yield Forward]) tree1 ∧ wf (EX := at_rest) tree1 B m ∅.
Proof.
  destruct tree1_holds as (B & m & W & _).
  destruct (cursor_pops_the_range_in_order tree1 m B Unbounded (Excluded key_b) [Yield Backward; Invalidate; Yield Forward] (cursor_fuel tree1 B) W ltac:(lia))
    as (ls & _ & _ & X). exists B, m, ls. split; [exact X|exact W].
Defined.

Lemma iterators_yield_the_entries_in_order_witness : ∃ es bound,
  range_of map1 (Included key_a) Unbounded es ∧
  wp (range_run bound (map_range (Included key_a) Unbounded) [Forward; Backward; Forward])
    (λ rs s', s' = tree1 ∧ rs = deque es [Yield Forward; Yield Backward; Yield Forward]) tree1.
Proof.
  destruct (iterators_yield_the_entries_in_order tree1 map1 (Included key_a) Unbounded [Forward; Backward; Forward]
    (λ _ v n, (true, (n + v)%nat)) 0%nat tree1_holds) as (es & bound & H1 & H2).
  exists es, bound. split; [exact H1|]. exact (proj1 (H2 bound (le_n bound))).
Defined.

(** The entries themselves, computed. *)
Example range_of_tree1 :
  match run (range_run 40 (map_range (Included key_a) Unbounded) [Forward; Backward; Forward]) tree1 with
  | Done rs _ => rs = [Some (key_a, 7); Some (key_b, 8); None]%nat
  | _ => False
  end.
Proof. vm_compute. reflexivity. Qed.
