(* ===== verification/AThm.v ===== *)
(** * What the arena maps promise

    An [ArenaArtMap] is a finite map whose inserts may be refused, its
    inserters insert like it, its iterators yield its entries in order, and an
    insert is refused only when less than [max_insert_bytes] is left. *)

From stdpp Require Import sorting.
From S2P Require Import Prelude Bytes Latch Slot Bits Node NodeSpec NodeOps Free Mem Simulate Arena ArenaSpec Shape Raw Read Write Budget Remove Inv Order RemoveSpec WriteSpec Walk Cursor CursorSpec Tree Iter ANode AStorage ATree AMap ABudget MapSpec AMapSpec ARefine IterSpec.
Local Open Scope Z_scope.

(** Both fields of an entry, and the ends of a range, for [ends_run]. *)
Section reads.
Context {K V : Type} `{AsBytes K}.
Abbreviation tree := (RawTree (ALeaf K V) ArenaStorage).

Definition aentry_read (l : loc) : prog (ALeaf K V) (K * V) := k ← aentry_key l; v ← aentry_value l; mret (k, v).
Definition arange_ends (fuel : nat) (dir : Dir) (r : ARange) : prog (ALeaf K V) (option loc * ARange) :=
  match dir with Forward => arange_next fuel r | Backward => arange_next_back fuel r end.

Lemma arange_ends_ok fuel (s : tree) dir r Q :
  wp (advance fuel (ag_cursor r) dir) (λ o s', ∀ r', ag_cursor r' = o.2 → Q (o.1, r') s') s → wp (arange_ends fuel dir r) Q s.
Proof. intros HX. destruct dir; (apply wp_bind; eapply wp_mono; [exact HX|]; intros [o c] s' HQ; apply wp_ret; by apply HQ). Qed.

Lemma wp_aentry_key (s : tree) l e b (Q : K → tree → Prop) : handle s l e b → Q e.1 s → wp (aentry_key l) Q s.
Proof. intros (x & Hx & <- & _) HQ. by eapply wp_leaf_read. Qed.

Lemma wp_aentry_read (s : tree) l e b (Q : K * V → tree → Prop) : handle s l e b → Q e s → wp (aentry_read l) Q s.
Proof.
  intros Hl HQ. unfold aentry_read. apply wp_bind. eapply wp_aentry_key; [exact Hl|]. apply wp_bind.
  eapply wp_aentry_value; [exact Hl|]. apply wp_ret. by destruct e.
Qed.

Lemma amap_scan_turn {S} fuel (callback : K → V → S → bool * S) :
  ascan_turn fuel callback = ends_scan (arange_ends fuel) aentry_key aentry_value callback.
Proof. reflexivity. Qed.
End reads.

Section amap.
Context {K V : Type} `{AsBytes K}.
Abbreviation tree := (RawTree (ALeaf K V) ArenaStorage).
Implicit Types (s : tree) (M : gmap path (K * V)).

(** C5: [ArenaArtMap] implements a finite map. Any sequence of gets, containment
    tests, inserts, removes, [len]s, [is_empty]s and validations on a fresh map
    in any arena returns, given enough fuel for its walks, and every result is the one the finite map from key bytes to
    values gives, but that an insert may hand its key and value back, and then
    changes nothing; the tree then holds that map: well formed, without an
    empty node, and counted exactly. *)
Theorem arena_map_refines_a_finite_map leaf_layout retries storage stripe (ops : list (amap_op K V)) :
  (0 < retries)%nat → (stripe < Counter.STRIPES)%nat → Z.of_nat (length ops) < 2 ^ 63 →
  ∃ bound, ∀ fuel, (bound <= fuel)%nat →
    wp (ado_ops leaf_layout retries fuel ops) (λ rs s', ∃ M', allowed_run allowed ops rs ∅ M' ∧ holds s' M') (amap_new storage stripe : tree).
Proof. intros Hr Hs Hn. apply ado_ops_holds; [done|by apply holds_new|]. by rewrite map_size_empty. Qed.

(** C6: the inserters. An inserter starts with an empty cache, and its cache
    stays valid: the cached node is in the tree, and lies at the cached path
    unless it has changed since. From a valid cache [try_insert] inserts or
    replaces like the map's insert, or hands the key and value back, and
    leaves a valid cache, whether or not it took the fast path. *)
Theorem inserter_insert_is_an_insert leaf_layout retries s B M (ins : ArenaInserter) key value :
  (0 < retries)%nat → holds_at s B M → cache_valid s B (in_cache ins) → cache_room s (in_cache ins) 8 →
  cache_valid s B (in_cache amap_inserter) ∧
  wp (inserter_try_insert leaf_layout retries ins key value) (λ r s', ∃ B',
    cache_valid s' B' (in_cache r.2) ∧
    match r.1 with
    | inl old => holds_at s' B' (<[as_bytes key := (key, value)]> M) ∧
        match old with
        | Some old => ∃ e, M !! as_bytes key = Some e ∧ handle s' old e true
        | None => M !! as_bytes key = None
        end
    | inr full => full = {| af_key := key; af_value := value |} ∧ holds_at s' B' M
    end) s.
Proof.
  intros Hr HS HC HR. split; [apply cache_new_valid|]. unfold inserter_try_insert. apply wp_bind.
  eapply wp_mono; [apply (atree_insert_spec leaf_layout retries s B M key value (Some (in_cache ins))); [done|done|by intros ? [= <-]]|].
  intros [r c] s' [(B' & HD & HV) Hc]. cbn [fst snd] in *. destruct (proj2 Hc ltac:(by eexists)) as [c' ->]. cbn [expect].
  apply wp_ret. exists B'. split; [by apply HV|]. cbn [fst]. destruct r as [[old|]|full]; cbn in HD; naive_solver.
Qed.

(** C22: [max_insert_bytes]. In an arena that no other thread allocates from
    meanwhile, an insert with at least [max_insert_bytes] of its key's length
    left is not refused, whether a new entry, a replacement, or through an
    inserter, and takes no more than that; and it never allocates more nodes
    than that allows for, whatever else happens to the tree meanwhile and
    however often it retries. *)
Theorem max_insert_bytes_suffices leaf_layout retries s B M key value c :
  (0 < retries)%nat → layout_ok leaf_layout → 1 <= al_size leaf_layout → holds_at s B M → cache_good s B c 8 →
  storage_ok (t_storage s) → max_insert_bytes leaf_layout (length (as_bytes key)) <= room (t_storage s) →
  wp (atree_insert leaf_layout retries key value c) (λ r s',
    (∃ old, r.1 = inl old) ∧ storage_ok (t_storage s') ∧
    room (t_storage s) - max_insert_bytes leaf_layout (length (as_bytes key)) <= room (t_storage s')) s ∧
  (∀ owner mode count hint, allocs true ∅ (node_need (length (as_bytes key)))
    (insert_hinted retries owner (as_bytes key) mode count hint : prog (ALeaf K V) _) (λ _ _ _, True)) ∧
  cost (node_need (length (as_bytes key))) + worst leaf_layout <= max_insert_bytes leaf_layout (length (as_bytes key)).
Proof.
  intros Hr Hly Hsz HS HC OK Hroom. pose proof (cost_need leaf_layout (length (as_bytes key)) Hsz) as Hcost.
  split; [|split; [|done]].
  2: { intros. eapply allocs_mono; [apply insert_allocs|done]. }
  pose proof (atree_insert_spec leaf_layout retries s B M key value c Hr HS HC) as WP. unfold atree_insert in *.
  apply wp_bind_inv in WP. pose proof (cost_nonneg (node_need (length (as_bytes key)))) as H0.
  assert (wp (alloc_value leaf_layout (aleaf_new key value)) (λ o s1, ∃ l, o = Some l ∧
    t_leaves s1 !! l = Some (aleaf_new key value) ∧ storage_ok (t_storage s1) ∧
    room (t_storage s) - worst leaf_layout <= room (t_storage s1)) s) as WA.
  { assert ({| al_size := al_size leaf_layout; al_align := al_align leaf_layout |} = leaf_layout) as EL by by destruct leaf_layout.
    apply wp_alloc_value; cbn [alloc_bytes arena_layout]; rewrite EL.
    - intros off st l E Hl. exists l. split; [done|]. cbn [t_leaves set_t_leaves t_storage set_t_storage].
      rewrite lookup_insert_eq. split; [done|]. by eapply alloc_takes.
    - intros E. destruct (alloc_fits (t_storage s) leaf_layout OK Hly ltac:(lia)) as [? ?]. congruence. }
  apply wp_bind. eapply wp_mono; [exact (wp_and _ _ _ _ WP WA)|]. clear WP WA.
  intros o s1 [WP (l & -> & Hl & OK1 & Hroom1)]. cbv beta iota in WP. apply wp_bind_inv in WP.
  assert (wp (owner_new l) (λ _ s2, t_leaves s2 = t_leaves s1 ∧ t_storage s2 = t_storage s1) s1) as WO by by eapply wp_exec.
  apply wp_bind. eapply wp_mono; [exact (wp_and _ _ _ _ WP WO)|]. clear WP WO. intros _ s2 [WP [E1 E2]]. apply wp_bind_inv in WP.
  assert (wp (leaf_key l) (λ k s3, k = as_bytes key ∧ s3 = s2) s2) as WK by (eapply wp_leaf_read; [by rewrite E1|done]).
  apply wp_bind. eapply wp_mono; [exact (wp_and _ _ _ _ WP WK)|]. clear WP WK. intros ? ? [WP [-> ->]]. rewrite <- E2 in OK1, Hroom1.
  eapply wp_mono.
  { eapply (wp_allocs _ ∅ (node_need (length (as_bytes key))) (λ _ _ r, ∃ old, r.1 = inl old)); [|done|done|lia|exact WP].
    apply allocs_plain_bind.
    - destruct c as [c|]; [|done]. apply plain_bind; [apply plain_try_fast|by intros []].
    - intros [[o|] c']; [|apply insert_full_allocs]. apply allocs_plain_bind; [apply plain_owner_drop|intros _]. by eexists. }
  intros r s3 [(_ & _ & H1) [H2 H3]]. split_and!; [done..|lia].
Qed.

(** The iterators of an arena map. With enough fuel, a [range] yields the
    entries between its bounds, in key order from either end, each once, and
    then nothing; [scan] calls its callback on them in order until it says to
    stop. *)
Theorem arena_iterators_yield_the_entries_in_order {Q} `{AsBytes Q} {S} s M (start end_ : Bound Q) dirs
    (callback : K → V → S → bool * S) st :
  holds s M →
  ∃ es bound, range_of M (bytes_of start) (bytes_of end_) es ∧ ∀ fuel, (bound <= fuel)%nat →
    wp (ends_run (arange_ends fuel) aentry_read (amap_range start end_) dirs) (λ rs s', s' = s ∧ rs = deque es (Yield <$> dirs)) s ∧
    wp (amap_scan fuel start end_ callback st) (λ st' s', s' = s ∧ st' = visit_until callback es st) s.
Proof.
  intros (B & m & W & _ & HE & _). destruct (ahead_new s M B m W HE (cursor_fuel s B) (le_n _) (bytes_of start) (bytes_of end_)) as (es & H1 & H2 & H3).
  exists es, (Nat.max (cursor_fuel s B) (Datatypes.S (size M))). split; [done|]. intros fuel Hf. split.
  - eapply (ends_run_spec s M B m W HE fuel ltac:(lia) ag_cursor); [|exact (wp_aentry_read s)|exact H3].
    intros dir r Q0. apply arange_ends_ok.
  - unfold amap_scan. rewrite amap_scan_turn.
    eapply (scan_spec s M B m W HE fuel ltac:(lia) ag_cursor (arange_ends fuel) aentry_key aentry_value);
      [|exact (wp_aentry_key s)|exact (wp_aentry_value s)|exact H3|lia]. intros dir r Q0. apply arange_ends_ok.
Qed.
End amap.

(** ** Witnesses: a map of byte keys in a small arena *)

Definition abytes_arena : Arena := default {| ar_id := 0; ar_cursor := 0; ar_base := 0; ar_raw := 0; ar_capacity := 0 |} (arena_new 1 4096 65536).
Definition astorage0 : ArenaStorage := {| st_arena := abytes_arena; st_tls := Some Tlab.slots_new |}.
Definition aleaf_layout : AllocLayout := {| al_size := 40; al_align := 8 |}.
Abbreviation abytes_tree := (RawTree (ALeaf (list byte) nat) ArenaStorage).
Definition amap0 : abytes_tree := amap_new astorage0 0.

Definition akey (b : Byte.byte) : list byte := [Byte.x6b; b].
Definition aops : list (amap_op (list byte) nat) :=
  [ATryInsert (akey Byte.x61) 1; ATryInsert (akey Byte.x62) 2; ATryInsert (akey Byte.x61) 3; AGet (akey Byte.x61); ALen; AValidate]%nat.

Lemma arena_map_refines_a_finite_map_witness : ∃ bound, ∀ fuel, (bound <= fuel)%nat →
  wp (ado_ops aleaf_layout 1 fuel aops) (λ rs s', ∃ M', allowed_run allowed aops rs ∅ M' ∧ holds s' M') amap0.
Proof. apply (arena_map_refines_a_finite_map aleaf_layout 1 astorage0 0 aops); [lia|unfold Counter.STRIPES; lia|cbn; lia]. Defined.

Example aops_results :
  match run (ado_ops aleaf_layout 1 10 aops) amap0 with
  | Done rs s => rs = [AValue None; AValue None; AValue (Some 1); AValue (Some 3); ALength 2; AUnit]%nat
                 ∧ arena_size (st_arena (t_storage s)) = 248
  | _ => False
  end.
Proof. vm_compute. done. Qed.

Lemma amap0_holds : holds_at amap0 ∅ (∅ : gmap path (list byte * nat)).
Proof.
  exists ∅. split_and!; [apply wf_new; unfold Counter.STRIPES; lia|done| |done]. intros k. by rewrite !lookup_empty.
Qed.

Lemma inserter_insert_is_an_insert_witness :
  wp (inserter_try_insert aleaf_layout 1 amap_inserter (akey Byte.x61) 7%nat) (λ r s', ∃ B',
    cache_valid s' B' (in_cache r.2) ∧
    match r.1 with
    | inl old => holds_at s' B' (<[akey Byte.x61 := (akey Byte.x61, 7%nat)]> ∅) ∧
        match old with
        | Some old => ∃ e, (∅ : gmap path (list byte * nat)) !! akey Byte.x61 = Some e ∧ handle s' old e true
        | None => (∅ : gmap path (list byte * nat)) !! akey Byte.x61 = None
        end
    | inr full => full = {| af_key := akey Byte.x61; af_value := 7%nat |} ∧ holds_at s' B' ∅
    end) amap0.
Proof.
  refine (proj2 (inserter_insert_is_an_insert aleaf_layout 1 amap0 ∅ ∅ amap_inserter (akey Byte.x61) 7%nat _ amap0_holds _ _)); [lia|exact I|done].
Defined.

(** An inserter's third key takes the fast path: the cached node has room, and
    only the version moves. *)
Example inserter_fast_path :
  match run (
    '(_, i) ← inserter_try_insert aleaf_layout 1 amap_inserter (akey Byte.x61) 1%nat;
    '(_, i) ← inserter_try_insert aleaf_layout 1 i (akey Byte.x62) 2%nat;
    '(_, i) ← inserter_try_insert aleaf_layout 1 i (akey Byte.x63) 3%nat;
    '(_, i) ← inserter_try_insert aleaf_layout 1 i (akey Byte.x64) 4%nat;
    mret (hint_version <$> ic_hint (in_cache i), hint_depth <$> ic_hint (in_cache i))) amap0 with
  | Done r s => r = (Some 8, Some 1%nat) ∧ Counter.sum (t_len s) = 4
  | _ => False
  end.
Proof. vm_compute. done. Qed.

Lemma max_insert_bytes_suffices_witness :
  max_insert_bytes aleaf_layout 2 = 1946 ∧
  wp (atree_insert aleaf_layout 1 (akey Byte.x61) 7%nat None) (λ r s',
    (∃ old, r.1 = inl old) ∧ storage_ok (t_storage s') ∧ room (t_storage amap0) - 1946 <= room (t_storage s')) amap0.
Proof.
  split; [vm_compute; reflexivity|].
  refine (proj1 (max_insert_bytes_suffices aleaf_layout 1 amap0 ∅ ∅ (akey Byte.x61) 7%nat None _ _ _ amap0_holds _ _ _)).
  - lia.
  - split; [cbn; lia|]. exists 3. done.
  - cbn. lia.
  - done.
  - split; [vm_compute; done|vm_compute; done|]. intros slots s [= <-] [-> _]%elem_of_replicate. by vm_compute.
  - vm_compute. done.
Defined.

Lemma arena_iterators_yield_the_entries_in_order_witness : ∃ es bound,
  wp (ends_run (arange_ends bound) aentry_read (amap_range (Unbounded : Bound (list byte)) Unbounded) [Forward; Backward])
    (λ rs s', s' = amap0 ∧ rs = deque es [Yield Forward; Yield Backward]) amap0.
Proof.
  destruct (arena_iterators_yield_the_entries_in_order amap0 ∅ (Unbounded : Bound (list byte)) Unbounded [Forward; Backward]
    (λ _ v n, (true, (n + v)%nat)) 0%nat (holds_at_holds _ _ _ amap0_holds)) as (es & bound & _ & H2).
  exists es, bound. exact (proj1 (H2 bound (le_n bound))).
Defined.
