(* ===== verification/VTree.v ===== *)
(** * The versioned tree ([src/versioned/tree.rs])

    The core tree over versioned leaves, and the protocol of the version
    chains: every change of a chain holds its latch, and a leaf is unlinked
    only once that latch is killed, under the latches of the tree.

    What does not create a version node is common to the leaves on the heap and
    to those in an arena ([AVTree.v]); the code has it twice.

    [chain_fuel] bounds the walks along one chain and [retries] the turns of
    the retry loops. *)

From S2P Require Import Prelude Bytes Latch Slot Bits Node Free Mem Raw Read Write Remove Walk Tree Version.
Local Open Scope Z_scope.

(** The result of trying to unlink a leaf. *)
Module Unlinked.
Inductive t := Done (n : nat) | Refused | Missing.
End Unlinked.

Section chains.
Context {X K V : Type} `{LeafSlots X V} `{AsBytes K}.
Context (chain_fuel : nat).
Abbreviation prog := (prog (VersionedLeaf X K V)).

(** ** Walks along a chain *)

Definition find_le_turn (l : loc) (max : Z) (cur : vptr) : prog (flow vptr (option vptr)) :=
  if bool_decide (cur = VNull) then mret (Break None)
  else
    version ← version_read l cur vn_version;
    if version <=? max then mret (Break (Some cur))
    else next ← version_read l cur vn_next; mret (Continue next).

(** The newest node from [head] on with [version <= max]. *)
Definition find_le (l : loc) (head : vptr) (max : Z) : prog (option vptr) := loop chain_fuel (find_le_turn l max) head.
Definition find_le_ptr (l : loc) (head : vptr) (max : Z) : prog (option vptr) := loop chain_fuel (find_le_turn l max) head.

(** The nodes of a chain, newest first, each seen through [f]. *)
Definition chain_turn {A} (l : loc) (f : VersionNode V → A) (c : vptr * list A) : prog (flow (vptr * list A) (list A)) :=
  let '(cur, acc) := c in
  if bool_decide (cur = VNull) then mret (Break acc)
  else
    next ← version_read l cur vn_next;
    x ← version_read l cur f;
    mret (Continue (next, acc ++ [x])).

Definition chain {A} (l : loc) (head : vptr) (f : VersionNode V → A) : prog (list A) :=
  loop chain_fuel (chain_turn l f) (head, []).

(** [!l.head().is_tombstone()]. *)
Definition head_live (l : loc) : prog bool :=
  head ← head_ptr l; dead ← version_read l head is_tombstone; mret (negb dead).

(** The position of [version]: [prev] is the last node that is newer. *)
Definition position_turn (l : loc) (version : Z) (c : vptr * vptr) : prog (flow (vptr * vptr) (vptr * vptr)) :=
  let '(prev, cur) := c in
  newer ← (if bool_decide (cur = VNull) then mret false
           else v ← version_read l cur vn_version; mret (version <? v));
  if newer : bool then next ← version_read l cur vn_next; mret (Continue (cur, next))
  else mret (Break (prev, cur)).

Definition position_of (l : loc) (version : Z) (head : vptr) : prog (vptr * vptr) :=
  loop chain_fuel (position_turn l version) (VNull, head).

(** [at(cur).is_some_and(|n| n.version == version)]. *)
Definition version_is (l : loc) (cur : vptr) (version : Z) : prog bool :=
  if bool_decide (cur = VNull) then mret false
  else v ← version_read l cur vn_version; mret (v =? version).

(** The store that makes [node] the successor of [prev]. *)
Definition link_after (l : loc) (prev node : vptr) : prog unit :=
  if bool_decide (prev = VNull) then set_head l node else set_next l prev node.

End chains.

(** ** Inserts *)

Section inserts.
Context {K V : Type} `{AsBytes K}.
Context (chain_fuel retries : nat).
Abbreviation prog := (prog (HeapLeaf K V)).

(** The caller holds the chain latch, which is released here. *)
Definition apply_locked (l : loc) (version : Z) (value : option V) : prog Z :=
  head ← head_ptr l;
  old_dead ← version_read l head is_tombstone;
  '(prev, cur) ← position_of chain_fuel l version head;
  node ← alloc_version l version value;
  replaced ← version_is l cur version;
  next ← (if replaced : bool then version_read l cur vn_next else mret cur);
  _ ← init_next l node next;
  _ ← link_after l prev node;
  _ ← (if replaced : bool then mark_superseded l cur else mret tt);
  new_live ← head_live l;
  let delta := Z.b2z new_live - Z.b2z (negb old_dead) in
  _ ← len_add delta;
  _ ← chain_unlock l;
  _ ← (if replaced : bool then retire_version l cur else mret tt);
  mret delta.

(** The fast path: [Break (Some _)] applied the version, [None] found no key. *)
Definition vinsert_fast_turn (key : list byte) (version : Z) (value : option V) (b : SpinBackoff)
    : prog (flow SpinBackoff (option Z * SpinBackoff)) :=
  leaf ← get retries key;
  match leaf with
  | None => mret (Break (None, b))
  | Some l =>
    w ← chain_lock l;
    if w : bool then delta ← apply_locked l version value; mret (Break (Some delta, b))
    else mret (Continue (spin b).2)
  end.

(** One turn with a new leaf of its own. *)
Definition vinsert_slow_turn (leaf : loc) (key_bytes : list byte) (count : Z) (b : SpinBackoff) : prog (flow SpinBackoff Z) :=
  r ← insert retries leaf key_bytes InsertIfAbsent count;
  o ← expect r;
  match o with
  | Inserted _ => mret (Break count)
  | Existing e =>
    w ← chain_lock e;
    if w : bool then
      p ← owner_ptr leaf;
      '(version, value) ← take_first p;
      delta ← apply_locked e version value;
      mret (Break delta)
    else mret (Continue (spin b).2)
  | Replaced _ => Panic
  end.

Definition vtree_insert (key : K) (version : Z) (value : option V) : prog Z :=
  '(fast, b) ← loop retries (vinsert_fast_turn (as_bytes key) version value) backoff_new;
  match fast with
  | Some delta => mret delta
  | None =>
    let count := Z.b2z (bool_decide (is_Some value)) in
    leaf ← trigger (AllocLeaf (versioned_leaf_new key version value));
    _ ← owner_new leaf;
    key_bytes ← leaf_key leaf;
    delta ← loop retries (vinsert_slow_turn leaf key_bytes count) b;
    _ ← owner_drop leaf;
    mret delta
  end.

(** ** Removes *)

(** Under the latch: the leaf and the head that was replaced. *)
Definition remove_head_locked (l : loc) : prog (option (loc * vptr)) :=
  head ← head_ptr l;
  dead ← version_read l head is_tombstone;
  if dead : bool then _ ← chain_unlock l; mret None
  else
    version ← version_read l head vn_version;
    tomb ← alloc_version l version None;
    next ← version_read l head vn_next;
    _ ← init_next l tomb next;
    _ ← set_head l tomb;
    _ ← mark_superseded l head;
    _ ← len_add (-1);
    _ ← chain_unlock l;
    _ ← retire_version l head;
    mret (Some (l, head)).

Definition remove_head_turn (key : list byte) (b : SpinBackoff) : prog (flow SpinBackoff (option (loc * vptr))) :=
  leaf ← get retries key;
  match leaf with
  | None => mret (Break None)
  | Some l =>
    w ← chain_lock l;
    if negb w then mret (Continue (spin b).2) else r ← remove_head_locked l; mret (Break r)
  end.

Definition remove_head (key : list byte) : prog (option (loc * vptr)) :=
  loop retries (remove_head_turn key) backoff_new.

End inserts.

Section vtree.
Context {X K V : Type} `{LeafSlots X V} `{AsBytes K}.
Context (chain_fuel retries : nat).
Abbreviation prog := (prog (VersionedLeaf X K V)).

(** The callback that kills the chain; the cell is [seen]. *)
Definition unlink_confirm (check : loc → prog bool) (c : loc) : prog (option Z) :=
  _ ← trigger (CellSet (Some None));
  w ← chain_lock c;
  if negb w then mret None
  else
    ok ← check c;
    if negb ok then _ ← chain_unlock c; mret None
    else
      head ← head_ptr c;
      ns ← chain chain_fuel c head (λ _, tt);
      _ ← trigger (CellSet (Some (Some (length ns))));
      live ← head_live c;
      _ ← chain_kill_leaf c;
      mret (Some (Z.b2z live)).

Definition unlink_leaf (leaf : loc) (check : loc → prog bool) : prog Unlinked.t :=
  key ← leaf_key leaf;
  _ ← trigger (CellSet None);
  removed ← remove_confirmed key (λ c, mret (bool_decide (c = leaf))) (unlink_confirm check) retries;
  seen ← trigger CellGet;
  match removed, seen with
  | Some _, Some (Some n) => mret (Unlinked.Done n)
  | Some _, _ => Panic
  | None, Some _ => mret Unlinked.Refused
  | None, None =>
    dead ← chain_is_dead leaf;
    mret (if dead : bool then Unlinked.Refused else Unlinked.Missing)
  end.

(** ** Pruning *)

(** [t.value().is_none_or(is_tombstone)]. *)
Definition none_or (is_tombstone : V → bool) (v : option V) : bool := from_option is_tombstone true v.

(** Marks the detached nodes from [cur] on. *)
Definition detach_turn (l : loc) (c : vptr * list vptr) : prog (flow (vptr * list vptr) (list vptr)) :=
  let '(cur, unlinked) := c in
  if bool_decide (cur = VNull) then mret (Break unlinked)
  else
    _ ← mark_superseded l cur;
    next ← version_read l cur vn_next;
    mret (Continue (next, unlinked ++ [cur])).

(** Step 2: whether to leave, [None] to trim the chain. *)
Definition prune_dead_key (l : loc) (t head : vptr) (is_tombstone : V → bool) : prog (option (option nat)) :=
  dead_key ← (if bool_decide (t = head) then v ← version_read l t version_value; mret (none_or is_tombstone v)
              else mret false);
  if negb dead_key then mret None
  else
    u ← unlink_leaf l (λ c, h ← head_ptr c; mret (bool_decide (h = t)));
    match u with
    | Unlinked.Done n => mret (Some (Some n))
    | Unlinked.Refused => dead ← chain_is_dead l; mret (Some (if dead : bool then Some 0%nat else None))
    | Unlinked.Missing => mret None
    end.

(** Steps 4 and 5, under the latch. *)
Definition prune_trim (l : loc) (t : vptr) : prog nat :=
  cur ← version_read l t vn_next;
  _ ← set_next l t VNull;
  unlinked ← loop chain_fuel (detach_turn l) (cur, []);
  _ ← chain_unlock l;
  _ ← for_each unlinked (retire_version l);
  mret (length unlinked).

(** [trim] is [prune_trim]. *)
Definition prune_turn (trim : loc → vptr → prog nat) (l : loc) (min_version : Z) (is_tombstone : V → bool) (attempt : nat) : prog (flow nat nat) :=
  if bool_decide (attempt = 64%nat) then mret (Break 0%nat)
  else
    head ← head_ptr l;
    t ← find_le_ptr chain_fuel l head min_version;
    match t with
    | None => mret (Break 0%nat)
    | Some t =>
      d ← prune_dead_key l t head is_tombstone;
      match d with
      | Some (Some n) => mret (Break n)
      | Some None => mret (Continue (S attempt))
      | None =>
        w ← chain_lock l;
        if negb w then mret (Break 0%nat)
        else
          head_now ← head_ptr l;
          t_now ← find_le_ptr chain_fuel l head_now min_version;
          moved ← (if bool_decide (t_now = Some t) then version_read l t is_superseded else mret true);
          if moved : bool then _ ← chain_unlock l; mret (Continue (S attempt))
          else n ← trim l t; mret (Break n)
      end
    end.

Definition prune_leaf (l : loc) (min_version : Z) (is_tombstone : V → bool) : prog nat :=
  loop 65 (prune_turn prune_trim l min_version is_tombstone) 0%nat.

(** ** Whole keys and single versions *)

Definition remove_key_turn (key : list byte) (b : SpinBackoff) : prog (flow SpinBackoff bool) :=
  leaf ← get retries key;
  match leaf with
  | None => mret (Break false)
  | Some leaf =>
    u ← unlink_leaf leaf (λ _, mret true);
    match u with
    | Unlinked.Done _ => mret (Break true)
    | Unlinked.Missing => mret (Break false)
    | Unlinked.Refused => mret (Continue (spin b).2)
    end
  end.

Definition remove_key (key : list byte) : prog bool := loop retries (remove_key_turn key) backoff_new.

Definition only_version (version : Z) (l : loc) : prog bool :=
  h ← head_ptr l;
  v ← version_read l h vn_version;
  if v =? version then next ← version_read l h vn_next; mret (bool_decide (next = VNull)) else mret false.

(** The edit of the chain, under the latch. *)
Definition remove_version_locked (l : loc) (version : Z) (b : SpinBackoff) : prog (flow SpinBackoff bool) :=
  head ← head_ptr l;
  '(prev, cur) ← position_of chain_fuel l version head;
  found ← version_is l cur version;
  if negb found then _ ← chain_unlock l; mret (Break false)
  else
    next ← version_read l cur vn_next;
    if bool_decide (prev = VNull) && bool_decide (next = VNull) then _ ← chain_unlock l; mret (Continue b)
    else
      old_dead ← version_read l head is_tombstone;
      next ← version_read l cur vn_next;
      _ ← link_after l prev next;
      _ ← mark_superseded l cur;
      new_live ← head_live l;
      _ ← len_add (Z.b2z new_live - Z.b2z (negb old_dead));
      _ ← chain_unlock l;
      _ ← retire_version l cur;
      mret (Break true).

Definition remove_version_turn (key : list byte) (version : Z) (b : SpinBackoff) : prog (flow SpinBackoff bool) :=
  leaf ← get retries key;
  match leaf with
  | None => mret (Break false)
  | Some l =>
    only ← only_version version l;
    r ← (if only : bool then
           u ← unlink_leaf l (only_version version);
           match u with
           | Unlinked.Done _ => mret (Some (Break true))
           | Unlinked.Missing => mret (Some (Break false))
           | Unlinked.Refused =>
             dead ← chain_is_dead l;
             mret (if dead : bool then Some (Continue (spin b).2) else None)
           end
         else mret None);
    match r with
    | Some r => mret r
    | None =>
      w ← chain_lock l;
      if negb w then mret (Continue (spin b).2) else remove_version_locked l version b
    end
  end.

Definition remove_version (key : list byte) (version : Z) : prog bool :=
  loop retries (remove_version_turn key version) backoff_new.

(** ** The whole tree *)

Definition vtree_len : prog Z := raw_len.

(** The chains of detached leaves die before they are counted. *)
Definition clear_count (l : loc) : prog Z :=
  w ← chain_lock l;
  if negb w then _ ← debug_assert false; mret 0
  else live ← head_live l; _ ← chain_kill_leaf l; mret (Z.b2z live).

Definition vtree_clear (fuel : nat) : prog unit := clear_counting clear_count fuel.

Definition live_count (l : loc) : prog Z := live ← head_live l; mret (Z.b2z live).

Definition vtree_validate (fuel : nat) : prog Z := validate_counting live_count fuel.

Definition vtree_drop (fuel : nat) : prog unit := destroy fuel.
End vtree.
