(* ===== verification/VMap.v ===== *)
(** * Versioned maps ([src/versioned/map.rs], [entry.rs], [iter.rs])

    [VersionedArtMap] over the versioned tree, its entry handles and its
    iterators. A handle is the location of a leaf and the node that it
    captured; its guard only delays reclamation, and is left out, as are the
    pins: the [*_with_guard] methods coincide with the others. *)

From S2P Require Import Prelude Bytes Latch Slot Bits Node Free Mem Raw Read Write Remove Shrink Walk Cursor Tree Iter Version VTree.
Local Open Scope Z_scope.

Section entry.
Context {X K V : Type} `{LeafSlots X V} `{AsBytes K}.
Context (chain_fuel : nat).
Abbreviation prog := (prog (VersionedLeaf X K V)).

(** ** Entry handles *)

Record VersionedEntryRef := { ve_leaf : loc; ve_node : vptr }.

(** [None] for a tombstone. *)
Definition ventry_new (leaf : loc) (node : vptr) : prog (option VersionedEntryRef) :=
  dead ← version_read leaf node is_tombstone;
  mret (if dead : bool then None else Some {| ve_leaf := leaf; ve_node := node |}).

Definition ventry_key (e : VersionedEntryRef) : prog K := LeafRead (ve_leaf e) vl_key.
Definition ventry_value (e : VersionedEntryRef) : prog V :=
  v ← version_read (ve_leaf e) (ve_node e) version_value; expect v.
Definition ventry_version (e : VersionedEntryRef) : prog Z := version_read (ve_leaf e) (ve_node e) vn_version.
Definition ventry_is_removed (e : VersionedEntryRef) : bool := false.
Definition ventry_is_superseded (e : VersionedEntryRef) : prog bool :=
  s ← version_read (ve_leaf e) (ve_node e) is_superseded;
  if s : bool then mret true else chain_is_dead (ve_leaf e).

Definition ventry_latest (e : VersionedEntryRef) : prog (option VersionedEntryRef) :=
  head ← head_ptr (ve_leaf e); ventry_new (ve_leaf e) head.

(** The version and value of a node, unless it is a tombstone:
    [n.value().map(|v| (n.version, v))]. *)
Definition version_pair (l : loc) (n : vptr) : prog (option (Z * V)) :=
  v ← version_read l n version_value;
  match v with
  | None => mret None
  | Some v => version ← version_read l n vn_version; mret (Some (version, v))
  end.

Definition ventry_get_version_le (e : VersionedEntryRef) (max_version : Z) : prog (option (Z * V)) :=
  head ← head_ptr (ve_leaf e);
  n ← find_le chain_fuel (ve_leaf e) head max_version;
  match n with None => mret None | Some n => version_pair (ve_leaf e) n end.

Definition ventry_clone (e : VersionedEntryRef) : VersionedEntryRef := e.
Definition ventry_deref (e : VersionedEntryRef) : prog V := ventry_value e.
Definition ventry_eq `{EqDecision K} `{EqDecision V} (a b : VersionedEntryRef) : prog bool :=
  ka ← ventry_key a; kb ← ventry_key b;
  if bool_decide (ka = kb) then
    na ← ventry_version a; nb ← ventry_version b;
    if na =? nb then va ← ventry_value a; vb ← ventry_value b; mret (bool_decide (va = vb)) else mret false
  else mret false.
End entry.

(** ** [VersionedArtMap] *)

Section heap.
Context {K V : Type} `{AsBytes K}.
Context (chain_fuel retries : nat).
Abbreviation prog := (prog (HeapLeaf K V)).

Definition vmap_new (stripe : nat) : RawTree (HeapLeaf K V) HeapStorage := new_in Build_HeapStorage stripe.
Definition vmap_with_capacity (capacity : Z) (stripe : nat) : RawTree (HeapLeaf K V) HeapStorage := vmap_new stripe.

Definition vmap_insert (key : K) (version : Z) (value : V) : prog bool :=
  _ ← vtree_insert chain_fuel retries key version (Some value); mret true.
Definition vmap_insert_with_guard (key : K) (version : Z) (value : V) : prog bool :=
  _ ← vtree_insert chain_fuel retries key version (Some value); mret true.
Definition vmap_insert_versioned (key : K) (version : Z) (value : V) : prog bool := vmap_insert key version value.

Definition vmap_delete (key : K) (version : Z) : prog bool :=
  delta ← vtree_insert chain_fuel retries key version None; mret (delta <? 0).

Definition vmap_remove (key : list byte) : prog (option VersionedEntryRef) :=
  o ← remove_head retries key;
  match o with None => mret None | Some (leaf, old) => ventry_new leaf old end.
End heap.

Section vmap.
Context {X K V : Type} `{LeafSlots X V} `{AsBytes K}.
Context (chain_fuel retries fuel : nat).
Abbreviation prog := (prog (VersionedLeaf X K V)).

Definition vmap_len : prog Z := vtree_len.
Definition vmap_is_empty : prog bool := n ← vmap_len; mret (n =? 0).

(** What follows a lookup of the key. *)
Definition on_leaf {A} (key : list byte) (absent : A) (f : loc → prog A) : prog A :=
  leaf ← get retries key; match leaf with None => mret absent | Some l => f l end.

Definition vmap_get_slice (key : list byte) : prog (option V) :=
  on_leaf key None (λ l, head ← head_ptr l; version_read l head version_value).
Definition vmap_get_by_slice (key : list byte) : prog (option V) := vmap_get_slice key.

Definition vmap_get_latest (key : list byte) : prog (option (Z * V)) :=
  on_leaf key None (λ l, head ← head_ptr l; version_pair l head).
Definition vmap_get (key : list byte) : prog (option V) := p ← vmap_get_latest key; mret (option_map snd p).

Definition vmap_get_entry (key : list byte) : prog (option VersionedEntryRef) :=
  on_leaf key None (λ l, head ← head_ptr l; ventry_new l head).

Definition vmap_version_le (key : list byte) (max : Z) : prog (option (Z * V)) :=
  on_leaf key None (λ l,
    head ← head_ptr l;
    n ← find_le chain_fuel l head max;
    match n with None => mret None | Some n => version_pair l n end).
Definition vmap_get_version_le (key : list byte) (max : Z) : prog (option (Z * V)) := vmap_version_le key max.
Definition vmap_get_version_le_with_guard (key : list byte) (max : Z) : prog (option (Z * V)) := vmap_version_le key max.

Definition vmap_contains_key (key : list byte) : prog bool := on_leaf key false head_live.

Definition vmap_remove_key (key : list byte) : prog bool := remove_key chain_fuel retries key.
Definition vmap_remove_version (key : list byte) (version : Z) : prog bool := remove_version chain_fuel retries key version.

Definition vmap_clear : prog unit := vtree_clear fuel.
Definition vmap_shrink_to_fit : prog unit := shrink_to_fit fuel.
Definition vmap_validate_invariants : prog unit := _ ← vtree_validate fuel; mret tt.

Definition vmap_version_count (key : list byte) : prog nat :=
  on_leaf key 0%nat (λ l, head ← head_ptr l; ns ← chain chain_fuel l head (λ _, tt); mret (length ns)).
Definition vmap_get_all_versions (key : list byte) : prog (list (Z * option V)) :=
  on_leaf key [] (λ l, head ← head_ptr l; chain chain_fuel l head (λ n, (vn_version n, version_value n))).

Definition vmap_prune_key (key : list byte) (min_version : Z) (is_tombstone : V → bool) : prog nat :=
  on_leaf key 0%nat (λ l, prune_leaf chain_fuel retries l min_version is_tombstone).

(** One turn of the loop of [prune_all]: the cursor, the total, the leaves seen. *)
Definition prune_all_turn (min_version : Z) (is_tombstone : V → bool) (c : CursorState * nat * nat)
    : prog (flow (CursorState * nat * nat) nat) :=
  let '(cursor, total, n) := c in
  '(leaf, cursor) ← next fuel cursor;
  match leaf with
  | None => mret (Break total)
  | Some l =>
    pruned ← prune_leaf chain_fuel retries l min_version is_tombstone;
    let n := S n in
    cursor ← (if bool_decide (n `mod` 1024 = 0)%nat then invalidate cursor else mret cursor);
    mret (Continue (cursor, total + pruned, n)%nat)
  end.

Definition vmap_prune_all (min_version : Z) (is_tombstone : V → bool) : prog nat :=
  loop fuel (prune_all_turn min_version is_tombstone) (cursor_new Unbounded Unbounded, 0%nat, 0%nat).

(** ** Iterators *)

Record VRange := { vr_cursor : CursorState }.

Definition vrange_owned (start end_ : Bound KeyBuf) : VRange := {| vr_cursor := cursor_new start end_ |}.
Definition vrange_borrowed (start end_ : Bound KeyBuf) : VRange := {| vr_cursor := cursor_new start end_ |}.

(** One turn of the loop that skips tombstones. *)
Definition vrange_turn (dir : Dir) (c : CursorState)
    : prog (flow CursorState (option VersionedEntryRef * VRange)) :=
  '(leaf, c) ← match dir with Forward => next fuel c | Backward => next_back fuel c end;
  match leaf with
  | None => mret (Break (None, {| vr_cursor := c |}))
  | Some l =>
    head ← head_ptr l;
    dead ← version_read l head is_tombstone;
    if dead : bool then mret (Continue c)
    else mret (Break (Some {| ve_leaf := l; ve_node := head |}, {| vr_cursor := c |}))
  end.

Definition vrange_next (r : VRange) : prog (option VersionedEntryRef * VRange) :=
  loop fuel (vrange_turn Forward) (vr_cursor r).
Definition vrange_next_back (r : VRange) : prog (option VersionedEntryRef * VRange) :=
  loop fuel (vrange_turn Backward) (vr_cursor r).

Definition vmap_range {Q} `{AsBytes Q} (start end_ : Bound Q) : VRange :=
  vrange_owned (owned_bound_of start) (owned_bound_of end_).
Definition vmap_range_with_guard {Q} `{AsBytes Q} (start end_ : Bound Q) : VRange :=
  vrange_borrowed (owned_bound_of start) (owned_bound_of end_).
Definition vmap_iter : VRange := vrange_owned Unbounded Unbounded.
Definition vmap_iter_with_guard : VRange := vrange_borrowed Unbounded Unbounded.
Definition vmap_into_iter : VRange := vmap_iter.

Definition vscan_turn {S} (callback : K → V → Z → S → bool * S) (c : VRange * S) : prog (flow (VRange * S) S) :=
  let '(r, st) := c in
  '(e, r) ← vrange_next r;
  match e with
  | None => mret (Break st)
  | Some e =>
    k ← ventry_key e;
    v ← ventry_value e;
    version ← ventry_version e;
    let '(go_on, st) := callback k v version st in
    if go_on : bool then mret (Continue (r, st)) else mret (Break st)
  end.

Definition vmap_scan {Q S} `{AsBytes Q} (start end_ : Bound Q) (callback : K → V → Z → S → bool * S) (st : S) : prog S :=
  loop fuel (vscan_turn callback) (vmap_range_with_guard start end_, st).
End vmap.
