(* ===== verification/AVTree.v ===== *)
(** * The tree of a versioned arena map ([src/arena/versioned_tree.rs])

    The core tree over leaves in an arena, and the protocol of their version
    chains. A version node is allocated before any latch is taken, and is the
    inserter's own until [av_apply] or a new leaf publishes it: the model hands
    it on as a value, and it enters the memory of a leaf when it is linked
    there. What creates no version node is the same code as in the tree on the
    heap: [VTree.v].

    [leaf_layout] and [version_layout] are the layouts of [VersionedLeaf<K, V>]
    and [VersionNode<V>]. *)

From S2P Require Import Prelude Bytes Latch Slot Bits Node Free Mem Raw Read Write Remove Walk Tree Version VTree Arena ANode AStorage ATree.
Local Open Scope Z_scope.

Section avtree.
Context {K V : Type} `{AsBytes K}.
Context (leaf_layout version_layout : AllocLayout) (chain_fuel retries : nat).
Abbreviation prog := (prog (AVLeaf K V)).
Abbreviation node := (VersionNode V).

Definition avtree_new (storage : ArenaStorage) (stripe : nat) : RawTree (AVLeaf K V) ArenaStorage := new_in storage stripe.

Definition avtree_len : prog Z := raw_len.

(** ** Walks along a chain *)

Definition av_find_le (l : loc) (head : vptr) (max : Z) : prog (option vptr) := find_le chain_fuel l head max.
Definition av_find_le_off (l : loc) (head : vptr) (max : Z) : prog (option vptr) := find_le_ptr chain_fuel l head max.
Definition av_chain {A} (l : loc) (head : vptr) (f : node → A) : prog (list A) := chain chain_fuel l head f.

(** [at(p).is_some_and(|n| !n.is_tombstone())]. *)
Definition live_at (l : loc) (p : vptr) : prog bool :=
  if bool_decide (p = VNull) then mret false else dead ← version_read l p is_tombstone; mret (negb dead).

(** ** Version nodes *)

(** The node, or the value back. *)
Definition av_alloc_version (version : Z) (value : option V) : prog (node + option V) :=
  let n := version_new version value false in
  off ← trigger (AllocBytes (al_size version_layout) (al_align version_layout));
  match off with Some _ => mret (inl n) | None => mret (inr (version_value n)) end.

(** The node becomes one of the leaf's. *)
Definition av_attach (l : loc) (n : node) : prog vptr :=
  trigger (LeafLatch l (λ x, let i := fresh (dom (vl_heap x)) in
    Some (VHeap i, vl_set_heap (<[i := n]> (vl_heap x)) (vl_retired x) x))).

(** An unlinked node is retired: it stays with its leaf, marked. The list of the
    tree that it goes on is that of [Retired.v]. *)
Definition av_retire_version (l : loc) (p : vptr) : prog unit := retire_version l p.

(** ** Inserts *)

(** [None]: the chain is dead, and nothing was written. *)
Definition av_apply (l : loc) (new : node) : prog (option Z) :=
  w ← chain_lock l;
  if negb w then mret None
  else
    head ← head_ptr l;
    old_live ← live_at l head;
    '(prev, cur) ← position_of chain_fuel l (vn_version new) head;
    replaced ← version_is l cur (vn_version new);
    next ← (if replaced : bool then version_read l cur vn_next else mret cur);
    node ← av_attach l (store_next next new);
    _ ← link_after l prev node;
    _ ← (if replaced : bool then mark_superseded l cur else mret tt);
    head ← head_ptr l;
    new_live ← live_at l head;
    let delta := Z.b2z new_live - Z.b2z old_live in
    _ ← len_add delta;
    _ ← chain_unlock l;
    _ ← (if replaced : bool then av_retire_version l cur else mret tt);
    mret (Some delta).

(** The node that an insert made, or makes now. *)
Definition the_node (version : Z) (value : option V) (made : option node) : prog (node + option V) :=
  match made with Some n => mret (inl n) | None => av_alloc_version version value end.

(** The fast path: the result, [None] if there is no such key, and the node. *)
Definition av_fast_turn (key : list byte) (version : Z) (value : option V) (c : SpinBackoff * option node)
    : prog (flow (SpinBackoff * option node) (option (Z + option V) * SpinBackoff * option node)) :=
  let '(b, made) := c in
  leaf ← get retries key;
  match leaf with
  | None => mret (Break (None, b, made))
  | Some l =>
    n ← the_node version value made;
    match n with
    | inr v => mret (Break (Some (inr v), b, None))
    | inl n =>
      d ← av_apply l n;
      match d with
      | Some delta => mret (Break (Some (inl delta), b, None))
      | None => mret (Continue ((spin b).2, Some n))
      end
    end
  end.

(** The change in the number of live keys, or the key and value back. *)
Abbreviation result := (Z + K * option V)%type.

(** One turn with a new leaf of its own. *)
Definition av_slow_turn (leaf : loc) (key_bytes : list byte) (count : Z) (node : node) (cache : option InserterCache) (b : SpinBackoff)
    : prog (flow SpinBackoff (result * option InserterCache)) :=
  '(r, hint) ← insert_hinted retries leaf key_bytes InsertIfAbsent count None;
  match r with
  | Some (Inserted _) => _ ← owner_drop leaf; mret (Break (inl count, cache_remember hint key_bytes <$> cache))
  | Some (Existing existing) =>
    d ← av_apply existing node;
    match d with
    | Some delta =>
      _ ← trigger (LeafWrite leaf (λ x, Some (av_detach_head_unpublished x)));
      _ ← owner_drop leaf;
      mret (Break (inl delta, cache))
    | None => mret (Continue (spin b).2)
    end
  | Some (Replaced _) => Panic
  | None =>
    _ ← owner_disarm leaf;
    l ← leaf_take leaf;
    _ ← owner_drop leaf;
    mret (Break (inr (vl_key l, version_value node), cache))
  end.

(** The rounds for a new leaf of the insert's own. *)
Definition av_link_new (leaf : loc) (key_bytes : list byte) (count : Z) (node : node) (cache : option InserterCache) (b : SpinBackoff)
    : prog (result * option InserterCache) :=
  '(fast, cache) ← match cache with
                   | Some c => '(r, c) ← try_fast c leaf key_bytes count; mret (r, Some c)
                   | None => mret (None, None)
                   end;
  match fast with
  | Some (Inserted _) => _ ← owner_drop leaf; mret (inl count, cache)
  | Some _ => Panic
  | None => loop retries (av_slow_turn leaf key_bytes count node cache) b
  end.

(** The insert of a key that the fast path did not find. *)
Definition av_insert_new (key : K) (node : node) (cache : option InserterCache) (b : SpinBackoff)
    : prog (result * option InserterCache) :=
  let count := Z.b2z (negb (is_tombstone node)) in
  leaf ← alloc_value leaf_layout (avleaf_new key node);
  match leaf with
  | None => mret (inr (key, version_value node), cache)
  | Some leaf =>
    _ ← owner_new leaf;
    key_bytes ← leaf_key leaf;
    av_link_new leaf key_bytes count node cache b
  end.

Definition avtree_insert (key : K) (version : Z) (value : option V) (cache : option InserterCache)
    : prog (result * option InserterCache) :=
  '(fast, b, made) ← loop retries (av_fast_turn (as_bytes key) version value) (backoff_new, None);
  match fast with
  | Some (inl delta) => mret (inl delta, cache)
  | Some (inr v) => mret (inr (key, v), cache)
  | None =>
    n ← the_node version value made;
    match n with
    | inr v => mret (inr (key, v), cache)
    | inl n => av_insert_new key n cache b
    end
  end.

(** ** The replacement of the head *)

(** [tomb] with the version and the link of the head. *)
Definition tomb_for (version : Z) (next : vptr) (tomb : node) : node :=
  store_next next {| vn_version := version; vn_next := vn_next tomb; vn_flags := vn_flags tomb; vn_value := vn_value tomb |}.

Definition av_remove_head_locked (l : loc) (tomb : node) : prog (option (loc * vptr)) :=
  head ← head_ptr l;
  dead ← version_read l head is_tombstone;
  if dead : bool then _ ← chain_unlock l; mret None
  else
    version ← version_read l head vn_version;
    next ← version_read l head vn_next;
    tomb ← av_attach l (tomb_for version next tomb);
    _ ← set_head l tomb;
    _ ← mark_superseded l head;
    _ ← len_add (-1);
    _ ← chain_unlock l;
    _ ← av_retire_version l head;
    mret (Some (l, head)).

Definition av_remove_head_turn (key : list byte) (tomb : node) (b : SpinBackoff) : prog (flow SpinBackoff (option (loc * vptr))) :=
  leaf ← get retries key;
  match leaf with
  | None => mret (Break None)
  | Some l =>
    w ← chain_lock l;
    if negb w then mret (Continue (spin b).2) else r ← av_remove_head_locked l tomb; mret (Break r)
  end.

(** [inr]: the tombstone did not fit. *)
Definition av_remove_head (key : list byte) : prog (option (loc * vptr) + unit) :=
  leaf ← get retries key;
  match leaf with
  | None => mret (inl None)
  | Some _ =>
    tomb ← av_alloc_version 0 None;
    match tomb with
    | inr _ => mret (inr tt)
    | inl tomb => r ← loop retries (av_remove_head_turn key tomb) backoff_new; mret (inl r)
    end
  end.

(** ** Unlinking and pruning *)

Definition av_unlink_leaf (leaf : loc) (check : loc → prog bool) : prog Unlinked.t := unlink_leaf chain_fuel retries leaf check.

(** Marks the detached nodes from [cur] on, and counts them. *)
Definition av_detach_turn (l : loc) (c : vptr * nat) : prog (flow (vptr * nat) nat) :=
  let '(cur, count) := c in
  if bool_decide (cur = VNull) then mret (Break count)
  else
    _ ← mark_superseded l cur;
    next ← version_read l cur vn_next;
    mret (Continue (next, S count)).

(** Retires them, along the same links. *)
Definition av_retire_turn (l : loc) (cur : vptr) : prog (flow vptr unit) :=
  if bool_decide (cur = VNull) then mret (Break tt)
  else
    next ← version_read l cur vn_next;
    _ ← av_retire_version l cur;
    mret (Continue next).

(** Steps 4 and 5, under the latch. *)
Definition av_prune_trim (l : loc) (t : vptr) : prog nat :=
  first ← version_read l t vn_next;
  _ ← set_next l t VNull;
  count ← loop chain_fuel (av_detach_turn l) (first, 0%nat);
  _ ← chain_unlock l;
  _ ← loop chain_fuel (av_retire_turn l) first;
  mret count.

Definition av_prune_leaf (l : loc) (min_version : Z) (is_tombstone : V → bool) : prog nat :=
  loop 65 (prune_turn chain_fuel retries av_prune_trim l min_version is_tombstone) 0%nat.

(** ** Whole keys, single versions, the whole tree *)

Definition av_remove_key (key : list byte) : prog bool := remove_key chain_fuel retries key.
Definition av_remove_version (key : list byte) (version : Z) : prog bool := remove_version chain_fuel retries key version.
Definition avtree_clear (fuel : nat) : prog unit := vtree_clear fuel.
Definition avtree_validate (fuel : nat) : prog Z := vtree_validate fuel.

(** The live leaves with their chains; the retired versions then go as in
    [Retired.drop_versions], and the retired leaves with the storage. *)
Definition avtree_drop (needs_drop : bool) (fuel : nat) : prog unit := if needs_drop then destroy fuel else mret tt.
End avtree.
