(* ===== verification/AVMap.v ===== *)
(** * The versioned arena map and its iterators ([src/arena/versioned_map.rs],
    [src/arena/versioned_iter.rs])

    [ArenaVersionedArtMap], its inserters, the handles on captured versions and
    its range iterator, over the tree of [AVTree.v]. A handle is a leaf and a
    node of it, as on the heap ([VMap.v]), and what only reads is the same code:
    nothing of an arena is freed while its map is borrowed. *)

From S2P Require Import Prelude Bytes Latch Slot Bits Node Free Mem Raw Read Write Remove Walk Cursor Tree Iter Version VTree VMap Arena ANode AStorage ATree AMap AVTree.
Local Open Scope Z_scope.

(** ** [max_insert_bytes] *)

Definition avmap_max_insert_bytes (leaf_layout version_layout : AllocLayout) (key_len : nat) : Z :=
  let version := pad (al_size version_layout) (al_align version_layout) in
  let leaf := pad (al_size leaf_layout) (al_align leaf_layout) in
  let node4s := Z.of_nat key_len / (Z.of_nat MAX_PREFIX_LEN + 1) + 2 in
  let node ty := pad (al_size (node_layout slot32 ty)) 8 in
  version + leaf + node4s * node Node4 + node Node16 + node Node48 + node Node256.

Section avmap.
Context {K V : Type} `{AsBytes K}.
Context (leaf_layout version_layout : AllocLayout) (chain_fuel retries : nat).
Abbreviation prog := (prog (AVLeaf K V)).

(** ** [ArenaVersionedEntryRef] *)

(** [None] for a tombstone. *)
Definition aventry_new (leaf : loc) (node : vptr) : prog (option VersionedEntryRef) := ventry_new leaf node.
Definition aventry_key (e : VersionedEntryRef) : prog K := ventry_key e.
Definition aventry_value (e : VersionedEntryRef) : prog V := ventry_value e.
Definition aventry_version (e : VersionedEntryRef) : prog Z := ventry_version e.
Definition aventry_is_removed (e : VersionedEntryRef) : bool := false.
Definition aventry_is_superseded (e : VersionedEntryRef) : prog bool := ventry_is_superseded e.

(** The versions from the captured one on. *)
Definition aventry_versions (e : VersionedEntryRef) : prog (list (Z * option V)) :=
  av_chain chain_fuel (ve_leaf e) (ve_node e) (λ n, (vn_version n, version_value n)).
Definition aventry_get_version_le (e : VersionedEntryRef) (max_version : Z) : prog (option (Z * V)) :=
  head ← head_ptr (ve_leaf e);
  n ← av_find_le chain_fuel (ve_leaf e) head max_version;
  match n with None => mret None | Some n => version_pair (ve_leaf e) n end.
Definition aventry_latest (e : VersionedEntryRef) : prog (option VersionedEntryRef) :=
  head ← head_ptr (ve_leaf e); aventry_new (ve_leaf e) head.
Definition aventry_deref (e : VersionedEntryRef) : prog V := aventry_value e.
Definition aventry_eq `{EqDecision K} `{EqDecision V} (a b : VersionedEntryRef) : prog bool := ventry_eq a b.

(** ** [ArenaVersionedRange] *)

Definition avrange_new (start end_ : Bound KeyBuf) : VRange := {| vr_cursor := cursor_new start end_ |}.

Definition avrange_entry (leaf : loc) : prog (option VersionedEntryRef) := head ← head_ptr leaf; aventry_new leaf head.

Definition avrange_turn (fuel : nat) (dir : Dir) (c : CursorState) : prog (flow CursorState (option VersionedEntryRef * VRange)) :=
  '(leaf, c) ← match dir with Forward => next fuel c | Backward => next_back fuel c end;
  match leaf with
  | None => mret (Break (None, {| vr_cursor := c |}))
  | Some l =>
    e ← avrange_entry l;
    match e with
    | Some e => mret (Break (Some e, {| vr_cursor := c |}))
    | None => mret (Continue c)
    end
  end.
Definition avrange_next (fuel : nat) (r : VRange) : prog (option VersionedEntryRef * VRange) :=
  loop fuel (avrange_turn fuel Forward) (vr_cursor r).
Definition avrange_next_back (fuel : nat) (r : VRange) : prog (option VersionedEntryRef * VRange) :=
  loop fuel (avrange_turn fuel Backward) (vr_cursor r).

(** ** [ArenaVersionedArtMap] *)

Definition avmap_new (storage : ArenaStorage) (stripe : nat) : RawTree (AVLeaf K V) ArenaStorage := avtree_new storage stripe.

Definition avmap_with_capacity (id raw_address capacity : Z) (tls : option (list Tlab.Slot)) (stripe : nat)
    : option (RawTree (AVLeaf K V) ArenaStorage) :=
  arena ← arena_new id raw_address capacity;
  storage ← storage_new arena tls;
  Some (avmap_new storage stripe).

Definition avmap_len : prog Z := avtree_len.
Definition avmap_is_empty : prog bool := n ← avmap_len; mret (n =? 0).

Definition avmap_entry_for (key : list byte) : prog (option VersionedEntryRef) :=
  on_leaf retries key None (λ leaf, head ← head_ptr leaf; aventry_new leaf head).

Definition avmap_get_slice (key : list byte) : prog (option V) :=
  e ← avmap_entry_for key;
  match e with None => mret None | Some e => v ← aventry_value e; mret (Some v) end.
Definition avmap_get_by_slice (key : list byte) : prog (option V) := avmap_get_slice key.
Definition avmap_get_latest (key : list byte) : prog (option (Z * V)) :=
  e ← avmap_entry_for key;
  match e with
  | None => mret None
  | Some e => version ← aventry_version e; v ← aventry_value e; mret (Some (version, v))
  end.
Definition avmap_get (key : list byte) : prog (option V) := p ← avmap_get_latest key; mret (option_map snd p).
Definition avmap_get_entry (key : list byte) : prog (option VersionedEntryRef) := avmap_entry_for key.
Definition avmap_get_version_le (key : list byte) (max_version : Z) : prog (option (Z * V)) :=
  on_leaf retries key None (λ l,
    head ← head_ptr l;
    n ← av_find_le chain_fuel l head max_version;
    match n with None => mret None | Some n => version_pair l n end).
Definition avmap_get_all_versions (key : list byte) : prog (list (Z * option V)) :=
  on_leaf retries key [] (λ l, head ← head_ptr l; av_chain chain_fuel l head (λ n, (vn_version n, version_value n))).
Definition avmap_version_count (key : list byte) : prog nat :=
  on_leaf retries key 0%nat (λ l, head ← head_ptr l; ns ← av_chain chain_fuel l head (λ _, tt); mret (length ns)).
Definition avmap_contains_key (key : list byte) : prog bool :=
  e ← avmap_entry_for key; mret (bool_decide (is_Some e)).

(** The key and value of a refused insert. *)
Definition full_of (r : Z + K * option V) : prog (unit + ArenaFull K V) :=
  match r with
  | inl _ => mret (inl tt)
  | inr (key, value) => value ← expect value; mret (inr {| af_key := key; af_value := value |})
  end.
Definition avmap_try_insert (key : K) (version : Z) (value : V) : prog (unit + ArenaFull K V) :=
  '(r, _) ← avtree_insert leaf_layout version_layout chain_fuel retries key version (Some value) None; full_of r.
Definition avmap_insert (key : K) (version : Z) (value : V) : prog bool :=
  r ← avmap_try_insert key version value;
  match r with inl _ => mret true | inr _ => Panic end.
Definition avmap_insert_versioned (key : K) (version : Z) (value : V) : prog bool := avmap_insert key version value.

Definition avmap_delete (key : K) (version : Z) : prog bool :=
  '(r, _) ← avtree_insert leaf_layout version_layout chain_fuel retries key version None None;
  match r with inl delta => mret (delta <? 0) | inr _ => Panic end.

Definition avmap_remove (key : list byte) : prog (option VersionedEntryRef) :=
  r ← av_remove_head version_layout retries key;
  match r with
  | inl None => mret None
  | inl (Some (leaf, old)) => aventry_new leaf old
  | inr _ => Panic
  end.

Definition avmap_prune_key (key : list byte) (min_version : Z) (is_tombstone : V → bool) : prog nat :=
  on_leaf retries key 0%nat (λ l, av_prune_leaf chain_fuel retries l min_version is_tombstone).

Definition avprune_all_turn (fuel : nat) (min_version : Z) (is_tombstone : V → bool) (c : CursorState * nat)
    : prog (flow (CursorState * nat) nat) :=
  let '(cursor, total) := c in
  '(leaf, cursor) ← next fuel cursor;
  match leaf with
  | None => mret (Break total)
  | Some l => pruned ← av_prune_leaf chain_fuel retries l min_version is_tombstone; mret (Continue (cursor, total + pruned)%nat)
  end.
Definition avmap_prune_all (fuel : nat) (min_version : Z) (is_tombstone : V → bool) : prog nat :=
  loop fuel (avprune_all_turn fuel min_version is_tombstone) (cursor_new Unbounded Unbounded, 0%nat).

Definition avmap_remove_key (key : list byte) : prog bool := av_remove_key chain_fuel retries key.
Definition avmap_remove_version (key : list byte) (version : Z) : prog bool := av_remove_version chain_fuel retries key version.
Definition avmap_clear (fuel : nat) : prog unit := avtree_clear fuel.
Definition avmap_validate_invariants (fuel : nat) : prog unit := _ ← avtree_validate fuel; mret tt.

(** ** Ordered access *)

Definition avmap_range {Q} `{AsBytes Q} (start end_ : Bound Q) : VRange :=
  avrange_new (owned_bound_of start) (owned_bound_of end_).
Definition avmap_iter : VRange := avrange_new Unbounded Unbounded.
Definition avmap_into_iter : VRange := avmap_iter.

(** The bound at [search_key]. *)
Definition search_bound (search_key : list byte) (include_equal : bool) : Bound KeyBuf :=
  if include_equal then Included (keybuf_new search_key) else Excluded (keybuf_new search_key).

Definition avmap_find_successor (fuel : nat) (search_key : list byte) (include_equal : bool) : prog (option VersionedEntryRef) :=
  '(e, _) ← avrange_next fuel (avrange_new (search_bound search_key include_equal) Unbounded); mret e.
Definition avmap_find_predecessor (fuel : nat) (search_key : list byte) (include_equal : bool) : prog (option VersionedEntryRef) :=
  '(e, _) ← avrange_next_back fuel (avrange_new Unbounded (search_bound search_key include_equal)); mret e.
Definition avmap_first_entry (fuel : nat) : prog (option VersionedEntryRef) := '(e, _) ← avrange_next fuel avmap_iter; mret e.
Definition avmap_last_entry (fuel : nat) : prog (option VersionedEntryRef) := '(e, _) ← avrange_next_back fuel avmap_iter; mret e.

Definition avscan_turn {S} (fuel : nat) (callback : K → V → Z → S → bool * S) (c : VRange * S) : prog (flow (VRange * S) S) :=
  let '(r, st) := c in
  '(e, r) ← avrange_next fuel r;
  match e with
  | None => mret (Break st)
  | Some e =>
    k ← aventry_key e;
    v ← aventry_value e;
    version ← aventry_version e;
    let '(go_on, st) := callback k v version st in
    if go_on : bool then mret (Continue (r, st)) else mret (Break st)
  end.
Definition avmap_scan {Q S} `{AsBytes Q} (fuel : nat) (start end_ : Bound Q) (callback : K → V → Z → S → bool * S) (st : S) : prog S :=
  loop fuel (avscan_turn fuel callback) (avmap_range start end_, st).

(** ** [ArenaVersionedInserter] *)

Record ArenaVersionedInserter := { avin_cache : InserterCache }.

Definition avmap_inserter : ArenaVersionedInserter := {| avin_cache := cache_new |}.

Definition avinserter_try_insert (ins : ArenaVersionedInserter) (key : K) (version : Z) (value : V)
    : prog ((unit + ArenaFull K V) * ArenaVersionedInserter) :=
  '(r, c) ← avtree_insert leaf_layout version_layout chain_fuel retries key version (Some value) (Some (avin_cache ins));
  c ← expect c;
  r ← full_of r;
  mret (r, {| avin_cache := c |}).
Definition avinserter_insert (ins : ArenaVersionedInserter) (key : K) (version : Z) (value : V)
    : prog (bool * ArenaVersionedInserter) :=
  '(r, ins) ← avinserter_try_insert ins key version value;
  match r with inl _ => mret (true, ins) | inr _ => Panic end.
End avmap.
