(* ===== verification/VersionSpec.v ===== *)
(** * What a versioned leaf holds

    [chain_inv x c fresh gone]: the chain of the leaf [x] is [c], a list of
    nodes with their version and value, newest first; [fresh] are nodes made
    but not linked, or unlinked but not marked, and [gone] those marked and not
    yet retired. At rest both are empty: [leaf_ok]. The rules keep the
    invariant from one access of a chain operation to the next. *)

From stdpp Require Import sorting.
From S2P Require Import Prelude Bytes Latch Slot Bits Node Free Mem Shape Raw Inv Rules Tree Version VTree.
Local Open Scope Z_scope.

(** ** Histories

    What a chain says: versions with their values, newest first. *)

Section history.
Context {V : Type}.
Abbreviation entry := (Z * option V)%type.
Implicit Types h : list entry.

Definition newer (a b : entry) : Prop := b.1 < a.1.

Definition h_le (max : Z) h : option entry := head (filter (λ d, d.1 <= max) h).
Definition h_insert (v : Z) (o : option V) h : list entry :=
  filter (λ d, v < d.1) h ++ (v, o) :: filter (λ d, d.1 < v) h.
Definition h_remove (v : Z) h : list entry := filter (λ d, d.1 ≠ v) h.
Definition h_live h : bool := match h with (_, Some _) :: _ => true | _ => false end.

(** The newest version at most [min], and what is newer. *)
Definition h_trim (min : Z) h : list entry :=
  filter (λ d, min < d.1) h ++ from_option (λ d, [d]) [] (h_le min h).

(** [None]: the key goes with all its versions. *)
Definition h_prune (min : Z) (is_tombstone : V → bool) h : option (list entry) :=
  match h with
  | d :: _ => if bool_decide (d.1 <= min) && none_or is_tombstone d.2 then None else Some (h_trim min h)
  | [] => Some []
  end.
End history.

(** ** Nodes *)

Definition is_slot (p : vptr) : bool := match p with VSlot0 | VSlot1 => true | _ => false end.

Section node.
Context {V : Type}.
Implicit Types n : VersionNode V.

Definition data n : Z * option V := (vn_version n, vn_value n).
Definition flags_of (value : option V) (inline sup : bool) : Z :=
  Z.lor (Z.lor (if decide (is_Some value) then 0 else TOMBSTONE) (if inline then INLINE else 0))
        (if sup then SUPERSEDED else 0).

Lemma flags_tombstone n i b : vn_flags n = flags_of (vn_value n) i b →
  is_tombstone n = negb (bool_decide (is_Some (vn_value n))).
Proof. unfold is_tombstone. intros ->. by destruct (vn_value n), i, b. Qed.

Lemma flags_inline n i b : vn_flags n = flags_of (vn_value n) i b → is_inline n = i.
Proof. unfold is_inline. intros ->. by destruct (vn_value n), i, b. Qed.

Lemma flags_superseded n i b : vn_flags n = flags_of (vn_value n) i b → is_superseded n = b.
Proof. unfold is_superseded. intros ->. by destruct (vn_value n), i, b. Qed.

Lemma flags_value n i b : vn_flags n = flags_of (vn_value n) i b → version_value n = vn_value n.
Proof. intros E. unfold version_value. rewrite (flags_tombstone n i b E). by destruct (vn_value n). Qed.

Lemma flags_mark value i b : Z.lor (flags_of value i b) SUPERSEDED = flags_of value i true.
Proof. by destruct value, i, b. Qed.

Lemma flags_new version value inline : vn_flags (version_new version value inline) = flags_of value inline false.
Proof. by destruct value, inline. Qed.
End node.

(** ** Slots *)

Class SlotsLaws (X V : Type) `{LeafSlots X V} := {
  slots_ok : X → Prop;
  slot_get_put (sl : X) p q n : is_slot p = true → is_Some (slot_get p sl) →
    slot_get q (slot_put p n sl) = if decide (q = p) then Some n else slot_get q sl;
  slots_ok_put sl p n : slots_ok sl → is_slot p = true → is_Some (slot_get p sl) → slots_ok (slot_put p n sl);
  no_slots (sl : X) p : has_slots (X := X) (V := V) = false → is_slot p = true → slot_get p sl = None;
}.

(** The first slot is never empty; the mask says which ones are not. *)
#[export] Program Instance heap_slots_laws {V} : SlotsLaws (HeapSlots V) V := {
  slots_ok sl := is_Some (slot0 sl) ∧
    (slots_init sl = SLOT0 ∧ slot1 sl = None ∨ slots_init sl = Z.lor SLOT0 SLOT1 ∧ is_Some (slot1 sl));
}.
Next Obligation. intros V sl p q n Hp _. destruct p, q; done. Qed.
Next Obligation.
  intros V sl p n [H0 H1] Hp Hs. destruct p; try done; cbn in *.
  split; [done|]. destruct H1 as [[_ E]|[E _]]; [rewrite E in Hs; by destruct Hs|right; split; [done|by eexists]].
Qed.
Next Obligation. done. Qed.

(** ** Chains *)

Section chain.
Context {SL K V : Type} `{SlotsLaws SL V}.
Abbreviation leaf := (VersionedLeaf SL K V).
Abbreviation chain := (list (vptr * (Z * option V))).
Implicit Types (x : leaf) (c : chain).

(** The links from [p] lead through [c] to [r]. *)
Fixpoint seg x (p : vptr) c (r : vptr) : Prop :=
  match c with
  | [] => p = r
  | (q, d) :: c => p = q ∧ ∃ n, vl_deref x q = Some n ∧ data n = d ∧ seg x (vn_next n) c r
  end.

Definition start_of c : vptr := from_option fst VNull (head c).
Definition last_of c : vptr := from_option fst VNull (last c).

Lemma seg_app x p c1 c2 r : seg x p (c1 ++ c2) r ↔ ∃ q, seg x p c1 q ∧ seg x q c2 r.
Proof.
  revert p. induction c1 as [|[q d] c1 IH]; intros p; cbn.
  - naive_solver.
  - setoid_rewrite IH. naive_solver.
Qed.

Lemma seg_start x p c : seg x p c VNull → p = start_of c.
Proof. destruct c as [|[q d] c]; [done|]. by intros [-> _]. Qed.

(** Other nodes do not matter, nor do flags. *)
Lemma seg_frame x x' p c r :
  (∀ q n, q ∈ c.*1 → vl_deref x q = Some n → ∃ n', vl_deref x' q = Some n' ∧ data n' = data n ∧ vn_next n' = vn_next n) →
  seg x p c r → seg x' p c r.
Proof.
  revert p. induction c as [|[q d] c IH]; intros p HF; [done|]. intros (-> & n & Hn & <- & Hc). split; [done|].
  destruct (HF q n ltac:(by left) Hn) as (n' & Hn' & <- & E). exists n'. split_and!; [done..|].
  rewrite E. apply IH; [|done]. intros q' ? Hq'. apply HF. by right.
Qed.

(** The last node leads elsewhere. *)
Lemma seg_relink x x' p c q d n r r' : seg x p (c ++ [(q, d)]) r → q ∉ c.*1 →
  vl_deref x q = Some n → vl_deref x' q = Some (store_next r' n) → (∀ q', q' ≠ q → vl_deref x' q' = vl_deref x q') →
  seg x' p (c ++ [(q, d)]) r'.
Proof.
  intros (q1 & Hc & -> & n1 & Hn1 & <- & _)%seg_app Hq Hn Hn' HF. apply seg_app. exists q. split.
  - apply (seg_frame x); [|done]. intros q' ? Hin. rewrite HF by (by intros ->). eauto.
  - split; [done|]. exists (store_next r' n). assert (n1 = n) as -> by congruence. done.
Qed.

Lemma vl_deref_put p q n x : is_Some (vl_deref x p) → vl_deref (vl_put p n x) q = if decide (q = p) then Some n else vl_deref x q.
Proof.
  intros Hp. destruct p as [| | |i]; [by destruct Hp|..].
  1,2: destruct q; cbn in *; rewrite ?slot_get_put by done; try done; by destruct (decide _).
  destruct q as [| | |j]; cbn; try (by destruct (decide _)). destruct (decide (VHeap j = VHeap i)) as [[= ->]|E].
  - by rewrite lookup_insert_eq.
  - rewrite lookup_insert_ne; [done|]. congruence.
Qed.

Lemma vl_deref_latch w x q : vl_deref (vl_set_latch w x) q = vl_deref x q.
Proof. by destruct q. Qed.

Lemma vl_deref_head p x q : vl_deref (vl_set_head p x) q = vl_deref x q.
Proof. by destruct q. Qed.

Lemma put_slots_ok p n x : is_Some (vl_deref x p) → slots_ok (vl_slots x) → slots_ok (vl_slots (vl_put p n x)).
Proof. intros Hp Hs. destruct p; cbn in *; try done; by apply slots_ok_put. Qed.

(** ** The invariant *)

Record chain_inv x c (fr gone : list vptr) : Prop := {
  ci_chain : seg x (vl_head x) c VNull;
  ci_sorted : StronglySorted newer c.*2;
  ci_nonempty : c ≠ [];
  ci_slots : slots_ok (vl_slots x);
  ci_flags p n : vl_deref x p = Some n →
    vn_flags n = flags_of (vn_value n) (is_slot p) (negb (bool_decide (p ∈ c.*1 ++ fr)));
  ci_live p : p ∈ c.*1 ++ fr ++ gone → is_Some (vl_deref x p);
  ci_heap i : is_Some (vl_deref x (VHeap i)) ↔ VHeap i ∈ c.*1 ++ fr ++ gone ++ (VHeap <$> vl_retired x);
  ci_once : NoDup (c.*1 ++ fr ++ gone ++ (VHeap <$> vl_retired x));
}.

Definition leaf_ok x c : Prop := chain_inv x c [] [].

(** It says nothing of the key and the latch. *)
Lemma chain_inv_ext x x' c fr gone : chain_inv x c fr gone → vl_head x' = vl_head x → vl_slots x' = vl_slots x →
  vl_retired x' = vl_retired x → (∀ p, vl_deref x' p = vl_deref x p) → chain_inv x' c fr gone.
Proof.
  intros [C1 C2 C3 C4 C6 C7 C8 C9] E1 E2 E3 E4. split; rewrite ?E1, ?E2, ?E3, ?E4; try done.
  - apply (seg_frame x); [|done]. intros q n _ Hn. rewrite E4. eauto.
  - intros p n. rewrite E4. apply C6.
  - intros p. rewrite E4. apply C7.
  - intros i. rewrite E4. apply C8.
Qed.

Lemma chain_inv_latch w x c fr gone : chain_inv (vl_set_latch w x) c fr gone ↔ chain_inv x c fr gone.
Proof. split; intros C; eapply chain_inv_ext; try exact C; try done; intros p; by rewrite ?vl_deref_latch. Qed.

Lemma chain_nodup x c fr gone : chain_inv x c fr gone → NoDup c.*1.
Proof. intros C. pose proof (ci_once _ _ _ _ C) as X. by apply NoDup_app in X as (? & _). Qed.

Lemma chain_head x c fr gone : chain_inv x c fr gone → vl_head x = start_of c.
Proof. intros C. eapply seg_start, C. Qed.

Lemma chain_node x c fr gone p d : chain_inv x c fr gone → (p, d) ∈ c →
  ∃ n, vl_deref x p = Some n ∧ data n = d ∧ vn_flags n = flags_of (vn_value n) (is_slot p) false.
Proof.
  intros C Hp. assert (p ∈ c.*1) as Hp1 by (apply list_elem_of_fmap; by exists (p, d)).
  apply list_elem_of_split in Hp as (c1 & c2 & ->).
  destruct (proj1 (seg_app _ _ _ _ _) (ci_chain _ _ _ _ C)) as (? & _ & -> & n & Hn & Hd & _).
  exists n. split_and!; [done..|]. rewrite (ci_flags _ _ _ _ C p n Hn), bool_decide_true by set_solver. done.
Qed.

(** The head, and whether it is live. *)
Lemma chain_head_node x c fr gone : chain_inv x c fr gone →
  ∃ n, vl_deref x (vl_head x) = Some n ∧ is_tombstone n = negb (h_live c.*2).
Proof.
  intros C. destruct c as [|[p d] c]; [by destruct (ci_nonempty _ _ _ _ C)|].
  destruct (chain_node x _ _ _ p d C) as (n & Hn & <- & Hfl); [by left|]. exists n. rewrite (chain_head _ _ _ _ C).
  split; [done|]. rewrite (flags_tombstone n _ _ Hfl). cbn. by destruct (vn_value n).
Qed.

(** ** Steps *)

(** The key, and the data of every node. *)
Definition kept x x' : Prop := vl_key x' = vl_key x ∧
  ∀ q n, vl_deref x q = Some n → ∃ n', vl_deref x' q = Some n' ∧ data n' = data n.

#[export] Instance kept_preorder : PreOrder kept.
Proof.
  split; [by split; [|eauto]|]. intros x1 x2 x3 [H1 H2] [H3 H4]. split; [congruence|].
  intros q n (n2 & Hn2 & <-)%H2. by apply H4.
Qed.

Lemma kept_latch w x : kept x (vl_set_latch w x).
Proof. split; [done|]. intros q n. rewrite vl_deref_latch. eauto. Qed.

Lemma kept_put p n n' x : vl_deref x p = Some n → data n' = data n → kept x (vl_put p n' x).
Proof.
  intros Hn Hd. split; [by destruct p|]. intros q m Hm. rewrite vl_deref_put by (by eexists). case_decide; [|by eauto].
  subst. exists n'. split; [done|]. congruence.
Qed.

Definition same_leaf x x' : Prop := kept x x' ∧ vl_chain_latch x' = vl_chain_latch x.

(** The lists of the invariant, up to order within what is accounted for. *)
Lemma chain_inv_perm x c fr fr' gone gone' : fr ≡ₚ fr' → gone ≡ₚ gone' → chain_inv x c fr gone → chain_inv x c fr' gone'.
Proof.
  intros E E' [C1 C2 C3 C4 C6 C7 C8 C9]. split; try done.
  - intros p n Hn. rewrite (C6 p n Hn). do 2 f_equal. apply bool_decide_ext. by rewrite E.
  - intros p. rewrite <- E, <- E'. apply C7.
  - intros i. rewrite <- E, <- E'. apply C8.
  - by rewrite <- E, <- E'.
Qed.

(** A new node that is not linked. *)
Lemma chain_inv_new x x' c fr gone p n : chain_inv x c fr gone → p ∉ c.*1 ++ fr ++ gone ++ (VHeap <$> vl_retired x) →
  vl_deref x' p = Some n → vn_flags n = flags_of (vn_value n) (is_slot p) false →
  (∀ q, q ≠ p → vl_deref x' q = vl_deref x q) → vl_head x' = vl_head x → vl_retired x' = vl_retired x →
  slots_ok (vl_slots x') → chain_inv x' c (p :: fr) gone.
Proof.
  intros C H5 H1 Hfl H2 H3 H4 H6.
  assert (∀ q, q ∈ c.*1 ++ fr ++ gone → q ≠ p) as Hne by (intros q Hq ->; apply H5; set_solver).
  split; try apply C; try done.
  - rewrite H3. apply (seg_frame x); [|apply C]. intros q n' Hq Hn. rewrite H2; [eauto|]. apply Hne. set_solver.
  - intros q n'. destruct (decide (q = p)) as [->|Hq].
    + rewrite H1. intros [= <-]. by rewrite bool_decide_true by set_solver.
    + rewrite H2 by done. intros Hn. rewrite (ci_flags _ _ _ _ C q n' Hn). do 2 f_equal. apply bool_decide_ext. set_solver.
  - intros q Hq. destruct (decide (q = p)) as [->|Hp]; [by rewrite H1|]. rewrite H2 by done. apply C. set_solver.
  - intros i. rewrite H4. destruct (decide (VHeap i = p)) as [<-|Hp].
    + rewrite H1. split; [set_solver|by eexists].
    + rewrite H2, (ci_heap _ _ _ _ C) by done. set_solver.
  - rewrite H4, <- app_comm_cons, <- Permutation_middle. apply NoDup_cons. split; [done|apply C].
Qed.

(** A node off the chain is set up or marked. *)
Lemma chain_inv_put x c fr fr' gone gone' p n n' : chain_inv x c fr gone → p ∉ c.*1 → vl_deref x p = Some n →
  fr ++ gone ≡ₚ fr' ++ gone' → (∀ q, q ≠ p → q ∈ fr ↔ q ∈ fr') →
  vn_flags n' = flags_of (vn_value n') (is_slot p) (negb (bool_decide (p ∈ fr'))) →
  chain_inv (vl_put p n' x) c fr' gone'.
Proof.
  intros C Hp Hn E Hfr Hfl. assert (is_Some (vl_deref x p)) as Hp0 by by eexists.
  pose proof (λ q, vl_deref_put p q n' x Hp0) as D.
  assert (∀ q, is_Some (vl_deref (vl_put p n' x) q) ↔ is_Some (vl_deref x q)) as DS.
  { intros q. rewrite D. destruct (decide (q = p)) as [Eq|]; [|reflexivity]. rewrite Eq, Hn. split; by eexists. }
  assert (vl_retired (vl_put p n' x) = vl_retired x) as ER by by destruct p.
  split.
  - replace (vl_head _) with (vl_head x) by by destruct p. apply (seg_frame x); [|apply C].
    intros q n1 Hq Hn1. rewrite D, decide_False; [eauto|]. by intros ->.
  - apply C.
  - apply C.
  - by apply put_slots_ok, C.
  - intros q m. rewrite D. destruct (decide (q = p)) as [Eq|].
    + intros [= <-]. subst q. rewrite Hfl. do 2 f_equal. apply bool_decide_ext. set_solver.
    + intros Hm. rewrite (ci_flags _ _ _ _ C q m Hm). do 2 f_equal. apply bool_decide_ext. rewrite !elem_of_app, Hfr; done.
  - intros q. rewrite DS, <- E. apply C.
  - intros i. rewrite DS, ER, !(assoc_L (++)), <- (assoc_L (++) c.*1 fr' gone'), <- E, !(assoc_L (++)), <- !(assoc_L (++)). apply C.
  - rewrite ER, !(assoc_L (++)), <- (assoc_L (++) c.*1 fr' gone'), <- E, !(assoc_L (++)), <- !(assoc_L (++)). apply C.
Qed.

Lemma chain_inv_next x c fr gone p n r : chain_inv x c fr gone → p ∉ c.*1 → vl_deref x p = Some n →
  chain_inv (vl_put p (store_next r n) x) c fr gone.
Proof.
  intros C Hp Hn. eapply chain_inv_put; try done. cbn. rewrite (ci_flags _ _ _ _ C p n Hn). do 2 f_equal.
  apply bool_decide_ext. set_solver.
Qed.

Lemma chain_inv_mark x c fr gone p n : chain_inv x c (p :: fr) gone → vl_deref x p = Some n →
  chain_inv (vl_put p (superseded n) x) c fr (p :: gone).
Proof.
  intros C Hn. pose proof (ci_once _ _ _ _ C) as ND. rewrite NoDup_app in ND. destruct ND as (_ & N1 & N2).
  assert (p ∉ fr) as Hp by (apply NoDup_cons in N2 as [? _]; set_solver).
  eapply chain_inv_put; [exact C| |exact Hn| |set_solver|].
  - intros Hin. apply (N1 p Hin). set_solver.
  - cbn. by rewrite <- Permutation_middle.
  - cbn. rewrite (ci_flags _ _ _ _ C p n Hn), flags_mark, bool_decide_false by done. done.
Qed.

(** The retirement of a marked node. *)
Definition retire_at p x : leaf := match p with VHeap i => vl_set_heap (vl_heap x) (i :: vl_retired x) x | _ => x end.

Lemma chain_inv_retire x c fr gone p : chain_inv x c fr (p :: gone) → chain_inv (retire_at p x) c fr gone.
Proof.
  intros C. assert (∀ q, vl_deref (retire_at p x) q = vl_deref x q) as D by (intros []; by destruct p).
  assert (∀ i, VHeap i ∈ (c.*1 ++ fr ++ gone ++ (VHeap <$> vl_retired (retire_at p x))) ↔
    VHeap i ∈ c.*1 ++ fr ++ (p :: gone) ++ (VHeap <$> vl_retired x)) as EI by (intros i; destruct p; set_solver).
  destruct C as [C1 C2 C3 C4 C6 C7 C8 C9]. split; rewrite ?D; try done.
  - replace (vl_head (retire_at p x)) with (vl_head x) by by destruct p. apply (seg_frame x); [|done].
    intros q n _ Hn. rewrite D. eauto.
  - by destruct p.
  - intros q n. rewrite D. apply C6.
  - intros q Hq. rewrite D. apply C7. set_solver.
  - intros i. by rewrite EI, D.
  - rewrite NoDup_app in C9 |- *. destruct C9 as (N1 & N2 & N3). split; [done|].
    assert (NoDup (fr ++ gone ++ (VHeap <$> vl_retired (retire_at p x))) ∧
      ∀ q, q ∈ fr ++ gone ++ (VHeap <$> vl_retired (retire_at p x)) → q ∈ fr ++ (p :: gone) ++ (VHeap <$> vl_retired x)) as [X1 X2].
    { rewrite <- app_comm_cons, <- Permutation_middle, NoDup_cons in N3. destruct N3 as [N3 N4].
      destruct p; cbn [retire_at vl_retired vl_set_heap fmap list_fmap]; (split; [|set_solver]); try done.
      rewrite (assoc_L (++)), <- Permutation_middle, <- (assoc_L (++)). by apply NoDup_cons. }
    split; [|done]. intros q Hq Hin. apply (N2 q Hq). by apply X2.
Qed.

(** The store that cuts [mid] out and links [ins] in. *)
Definition link_at (prev start : vptr) x : option leaf :=
  if decide (prev = VNull) then Some (vl_set_head start x)
  else n ← vl_deref x prev; Some (vl_put prev (store_next start n) x).

(** What a store into a link leaves alone. *)
Definition relinked x x' : Prop :=
  (slots_ok (vl_slots x) → slots_ok (vl_slots x')) ∧ vl_retired x' = vl_retired x ∧
  (vl_key x' = vl_key x ∧ vl_chain_latch x' = vl_chain_latch x) ∧
  ∀ q, option_Forall2 (λ n n', data n' = data n ∧ vn_flags n' = vn_flags n) (vl_deref x q) (vl_deref x' q).

Lemma relinked_some x x' q : relinked x x' → is_Some (vl_deref x' q) ↔ is_Some (vl_deref x q).
Proof. intros (_ & _ & _ & R). destruct (R q); split; intros [? ?]; by eexists. Qed.

Lemma relinked_same x x' : relinked x x' → same_leaf x x'.
Proof.
  intros (_ & _ & [E1 E2] & R). split; [split; [done|]|done]. intros q n Hn. pose proof (R q) as X. rewrite Hn in X.
  inversion X as [? n' [E _]|]; subst. eauto.
Qed.

Lemma relinked_head p x : relinked x (vl_set_head p x).
Proof. split_and!; [done..|]. intros q. rewrite vl_deref_head. by apply option_Forall2_refl. Qed.

Lemma relinked_next p n r x : vl_deref x p = Some n → relinked x (vl_put p (store_next r n) x).
Proof.
  intros Hn. assert (is_Some (vl_deref x p)) as Hp by by eexists. split; [by apply put_slots_ok|].
  split; [by destruct p|]. split; [split; by destruct p|]. intros q.
  rewrite vl_deref_put by done. case_decide as E; [|by apply option_Forall2_refl]. subst q. rewrite Hn. by constructor.
Qed.

Lemma chain_inv_relinked x x' c c' fr fr' gone : chain_inv x c fr gone → relinked x x' → c.*1 ++ fr ≡ₚ c'.*1 ++ fr' →
  seg x' (vl_head x') c' VNull → StronglySorted newer c'.*2 → c' ≠ [] → chain_inv x' c' fr' gone.
Proof.
  intros [C1 C2 C3 C4 C6 C7 C8 C9] HR E H1 H2 H3. pose proof (λ q, relinked_some x x' q HR) as HS.
  destruct HR as (R1 & R2 & _ & R4). split; rewrite ?R2; auto.
  - intros q n' Hn'. pose proof (R4 q) as X. rewrite Hn' in X. inversion X as [n ? [ED EF] Hn|]; subst.
    rewrite EF, (C6 q n) by done. injection ED as _ ->. do 2 f_equal. apply bool_decide_ext. by rewrite E.
  - intros q. rewrite HS, (assoc_L (++)), <- E, <- (assoc_L (++)). apply C7.
  - intros i. rewrite HS, (assoc_L (++)), <- E, <- (assoc_L (++)). apply C8.
  - rewrite (assoc_L (++)), <- E, <- (assoc_L (++)). done.
Qed.

Lemma last_of_snoc c q d : last_of (c ++ [(q, d)]) = q.
Proof. unfold last_of. by rewrite last_snoc. Qed.

Lemma chain_inv_link x c1 mid ins c2 fr fr' gone start : chain_inv x (c1 ++ mid ++ c2) fr gone →
  StronglySorted newer (c1 ++ ins ++ c2).*2 → c1 ++ ins ++ c2 ≠ [] → mid.*1 ++ fr ≡ₚ ins.*1 ++ fr' →
  seg x start (ins ++ c2) VNull →
  ∃ x', link_at (last_of c1) start x = Some x' ∧ relinked x x' ∧ chain_inv x' (c1 ++ ins ++ c2) fr' gone ∧
    ∀ q, q ∉ c1.*1 → vl_deref x' q = vl_deref x q.
Proof.
  intros C HS HN HE Hst. assert ((c1 ++ mid ++ c2).*1 ++ fr ≡ₚ (c1 ++ ins ++ c2).*1 ++ fr') as E.
  { rewrite !fmap_app, <- !(assoc_L (++)). f_equiv. rewrite (comm (++) c2.*1 fr), (comm (++) c2.*1 fr'), !(assoc_L (++)). by rewrite HE. }
  destruct c1 as [|[q d] c1 _] using rev_ind.
  - exists (vl_set_head start x). split_and!; [done|apply relinked_head| |intros; apply vl_deref_head].
    eapply chain_inv_relinked; [exact C|apply relinked_head|done| |done..]. cbn [app vl_head vl_set_head].
    apply (seg_frame x); [|done]. intros q n _. rewrite vl_deref_head. eauto.
  - rewrite last_of_snoc. destruct (chain_node x _ _ _ q d C) as (n & Hn & Hd & _); [set_solver|].
    assert (is_Some (vl_deref x q)) as Hs by by eexists. assert (q ≠ VNull) as Hq by (by intros ->). unfold link_at. rewrite decide_False, Hn by done. cbn.
    exists (vl_put q (store_next start n) x). split_and!; [done|by apply relinked_next| |].
    + eapply chain_inv_relinked; [exact C|by apply relinked_next|done| |done..].
      assert (NoDup ((c1 ++ [(q, d)]).*1 ++ (ins ++ c2).*1)) as ND.
      { pose proof (ci_once _ _ _ _ C) as X. rewrite (assoc_L (++)), E, <- (assoc_L (++)), fmap_app, <- (assoc_L (++)) in X.
        apply NoDup_app in X as (X1 & X2 & X3). apply NoDup_app in X3 as (X3 & _). apply NoDup_app. split_and!; [done| |done].
        intros p Hp Hin. apply (X2 p Hp). set_solver. }
      rewrite fmap_app, <- (assoc_L (++)) in ND. apply NoDup_app in ND as (_ & N1 & N2). apply NoDup_cons in N2 as [N2 _].
      apply seg_app. exists start. split.
      * replace (vl_head _) with (vl_head x) by by destruct q.
        destruct (proj1 (seg_app _ _ _ _ _) (ci_chain _ _ _ _ C)) as (r & Hc1 & _).
        eapply seg_relink; [exact Hc1| |exact Hn| |].
        -- intros Hin. apply (N1 q Hin). set_solver.
        -- by rewrite vl_deref_put, decide_True.
        -- intros q' Hq'. by rewrite vl_deref_put, decide_False.
      * apply (seg_frame x); [|done]. intros q' n' Hq' Hn'. rewrite vl_deref_put, decide_False by (done || (intros ->; set_solver)). eauto.
    + intros q' Hq'. rewrite vl_deref_put, decide_False; [done| |done]. intros ->. apply Hq'. rewrite fmap_app. apply elem_of_app. right. by left.
Qed.
End chain.

(** ** Accesses *)

Section accesses.
Context {SL K V St : Type} {SLO : LeafSlots SL V} {SLL : SlotsLaws SL V} {AB : AsBytes K} {LY : Layout St}.
Abbreviation leaf := (VersionedLeaf SL K V).
Abbreviation tree := (RawTree leaf St).
Implicit Types (x : leaf) (s : tree) (c : list (vptr * (Z * option V))).

Definition set_leaf (l : loc) x s : tree := set_t_leaves (<[l := x]> (t_leaves s)) s.

Lemma set_leaf_id l x s : t_leaves s !! l = Some x → set_leaf l x s = s.
Proof. intros Hx. unfold set_leaf. rewrite insert_id by done. by destruct s. Qed.

Lemma set_leaf_lookup l x s : t_leaves (set_leaf l x s) !! l = Some x.
Proof. apply lookup_insert_eq. Qed.

Lemma wp_leaf_write l f x x' (Q : unit → tree → Prop) s :
  f x = Some x' → Q tt (set_leaf l x' s) → wp (trigger (LeafWrite l f)) Q (set_leaf l x s).
Proof.
  intros Hf HQ. eapply wp_exec; [|exact HQ]. cbn. unfold with_leaf. cbn. rewrite lookup_insert_eq, Hf.
  unfold set_leaf, set_t_leaves. cbn. by rewrite insert_insert_eq.
Qed.

Lemma wp_leaf_latch {A} l (f : leaf → option (A * leaf)) x a x' (Q : A → tree → Prop) s :
  f x = Some (a, x') → Q a (set_leaf l x' s) → wp (trigger (LeafLatch l f)) Q (set_leaf l x s).
Proof.
  intros Hf HQ. eapply wp_exec; [|exact HQ]. cbn. unfold with_leaf. cbn. rewrite lookup_insert_eq, Hf.
  unfold set_leaf, set_t_leaves. cbn. by rewrite insert_insert_eq.
Qed.

Lemma wp_version_read {A} l p (f : VersionNode V → A) x n (Q : A → tree → Prop) s :
  t_leaves s !! l = Some x → vl_deref x p = Some n → Q (f n) s → wp (version_read l p f) Q s.
Proof.
  intros Hx Hn HQ. unfold version_read. apply wp_bind. eapply wp_leaf_read; [exact Hx|]. rewrite Hn. by apply wp_ret.
Qed.

(** The latch is taken when it is free, and found dead when it is dead. *)
Lemma wp_chain_lock l x (Q : bool → tree → Prop) s : vl_chain_latch x = chain_new →
  Q true (set_leaf l (vl_set_latch CHAIN_LOCKED x) s) → wp (chain_lock l) Q (set_leaf l x s).
Proof. intros E HQ. eapply wp_leaf_latch; [|exact HQ]. by rewrite E. Qed.

Lemma wp_chain_unlock l x (Q : unit → tree → Prop) s :
  Q tt (set_leaf l (vl_set_latch chain_new x) s) → wp (chain_unlock l) Q (set_leaf l x s).
Proof. intros HQ. by eapply wp_leaf_write. Qed.

Lemma wp_version_write l p f x n (Q : unit → tree → Prop) s : vl_held x = true → vl_deref x p = Some n →
  Q tt (set_leaf l (vl_put p (f n) x) s) → wp (version_write l p f) Q (set_leaf l x s).
Proof. intros Hh Hn HQ. eapply wp_leaf_write; [|exact HQ]. by rewrite Hh, Hn. Qed.

Lemma wp_link_after l prev start x x' (Q : unit → tree → Prop) s : vl_held x = true → link_at prev start x = Some x' →
  Q tt (set_leaf l x' s) → wp (link_after l prev start) Q (set_leaf l x s).
Proof.
  intros Hh Hl HQ. unfold link_after, link_at in *. case_decide as E.
  - rewrite bool_decide_true by done. injection Hl as <-. eapply wp_leaf_write; [|exact HQ]. by rewrite Hh.
  - rewrite bool_decide_false by done. destruct (vl_deref x prev) as [n|] eqn:Hn; [|done]. injection Hl as <-.
    by eapply wp_version_write.
Qed.

Lemma wp_retire_version l p x n i b (Q : unit → tree → Prop) s : vl_deref x p = Some n →
  vn_flags n = flags_of (vn_value n) (is_slot p) b → i = p →
  Q tt (set_leaf l (retire_at p x) s) → wp (retire_version l i) Q (set_leaf l x s).
Proof.
  intros Hn Hf -> HQ. unfold retire_version. apply wp_bind.
  eapply (wp_mono _ (λ inline s', inline = is_slot p ∧ s' = set_leaf l x s)).
  { destruct has_slots eqn:E.
    - eapply wp_version_read; [apply set_leaf_lookup|exact Hn|]. by rewrite (flags_inline n _ _ Hf).
    - apply wp_ret. split; [|done]. destruct (is_slot p) eqn:Ep; [|done]. pose proof (no_slots (vl_slots x) p E Ep) as X.
      destruct p; cbn in *; congruence. }
  intros ? ? [-> ->]. destruct p; [done|by apply wp_ret..|]. by eapply wp_leaf_write.
Qed.

(** ** Walks *)

Section walk.
Context (chain_fuel : nat) (l : loc) (x : leaf) (s : tree) (Hx : t_leaves s !! l = Some x).
Set Default Proof Using "All".

Lemma not_null p c r : seg x p c r → p = VNull → c = [].
Proof using. destruct c as [|[q d] c]; [done|]. by intros (-> & n & Hn & _) ->. Qed.

Lemma find_le_spec max p c (Q : option vptr → tree → Prop) : seg x p c VNull → (length c < chain_fuel)%nat →
  Q (fst <$> head (filter (λ e, e.2.1 <= max) c)) s → wp (loop chain_fuel (find_le_turn l max) p) Q s.
Proof.
  intros Hc Hf HQ.
  apply (wp_loop_measure (λ k p' s', s' = s ∧ ∃ c', seg x p' c' VNull ∧ k = length c' ∧
    head (filter (λ e, e.2.1 <= max) c') = head (filter (λ e, e.2.1 <= max) c)) _ _ _ _ _ (length c)); [|by eauto|done].
  intros k p' ? (-> & c' & Hc' & -> & E). unfold find_le_turn. case_bool_decide as Hp.
  - apply (not_null _ _ _ Hc') in Hp as ->. apply wp_ret. by rewrite <- E in HQ.
  - destruct c' as [|[q d] c']; [done|]. destruct Hc' as (-> & n & Hn & Hd & Hc'). apply wp_bind.
    eapply wp_version_read; [exact Hx|exact Hn|]. rewrite filter_cons in E. cbn in E.
    replace (vn_version n) with d.1 by by rewrite <- Hd. destruct (Z.leb_spec d.1 max) as [Hle|Hgt].
    + rewrite decide_True in E by done. apply wp_ret. by rewrite <- E in HQ.
    + rewrite decide_False in E by lia. apply wp_bind. eapply wp_version_read; [exact Hx|exact Hn|]. apply wp_ret.
      exists (length c'). cbn. split; [lia|]. split; [done|]. by exists c'.
Qed.

Lemma chain_spec {A} (f : VersionNode V → A) p c (Q : list A → tree → Prop) : seg x p c VNull → (length c < chain_fuel)%nat →
  (∀ rs, Forall2 (λ e r, ∃ n, vl_deref x e.1 = Some n ∧ data n = e.2 ∧ r = f n) c rs → Q rs s) →
  wp (chain chain_fuel l p f) Q s.
Proof.
  intros Hc Hf HQ. apply (wp_loop_measure (λ k (st : vptr * list A) s', s' = s ∧ ∃ c1 c', seg x st.1 c' VNull ∧ k = length c' ∧
    c = c1 ++ c' ∧ Forall2 (λ e r, ∃ n, vl_deref x e.1 = Some n ∧ data n = e.2 ∧ r = f n) c1 st.2) _ _ _ _ _ (length c));
    [|by split; [|exists [], c]|done].
  intros k [p' acc] ? (-> & c1 & c' & Hc' & -> & E & HF). cbn [fst snd] in *. unfold chain_turn. case_bool_decide as Hp.
  - apply (not_null _ _ _ Hc') in Hp as ->. apply wp_ret, HQ. by rewrite E, app_nil_r.
  - destruct c' as [|[q d] c']; [done|]. destruct Hc' as (-> & n & Hn & Hd & Hc'). apply wp_bind.
    eapply wp_version_read; [exact Hx|exact Hn|]. apply wp_bind. eapply wp_version_read; [exact Hx|exact Hn|]. apply wp_ret.
    exists (length c'). cbn. split; [lia|]. split; [done|]. exists (c1 ++ [(q, d)]), c'. split_and!; [done..| |].
    + by rewrite <- (assoc_L (++)).
    + apply Forall2_app; [done|]. constructor; [by exists n|constructor].
Qed.

Lemma chain_position_spec version p c (Q : vptr * vptr → tree → Prop) : seg x p c VNull → (length c < chain_fuel)%nat →
  (∀ c1 c2, c = c1 ++ c2 → Forall (λ e, version < e.2.1) c1 → Forall (λ e, ¬ version < e.2.1) (option_list (head c2)) →
    Q (last_of c1, start_of c2) s) →
  wp (position_of chain_fuel l version p) Q s.
Proof.
  intros Hc Hf HQ. apply (wp_loop_measure (λ k (st : vptr * vptr) s', s' = s ∧ ∃ c1 c', seg x st.2 c' VNull ∧ k = length c' ∧
    c = c1 ++ c' ∧ st.1 = last_of c1 ∧ Forall (λ e, version < e.2.1) c1) _ _ _ _ _ (length c));
    [|split; [done|]; by exists [], c|done].
  intros k [prev cur] ? (-> & c1 & c' & Hc' & -> & E & Ep & HF). cbn [fst snd] in *. subst prev. unfold position_turn. case_bool_decide as Hp.
  - pose proof (not_null _ _ _ Hc' Hp) as ->. apply wp_bind, wp_ret, wp_ret. rewrite Hp. by apply (HQ c1 []).
  - destruct c' as [|[q d] c']; [done|]. destruct Hc' as (-> & n & Hn & Hd & Hc'). apply wp_bind, wp_bind.
    eapply wp_version_read; [exact Hx|exact Hn|]. apply wp_ret.
    replace (vn_version n) with d.1 by by rewrite <- Hd. destruct (Z.ltb_spec version d.1) as [Hlt|Hge].
    + apply wp_bind. eapply wp_version_read; [exact Hx|exact Hn|]. apply wp_ret.
      exists (length c'). cbn. split; [lia|]. split; [done|]. exists (c1 ++ [(q, d)]), c'. split_and!; [done..| | |].
      * by rewrite <- (assoc_L (++)).
      * by rewrite last_of_snoc.
      * apply Forall_app. split; [done|]. by repeat constructor.
    + apply wp_ret. apply (HQ c1 ((q, d) :: c')); [done..|]. repeat constructor. cbn. lia.
Qed.

Lemma version_is_spec version c c1 p (Q : bool → tree → Prop) : seg x p (c1 ++ c) VNull →
  Q (match c with (_, d) :: _ => d.1 =? version | [] => false end) s → wp (version_is l (start_of c) version) Q s.
Proof using Hx.
  intros (p' & _ & Hc)%seg_app HQ. unfold version_is. destruct c as [|[q d] c]; [by apply wp_ret|].
  destruct Hc as (-> & n & Hn & <- & _). rewrite bool_decide_false by (cbn; by intros ->).
  apply wp_bind. eapply wp_version_read; [exact Hx|exact Hn|]. by apply wp_ret.
Qed.

Lemma head_live_spec c fr gone (Q : bool → tree → Prop) : chain_inv x c fr gone → Q (h_live c.*2) s → wp (head_live l) Q s.
Proof using Hx.
  intros C HQ. unfold head_live. apply wp_bind. eapply wp_leaf_read; [exact Hx|]. apply wp_bind.
  destruct (chain_head_node x c fr gone C) as (n & Hn & E). eapply wp_version_read; [exact Hx|exact Hn|]. apply wp_ret.
  by rewrite E, negb_involutive.
Qed.
End walk.
End accesses.

(** ** New nodes on the heap *)

Section heap.
Context {K V : Type} `{AsBytes K}.
Abbreviation leaf := (HeapLeaf K V).
Abbreviation tree := (RawTree leaf HeapStorage).
Implicit Types (x : leaf) (s : tree) (c : list (vptr * (Z * option V))).

(** A new node in the slot or on the heap. *)
Definition alloc_at x version value : vptr * leaf :=
  let sl := vl_slots x in
  if Z.land (slots_init sl) SLOT1 =? 0 then
    (VSlot1, vl_set_slots {| slot0 := slot0 sl; slot1 := Some (version_new version value true);
                             slots_init := Z.lor (slots_init sl) SLOT1 |} x)
  else
    let n := fresh (dom (vl_heap x)) in
    (VHeap n, vl_set_heap (<[n := version_new version value false]> (vl_heap x)) (vl_retired x) x).

Lemma alloc_at_spec x version value c fr gone : chain_inv x c fr gone →
  let '(p, x') := alloc_at x version value in
  vl_deref x p = None ∧ vl_deref x' p = Some (version_new version value (is_slot p)) ∧
  (∀ q, q ≠ p → vl_deref x' q = vl_deref x q) ∧ vl_head x' = vl_head x ∧ vl_retired x' = vl_retired x ∧
  (vl_key x' = vl_key x ∧ vl_chain_latch x' = vl_chain_latch x) ∧
  p ∉ c.*1 ++ fr ++ gone ++ (VHeap <$> vl_retired x) ∧
  slots_ok (vl_slots x').
Proof.
  intros C. unfold alloc_at. destruct (ci_slots _ _ _ _ C) as [H0 [[E1 E]|[E1 E2]]].
  - rewrite E1. cbn. split_and!; try done; [by intros []| |right; split; [done|by eexists]]. intros Hin.
    assert (VSlot1 ∈ c.*1 ++ fr ++ gone) as Hx.
    { rewrite !elem_of_app in Hin. destruct Hin as [?|[?|[?|X]]]; [set_solver..|].
      by apply list_elem_of_fmap in X as (? & ? & _). }
    apply (ci_live _ _ _ _ C) in Hx as [? Hx]. cbn in Hx. congruence.
  - rewrite E1. change (Z.land _ SLOT1 =? 0) with false. cbn iota beta zeta. set (n := fresh _).
    assert (vl_heap x !! n = None) as Hn by (apply not_elem_of_dom, is_fresh). cbn. split_and!; try done.
    + by rewrite lookup_insert_eq.
    + intros [] Hq; cbn; try done. rewrite lookup_insert_ne; [done|]. congruence.
    + intros Hin. apply (ci_heap _ _ _ _ C) in Hin as [? Hx]. cbn in Hx. congruence.
    + by right.
Qed.

Lemma chain_inv_alloc x version value c fr gone : chain_inv x c fr gone →
  chain_inv (alloc_at x version value).2 c ((alloc_at x version value).1 :: fr) gone.
Proof.
  intros C. pose proof (alloc_at_spec x version value c fr gone C) as X. destruct (alloc_at x version value) as [p x'].
  destruct X as (H0 & H1 & H2 & H3 & H4 & _ & H5 & H6). eapply chain_inv_new; try done. apply flags_new.
Qed.

Lemma wp_alloc_version l version value x (Q : vptr → tree → Prop) s : vl_held x = true →
  Q (alloc_at x version value).1 (set_leaf l (alloc_at x version value).2 s) → wp (alloc_version l version value) Q (set_leaf l x s).
Proof.
  intros Hh HQ. unfold alloc_version, alloc_at in *. apply wp_bind. eapply wp_leaf_read; [apply set_leaf_lookup|].
  rewrite Hh. apply wp_bind, wp_ret, wp_bind. eapply wp_leaf_read; [apply set_leaf_lookup|]. case_match.
  - apply wp_bind. eapply wp_leaf_write; [done|]. by apply wp_ret.
  - by eapply wp_leaf_latch.
Qed.

End heap.
