(* ===== verification/VLeafSpec.v ===== *)
(** * What the chain operations do to a leaf

    Each operation under the chain latch, against the history that the chain
    holds: the resulting leaf satisfies its invariant again, and its history is
    the specified one. *)

From stdpp Require Import sorting.
From S2P Require Import Prelude Bytes Latch Slot Bits Node Free Mem Shape Raw Inv Rules Tree Version VTree VersionSpec.
Local Open Scope Z_scope.

(** ** Histories *)

Section history.
Context {V : Type}.
Abbreviation entry := (Z * option V)%type.
Implicit Types h : list entry.

Lemma sorted_app_newer h1 h2 : StronglySorted newer (h1 ++ h2) ↔
  StronglySorted newer h1 ∧ StronglySorted newer h2 ∧ ∀ a b, a ∈ h1 → b ∈ h2 → b.1 < a.1.
Proof.
  split.
  - intros HS. split_and!; [by eapply StronglySorted_app_1_l|by eapply StronglySorted_app_1_r|].
    intros a b Ha Hb. by apply (StronglySorted_app_1_elem_of newer h1 h2 a b HS).
  - intros (H1 & H2 & H3). by apply StronglySorted_app_2.
Qed.

(** A version's place splits a history. *)
Record placed (v : Z) h h1 mid h2 : Prop := {
  pl_split : h = h1 ++ mid ++ h2;
  pl_newer : filter (λ d, v < d.1) h = h1;
  pl_same : filter (λ d, d.1 = v) h = mid;
  pl_older : filter (λ d, d.1 < v) h = h2;
}.

Lemma filter_all {A} (P : A → Prop) `{!∀ x, Decision (P x)} l : Forall P l → filter P l = l.
Proof. induction 1 as [|x l Hx _ IH]; [done|]. by rewrite filter_cons_True, IH. Qed.

Lemma filter_none {A} (P : A → Prop) `{!∀ x, Decision (P x)} l : Forall (λ x, ¬ P x) l → filter P l = [].
Proof. induction 1 as [|x l Hx _ IH]; [done|]. by rewrite filter_cons_False. Qed.

Lemma placed_intro v h1 mid h2 : Forall (λ d, v < d.1) h1 → Forall (λ d, d.1 = v) mid → Forall (λ d, d.1 < v) h2 →
  placed v (h1 ++ mid ++ h2) h1 mid h2.
Proof.
  intros F1 F2 F3. split; [done|..]; rewrite !filter_app.
  - rewrite (filter_all _ h1), (filter_none _ mid), (filter_none _ h2), !app_nil_r; [done|..|done];
      (eapply Forall_impl; [eassumption|]; cbn; intros; lia).
  - rewrite (filter_none _ h1), (filter_all _ mid), (filter_none _ h2), app_nil_r; [done|..|done|];
      (eapply Forall_impl; [eassumption|]; cbn; intros; lia).
  - rewrite (filter_none _ h1), (filter_none _ mid), (filter_all _ h2); [done|done|..];
      (eapply Forall_impl; [eassumption|]; cbn; intros; lia).
Qed.

Lemma h_insert_placed v o h h1 mid h2 : placed v h h1 mid h2 → h_insert v o h = h1 ++ (v, o) :: h2.
Proof. intros [_ H1 _ H2]. unfold h_insert. by rewrite H1, H2. Qed.

Lemma placed_bounds v h h1 mid h2 : placed v h h1 mid h2 →
  (∀ d, d ∈ h1 → v < d.1) ∧ (∀ d, d ∈ mid → d.1 = v) ∧ (∀ d, d ∈ h2 → d.1 < v).
Proof. intros [_ <- <- <-]. split_and!; intros d; rewrite list_elem_of_filter; tauto. Qed.

(** Sortedness, with the version's entry replaced or taken out. *)
Lemma placed_sorted v h h1 mid h2 (e : option (option V)) : placed v h h1 mid h2 → StronglySorted newer h →
  StronglySorted newer (h1 ++ option_list ((v,.) <$> e) ++ h2).
Proof.
  intros P HS. destruct (placed_bounds _ _ _ _ _ P) as (F1 & _ & F3). rewrite (pl_split _ _ _ _ _ P), !sorted_app_newer in HS.
  destruct HS as (S1 & (_ & S2 & _) & _). rewrite !sorted_app_newer. split_and!; try done.
  - destruct e; repeat constructor.
  - intros a b Ha Hb%F3. destruct e; [|by apply elem_of_nil in Ha]. apply list_elem_of_singleton in Ha as ->. cbn. lia.
  - intros a b Ha%F1 Hb. apply elem_of_app in Hb as [Hb|Hb%F3]; [|lia]. destruct e; [|by apply elem_of_nil in Hb].
    apply list_elem_of_singleton in Hb as ->. cbn. lia.
Qed.

Lemma h_remove_placed v h h1 mid h2 : placed v h h1 mid h2 → h_remove v h = h1 ++ h2.
Proof.
  intros P. destruct (placed_bounds _ _ _ _ _ P) as (F1 & F2 & F3). rewrite (pl_split _ _ _ _ _ P). unfold h_remove.
  rewrite !filter_app, (filter_all _ h1), (filter_none _ mid), (filter_all _ h2); [done|..];
    apply Forall_forall; intros d Hd; [apply F3 in Hd|apply F2 in Hd|apply F1 in Hd]; lia.
Qed.

Lemma h_remove_absent v h : v ∉ h.*1 ↔ h_remove v h = h.
Proof.
  unfold h_remove. induction h as [|d h IH]; [split; [done|]; by intros _ ?%elem_of_nil|].
  rewrite fmap_cons, not_elem_of_cons, filter_cons, IH. case_decide as D.
  - split; [intros [_ ->]; done|]. intros [= E]. by split; [congruence|].
  - split; [intros [? _]; congruence|]. intros E. apply (f_equal length) in E. cbn in E.
    pose proof (length_filter (λ d, d.1 ≠ v) h). lia.
Qed.

Lemma h_remove_all v (c : list (vptr * (Z * option V))) : StronglySorted newer c.*2 → c ≠ [] → h_remove v c.*2 = [] →
  ∃ p d, c = [(p, d)] ∧ d.1 = v.
Proof.
  intros HS Hc HE. assert (∀ d, d ∈ c.*2 → d.1 = v) as HA.
  { intros d Hd. destruct (decide (d.1 = v)) as [|Hne]; [done|]. assert (d ∈ h_remove v c.*2) as Hin by by apply list_elem_of_filter.
    rewrite HE in Hin. by apply elem_of_nil in Hin. }
  destruct c as [|[p d] [|[q e] c]]; [done| |].
  - exists p, d. split; [done|]. apply HA. by left.
  - rewrite !fmap_cons in HS. apply StronglySorted_inv in HS as [_ HF]. apply Forall_cons in HF as [Hlt _]. unfold newer in Hlt. cbn in Hlt.
    pose proof (HA d ltac:(by left)). pose proof (HA e ltac:(right; by left)). lia.
Qed.

(** The trim at the newest version up to [min]. *)
Lemma h_trim_split min h1 d h2 : Forall (λ e, ¬ e.1 <= min) h1 → d.1 <= min → StronglySorted newer (h1 ++ d :: h2) →
  h_trim min (h1 ++ d :: h2) = h1 ++ [d].
Proof.
  intros F Hd HS. apply sorted_app_newer in HS as (_ & HS & _). apply StronglySorted_inv in HS as [_ F2].
  unfold h_trim, h_le. rewrite !filter_app, (filter_none (λ e, e.1 <= min) h1 F), (filter_all (λ e, min < e.1) h1).
  2:{ eapply Forall_impl; [exact F|]. cbn. lia. }
  rewrite (filter_cons_True (λ e, e.1 <= min)) by done. rewrite (filter_none (λ e, min < e.1)), app_nil_r; [done|].
  constructor; [lia|]. eapply Forall_impl; [exact F2|]. unfold newer. cbn. lia.
Qed.

Lemma h_trim_none min h : Forall (λ e, ¬ e.1 <= min) h → h_trim min h = h.
Proof.
  intros F. unfold h_trim, h_le. rewrite (filter_none _ h F), filter_all, app_nil_r; [done|].
  eapply Forall_impl; [exact F|]. cbn. lia.
Qed.

(** A trim at [min] is not seen from [max >= min]. *)
Lemma h_le_trim min max h : StronglySorted newer h → min <= max → h_le max (h_trim min h) = h_le max h.
Proof.
  intros HS Hm. destruct (decide (Forall (λ e, ¬ e.1 <= min) h)) as [F|F]; [by rewrite h_trim_none|].
  apply not_Forall_Exists in F; [|apply _]. apply Exists_exists in F as (d0 & Hd0 & Hle0).
  destruct (list_find (λ e, e.1 <= min) h) as [[i d]|] eqn:E.
  - apply list_find_Some in E as (Hi & Hd & HF). rewrite <- (take_drop_middle h i d Hi) in HS |- *.
    assert (Forall (λ e, ¬ e.1 <= min) (take i h)) as F.
    { apply Forall_lookup. intros j e Hj%lookup_take_Some. destruct Hj as [Hj Hlt]. by apply (HF j e). }
    rewrite h_trim_split by done. unfold h_le. rewrite !filter_app, !(filter_cons_True (λ e, e.1 <= max)) by lia.
    by destruct (filter (λ e, e.1 <= max) (take i h)).
  - apply list_find_None in E. rewrite Forall_forall in E. exfalso. apply Hle0. intros ?. by apply (E d0).
Qed.

(** The newest version of a history that a reader at [max] sees in full. *)
Lemma h_le_head max d h : d.1 <= max → h_le max (d :: h) = Some d.
Proof. intros Hd. unfold h_le. by rewrite filter_cons_True. Qed.
End history.

(** The nodes of a chain, likewise. *)
Lemma chain_placed {V} (v : Z) (c1 c2 : list (vptr * (Z * option V))) :
  StronglySorted newer (c1 ++ c2).*2 → Forall (λ e, v < e.2.1) c1 → Forall (λ e, ¬ v < e.2.1) (option_list (head c2)) →
  ∃ mid c3, c2 = mid ++ c3 ∧ (length mid <= 1)%nat ∧ placed v (c1 ++ c2).*2 c1.*2 mid.*2 c3.*2 ∧
    match c2 with (_, d) :: _ => d.1 =? v | [] => false end = bool_decide (mid ≠ []).
Proof.
  rewrite fmap_app, sorted_app_newer. intros (_ & HS & _) F1 F2.
  assert (Forall (λ d, v < d.1) c1.*2) as F1' by (by apply Forall_fmap).
  destruct c2 as [|[q d] c2].
  - exists [], []. split_and!; [done|cbn; lia| |done]. by apply (placed_intro v c1.*2 [] []).
  - cbn in F2. apply Forall_cons in F2 as [F2 _]. cbn in F2. rewrite fmap_cons in HS. apply StronglySorted_inv in HS as [_ HA].
    destruct (Z.eqb_spec d.1 v) as [E|E].
    + exists [(q, d)], c2. split_and!; [done|cbn; lia| |by rewrite bool_decide_true]. cbn.
      apply (placed_intro v c1.*2 [d] c2.*2); [done|by constructor|]. eapply Forall_impl; [exact HA|]. unfold newer. intros b; cbn; lia.
    + exists [], ((q, d) :: c2). split_and!; [done|cbn; lia| |done]. cbn.
      apply (placed_intro v c1.*2 [] (d :: c2.*2)); [done..|]. constructor; [lia|].
      eapply Forall_impl; [exact HA|]. unfold newer. intros b; cbn; lia.
Qed.

Section operations.
Context {SL K V St : Type} {SLO : LeafSlots SL V} {SLL : SlotsLaws SL V} {AB : AsBytes K} {LY : Layout St}.
Abbreviation leaf := (VersionedLeaf SL K V).
Abbreviation tree := (RawTree leaf St).
Implicit Types (x : leaf) (s : tree) (c : list (vptr * (Z * option V))).
Context (chain_fuel : nat).

(** The start of a suffix of the chain. *)
Lemma chain_from x c1 c2 fr gone : chain_inv x (c1 ++ c2) fr gone → seg x (start_of c2) c2 VNull.
Proof.
  intros C. destruct (proj1 (seg_app _ _ _ _ _) (ci_chain _ _ _ _ C)) as (q & _ & Hq). by rewrite <- (seg_start _ _ _ Hq).
Qed.

Lemma off_chain x c fr gone p : chain_inv x c fr gone → p ∈ fr ++ gone → p ∉ c.*1.
Proof.
  intros C Hp Hin. pose proof (ci_once _ _ _ _ C) as X. apply NoDup_app in X as (_ & X & _). apply (X p Hin). set_solver.
Qed.

Lemma held_locked x : vl_chain_latch x = CHAIN_LOCKED → vl_held x = true.
Proof. unfold vl_held. by intros ->. Qed.

(** Marking an unlinked node, and retiring a marked one. *)
Lemma mark_spec l q x c fr gone s (Q : unit → tree → Prop) : chain_inv x c (q :: fr) gone → vl_chain_latch x = CHAIN_LOCKED →
  (∀ x', chain_inv x' c fr (q :: gone) → same_leaf x x' → (∀ p c' r, seg x p c' r → seg x' p c' r) → Q tt (set_leaf l x' s)) →
  wp (mark_superseded l q) Q (set_leaf l x s).
Proof.
  intros C Hl HQ. destruct (ci_live _ _ _ _ C q) as [n Hn]; [set_solver|]. eapply wp_version_write; [by apply held_locked|exact Hn|].
  apply HQ; [by apply chain_inv_mark|split; [by eapply kept_put|by destruct q]|]. intros p c' r. apply seg_frame. intros q' n' _ Hn'.
  rewrite vl_deref_put by (by eexists). case_decide as E; [subst|eauto]. rewrite Hn in Hn'. injection Hn' as <-. by exists (superseded n).
Qed.

Lemma retire_spec l q x c fr gone s (Q : unit → tree → Prop) : chain_inv x c fr (q :: gone) →
  (∀ x', chain_inv x' c fr gone → same_leaf x x' → (∀ p c' r, seg x p c' r → seg x' p c' r) → Q tt (set_leaf l x' s)) →
  wp (retire_version l q) Q (set_leaf l x s).
Proof.
  intros C HQ. destruct (ci_live _ _ _ _ C q) as [n Hn]; [set_solver|].
  assert (∀ p, vl_deref (retire_at q x) p = vl_deref x p) as D by (intros p; by destruct q, p).
  eapply wp_retire_version; [exact Hn|by apply (ci_flags _ _ _ _ C)|done|]. apply HQ; [by apply chain_inv_retire| |].
  - split; [|by destruct q]. split; [by destruct q|]. intros p m. rewrite D. eauto.
  - intros p c' r. apply seg_frame. intros p' m _ Hm. rewrite D. eauto.
Qed.

(** The count is changed, and the latch released. *)
Lemma commit_count {A} l x d s (k : prog leaf A) (Q : A → tree → Prop) :
  wp k Q (set_leaf l (vl_set_latch chain_new x) (set_t_len (counted d s) s)) →
  wp (_ ← len_add d; _ ← chain_unlock l; k) Q (set_leaf l x s).
Proof.
  intros HQ. apply wp_bind, wp_len_add. change (set_t_len _ (set_leaf l x s)) with (set_leaf l x (set_t_len (counted d s) s)).
  by apply wp_bind, wp_chain_unlock.
Qed.

(** At most one node is replaced. *)
Definition at_most (mid : list (vptr * (Z * option V))) : Prop := (length mid <= 1)%nat.

Lemma mark_mid_spec l mid x c cur s (Q : unit → tree → Prop) : at_most mid → chain_inv x c mid.*1 [] → vl_chain_latch x = CHAIN_LOCKED →
  (mid ≠ [] → cur = start_of mid) → (∀ x', chain_inv x' c [] mid.*1 → same_leaf x x' → Q tt (set_leaf l x' s)) →
  wp (if bool_decide (mid ≠ []) then mark_superseded l cur else mret tt) Q (set_leaf l x s).
Proof.
  intros Hm C Hl Hcur HQ. destruct mid as [|[q d] [|]]; [|rewrite bool_decide_true, Hcur by done|cbv in Hm; lia].
  - rewrite bool_decide_false by naive_solver. apply wp_ret. by apply HQ.
  - eapply mark_spec; [exact C|done|]. intros x' C' Hs _. by apply HQ.
Qed.

Lemma retire_mid_spec l mid x c cur s (Q : unit → tree → Prop) : at_most mid → chain_inv x c [] mid.*1 →
  (mid ≠ [] → cur = start_of mid) → (∀ x', leaf_ok x' c → same_leaf x x' → Q tt (set_leaf l x' s)) →
  wp (if bool_decide (mid ≠ []) then retire_version l cur else mret tt) Q (set_leaf l x s).
Proof.
  intros Hm C Hcur HQ. destruct mid as [|[q d] [|]]; [|rewrite bool_decide_true, Hcur by done|cbv in Hm; lia].
  - rewrite bool_decide_false by naive_solver. apply wp_ret. by apply HQ.
  - eapply retire_spec; [exact C|]. intros x' C' Hs _. by apply HQ.
Qed.

(** A new node [p] takes the place of [mid] in the chain. *)
Lemma publish_spec {A} l v o x x2 c1 mid c3 p (k : prog leaf A) s (Q : A → tree → Prop) :
  leaf_ok x (c1 ++ mid ++ c3) → vl_chain_latch x = CHAIN_LOCKED → placed v (c1 ++ mid ++ c3).*2 c1.*2 mid.*2 c3.*2 → at_most mid →
  chain_inv x2 (c1 ++ mid ++ c3) [p] [] → same_leaf x x2 → seg x2 p ([(p, (v, o))] ++ c3) VNull →
  (∀ x4, chain_inv x4 (c1 ++ [(p, (v, o))] ++ c3) [] mid.*1 → same_leaf x x4 → wp k Q (set_leaf l x4 s)) →
  wp (_ ← link_after l (last_of c1) p;
      _ ← (if bool_decide (mid ≠ []) then mark_superseded l (start_of (mid ++ c3)) else mret tt); k) Q (set_leaf l x2 s).
Proof.
  intros C Hlock P Hmid C2 [Ek2 El2] Hst HK.
  destruct (chain_inv_link x2 c1 mid [(p, (v, o))] c3 [p] mid.*1 [] p C2) as (x3 & Hlink & R3 & C3 & _); [..|exact Hst|].
  { rewrite !fmap_app. apply (placed_sorted v _ _ _ _ (Some o) P), C. }
  { by destruct c1. }
  { by rewrite (comm (++)). }
  destruct (relinked_same _ _ R3) as [Ek3 El3]. apply wp_bind. eapply wp_link_after; [apply held_locked; congruence|exact Hlink|].
  apply wp_bind. eapply mark_mid_spec; [done|exact C3|congruence|by destruct mid|]. intros x4 C4 [Ek4 El4]. apply HK; [done|].
  split; [by etrans; [exact Ek2|]; etrans|congruence].
Qed.

Lemma remove_version_locked_spec l v b x c s (Q : flow SpinBackoff bool → tree → Prop) : leaf_ok x c →
  vl_chain_latch x = CHAIN_LOCKED → (length c < chain_fuel)%nat →
  (h_remove v c.*2 = c.*2 → Q (Break false) (set_leaf l (vl_set_latch chain_new x) s)) →
  (h_remove v c.*2 = [] → Q (Continue b) (set_leaf l (vl_set_latch chain_new x) s)) →
  (∀ x' c', leaf_ok x' c' → c'.*2 = h_remove v c.*2 → c'.*2 ≠ c.*2 → kept x x' → vl_chain_latch x' = chain_new →
    let d := Z.b2z (h_live c'.*2) - Z.b2z (h_live c.*2) in Q (Break true) (set_t_len (counted d s) (set_leaf l x' s))) →
  wp (remove_version_locked chain_fuel l v b) Q (set_leaf l x s).
Proof.
  intros C Hlock Hf Habs Honly HQ. unfold remove_version_locked. pose proof (set_leaf_lookup l x s) as Hx.
  apply wp_bind. eapply wp_leaf_read; [exact Hx|].
  apply wp_bind. eapply chain_position_spec; [exact Hx|apply C|done|]. intros c1 c2 -> F1 F2.
  destruct (chain_placed v c1 c2 (ci_sorted _ _ _ _ C) F1 F2) as (mid & c3 & -> & Hmid & P & Hsame).
  pose proof (h_remove_placed _ _ _ _ _ P) as ER. apply wp_bind. eapply version_is_spec; [exact Hx|apply C|]. rewrite Hsame.
  destruct mid as [|[q e] [|]]; [| |cbn in Hmid; lia].
  { rewrite bool_decide_false by naive_solver. apply wp_bind, wp_chain_unlock, wp_ret, Habs. rewrite ER. by rewrite !fmap_app. }
  rewrite bool_decide_true by done. cbn [negb app]. destruct (chain_from x c1 _ _ _ C) as (_ & n & Hn & He & Hc3).
  apply wp_bind. eapply wp_version_read; [exact Hx|exact Hn|]. pose proof (seg_start _ _ _ Hc3) as En. rewrite En.
  destruct (decide (c1 ++ c3 = [])) as [E0|E0].
  { apply app_eq_nil in E0 as [-> ->]. apply wp_bind, wp_chain_unlock, wp_ret, Honly. exact ER. }
  replace (bool_decide (last_of c1 = VNull) && bool_decide (start_of c3 = VNull)) with false.
  2:{ symmetry. apply andb_false_iff. destruct c1 as [|[q1 d1] c1 _] using rev_ind; [right|left]; apply bool_decide_eq_false.
    - destruct c3 as [|[q3 d3] c3]; [done|]. destruct (chain_node x _ _ _ q3 d3 C) as (? & ? & _); [set_solver|]. intros E. cbn in E. by subst.
    - rewrite last_of_snoc. destruct (chain_node x _ _ _ q1 d1 C) as (? & ? & _); [set_solver|]. by intros ->. }
  destruct (chain_head_node x _ [] [] C) as (hd & Hhd & Hold). apply wp_bind. eapply wp_version_read; [exact Hx|exact Hhd|].
  apply wp_bind. eapply wp_version_read; [exact Hx|exact Hn|]. rewrite En, Hold, negb_involutive.
  destruct (chain_inv_link x c1 [(q, e)] [] c3 [] [q] [] (start_of c3) C) as (x3 & Hlink & R3 & C3 & _); [..|by rewrite <- En|].
  { rewrite !fmap_app. apply (placed_sorted v _ _ _ _ None P), C. }
  { done. }
  { done. }
  destruct (relinked_same _ _ R3) as [Ek3 El3]. apply wp_bind. eapply wp_link_after; [by apply held_locked|exact Hlink|].
  apply wp_bind. eapply mark_spec; [exact C3|congruence|]. intros x4 C4 [Ek4 El4] _.
  apply wp_bind. eapply head_live_spec; [apply set_leaf_lookup|exact C4|]. apply commit_count, wp_bind.
  eapply retire_spec; [by apply chain_inv_latch|]. intros x5 C5 [Ek5 El5] _. apply wp_ret. apply (HQ x5 (c1 ++ [] ++ c3)); [done| | | |done].
  - rewrite ER. by rewrite !fmap_app.
  - rewrite !fmap_app. intros E%(f_equal length). rewrite !length_app in E. cbn in E. lia.
  - etrans; [exact Ek3|]. etrans; [exact Ek4|]. etrans; [apply kept_latch|exact Ek5].
Qed.

Lemma detach_spec l x x0 c b gone p s (Q : list vptr → tree → Prop) : chain_inv x c b.*1 gone → vl_chain_latch x = CHAIN_LOCKED →
  seg x p b VNull → (length b < chain_fuel)%nat → kept x0 x →
  (∀ x', chain_inv x' c [] (rev b.*1 ++ gone) → vl_chain_latch x' = CHAIN_LOCKED → kept x0 x' → Q b.*1 (set_leaf l x' s)) →
  wp (loop chain_fuel (detach_turn l) (p, [])) Q (set_leaf l x s).
Proof.
  intros C Hl Hb Hf HK HQ. apply (wp_loop_measure (λ k (st : vptr * list vptr) s', ∃ x' a b', s' = set_leaf l x' s ∧ b = a ++ b' ∧
    st.2 = a.*1 ∧ seg x' st.1 b' VNull ∧ k = length b' ∧ chain_inv x' c b'.*1 (rev a.*1 ++ gone) ∧
    vl_chain_latch x' = CHAIN_LOCKED ∧ kept x0 x') _ _ _ _ _ (length b)); [|by exists x, [], b|done].
  intros k [q u] ? (x' & a & b' & -> & -> & Eu & Hb' & -> & C' & Hl' & HK'). cbn [fst snd] in *. subst u.
  unfold detach_turn. case_bool_decide as Hq.
  - apply (not_null _ _ _ _ Hb') in Hq as ->. apply wp_ret. rewrite app_nil_r in *. by apply HQ.
  - destruct b' as [|[q' d] b']; [done|]. destruct Hb' as [-> Hb']. apply wp_bind. eapply mark_spec; [exact C'|done|].
    intros x2 C2 [Ek2 El2] Hseg. assert (seg x2 q' ((q', d) :: b') VNull) as (_ & n & Hn & _ & Hn') by (by apply Hseg).
    apply wp_bind. eapply wp_version_read; [apply set_leaf_lookup|exact Hn|]. apply wp_ret. exists (length b'). cbn. split; [lia|].
    exists x2, (a ++ [(q', d)]), b'. split_and!; [done|by rewrite <- (assoc_L (++))|by rewrite fmap_app|done..| |congruence|by etrans].
    by rewrite fmap_app, rev_app_distr.
Qed.

Lemma retire_all_spec l x x0 c gone s (Q : unit → tree → Prop) : chain_inv x c [] gone → vl_chain_latch x = chain_new → kept x0 x →
  (∀ x', leaf_ok x' c → vl_chain_latch x' = chain_new → kept x0 x' → Q tt (set_leaf l x' s)) →
  wp (for_each gone (retire_version l)) Q (set_leaf l x s).
Proof.
  revert x. induction gone as [|q gone IH]; intros x C Hl HK HQ; cbn [for_each]; [by apply wp_ret, HQ|].
  apply wp_bind. eapply retire_spec; [exact C|]. intros x' C' [Ek El] _. apply (IH x'); [done|congruence|by etrans|done].
Qed.

(** The store that cuts the chain behind [t]. *)
Lemma cut_spec l t x c1 d c3 n s (Q : unit → tree → Prop) : leaf_ok x (c1 ++ (t, d) :: c3) → vl_chain_latch x = CHAIN_LOCKED →
  vl_deref x t = Some n → seg x (vn_next n) c3 VNull →
  (∀ x', chain_inv x' (c1 ++ [(t, d)]) c3.*1 [] → vl_chain_latch x' = vl_chain_latch x → kept x x' → seg x' (vn_next n) c3 VNull →
    Q tt (set_leaf l x' s)) →
  wp (set_next l t VNull) Q (set_leaf l x s).
Proof.
  intros C Hlock Hn Hc3 HQ.
  destruct (chain_inv_link x (c1 ++ [(t, d)]) c3 [] [] [] c3.*1 [] VNull) as (x3 & Hlink & R3 & C3 & D3).
  { by rewrite app_nil_r, <- (assoc_L (++)). }
  { pose proof (ci_sorted _ _ _ _ C) as HS. rewrite !app_nil_r. replace (c1 ++ (t, d) :: c3) with ((c1 ++ [(t, d)]) ++ c3) in HS
      by by rewrite <- (assoc_L (++)). rewrite fmap_app in HS. by eapply StronglySorted_app_1_l. }
  { by destruct c1. }
  { by rewrite app_nil_r. }
  { done. }
  destruct (relinked_same _ _ R3) as [Ek3 El3]. rewrite last_of_snoc in Hlink. unfold link_at in Hlink.
  rewrite decide_False, Hn in Hlink by (by intros ->). injection Hlink as Hlink.
  eapply wp_version_write; [by apply held_locked|exact Hn|]. rewrite Hlink. rewrite !app_nil_r in C3. apply HQ; [done..|].
  apply (seg_frame x); [|exact Hc3]. intros q m Hq Hm. rewrite D3; [eauto|]. intros Hin.
  pose proof (chain_nodup _ _ _ _ C) as ND. replace (c1 ++ (t, d) :: c3) with ((c1 ++ [(t, d)]) ++ c3) in ND by by rewrite <- (assoc_L (++)).
  rewrite fmap_app in ND. apply NoDup_app in ND as (_ & ND & _). by apply (ND q).
Qed.

(** The trim drops all that is older than [t]. *)
Lemma prune_trim_spec l t x c1 d c3 s (Q : nat → tree → Prop) : leaf_ok x (c1 ++ (t, d) :: c3) → vl_chain_latch x = CHAIN_LOCKED →
  (length (c1 ++ (t, d) :: c3) < chain_fuel)%nat →
  (∀ x', leaf_ok x' (c1 ++ [(t, d)]) → vl_chain_latch x' = chain_new → kept x x' → Q (length c3) (set_leaf l x' s)) →
  wp (prune_trim chain_fuel l t) Q (set_leaf l x s).
Proof.
  intros C Hlock Hf HQ. unfold prune_trim. pose proof (set_leaf_lookup l x s) as Hx.
  destruct (chain_from x c1 _ _ _ C) as (_ & n & Hn & _ & Hc3). apply wp_bind. eapply wp_version_read; [exact Hx|exact Hn|].
  apply wp_bind. eapply (cut_spec l t x c1 d c3 n); [exact C|done|exact Hn|exact Hc3|]. intros x3 C3 El3 Ek3 Hst.
  assert (length (c1 ++ (t, d) :: c3) = length c1 + S (length c3))%nat as EL by (by rewrite length_app).
  apply wp_bind. eapply (detach_spec _ _ x); [exact C3|congruence|exact Hst|lia|exact Ek3|].
  intros x4 C4 El4 Ek4. apply wp_bind, wp_chain_unlock, wp_bind.
  eapply (retire_all_spec _ _ x); [|done|etrans; [exact Ek4|apply kept_latch]|].
  - apply chain_inv_latch. eapply chain_inv_perm; [done| |exact C4]. rewrite app_nil_r. symmetry. apply Permutation_rev.
  - intros x5 C5 El5 Ek5. apply wp_ret. rewrite length_fmap. by apply HQ.
Qed.
End operations.

(** ** The operations that make version nodes on the heap *)

Section heap.
Context {K V : Type} `{AsBytes K}.
Abbreviation leaf := (HeapLeaf K V).
Abbreviation tree := (RawTree leaf HeapStorage).
Implicit Types (x : leaf) (s : tree) (c : list (vptr * (Z * option V))).
Context (chain_fuel : nat).

(** A new node before [c3]. *)
Lemma alloc_spec l v o x c1 mid c3 s (Q : vptr → tree → Prop) : leaf_ok x (c1 ++ mid ++ c3) → vl_chain_latch x = CHAIN_LOCKED →
  (∀ p x1, chain_inv x1 (c1 ++ mid ++ c3) [p] [] → same_leaf x x1 →
    (∀ (Q' : unit → tree → Prop), (∀ x2, chain_inv x2 (c1 ++ mid ++ c3) [p] [] → same_leaf x x2 →
      seg x2 p ([(p, (v, o))] ++ c3) VNull → Q' tt (set_leaf l x2 s)) →
      wp (init_next l p (start_of c3)) Q' (set_leaf l x1 s)) →
    Q p (set_leaf l x1 s)) →
  wp (alloc_version l v o) Q (set_leaf l x s).
Proof.
  intros C Hlock HQ. apply wp_alloc_version; [by apply held_locked|].
  pose proof (alloc_at_spec x v o _ _ _ C) as X. pose proof (chain_inv_alloc x v o _ _ _ C) as C1.
  destruct (alloc_at x v o) as [p x1]. cbn [fst snd] in *. destruct X as (H0 & Hp & Hne & _ & _ & [S1 S2] & _).
  assert (same_leaf x x1) as S3.
  { split; [split; [done|]|done]. intros q n Hn. rewrite Hne; [eauto|]. by intros ->; congruence. }
  apply HQ; [done..|]. intros Q' HQ'. assert (p ≠ VNull) as Hp0 by (by intros ->).
  pose proof (off_chain x1 _ _ _ p C1 ltac:(set_solver)) as Hpc.
  pose proof (chain_inv_next x1 _ _ _ p _ (start_of c3) C1 Hpc Hp) as C2.
  eapply wp_leaf_write; [by rewrite Hp|]. apply HQ'; [exact C2| |].
  - destruct S3 as [S3 _]. split; [etrans; [exact S3|by eapply kept_put]|]. rewrite <- S2. by destruct p.
  - split; [done|]. exists (store_next (start_of c3) (version_new v o (is_slot p))).
    split_and!; [by rewrite vl_deref_put, decide_True|done|]. rewrite (assoc_L (++)) in C2. by eapply chain_from.
Qed.

Lemma apply_locked_spec l v o x c s (Q : Z → tree → Prop) : leaf_ok x c → vl_chain_latch x = CHAIN_LOCKED →
  (length c < chain_fuel)%nat →
  (∀ x' c', leaf_ok x' c' → c'.*2 = h_insert v o c.*2 → kept x x' → vl_chain_latch x' = chain_new →
    let d := Z.b2z (h_live c'.*2) - Z.b2z (h_live c.*2) in Q d (set_t_len (counted d s) (set_leaf l x' s))) →
  wp (apply_locked chain_fuel l v o) Q (set_leaf l x s).
Proof.
  intros C Hlock Hf HQ. unfold apply_locked.
  pose proof (set_leaf_lookup l x s) as Hx. apply wp_bind. eapply wp_leaf_read; [exact Hx|].
  destruct (chain_head_node x c [] [] C) as (hd & Hhd & Hold). apply wp_bind. eapply wp_version_read; [exact Hx|exact Hhd|].
  rewrite Hold, negb_involutive. apply wp_bind. eapply chain_position_spec; [exact Hx|apply C|done|]. intros c1 c2 -> F1 F2.
  destruct (chain_placed v c1 c2 (ci_sorted _ _ _ _ C) F1 F2) as (mid & c3 & -> & Hmid & P & Hsame).
  apply wp_bind. eapply alloc_spec; [exact C|done|]. intros p x1 C1 [Ek1 El1] Hinit.
  pose proof (set_leaf_lookup l x1 s) as Hx1. apply wp_bind. eapply version_is_spec; [exact Hx1|apply C1|]. rewrite Hsame.
  apply wp_bind. eapply (wp_mono _ (λ next s', next = start_of c3 ∧ s' = set_leaf l x1 s)).
  { destruct mid as [|[q d] mid]; [by apply wp_ret|]. rewrite bool_decide_true by done. destruct mid; [|cbn in Hmid; lia].
    destruct (chain_from x1 c1 _ _ _ C1) as (_ & n & Hn & _ & Hc3).
    eapply wp_version_read; [exact Hx1|exact Hn|]. split; [by apply seg_start in Hc3|done]. }
  intros ? ? [-> ->]. apply wp_bind, Hinit. intros x2 C2 S2 Hst. clear Hinit.
  apply (publish_spec l v o x x2 c1 mid c3 p); [done..|]. intros x4 C4 [Ek4 El4].
  apply wp_bind. eapply head_live_spec; [apply set_leaf_lookup|exact C4|]. apply commit_count, wp_bind.
  eapply retire_mid_spec; [done|by apply chain_inv_latch|by destruct mid|].
  intros x5 C5 [Ek5 El5]. apply wp_ret. eapply (HQ x5); [exact C5| | |exact El5].
  - rewrite (h_insert_placed _ _ _ _ _ _ P). by rewrite !fmap_app.
  - etrans; [exact Ek4|]. etrans; [apply kept_latch|exact Ek5].
Qed.

Lemma remove_head_locked_spec l x c s (Q : option (loc * vptr) → tree → Prop) : leaf_ok x c → vl_chain_latch x = CHAIN_LOCKED →
  (h_live c.*2 = false → Q None (set_leaf l (vl_set_latch chain_new x) s)) →
  (∀ p v o c1 x' c', c = (p, (v, Some o)) :: c1 → leaf_ok x' c' → c'.*2 = (v, None) :: c1.*2 →
    kept x x' → vl_chain_latch x' = chain_new →
    (∃ n, vl_deref x' p = Some n ∧ data n = (v, Some o) ∧ version_value n = Some o) →
    Q (Some (l, p)) (set_t_len (counted (-1) s) (set_leaf l x' s))) →
  wp (remove_head_locked l) Q (set_leaf l x s).
Proof.
  intros C Hlock Hdead HQ. unfold remove_head_locked. pose proof (set_leaf_lookup l x s) as Hx.
  apply wp_bind. eapply wp_leaf_read; [exact Hx|].
  destruct (chain_head_node x _ [] [] C) as (hd & Hhd & Hold). apply wp_bind. eapply wp_version_read; [exact Hx|exact Hhd|].
  rewrite Hold. destruct (h_live c.*2) eqn:El; [|by apply wp_bind, wp_chain_unlock, wp_ret, Hdead]. cbn [negb].
  destruct c as [|[p [v [o|]]] c1]; [done| |done]. rewrite (chain_head _ _ _ _ C) in Hhd |- *.
  destruct (ci_chain _ _ _ _ C) as (_ & n & Hn & Hd & Hc1). change (start_of _) with p in *.
  assert (hd = n) as -> by congruence. clear Hhd. apply wp_bind. eapply wp_version_read; [exact Hx|exact Hn|].
  assert (vn_version n = v) as -> by (by injection Hd).
  apply wp_bind. eapply (alloc_spec l v None x [] [(p, (v, Some o))] c1); [exact C|done|]. intros t x1 C1 [Ek1 El1] Hinit.
  destruct (chain_from x1 [] _ _ _ C1) as (_ & n1 & Hn1 & _ & Hc1'). apply wp_bind.
  eapply wp_version_read; [apply set_leaf_lookup|exact Hn1|]. rewrite (seg_start _ _ _ Hc1').
  apply wp_bind, Hinit. intros x2 C2 S2 Hst. clear Hinit.
  apply (publish_spec l v None x x2 [] [(p, (v, Some o))] c1 t); [done|done| |cbv; lia|done|done|done|].
  { destruct (proj1 (StronglySorted_cons _ _ _) (ci_sorted _ _ _ _ C)) as [HA HS].
    change (placed v ([] ++ [(v, Some o)] ++ c1.*2) [] [(v, Some o)] c1.*2). apply placed_intro; [done|by constructor|exact HA]. }
  intros x4 C4 [Ek4 El4]. apply commit_count, wp_bind.
  eapply retire_spec; [by apply chain_inv_latch|]. intros x5 C5 [Ek5 El5] _. apply wp_ret.
  assert (kept x x5) as HK by (etrans; [exact Ek4|]; etrans; [apply kept_latch|exact Ek5]).
  eapply (HQ p v o c1 x5); [done|exact C5|done|exact HK|exact El5|]. destruct HK as [_ HK]. destruct (HK p n Hn) as (n5 & Hn5 & Hd5).
  exists n5. rewrite Hd5, Hd. split_and!; [done..|]. rewrite (flags_value n5 _ _ (ci_flags _ _ _ _ C5 p n5 Hn5)).
  assert (data n5 = (v, Some o)) as E5 by congruence. by injection E5.
Qed.

End heap.

(** ** The drop of a leaf *)

Section drop.
Context {K V : Type}.
Implicit Types (x : HeapLeaf K V) (c : list (vptr * (Z * option V))).

(** The heap nodes of a chain. *)
Definition heap_of (ps : list vptr) : list loc := omap (λ p, match p with VHeap i => Some i | _ => None end) ps.

Lemma heap_of_cons p ps : heap_of (p :: ps) = (match p with VHeap i => [i] | _ => [] end) ++ heap_of ps.
Proof. by destruct p. Qed.

Lemma elem_of_heap_of i ps : i ∈ heap_of ps ↔ VHeap i ∈ ps.
Proof.
  unfold heap_of. rewrite list_elem_of_omap. split; [|eauto]. intros (p & Hp & E). destruct p; try done. by injection E as ->.
Qed.

Lemma heap_of_NoDup ps : NoDup ps → NoDup (heap_of ps).
Proof.
  induction 1 as [|p ps Hp _ IH]; [constructor|]. rewrite heap_of_cons. destruct p as [| | |i]; try done.
  apply NoDup_cons. split; [|done]. by rewrite elem_of_heap_of.
Qed.

Lemma drop_chain_spec fuel x p c freed : (length c < fuel)%nat → NoDup c.*1 → seg x p c VNull →
  (∀ q n, q ∈ c.*1 → vl_deref x q = Some n → is_inline n = is_slot q) →
  drop_chain fuel x p freed = Some (rev (heap_of c.*1) ++ freed).
Proof.
  revert x p c freed. induction fuel as [|fuel IH]; intros x p c freed Hf ND Hc HI; [lia|].
  destruct c as [|[q d] c]; [by cbn in Hc; subst p|]. destruct Hc as (-> & n & Hn & _ & Hc). cbn in Hf. apply NoDup_cons in ND as [Hq ND].
  assert (∀ x', (∀ q', q' ≠ q → vl_deref x' q' = vl_deref x q') → ∀ freed, drop_chain fuel x' (vn_next n) freed = Some (rev (heap_of c.*1) ++ freed)) as X.
  { intros x' HX freed'. apply IH; [lia|done|..].
    - apply (seg_frame x); [|done]. intros q' n' Hq' Hn'. rewrite HX by (by intros ->). eauto.
    - intros q' n' Hq' Hn'. rewrite HX in Hn' by (by intros ->). apply HI; [by right|done]. }
  pose proof (HI q n ltac:(by left) Hn) as Hin. rewrite fmap_cons, heap_of_cons. destruct q as [| | |i]; cbn [drop_chain fst]; [done|..].
  1,2: rewrite Hn; cbn; rewrite Hin; by apply X.
  rewrite Hn. cbn. rewrite Hin. cbn. rewrite X.
  - cbn. by rewrite <- (assoc_L (++)).
  - intros [] Hne; cbn; try done. rewrite lookup_delete_ne; [done|]. congruence.
Qed.

(** The drop frees the heap nodes of the chain, and drops the initialised
    slots: with those retired, each node goes exactly once. *)
Lemma leaf_drop_spec fuel x c : leaf_ok x c → (length c < fuel)%nat →
  ∃ freed slots, versioned_leaf_drop fuel x = Some (freed, slots) ∧ NoDup (freed ++ vl_retired x) ∧
    (∀ i, is_Some (vl_heap x !! i) ↔ i ∈ freed ++ vl_retired x) ∧
    ∀ p, p ∈ slots ↔ is_slot p = true ∧ is_Some (vl_deref x p).
Proof.
  intros C Hf. unfold versioned_leaf_drop. rewrite (drop_chain_spec fuel x _ c []); [|done|by eapply chain_nodup|apply C|].
  2:{ intros q n _ Hn. eapply flags_inline. by apply (ci_flags _ _ _ _ C). }
  pose proof (ci_once _ _ _ _ C) as ND. cbn [app] in ND. apply NoDup_app in ND as (N1 & N2 & N3).
  eexists _, _. split; [done|]. rewrite app_nil_r. split_and!.
  - apply NoDup_app. split_and!.
    + rewrite <- Permutation_rev. by apply heap_of_NoDup.
    + intros i Hi Hr. rewrite <- Permutation_rev, elem_of_heap_of in Hi. apply (N2 _ Hi). apply list_elem_of_fmap. by exists i.
    + assert (Inj (=) (=) VHeap) by (by intros ? ? [=]). by apply NoDup_fmap in N3.
  - intros i. rewrite elem_of_app, <- Permutation_rev, elem_of_heap_of. pose proof (ci_heap _ _ _ _ C i) as X. cbn [app] in X.
    cbn [vl_deref] in X. rewrite X, elem_of_app, (list_elem_of_fmap VHeap).
    split; (intros [Hi|Hi]; [by left|right]); [by destruct Hi as (j & [= ->] & Hj)|by exists i].
  - intros p. destruct (ci_slots _ _ _ _ C) as [H0 [[E1 E2]|[E1 E2]]]; rewrite E1.
    + change (if Z.land SLOT0 SLOT0 =? 0 then [] else [VSlot0]) with [VSlot0].
      change (if Z.land SLOT0 SLOT1 =? 0 then [] else [VSlot1]) with (@nil vptr). rewrite app_nil_r, list_elem_of_singleton.
      split; [by intros ->|]. intros [Hs Hp]. destruct p; try done. cbn in Hp. rewrite E2 in Hp. by apply is_Some_None in Hp.
    + change (if Z.land (Z.lor SLOT0 SLOT1) SLOT0 =? 0 then [] else [VSlot0]) with [VSlot0].
      change (if Z.land (Z.lor SLOT0 SLOT1) SLOT1 =? 0 then [] else [VSlot1]) with [VSlot1]. cbn [app].
      rewrite elem_of_cons, list_elem_of_singleton. split; [by intros [->| ->]|]. intros [Hs _]. destruct p; auto; done.
Qed.
End drop.
