(* ===== verification/VMapSpec.v ===== *)
(** * The versioned tree implements versioned finite maps

    [vholds s M] says that a versioned tree at rest holds the map [M] from key
    bytes to a key and its history: the tree is well formed, the chain of each
    leaf holds the history of its key, and the striped count is the number of
    keys whose newest version is live. *)

From stdpp Require Import sorting.
From S2P Require Import Prelude Bytes Latch Slot Bits Node NodeSpec NodeOps Free Mem Shape Raw Read Write Remove Shrink Inv Descent Update Pool Commits Rules WriteSpec RemoveSpec ShrinkSpec Walk WalkSpec Tree Map MapSpec Version VTree VMap VersionSpec VLeafSpec.
Local Open Scope Z_scope.

(** ** Lists *)

Lemma filter_fmap_snd {A B} (P : B → Prop) `{!∀ x, Decision (P x)} (l : list (A * B)) :
  (filter (λ e, P e.2) l).*2 = filter P l.*2.
Proof.
  induction l as [|e l IH]; [done|]. rewrite fmap_cons, !filter_cons. destruct (decide (P e.2)); [by rewrite fmap_cons, IH|done].
Qed.

Lemma head_filter {A} (P : A → Prop) `{!∀ x, Decision (P x)} l e : head (filter P l) = Some e →
  ∃ l1 l2, l = l1 ++ e :: l2 ∧ Forall (λ x, ¬ P x) l1 ∧ P e.
Proof.
  induction l as [|x l IH]; [done|]. rewrite filter_cons. case_decide as D.
  - intros [= ->]. by exists [], l.
  - intros (l1 & l2 & -> & F & He)%IH. exists (x :: l1), l2. split_and!; [done|by constructor|done].
Qed.

Lemma split_unique {A} (P : A → Prop) l1 l1' x x' l2 l2' : l1 ++ x :: l2 = l1' ++ x' :: l2' →
  Forall (λ e, ¬ P e) l1 → Forall (λ e, ¬ P e) l1' → P x → P x' → x = x'.
Proof.
  revert l1'. induction l1 as [|y l1 IH]; intros [|y' l1']; cbn; intros E F F' Hx Hx'; try (by simplify_eq).
  - injection E as -> _. by apply Forall_cons in F' as [? _].
  - injection E as <- _. by apply Forall_cons in F as [? _].
  - injection E as _ E. apply Forall_cons in F as [_ F]. apply Forall_cons in F' as [_ F']. by eapply IH.
Qed.

(** ** Sums over maps *)

Section sum.
Context {A B : Type}.

Definition map_sum (f : A → Z) (M : gmap path A) : Z := sum_by f (map_to_list M).*2.

Lemma map_sum_empty f : map_sum f ∅ = 0.
Proof. unfold map_sum. by rewrite map_to_list_empty. Qed.

Lemma map_sum_insert_new f M k a : M !! k = None → map_sum f (<[k := a]> M) = f a + map_sum f M.
Proof. intros Hk. unfold map_sum. by rewrite map_to_list_insert. Qed.

Lemma map_sum_delete f M k : map_sum f (delete k M) = map_sum f M - from_option f 0 (M !! k).
Proof.
  destruct (M !! k) as [a|] eqn:Hk; cbn; [|rewrite delete_id by done; lia].
  rewrite <- (insert_delete_id M k a Hk) at 2. rewrite map_sum_insert_new by apply lookup_delete_eq. lia.
Qed.

Lemma map_sum_insert f M k a : map_sum f (<[k := a]> M) = map_sum f M + f a - from_option f 0 (M !! k).
Proof. rewrite <- insert_delete_eq, map_sum_insert_new, map_sum_delete by apply lookup_delete_eq. lia. Qed.
End sum.

Lemma map_sum_ext {A B} (f : A → Z) (g : B → Z) M N :
  (∀ k, option_Forall2 (λ a b, f a = g b) (M !! k) (N !! k)) → map_sum f M = map_sum g N.
Proof.
  revert N. induction M as [|k a M Hk IH] using map_ind; intros N HF.
  - assert (N = ∅) as ->; [|by rewrite !map_sum_empty]. apply map_empty. intros k. specialize (HF k).
    rewrite lookup_empty in HF. by inversion HF.
  - pose proof (HF k) as X. rewrite lookup_insert_eq in X. destruct (N !! k) as [b|] eqn:Hb; [|by inversion X].
    assert (f a = g b) as E by by inversion X.
    rewrite <- (insert_delete_id N k b Hb), !map_sum_insert_new by (done || apply lookup_delete_eq). f_equal; [done|]. apply IH.
    intros k'. destruct (decide (k' = k)) as [->|Hne]; [rewrite Hk, lookup_delete_eq; constructor|].
    rewrite lookup_delete_ne by done. specialize (HF k'). by rewrite lookup_insert_ne in HF.
Qed.

(** ** The map a tree holds *)

Section vholds.
Context {SL K V St : Type} {SLO : LeafSlots SL V} {SLL : SlotsLaws SL V} {AB : AsBytes K} {LY : Layout St}.
Abbreviation leaf := (VersionedLeaf SL K V).
Abbreviation tree := (RawTree leaf St).
Abbreviation wf := (wf (EX := at_rest)).
Abbreviation history := (list (Z * option V)).
Implicit Types (s : tree) (m : gmap path loc) (M : gmap path (K * history)) (x : leaf).

Definition latch_word (dead : bool) : Z := if dead then CHAIN_DEAD else chain_new.

Definition good_leaf x : Prop := ∃ c dead, leaf_ok x c ∧ vl_chain_latch x = latch_word dead.

Definition entries_of s m M : Prop := ∀ k, match m !! k with
  | Some l => ∃ x c, t_leaves s !! l = Some x ∧ leaf_ok x c ∧ vl_chain_latch x = chain_new ∧
      as_bytes (vl_key x) = k ∧ M !! k = Some (vl_key x, c.*2)
  | None => M !! k = None
  end.

(** The number of live keys. *)
Definition live_size M : Z := map_sum (λ e, Z.b2z (h_live e.2)) M.

Record vrest s M (B : gmap loc path) m : Prop := {
  vr_wf : wf s B m ∅;
  vr_owned : t_owned s = ∅;
  vr_good l x : t_leaves s !! l = Some x → good_leaf x;
  vr_entries : entries_of s m M;
  vr_len : Counter.sum (t_len s) = Counter.wrap_i64 (live_size M);
}.

Definition vholds s M : Prop := ∃ B m, vrest s M B m.

Lemma vrest_new (storage : St) stripe : (stripe < Counter.STRIPES)%nat → vrest (new_in storage stripe) ∅ ∅ ∅.
Proof.
  intros Hs. split; [by apply wf_new|done|by intros l x Hx| |by unfold live_size; rewrite map_sum_empty].
  intros k. by rewrite !lookup_empty.
Qed.

Lemma vholds_new (storage : St) stripe : (stripe < Counter.STRIPES)%nat → vholds (new_in storage stripe) ∅.
Proof. intros Hs. exists ∅, ∅. by apply vrest_new. Qed.

Lemma live_size_bounds M : 0 <= live_size M <= Z.of_nat (size M).
Proof.
  unfold live_size. induction M as [|k e M Hk IH] using map_ind; [by rewrite map_sum_empty|].
  rewrite map_sum_insert_new, map_size_insert_None by done. destruct (h_live e.2); cbn; lia.
Qed.

(** ** Changing one leaf *)

Lemma wf_set_leaf s B m P l x x' : wf s B m P → t_leaves s !! l = Some x → key_bytes x' = key_bytes x →
  is_removed x' = is_removed x → wf (set_leaf l x' s) B m P.
Proof.
  intros [W1 W2 W3 W4 W5 W6 W7 W8] Hx Ek Er.
  assert (∀ l', live_key (set_leaf l x' s) l' = live_key s l') as LK.
  { intros l'. unfold live_key, set_leaf. cbn [t_leaves set_t_leaves]. destruct (decide (l' = l)) as [->|Hne].
    - by rewrite lookup_insert_eq, Hx, Er, Ek.
    - by rewrite lookup_insert_ne. }
  split; try done.
  - destruct W1 as [O1 O2 O3 O4]. split; try done. intros q y l' Hl. rewrite LK. by apply (O2 q y l').
  - intros k l'. rewrite LK. apply W2.
  - intros n. by apply (node_frame (EX := at_rest) s _ B B P P n); [..|apply W3].
  - intros l'. destruct (decide (l' = l)) as [->|Hne].
    + destruct (W4 l) as [y H1 H2 H3 H4 H5|y H1 H2 H3 H4 H5|y H1 H2 H3 H4 H5|H1]; [..|congruence];
        assert (y = x) as -> by congruence; [apply leaf_linked with x'|apply leaf_retired with x'|apply leaf_owned with x'];
        try done; try apply lookup_insert_eq; congruence.
    + destruct (W4 l') as [y|y|y|]; [apply leaf_linked with y|apply leaf_retired with y|apply leaf_owned with y|apply leaf_free];
        try done; cbn; by rewrite lookup_insert_ne.
Qed.

Lemma dead_word x dead : vl_chain_latch x = latch_word dead → vl_dead x = dead.
Proof. unfold vl_dead. intros ->. by destruct dead. Qed.

(** The leaf of a key, and its chain. *)
Record linked s M m (k : path) (l : loc) x (c : list (vptr * (Z * option V))) : Prop := {
  ld_map : m !! k = Some l;
  ld_leaf : t_leaves s !! l = Some x;
  ld_chain : leaf_ok x c;
  ld_latch : vl_chain_latch x = chain_new;
  ld_key : as_bytes (vl_key x) = k;
  ld_history : M !! k = Some (vl_key x, c.*2);
}.

Lemma vrest_lookup s M B m k : vrest s M B m → match m !! k with
  | Some l => ∃ x c, linked s M m k l x c
  | None => M !! k = None
  end.
Proof.
  intros R. pose proof (vr_entries _ _ _ _ R k) as X. destruct (m !! k) as [l|] eqn:Hk; [|done].
  destruct X as (x & c & H1 & H2 & H3 & H4 & H5). by exists x, c.
Qed.

(** Leaves stay, with their keys and the data of their nodes. *)
Definition vkept s s' : Prop := ∀ l x, t_leaves s !! l = Some x → ∃ x', t_leaves s' !! l = Some x' ∧ kept x x'.

#[export] Instance vkept_preorder : PreOrder vkept.
Proof.
  split; [intros s l x Hx; by exists x|]. intros s1 s2 s3 H1 H2 l x (x2 & Hx2 & K1)%H1.
  destruct (H2 l x2 Hx2) as (x3 & Hx3 & K2). exists x3. split; [done|by etrans].
Qed.

(** The map, and what a handle relies on. *)
Definition vholds_since (s0 : tree) s M : Prop := vholds s M ∧ vkept s0 s.

(** A program that only reads. *)
Lemma wp_read {A R} (p : prog leaf A) (f : A → R) s a (Q : R → tree → Prop) :
  wp p (λ r s', s' = s ∧ r = a) s → Q (f a) s → wp (r ← p; mret (f r)) Q s.
Proof. intros HP HQ. apply wp_bind. eapply wp_mono; [exact HP|]. intros r ? [-> ->]. by apply wp_ret. Qed.

Lemma vkept_set_leaf s s' l x x' : t_leaves s' = t_leaves s → t_leaves s !! l = Some x → kept x x' → vkept s (set_leaf l x' s').
Proof.
  intros E Hx HK l' y Hy. unfold set_leaf. cbn [t_leaves set_t_leaves]. rewrite E. destruct (decide (l' = l)) as [->|Hne].
  - rewrite lookup_insert_eq. exists x'. split; [done|]. congruence.
  - rewrite lookup_insert_ne by done. by exists y.
Qed.

(** A chain is replaced by another of the same leaf. *)
Lemma vrest_update s B m M k l x x' c c' :
  vrest s M B m → linked s M m k l x c → leaf_ok x' c' → vl_chain_latch x' = chain_new → kept x x' →
  let s' := set_t_len (counted (Z.b2z (h_live c'.*2) - Z.b2z (h_live c.*2)) s) (set_leaf l x' s) in
  vrest s' (<[k := (vl_key x, c'.*2)]> M) B m ∧ vkept s s'.
Proof.
  intros [W Ho HG HE HL] [Hk Hx C El Ekb HM] C' El' HK s'. subst s'. set (d := _ - _). pose proof HK as [Ek _].
  assert (wf (set_leaf l x' s) B m ∅) as W1.
  { apply (wf_set_leaf _ _ _ _ _ x); [done..|cbn; by rewrite Ek|]. cbn. unfold vl_dead. by rewrite El, El'. }
  split; [split; [by apply (wf_len_add (EX := at_rest) d) in W1|done| | |]|].
  - intros l' y. cbn. destruct (decide (l' = l)) as [->|Hne]; [rewrite lookup_insert_eq|rewrite lookup_insert_ne by done; by apply HG].
    intros [= <-]. by exists c', false.
  - intros k'. pose proof (HE k') as X. destruct (decide (k' = k)) as [->|Hne].
    + rewrite Hk. cbn. exists x', c'. rewrite !lookup_insert_eq. by rewrite Ek.
    + destruct (m !! k') as [l'|] eqn:Hk'; [|by rewrite lookup_insert_ne].
      assert (l' ≠ l) by (intros ->; apply Hne; by eapply (map_inj (EX := at_rest) s)).
      cbn. by rewrite !lookup_insert_ne.
  - change (t_len (set_t_len _ _)) with (counted d s). rewrite (sum_counted d s B m ∅ _ W HL). f_equal.
    unfold live_size. rewrite map_sum_insert, HM. cbn. lia.
  - by apply (vkept_set_leaf s s l x x').
Qed.

Lemma vholds_update s B m M k l x x' c c' :
  vrest s M B m → linked s M m k l x c → leaf_ok x' c' → vl_chain_latch x' = chain_new → kept x x' →
  let s' := set_t_len (counted (Z.b2z (h_live c'.*2) - Z.b2z (h_live c.*2)) s) (set_leaf l x' s) in
  vholds s' (<[k := (vl_key x, c'.*2)]> M) ∧ vkept s s'.
Proof. intros R L C' El' HK s'. destruct (vrest_update s B m M k l x x' c c' R L C' El' HK) as [H1 H2]. split; [by exists B, m|done]. Qed.

(** A leaf is unlinked, its chain dead. *)
Lemma vholds_unlink s s' B B' m M k l x c :
  vrest s M B m → linked s M m k l x c →
  leaf_unlinked s s' l (vl_set_latch CHAIN_DEAD x) (t_owned s) → t_len s' = counted (- Z.b2z (h_live c.*2)) s →
  wf s' B' (delete k m) ∅ → vholds s' (delete k M) ∧ vkept s s'.
Proof.
  intros [W Ho HG HE HL] [Hk Hx C El Ekb HM] [_ U1 _ _ U2] Elen W'. split; [exists B', (delete k m); split; [done|congruence|..]|].
  - intros l' y. rewrite U1. destruct (decide (l' = l)) as [->|Hne]; [rewrite lookup_insert_eq|rewrite lookup_insert_ne by done; by apply HG].
    intros [= <-]. exists c, true. split; [by apply chain_inv_latch|done].
  - intros k'. pose proof (HE k') as X. destruct (decide (k' = k)) as [->|Hne].
    + by rewrite !lookup_delete_eq.
    + rewrite !lookup_delete_ne by done. destruct (m !! k') as [l'|] eqn:Hk'; [|done].
      assert (l' ≠ l) by (intros ->; apply Hne; by eapply (map_inj (EX := at_rest) s)). by rewrite U1, lookup_insert_ne.
  - rewrite Elen, (sum_counted _ s B m ∅ _ W HL). f_equal. unfold live_size. rewrite map_sum_delete, HM. cbn. lia.
  - intros l' y Hy. rewrite U1. destruct (decide (l' = l)) as [->|Hne]; [|by rewrite lookup_insert_ne; [exists y|]].
    rewrite lookup_insert_eq. assert (y = x) as -> by congruence. eexists. split; [done|apply kept_latch].
Qed.

(** A state that differs in nothing the invariant reads. *)
Lemma vrest_same s s' B B' m M : vrest s M B m → wf s' B' m ∅ → t_leaves s' = t_leaves s → t_owned s' = t_owned s → t_len s' = t_len s →
  vrest s' M B' m ∧ vkept s s'.
Proof.
  intros [W Ho HG HE HL] W' E1 E2 E3. split; [split; [done|congruence|..]|].
  - intros l y. rewrite E1. apply HG.
  - intros k. rewrite E1. apply HE.
  - by rewrite E3.
  - intros l y. rewrite E1. by exists y.
Qed.

Lemma vholds_same s s' B B' m M : vrest s M B m → wf s' B' m ∅ → t_leaves s' = t_leaves s → t_owned s' = t_owned s → t_len s' = t_len s →
  vholds s' M ∧ vkept s s'.
Proof. intros R W E1 E2 E3. destruct (vrest_same s s' B B' m M R W E1 E2 E3) as [H1 H2]. split; [by exists B', m|done]. Qed.

(** ** Lookups *)

Context (chain_fuel retries : nat) (Hretries : (0 < retries)%nat).

(** The chains are shorter than the fuel. *)
Definition fits_in n M : Prop := ∀ k e, M !! k = Some e → (length e.2 < n)%nat.

Lemma linked_fits s M m k l x c : fits_in chain_fuel M → linked s M m k l x c → (length c < chain_fuel)%nat.
Proof using. intros HF L. pose proof (HF k _ (ld_history _ _ _ _ _ _ _ L)) as X. cbn in X. by rewrite length_fmap in X. Qed.

Lemma vget_spec s M B m key (Q : option loc → tree → Prop) : vrest s M B m →
  (M !! key = None → Q None s) → (∀ l x c, linked s M m key l x c → Q (Some l) s) → wp (get retries key) Q s.
Proof using Hretries.
  intros R H0 H1. eapply wp_mono; [by apply (get_spec (EX := at_rest) s B m ∅); [apply R|]|]. intros o ? [-> ->].
  pose proof (vrest_lookup s M B m key R) as X. destruct (m !! key) as [l|]; [|by apply H0].
  destruct X as (x & c & L). by eapply H1.
Qed.

Lemma on_leaf_spec {A} s M B m key (absent : A) f (Q : A → tree → Prop) : vrest s M B m →
  (M !! key = None → Q absent s) → (∀ l x c, linked s M m key l x c → wp (f l) Q s) →
  wp (on_leaf retries key absent f) Q s.
Proof using Hretries.
  intros R H0 H1. unfold on_leaf. apply wp_bind. eapply vget_spec; [exact R|..].
  - intros Hn. by apply wp_ret, H0.
  - intros l x c L. by apply (H1 l x c).
Qed.

Lemma linked_chain s M m k l x c : linked s M m k l x c → seg x (vl_head x) c VNull.
Proof using. intros L. apply (ld_chain _ _ _ _ _ _ _ L). Qed.

(** A node of the chain, read. *)
Lemma linked_version s M m k l x c p d : linked s M m k l x c → (p, d) ∈ c →
  ∃ n, vl_deref x p = Some n ∧ data n = d ∧ version_value n = d.2 ∧ vn_version n = d.1 ∧
    is_tombstone n = negb (bool_decide (is_Some d.2)) ∧ is_superseded n = false.
Proof using.
  intros L Hp. destruct (chain_node x c [] [] p d (ld_chain _ _ _ _ _ _ _ L) Hp) as (n & Hn & <- & Hf). exists n.
  split_and!; [done..|by eapply flags_value|done|by eapply flags_tombstone|by eapply flags_superseded].
Qed.

Lemma version_pair_spec s M m k l x c p d (Q : option (Z * V) → tree → Prop) : linked s M m k l x c → (p, d) ∈ c →
  Q (match d.2 with Some v => Some (d.1, v) | None => None end) s → wp (version_pair l p) Q s.
Proof using.
  intros L Hp HQ. destruct (linked_version _ _ _ _ _ _ _ _ _ L Hp) as (n & Hn & _ & Hv & Hver & _). unfold version_pair.
  apply wp_bind. eapply wp_version_read; [apply L|exact Hn|]. rewrite Hv. destruct d.2 as [v|]; [|by apply wp_ret].
  apply wp_bind. eapply wp_version_read; [apply L|exact Hn|]. apply wp_ret. by rewrite Hver.
Qed.

(** The versions up to [max] of a chain, and of its history. *)
Lemma le_history (max : Z) (c : list (vptr * (Z * option V))) :
  h_le max c.*2 = snd <$> head (filter (λ e, e.2.1 <= max) c).
Proof using. unfold h_le. rewrite <- (filter_fmap_snd (λ d, d.1 <= max)). by destruct (filter _ c). Qed.

Definition live_pair (d : Z * option V) : option (Z * V) := match d.2 with Some v => Some (d.1, v) | None => None end.

Lemma version_le_spec s M B m key max : vrest s M B m → fits_in chain_fuel M →
  wp (vmap_version_le chain_fuel retries key max) (λ r s', s' = s ∧ r = e ← M !! key; d ← h_le max e.2; live_pair d) s.
Proof using Hretries.
  intros R HF. eapply on_leaf_spec; [exact R|by intros ->|]. intros l x c L. apply wp_bind. eapply wp_leaf_read; [apply L|].
  apply wp_bind. eapply find_le_spec; [apply L|by eapply linked_chain|by eapply linked_fits|].
  rewrite (ld_history _ _ _ _ _ _ _ L). cbn. rewrite le_history. destruct (head _) as [[p d]|] eqn:E; cbn; [|by apply wp_ret].
  apply head_filter in E as (c1 & c2 & -> & _ & _). apply (version_pair_spec s M m key l x (c1 ++ (p, d) :: c2) p d); [exact L|set_solver|done].
Qed.

Lemma linked_head s M m k l x c : linked s M m k l x c → ∃ p d c', c = (p, d) :: c' ∧ vl_head x = p.
Proof using.
  intros L. pose proof (ld_chain _ _ _ _ _ _ _ L) as C. destruct c as [|[p d] c]; [by destruct (ci_nonempty _ _ _ _ C)|].
  exists p, d, c. split; [done|]. apply (chain_head _ _ _ _ C).
Qed.

Lemma get_latest_spec s M B m key : vrest s M B m →
  wp (vmap_get_latest retries key) (λ r s', s' = s ∧ r = e ← M !! key; d ← head e.2; live_pair d) s.
Proof using Hretries.
  intros R. eapply on_leaf_spec; [exact R|by intros ->|]. intros l x c L. apply wp_bind. eapply wp_leaf_read; [apply L|].
  rewrite (ld_history _ _ _ _ _ _ _ L). destruct (linked_head _ _ _ _ _ _ _ L) as (p & d & c' & -> & ->).
  apply (version_pair_spec s M m key l x ((p, d) :: c') p d); [exact L|by left|done].
Qed.

Lemma get_slice_spec s M B m key : vrest s M B m →
  wp (vmap_get_slice retries key) (λ r s', s' = s ∧ r = e ← M !! key; d ← head e.2; d.2) s.
Proof using Hretries.
  intros R. eapply on_leaf_spec; [exact R|by intros ->|]. intros l x c L. apply wp_bind. eapply wp_leaf_read; [apply L|].
  rewrite (ld_history _ _ _ _ _ _ _ L). destruct (linked_head _ _ _ _ _ _ _ L) as (p & d & c' & -> & ->).
  destruct (linked_version _ _ _ _ _ _ _ p d L) as (n & Hn & _ & Hv & _); [by left|].
  eapply wp_version_read; [apply L|exact Hn|]. split; [done|exact Hv].
Qed.

Lemma contains_key_spec s M B m key : vrest s M B m →
  wp (vmap_contains_key retries key) (λ r s', s' = s ∧ r = from_option (λ e, h_live e.2) false (M !! key)) s.
Proof using Hretries.
  intros R. eapply on_leaf_spec; [exact R|by intros ->|]. intros l x c L.
  eapply head_live_spec; [apply L|apply L|]. by rewrite (ld_history _ _ _ _ _ _ _ L).
Qed.

Lemma version_count_spec s M B m key : vrest s M B m → fits_in chain_fuel M →
  wp (vmap_version_count chain_fuel retries key) (λ r s', s' = s ∧ r = from_option (λ e, length e.2) 0%nat (M !! key)) s.
Proof using Hretries.
  intros R HF. eapply on_leaf_spec; [exact R|by intros ->|]. intros l x c L. apply wp_bind. eapply wp_leaf_read; [apply L|].
  apply wp_bind. eapply chain_spec; [apply L|by eapply linked_chain|by eapply linked_fits|].
  intros rs HR%Forall2_length. apply wp_ret. rewrite (ld_history _ _ _ _ _ _ _ L). split; [done|]. cbn. by rewrite length_fmap.
Qed.

Lemma all_versions_spec s M B m key : vrest s M B m → fits_in chain_fuel M →
  wp (vmap_get_all_versions chain_fuel retries key) (λ r s', s' = s ∧ r = from_option snd [] (M !! key)) s.
Proof using Hretries.
  intros R HF. eapply on_leaf_spec; [exact R|by intros ->|]. intros l x c L. apply wp_bind. eapply wp_leaf_read; [apply L|].
  eapply chain_spec; [apply L|by eapply linked_chain|by eapply linked_fits|].
  intros rs HR. split; [done|]. rewrite (ld_history _ _ _ _ _ _ _ L). cbn.
  assert (∀ e, e ∈ c → ∀ n, vl_deref x e.1 = Some n → data n = e.2 → version_value n = vn_value n) as HV.
  { intros [p d] He n Hn Hd. cbn in Hn, Hd. subst d. destruct (chain_node x c [] [] p (data n) (ld_chain _ _ _ _ _ _ _ L) He) as (n' & Hn' & _ & Hfl).
    assert (n' = n) as -> by congruence. by eapply flags_value. }
  clear L. induction HR as [|e r c rs (n & Hn & Hd & ->) HR IH]; [done|]. rewrite fmap_cons, <- Hd. f_equal.
  - unfold data. f_equal. apply (HV e); [by left|done..].
  - apply IH. intros e' He'. apply HV. by right.
Qed.
End vholds.
