(* ===== verification/VMapOps.v ===== *)
(** * What the operations of a versioned map do to the map

    Each operation of [VMap.v] that changes the tree, against the finite map
    from keys to histories: what it returns, and the map that the tree holds
    afterwards. No operation drops or rewrites a leaf or the data of a version
    node that a handle may have captured ([vkept]). *)

From stdpp Require Import sorting.
From S2P Require Import Prelude Bytes Latch Slot Bits Node NodeSpec NodeOps Free Mem Shape Raw Read Write Remove Shrink Inv Descent Update Pool Commits Rules WriteSpec RemoveSpec ShrinkSpec Walk WalkSpec Tree Map MapSpec Version VTree VMap VersionSpec VLeafSpec VMapSpec.
Local Open Scope Z_scope.

Section ops.
Context {SL K V St : Type} {SLO : LeafSlots SL V} {SLL : SlotsLaws SL V} {AB : AsBytes K} {LY : Layout St}.
Abbreviation leaf := (VersionedLeaf SL K V).
Abbreviation tree := (RawTree leaf St).
Abbreviation wf := (wf (EX := at_rest)).
Abbreviation history := (list (Z * option V)).
Implicit Types (s : tree) (m : gmap path loc) (M : gmap path (K * history)) (x : leaf).
Context (chain_fuel retries : nat) (Hretries : (0 < retries)%nat).
Abbreviation prog := (prog leaf).

(** A linked leaf, seen in the form of the rules. *)
Lemma linked_set s M m k l x c : linked s M m k l x c → set_leaf l x s = s.
Proof using. intros L. apply set_leaf_id, L. Qed.

(** Taking the latch of a linked leaf. *)
Lemma linked_lock s M m k l x c (Q : bool → tree → Prop) : linked s M m k l x c →
  Q true (set_leaf l (vl_set_latch CHAIN_LOCKED x) s) → wp (chain_lock l) Q s.
Proof using. intros L HQ. rewrite <- (linked_set _ _ _ _ _ _ _ L). by apply wp_chain_lock; [apply L|]. Qed.

Lemma unlock_lock w x : vl_chain_latch x = chain_new → vl_set_latch chain_new (vl_set_latch w x) = x.
Proof using. destruct x. cbn. by intros ->. Qed.

(** Dropping the latch again changes nothing. *)
Lemma relock s M m k l x c w : linked s M m k l x c → set_leaf l (vl_set_latch chain_new (vl_set_latch w x)) s = s.
Proof using. intros L. rewrite unlock_lock by apply L. by eapply linked_set. Qed.

(** ** Inserts *)

(** The key and history of [k], [key] if there is none. *)
Definition entry_at (key : K) M : K * history := default (key, []) (M !! as_bytes key).

Definition m_insert (key : K) (v : Z) (o : option V) M : gmap path (K * history) :=
  let e := entry_at key M in <[as_bytes key := (e.1, h_insert v o e.2)]> M.

Definition delta_of (h h' : history) : Z := Z.b2z (h_live h') - Z.b2z (h_live h).

(** The leaf of a new key is linked. *)
Lemma vrest_link s s' B B' m M l x c : vrest s M B m → M !! as_bytes (vl_key x) = None → t_leaves s !! l = None →
  leaf_ok x c → vl_chain_latch x = chain_new →
  wf s' B' (<[as_bytes (vl_key x) := l]> m) ∅ → t_leaves s' = <[l := x]> (t_leaves s) → t_owned s' = ∅ →
  Counter.sum (t_len s') = Counter.wrap_i64 (live_size M + Z.b2z (h_live c.*2)) →
  vrest s' (<[as_bytes (vl_key x) := (vl_key x, c.*2)]> M) B' (<[as_bytes (vl_key x) := l]> m) ∧ vkept s s'.
Proof using.
  clear Hretries. intros [W Ho HG HE HL] HM Hl C El W' E1 E2 E3. split.
  - split; [done..| | |].
    + intros l' y. rewrite E1. destruct (decide (l' = l)) as [->|Hne]; [rewrite lookup_insert_eq|rewrite lookup_insert_ne by done; apply HG].
      intros [= <-]. by exists c, false.
    + intros k. rewrite E1. destruct (decide (k = as_bytes (vl_key x))) as [->|Hne].
      * rewrite lookup_insert_eq. exists x, c. by rewrite !lookup_insert_eq.
      * rewrite !lookup_insert_ne by done. pose proof (HE k) as X. destruct (m !! k) as [l'|]; [|done].
        destruct X as (y & c' & Hy & X). exists y, c'. rewrite lookup_insert_ne by congruence. done.
    + rewrite E3. f_equal. unfold live_size. rewrite map_sum_insert, HM. cbn. lia.
  - intros l' y Hy. rewrite E1. exists y. split; [|done]. by rewrite lookup_insert_ne by congruence.
Qed.

(** ** Unlinking a leaf *)

(** The history says the number of versions, the tree loses the key. The check
    accepts the locked leaf. *)
Lemma unlink_leaf_spec s M B m k l x c check : vrest s M B m → linked s M m k l x c → fits_in chain_fuel M →
  (∀ (Q : bool → tree → Prop) s', t_leaves s' !! l = Some (vl_set_latch CHAIN_LOCKED x) → Q true s' → wp (check l) Q s') →
  wp (unlink_leaf chain_fuel retries l check) (λ u s', u = Unlinked.Done (length c) ∧ vholds s' (delete k M) ∧ vkept s s') s.
Proof using Hretries.
  intros R L HF Hck. unfold unlink_leaf. apply wp_bind. eapply wp_leaf_read; [apply L|]. cbn [key_bytes versioned_leaf_node].
  rewrite (ld_key _ _ _ _ _ _ _ L). apply wp_bind. eapply wp_exec; [done|]. set (s0 := set_t_cell None s).
  assert (wf s0 B m ∅) as W0 by (apply wf_cell, R).
  apply wp_bind. eapply wp_mono.
  { eapply (remove_confirmed_spec k _ (unlink_confirm chain_fuel check) retries (λ c _, bool_decide (c = l))
      (λ _ y, Some (Z.b2z (h_live c.*2), vl_set_latch CHAIN_DEAD y)) (λ _ _ _, Some (Some (length c)))); [done|exact W0|..].
    - intros l' y Q s' _ _ HQ. by apply wp_ret.
    - intros l' y Q s' Hy Hry ->%bool_decide_eq_true Hy' HQ. assert (y = x) as ->.
      { pose proof (ld_leaf _ _ _ _ _ _ _ L) as Hx. unfold s0 in Hy. cbn in Hy. congruence. }
      unfold unlink_confirm. apply wp_bind. eapply wp_exec; [done|]. cbn [fst snd fmap option_fmap option_map from_option] in HQ.
      set (s1 := set_t_cell (Some None) s').
      rewrite <- (set_leaf_id l x s1) by done. apply wp_bind, wp_chain_lock; [apply L|]. cbn [negb]. apply wp_bind.
      apply Hck; [apply set_leaf_lookup|]. cbn [negb]. apply wp_bind. eapply wp_leaf_read; [apply set_leaf_lookup|].
      assert (leaf_ok (vl_set_latch CHAIN_LOCKED x) c) as C by (apply chain_inv_latch, L).
      apply wp_bind. eapply chain_spec; [apply set_leaf_lookup|apply C|by eapply linked_fits|]. intros rs HR%Forall2_length. rewrite <- HR.
      apply wp_bind. eapply wp_exec; [done|].
      change (set_t_cell ?a (set_leaf l ?b s1)) with (set_leaf l b (set_t_cell a s')). apply wp_bind.
      eapply head_live_spec; [apply set_leaf_lookup|exact C|]. apply wp_bind. eapply wp_leaf_write; [done|]. apply wp_ret. exact HQ.
    - intros l' y Hy ->%bool_decide_eq_true. pose proof (ld_leaf _ _ _ _ _ _ _ L) as Hx. unfold s0 in Hy. cbn in Hy.
      assert (y = x) as -> by congruence. apply (ld_key _ _ _ _ _ _ _ L).
    - intros l' y ? ? Hy [= <- <-]. cbn. by eexists. }
  intros [l'|] s' HD.
  - destruct HD as (y & n & x1 & x2 & B' & Hm & Hy & ->%bool_decide_eq_true & [= <- <-] & [= <-] & LU & Elen & Estr & Ecell & W').
    assert (y = x) as -> by (pose proof (ld_leaf _ _ _ _ _ _ _ L) as Hx; unfold s0 in Hy; cbn in Hy; congruence).
    apply wp_bind. eapply wp_exec; [done|]. rewrite Ecell. unfold cell_after. rewrite Hm, Hy, bool_decide_true by done.
    apply wp_ret. split; [done|]. eapply vholds_unlink; [exact R|exact L|destruct LU; by split|exact Elen|exact W'].
  - destruct HD as (Hn & _). destruct (Hn l x (ld_map _ _ _ _ _ _ _ L) (ld_leaf _ _ _ _ _ _ _ L)) as [E|?]; [|done].
    by rewrite bool_decide_true in E.
Qed.

Lemma remove_key_spec s M B m key : vrest s M B m → fits_in chain_fuel M →
  wp (remove_key chain_fuel retries key) (λ r s', vholds s' (delete key M) ∧ vkept s s' ∧ r = bool_decide (is_Some (M !! key))) s.
Proof using Hretries.
  intros R HF. apply wp_loop_once; [done|]. unfold remove_key_turn. apply wp_bind. eapply vget_spec; [done|exact R|..].
  - intros HM. apply wp_ret. rewrite HM, delete_id by done. split_and!; [by exists B, m|done|done].
  - intros l x c L. apply wp_bind. eapply wp_mono; [apply (unlink_leaf_spec s M B m key l x c); [done..|]|].
    + intros Q s' _ HQ. by apply wp_ret.
    + intros u s' (-> & H1 & H2). apply wp_ret. split_and!; [done..|]. by rewrite (ld_history _ _ _ _ _ _ _ L).
Qed.

(** ** Removing a version *)

(** The entry [(key, h)] gives way to [h'], or goes if [h'] is empty. *)
Definition m_put (k : path) (key : K) (h : history) M : gmap path (K * history) :=
  if decide (h = []) then delete k M else <[k := (key, h)]> M.

Definition m_remove_version (k : path) (v : Z) M : gmap path (K * history) :=
  match M !! k with Some e => m_put k e.1 (h_remove v e.2) M | None => M end.

Definition has_version (k : path) (v : Z) M : bool :=
  match M !! k with Some e => bool_decide (v ∈ e.2.*1) | None => false end.

(** On the leaf or on the locked leaf. *)
Lemma only_version_spec l x c v s (Q : bool → tree → Prop) : t_leaves s !! l = Some x → leaf_ok x c →
  Q (match c with [(_, d)] => d.1 =? v | _ => false end) s → wp (only_version v l) Q s.
Proof using.
  intros Hx C HQ. unfold only_version. apply wp_bind. eapply wp_leaf_read; [exact Hx|].
  pose proof (ci_chain _ _ _ _ C) as Hc. destruct c as [|[p d] c]; [by destruct (ci_nonempty _ _ _ _ C)|].
  destruct Hc as (-> & n & Hn & <- & Hc). apply wp_bind. eapply wp_version_read; [exact Hx|exact Hn|]. cbn in HQ.
  destruct (Z.eqb_spec (vn_version n) v) as [E|E]; [|apply wp_ret; by destruct c].
  apply wp_bind. eapply wp_version_read; [exact Hx|exact Hn|]. apply wp_ret. rewrite (seg_start _ _ _ Hc).
  destruct c as [|[q e] c]; [by rewrite bool_decide_true|]. rewrite bool_decide_false; [done|].
  destruct Hc as (_ & n' & Hn' & _). cbn. by intros ->.
Qed.

Lemma vholds_put s M B m k l x x' c c' : vrest s M B m → linked s M m k l x c → leaf_ok x' c' → vl_chain_latch x' = chain_new →
  kept x x' →
  let s' := set_t_len (counted (delta_of c.*2 c'.*2) s) (set_leaf l x' s) in
  vholds s' (m_put k (vl_key x) c'.*2 M) ∧ vkept s s'.
Proof using.
  intros R L C' El HK. unfold m_put. rewrite decide_False; [by apply (vholds_update s B m)|].
  intros E%fmap_nil_inv. by apply (ci_nonempty _ _ _ _ C').
Qed.

Lemma remove_version_spec s M B m key v : vrest s M B m → fits_in chain_fuel M →
  wp (remove_version chain_fuel retries key v) (λ r s', vholds s' (m_remove_version key v M) ∧ vkept s s' ∧ r = has_version key v M) s.
Proof using Hretries.
  intros R HF. unfold m_remove_version, has_version. apply wp_loop_once; [done|]. unfold remove_version_turn.
  apply wp_bind. eapply vget_spec; [done|exact R|..].
  { intros HM. apply wp_ret. rewrite HM. split_and!; [by exists B, m|done|done]. }
  intros l x c L. rewrite (ld_history _ _ _ _ _ _ _ L). cbn [fst snd].
  pose proof (ld_chain _ _ _ _ _ _ _ L) as C. apply wp_bind. eapply only_version_spec; [apply L|exact C|]. apply wp_bind.
  destruct (match c with [(_, d)] => d.1 =? v | _ => false end) eqn:Honly.
  - apply wp_bind. eapply wp_mono; [apply (unlink_leaf_spec s M B m key l x c); [done..|]|].
    + intros Q s' Hx HQ. eapply only_version_spec; [exact Hx|by apply chain_inv_latch|]. by rewrite Honly.
    + intros u s' (-> & H1 & H2). apply wp_ret, wp_ret. destruct c as [|[p d] [|]]; [done| |done]. apply Z.eqb_eq in Honly as <-.
      split_and!; [|done|].
      * assert (h_remove d.1 [(p, d)].*2 = []) as -> by (apply filter_none; repeat constructor; cbn; by intros Hne). done.
      * symmetry. apply bool_decide_eq_true. cbn. by left.
  - apply wp_ret, wp_bind. eapply linked_lock; [exact L|]. cbn [negb].
    eapply remove_version_locked_spec; [by apply chain_inv_latch|done|by eapply linked_fits|..].
    + intros E. rewrite (relock _ _ _ _ _ _ _ _ L). unfold m_put. rewrite E, decide_False.
      2:{ intros E0%fmap_nil_inv. by apply (ci_nonempty _ _ _ _ C). }
      pose proof (ld_history _ _ _ _ _ _ _ L) as HM. rewrite (insert_id M key) by done. split_and!; [by exists B, m|done|].
      symmetry. apply bool_decide_eq_false. by apply h_remove_absent.
    + intros E. destruct (h_remove_all v c (ci_sorted _ _ _ _ C) (ci_nonempty _ _ _ _ C) E) as (p & d & -> & Ed).
      by apply Z.eqb_neq in Honly.
    + intros x' c' C' E Hne HK El d. subst d.
      destruct (vholds_put s M B m key l x x' c c' R L C' El) as [H1 H2]; [by etrans; [apply (kept_latch CHAIN_LOCKED)|]|].
      rewrite <- E. split_and!; [done|done|]. symmetry. apply bool_decide_eq_true. apply dec_stable. intros Hin%h_remove_absent. congruence.
Qed.

(** ** The replacement of the head *)

(** The tombstone has the version of the head. *)
Definition m_remove_head (k : path) M : gmap path (K * history) :=
  match M !! k with
  | Some (key, (v, Some _) :: h) => <[k := (key, (v, None) :: h)]> M
  | _ => M
  end.

(** A handle on a captured version. *)
Definition vhandle s (e : VersionedEntryRef) (key : K) (d : Z * V) : Prop :=
  ∃ x n, t_leaves s !! ve_leaf e = Some x ∧ vl_key x = key ∧ vl_deref x (ve_node e) = Some n ∧ data n = (d.1, Some d.2).

(** ** Pruning *)

Definition m_prune (k : path) (min : Z) (is_tombstone : V → bool) M : gmap path (K * history) :=
  match M !! k with
  | Some e => match h_prune min is_tombstone e.2 with Some h => <[k := (e.1, h)]> M | None => delete k M end
  | None => M
  end.

Definition pruned_count (k : path) (min : Z) (is_tombstone : V → bool) M : nat :=
  match M !! k with
  | Some e => length e.2 - from_option length 0%nat (h_prune min is_tombstone e.2)
  | None => 0
  end.

(** The newest version up to [min] of a leaf. *)
Lemma find_t_spec s l x c min (Q : option vptr → tree → Prop) : leaf_ok x c → (length c < chain_fuel)%nat → t_leaves s !! l = Some x →
  (Forall (λ e, ¬ e.2.1 <= min) c → Q None s) →
  (∀ c1 t d c3, c = c1 ++ (t, d) :: c3 → Forall (λ e, ¬ e.2.1 <= min) c1 → d.1 <= min → Q (Some t) s) →
  wp (find_le_ptr chain_fuel l (vl_head x) min) Q s.
Proof using AB.
  intros C Hf Hx H0 H1. eapply find_le_spec; [exact Hx|apply C|done|]. destruct (head _) as [[t d]|] eqn:E; cbn.
  - apply head_filter in E as (c1 & c3 & -> & F & Hd). by apply (H1 c1 t d c3).
  - apply H0, Forall_forall. intros e He Hle. destruct (filter (λ e, e.2.1 <= min) c) as [|e' ?] eqn:E'; [|done].
    assert (e ∈ filter (λ e, e.2.1 <= min) c) as X by by apply list_elem_of_filter. rewrite E' in X. by apply elem_of_nil in X.
Qed.

Lemma vholds_self s M B m k e : vrest s M B m → M !! k = Some e → vholds s (<[k := e]> M) ∧ vkept s s.
Proof using. intros R E. rewrite insert_id by done. split; [by exists B, m|done]. Qed.

(** What a trim owes ([prune_trim_spec]). *)
Definition trim_ok (trim : loc → vptr → prog nat) : Prop := ∀ l t x c1 d c3 s (Q : nat → tree → Prop),
  leaf_ok x (c1 ++ (t, d) :: c3) → vl_chain_latch x = CHAIN_LOCKED → (length (c1 ++ (t, d) :: c3) < chain_fuel)%nat →
  (∀ x', leaf_ok x' (c1 ++ [(t, d)]) → vl_chain_latch x' = chain_new → kept x x' → Q (length c3) (set_leaf l x' s)) →
  wp (trim l t) Q (set_leaf l x s).

Lemma prune_with_spec trim s M B m k l x c min is_tomb : trim_ok trim → vrest s M B m → linked s M m k l x c → fits_in chain_fuel M →
  wp (loop 65 (prune_turn chain_fuel retries trim l min is_tomb) 0%nat) (λ n s', vholds s' (m_prune k min is_tomb M) ∧ vkept s s' ∧
    n = pruned_count k min is_tomb M) s.
Proof using Hretries.
  intros Htrim R L HF. unfold m_prune, pruned_count. rewrite (ld_history _ _ _ _ _ _ _ L). cbn [fst snd]. apply wp_loop_once; [lia|].
  unfold prune_turn. rewrite bool_decide_false by done. apply wp_bind. eapply wp_leaf_read; [apply L|].
  pose proof (ld_chain _ _ _ _ _ _ _ L) as C. pose proof (ld_history _ _ _ _ _ _ _ L) as HM.
  pose proof (linked_fits _ _ _ _ _ _ _ _ HF L) as Hf. apply wp_bind. eapply find_t_spec; [exact C|done|apply L|..].
  { intros F. apply wp_ret. assert (h_prune min is_tomb c.*2 = Some c.*2) as ->.
    { destruct c as [|[p d] c]; [done|]. unfold h_prune. rewrite fmap_cons. cbn [snd fst].
      rewrite bool_decide_false by (by apply Forall_cons in F as [? _]). cbn [andb]. f_equal.
      apply h_trim_none. apply (Forall_fmap snd (λ e, ¬ e.1 <= min) ((p, d) :: c)). exact F. }
    destruct (vholds_self s M B m k _ R HM) as [H1 H2]. split_and!; [done..|]. cbn. lia. }
  intros c1 t d c3 -> F Hd. apply wp_bind.
  eapply (wp_mono _ (λ o s', match o with
    | Some o => c1 = [] ∧ none_or is_tomb d.2 = true ∧ o = Some (length (c1 ++ (t, d) :: c3)) ∧ vholds s' (delete k M) ∧ vkept s s'
    | None => s' = s ∧ (c1 = [] → none_or is_tomb d.2 = false)
    end)).
  { unfold prune_dead_key. destruct (linked_head _ _ _ _ _ _ _ L) as (p & e & c' & Ec & ->).
    destruct (linked_version _ _ _ _ _ _ _ t d L) as (n & Hn & _ & Hv & _); [set_solver|].
    destruct (decide (t = p)) as [->|Hne].
    - rewrite bool_decide_true by done. assert (c1 = []) as ->.
      { destruct c1 as [|[q1 d1] c1]; [done|]. injection Ec as -> _ _. pose proof (chain_nodup _ _ _ _ C) as ND. cbn in ND.
        apply NoDup_cons in ND as [ND _]. destruct ND. rewrite fmap_app. apply elem_of_app. right. by left. }
      injection Ec as <- <-. apply wp_bind, wp_bind. eapply wp_version_read; [apply L|exact Hn|]. apply wp_ret. rewrite Hv.
      destruct (none_or is_tomb d.2); cbn [negb]; [|by apply wp_ret]. apply wp_bind.
      eapply wp_mono; [apply (unlink_leaf_spec s M B m k l x ([] ++ (p, d) :: c3)); [done..|]|].
      + intros Q s' Hx HQ. apply wp_bind. eapply wp_leaf_read; [exact Hx|]. apply wp_ret.
        rewrite bool_decide_true; [done|]. cbn. apply (chain_head _ _ _ _ C).
      + intros u s' (-> & H1 & H2). by apply wp_ret.
    - rewrite bool_decide_false by done. apply wp_bind, wp_ret. cbn [negb]. apply wp_ret. split; [done|]. intros ->.
      by injection Ec as -> _ _. }
  intros [o|] s' HD.
  { destruct HD as (-> & Ht & -> & H1 & H2). apply wp_ret. cbn [app fmap list_fmap snd h_prune].
    rewrite bool_decide_true, Ht by done. cbn [andb]. split_and!; [done..|]. cbn. by rewrite length_fmap. }
  destruct HD as [-> Hne]. apply wp_bind. eapply linked_lock; [exact L|]. cbn [negb].
  set (xl := vl_set_latch CHAIN_LOCKED x). assert (leaf_ok xl (c1 ++ (t, d) :: c3)) as Cl by by apply chain_inv_latch.
  apply wp_bind. eapply wp_leaf_read; [apply set_leaf_lookup|]. apply wp_bind.
  eapply find_t_spec; [exact Cl|done|apply set_leaf_lookup|..].
  { intros F'. apply Forall_app in F' as [_ F']. by apply Forall_cons in F' as [? _]. }
  intros c1' t' d' c3' E F' Hd'. assert ((t', d') = (t, d)) as [= -> ->].
  { symmetry. eapply (split_unique (λ e : vptr * (Z * option V), e.2.1 <= min)); [exact E|done..]. }
  rewrite bool_decide_true by done. destruct (chain_node xl _ [] [] t d Cl) as (n & Hn & _ & Hfl); [set_solver|].
  apply wp_bind. eapply wp_version_read; [apply set_leaf_lookup|exact Hn|]. rewrite (flags_superseded n _ _ Hfl). apply wp_bind.
  eapply Htrim; [exact Cl|done|done|]. intros x' C' El HK. apply wp_ret.
  assert (h_trim min (c1 ++ (t, d) :: c3).*2 = (c1 ++ [(t, d)]).*2) as ET.
  { rewrite !fmap_app. apply h_trim_split; [by apply Forall_fmap|done|]. pose proof (ci_sorted _ _ _ _ C) as HS. by rewrite fmap_app in HS. }
  assert (h_prune min is_tomb (c1 ++ (t, d) :: c3).*2 = Some (c1 ++ [(t, d)]).*2) as EP.
  { rewrite <- ET. destruct c1 as [|[p e] c1]; cbn [app fmap list_fmap snd h_prune].
    - rewrite Hne by done. by rewrite andb_false_r.
    - rewrite bool_decide_false; [done|]. by apply Forall_cons in F as [? _]. }
  rewrite EP. destruct (vholds_update s B m M k l x x' _ _ R L C' El) as [H1 H2]; [by etrans; [apply (kept_latch CHAIN_LOCKED)|]|].
  assert (h_live (c1 ++ [(t, d)]).*2 = h_live (c1 ++ (t, d) :: c3).*2) as EL by by destruct c1.
  rewrite EL, Z.sub_diag in H1, H2. replace (set_t_len (counted 0 s) (set_leaf l x' s)) with (set_leaf l x' s) in H1, H2 by by destruct s.
  split_and!; [done..|]. cbn. rewrite !length_fmap, !length_app. cbn. lia.
Qed.

Lemma prune_leaf_spec s M B m k l x c min is_tomb : vrest s M B m → linked s M m k l x c → fits_in chain_fuel M →
  wp (prune_leaf chain_fuel retries l min is_tomb) (λ n s', vholds s' (m_prune k min is_tomb M) ∧ vkept s s' ∧
    n = pruned_count k min is_tomb M) s.
Proof using Hretries. apply prune_with_spec. intros l' t x' c1 d c3 s' Q. apply prune_trim_spec. Qed.

Lemma prune_key_spec s M B m k min is_tomb : vrest s M B m → fits_in chain_fuel M →
  wp (vmap_prune_key chain_fuel retries k min is_tomb) (λ n s', vholds s' (m_prune k min is_tomb M) ∧ vkept s s' ∧
    n = pruned_count k min is_tomb M) s.
Proof using Hretries.
  intros R HF. eapply on_leaf_spec; [done|exact R|..].
  - intros HM. unfold m_prune, pruned_count. rewrite HM. split_and!; [by exists B, m|done|done].
  - intros l x c L. by apply (prune_leaf_spec s M B m k l x c).
Qed.

(** ** Whole trees *)

Definition vl_live x : bool := match vl_deref x (vl_head x) with Some n => negb (is_tombstone n) | None => false end.

Lemma vl_live_chain x c fr gone : chain_inv x c fr gone → vl_live x = h_live c.*2.
Proof using. intros C. destruct (chain_head_node x c fr gone C) as (n & Hn & E). unfold vl_live. by rewrite Hn, E, negb_involutive. Qed.

(** The count of the tree's leaves is the number of live keys. *)
Lemma total_live s M B m (f : leaf → Z) : vrest s M B m → (∀ x, f x = Z.b2z (vl_live x)) → total_in f s m = live_size M.
Proof using.
  intros R Hf. apply map_sum_ext. intros k. pose proof (vrest_lookup s M B m k R) as X. destruct (m !! k) as [l|].
  - destruct X as (x & c & L). rewrite (ld_history _ _ _ _ _ _ _ L). constructor. unfold weigh.
    rewrite (ld_leaf _ _ _ _ _ _ _ L). cbn. rewrite Hf. f_equal. eapply vl_live_chain, L.
  - rewrite X. constructor.
Qed.

Definition detached x : Z * leaf := (Z.b2z (vl_live x), vl_set_latch CHAIN_DEAD x).

Lemma counts_live : counts (L := leaf) (St := St) (λ x, (∃ c, leaf_ok x c) ∧ vl_chain_latch x = chain_new) clear_count detached.
Proof using.
  intros l x Q s [[c C] El] _ Hx HQ. unfold clear_count. rewrite <- (set_leaf_id l x s Hx). apply wp_bind, wp_chain_lock; [done|].
  cbn [negb]. apply wp_bind. eapply head_live_spec; [apply set_leaf_lookup|by apply chain_inv_latch|].
  apply wp_bind. eapply wp_leaf_write; [done|]. apply wp_ret. specialize (HQ (vl_set_latch CHAIN_DEAD x) eq_refl).
  cbn [detached fst] in HQ. by rewrite (vl_live_chain x c [] [] C) in HQ.
Qed.

Lemma vmap_clear_spec fuel s M B m : vrest s M B m → (size (t_nodes s) + size (t_leaves s) < fuel)%nat →
  wp (vmap_clear fuel) (λ _ s', vholds s' ∅ ∧ vkept s s') s.
Proof using AB.
  clear Hretries. intros R Hf. eapply wp_mono.
  { eapply (clear_spec s B m ∅ (vr_wf _ _ _ _ R) _ clear_count detached counts_live); [| |done].
    - intros k l x Hk Hx. pose proof (vrest_lookup s M B m k R) as X. rewrite Hk in X. destruct X as (y & c & [_ Hy C El _ _]).
      assert (y = x) as -> by congruence. split; [by exists c|done].
    - intros k l x _ _. exists (vl_set_latch CHAIN_DEAD x). done. }
  intros _ s' [W' Elen Eo Hin Hout].
  assert (∀ l x, t_leaves s !! l = Some x → t_leaves s' !! l = Some (vl_set_latch CHAIN_DEAD x) ∨ t_leaves s' !! l = Some x) as HL.
  { intros l x Hx. destruct (wf_leaves _ _ _ _ (vr_wf _ _ _ _ R) l) as [y H1 H2 H3 _ _|y H1 H2 H3|y H1 H2 H3 _ H5|H1]; [left|right..|congruence].
    - by rewrite (Hin _ l H3), Hx.
    - by rewrite (Hout l H3).
    - by rewrite (Hout l H3). }
  split; [exists ∅, ∅; split; [done|by rewrite Eo; apply R|..]|].
  - intros l x' Hx'. destruct (t_leaves s !! l) as [x|] eqn:Hx.
    + destruct (vr_good _ _ _ _ R l x Hx) as (c & dead & C & El).
      destruct (HL l x Hx) as [E|E]; rewrite E in Hx'; injection Hx' as <-; [|by exists c, dead].
      exists c, true. split; [by apply chain_inv_latch|done].
    + destruct (wf_leaves _ _ _ _ (vr_wf _ _ _ _ R) l) as [y H1 H2 H3|y H1 H2 H3|y H1 H2 H3|H1 H3]; [congruence..|].
      rewrite (Hout l H3) in Hx'. congruence.
  - intros k. by rewrite !lookup_empty.
  - rewrite Elen, (sum_counted _ s B m ∅ (live_size M) (vr_wf _ _ _ _ R)) by apply R. f_equal. rewrite (total_live s M B m) by done.
    unfold live_size. rewrite map_sum_empty. lia.
  - intros l x Hx. destruct (HL l x Hx) as [E|E]; eexists; split; try exact E; [apply kept_latch|done].
Qed.

Lemma vmap_validate_spec fuel s M B m : vrest s M B m → Z.of_nat (size M) < 2 ^ 63 →
  (2 * (size (t_nodes s) + size (t_leaves s)) + 1 < fuel)%nat → wp (vmap_validate_invariants fuel) (λ _ s', s' = s) s.
Proof using AB.
  clear Hretries. intros R Hs Hf. pose proof (live_size_bounds M) as HB. unfold vmap_validate_invariants. apply wp_bind.
  eapply wp_mono; [eapply (validate_spec s B m ∅ (vr_wf _ _ _ _ R) live_count (λ x, Z.b2z (vl_live x)))|].
  - intros k l x Q Hk Hx HQ. unfold live_count. apply wp_bind. pose proof (vrest_lookup s M B m k R) as X. rewrite Hk in X.
    destruct X as (y & c & [_ Hy C _ _ _]). assert (y = x) as -> by congruence.
    eapply head_live_spec; [exact Hx|exact C|]. apply wp_ret. by rewrite <- (vl_live_chain x c [] [] C).
  - set_solver.
  - done.
  - rewrite (total_live s M B m) by done. rewrite (vr_len _ _ _ _ R). apply Counter.wrap_i64_small. lia.
  - rewrite (total_live s M B m) by done. lia.
  - intros n s' [-> _]. by apply wp_ret.
Qed.

Lemma vmap_shrink_spec fuel s M B m : vrest s M B m → (2 * size (t_nodes s) < fuel)%nat →
  wp (vmap_shrink_to_fit fuel) (λ _ s', vholds s' M ∧ vkept s s') s.
Proof using AB.
  clear Hretries. intros R Hf. eapply wp_mono; [apply (shrink_spec (EX := at_rest) fuel s m B); [set_solver|apply R|lia]|].
  intros _ s' (B' & W' & [K1 _ K3 K4 _] & _). by eapply vholds_same.
Qed.

Lemma vmap_len_spec s M B m : vrest s M B m → Z.of_nat (size M) < 2 ^ 63 → wp vmap_len (λ n s', s' = s ∧ n = live_size M) s.
Proof using AB.
  clear Hretries. intros R Hs. pose proof (live_size_bounds M) as HB. unfold vmap_len, vtree_len, raw_len. apply wp_bind. eapply wp_exec; [done|]. apply wp_ret.
  rewrite (vr_len _ _ _ _ R), Counter.wrap_i64_small by lia. split; [done|lia].
Qed.
End ops.

(** ** The operations that make version nodes on the heap *)

Section heap.
Context {K V : Type} {AB : AsBytes K}.
Abbreviation leaf := (HeapLeaf K V).
Abbreviation tree := (RawTree leaf HeapStorage).
Abbreviation wf := (wf (EX := at_rest)).
Abbreviation history := (list (Z * option V)).
Implicit Types (s : tree) (m : gmap path loc) (M : gmap path (K * history)) (x : leaf).
Context (chain_fuel retries : nat) (Hretries : (0 < retries)%nat).
Abbreviation prog := (prog leaf).

Lemma apply_linked s M B m k l x c v o (Q : Z → tree → Prop) : vrest s M B m → linked s M m k l x c → fits_in chain_fuel M →
  (∀ s', vholds s' (<[k := (vl_key x, h_insert v o c.*2)]> M) → vkept s s' → Q (delta_of c.*2 (h_insert v o c.*2)) s') →
  wp (apply_locked chain_fuel l v o) Q (set_leaf l (vl_set_latch CHAIN_LOCKED x) s).
Proof using.
  intros R L HF HQ. eapply apply_locked_spec; [by apply chain_inv_latch, L|done|by eapply linked_fits|].
  intros x' c' C' E Hk El d. unfold delta_of in HQ. rewrite <- E in HQ. subst d.
  destruct (vholds_update s B m M k l x x' c c' R L C' El) as [H1 H2]; [by etrans; [apply (kept_latch CHAIN_LOCKED)|]|].
  by apply HQ.
Qed.

Lemma versioned_leaf_new_ok (key : K) v (o : option V) : leaf_ok (versioned_leaf_new key v o) [(VSlot0, (v, o))].
Proof using.
  split; cbn; try done.
  - split; [done|]. by eexists.
  - repeat constructor.
  - split; [by eexists|by left].
  - intros [] nd; cbn; try done. intros [= <-]. rewrite bool_decide_true by by left. apply flags_new.
  - intros p ->%list_elem_of_singleton. by eexists.
  - intros i. rewrite lookup_empty. split; [by intros []|]. by intros [=]%list_elem_of_singleton.
  - apply NoDup_singleton.
Qed.

Lemma vtree_insert_spec s M B m key v o : vrest s M B m → fits_in chain_fuel M →
  wp (vtree_insert chain_fuel retries key v o) (λ d s', vholds s' (m_insert key v o M) ∧ vkept s s' ∧
    d = delta_of (entry_at key M).2 (h_insert v o (entry_at key M).2)) s.
Proof using Hretries.
  intros R HF. unfold vtree_insert, m_insert, entry_at. apply wp_bind, wp_loop_once; [done|]. unfold vinsert_fast_turn. apply wp_bind.
  eapply vget_spec; [done|exact R|..].
  2:{ intros l x c L. apply wp_bind. eapply linked_lock; [exact L|]. apply wp_bind. eapply apply_linked; [exact R|exact L|done|].
    intros s' H1 H2. apply wp_ret, wp_ret. by rewrite (ld_history _ _ _ _ _ _ _ L). }
  intros HM. apply wp_ret. rewrite HM. cbn [default fst snd]. set (count := Z.b2z _). apply wp_bind. eapply wp_exec; [done|].
  set (l := fresh _). assert (t_leaves s !! l = None) as Hl by (apply not_elem_of_dom, is_fresh). clearbody l.
  unfold owner_new. apply wp_bind. eapply wp_exec; [done|].
  set (x := versioned_leaf_new key v o). pose proof (wf_alloc_leaf s B m ∅ l x (vr_wf _ _ _ _ R) Hl eq_refl) as W1.
  match type of W1 with Inv.wf ?s0 _ _ _ => set (s1 := s0) in *; change (set_t_owned _ _) with s1 end.
  assert (live_key s1 l = Some (as_bytes key)) as Hk by (apply live_key_Some; exists x; split_and!; [apply lookup_insert_eq|done..]).
  assert (t_owned s1 = {[l]}) as Ho1 by (cbn; rewrite (vr_owned _ _ _ _ R); set_solver).
  apply wp_bind. eapply wp_leaf_key; [exact Hk|]. apply wp_bind, wp_loop_once; [done|]. unfold vinsert_slow_turn. apply wp_bind.
  unfold insert. apply wp_bind.
  eapply wp_mono; [eapply (insert_hinted_spec (EX := at_rest)); [done|exact W1|rewrite Ho1; set_solver|exact Hk|by intros [=]]|].
  intros [r h] s2 HD. apply wp_ret. unfold insert_done in HD. cbn [fst snd] in HD.
  assert (m !! as_bytes key = None) as Hm.
  { pose proof (vrest_lookup s M B m (as_bytes key) R) as X. destruct (m !! as_bytes key); [|done]. destruct X as (? & ? & [_ _ _ _ _ X]). congruence. }
  destruct r as [[l'|old|old]|].
  - destruct HD as (-> & _ & [K1 K2 K3] & B' & [W2 E2 E3] & _). apply wp_bind, wp_ret, wp_ret, wp_bind.
    apply wp_owner_drop_disarmed; [rewrite K3; set_solver|]. apply wp_ret.
    destruct (vrest_link s s2 B B' m M l x [(VSlot0, (v, o))] R) as [H1 H2];
      [done..|apply versioned_leaf_new_ok|done|exact W2|done|rewrite K3, Ho1; set_solver| |].
    { rewrite E2, (sum_counted count s1 B m ∅ (live_size M) W1) by exact (vr_len _ _ _ _ R). do 2 f_equal. by destruct o. }
    split_and!; [by eexists _, _|done|]. subst count. by destruct o.
  - destruct HD as (_ & Hm' & _). congruence.
  - destruct HD as (_ & Hm' & _). congruence.
  - destruct HD as ((ty & HFl) & _). done.
Qed.

Lemma vmap_remove_spec s M B m key : vrest s M B m →
  wp (vmap_remove retries key) (λ r s', vholds s' (m_remove_head key M) ∧ vkept s s' ∧
    match M !! key with
    | Some (k0, (v, Some o) :: h) => ∃ e, r = Some e ∧ vhandle s' e k0 (v, o)
    | _ => r = None
    end) s.
Proof using Hretries.
  intros R. unfold m_remove_head, vmap_remove. apply wp_bind, wp_loop_once; [done|]. unfold remove_head_turn. apply wp_bind.
  eapply vget_spec; [done|exact R|..].
  { intros HM. apply wp_ret, wp_ret. rewrite HM. split_and!; [by exists B, m|done|done]. }
  intros l x c L. apply wp_bind. eapply linked_lock; [exact L|]. cbn [negb]. rewrite (ld_history _ _ _ _ _ _ _ L).
  apply wp_bind. eapply remove_head_locked_spec; [by apply chain_inv_latch, L|done|..].
  - intros E. apply wp_ret, wp_ret. rewrite (relock _ _ _ _ _ _ _ _ L). destruct c.*2 as [|[v [o|]] h] eqn:Ec; [|done|];
      (split_and!; [by exists B, m|done|done]).
  - intros p v o c1 x' c' -> C' E HK El (n & Hn & Hd & Hv). apply wp_ret.
    destruct (vholds_update s B m M key l x x' _ c' R L C' El) as [H1 H2]; [by etrans; [apply (kept_latch CHAIN_LOCKED)|]|].
    rewrite E in H1, H2. cbn [fmap list_fmap snd] in *. change (Z.b2z (h_live _) - Z.b2z (h_live _)) with (-1) in H1, H2.
    set (s' := set_t_len _ _) in *. assert (t_leaves s' !! l = Some x') as Hx' by apply lookup_insert_eq. unfold ventry_new.
    apply wp_bind. eapply wp_version_read; [exact Hx'|exact Hn|]. apply wp_ret. split_and!; [done..|].
    assert (is_tombstone n = false) as ->.
    { rewrite (flags_tombstone n _ _ (ci_flags _ _ _ _ C' p n Hn)). by rewrite (f_equal snd Hd : vn_value n = Some o). }
    eexists. split; [done|]. exists x', n. split_and!; [done| |done..]. destruct HK as [HK _]. exact HK.
Qed.

End heap.
