(* ===== verification/AVSpec.v ===== *)
(** * The version chains of an arena

    The operations of [AVTree.v] on the chain of one leaf, against the history
    that the chain holds, by the invariant of [VersionSpec.v]; and the drop of a
    leaf, which with the retired versions reaches every node once. *)

From stdpp Require Import sorting.
From S2P Require Import Prelude Bytes Latch Slot Bits Node Free Mem Shape Raw Inv Rules Tree Version VTree VersionSpec VLeafSpec Arena ANode AStorage AVTree.
Local Open Scope Z_scope.

(** There are no slots to keep. *)
#[export] Program Instance arena_slots_laws {V} : SlotsLaws NoSlots V := { slots_ok _ := True }.
Next Obligation. by intros V sl p q n _ [? [=]]. Qed.
Next Obligation. done. Qed.
Next Obligation. done. Qed.

Section spec.
Context {K V : Type} {AB : AsBytes K}.
Abbreviation leaf := (AVLeaf K V).
Abbreviation tree := (RawTree leaf ArenaStorage).
Implicit Types (x : leaf) (s : tree) (c : list (vptr * (Z * option V))) (n : VersionNode V).
Context (chain_fuel : nat).

(** A node that was not published. *)
Definition unpublished n : Prop := vn_flags n = flags_of (vn_value n) false false.

Lemma unpublished_new v o : unpublished (version_new v o false).
Proof using. apply flags_new. Qed.

Lemma unpublished_value n : unpublished n → version_value n = vn_value n ∧ is_tombstone n = negb (bool_decide (is_Some (vn_value n))).
Proof using. intros U. split; [by eapply flags_value|by eapply flags_tombstone]. Qed.

(** Only the nodes of the map are there. *)
Lemma not_a_slot x p : is_Some (vl_deref x p) → is_slot p = false.
Proof using. destruct p; try done; intros [? [=]]. Qed.

(** ** Reads *)

Lemma live_at_spec l x c fr gone s (Q : bool → tree → Prop) : t_leaves s !! l = Some x → chain_inv x c fr gone →
  Q (h_live c.*2) s → wp (live_at l (vl_head x)) Q s.
Proof using.
  intros Hx C HQ. destruct (chain_head_node x c fr gone C) as (n & Hn & E). unfold live_at.
  rewrite bool_decide_false by (intros E0; by rewrite E0 in Hn). apply wp_bind. eapply wp_version_read; [exact Hx|exact Hn|].
  apply wp_ret. by rewrite E, negb_involutive.
Qed.

(** ** Linking a node *)

(** The node [n] enters the leaf, with its link set. *)
Lemma attach_spec l n x c1 mid c3 s (Q : vptr → tree → Prop) : leaf_ok x (c1 ++ mid ++ c3) → unpublished n → vn_next n = start_of c3 →
  (∀ p x2, chain_inv x2 (c1 ++ mid ++ c3) [p] [] → same_leaf x x2 → seg x2 p ([(p, data n)] ++ c3) VNull →
    (∀ q m, vl_deref x q = Some m → vl_deref x2 q = Some m) → Q p (set_leaf l x2 s)) →
  wp (av_attach l n) Q (set_leaf l x s).
Proof using.
  intros C U En HQ. eapply wp_leaf_latch; [done|]. set (i := fresh _).
  assert (vl_heap x !! i = None) as Hi by (apply not_elem_of_dom, is_fresh). set (x2 := vl_set_heap _ _ _).
  assert (∀ q, q ≠ VHeap i → vl_deref x2 q = vl_deref x q) as D.
  { intros [] Hq; cbn; try done. rewrite lookup_insert_ne; [done|]. congruence. }
  assert (vl_deref x2 (VHeap i) = Some n) as Di by (cbn; by rewrite lookup_insert_eq).
  assert (∀ q m, vl_deref x q = Some m → vl_deref x2 q = Some m) as DS.
  { intros q m Hm. rewrite D; [done|]. intros ->. cbn in Hm. congruence. }
  assert (chain_inv x2 (c1 ++ mid ++ c3) [VHeap i] []) as C2.
  { eapply chain_inv_new; [exact C| |exact Di|exact U|exact D|done..].
    intros Hin. apply (ci_heap _ _ _ _ C) in Hin as [? Hx]. cbn in Hx. congruence. }
  apply HQ; [exact C2| | |exact DS].
  - split; [split; [done|]|done]. intros q m Hm. eauto.
  - split; [done|]. exists n. split_and!; [done..|]. rewrite En. rewrite (assoc_L (++)) in C2. by eapply chain_from.
Qed.

(** ** Inserts *)

(** The whole of [av_apply] on a live leaf. *)
Lemma av_apply_spec l n x c s (Q : option Z → tree → Prop) : leaf_ok x c → vl_chain_latch x = chain_new → unpublished n →
  (length c < chain_fuel)%nat →
  (∀ x' c', leaf_ok x' c' → c'.*2 = h_insert (vn_version n) (vn_value n) c.*2 → kept x x' → vl_chain_latch x' = chain_new →
    let d := Z.b2z (h_live c'.*2) - Z.b2z (h_live c.*2) in Q (Some d) (set_t_len (counted d s) (set_leaf l x' s))) →
  wp (av_apply chain_fuel l n) Q (set_leaf l x s).
Proof using AB.
  intros C0 Hnew U Hf HQ. unfold av_apply. apply wp_bind, wp_chain_lock; [done|]. cbn [negb].
  set (y := vl_set_latch CHAIN_LOCKED x). set (v := vn_version n).
  assert (leaf_ok y c) as C by by apply chain_inv_latch. pose proof (set_leaf_lookup l y s) as Hx.
  apply wp_bind. eapply wp_leaf_read; [exact Hx|]. apply wp_bind. eapply live_at_spec; [exact Hx|exact C|].
  apply wp_bind. eapply chain_position_spec; [exact Hx|apply C|done|]. intros c1 c2 -> F1 F2.
  destruct (chain_placed v c1 c2 (ci_sorted _ _ _ _ C) F1 F2) as (mid & c3 & -> & Hmid & P & Hsame).
  apply wp_bind. eapply version_is_spec; [exact Hx|apply C|]. rewrite Hsame.
  apply wp_bind. eapply (wp_mono _ (λ next s', next = start_of c3 ∧ s' = set_leaf l y s)).
  { destruct mid as [|[q d] mid]; [by apply wp_ret|]. rewrite bool_decide_true by done. destruct mid; [|cbn in Hmid; lia].
    destruct (chain_from y c1 _ _ _ C) as (_ & m & Hm & _ & Hc3).
    eapply wp_version_read; [exact Hx|exact Hm|]. split; [by apply seg_start in Hc3|done]. }
  intros ? ? [-> ->]. apply wp_bind. apply (attach_spec l _ y c1 mid c3); [exact C|exact U|done|]. intros p x2 C2 S2 Hst _.
  apply (publish_spec l v (vn_value n) y x2 c1 mid c3 p); [done..|]. intros x4 C4 [Ek4 El4].
  apply wp_bind. eapply wp_leaf_read; [apply set_leaf_lookup|]. apply wp_bind. eapply live_at_spec; [apply set_leaf_lookup|exact C4|].
  apply commit_count, wp_bind. eapply retire_mid_spec; [done|by apply chain_inv_latch|by destruct mid|].
  intros x5 C5 [Ek5 El5]. apply wp_ret. eapply (HQ x5); [exact C5| | |exact El5].
  - rewrite (h_insert_placed _ _ _ _ _ _ P). by rewrite !fmap_app.
  - etrans; [apply (kept_latch CHAIN_LOCKED)|]. etrans; [exact Ek4|]. etrans; [apply kept_latch|exact Ek5].
Qed.

(** ** The replacement of the head *)

Lemma av_remove_head_locked_spec l tomb x c s (Q : option (loc * vptr) → tree → Prop) : leaf_ok x c →
  vl_chain_latch x = CHAIN_LOCKED → unpublished tomb → vn_value tomb = None →
  (h_live c.*2 = false → Q None (set_leaf l (vl_set_latch chain_new x) s)) →
  (∀ p v o c1 x' c', c = (p, (v, Some o)) :: c1 → leaf_ok x' c' → c'.*2 = (v, None) :: c1.*2 →
    kept x x' → vl_chain_latch x' = chain_new →
    (∃ n, vl_deref x' p = Some n ∧ data n = (v, Some o) ∧ version_value n = Some o) →
    Q (Some (l, p)) (set_t_len (counted (-1) s) (set_leaf l x' s))) →
  wp (av_remove_head_locked l tomb) Q (set_leaf l x s).
Proof using AB.
  intros C Hlock U Ht Hdead HQ. unfold av_remove_head_locked. pose proof (set_leaf_lookup l x s) as Hx.
  apply wp_bind. eapply wp_leaf_read; [exact Hx|].
  destruct (chain_head_node x _ [] [] C) as (hd & Hhd & Hold). apply wp_bind. eapply wp_version_read; [exact Hx|exact Hhd|].
  rewrite Hold. destruct (h_live c.*2) eqn:El; [|by apply wp_bind, wp_chain_unlock, wp_ret, Hdead]. cbn [negb].
  destruct c as [|[p [v [o|]]] c1]; [done| |done]. rewrite (chain_head _ _ _ _ C) in Hhd |- *.
  destruct (ci_chain _ _ _ _ C) as (_ & n & Hn & Hd & Hc1). change (start_of _) with p in *.
  assert (hd = n) as -> by congruence. clear Hhd. apply wp_bind. eapply wp_version_read; [exact Hx|exact Hn|].
  assert (vn_version n = v) as -> by (by injection Hd).
  apply wp_bind. eapply wp_version_read; [exact Hx|exact Hn|]. rewrite (seg_start _ _ _ Hc1).
  apply wp_bind. apply (attach_spec l _ x [] [(p, (v, Some o))] c1); [exact C|exact U|done|]. intros t x2 C2 S2 Hst _.
  unfold data, tomb_for in Hst. cbn [vn_version vn_value store_next] in Hst. rewrite Ht in Hst.
  apply (publish_spec l v None x x2 [] [(p, (v, Some o))] c1 t); [done|done| |cbv; lia|done|done|exact Hst|].
  { destruct (proj1 (StronglySorted_cons _ _ _) (ci_sorted _ _ _ _ C)) as [HA HS].
    change (placed v ([] ++ [(v, Some o)] ++ c1.*2) [] [(v, Some o)] c1.*2). apply placed_intro; [done|by constructor|exact HA]. }
  intros x4 C4 [Ek4 El4]. apply commit_count, wp_bind.
  eapply retire_spec; [by apply chain_inv_latch|]. intros x5 C5 [Ek5 El5] _. apply wp_ret.
  assert (kept x x5) as HK by (etrans; [exact Ek4|]; etrans; [apply kept_latch|exact Ek5]).
  eapply (HQ p v o c1 x5); [done|exact C5|done|exact HK|exact El5|]. destruct HK as [_ HK]. destruct (HK p n Hn) as (n5 & Hn5 & Hd5).
  exists n5. rewrite Hd5, Hd. split_and!; [done..|]. rewrite (flags_value n5 _ _ (ci_flags _ _ _ _ C5 p n5 Hn5)).
  assert (data n5 = (v, Some o)) as E5 by congruence. by injection E5.
Qed.

(** ** Pruning *)

(** The detached nodes are marked, and still linked to one another. *)
Lemma av_detach_spec l x x0 c b gone p s (Q : nat → tree → Prop) : chain_inv x c b.*1 gone → vl_chain_latch x = CHAIN_LOCKED →
  seg x p b VNull → (length b < chain_fuel)%nat → kept x0 x →
  (∀ x', chain_inv x' c [] (rev b.*1 ++ gone) → vl_chain_latch x' = CHAIN_LOCKED → kept x0 x' → seg x' p b VNull → Q (length b) (set_leaf l x' s)) →
  wp (loop chain_fuel (av_detach_turn l) (p, 0%nat)) Q (set_leaf l x s).
Proof using.
  intros C Hl Hb Hf HK HQ. apply (wp_loop_measure (λ k (st : vptr * nat) s', ∃ x' a b', s' = set_leaf l x' s ∧ b = a ++ b' ∧
    st.2 = length a ∧ seg x' st.1 b' VNull ∧ seg x' p b VNull ∧ k = length b' ∧ chain_inv x' c b'.*1 (rev a.*1 ++ gone) ∧
    vl_chain_latch x' = CHAIN_LOCKED ∧ kept x0 x') _ _ _ _ _ (length b)); [|by exists x, [], b|done].
  intros k [q u] ? (x' & a & b' & -> & -> & Eu & Hb' & Hall & -> & C' & Hl' & HK'). cbn [fst snd] in *. subst u.
  unfold av_detach_turn. case_bool_decide as Hq.
  - apply (not_null _ _ _ _ Hb') in Hq as ->. apply wp_ret. rewrite app_nil_r in *. by apply HQ.
  - destruct b' as [|[q' d] b']; [done|]. destruct Hb' as [-> Hb']. apply wp_bind. eapply mark_spec; [exact C'|done|].
    intros x2 C2 [Ek2 El2] Hseg. assert (seg x2 q' ((q', d) :: b') VNull) as (_ & n & Hn & _ & Hn') by (by apply Hseg).
    apply wp_bind. eapply wp_version_read; [apply set_leaf_lookup|exact Hn|]. apply wp_ret. exists (length b'). cbn. split; [lia|].
    exists x2, (a ++ [(q', d)]), b'. split_and!; [done|by rewrite <- (assoc_L (++))|by rewrite length_app; cbn; lia|done|by apply Hseg|done| |congruence|by etrans].
    by rewrite fmap_app, rev_app_distr.
Qed.

(** They are retired along the same links. *)
Lemma av_retire_spec l x x0 c b p s (Q : unit → tree → Prop) : chain_inv x c [] b.*1 → vl_chain_latch x = chain_new →
  seg x p b VNull → (length b < chain_fuel)%nat → kept x0 x →
  (∀ x', leaf_ok x' c → vl_chain_latch x' = chain_new → kept x0 x' → Q tt (set_leaf l x' s)) →
  wp (loop chain_fuel (av_retire_turn l) p) Q (set_leaf l x s).
Proof using.
  intros C Hl Hb Hf HK HQ. apply (wp_loop_measure (λ k (cur : vptr) s', ∃ x' b', s' = set_leaf l x' s ∧ seg x' cur b' VNull ∧
    k = length b' ∧ chain_inv x' c [] b'.*1 ∧ vl_chain_latch x' = chain_new ∧ kept x0 x') _ _ _ _ _ (length b)); [|by exists x, b|done].
  intros k q ? (x' & b' & -> & Hb' & -> & C' & Hl' & HK'). unfold av_retire_turn. case_bool_decide as Hq.
  - apply (not_null _ _ _ _ Hb') in Hq as ->. apply wp_ret. by apply HQ.
  - destruct b' as [|[q' d] b']; [done|]. destruct Hb' as (-> & n & Hn & _ & Hb'). apply wp_bind.
    eapply wp_version_read; [apply set_leaf_lookup|exact Hn|]. apply wp_bind. eapply retire_spec; [exact C'|].
    intros x2 C2 [Ek2 El2] Hseg. apply wp_ret. exists (length b'). cbn. split; [lia|].
    exists x2, b'. split_and!; [done|by apply Hseg|done|done|congruence|by etrans].
Qed.

Lemma av_prune_trim_spec l t x c1 d c3 s (Q : nat → tree → Prop) : leaf_ok x (c1 ++ (t, d) :: c3) → vl_chain_latch x = CHAIN_LOCKED →
  (length (c1 ++ (t, d) :: c3) < chain_fuel)%nat →
  (∀ x', leaf_ok x' (c1 ++ [(t, d)]) → vl_chain_latch x' = chain_new → kept x x' → Q (length c3) (set_leaf l x' s)) →
  wp (av_prune_trim chain_fuel l t) Q (set_leaf l x s).
Proof using AB.
  intros C Hlock Hf HQ. unfold av_prune_trim. pose proof (set_leaf_lookup l x s) as Hx.
  destruct (chain_from x c1 _ _ _ C) as (_ & n & Hn & _ & Hc3). apply wp_bind. eapply wp_version_read; [exact Hx|exact Hn|].
  apply wp_bind. eapply (cut_spec l t x c1 d c3 n); [exact C|done|exact Hn|exact Hc3|]. intros x3 C3 El3 Ek3 Hst.
  assert (length (c1 ++ (t, d) :: c3) = length c1 + S (length c3))%nat as EL by (by rewrite length_app).
  apply wp_bind. eapply (av_detach_spec _ _ x); [exact C3|congruence|exact Hst|lia|exact Ek3|].
  intros x4 C4 El4 Ek4 Hst4. apply wp_bind, wp_chain_unlock, wp_bind.
  eapply (av_retire_spec _ _ x); [|done| |by instantiate (1 := c3); lia|etrans; [exact Ek4|apply kept_latch]|].
  - apply chain_inv_latch. eapply chain_inv_perm; [done| |exact C4]. rewrite app_nil_r. symmetry. apply Permutation_rev.
  - apply (seg_frame x4); [|exact Hst4]. intros q m _ Hm. rewrite vl_deref_latch. eauto.
  - intros x5 C5 El5 Ek5. apply wp_ret. by apply HQ.
Qed.
End spec.

(** ** The drop of a leaf *)

Section drop.
Context {K V : Type}.
Implicit Types (x : AVLeaf K V) (c : list (vptr * (Z * option V))).

Lemma av_drop_chain_spec fuel x p c : (length c <= fuel)%nat → NoDup c.*1 → seg x p c VNull →
  av_drop_chain fuel x p = Some (heap_of c.*1).
Proof.
  revert x p c. induction fuel as [|fuel IH]; intros x p c Hf ND Hc.
  { destruct c; [|cbn in Hf; lia]. cbn in Hc. by subst p. }
  destruct c as [|[q d] c]; [by cbn in Hc; subst p|]. destruct Hc as (-> & n & Hn & _ & Hc). cbn in Hf. apply NoDup_cons in ND as [Hq ND].
  destruct q as [| | |i]; try done. rewrite fmap_cons, heap_of_cons. cbn in Hn |- *. rewrite Hn. cbn.
  rewrite (IH _ _ c); [done|lia|done|]. apply (seg_frame x); [|done]. intros q' n' Hq' Hn'.
  exists n'. split; [|done]. destruct q' as [| | |j]; try done. cbn. rewrite lookup_delete_ne; [done|]. by intros ->.
Qed.

(** With the versions that were retired, each node goes exactly once. *)
Lemma av_leaf_drop_spec fuel x c : leaf_ok x c → (length c <= fuel)%nat →
  ∃ dropped, av_drop_in_arena fuel x = Some (dropped, vl_key x) ∧ NoDup (dropped ++ vl_retired x) ∧
    ∀ i, is_Some (vl_heap x !! i) ↔ i ∈ dropped ++ vl_retired x.
Proof.
  intros C Hf. unfold av_drop_in_arena. rewrite (av_drop_chain_spec fuel x _ c); [|done|by eapply chain_nodup|apply C].
  pose proof (ci_once _ _ _ _ C) as ND. cbn [app] in ND. apply NoDup_app in ND as (N1 & N2 & N3).
  eexists. split; [done|]. split.
  - apply NoDup_app. split_and!; [by apply heap_of_NoDup| |].
    + intros i Hi Hr. rewrite elem_of_heap_of in Hi. apply (N2 _ Hi). apply list_elem_of_fmap. by exists i.
    + assert (Inj (=) (=) VHeap) by (by intros ? ? [=]). by apply NoDup_fmap in N3.
  - intros i. rewrite elem_of_app, elem_of_heap_of. pose proof (ci_heap _ _ _ _ C i) as X. cbn [app vl_deref] in X.
    rewrite X, elem_of_app, (list_elem_of_fmap VHeap).
    split; (intros [Hi|Hi]; [by left|right]); [by destruct Hi as (j & [= ->] & Hj)|by exists i].
Qed.
End drop.
