(* ===== verification/AVMapSpec.v ===== *)
(** * The operations of a versioned arena map

    The operations of [AVMap.v] against the finite map from keys to histories
    that the tree holds ([VMapSpec.v]): what they return, and the map that is
    left. What needs room in the arena may be refused, and then changes
    nothing. An inserter's cache stays valid. *)

From stdpp Require Import sorting.
From S2P Require Import Prelude Bytes Latch Slot Bits Node NodeSpec NodeOps Free Mem Shape Raw Read Write Remove Shrink Inv Descent Update Pool Commits Rules WriteSpec RemoveSpec ShrinkSpec Walk WalkSpec Tree Map MapSpec Version VTree VMap VersionSpec VLeafSpec VMapSpec VMapOps Arena ANode AStorage ATree AMap AMapSpec AVTree AVMap AVSpec.
Local Open Scope Z_scope.

Section spec.
Context {K V : Type} {AB : AsBytes K}.
Abbreviation leaf := (AVLeaf K V).
Abbreviation tree := (RawTree leaf ArenaStorage).
Abbreviation wf := (wf (EX := at_rest)).
Abbreviation history := (list (Z * option V)).
Implicit Types (s : tree) (m : gmap path loc) (M : gmap path (K * history)) (B : gmap loc path) (x : leaf) (n : VersionNode V).
Context (leaf_layout version_layout : AllocLayout) (chain_fuel : nat).
Abbreviation prog := (prog leaf).

(** ** Allocation *)

Lemma wf_storage s B m P st : wf s B m P → wf (set_t_storage st s) B m P.
Proof using.
  intros W. apply (wf_leaves_change s _ B m P W); try done. intros l.
  destruct (wf_leaves _ _ _ _ W l) as [y|y|y|];
    [eapply leaf_linked with y|eapply leaf_retired with y|eapply leaf_owned with y|eapply leaf_free]; done.
Qed.

Lemma vrest_storage s M B m st : vrest s M B m → vrest (set_t_storage st s) M B m ∧ vkept s (set_t_storage st s).
Proof using. intros R. apply (vrest_same s _ B B m M R); [|done..]. by apply wf_storage, R. Qed.

Lemma wp_av_alloc_version v o s (Q : VersionNode V + option V → tree → Prop) :
  (∀ st, Q (inl (version_new v o false)) (set_t_storage st s)) → Q (inr o) s →
  wp (av_alloc_version version_layout v o) Q s.
Proof using.
  intros H1 H2. unfold av_alloc_version. apply wp_bind.
  destruct (storage_alloc (t_storage s) {| al_size := al_size version_layout; al_align := al_align version_layout |}) as [[off st]|] eqn:E.
  - eapply wp_exec; [cbn; by rewrite E|]. by apply wp_ret.
  - eapply wp_exec; [cbn; by rewrite E|]. apply wp_ret.
    assert (version_value (version_new v o false) = o) as -> by by destruct o. done.
Qed.

(** ** Inserts *)

(** A node that a new leaf starts with. *)
Definition first_node n : Prop := unpublished n ∧ vn_next n = VNull.

Lemma first_node_new v o : first_node (version_new v o false).
Proof using. split; [apply unpublished_new|done]. Qed.

Lemma avleaf_new_ok (key : K) n : first_node n → ∃ p, leaf_ok (avleaf_new key n) [(p, data n)].
Proof using.
  intros [U E]. exists (VHeap (fresh (∅ : gset loc))). set (i := fresh _).
  assert (∀ p, vl_deref (avleaf_new key n) p = if decide (p = VHeap i) then Some n else None) as D.
  { intros [| | |j]; cbn; try done. destruct (decide (VHeap j = VHeap i)) as [[= ->]|Hne]; [by rewrite lookup_singleton_eq|].
    rewrite lookup_singleton_ne; [done|]. intros E'. apply Hne. by rewrite <- E'. }
  assert (vl_deref (avleaf_new key n) (VHeap i) = Some n) as Di by by rewrite D, decide_True.
  split; try done.
  - split; [done|]. by exists n.
  - repeat constructor.
  - intros p nd. rewrite D. case_decide as Ep; [|done]. intros [= <-]. subst p. rewrite bool_decide_true by by left. exact U.
  - intros p ->%list_elem_of_singleton. by eexists.
  - intros j. rewrite D. cbn [app fmap list_fmap vl_retired avleaf_new fst]. rewrite list_elem_of_singleton. case_decide as Ej.
    + by split; [|eexists].
    + split; [by intros []|done].
  - apply NoDup_singleton.
Qed.

(** What an insert may return and leave. *)
Definition avinsert_result s M B' (key : K) (v : Z) (o : option V) (r : Z + K * option V) s' : Prop :=
  match r with
  | inl d => d = delta_of (entry_at key M).2 (h_insert v o (entry_at key M).2) ∧ ∃ m', vrest s' (m_insert key v o M) B' m'
  | inr full => full = (key, o) ∧ ∃ m', vrest s' M B' m'
  end.

Definition avinsert_done s M key v o (r : (Z + K * option V) * option InserterCache) s' : Prop :=
  vkept s s' ∧ ∃ B', avinsert_result s M B' key v o r.1 s' ∧ ∀ c, r.2 = Some c → cache_valid s' B' c.

(** The map [M] was held before [l] was made, with the leaf [x]. *)
Record making s M B m (l : loc) x s1 : Prop := {
  mk_rest : vrest s M B m;
  mk_new : t_leaves s !! l = None;
  mk_wf : wf s1 B m ∅;
  mk_owned : t_owned s1 = {[l]};
  mk_leaves : t_leaves s1 = <[l := x]> (t_leaves s);
  mk_len : t_len s1 = t_len s;
  mk_key : M !! as_bytes (vl_key x) = None;
  mk_leaf : is_removed x = false ∧ vl_chain_latch x = chain_new;
}.

Lemma making_key s M B m l x s1 : making s M B m l x s1 → live_key s1 l = Some (as_bytes (vl_key x)).
Proof using. intros [_ _ _ _ E _ _ [Hr _]]. apply live_key_Some. exists x. rewrite E. by split_and!; [apply lookup_insert_eq|..]. Qed.

Lemma making_unmapped s M B m l x s1 : making s M B m l x s1 → m !! as_bytes (vl_key x) = None.
Proof using.
  intros [R _ _ _ _ _ HM _]. pose proof (vrest_lookup s M B m (as_bytes (vl_key x)) R) as X.
  destruct (m !! as_bytes (vl_key x)); [|done]. destruct X as (? & ? & [_ _ _ _ _ X]). congruence.
Qed.

(** The leaf was linked. *)
Lemma making_linked s M B m l x s1 s2 B' c : making s M B m l x s1 → leaf_ok x c → leaves_kept s1 s2 l →
  inserted (EX := at_rest) s1 m l (as_bytes (vl_key x)) (counted (Z.b2z (h_live c.*2)) s1) s2 B' ∅ →
  vkept s s2 ∧ ∃ m', vrest s2 (<[as_bytes (vl_key x) := (vl_key x, c.*2)]> M) B' m'.
Proof using.
  intros MK C [K1 K2 K3] [W2 E2 E3]. pose proof MK as [R Hl W1 Ho E1 El HM [_ Hlock]].
  destruct (vrest_link s s2 B B' m M l x c R HM Hl C Hlock W2) as [H1 H2].
  - by rewrite K1.
  - rewrite K3, Ho. set_solver.
  - rewrite E2. rewrite (sum_counted _ s1 B m ∅ (live_size M) W1); [done|]. rewrite El. apply R.
  - split; [done|by eexists].
Qed.

(** The leaf was given up. *)
Lemma making_undone s M B m l x s1 : making s M B m l x s1 →
  vrest (set_t_leaves (delete l (t_leaves s1)) (set_t_owned (t_owned s1 ∖ {[l]}) s1)) M B m ∧
  vkept s (set_t_leaves (delete l (t_leaves s1)) (set_t_owned (t_owned s1 ∖ {[l]}) s1)).
Proof using.
  intros [R Hl W1 Ho E1 El _ _]. apply (vrest_same s _ B B m M R).
  - apply wf_free_owned; [done|rewrite Ho; set_solver].
  - cbn. rewrite E1. by rewrite delete_insert_id.
  - cbn. rewrite Ho, (vr_owned _ _ _ _ R). set_solver.
  - done.
Qed.

(** The insert of a new key. *)
Lemma m_insert_new (key : K) v o M : M !! as_bytes key = None →
  m_insert key v o M = <[as_bytes key := (key, [(v, o)])]> M ∧
  delta_of (entry_at key M).2 (h_insert v o (entry_at key M).2) = Z.b2z (h_live [(v, o)]).
Proof using. intros HM. unfold m_insert, entry_at. rewrite HM. unfold delta_of, h_insert. cbn. split; [done|lia]. Qed.

(** What a first version counts. *)
Lemma first_count n p : first_node n → Z.b2z (negb (is_tombstone n)) = Z.b2z (h_live [(p : vptr, data n)].*2).
Proof using. intros [U _]. destruct (unpublished_value n U) as [_ ->]. cbn. by destruct (vn_value n). Qed.

Context (retries : nat) (Hretries : (0 < retries)%nat).

Lemma av_slow_turn_spec s M B m l key n b cache s1 : first_node n → making s M B m l (avleaf_new key n) s1 → cache_good s1 B cache 4 →
  wp (av_slow_turn chain_fuel retries l (as_bytes key) (Z.b2z (negb (is_tombstone n))) n cache b)
    (λ f s', match f with
     | Continue _ => False
     | Break r => avinsert_done s M key (vn_version n) (vn_value n) r s' ∧ (is_Some r.2 ↔ is_Some cache)
     end) s1.
Proof using Hretries.
  intros F MK HC. pose proof F as [U _]. destruct (unpublished_value n U) as [Hval Hdead].
  destruct (avleaf_new_ok key n F) as [p C]. pose proof MK as [R Hl W1 Ho E1 El HM [_ Hlock]]. cbn [vl_key avleaf_new] in HM.
  pose proof (making_unmapped _ _ _ _ _ _ _ MK) as Hm. cbn [vl_key avleaf_new] in Hm.
  destruct (m_insert_new key (vn_version n) (vn_value n) M HM) as [EM ED].
  pose proof (first_count n p F) as Ecount.
  unfold av_slow_turn. apply wp_bind. eapply wp_mono.
  { eapply (insert_hinted_spec (EX := at_rest)); [done|exact W1|rewrite Ho; set_solver|by apply (making_key _ _ _ _ _ _ _ MK)|by intros [=]]. }
  intros [r h] s2 HD. unfold insert_done in HD. cbn [fst snd] in HD. destruct r as [[l'|old|old]|].
  - destruct HD as (-> & _ & LK & B' & IN & Hh). rewrite Ecount in IN.
    destruct (making_linked s M B m l _ s1 s2 B' _ MK C LK IN) as [H1 (m' & H2)]. apply wp_bind.
    apply wp_owner_drop_disarmed; [rewrite (vr_owned _ _ _ _ H2); set_solver|]. apply wp_ret. cbn [fst snd].
    split; [|by rewrite fmap_is_Some]. split; [done|]. exists B'. split; [split; [by rewrite Ecount, ED|rewrite EM; by exists m']|].
    intros c' (c0 & -> & ->)%fmap_Some. destruct Hh as [->|(h' & -> & Hh')]; [done|]. by apply cache_remember_valid.
  - destruct HD as (_ & Hm' & _). congruence.
  - destruct HD as (_ & Hm' & _). congruence.
  - destruct HD as (_ & W2 & SM & _). pose proof (same_stepped s1 s2 B ∅ SM eq_refl) as ST. destruct SM as [_ _ M3 _ M5 _ _ M8 _].
    assert (making s M B m l (avleaf_new key n) s2) as MK2 by (split; try done; congruence).
    apply wp_bind, wp_owner_disarm, wp_bind. unfold leaf_take. apply wp_bind.
    assert (t_leaves s2 !! l = Some (avleaf_new key n)) as Hy by (rewrite M5, E1; apply lookup_insert_eq).
    eapply wp_leaf_read; [exact Hy|]. apply wp_bind. eapply wp_exec; [cbn; unfold with_leaf; cbn; by rewrite Hy|]. apply wp_ret, wp_bind.
    apply wp_owner_drop_disarmed; [cbn; set_solver|]. apply wp_ret. cbn [fst snd]. split; [|done].
    destruct (making_undone s M B m l _ s2 MK2) as [H1 H2]. split; [done|]. exists B. split; [by split; [rewrite Hval|exists m]|].
    cbn [snd]. intros c' ->. destruct (HC c' eq_refl). by eapply (cache_valid_stepped s1 s2).
Qed.

(** The fast path of an inserter: it linked the leaf, or changed nothing. *)
Lemma av_try_fast_spec s M B m l key n c s1 : first_node n → making s M B m l (avleaf_new key n) s1 →
  cache_valid s1 B c → cache_room s1 c 8 →
  wp (try_fast c l (as_bytes key) (Z.b2z (negb (is_tombstone n)))) (λ r s2, cache_valid s2 B r.2 ∧ match r.1 with
    | Some o => o = Inserted l ∧ t_owned s2 = ∅ ∧
        avinsert_done s M key (vn_version n) (vn_value n) (inl (Z.b2z (negb (is_tombstone n))), Some r.2) s2
    | None => making s M B m l (avleaf_new key n) s2 ∧ cache_room s2 r.2 4
    end) s1.
Proof using.
  clear retries Hretries. intros F MK HV HR. destruct (avleaf_new_ok key n F) as [p C]. pose proof MK as [_ _ _ Ho E1 El HM _]. cbn [vl_key avleaf_new] in HM.
  destruct (m_insert_new key (vn_version n) (vn_value n) M HM) as [EM ED]. pose proof (first_count n p F) as Ecount. eapply wp_mono.
  { apply (try_fast_raw s1 m B l (as_bytes key)); [apply MK|rewrite Ho; set_solver|by apply (making_key _ _ _ _ _ _ _ MK)|done..]. }
  intros [o c'] s2 [HV2 HD]. cbn [fst snd] in *. split; [done|]. destruct o as [o|].
  - destruct HD as (-> & _ & LK & IN). rewrite Ecount in IN |- *.
    destruct (making_linked s M B m l _ s1 s2 B _ MK C LK IN) as [H1 (m' & H2)]. split; [done|]. split; [apply H2|].
    split; [done|]. exists B. split; [split; [by rewrite ED|rewrite EM; by exists m']|]. by intros ? [= <-].
  - destruct HD as (W2 & D1 & D2 & D3 & HR2). split; [|done]. split; try apply MK; congruence || done.
Qed.

Lemma av_link_new_spec s M B m l key n b cache s1 : first_node n → making s M B m l (avleaf_new key n) s1 → cache_good s1 B cache 8 →
  wp (av_link_new chain_fuel retries l (as_bytes key) (Z.b2z (negb (is_tombstone n))) n cache b)
    (λ r s', avinsert_done s M key (vn_version n) (vn_value n) r s' ∧ (is_Some r.2 ↔ is_Some cache)) s1.
Proof using Hretries.
  intros F MK HC. unfold av_link_new. apply wp_bind. destruct cache as [c|].
  2: { apply wp_ret, wp_loop_once; [done|]. by apply (av_slow_turn_spec s M B m l key n b None s1). }
  destruct (HC c eq_refl) as [HV HR]. apply wp_bind. eapply wp_mono; [by apply (av_try_fast_spec s M B m l key n c s1)|].
  intros [o c'] s2 [HV2 HD]. apply wp_ret. cbn [fst snd] in *. destruct o as [o|].
  - destruct HD as (-> & Ho & HD). apply wp_bind, wp_owner_drop_disarmed; [rewrite Ho; set_solver|]. apply wp_ret.
    split; [done|]. split; by eexists.
  - destruct HD as [MK2 HR2]. apply wp_loop_once; [done|].
    eapply wp_mono; [apply (av_slow_turn_spec s M B m l key n b (Some c') s2); [done..|by intros ? [= <-]]|].
    intros [|r] s3; [done|]. intros [HD HS]. split; [done|]. rewrite HS. split; by eexists.
Qed.

(** The leaf that an insert makes. *)
Lemma making_new s M B m l st key n : vrest s M B m → M !! as_bytes key = None → t_leaves s !! l = None →
  let s0 := set_t_storage st s in
  vkept s s0 ∧ making s0 M B m l (avleaf_new key n)
    (set_t_owned ({[l]} ∪ t_owned s0) (set_t_leaves (<[l := avleaf_new key n]> (t_leaves s0)) s0)).
Proof using.
  clear retries Hretries. intros R HM Hl s0. destruct (vrest_storage s M B m st R) as [R0 K0]. split; [done|].
  split; try done; [by apply (wf_alloc_leaf s0 B m ∅ l _ (vr_wf _ _ _ _ R0))|]. cbn. rewrite (vr_owned _ _ _ _ R). set_solver.
Qed.

Lemma av_insert_new_spec s M B m key n b cache : first_node n → vrest s M B m → M !! as_bytes key = None → cache_good s B cache 8 →
  wp (av_insert_new leaf_layout chain_fuel retries key n cache b)
    (λ r s', avinsert_done s M key (vn_version n) (vn_value n) r s' ∧ (is_Some r.2 ↔ is_Some cache)) s.
Proof using Hretries.
  intros F R HM HC. destruct (unpublished_value n (proj1 F)) as [Hval _]. unfold av_insert_new. apply wp_bind, wp_alloc_value.
  2: { intros _. apply wp_ret. split; [|done]. split; [done|]. exists B. split; [by split; [rewrite Hval|exists m]|].
       cbn [snd]. intros c' ->. by destruct (HC c' eq_refl). }
  intros off st l _ Hl. unfold owner_new. apply wp_bind. eapply wp_exec; [done|].
  destruct (making_new s M B m l st key n R HM Hl) as [K0 MK]. apply wp_bind. eapply wp_leaf_key; [by apply (making_key _ _ _ _ _ _ _ MK)|].
  eapply wp_mono; [by apply (av_link_new_spec _ M B m l key n b cache _ F MK)|]. intros r s' [[HK HD] HS].
  split; [|done]. split; [by etrans|done].
Qed.

Lemma linked_storage s M m k l x c st : linked s M m k l x c → linked (set_t_storage st s) M m k l x c.
Proof using. intros [L1 L2 L3 L4 L5 L6]. by split. Qed.

(** A version more on the leaf of the key. *)
Lemma av_apply_linked s M B m k l x c n (Q : option Z → tree → Prop) : vrest s M B m → linked s M m k l x c →
  fits_in chain_fuel M → unpublished n →
  (∀ x', let s' := set_t_len (counted (delta_of c.*2 (h_insert (vn_version n) (vn_value n) c.*2)) s) (set_leaf l x' s) in
    vrest s' (<[k := (vl_key x, h_insert (vn_version n) (vn_value n) c.*2)]> M) B m → vkept s s' →
    Q (Some (delta_of c.*2 (h_insert (vn_version n) (vn_value n) c.*2))) s') →
  wp (av_apply chain_fuel l n) Q s.
Proof using.
  clear Hretries. intros R L HF U HQ. rewrite <- (linked_set _ _ _ _ _ _ _ L). eapply av_apply_spec; [apply L|apply L|done|by eapply linked_fits|].
  intros x' c' C' E HK El d. subst d. unfold delta_of in HQ. rewrite <- E in HQ.
  destruct (vrest_update s B m M k l x x' c c' R L C' El HK) as [H1 H2]. by apply HQ.
Qed.

Lemma m_insert_linked s M m (key : K) l x c v o : linked s M m (as_bytes key) l x c →
  m_insert key v o M = <[as_bytes key := (vl_key x, h_insert v o c.*2)]> M ∧ (entry_at key M).2 = c.*2.
Proof using. intros L. unfold m_insert, entry_at. by rewrite (ld_history _ _ _ _ _ _ _ L). Qed.

Lemma avtree_insert_spec s M B m key v o cache : vrest s M B m → fits_in chain_fuel M → cache_good s B cache 8 →
  wp (avtree_insert leaf_layout version_layout chain_fuel retries key v o cache)
    (λ r s', avinsert_done s M key v o r s' ∧ (is_Some r.2 ↔ is_Some cache)) s.
Proof using Hretries.
  intros R HF HC. assert (∀ c', cache = Some c' → cache_valid s B c') as HC0 by (intros c' ->; by destruct (HC c' eq_refl)).
  assert (avinsert_done s M key v o (inr (key, o), cache) s) as Hfull.
  { split; [done|]. exists B. split; [by split; [|exists m]|done]. }
  unfold avtree_insert. apply wp_bind, wp_loop_once; [done|]. unfold av_fast_turn. apply wp_bind. eapply vget_spec; [done|exact R|..].
  - intros HM. apply wp_ret. unfold the_node. apply wp_bind, wp_av_alloc_version; [|by apply wp_ret].
    intros st. destruct (vrest_storage s M B m st R) as [R0 K0].
    eapply wp_mono; [apply (av_insert_new_spec _ M B m key (version_new v o false)); [apply first_node_new|exact R0|done|exact HC]|].
    intros r s' [[HK HD] HS]. split; [|done]. split; [by etrans|done].
  - intros l x c L. unfold the_node. apply wp_bind, wp_av_alloc_version; [|by apply wp_ret, wp_ret].
    intros st. destruct (vrest_storage s M B m st R) as [R0 K0]. destruct (m_insert_linked s M m key l x c v o L) as [EM EE].
    apply wp_bind. eapply av_apply_linked; [exact R0|by apply linked_storage|done|apply unpublished_new|].
    intros x' s' R' K'. apply wp_ret, wp_ret. split; [|done]. split; [by etrans|]. exists B. split; [|exact HC0].
    split; [by rewrite EE|]. rewrite EM. by exists m.
Qed.

(** ** The replacement of the head *)

Lemma av_remove_head_spec s M B m key : vrest s M B m →
  wp (av_remove_head version_layout retries key) (λ r s', vkept s s' ∧ match r with
    | inl None => match M !! key with Some (_, (_, Some _) :: _) => False | _ => True end ∧ vholds s' M
    | inl (Some (l, p)) => ∃ k0 v o h, M !! key = Some (k0, (v, Some o) :: h) ∧ vholds s' (m_remove_head key M) ∧
        vhandle s' {| ve_leaf := l; ve_node := p |} k0 (v, o)
    | inr _ => vholds s' M
    end) s.
Proof using Hretries.
  intros R. unfold av_remove_head. apply wp_bind. eapply vget_spec; [done|exact R|..].
  { intros HM. apply wp_ret. rewrite HM. split_and!; [done..|by exists B, m]. }
  intros l0 x0 c0 L0. apply wp_bind, wp_av_alloc_version; [|apply wp_ret; split; [done|by exists B, m]].
  intros st. destruct (vrest_storage s M B m st R) as [R0 K0]. clear L0. apply wp_bind, wp_loop_once; [done|].
  unfold av_remove_head_turn. apply wp_bind. eapply vget_spec; [done|exact R0|..].
  { intros HM. apply wp_ret, wp_ret. rewrite HM. split_and!; [done..|by exists B, m]. }
  intros l x c L. apply wp_bind. eapply linked_lock; [exact L|]. cbn [negb]. unfold m_remove_head. rewrite (ld_history _ _ _ _ _ _ _ L).
  apply wp_bind. eapply av_remove_head_locked_spec; [by apply chain_inv_latch, L|done|apply unpublished_new|done|..].
  - intros E. apply wp_ret, wp_ret. rewrite (relock _ _ _ _ _ _ _ _ L). split; [done|]. split; [|by exists B, m].
    by destruct c.*2 as [|[v [o|]] h].
  - intros p v o c1 x' c' -> C' E HK El (n & Hn & Hd & Hv). apply wp_ret, wp_ret.
    destruct (vholds_update _ B m M key l x x' _ c' R0 L C' El) as [H1 H2]; [by etrans; [apply (kept_latch CHAIN_LOCKED)|]|].
    rewrite E in H1, H2. cbn [fmap list_fmap snd] in *. change (Z.b2z (h_live _) - Z.b2z (h_live _)) with (-1) in H1, H2.
    split; [by etrans|]. exists (vl_key x), v, o, c1.*2. split_and!; [done|exact H1|].
    exists x', n. split_and!; [apply lookup_insert_eq| |done..]. destruct HK as [HK _]. exact HK.
Qed.

(** ** Pruning *)

Lemma av_prune_key_spec s M B m k min is_tomb : vrest s M B m → fits_in chain_fuel M →
  wp (avmap_prune_key chain_fuel retries k min is_tomb) (λ r s', vholds s' (m_prune k min is_tomb M) ∧ vkept s s' ∧
    r = pruned_count k min is_tomb M) s.
Proof using Hretries.
  intros R HF. eapply on_leaf_spec; [done|exact R|..].
  - intros HM. unfold m_prune, pruned_count. rewrite HM. split_and!; [by exists B, m|done|done].
  - intros l x c L. apply (prune_with_spec chain_fuel retries Hretries (av_prune_trim chain_fuel) s M B m k l x c); [|done..].
    intros l' t x' c1 d c3 s' Q. apply av_prune_trim_spec.
Qed.

(** ** Lookups *)

(** The entry of a key, and what it reads. *)
Lemma entry_for_spec s M B m key (Q : option VersionedEntryRef → tree → Prop) : vrest s M B m →
  (from_option (λ e, h_live e.2) false (M !! key) = false → Q None s) →
  (∀ k0 v o h r, M !! key = Some (k0, (v, Some o) :: h) → vhandle s r k0 (v, o) →
    (∃ x n, t_leaves s !! ve_leaf r = Some x ∧ vl_deref x (ve_node r) = Some n ∧ vn_version n = v ∧ version_value n = Some o) → Q (Some r) s) →
  wp (avmap_entry_for retries key) Q s.
Proof using Hretries.
  intros R H0 H1. eapply on_leaf_spec; [done|exact R|by intros E; apply H0; rewrite E|]. intros l x c L. apply wp_bind.
  eapply wp_leaf_read; [apply L|]. destruct (linked_head _ _ _ _ _ _ _ L) as (p & d & c' & -> & ->).
  destruct (linked_version _ _ _ _ _ _ _ p d L) as (n & Hn & Hd & Hv & Hver & Ht & _); [by left|]. unfold aventry_new, ventry_new.
  apply wp_bind. eapply wp_version_read; [apply L|exact Hn|]. apply wp_ret. rewrite Ht.
  pose proof (ld_history _ _ _ _ _ _ _ L) as HM. destruct d as [v [o|]]; cbn in *.
  - eapply H1; [exact HM| |]; exists x, n; [by split_and!; [apply L|..]|by split_and!; [apply L|..]].
  - apply H0. by rewrite HM.
Qed.

Lemma av_get_latest_spec s M B m key : vrest s M B m →
  wp (avmap_get_latest retries key) (λ r s', s' = s ∧ r = e ← M !! key; d ← head e.2; live_pair d) s.
Proof using Hretries.
  intros R. unfold avmap_get_latest. apply wp_bind. eapply entry_for_spec; [exact R|..].
  - intros E. apply wp_ret. split; [done|]. by destruct (M !! key) as [[k0 [|[v [o|]] h]]|].
  - intros k0 v o h r -> _ (x & n & Hx & Hn & Hver & Hv). apply wp_bind. eapply wp_version_read; [exact Hx|exact Hn|].
    apply wp_bind, wp_bind. eapply wp_version_read; [exact Hx|exact Hn|]. rewrite Hv, Hver. by apply wp_ret, wp_ret.
Qed.

Lemma av_get_slice_spec s M B m key : vrest s M B m →
  wp (avmap_get_slice retries key) (λ r s', s' = s ∧ r = e ← M !! key; d ← head e.2; d.2) s.
Proof using Hretries.
  intros R. unfold avmap_get_slice. apply wp_bind. eapply entry_for_spec; [exact R|..].
  - intros E. apply wp_ret. split; [done|]. by destruct (M !! key) as [[k0 [|[v [o|]] h]]|].
  - intros k0 v o h r -> _ (x & n & Hx & Hn & Hver & Hv). apply wp_bind, wp_bind. eapply wp_version_read; [exact Hx|exact Hn|].
    rewrite Hv. by apply wp_ret, wp_ret.
Qed.

Lemma av_contains_key_spec s M B m key : vrest s M B m →
  wp (avmap_contains_key retries key) (λ r s', s' = s ∧ r = from_option (λ e, h_live e.2) false (M !! key)) s.
Proof using Hretries.
  intros R. unfold avmap_contains_key. apply wp_bind. eapply entry_for_spec; [exact R|..].
  - intros E. apply wp_ret. by rewrite E.
  - intros k0 v o h r -> _ _. by apply wp_ret.
Qed.
End spec.
