(* ===== verification/AVBudget.v ===== *)
(** * [max_insert_bytes] is enough ([src/arena/versioned_map.rs])

    What an insert of a version takes of an arena that the thread has to
    itself, by the bounds of [Budget.v] and [ABudget.v]: a version node, and for
    a new key a leaf and the nodes of its path. *)

From stdpp Require Import sorting.
From S2P Require Import Prelude Bytes Latch Slot Bits Node NodeSpec NodeOps Free Mem Arena ArenaSpec Shape Raw Read Write Budget Remove Shrink Inv Descent Update Pool Commits Rules WriteSpec RemoveSpec ShrinkSpec Walk WalkSpec Tree Map MapSpec Version VTree VMap VersionSpec VLeafSpec VMapSpec VMapOps ANode AStorage ATree AMap ABudget AMapSpec AVTree AVMap AVSpec AVMapSpec.
Local Open Scope Z_scope.

Section budget.
Context {K V : Type} {AB : AsBytes K}.
Abbreviation leaf := (AVLeaf K V).
Abbreviation tree := (RawTree leaf ArenaStorage).
Implicit Types (s : tree) (M : gmap path (K * list (Z * option V))) (n : VersionNode V) (key : list byte).
Context (leaf_layout version_layout : AllocLayout) (chain_fuel retries : nat).
Abbreviation prog := (prog leaf).

(** ** The chain operations allocate nothing *)

Lemma plain_version_read {A} l p (f : VersionNode V → A) : plain (version_read l p f : prog A).
Proof using. intros o. apply plain_expect. Qed.

Lemma plain_write l f : plain (LeafWrite l f : prog unit).
Proof using. by intros ?. Qed.

Lemma plain_read {A} l (f : leaf → A) : plain (LeafRead l f : prog A).
Proof using. by intros ?. Qed.

Lemma plain_latch {A} l (f : leaf → option (A * leaf)) : plain (LeafLatch l f : prog A).
Proof using. by intros ?. Qed.

#[local] Hint Resolve plain_version_read plain_write plain_read plain_latch : plain.

Lemma plain_live_at l p : plain (live_at l p : prog bool).
Proof using. unfold live_at. plains. Qed.

Lemma plain_position_of l version head : plain (position_of chain_fuel l version head : prog (vptr * vptr)).
Proof using. apply plain_loop. intros [prev cur]. unfold position_turn. plains. Qed.

Lemma plain_version_is l p version : plain (version_is l p version : prog bool).
Proof using. unfold version_is. plains. Qed.

Lemma plain_link_after l prev node : plain (link_after l prev node : prog unit).
Proof using. unfold link_after, set_head, set_next, version_write. plains. Qed.

Lemma plain_retire_version l p : plain (av_retire_version l p : prog unit).
Proof using. unfold av_retire_version, retire_version. plains. Qed.

#[local] Hint Resolve plain_live_at plain_position_of plain_version_is plain_link_after plain_retire_version : plain.

Lemma plain_av_apply l n : plain (av_apply chain_fuel l n : prog (option Z)).
Proof using. unfold av_apply, chain_lock, head_ptr, av_attach, mark_superseded, version_write, chain_unlock. plains. Qed.

(** ** One turn of a new key *)

(** With an allowance that covers the key, and allocations that succeed, a turn
    that ends the insert inserts. *)
Lemma av_slow_turn_allocs l key count n cache b :
  allocs false ∅ (node_need (length key)) (av_slow_turn chain_fuel retries l key count n cache b : prog _)
    (λ _ _ f, match f with Continue _ => True | Break r => ∃ d, r.1 = inl d end).
Proof using.
  unfold av_slow_turn. apply allocs_bind. eapply allocs_mono; [apply insert_allocs|].
  intros T left [[[]|] h] Hf; cbn [fst] in Hf.
  - apply allocs_plain_bind; [apply plain_owner_drop|intros _]. by eexists.
  - exact I.
  - apply allocs_plain_bind; [apply plain_av_apply|]. intros [d|]; [|exact I].
    apply allocs_plain_bind; [by intros ?|intros _]. apply allocs_plain_bind; [apply plain_owner_drop|intros _]. by eexists.
  - by specialize (Hf eq_refl).
Qed.

(** ** What each part takes *)

(** The result of [p], and what it took. *)
Abbreviation within_budget s n Q := (λ r s', Q r s' ∧ storage_ok (t_storage s') ∧ room (t_storage s) - n <= room (t_storage s')).

Lemma wp_plain {A} (p : prog A) Q (s : tree) : plain p → storage_ok (t_storage s) → wp p Q s → wp p (within_budget s 0 Q) s.
Proof using.
  intros Hp OK WP. assert (cost (λ _, 0%nat) = 0) as E0 by done.
  assert (cost (λ _, 0%nat) <= room (t_storage s)) as Hr by (rewrite E0, room_eq by done; destruct OK; lia).
  assert (types_true ∅ s) as HT by (intros n ty; by rewrite lookup_empty).
  pose proof (wp_allocs p ∅ _ (λ _ _ _, True) _ s (plain_allocs p _ _ _ Hp (λ _, I)) HT OK Hr WP) as WA.
  eapply wp_mono; [exact (wp_and _ _ _ _ WP WA)|]. intros r s' (H1 & _ & H2 & H3). by rewrite E0 in H3.
Qed.

Lemma av_slow_turn_takes s M B m l (key : K) n b cache s1 : (0 < retries)%nat → first_node n → making s M B m l (avleaf_new key n) s1 →
  cache_good s1 B cache 4 → storage_ok (t_storage s1) → cost (node_need (length (as_bytes key))) <= room (t_storage s1) →
  wp (loop retries (av_slow_turn chain_fuel retries l (as_bytes key) (Z.b2z (negb (is_tombstone n))) n cache) b)
    (within_budget s1 (cost (node_need (length (as_bytes key)))) (λ r _, ∃ d, r.1 = inl d)) s1.
Proof using.
  intros Hr F MK HC OK Hroom. apply wp_loop_once; [done|].
  pose proof (av_slow_turn_spec chain_fuel retries Hr s M B m l key n b cache s1 F MK HC) as WP.
  assert (types_true ∅ s1) as HT by (intros n' ty; by rewrite lookup_empty).
  pose proof (wp_allocs _ ∅ _ _ _ s1 (av_slow_turn_allocs l (as_bytes key) _ n cache b) HT OK Hroom WP) as WA.
  eapply wp_mono; [exact (wp_and _ _ _ _ WP WA)|].
  intros [b'|r] s' [HD (HQ & H2 & H3)]; [done|]. destruct HQ as (_ & _ & d & Hd). split_and!; [by exists d|done..].
Qed.

Lemma av_link_new_takes s M B m l (key : K) n b cache s1 : (0 < retries)%nat → first_node n → making s M B m l (avleaf_new key n) s1 →
  cache_good s1 B cache 8 → storage_ok (t_storage s1) → cost (node_need (length (as_bytes key))) <= room (t_storage s1) →
  wp (av_link_new chain_fuel retries l (as_bytes key) (Z.b2z (negb (is_tombstone n))) n cache b)
    (within_budget s1 (cost (node_need (length (as_bytes key)))) (λ r _, ∃ d, r.1 = inl d)) s1.
Proof using.
  intros Hr F MK HC OK Hroom. pose proof (cost_nonneg (node_need (length (as_bytes key)))) as H0. unfold av_link_new. apply wp_bind.
  destruct cache as [c|]; [|apply wp_ret; by eapply av_slow_turn_takes]. destruct (HC c eq_refl) as [HV HR]. apply wp_bind.
  eapply wp_mono; [apply wp_plain; [apply plain_try_fast|exact OK|by apply (av_try_fast_spec s M B m l key n c s1)]|].
  intros [o c'] s2 ([HV2 HD] & OK2 & Hroom2). apply wp_ret. cbn [fst snd] in *. destruct o as [o|].
  - destruct HD as (-> & Ho & _). apply wp_bind, wp_owner_drop_disarmed; [rewrite Ho; set_solver|]. apply wp_ret.
    split_and!; [by eexists|done|lia].
  - destruct HD as [MK2 HR2]. eapply wp_mono; [apply (av_slow_turn_takes s M B m l key n b (Some c') s2); [done..|by intros ? [= <-]|done|lia]|].
    intros r s3 (H1 & H2 & H3). split_and!; [done..|lia].
Qed.

Lemma wp_av_alloc_fits v o (s : tree) (Q : VersionNode V + option V → tree → Prop) :
  layout_ok version_layout → storage_ok (t_storage s) → worst version_layout <= room (t_storage s) →
  (∀ st, storage_ok st → room (t_storage s) - worst version_layout <= room st → Q (inl (version_new v o false)) (set_t_storage st s)) →
  wp (av_alloc_version version_layout v o) Q s.
Proof using.
  intros Hly OK Hroom HQ. assert ({| al_size := al_size version_layout; al_align := al_align version_layout |} = version_layout) as EL by by destruct version_layout.
  destruct (alloc_fits (t_storage s) version_layout OK Hly Hroom) as [[off st] E]. destruct (alloc_takes _ _ _ _ OK Hly E) as [OK' Hr'].
  unfold av_alloc_version. apply wp_bind. eapply wp_exec; [cbn; by rewrite EL, E|]. apply wp_ret. by apply HQ.
Qed.

(** The insert of a new key. *)
Lemma av_insert_new_takes s M B m (key : K) n b cache : (0 < retries)%nat → layout_ok leaf_layout → first_node n → vrest s M B m →
  M !! as_bytes key = None → cache_good s B cache 8 → storage_ok (t_storage s) →
  worst leaf_layout + cost (node_need (length (as_bytes key))) <= room (t_storage s) →
  wp (av_insert_new leaf_layout chain_fuel retries key n cache b)
    (within_budget s (worst leaf_layout + cost (node_need (length (as_bytes key)))) (λ r _, ∃ d, r.1 = inl d)) s.
Proof using.
  intros Hr Hly F R HM HC OK Hroom. pose proof (cost_nonneg (node_need (length (as_bytes key)))) as H0.
  assert ({| al_size := al_size leaf_layout; al_align := al_align leaf_layout |} = leaf_layout) as EL by by destruct leaf_layout.
  unfold av_insert_new. apply wp_bind, wp_alloc_value; cbn [alloc_bytes arena_layout]; rewrite EL.
  2: { intros E. destruct (alloc_fits (t_storage s) leaf_layout OK Hly ltac:(lia)) as [? ?]. congruence. }
  intros off st l E Hl. destruct (alloc_takes _ _ _ _ OK Hly E) as [OK1 Hr1]. unfold owner_new. apply wp_bind. eapply wp_exec; [done|].
  destruct (making_new s M B m l st key n R HM Hl) as [K0 MK]. apply wp_bind. eapply wp_leaf_key; [by apply (making_key _ _ _ _ _ _ _ MK)|].
  eapply wp_mono; [apply (av_link_new_takes _ M B m l key n b cache _ Hr F MK); [exact HC|exact OK1|cbn; lia]|].
  intros r s' (H1 & H2 & H3). cbn in H3. split_and!; [done..|lia].
Qed.

(** ** A whole insert *)

(** What an insert of the key needs: a version of a key that is there costs
    only its node. *)
Definition av_need (M : gmap path (K * list (Z * option V))) (key : list byte) : Z :=
  match M !! key with
  | Some _ => worst version_layout
  | None => worst version_layout + worst leaf_layout + cost (node_need (length key))
  end.

Lemma av_need_bound M key : 1 <= al_size leaf_layout → 1 <= al_align leaf_layout → 1 <= al_size version_layout →
  worst version_layout <= av_need M key <= avmap_max_insert_bytes leaf_layout version_layout (length key).
Proof using.
  intros Hl Ha Hv. pose proof (cost_need leaf_layout (length key) Hl) as Hc. pose proof (cost_nonneg (node_need (length key))) as H0.
  assert (avmap_max_insert_bytes leaf_layout version_layout (length key) =
    pad (al_size version_layout) (al_align version_layout) + max_insert_bytes leaf_layout (length key)) as ->
    by (unfold avmap_max_insert_bytes, max_insert_bytes; cbv zeta; ring).
  assert (worst version_layout = pad (al_size version_layout) (al_align version_layout)) as <- by (unfold worst; by rewrite Z.max_l by lia).
  assert (1 <= worst leaf_layout) by (unfold worst, pad; lia). unfold av_need. destruct (M !! key); lia.
Qed.

Lemma avtree_insert_takes s M B m (key : K) v o cache : (0 < retries)%nat → layout_ok leaf_layout → layout_ok version_layout →
  vrest s M B m → fits_in chain_fuel M → cache_good s B cache 8 → storage_ok (t_storage s) →
  worst version_layout <= av_need M (as_bytes key) <= room (t_storage s) →
  wp (avtree_insert leaf_layout version_layout chain_fuel retries key v o cache)
    (within_budget s (av_need M (as_bytes key)) (λ r _, ∃ d, r.1 = inl d)) s.
Proof using.
  intros Hr Hly Hlv R HF HC OK Hroom. unfold av_need in *. unfold avtree_insert. apply wp_bind, wp_loop_once; [done|].
  unfold av_fast_turn. apply wp_bind. eapply vget_spec; [done|exact R|..].
  - intros HM. rewrite HM in *. apply wp_ret. unfold the_node. apply wp_bind, wp_av_alloc_fits; [done..|lia|]. intros st OK1 Hr1.
    destruct (vrest_storage s M B m st R) as [R0 _].
    eapply wp_mono; [apply (av_insert_new_takes (set_t_storage st s) M B m); [done..|apply first_node_new|exact R0|done|exact HC|exact OK1|cbn; lia]|].
    intros r s' (H1 & H2 & H3). cbn in H3. split_and!; [done..|lia].
  - intros l x c L. rewrite (ld_history _ _ _ _ _ _ _ L) in *. unfold the_node. apply wp_bind, wp_av_alloc_fits; [done..|lia|]. intros st OK1 Hr1.
    destruct (vrest_storage s M B m st R) as [R0 _]. apply wp_bind. eapply wp_mono.
    { apply wp_plain; [apply plain_av_apply|exact OK1|]. apply (av_apply_linked chain_fuel _ M B m (as_bytes key) l x c _ (λ d _, is_Some d) R0);
        [by apply linked_storage|done|apply unpublished_new|]. by eexists. }
    intros d s' ([d' ->] & H2 & H3). cbn in H3. apply wp_ret, wp_ret. split_and!; [by eexists|done|lia].
Qed.
End budget.
