(* ===== verification/VRefine.v ===== *)
(** * The versioned map against its specification

    An interpreter of operations on a finite map from keys to histories, and
    the public operations of [VMap.v] that it specifies. [vmap_simulation] is
    one step: the operation's result is the specified one, the tree then holds
    the specified map, and every leaf and version node that existed before is
    still there, with the same key and data: a handle never dangles. *)

From stdpp Require Import sorting.
From S2P Require Import Prelude Bytes Latch Slot Bits Node Free Mem Simulate Shape Raw Read Write Remove Shrink Inv RemoveSpec ShrinkSpec Walk Tree Map MapSpec Version VTree VMap VersionSpec VLeafSpec VMapSpec VMapOps.
Local Open Scope Z_scope.

(** ** The length of a history *)

Section length.
Context {V : Type}.
Implicit Types h : list (Z * option V).

Lemma filters_disjoint {A} (P Q : A → Prop) `{!∀ x, Decision (P x)} `{!∀ x, Decision (Q x)} l :
  (∀ x, P x → ¬ Q x) → (length (filter P l) + length (filter Q l) <= length l)%nat.
Proof.
  intros HPQ. induction l as [|x l IH]; [done|]. rewrite !filter_cons. destruct (decide (P x)), (decide (Q x)); cbn; try lia.
  by destruct (HPQ x).
Qed.

Lemma h_insert_length v o h : (length (h_insert v o h) <= S (length h))%nat.
Proof.
  unfold h_insert. rewrite length_app. cbn. pose proof (filters_disjoint (λ d : Z * option V, v < d.1) (λ d, d.1 < v) h) as X.
  cbn in X. specialize (X ltac:(intros; lia)). lia.
Qed.

Lemma h_trim_length min h : (length (h_trim min h) <= length h)%nat.
Proof.
  unfold h_trim, h_le. rewrite length_app. pose proof (filters_disjoint (λ d : Z * option V, min < d.1) (λ d, d.1 <= min) h) as X.
  cbn in X. specialize (X ltac:(intros; lia)). destruct (filter (λ d, d.1 <= min) h); cbn in *; lia.
Qed.

Lemma h_prune_length min (f : V → bool) h h' : h_prune min f h = Some h' → (length h' <= length h)%nat.
Proof. unfold h_prune. destruct h as [|d h]; [by intros [= <-]|]. case_match; [done|]. intros [= <-]. apply h_trim_length. Qed.
End length.

Section vrefine.
Context {K V : Type} `{AsBytes K}.
Abbreviation leaf := (HeapLeaf K V).
Abbreviation tree := (RawTree leaf HeapStorage).
Abbreviation history := (list (Z * option V)).
Implicit Types (s : tree) (M : gmap path (K * history)).
Context (chain_fuel retries : nat) (Hretries : (0 < retries)%nat).
Abbreviation prog := (prog leaf).

Inductive vmap_op :=
| VGet (key : list byte)
| VGetSlice (key : list byte)
| VGetLatest (key : list byte)
| VGetVersionLe (key : list byte) (max : Z)
| VContains (key : list byte)
| VInsert (key : K) (version : Z) (value : V)
| VDelete (key : K) (version : Z)
| VRemove (key : list byte)
| VRemoveKey (key : list byte)
| VRemoveVersion (key : list byte) (version : Z)
| VCount (key : list byte)
| VAllVersions (key : list byte)
| VPruneKey (key : list byte) (min_version : Z) (is_tombstone : V → bool)
| VLen
| VIsEmpty
| VClear
| VShrinkToFit
| VValidate.

Inductive vmap_result :=
| VUnit | VValue (v : option V) | VPair (p : option (Z * V)) | VBool (b : bool) | VNumber (n : nat) | VLength (n : Z)
| VVersions (h : history).

(** What the operations promise. *)
Definition vspec_op (op : vmap_op) M : vmap_result * gmap path (K * history) :=
  match op with
  | VGet k => (VValue (e ← M !! k; d ← head e.2; d.2), M)
  | VGetSlice k => (VValue (e ← M !! k; d ← head e.2; d.2), M)
  | VGetLatest k => (VPair (e ← M !! k; d ← head e.2; live_pair d), M)
  | VGetVersionLe k max => (VPair (e ← M !! k; d ← h_le max e.2; live_pair d), M)
  | VContains k => (VBool (from_option (λ e, h_live e.2) false (M !! k)), M)
  | VInsert k v o => (VBool true, m_insert k v (Some o) M)
  | VDelete k v => (VBool (h_live (entry_at k M).2 && negb (h_live (h_insert v None (entry_at k M).2))), m_insert k v None M)
  | VRemove k => (VPair (e ← M !! k; d ← head e.2; live_pair d), m_remove_head k M)
  | VRemoveKey k => (VBool (bool_decide (is_Some (M !! k))), delete k M)
  | VRemoveVersion k v => (VBool (has_version k v M), m_remove_version k v M)
  | VCount k => (VNumber (from_option (λ e, length e.2) 0%nat (M !! k)), M)
  | VAllVersions k => (VVersions (from_option snd [] (M !! k)), M)
  | VPruneKey k min f => (VNumber (pruned_count k min f M), m_prune k min f M)
  | VLen => (VLength (live_size M), M)
  | VIsEmpty => (VBool (live_size M =? 0), M)
  | VClear => (VUnit, ∅)
  | VShrinkToFit => (VUnit, M)
  | VValidate => (VUnit, M)
  end.

Definition vspec_ops (ops : list vmap_op) M : list vmap_result * gmap path (K * history) := run_spec vspec_op ops M.

(** What the code does. *)
Definition vdo_op (fuel : nat) (op : vmap_op) : prog vmap_result :=
  match op with
  | VGet k => v ← vmap_get retries k; mret (VValue v)
  | VGetSlice k => v ← vmap_get_by_slice retries k; mret (VValue v)
  | VGetLatest k => p ← vmap_get_latest retries k; mret (VPair p)
  | VGetVersionLe k max => p ← vmap_get_version_le chain_fuel retries k max; mret (VPair p)
  | VContains k => b ← vmap_contains_key retries k; mret (VBool b)
  | VInsert k v o => b ← vmap_insert chain_fuel retries k v o; mret (VBool b)
  | VDelete k v => b ← vmap_delete chain_fuel retries k v; mret (VBool b)
  | VRemove k =>
    e ← vmap_remove retries k;
    match e with
    | None => mret (VPair None)
    | Some e => version ← ventry_version e; value ← ventry_value e; mret (VPair (Some (version, value)))
    end
  | VRemoveKey k => b ← vmap_remove_key chain_fuel retries k; mret (VBool b)
  | VRemoveVersion k v => b ← vmap_remove_version chain_fuel retries k v; mret (VBool b)
  | VCount k => n ← vmap_version_count chain_fuel retries k; mret (VNumber n)
  | VAllVersions k => h ← vmap_get_all_versions chain_fuel retries k; mret (VVersions h)
  | VPruneKey k min f => n ← vmap_prune_key chain_fuel retries k min f; mret (VNumber n)
  | VLen => n ← vmap_len; mret (VLength n)
  | VIsEmpty => b ← vmap_is_empty; mret (VBool b)
  | VClear => _ ← vmap_clear fuel; mret VUnit
  | VShrinkToFit => _ ← vmap_shrink_to_fit fuel; mret VUnit
  | VValidate => _ ← vmap_validate_invariants fuel; mret VUnit
  end.

Definition vdo_ops (fuel : nat) (ops : list vmap_op) : prog (list vmap_result) := run_code vdo_op fuel ops.

(** Both the number of keys and the chains. *)
Definition vfits n M : Prop := (size M <= n)%nat ∧ ∀ k e, M !! k = Some e → (length e.2 <= n)%nat.

Abbreviation vrefines fuel op s M :=
  (wp (vdo_op fuel op) (λ r s', r = (vspec_op op M).1 ∧ vholds s' (vspec_op op M).2 ∧ vkept s s') s).

Lemma vmap_get_spec s M B m key : vrest s M B m → wp (vmap_get retries key) (λ r s', s' = s ∧ r = e ← M !! key; d ← head e.2; d.2) s.
Proof using Hretries.
  intros R. unfold vmap_get. apply wp_bind. eapply wp_mono; [by apply (get_latest_spec retries Hretries s M B m)|].
  intros r ? [-> ->]. apply wp_ret. split; [done|]. destruct (M !! key) as [[k [|[v [o|]] h]]|]; done.
Qed.

Lemma vremove_refines fuel s M B m k : vrest s M B m → vrefines fuel (VRemove k) s M.
Proof using Hretries.
  intros R. cbn [vdo_op vspec_op]. apply wp_bind. eapply wp_mono; [by apply (vmap_remove_spec retries Hretries s M B m)|].
  intros r s' (H1 & H2 & H3). destruct (M !! k) as [[k0 [|[v [o|]] h]]|]; cbn in H3; [by subst; apply wp_ret| |by subst; apply wp_ret..].
  destruct H3 as (e & -> & x & n & Hx & _ & Hn & Hd). destruct H1 as (B' & m' & R').
  destruct (vr_good _ _ _ _ R' _ x Hx) as (c & dead & C & _). pose proof (ci_flags _ _ _ _ C _ n Hn) as Hfl.
  apply wp_bind. eapply wp_version_read; [exact Hx|exact Hn|]. apply wp_bind, wp_bind. eapply wp_version_read; [exact Hx|exact Hn|].
  rewrite (flags_value n _ _ Hfl), (f_equal snd Hd : vn_value n = Some o), (f_equal fst Hd : vn_version n = v).
  apply wp_ret, wp_ret. split_and!; [done|by exists B', m'|done].
Qed.

Lemma vdo_op_holds fuel op s M : vholds s M → fits_in chain_fuel M → Z.of_nat (size M) < 2 ^ 63 → (enough s <= fuel)%nat →
  vrefines fuel op s M.
Proof using Hretries.
  intros HS HF Hs Hf. pose proof HS as (B & m & R). unfold enough in Hf.
  destruct op as [k|k|k|k max|k|k v o|k v|k|k|k v|k|k|k min f| | | | |]; cbn [vdo_op vspec_op fst snd].
  - eapply wp_read; [|done]. by apply (vmap_get_spec s M B m).
  - eapply wp_read; [|done]. by apply (get_slice_spec retries Hretries s M B m).
  - eapply wp_read; [|done]. by apply (get_latest_spec retries Hretries s M B m).
  - eapply wp_read; [|done]. by apply (version_le_spec chain_fuel retries Hretries s M B m).
  - eapply wp_read; [|done]. by apply (contains_key_spec retries Hretries s M B m).
  - apply wp_bind, wp_bind. eapply wp_mono; [by apply (vtree_insert_spec chain_fuel retries Hretries s M B m)|].
    intros d s' (H1 & H2 & _). by apply wp_ret, wp_ret.
  - apply wp_bind, wp_bind. eapply wp_mono; [by apply (vtree_insert_spec chain_fuel retries Hretries s M B m)|].
    intros d s' (H1 & H2 & ->). apply wp_ret, wp_ret. split_and!; [|done|done]. f_equal. unfold delta_of. by destruct (h_live _), (h_live _).
  - by apply (vremove_refines fuel s M B m).
  - apply wp_bind. eapply wp_mono; [by apply (remove_key_spec chain_fuel retries Hretries s M B m)|].
    intros b s' (H1 & H2 & ->). by apply wp_ret.
  - apply wp_bind. eapply wp_mono; [by apply (remove_version_spec chain_fuel retries Hretries s M B m)|].
    intros b s' (H1 & H2 & ->). by apply wp_ret.
  - eapply wp_read; [|done]. by apply (version_count_spec chain_fuel retries Hretries s M B m).
  - eapply wp_read; [|done]. by apply (all_versions_spec chain_fuel retries Hretries s M B m).
  - apply wp_bind. eapply wp_mono; [by apply (prune_key_spec chain_fuel retries Hretries s M B m)|].
    intros b s' (H1 & H2 & ->). by apply wp_ret.
  - eapply wp_read; [|done]. by apply (vmap_len_spec s M B m).
  - eapply wp_read; [|done]. unfold vmap_is_empty. apply wp_bind.
    eapply wp_mono; [by apply (vmap_len_spec s M B m)|]. intros n ? [-> ->]. by apply wp_ret.
  - apply wp_bind. eapply wp_mono; [apply (vmap_clear_spec fuel s M B m R); lia|]. intros ? s' [H1 H2]. by apply wp_ret.
  - apply wp_bind. eapply wp_mono; [apply (vmap_shrink_spec fuel s M B m R); lia|]. intros ? s' [H1 H2]. by apply wp_ret.
  - apply wp_bind. eapply wp_mono; [apply (vmap_validate_spec fuel s M B m R Hs); lia|]. intros ? s' ->. apply wp_ret.
    split_and!; [done|by exists B, m|done].
Qed.

Lemma vdo_op_extends f f' op : (f <= f')%nat → extends (vdo_op f op : prog _) (vdo_op f' op).
Proof using.
  intros Hf. assert (∀ St A body (x : St), extends (loop f body x : prog A) (loop f' body x)) as HL by (intros; by apply extends_loop).
  destruct op; cbn [vdo_op]; try reflexivity; apply extends_bind; try done.
  - apply extends_bind; [done|]. intros w. apply extends_bind; [done|]. intros old. apply extends_bind; [done|]. intros [].
    case_match; [done|]. by apply extends_bind.
  - apply extends_bind; [done|]. intros [|l|n]; [done..|]. by apply extends_bind.
  - apply extends_bind; [|done]. apply extends_bind; [done|]. intros r. by apply extends_bind.
Qed.

Lemma vfits_insert n k e M : vfits n M → (length e.2 <= S n)%nat → vfits (S n) (<[k := e]> M).
Proof using.
  clear Hretries. intros [F1 F2] He. split.
  - rewrite map_size_insert. destruct (M !! k); cbn; lia.
  - intros k' e'. rewrite lookup_insert_Some. intros [[_ <-]|[_ Hk]]; [done|]. pose proof (F2 k' e' Hk). lia.
Qed.

Lemma vfits_delete n k M : vfits n M → vfits n (delete k M).
Proof using.
  clear Hretries. intros [F1 F2]. split; [rewrite map_size_delete; destruct (M !! k); cbn; lia|]. intros k' e'.
  rewrite lookup_delete_Some. intros [_ Hk]. by apply (F2 k').
Qed.

Lemma vfits_more n M : vfits n M → vfits (S n) M.
Proof using. clear Hretries. intros [F1 F2]. split; [lia|]. intros k e Hk. pose proof (F2 k e Hk). lia. Qed.

Lemma vspec_op_grows n op M : vfits n M → vfits (S n) (vspec_op op M).2.
Proof using.
  clear Hretries. intros F. pose proof F as [F1 F2].
  destruct op as [k|k|k|k max|k|k v o|k v|k|k|k v|k|k|k min f| | | | |]; cbn [vspec_op snd]; try by apply vfits_more.
  1,2: apply vfits_insert; [done|]; cbn; unfold entry_at; etrans; [apply h_insert_length|];
    destruct (M !! as_bytes k) as [e|] eqn:E; cbn; [pose proof (F2 _ _ E)|]; lia.
  - unfold m_remove_head. destruct (M !! k) as [[k0 [|[v [o|]] h]]|] eqn:E; try by apply vfits_more.
    apply vfits_insert; [done|]. pose proof (F2 _ _ E) as X. cbn in *. lia.
  - by apply vfits_more, vfits_delete.
  - unfold m_remove_version, m_put. destruct (M !! k) as [e|] eqn:E; [|by apply vfits_more].
    case_decide; [by apply vfits_more, vfits_delete|]. apply vfits_insert; [done|]. cbn.
    pose proof (F2 _ _ E). pose proof (length_filter (λ d : Z * option V, d.1 ≠ v) e.2). unfold h_remove. lia.
  - unfold m_prune. destruct (M !! k) as [e|] eqn:E; [|by apply vfits_more].
    destruct (h_prune min f e.2) as [h|] eqn:EP; [|by apply vfits_more, vfits_delete].
    apply vfits_insert; [done|]. cbn. pose proof (F2 _ _ E). apply h_prune_length in EP. lia.
  - split; [rewrite map_size_empty; lia|]. intros k e. by rewrite lookup_empty.
Qed.

(** The limits: a 63-bit count, and the fuel for the chains. *)
Definition within (n : nat) : Prop := Z.of_nat n < 2 ^ 63 ∧ (n < chain_fuel)%nat.

#[export] Instance vmap_simulation s0 : Simulation (just vspec_op) vdo_op (vholds_since s0) vfits within.
Proof using Hretries.
  split.
  - intros n op s M [HS HK] [F1 F2] [H1 H2]. eapply wp_mono; [apply (vdo_op_holds (enough s) op s M HS); [|lia|lia]|].
    + intros k e Hk. pose proof (F2 k e Hk). lia.
    + intros r s' (-> & HS' & HK'). eexists. split; [done|]. split; [done|by etrans].
  - intros f f' op. by apply vdo_op_extends.
  - intros n op M r ? [-> ->]. apply vspec_op_grows.
  - intros n n' Hn [H1 H2]. split; lia.
Qed.

Lemma vdo_ops_holds n ops s M : vholds s M → vfits n M → within (n + length ops) →
  ∃ bound, ∀ fuel, (bound <= fuel)%nat →
    wp (vdo_ops fuel ops) (λ rs s', rs = (vspec_ops ops M).1 ∧ vholds s' (vspec_ops ops M).2 ∧ vkept s s') s.
Proof using Hretries.
  intros HS HF HW. destruct (run_code_allowed (holds := vholds_since s) (fits := vfits) (ok := within) _ _ n ops s M) as [bound Hb]; [by split|done..|].
  exists bound. intros fuel Hf. eapply wp_mono; [by apply Hb|]. by intros rs s' (M' & [-> ->]%run_just & HS').
Qed.

(** A run that ended had enough. *)
Lemma vdo_ops_done n fuel ops s M rs s' : vholds s M → vfits n M → within (n + length ops) →
  run (vdo_ops fuel ops) s = Done rs s' → rs = (vspec_ops ops M).1 ∧ vholds s' (vspec_ops ops M).2.
Proof using Hretries.
  intros HS HF HW E. destruct (run_code_done (holds := vholds_since s) (fits := vfits) (ok := within) _ _ n fuel ops s M rs s')
    as (M' & [-> ->]%run_just & HS' & _); [by split|done..].
Qed.

Lemma vfits_empty : vfits 0 ∅.
Proof using. clear Hretries. split; [by rewrite map_size_empty|]. intros k e. by rewrite lookup_empty. Qed.
End vrefine.
Arguments vmap_op : clear implicits.
Arguments vmap_result : clear implicits.
