(* ===== verification/AVRefine.v ===== *)
(** * The versioned arena map against its specification

    The versioned arena map promises what the versioned map on the heap does
    ([vspec_op] of [VRefine.v]), but that an insert may hand its key and value
    back, that a tombstone or the replacement of a head may not find room, and
    that these then change nothing. *)

From stdpp Require Import sorting.
From S2P Require Import Prelude Bytes Latch Slot Bits Node Free Mem Simulate Shape Raw Read Write Remove Inv Walk Tree Map MapSpec Version VTree VMap VersionSpec VLeafSpec VMapSpec VMapOps VRefine Arena ANode AStorage ATree AMap AMapSpec AVTree AVMap AVSpec AVMapSpec.
Local Open Scope Z_scope.

Section avrefine.
Context {K V : Type} {AB : AsBytes K}.
Abbreviation leaf := (AVLeaf K V).
Abbreviation tree := (RawTree leaf ArenaStorage).
Abbreviation history := (list (Z * option V)).
Implicit Types (s : tree) (M : gmap path (K * history)).
Context (leaf_layout version_layout : AllocLayout) (chain_fuel retries : nat) (Hretries : (0 < retries)%nat).
Abbreviation prog := (prog leaf).

Inductive avmap_op :=
| AVGet (key : list byte)
| AVGetSlice (key : list byte)
| AVGetLatest (key : list byte)
| AVGetVersionLe (key : list byte) (max : Z)
| AVContains (key : list byte)
| AVTryInsert (key : K) (version : Z) (value : V)
| AVDelete (key : K) (version : Z)
| AVRemove (key : list byte)
| AVRemoveKey (key : list byte)
| AVRemoveVersion (key : list byte) (version : Z)
| AVCount (key : list byte)
| AVAllVersions (key : list byte)
| AVPruneKey (key : list byte) (min_version : Z) (is_tombstone : V → bool)
| AVLen
| AVIsEmpty
| AVClear
| AVValidate.

(** The same operation of the map on the heap. *)
Definition on_heap (op : avmap_op) : vmap_op K V :=
  match op with
  | AVGet k => VGet k | AVGetSlice k => VGetSlice k | AVGetLatest k => VGetLatest k
  | AVGetVersionLe k max => VGetVersionLe k max | AVContains k => VContains k
  | AVTryInsert k v o => VInsert k v o | AVDelete k v => VDelete k v | AVRemove k => VRemove k
  | AVRemoveKey k => VRemoveKey k | AVRemoveVersion k v => VRemoveVersion k v | AVCount k => VCount k
  | AVAllVersions k => VAllVersions k | AVPruneKey k min f => VPruneKey k min f
  | AVLen => VLen | AVIsEmpty => VIsEmpty | AVClear => VClear | AVValidate => VValidate
  end.

(** [AVNoRoom]: [delete] and [remove] panic. *)
Inductive avmap_result := AVDone (r : vmap_result V) | AVFull (full : ArenaFull K V) | AVNoRoom.

Inductive av_allowed M : avmap_op → avmap_result → gmap path (K * history) → Prop :=
| av_done op r M' : just vspec_op M (on_heap op) r M' → av_allowed M op (AVDone r) M'
| av_full k v o : av_allowed M (AVTryInsert k v o) (AVFull {| af_key := k; af_value := o |}) M
| av_no_room_delete k v : av_allowed M (AVDelete k v) AVNoRoom M
| av_no_room_remove k : av_allowed M (AVRemove k) AVNoRoom M.

(** [delete] and [remove], but for the panic. *)
Definition av_try_delete (key : K) (version : Z) : prog avmap_result :=
  '(r, _) ← avtree_insert leaf_layout version_layout chain_fuel retries key version None None;
  match r with inl delta => mret (AVDone (VBool (delta <? 0))) | inr _ => mret AVNoRoom end.

Definition av_try_remove (key : list byte) : prog avmap_result :=
  r ← av_remove_head version_layout retries key;
  match r with
  | inl None => mret (AVDone (VPair None))
  | inl (Some (l, old)) =>
    e ← aventry_new l old;
    match e with
    | None => mret (AVDone (VPair None))
    | Some e => version ← aventry_version e; value ← aventry_value e; mret (AVDone (VPair (Some (version, value))))
    end
  | inr _ => mret AVNoRoom
  end.

(** What the code does. *)
Definition avdo_op (fuel : nat) (op : avmap_op) : prog avmap_result :=
  match op with
  | AVGet k => v ← avmap_get retries k; mret (AVDone (VValue v))
  | AVGetSlice k => v ← avmap_get_by_slice retries k; mret (AVDone (VValue v))
  | AVGetLatest k => p ← avmap_get_latest retries k; mret (AVDone (VPair p))
  | AVGetVersionLe k max => p ← avmap_get_version_le chain_fuel retries k max; mret (AVDone (VPair p))
  | AVContains k => b ← avmap_contains_key retries k; mret (AVDone (VBool b))
  | AVTryInsert k v o =>
    r ← avmap_try_insert leaf_layout version_layout chain_fuel retries k v o;
    match r with inl _ => mret (AVDone (VBool true)) | inr full => mret (AVFull full) end
  | AVDelete k v => av_try_delete k v
  | AVRemove k => av_try_remove k
  | AVRemoveKey k => b ← avmap_remove_key chain_fuel retries k; mret (AVDone (VBool b))
  | AVRemoveVersion k v => b ← avmap_remove_version chain_fuel retries k v; mret (AVDone (VBool b))
  | AVCount k => n ← avmap_version_count chain_fuel retries k; mret (AVDone (VNumber n))
  | AVAllVersions k => h ← avmap_get_all_versions chain_fuel retries k; mret (AVDone (VVersions h))
  | AVPruneKey k min f => n ← avmap_prune_key chain_fuel retries k min f; mret (AVDone (VNumber n))
  | AVLen => n ← avmap_len; mret (AVDone (VLength n))
  | AVIsEmpty => b ← avmap_is_empty; mret (AVDone (VBool b))
  | AVClear => _ ← avmap_clear fuel; mret (AVDone VUnit)
  | AVValidate => _ ← avmap_validate_invariants fuel; mret (AVDone VUnit)
  end.

Definition avdo_ops (fuel : nat) (ops : list avmap_op) : prog (list avmap_result) := run_code avdo_op fuel ops.

(** ** One operation *)

Abbreviation refines op s M := (λ (r : avmap_result) (s' : tree), ∃ M', av_allowed M op r M' ∧ vholds s' M' ∧ vkept s s').

Lemma as_on_heap op s M s' r : vholds s' (vspec_op (on_heap op) M).2 → vkept s s' → r = AVDone (vspec_op (on_heap op) M).1 →
  refines op s M r s'.
Proof using. clear Hretries. intros HS HK ->. eexists. split; [by constructor|done]. Qed.

Lemma av_inserted_refines s M B k v o (r : Z + K * option V) s' op : vholds s M → vkept s s' → avinsert_result s M B k v o r s' →
  match r with
  | inl d => ∀ q, q = AVDone (vspec_op (on_heap op) M).1 → (vspec_op (on_heap op) M).2 = m_insert k v o M → refines op s M q s'
  | inr full => full = (k, o) ∧ vholds s' M
  end.
Proof using.
  clear Hretries. intros HS HK. destruct r as [d|full]; cbn.
  - intros [_ [m' R]] q -> E. apply as_on_heap; [rewrite E; by exists B, m'|done..].
  - intros [-> [m' R]]. split; [done|by exists B, m'].
Qed.

Lemma av_try_insert_refines s M k v o : vholds s M → fits_in chain_fuel M →
  wp (avdo_op 0 (AVTryInsert k v o)) (refines (AVTryInsert k v o) s M) s.
Proof using Hretries.
  intros HS HF. pose proof HS as (B & m & R). cbn [avdo_op]. apply wp_bind. unfold avmap_try_insert. apply wp_bind. eapply wp_mono.
  { by apply (avtree_insert_spec leaf_layout version_layout chain_fuel retries Hretries s M B m k v (Some o) None). }
  intros [r c] s' [(HK & B' & HD & _) _]. pose proof (av_inserted_refines _ _ _ _ _ _ _ _ (AVTryInsert k v o) HS HK HD) as X.
  destruct r as [d|full]; cbn [fst full_of] in *; [apply wp_ret, wp_ret; by apply X|].
  destruct X as [-> HS']. cbn [expect]. apply wp_ret, wp_ret. exists M. split; [constructor|done].
Qed.

Lemma av_delete_refines s M k v : vholds s M → fits_in chain_fuel M →
  wp (av_try_delete k v) (refines (AVDelete k v) s M) s.
Proof using Hretries.
  intros HS HF. pose proof HS as (B & m & R). apply wp_bind. eapply wp_mono.
  { by apply (avtree_insert_spec leaf_layout version_layout chain_fuel retries Hretries s M B m k v None None). }
  intros [r c] s' [(HK & B' & HD & _) _]. pose proof (av_inserted_refines _ _ _ _ _ _ _ _ (AVDelete k v) HS HK HD) as X.
  destruct r as [d|full]; cbn [fst] in *; apply wp_ret.
  - apply X; [|done]. destruct HD as [-> _]. cbn. do 2 f_equal. unfold delta_of. by destruct (h_live _), (h_live _).
  - destruct X as [-> HS']. exists M. split; [constructor|done].
Qed.

Lemma av_remove_refines s M k : vholds s M → wp (av_try_remove k) (refines (AVRemove k) s M) s.
Proof using Hretries.
  intros HS. pose proof HS as (B & m & R). apply wp_bind.
  eapply wp_mono; [by apply (av_remove_head_spec version_layout retries Hretries s M B m)|].
  intros [[[l p]|]|[]] s' [HK HD].
  - destruct HD as (k0 & v & o & h & HM & HS' & x & n & Hx & _ & Hn & Hd).
    destruct HS' as (B' & m' & R'). destruct (vr_good _ _ _ _ R' _ x Hx) as (c & dead & C & _).
    pose proof (ci_flags _ _ _ _ C _ n Hn) as Hfl. unfold aventry_new, ventry_new. cbn [ve_leaf ve_node] in *.
    apply wp_bind, wp_bind. eapply wp_version_read; [exact Hx|exact Hn|].
    assert (is_tombstone n = false) as -> by (rewrite (flags_tombstone n _ _ Hfl), (f_equal snd Hd : vn_value n = Some o); done).
    apply wp_ret, wp_bind. eapply wp_version_read; [exact Hx|exact Hn|]. apply wp_bind, wp_bind. eapply wp_version_read; [exact Hx|exact Hn|].
    rewrite (flags_value n _ _ Hfl), (f_equal snd Hd : vn_value n = Some o), (f_equal fst Hd : vn_version n = v).
    apply wp_ret, wp_ret, as_on_heap; [by exists B', m'|done|]. cbn. by rewrite HM.
  - destruct HD as [HM HS']. apply wp_ret, as_on_heap; [|done|].
    + cbn. unfold m_remove_head. by destruct (M !! k) as [[k0 [|[v [o|]] h]]|].
    + cbn. by destruct (M !! k) as [[k0 [|[v [o|]] h]]|].
  - apply wp_ret. exists M. split; [constructor|done].
Qed.

Lemma avmap_get_spec s M B m key : vrest s M B m →
  wp (avmap_get retries key) (λ r s', s' = s ∧ r = e ← M !! key; d ← head e.2; d.2) s.
Proof using Hretries.
  intros R. eapply wp_read; [by apply (av_get_latest_spec retries Hretries s M B m)|]. split; [done|].
  by destruct (M !! key) as [[k [|[v [o|]] h]]|].
Qed.

Lemma avdo_op_holds fuel op s M : vholds s M → fits_in chain_fuel M → Z.of_nat (size M) < 2 ^ 63 → (enough s <= fuel)%nat →
  wp (avdo_op fuel op) (refines op s M) s.
Proof using Hretries.
  intros HS HF Hs Hf. pose proof HS as (B & m & R). unfold enough in Hf.
  destruct op as [k|k|k|k max|k|k v o|k v|k|k|k v|k|k|k min f| | | |]; cbn [avdo_op].
  - eapply wp_read; [by apply (avmap_get_spec s M B m)|by apply as_on_heap].
  - eapply wp_read; [by apply (av_get_slice_spec retries Hretries s M B m)|by apply as_on_heap].
  - eapply wp_read; [by apply (av_get_latest_spec retries Hretries s M B m)|by apply as_on_heap].
  - eapply wp_read; [by apply (version_le_spec chain_fuel retries Hretries s M B m)|by apply as_on_heap].
  - eapply wp_read; [by apply (av_contains_key_spec retries Hretries s M B m)|by apply as_on_heap].
  - by apply av_try_insert_refines.
  - by apply av_delete_refines.
  - by apply av_remove_refines.
  - apply wp_bind. eapply wp_mono; [by apply (remove_key_spec chain_fuel retries Hretries s M B m)|].
    intros b s' (H1 & H2 & ->). by apply wp_ret, as_on_heap.
  - apply wp_bind. eapply wp_mono; [by apply (remove_version_spec chain_fuel retries Hretries s M B m)|].
    intros b s' (H1 & H2 & ->). by apply wp_ret, as_on_heap.
  - eapply wp_read; [by apply (version_count_spec chain_fuel retries Hretries s M B m)|by apply as_on_heap].
  - eapply wp_read; [by apply (all_versions_spec chain_fuel retries Hretries s M B m)|by apply as_on_heap].
  - apply wp_bind. eapply wp_mono; [by apply (av_prune_key_spec chain_fuel retries Hretries s M B m)|].
    intros b s' (H1 & H2 & ->). by apply wp_ret, as_on_heap.
  - eapply wp_read; [by apply (vmap_len_spec s M B m)|by apply as_on_heap].
  - eapply wp_read; [eapply wp_read; [by apply (vmap_len_spec s M B m)|by split]|by apply as_on_heap].
  - apply wp_bind. eapply wp_mono; [apply (vmap_clear_spec fuel s M B m R); lia|]. intros ? s' [H1 H2]. by apply wp_ret, as_on_heap.
  - apply wp_bind. eapply wp_mono; [apply (vmap_validate_spec fuel s M B m R Hs); lia|]. intros ? s' ->. by apply wp_ret, as_on_heap.
Qed.

(** ** Sequences of operations *)

Lemma avdo_op_extends f f' op : (f <= f')%nat → extends (avdo_op f op : prog _) (avdo_op f' op).
Proof using.
  clear Hretries. intros Hf. assert (∀ St A body (x : St), extends (loop f body x : prog A) (loop f' body x)) as HL by (intros; by apply extends_loop).
  destruct op; cbn [avdo_op]; try reflexivity; apply extends_bind; try done.
  - apply extends_bind; [done|]. intros w. apply extends_bind; [done|]. intros old. apply extends_bind; [done|]. intros [].
    case_match; [done|]. by apply extends_bind.
  - apply extends_bind; [|done]. apply extends_bind; [done|]. intros r. by apply extends_bind.
Qed.

#[export] Instance avmap_simulation s0 : Simulation av_allowed avdo_op (vholds_since s0) vfits (within chain_fuel).
Proof using Hretries.
  split.
  - intros n op s M [HS HK] [F1 F2] [H1 H2]. eapply wp_mono; [apply (avdo_op_holds (enough s) op s M HS); [|lia|done]|].
    + intros k e Hk. pose proof (F2 k e Hk). lia.
    + intros r s' (M' & HA & HS' & HK'). exists M'. split; [done|]. split; [done|by etrans].
  - apply avdo_op_extends.
  - intros n op M r M' HA F. destruct HA as [op r M' [-> ->]|k v o|k v|k]; [by apply vspec_op_grows|by apply vfits_more..].
  - intros n n' Hn [H1 H2]. split; lia.
Qed.

Lemma avdo_ops_holds n ops s M : vholds s M → vfits n M → within chain_fuel (n + length ops) →
  ∃ bound, ∀ fuel, (bound <= fuel)%nat →
    wp (avdo_ops fuel ops) (λ rs s', ∃ M', allowed_run av_allowed ops rs M M' ∧ vholds s' M' ∧ vkept s s') s.
Proof using Hretries.
  intros HS HF HW. by apply (run_code_allowed (holds := vholds_since s) (fits := vfits) (ok := within chain_fuel) _ _ n).
Qed.
(** A run that ended had enough. *)
Lemma avdo_ops_done n fuel ops s M rs s' : vholds s M → vfits n M → within chain_fuel (n + length ops) →
  run (avdo_ops fuel ops) s = Done rs s' → ∃ M', allowed_run av_allowed ops rs M M' ∧ vholds s' M' ∧ vfits (n + length ops) M'.
Proof using Hretries.
  intros HS HF HW E. destruct (run_code_done (holds := vholds_since s) (fits := vfits) (ok := within chain_fuel) _ _ n fuel ops s M rs s')
    as (M' & HA & HS' & _); [by split|done..|]. exists M'. split_and!; [done..|].
  by apply (run_fits (holds := vholds_since s) (ok := within chain_fuel) _ _ n ops rs M).
Qed.
End avrefine.
Arguments avmap_op : clear implicits.
Arguments avmap_result : clear implicits.
