(* ===== verification/VIterSpec.v ===== *)
(** * What the iterators of a versioned map yield

    [vrange_ok r es]: the range [r] has the keys with the histories [es] left.
    Each end skips the deleted keys, and pops the next live one. *)

From stdpp Require Import sorting.
From S2P Require Import Prelude Bytes Latch Slot Bits Node NodeSpec NodeOps Free Mem Shape Raw Read Write Remove Shrink Inv Descent Update Pool Commits Order Rules WriteSpec RemoveSpec ShrinkSpec Walk WalkSpec Cursor CursorSpec Tree Map Iter MapSpec IterSpec Version VTree VMap VersionSpec VLeafSpec VMapSpec VMapOps.
Local Open Scope Z_scope.

(** ** Specifications *)

Section spec.
Context {SL K V : Type} {SLO : LeafSlots SL V} {AB : AsBytes K}.
Abbreviation history := (list (Z * option V)).

(** The live keys, with their newest version. *)
Definition live_entry (e : K * history) : option (K * Z * V) :=
  match e.2 with (v, Some o) :: _ => Some (e.1, v, o) | _ => None end.
Definition live_entries (es : list (K * history)) : list (K * Z * V) := omap live_entry es.

(** A callback over a list, until it says to stop. *)
Fixpoint vvisit_until {S} (callback : K → V → Z → S → bool * S) (es : list (K * Z * V)) (st : S) : S :=
  match es with
  | [] => st
  | (k, v, o) :: es => let '(go_on, st) := callback k o v st in if go_on then vvisit_until callback es st else st
  end.

Definition ventry_read (e : VersionedEntryRef) : prog (VersionedLeaf SL K V) (K * Z * V) :=
  k ← ventry_key e; v ← ventry_version e; o ← ventry_value e; mret (k, v, o).

Definition vrange_ends (fuel : nat) (dir : Dir) (r : VRange) : prog (VersionedLeaf SL K V) (option VersionedEntryRef * VRange) :=
  match dir with Forward => vrange_next fuel r | Backward => vrange_next_back fuel r end.

(** Any mix of [next] and [next_back], the entries copied out. *)
Definition vrange_run (fuel : nat) (r : VRange) (dirs : list Dir) : prog (VersionedLeaf SL K V) (list (option (K * Z * V))) :=
  ends_run (vrange_ends fuel) ventry_read r dirs.
End spec.

(** ** The proofs *)

Lemma orient_omap {A B} dir (f : A → option B) l : orient dir (omap f l) = omap f (orient dir l).
Proof.
  destruct dir; [done|]. cbn [orient]. induction l as [|x l IH]; [done|].
  rewrite reverse_cons, omap_app, <- IH. cbn [omap list_omap]. destruct (f x); cbn; [apply reverse_cons|by rewrite app_nil_r].
Qed.

Lemma omap_length_le {A B} (f : A → option B) l : (length (omap f l) <= length l)%nat.
Proof. induction l as [|x l IH]; [done|]. cbn [omap list_omap length]. destruct (f x); cbn; unfold omap in *; lia. Qed.

(** Popping from the live entries, by what the whole list pops. *)
Lemma pop_omap {A B} dir (f : A → option B) l : match pop dir l with
  | (None, _) => pop dir (omap f l) = (None, [])
  | (Some x, l') => match f x with
                    | Some y => pop dir (omap f l) = (Some y, omap f l')
                    | None => pop dir (omap f l) = pop dir (omap f l')
                    end
  end.
Proof.
  unfold pop. rewrite orient_omap. destruct (orient dir l) as [|x l']; [done|]. cbn [omap list_omap].
  destruct (f x); [by rewrite orient_omap|]. by rewrite orient_omap, orient_orient.
Qed.

Lemma pop_length {A} dir (l : list A) x l' : pop dir l = (Some x, l') → length l = S (length l').
Proof.
  unfold pop. pose proof (Permutation_length (orient_perm dir l)) as E. destruct (orient dir l) as [|y l1]; [done|].
  intros [= -> <-]. by rewrite <- E, (Permutation_length (orient_perm dir l1)).
Qed.

Section proofs.
Context {SL K V St : Type} {SLO : LeafSlots SL V} {SLL : SlotsLaws SL V} {AB : AsBytes K} {LY : Layout St}.
Abbreviation tree := (RawTree (VersionedLeaf SL K V) St).
Abbreviation history := (list (Z * option V)).
Context (s : tree) (M : gmap path (K * history)) (B : gmap loc path) (m : gmap path loc).
Context (R : vrest s M B m) (fuel : nat) (Hf : (cursor_fuel s B <= fuel)%nat).
Set Default Proof Using "All".

(** The entry of a leaf, and of a handle. *)
Definition vent (l : loc) (e : K * history) : Prop := ∃ x c, linked s M m (as_bytes e.1) l x c ∧ e = (vl_key x, c.*2).

Definition vref (r : VersionedEntryRef) (d : K * Z * V) : Prop :=
  ∃ x n, t_leaves s !! ve_leaf r = Some x ∧ vl_key x = d.1.1 ∧ vl_deref x (ve_node r) = Some n ∧
    vn_version n = d.1.2 ∧ version_value n = Some d.2.

Definition vrange_ok (r : VRange) (es : list (K * history)) : Prop :=
  cursor_ok s B (vr_cursor r) ∧ Forall2 vent (remaining s B (vr_cursor r) Forward) es ∧ (length es < fuel)%nat.

(** The head of an entry's leaf, and its handle if it is live. *)
Lemma vent_head l e : vent l e → ∃ x n, t_leaves s !! l = Some x ∧ vl_deref x (vl_head x) = Some n ∧
  match live_entry e with
  | Some d => is_tombstone n = false ∧ vref {| ve_leaf := l; ve_node := vl_head x |} d
  | None => is_tombstone n = true
  end.
Proof.
  intros (x & c & L & ->). destruct (linked_head _ _ _ _ _ _ _ L) as (p & d & c' & -> & Ep).
  destruct (linked_version _ _ _ _ _ _ _ p d L) as (n & Hn & _ & Hv & Hver & Ht & _); [by left|]. exists x, n. rewrite Ep.
  split_and!; [apply L|done|]. rewrite Ht. destruct d as [v [o|]]; cbn; [|done]. split; [done|]. exists x, n. by split_and!; [apply L|..].
Qed.

Lemma vrange_step_spec dir r es : vrange_ok r es →
  wp (vrange_ends fuel dir r) (λ o s', s' = s ∧ option_Forall2 vref o.1 (pop dir (live_entries es)).1 ∧
      ∃ es', vrange_ok o.2 es' ∧ live_entries es' = (pop dir (live_entries es)).2 ∧ (length es' <= length es)%nat) s.
Proof.
  intros (HC & HF & Hl).
  assert (wp (loop fuel (vrange_turn fuel dir) (vr_cursor r))
    (λ o s', s' = s ∧ option_Forall2 vref o.1 (pop dir (live_entries es)).1 ∧
      ∃ es', vrange_ok o.2 es' ∧ live_entries es' = (pop dir (live_entries es)).2 ∧ (length es' <= length es)%nat) s) as X.
  2:{ by destruct dir. }
  apply (wp_loop_measure (λ k c s', s' = s ∧ ∃ es', cursor_ok s B c ∧ Forall2 vent (remaining s B c Forward) es' ∧ k = length es' ∧
    (k <= length es)%nat ∧ pop dir (live_entries es') = pop dir (live_entries es)) _ _ _ _ _ (length es));
    [|split; [done|]; by exists es|done].
  intros k c ? (-> & es' & HC' & HF' & -> & Hle & E). unfold vrange_turn. apply wp_bind.
  assert (wp (match dir with Forward => next fuel c | Backward => next_back fuel c end) (λ o s', s' = s ∧ cursor_ok s B o.2 ∧
    (o.1, remaining s B o.2 Forward) = pop dir (remaining s B c Forward)) s) as Y.
  { destruct dir; apply (advance_pops s m B ∅ (vr_wf _ _ _ _ R)); done. }
  eapply wp_mono; [exact Y|]. intros [o c'] ? [-> [HC2 E2]]. cbn [fst snd] in HC2, E2.
  pose proof (pop_Forall2 vent dir _ _ HF') as [H1 H2]. rewrite <- E2 in H1, H2. cbn [fst snd] in H1, H2.
  pose proof (pop_omap dir live_entry es') as P. fold (live_entries es') in P.
  destruct (pop dir es') as [oe es2] eqn:Ep. cbn [fst snd] in H1, H2. destruct H1 as [l e He|].
  - assert (length es' = S (length es2)) as EL by by eapply pop_length.
    destruct (vent_head l e He) as (x & n & Hx & Hn & HD). apply wp_bind. eapply wp_leaf_read; [exact Hx|]. apply wp_bind.
    eapply wp_version_read; [exact Hx|exact Hn|]. destruct (live_entry e) as [d|].
    + destruct HD as [-> Hd]. apply wp_ret. rewrite P in E. rewrite <- E. split; [done|]. split; [by constructor|].
      exists es2. split_and!; [|done|lia]. split_and!; [done|done|lia].
    + rewrite HD. apply wp_ret. exists (length es2). split; [lia|]. split; [done|]. exists es2. split_and!; [done..|lia|by rewrite <- E, P].
  - apply wp_ret. rewrite <- E, P. split; [done|]. split; [constructor|]. exists es2.
    assert (es2 = []) as ->.
    { unfold pop in Ep. by destruct (orient dir es'); [injection Ep as <-|]. }
    split_and!; [|done|cbn; lia]. split_and!; [done|done|cbn; lia].
Qed.

Lemma vref_read e d : vref e d → wp (ventry_read e) (λ r s', s' = s ∧ r = d) s.
Proof using SLO LY.
  clear fuel Hf R. intros (x & n & Hx & Hk & Hn & Hv & Ho). unfold ventry_read. apply wp_bind. eapply wp_leaf_read; [exact Hx|].
  apply wp_bind. eapply wp_version_read; [exact Hx|exact Hn|]. apply wp_bind, wp_bind. eapply wp_version_read; [exact Hx|exact Hn|].
  rewrite Ho. apply wp_ret, wp_ret. split; [done|]. destruct d as [[k v] o]. cbn in *. congruence.
Qed.

Lemma vrange_run_spec dirs r es : vrange_ok r es →
  wp (vrange_run fuel r dirs) (λ rs s', s' = s ∧ rs = deque (live_entries es) (Yield <$> dirs)) s.
Proof.
  unfold vrange_run. revert r es. induction dirs as [|dir dirs IH]; intros r es HR; cbn [ends_run fmap list_fmap deque]; [by apply wp_ret|].
  apply wp_bind. eapply wp_mono; [by apply vrange_step_spec|]. intros [o r'] s' (-> & HO & es' & HR' & E & _). cbn [fst snd] in HO, HR'.
  destruct (pop dir (live_entries es)) as [o' ds]. cbn [fst snd] in HO, E. subst ds. apply wp_bind.
  assert (wp (match o with None => mret None | Some e => d ← ventry_read e; mret (Some d) end) (λ d s', s' = s ∧ d = o') s) as X.
  { destruct HO as [e d Hd|]; [|by apply wp_ret]. apply wp_bind. eapply wp_mono; [by apply vref_read|]. intros ? ? [-> ->]. by apply wp_ret. }
  eapply wp_mono; [exact X|]. intros d ? [-> ->]. apply wp_bind. eapply wp_mono; [by apply IH|].
  intros rs ? [-> ->]. by apply wp_ret.
Qed.

Lemma vscan_spec {S} (callback : K → V → Z → S → bool * S) r es st : vrange_ok r es →
  wp (loop fuel (vscan_turn fuel callback) (r, st)) (λ st' s', s' = s ∧ st' = vvisit_until callback (live_entries es) st) s.
Proof.
  intros HR. pose proof HR as (_ & _ & Hl).
  apply (wp_loop_measure (λ k (c : VRange * S) s', s' = s ∧ ∃ es', vrange_ok c.1 es' ∧ k = length (live_entries es') ∧
    vvisit_until callback (live_entries es') c.2 = vvisit_until callback (live_entries es) st)
    _ _ _ _ _ (length (live_entries es))); [|split; [done|]; by exists es|].
  - intros k [r' st'] ? (-> & es' & HR' & -> & E). cbn [fst snd] in *. unfold vscan_turn. apply wp_bind.
    eapply wp_mono; [by apply (vrange_step_spec Forward)|]. intros [o r2] ? (-> & HO & es2 & HR2 & E2 & _). cbn [fst snd] in *.
    destruct (live_entries es') as [|d ds] eqn:Ed; cbn [pop orient fst snd] in HO, E2; inversion HO as [e ? Hd|]; subst.
    + apply wp_ret. by rewrite <- E.
    + destruct Hd as (x & n & Hx & Hk & Hn & Hv & Ho). apply wp_bind. eapply wp_leaf_read; [exact Hx|]. apply wp_bind. apply wp_bind.
      eapply wp_version_read; [exact Hx|exact Hn|]. rewrite Ho. apply wp_ret, wp_bind. eapply wp_version_read; [exact Hx|exact Hn|].
      rewrite Hk, Hv. destruct d as [[k v] o]. cbn [fst snd vvisit_until] in *.
      destruct (callback k o v st') as [[] st2]; apply wp_ret; [|done].
      exists (length (live_entries es2)). split; [cbn; lia|]. split; [done|]. by exists es2.
  - pose proof (omap_length_le live_entry es) as X. fold (live_entries es) in X. lia.
Qed.

(** A new range has the keys between its bounds left. *)
Lemma vrange_new start end_ : ∃ es,
  (StronglySorted (λ e e', lex_cmp (as_bytes e.1) (as_bytes e'.1) = Lt) es ∧
   ∀ e, e ∈ es ↔ ∃ k, M !! k = Some e ∧ inside start end_ k) ∧ (length es <= size M)%nat ∧
  Forall2 vent (remaining s B (cursor_new (owned_bound start) (owned_bound end_)) Forward) es.
Proof using LY R.
  destruct (entries_in_range s m B (vr_wf _ _ _ _ R) vent (λ e, as_bytes e.1) M start end_) as (es & H1 & H2 & H3 & H4).
  - intros k. pose proof (vrest_lookup s M B m k R) as X. destruct (m !! k) as [l|]; [|done]. destruct X as (x & c & L).
    exists (vl_key x, c.*2). pose proof (ld_key _ _ _ _ _ _ _ L) as Ek. split_and!; [|apply L|done]. exists x, c. cbn. by rewrite Ek.
  - by exists es.
Qed.
End proofs.

(** ** Handles *)

(** A handle reads the same wherever its node is kept. *)
Lemma handle_read {SL K V St} {SLO : LeafSlots SL V} {SLL : SlotsLaws SL V} {AB : AsBytes K} {LY : Layout St}
    (s s' : RawTree (VersionedLeaf SL K V) St) M e key d :
  vhandle s e key d → vholds_since s s' M → wp (ventry_read e) (λ r s2, s2 = s' ∧ r = (key, d.1, d.2)) s'.
Proof.
  intros (x & nd & Hx & Hk & Hn & Hd) [(B & m & R) HK].
  destruct (HK _ x Hx) as (x' & Hx' & Ek & HD). destruct (HD _ nd Hn) as (nd' & Hn' & Hd'). rewrite Hd in Hd'.
  destruct (vr_good _ _ _ _ R _ x' Hx') as (c & dead & C & _). pose proof (ci_flags _ _ _ _ C _ nd' Hn') as Hfl.
  apply (vref_read s'). exists x', nd'. split_and!; [done|by rewrite Ek|done|by injection Hd'|]. cbn. rewrite (flags_value nd' _ _ Hfl).
  by injection Hd'.
Qed.
