(* ===== verification/VThm.v ===== *)
(** * What the versioned map promises

    The operations of [VersionedArtMap] against histories, and what follows for
    snapshots, handles, iterators and memory. *)

From stdpp Require Import sorting.
From S2P Require Import Prelude Bytes Latch Slot Bits Node Free Mem Simulate Shape Raw Read Write Inv Order RemoveSpec Cursor CursorSpec Tree Map MapSpec Iter IterSpec TreeThm Version VTree VMap VersionSpec VLeafSpec VMapSpec VMapOps VRefine VIterSpec.
Local Open Scope Z_scope.

Section theorems.
Context {K V : Type} `{AsBytes K}.
Abbreviation tree := (RawTree (HeapLeaf K V) HeapStorage).
Abbreviation history := (list (Z * option V)).
Implicit Types (s : tree) (M : gmap path (K * history)).

(** C4: the versioned map. Every sequence of its operations on a new map
    returns, given enough fuel for its walks; every result is the one that the
    histories of the keys give: reads at a snapshot, inserts and tombstones at
    any version in any order, replacement of a version, removal of a version
    and of a key, pruning, counts and listings; and the tree holds the
    resulting histories, with the count of the live keys. *)
Theorem versioned_map_refines_histories chain_fuel retries stripe (ops : list (vmap_op K V)) :
  (0 < retries)%nat → (stripe < Counter.STRIPES)%nat → within chain_fuel (length ops) →
  ∃ bound, ∀ fuel, (bound <= fuel)%nat →
    wp (vdo_ops chain_fuel retries fuel ops)
      (λ rs s', rs = (vspec_ops ops ∅).1 ∧ vholds s' (vspec_ops ops ∅).2) (vmap_new stripe : tree).
Proof.
  intros Hr Hs Hw. destruct (vdo_ops_holds chain_fuel retries Hr 0 ops (vmap_new stripe : tree) ∅) as [bound Hb];
    [by apply vholds_new|apply vfits_empty|done|].
  exists bound. intros fuel Hf. eapply wp_mono; [by apply Hb|]. by intros rs s' (? & ? & _).
Qed.

(** C9: the watermark contract of pruning. A read of any key at any snapshot at
    or above [min_version] gives the same version before and after
    [prune_key], but for the pruned key itself when the caller's
    [is_tombstone] accepts the value that was read. *)
Theorem snapshots_survive_pruning chain_fuel retries s M pruned key min_version max is_tombstone :
  (0 < retries)%nat → vholds s M → fits_in chain_fuel M → min_version <= max →
  wp (before ← vmap_get_version_le chain_fuel retries key max;
      _ ← vmap_prune_key chain_fuel retries pruned min_version is_tombstone;
      after ← vmap_get_version_le chain_fuel retries key max;
      mret (before, after))
    (λ r _, r.2 = r.1 ∨ key = pruned ∧ r.2 = None ∧ ∃ v o, r.1 = Some (v, o) ∧ is_tombstone o = true) s.
Proof.
  intros Hr (B & m & R) HF Hm. apply wp_bind. eapply wp_mono; [by apply (version_le_spec chain_fuel retries Hr s M B m)|].
  intros before ? [-> Eb]. apply wp_bind. eapply wp_mono; [by apply (prune_key_spec chain_fuel retries Hr s M B m)|].
  intros n s' ((B' & m' & R') & _ & _).
  assert (fits_in chain_fuel (m_prune pruned min_version is_tombstone M)) as HF'.
  { intros k e. unfold m_prune. destruct (M !! pruned) as [e0|] eqn:E0; [|by apply HF].
    destruct (h_prune _ _ _) as [h|] eqn:EP; [|rewrite lookup_delete_Some; intros [_ ?]; by apply (HF k)].
    rewrite lookup_insert_Some. intros [[_ <-]|[_ ?]]; [|by apply (HF k)]. cbn. apply h_prune_length in EP. pose proof (HF _ _ E0). lia. }
  apply wp_bind. eapply wp_mono; [by apply (version_le_spec chain_fuel retries Hr s' (m_prune pruned min_version is_tombstone M) B' m')|].
  intros after ? [-> Ea]. apply wp_ret. cbn [fst snd]. subst before after. unfold m_prune.
  destruct (M !! pruned) as [[k0 h]|] eqn:E0; [|by left]. destruct (decide (key = pruned)) as [->|Hne].
  2:{ left. destruct (h_prune _ _ _); [by rewrite lookup_insert_ne|by rewrite lookup_delete_ne]. }
  rewrite E0. cbn [mbind option_bind fst snd]. pose proof (vrest_lookup s M B m pruned R) as X. destruct (m !! pruned); [|congruence].
  destruct X as (x & c & L). assert (StronglySorted newer h) as HS.
  { pose proof (ci_sorted _ _ _ _ (ld_chain _ _ _ _ _ _ _ L)) as HS. pose proof (ld_history _ _ _ _ _ _ _ L) as E. rewrite E0 in E. by injection E as _ ->. }
  unfold h_prune. destruct h as [|d h]; [left; by rewrite lookup_insert_eq|].
  destruct (bool_decide_reflect (d.1 <= min_version)) as [Hd|Hd]; cbn [andb].
  - rewrite (h_le_head max) by lia. destruct (none_or is_tombstone d.2) eqn:Et.
    + rewrite lookup_delete_eq. destruct d as [v [o|]]; cbn in *; [right|by left]. split_and!; [done..|]. by exists v, o.
    + left. rewrite lookup_insert_eq. cbn [mbind option_bind snd]. rewrite h_le_trim by done. by rewrite (h_le_head max) by lia.
  - left. rewrite lookup_insert_eq. cbn [mbind option_bind snd]. by rewrite h_le_trim.
Qed.

(** C10: handles. Whatever operations follow, a handle taken on a version reads
    the same key, version and value: no operation frees or changes a node that
    a handle has captured. *)
Theorem captured_versions_never_change chain_fuel retries n s M (ops : list (vmap_op K V)) e key d :
  (0 < retries)%nat → vholds s M → vfits n M → within chain_fuel (n + length ops) → vhandle s e key d →
  ∃ bound, ∀ fuel, (bound <= fuel)%nat →
    wp (_ ← vdo_ops chain_fuel retries fuel ops; ventry_read e) (λ r _, r = (key, d.1, d.2)) s.
Proof.
  intros Hr HS HF Hw Hh. destruct (vdo_ops_holds chain_fuel retries Hr n ops s M HS HF Hw) as [bound Hb].
  exists bound. intros fuel Hf. apply wp_bind. eapply wp_mono; [by apply Hb|]. intros rs s' [_ HS'].
  eapply wp_mono; [by eapply handle_read|]. by intros r ? [_ ->].
Qed.

(** C11: memory of the chains. After any sequence of operations, each leaf's
    drop ends; it frees heap version nodes, of which none was retired, and none
    is left out: every heap node made for the leaf is freed with it or was
    retired, once. It drops exactly the slots that hold a version. A node is
    marked superseded exactly when it is out of the chain. *)
Theorem version_nodes_are_freed_once chain_fuel retries stripe (ops : list (vmap_op K V)) :
  (0 < retries)%nat → (stripe < Counter.STRIPES)%nat → within chain_fuel (length ops) →
  ∃ bound, ∀ fuel, (bound <= fuel)%nat →
    wp (vdo_ops chain_fuel retries fuel ops) (λ _ s', ∀ l x, t_leaves s' !! l = Some x →
      ∃ links drop_fuel freed slots, versioned_leaf_drop drop_fuel x = Some (freed, slots) ∧
        NoDup (freed ++ vl_retired x) ∧ (∀ i, is_Some (vl_heap x !! i) ↔ i ∈ freed ++ vl_retired x) ∧
        (∀ p, p ∈ slots ↔ is_slot p = true ∧ is_Some (vl_deref x p)) ∧
        seg x (vl_head x) links VNull ∧
        ∀ p n, vl_deref x p = Some n → is_superseded n = negb (bool_decide (p ∈ links.*1))) (vmap_new stripe : tree).
Proof.
  intros Hr Hs Hw. destruct (vdo_ops_holds chain_fuel retries Hr 0 ops (vmap_new stripe : tree) ∅) as [bound Hb];
    [by apply vholds_new|apply vfits_empty|done|].
  exists bound. intros fuel Hf. eapply wp_mono; [by apply Hb|]. intros rs s' (_ & (B & m & R) & _) l x Hx.
  destruct (vr_good _ _ _ _ R l x Hx) as (c & dead & C & _). exists c, (S (length c)).
  destruct (leaf_drop_spec (S (length c)) x c C ltac:(lia)) as (freed & slots & H1 & H2 & H3 & H4). exists freed, slots.
  split_and!; [done..|apply C|]. intros p n Hn. pose proof (ci_flags _ _ _ _ C p n Hn) as Hfl. rewrite app_nil_r in Hfl.
  by apply (flags_superseded n _ _ Hfl).
Qed.

(** C21: the iterators of a versioned map. With enough fuel, a [range] yields
    the keys between its bounds whose newest version is live, with that version,
    in key order from either end, each once whatever the mix of [next] and
    [next_back], and then nothing; [scan] calls its callback on them in order
    until it says to stop. *)
Theorem versioned_iterators_yield_the_live_keys {Q} `{AsBytes Q} {S} s M (start end_ : Bound Q) dirs (callback : K → V → Z → S → bool * S) st :
  vholds s M →
  ∃ es bound, range_of M (bytes_of start) (bytes_of end_) es ∧ ∀ fuel, (bound <= fuel)%nat →
    wp (vrange_run fuel (vmap_range start end_) dirs) (λ rs s', s' = s ∧ rs = deque (live_entries es) (Yield <$> dirs)) s ∧
    wp (vmap_scan fuel start end_ callback st) (λ st' s', s' = s ∧ st' = vvisit_until callback (live_entries es) st) s.
Proof.
  intros (B & m & R). destruct (vrange_new s M B m R (bytes_of start) (bytes_of end_)) as (es & H1 & H2 & H3).
  exists es, (Nat.max (cursor_fuel s B) (Datatypes.S (size M))). split; [exact H1|]. intros fuel Hf.
  assert (vrange_ok s M B m fuel (vmap_range start end_) es) as HR by (split_and!; [apply cursor_new_ok|exact H3|lia]). split.
  - eapply vrange_run_spec; [exact R|lia|exact HR].
  - eapply vscan_spec; [exact R|lia|exact HR].
Qed.
End theorems.

(** ** Witnesses: trees of byte keys *)

Abbreviation vbytes_tree := (RawTree (HeapLeaf (list byte) nat) HeapStorage).
Definition vtree0 : vbytes_tree := vmap_new 0.

(** Three versions of one key, one on the heap; a deleted key; a replaced version. *)
Definition sample_vops : list (vmap_op (list byte) nat) :=
  [VInsert key_a 10 1%nat; VInsert key_a 30 3%nat; VInsert key_a 20 2%nat; VInsert key_b 5 7%nat; VDelete key_b 6;
   VInsert key_c 4 8%nat; VInsert key_c 4 9%nat].
Definition vmap1 : gmap path (list byte * list (Z * option nat)) := (vspec_ops sample_vops ∅).2.
Definition vtree1 : vbytes_tree := match run (vdo_ops 20 1 0 sample_vops) vtree0 with Done _ s => s | _ => vtree0 end.

Lemma small_within n : (n < 20)%nat → within 20 n.
Proof. unfold within. lia. Qed.

Lemma vtree1_holds : vholds vtree1 vmap1.
Proof.
  assert (vholds vtree0 ∅) as H0 by (apply vholds_new; unfold Counter.STRIPES; lia).
  assert (match run (vdo_ops 20 1 0 sample_vops) vtree0 with Done _ _ => true | _ => false end = true) as E by (vm_compute; reflexivity).
  unfold vtree1. destruct (run _ _) as [o s| | |] eqn:X; [|discriminate E..].
  eapply (vdo_ops_done (K := list byte) (V := nat) 20 1 ltac:(lia) 0 0 sample_vops vtree0 ∅);
    [exact H0|apply vfits_empty|apply small_within; cbn; lia|exact X].
Qed.

Lemma vmap1_fits : vfits 3 vmap1.
Proof.
  split; [vm_compute; lia|]. assert (forallb (λ p, length p.2.2 <=? 3)%nat (map_to_list vmap1) = true) as E by (vm_compute; reflexivity).
  rewrite forallb_forall in E. intros k e Hk%elem_of_map_to_list%list_elem_of_In. apply Nat.leb_le, (E (k, e) Hk).
Qed.

Lemma vmap1_fits_in : fits_in 20 vmap1.
Proof. intros k e Hk. pose proof (proj2 vmap1_fits k e Hk). lia. Qed.

Definition all_vops : list (vmap_op (list byte) nat) :=
  sample_vops ++ [VGetVersionLe key_a 25; VRemove key_a; VRemoveVersion key_a 20; VPruneKey key_b 9 (λ _, false);
                  VAllVersions key_a; VShrinkToFit; VLen; VValidate; VClear; VIsEmpty].

Lemma versioned_map_refines_histories_witness : ∃ bound, ∀ fuel, (bound <= fuel)%nat →
  wp (vdo_ops 20 1 fuel all_vops) (λ rs s', rs = (vspec_ops all_vops ∅).1 ∧ vholds s' (vspec_ops all_vops ∅).2) vtree0.
Proof.
  exact (versioned_map_refines_histories 20 1 0 all_vops ltac:(lia) ltac:(unfold Counter.STRIPES; lia) (small_within (length all_vops) ltac:(vm_compute; lia))).
Defined.

(** The results, computed. *)
Example all_vops_results : drop 7 (vspec_ops all_vops ∅).1 =
  [VPair (Some (20, 2%nat)); VPair (Some (30, 3%nat)); VBool true; VNumber 2; VVersions [(30, None); (10, Some 1%nat)];
   VUnit; VLength 1; VUnit; VUnit; VBool true].
Proof. vm_compute. reflexivity. Qed.

Lemma snapshots_survive_pruning_witness :
  wp (before ← vmap_get_version_le 20 1 key_a 25;
      _ ← vmap_prune_key 20 1 key_a 20 (λ _, false);
      after ← vmap_get_version_le 20 1 key_a 25;
      mret (before, after))
    (λ r _, r.2 = r.1 ∨ key_a = key_a ∧ r.2 = None ∧ ∃ v o, r.1 = Some (v, o) ∧ false = true) vtree1.
Proof.
  apply (snapshots_survive_pruning 20 1 vtree1 vmap1 key_a key_a 20 25 (λ _, false)); [lia|exact vtree1_holds|exact vmap1_fits_in|lia].
Defined.

(** The handle on the newest version of [key_a]. *)
Definition handle1 : VersionedEntryRef :=
  match run (vmap_get_entry 1 key_a) vtree1 with Done (Some e) _ => e | _ => {| ve_leaf := 1%positive; ve_node := VNull |} end.

Lemma handle1_ok : vhandle vtree1 handle1 key_a (30, 3%nat).
Proof.
  assert (match t_leaves vtree1 !! ve_leaf handle1 with
    | Some x => match vl_deref x (ve_node handle1) with
                | Some n => bool_decide (vl_key x = key_a) && bool_decide (data n = (30, Some 3%nat))
                | None => false
                end
    | None => false
    end = true) as E by (vm_compute; reflexivity).
  destruct (t_leaves vtree1 !! ve_leaf handle1) as [x|] eqn:Hx; [|discriminate E].
  destruct (vl_deref x (ve_node handle1)) as [n|] eqn:Hn; [|discriminate E]. apply andb_prop in E as [E1 E2].
  exists x, n. split_and!; [exact Hx|by apply bool_decide_eq_true in E1|exact Hn|by apply bool_decide_eq_true in E2].
Qed.

Lemma captured_versions_never_change_witness : ∃ bound, ∀ fuel, (bound <= fuel)%nat →
  wp (_ ← vdo_ops 20 1 fuel [VInsert key_a 30 4%nat; VRemoveKey key_a; VClear]; ventry_read handle1)
    (λ r _, r = (key_a, 30, 3%nat)) vtree1.
Proof.
  exact (captured_versions_never_change 20 1 3 vtree1 vmap1 [VInsert key_a 30 4%nat; VRemoveKey key_a; VClear] handle1 key_a (30, 3%nat)
    ltac:(lia) vtree1_holds vmap1_fits (small_within 6 ltac:(lia)) handle1_ok).
Defined.

Lemma version_nodes_are_freed_once_witness : ∃ bound, ∀ fuel, (bound <= fuel)%nat →
  wp (vdo_ops 20 1 fuel all_vops) (λ _ s', ∀ l x, t_leaves s' !! l = Some x →
    ∃ drop_fuel freed slots, versioned_leaf_drop drop_fuel x = Some (freed, slots) ∧ NoDup (freed ++ vl_retired x)) vtree0.
Proof.
  unfold vtree0. destruct (version_nodes_are_freed_once 20 1 0 all_vops ltac:(lia) ltac:(unfold Counter.STRIPES; lia) (small_within (length all_vops) ltac:(vm_compute; lia)))
    as [bound Hb]. exists bound. intros fuel Hf. refine (wp_mono _ _ _ _ (Hb fuel Hf) _). intros rs s' HX l x Hx.
  destruct (HX l x Hx) as (links & drop_fuel & freed & slots & H1 & H2 & _). exists drop_fuel, freed, slots. split; [exact H1|exact H2].
Defined.

Lemma versioned_iterators_yield_the_live_keys_witness : ∃ es bound,
  range_of vmap1 Unbounded (Included key_c) es ∧
  wp (vrange_run bound (vmap_range Unbounded (Included key_c)) [Backward; Forward; Forward])
    (λ rs s', s' = vtree1 ∧ rs = deque (live_entries es) [Yield Backward; Yield Forward; Yield Forward]) vtree1.
Proof.
  destruct (versioned_iterators_yield_the_live_keys vtree1 vmap1 Unbounded (Included key_c) [Backward; Forward; Forward]
    (λ _ v _ n, (true, (n + v)%nat)) 0%nat vtree1_holds) as (es & bound & H1 & H2).
  exists es, bound. split; [exact H1|]. exact (proj1 (H2 bound (le_n bound))).
Defined.

(** The entries themselves, computed: the deleted key is skipped. *)
Example live_range_of_vtree1 :
  match run (vrange_run 40 (vmap_range Unbounded (Included key_c)) [Backward; Forward; Forward]) vtree1 with
  | Done rs _ => rs = [Some (key_c, 4, 9%nat); Some (key_a, 30, 3%nat); None]
  | _ => False
  end.
Proof. vm_compute. reflexivity. Qed.
