(* ===== verification/AVThm.v ===== *)
(** * What the versioned arena map promises

    An [ArenaVersionedArtMap] keeps the histories that the versioned map on the
    heap keeps, but that what needs room may be refused; a captured version
    never changes; the drop of the map drops every version once; an inserter
    inserts; [max_insert_bytes] suffices; the iterators yield the live keys. *)

From stdpp Require Import sorting.
From S2P Require Import Prelude Bytes Latch Slot Bits Node NodeSpec NodeOps Free Mem Simulate Arena ArenaSpec Shape Raw Read Write Budget Remove Inv Order RemoveSpec WriteSpec Walk Cursor CursorSpec Tree Map Iter MapSpec IterSpec TreeThm Version VTree VMap VersionSpec VLeafSpec VMapSpec VMapOps VRefine VIterSpec VThm ANode AStorage ATree AMap ABudget AMapSpec AThm AVTree AVMap AVSpec AVMapSpec AVBudget AVRefine.
Local Open Scope Z_scope.

(** ** The iterators are those of the heap *)

Section ends.
Context {K V : Type} {AB : AsBytes K}.
Abbreviation leaf := (AVLeaf K V).
Abbreviation extends := (extends (S := ArenaStorage)).

Definition avrange_ends (fuel : nat) (dir : Dir) (r : VRange) : prog leaf (option VersionedEntryRef * VRange) :=
  match dir with Forward => avrange_next fuel r | Backward => avrange_next_back fuel r end.

Definition avrange_run (fuel : nat) (r : VRange) (dirs : list Dir) : prog leaf (list (option (K * Z * V))) :=
  ends_run (avrange_ends fuel) ventry_read r dirs.

Lemma avrange_turn_extends fuel dir c : extends (vrange_turn (X := NoSlots) (K := K) (V := V) fuel dir c) (avrange_turn fuel dir c).
Proof.
  apply extends_bind; [done|]. intros [[l|] c']; [|done]. intros s a s'. unfold avrange_entry, aventry_new, ventry_new.
  rewrite !run_bind. destruct (run _ s) as [head s1| | |]; [|done..]. rewrite !run_bind.
  destruct (run _ s1) as [[] s2| | |]; done.
Qed.

Lemma avrange_ends_extends fuel dir r : extends (vrange_ends (SL := NoSlots) (K := K) (V := V) fuel dir r) (avrange_ends fuel dir r).
Proof. destruct dir; apply extends_body; apply avrange_turn_extends. Qed.

Lemma avrange_run_extends fuel r dirs : extends (vrange_run (SL := NoSlots) (K := K) (V := V) fuel r dirs) (avrange_run fuel r dirs).
Proof. apply ends_run_extends, avrange_ends_extends. Qed.

Lemma avscan_extends {S} fuel (callback : K → V → Z → S → bool * S) c :
  extends (loop fuel (vscan_turn (X := NoSlots) fuel callback) c) (loop fuel (avscan_turn fuel callback) c).
Proof.
  apply extends_body. intros [r st]. apply extends_bind; [apply (avrange_ends_extends fuel Forward)|]. intros [[e|] r']; done.
Qed.
End ends.

Section theorems.
Context {K V : Type} {AB : AsBytes K}.
Abbreviation tree := (RawTree (AVLeaf K V) ArenaStorage).
Abbreviation history := (list (Z * option V)).
Implicit Types (s : tree) (M : gmap path (K * history)) (m : gmap path loc).
Context (leaf_layout version_layout : AllocLayout) (chain_fuel retries : nat) (Hretries : (0 < retries)%nat).
Abbreviation do_ops := (avdo_ops leaf_layout version_layout chain_fuel retries).

(** C7: the versioned arena map. Every sequence of its operations on a new map
    in any arena returns, given enough fuel for its walks, and every result is
    the one that the versioned map on the heap gives, but that an insert may
    hand its key and value back, and a tombstone or a removal find no room,
    which then change nothing; the tree holds the resulting histories, with the
    count of the live keys. *)
Theorem arena_versioned_map_refines_histories storage stripe (ops : list (avmap_op K V)) :
  (stripe < Counter.STRIPES)%nat → within chain_fuel (length ops) →
  ∃ bound, ∀ fuel, (bound <= fuel)%nat →
    wp (do_ops fuel ops) (λ rs s', ∃ M', allowed_run av_allowed ops rs ∅ M' ∧ vholds s' M') (avmap_new storage stripe : tree).
Proof using Hretries.
  intros Hs Hw. destruct (avdo_ops_holds leaf_layout version_layout chain_fuel retries Hretries 0 ops (avmap_new storage stripe : tree) ∅)
    as [bound Hb]; [by apply vholds_new|apply vfits_empty|done|].
  exists bound. intros fuel Hf. eapply wp_mono; [by apply Hb|]. intros rs s' (M' & HA & HS & _). by exists M'.
Qed.

(** Captured versions in an arena. Whatever operations follow, refused or
    not, a handle taken on a version reads the same key, version and value. *)
Theorem arena_captured_versions_never_change n s M (ops : list (avmap_op K V)) e key d :
  vholds s M → vfits n M → within chain_fuel (n + length ops) → vhandle s e key d →
  ∃ bound, ∀ fuel, (bound <= fuel)%nat →
    wp (_ ← do_ops fuel ops; ventry_read e) (λ r _, r = (key, d.1, d.2)) s.
Proof using Hretries.
  intros HS HF Hw Hh. destruct (avdo_ops_holds leaf_layout version_layout chain_fuel retries Hretries n ops s M HS HF Hw) as [bound Hb].
  exists bound. intros fuel Hf. apply wp_bind. eapply wp_mono; [by apply Hb|]. intros rs s' (M' & _ & HS').
  eapply wp_mono; [by eapply handle_read|]. by intros r ? [_ ->].
Qed.

(** C12: the versions of an arena. After any sequence of operations, the drop of
    each leaf ends; it drops the key and the version nodes of the chain, none of
    which was retired, and with the retired ones, which the tree drops, every
    node made for the leaf goes exactly once. A node is marked superseded
    exactly when it is out of the chain. *)
Theorem arena_versions_are_dropped_once storage stripe (ops : list (avmap_op K V)) :
  (stripe < Counter.STRIPES)%nat → within chain_fuel (length ops) →
  ∃ bound, ∀ fuel, (bound <= fuel)%nat →
    wp (do_ops fuel ops) (λ _ s', ∀ l x, t_leaves s' !! l = Some x →
      ∃ links drop_fuel dropped, av_drop_in_arena drop_fuel x = Some (dropped, vl_key x) ∧
        NoDup (dropped ++ vl_retired x) ∧ (∀ i, is_Some (vl_heap x !! i) ↔ i ∈ dropped ++ vl_retired x) ∧
        seg x (vl_head x) links VNull ∧
        ∀ p n, vl_deref x p = Some n → is_superseded n = negb (bool_decide (p ∈ links.*1))) (avmap_new storage stripe : tree).
Proof using Hretries.
  intros Hs Hw. destruct (avdo_ops_holds leaf_layout version_layout chain_fuel retries Hretries 0 ops (avmap_new storage stripe : tree) ∅)
    as [bound Hb]; [by apply vholds_new|apply vfits_empty|done|].
  exists bound. intros fuel Hf. eapply wp_mono; [by apply Hb|]. intros rs s' (M' & _ & (B & m & R) & _) l x Hx.
  destruct (vr_good _ _ _ _ R l x Hx) as (c & dead & C & _). exists c, (length c).
  destruct (av_leaf_drop_spec (length c) x c C (le_n _)) as (dropped & H1 & H2 & H3). exists dropped.
  split_and!; [done..|apply C|]. intros p n Hn. pose proof (ci_flags _ _ _ _ C p n Hn) as Hfl. rewrite app_nil_r in Hfl.
  by apply (flags_superseded n _ _ Hfl).
Qed.

(** C8: the inserters of a versioned arena map. From a valid cache,
    [try_insert] inserts the version like the map's insert, or hands the key
    and value back and changes nothing, and leaves a valid cache, whether or not
    it took the fast path; what was captured stays. *)
Theorem versioned_inserter_insert_is_an_insert s B M m (ins : ArenaVersionedInserter) key version value :
  vrest s M B m → fits_in chain_fuel M → cache_valid s B (avin_cache ins) → cache_room s (avin_cache ins) 8 →
  wp (avinserter_try_insert leaf_layout version_layout chain_fuel retries ins key version value) (λ r s', vkept s s' ∧ ∃ B' m',
    cache_valid s' B' (avin_cache r.2) ∧
    match r.1 with
    | inl _ => vrest s' (m_insert key version (Some value) M) B' m'
    | inr full => full = {| af_key := key; af_value := value |} ∧ vrest s' M B' m'
    end) s.
Proof using Hretries.
  intros R HF HC HR. unfold avinserter_try_insert. apply wp_bind. eapply wp_mono.
  { apply (avtree_insert_spec leaf_layout version_layout chain_fuel retries Hretries s M B m key version (Some value) (Some (avin_cache ins)));
      [done..|by intros ? [= <-]]. }
  intros [r c] s' [(HK & B' & HD & HV) Hc]. cbn [fst snd] in *. destruct (proj2 Hc ltac:(by eexists)) as [c' ->]. cbn [expect].
  apply wp_bind, wp_ret. destruct r as [d|full]; cbn in HD |- *.
  - destruct HD as [_ [m' R']]. apply wp_ret. split; [done|]. exists B', m'. split; [by apply HV|done].
  - destruct HD as [-> [m' R']]. cbn. apply wp_ret. split; [done|]. exists B', m'. split; [by apply HV|done].
Qed.

(** C23: [max_insert_bytes] of a versioned map. In an arena that no other thread
    allocates from meanwhile, an insert of a version or a tombstone with the
    bytes it needs left is not refused, through an inserter or not, and takes
    no more than those; for a key that is there they are the bytes of a version
    node, and never more than [max_insert_bytes] of the key's length. *)
Theorem versioned_max_insert_bytes_suffices s B M m key version value cache :
  layout_ok leaf_layout → 1 <= al_size leaf_layout → layout_ok version_layout → 1 <= al_size version_layout →
  vrest s M B m → fits_in chain_fuel M → cache_good s B cache 8 → storage_ok (t_storage s) →
  let need := av_need leaf_layout version_layout M (as_bytes key) in
  need <= room (t_storage s) →
  need <= avmap_max_insert_bytes leaf_layout version_layout (length (as_bytes key)) ∧
  (is_Some (M !! as_bytes key) → need = worst version_layout) ∧
  wp (avtree_insert leaf_layout version_layout chain_fuel retries key version value cache) (λ r s',
    (∃ d, r.1 = inl d) ∧ storage_ok (t_storage s') ∧ room (t_storage s) - need <= room (t_storage s')) s.
Proof using Hretries.
  intros Hl Hls Hv Hvs R HF HC OK need Hroom. assert (1 <= al_align leaf_layout) as Ha.
  { destruct Hl as [_ Ha]. change (pow2_align (al_align leaf_layout)) in Ha. pose proof (pow2_align_range _ Ha). lia. }
  destruct (av_need_bound leaf_layout version_layout M (as_bytes key) Hls Ha Hvs) as [H1 H2]. split_and!; [done| |].
  - intros [e He]. unfold need, av_need. by rewrite He.
  - by apply (avtree_insert_takes leaf_layout version_layout chain_fuel retries s M B m).
Qed.
End theorems.

Section iterators.
Context {K V : Type} {AB : AsBytes K}.

(** The iterators of a versioned arena map. With enough fuel, a [range]
    yields the keys between its bounds whose newest version is live, with that
    version, in key order from either end, each once whatever the mix of
    [next] and [next_back], and then nothing; [scan] calls its callback on them
    in order until it says to stop. *)
Theorem arena_versioned_iterators_yield_the_live_keys {Q} `{AsBytes Q} {S} (s : RawTree (AVLeaf K V) ArenaStorage) M (start end_ : Bound Q) dirs
    (callback : K → V → Z → S → bool * S) st :
  vholds s M →
  ∃ es bound, range_of M (bytes_of start) (bytes_of end_) es ∧ ∀ fuel, (bound <= fuel)%nat →
    wp (avrange_run fuel (avmap_range start end_) dirs) (λ rs s', s' = s ∧ rs = deque (live_entries es) (Yield <$> dirs)) s ∧
    wp (avmap_scan fuel start end_ callback st) (λ st' s', s' = s ∧ st' = vvisit_until callback (live_entries es) st) s.
Proof.
  intros (B & m & R). destruct (vrange_new s M B m R (bytes_of start) (bytes_of end_)) as (es & H1 & H2 & H3).
  exists es, (Nat.max (cursor_fuel s B) (Datatypes.S (size M))). split; [exact H1|]. intros fuel Hf.
  assert (vrange_ok s M B m fuel (avmap_range start end_) es) as HR by (split_and!; [apply cursor_new_ok|exact H3|lia]). split.
  - eapply wp_extends; [apply avrange_run_extends|]. eapply vrange_run_spec; [exact R|lia|exact HR].
  - eapply wp_extends; [apply avscan_extends|]. eapply vscan_spec; [exact R|lia|exact HR].
Qed.
End iterators.

(** ** Witnesses: a map of byte keys in a small arena *)

Definition avleaf_layout : AllocLayout := {| al_size := 40; al_align := 8 |}.
Definition aversion_layout : AllocLayout := {| al_size := 24; al_align := 8 |}.
Abbreviation avbytes_tree := (RawTree (AVLeaf (list byte) nat) ArenaStorage).
Definition avtree0 : avbytes_tree := avmap_new astorage0 0.

(** Three versions of one key, a deleted key, a replaced version. *)
Definition sample_avops : list (avmap_op (list byte) nat) :=
  [AVTryInsert key_a 10 1%nat; AVTryInsert key_a 30 3%nat; AVTryInsert key_a 20 2%nat; AVTryInsert key_b 5 7%nat; AVDelete key_b 6;
   AVTryInsert key_c 4 8%nat; AVTryInsert key_c 4 9%nat].
Abbreviation run_avops fuel ops := (avdo_ops avleaf_layout aversion_layout 20 1 fuel ops).
Definition avtree1 : avbytes_tree := match run (run_avops 0 sample_avops) avtree0 with Done _ s => s | _ => avtree0 end.

Lemma avtree0_rest : vrest avtree0 ∅ ∅ ∅.
Proof. apply vrest_new. unfold Counter.STRIPES. lia. Qed.

Lemma avtree1_holds : ∃ M, vholds avtree1 M ∧ vfits 7 M.
Proof.
  assert (match run (run_avops 0 sample_avops) avtree0 with Done _ _ => true | _ => false end = true) as E by (vm_compute; reflexivity).
  unfold avtree1. destruct (run _ _) as [o s| | |] eqn:X; [|discriminate E..].
  destruct (avdo_ops_done (K := list byte) (V := nat) avleaf_layout aversion_layout 20 1 ltac:(lia) 0 0 sample_avops avtree0 ∅ o s) as (M & _ & HS & HF);
    [exists ∅, ∅; exact avtree0_rest|exact vfits_empty|apply small_within; cbn; lia|exact X|exists M; split; [exact HS|exact HF]].
Qed.

Definition all_avops : list (avmap_op (list byte) nat) :=
  sample_avops ++ [AVGetVersionLe key_a 25; AVRemove key_a; AVRemoveVersion key_a 20; AVPruneKey key_b 9 (λ _, false);
                   AVAllVersions key_a; AVLen; AVValidate; AVClear; AVIsEmpty].

Lemma arena_versioned_map_refines_histories_witness : ∃ bound, ∀ fuel, (bound <= fuel)%nat →
  wp (run_avops fuel all_avops) (λ rs s', ∃ M', allowed_run av_allowed all_avops rs ∅ M' ∧ vholds s' M') avtree0.
Proof.
  exact (arena_versioned_map_refines_histories (K := list byte) (V := nat) avleaf_layout aversion_layout 20 1 ltac:(lia) astorage0 0 all_avops
    ltac:(unfold Counter.STRIPES; lia) (small_within (length all_avops) ltac:(vm_compute; lia))).
Defined.

(** The results, computed: those of the heap, in 440 bytes. *)
Example all_avops_results :
  match run (run_avops 40 all_avops) avtree0 with
  | Done rs s => drop 7 rs = AVDone <$> [VPair (Some (20, 2%nat)); VPair (Some (30, 3%nat)); VBool true; VNumber 2;
                   VVersions [(30, None); (10, Some 1%nat)]; VLength 1; VUnit; VUnit; VBool true]
                 ∧ arena_size (st_arena (t_storage s)) = 440
  | _ => False
  end.
Proof. vm_compute. done. Qed.

(** In an arena of 256 bytes two keys fit; then inserts, tombstones and removals
    are refused, and what is there can still be read and unlinked. *)
Definition atiny : ArenaStorage :=
  {| st_arena := default (st_arena astorage0) (arena_new 1 4096 256); st_tls := Some Tlab.slots_new |}.

Example refused_avops :
  match run (run_avops 40 [AVTryInsert key_a 1 1%nat; AVTryInsert key_b 2 2%nat; AVTryInsert key_c 3 3%nat; AVDelete key_a 9;
               AVRemove key_a; AVGet key_a; AVRemoveKey key_a; AVLen]) (avmap_new atiny 0) with
  | Done rs s => rs = [AVDone (VBool true); AVDone (VBool true); AVFull {| af_key := key_c; af_value := 3%nat |}; AVNoRoom; AVNoRoom;
                       AVDone (VValue (Some 1%nat)); AVDone (VBool true); AVDone (VLength 1)]
  | _ => False
  end.
Proof. vm_compute. done. Qed.

(** The handle on the newest version of [key_a]. *)
Definition ahandle1 : VersionedEntryRef :=
  match run (avmap_get_entry 1 key_a) avtree1 with Done (Some e) _ => e | _ => {| ve_leaf := 1%positive; ve_node := VNull |} end.

Lemma ahandle1_ok : vhandle avtree1 ahandle1 key_a (30, 3%nat).
Proof.
  assert (match t_leaves avtree1 !! ve_leaf ahandle1 with
    | Some x => match vl_deref x (ve_node ahandle1) with
                | Some n => bool_decide (vl_key x = key_a) && bool_decide (data n = (30, Some 3%nat))
                | None => false
                end
    | None => false
    end = true) as E by (vm_compute; reflexivity).
  destruct (t_leaves avtree1 !! ve_leaf ahandle1) as [x|] eqn:Hx; [|discriminate E].
  destruct (vl_deref x (ve_node ahandle1)) as [n|] eqn:Hn; [|discriminate E]. apply andb_prop in E as [E1 E2].
  exists x, n. split_and!; [exact Hx|by apply bool_decide_eq_true in E1|exact Hn|by apply bool_decide_eq_true in E2].
Qed.

Lemma arena_captured_versions_never_change_witness : ∃ bound, ∀ fuel, (bound <= fuel)%nat →
  wp (_ ← run_avops fuel [AVTryInsert key_a 30 4%nat; AVRemoveKey key_a; AVClear]; ventry_read ahandle1)
    (λ r _, r = (key_a, 30, 3%nat)) avtree1.
Proof.
  destruct avtree1_holds as (M & HS & HF).
  exact (arena_captured_versions_never_change (K := list byte) (V := nat) avleaf_layout aversion_layout 20 1 ltac:(lia) 7 avtree1 M
    [AVTryInsert key_a 30 4%nat; AVRemoveKey key_a; AVClear] ahandle1 key_a (30, 3%nat) HS HF (small_within 10 ltac:(lia)) ahandle1_ok).
Defined.

Lemma arena_versions_are_dropped_once_witness : ∃ bound, ∀ fuel, (bound <= fuel)%nat →
  wp (run_avops fuel all_avops) (λ _ s', ∀ l x, t_leaves s' !! l = Some x →
    ∃ drop_fuel dropped, av_drop_in_arena drop_fuel x = Some (dropped, vl_key x) ∧ NoDup (dropped ++ vl_retired x)) avtree0.
Proof.
  destruct (arena_versions_are_dropped_once (K := list byte) (V := nat) avleaf_layout aversion_layout 20 1 ltac:(lia) astorage0 0 all_avops
    ltac:(unfold Counter.STRIPES; lia) (small_within (length all_avops) ltac:(vm_compute; lia))) as [bound Hb].
  exists bound. intros fuel Hf. refine (wp_mono _ _ _ _ (Hb fuel Hf) _). intros rs s' HX l x Hx.
  destruct (HX l x Hx) as (links & drop_fuel & dropped & H1 & H2 & _). exists drop_fuel, dropped. split; [exact H1|exact H2].
Defined.

Lemma fits_in_empty n : fits_in n (∅ : gmap path (list byte * list (Z * option nat))).
Proof. intros k e. by rewrite lookup_empty. Qed.

Lemma versioned_inserter_insert_is_an_insert_witness :
  wp (avinserter_try_insert avleaf_layout aversion_layout 20 1 avmap_inserter key_a 5 7%nat) (λ r s', vkept avtree0 s' ∧ ∃ B' m',
    cache_valid s' B' (avin_cache r.2) ∧
    match r.1 with
    | inl _ => vrest s' (m_insert key_a 5 (Some 7%nat) ∅) B' m'
    | inr full => full = {| af_key := key_a; af_value := 7%nat |} ∧ vrest s' ∅ B' m'
    end) avtree0.
Proof.
  refine (versioned_inserter_insert_is_an_insert avleaf_layout aversion_layout 20 1 _ avtree0 ∅ ∅ ∅ avmap_inserter key_a 5 7%nat avtree0_rest
    (fits_in_empty 20) _ _); [lia|exact I|done].
Defined.

(** An inserter's later keys take the fast path, and a new version of a key
    that is there costs a version node. *)
Example versioned_inserter_fast_path :
  match run (
    '(_, i) ← avinserter_try_insert avleaf_layout aversion_layout 20 1 avmap_inserter (akey Byte.x61) 1 1%nat;
    '(_, i) ← avinserter_try_insert avleaf_layout aversion_layout 20 1 i (akey Byte.x62) 2 2%nat;
    '(_, i) ← avinserter_try_insert avleaf_layout aversion_layout 20 1 i (akey Byte.x63) 3 3%nat;
    '(_, i) ← avinserter_try_insert avleaf_layout aversion_layout 20 1 i (akey Byte.x61) 4 4%nat;
    mret (hint_version <$> ic_hint (avin_cache i))) avtree0 with
  | Done r s => r = Some 4 ∧ Counter.sum (t_len s) = 3
  | _ => False
  end.
Proof. vm_compute. done. Qed.

Lemma astorage0_ok : storage_ok astorage0.
Proof. split; [vm_compute; done|vm_compute; done|]. intros slots s [= <-] [-> _]%elem_of_replicate. by vm_compute. Qed.

Lemma versioned_max_insert_bytes_suffices_witness :
  av_need avleaf_layout aversion_layout (∅ : gmap path (list byte * list (Z * option nat))) key_a = 1906 ∧
  avmap_max_insert_bytes avleaf_layout aversion_layout 1 = 1977 ∧
  wp (avtree_insert avleaf_layout aversion_layout 20 1 key_a 5 (Some 7%nat) None) (λ r s',
    (∃ d, r.1 = inl d) ∧ storage_ok (t_storage s') ∧ room astorage0 - 1906 <= room (t_storage s')) avtree0.
Proof.
  split; [vm_compute; reflexivity|]. split; [vm_compute; reflexivity|].
  refine (proj2 (proj2 (versioned_max_insert_bytes_suffices avleaf_layout aversion_layout 20 1 _ avtree0 ∅ ∅ ∅ key_a 5 (Some 7%nat) None
    _ _ _ _ avtree0_rest (fits_in_empty 20) _ astorage0_ok _))); [lia|split; [cbn; lia|by exists 3]|cbn; lia|split; [cbn; lia|by exists 3]|cbn; lia|done|].
  vm_compute. done.
Defined.

Lemma arena_versioned_iterators_yield_the_live_keys_witness : ∃ es bound,
  wp (avrange_run bound (avmap_range Unbounded (Included key_c)) [Backward; Forward; Forward])
    (λ rs s', s' = avtree1 ∧ rs = deque (live_entries es) [Yield Backward; Yield Forward; Yield Forward]) avtree1.
Proof.
  destruct avtree1_holds as (M & HS & _).
  destruct (arena_versioned_iterators_yield_the_live_keys avtree1 M Unbounded (Included key_c) [Backward; Forward; Forward]
    (λ _ v _ n, (true, (n + v)%nat)) 0%nat HS) as (es & bound & _ & H2).
  exists es, bound. exact (proj1 (H2 bound (le_n bound))).
Defined.

(** The entries themselves, computed: the deleted key is skipped. *)
Example live_range_of_avtree1 :
  match run (avrange_run 40 (avmap_range Unbounded (Included key_c)) [Backward; Forward; Forward]) avtree1 with
  | Done rs _ => rs = [Some (key_c, 4, 9%nat); Some (key_a, 30, 3%nat); None]
  | _ => False
  end.
Proof. vm_compute. reflexivity. Qed.
